(* ===== verification/_CoqProject ===== *)
-Q . S2P
Prelude.v
RustStr.v
Utf8.v
Protocol.v
Timeline.v
Router.v
Safety.v
Turn.v
Approvals.v
ToolLifecycle.v
LoopDetector.v
ProviderErrors.v
Messages.v
SessionCodec.v
Store.v
History.v
Persistence.v
Views.v
Client.v
RemoteAuth.v
ToolOutput.v
Providers.v
AgentLoop.v
AgentSession.v
RemoteGateway.v
Registry.v
RegistryLocks.v
Daemon.v
Listing.v
Serve.v
Catalog.v
CatalogWriter.v
Coordination.v
Notices.v
CoordOps.v
