(* ===== verification/Prelude.v ===== *)
(** * Daimonos: a verification development of the session engine

    Daimonos ([src/src/], Rust) is an agent host: a daemon owns agent sessions,
    drives the conversation of each with a model provider and its tools, and lets
    several frontends (terminal, ACP editors, remote clients) attach to a session,
    follow it through one ordered stream of events, answer approval requests and
    cancel turns.  This development models the session engine, the part every
    frontend depends on, the client side that follows it, the agent that runs the
    turns, and the store through which the agents of a workspace coordinate.

    ** The parts and how they interact

    A turn ([SessionCore::begin_turn], [prompt]) runs the agent loop.  Everything
    visible goes through the event router, which numbers events, keeps a ring of
    recent ones and delivers them to subscribers; frontends and snapshots fold the
    events into a timeline.  Before a tool runs, the tool lifecycle admits it, asks
    the safety policy and, where needed, the approval broker, whose requests wait
    for a client's decision.  After each model round the loop detector may hint or
    stop the turn.  What changed is saved through the session's persistence, which
    writes to the session store under a writer epoch and a generation.

    The agent session holds the conversation.  A turn runs the agent loop on it: each
    generation sends the history to the provider, the answer's tool calls run one by
    one and their bounded results go back, until the provider ends the turn.  A
    journal follows the loop so that a cancelled turn keeps what was done; between
    turns old history is summarised.

    ** Files

    - [Prelude], this file: machine integers, results, searches in vectors, tactics.
    - [RustStr], [Utf8]: the operations of [str], [String] and [u64] the sources
      use; valid UTF-8, character boundaries and cuts.
    - [Protocol] ([session_protocol.rs]): events, client messages and their
      validation, runtime options, context usage, approval and snapshot data.
    - [Timeline] ([session_timeline.rs]): the reducer from events to the bounded
      timeline; its abstract specification is the unbounded timeline
      [SpecTimeline].
    - [Router] ([session_core.rs], [SessionEventRouter]): sequence numbers, replay
      ring, subscriptions, durability transitions.  Its abstract specification is
      an append-only log; the class [EventSink] states what publishers rely on, and
      [router_sink] shows that the router provides it.
    - [Safety] ([safety.rs]): the gate on tool calls and the approvals file.
    - [Turn] ([session_core.rs], [TurnController], [SessionTurn], [clear_history], the
      statuses of [request_approval]): prompts, clears and cancels as interleaved atomic
      steps.
    - [Approvals] ([session_core.rs], [ApprovalBroker], [request_approval]): the
      broker, and the waiting request as a step machine interleaved with clients.
    - [ToolLifecycle] ([session_core.rs], [CanonicalToolLifecycle],
      [cleanup_cancelled_turn], [bounded_tool_output]): the operations as functions, and
      as the steps (a critical section, one event) that tasks interleave.
    - [LoopDetector] ([loop_detector.rs]): the retry-storm detector.
    - [ProviderErrors] ([session_core.rs], [safe_provider_error_message],
      [sanitize_provider_error], [canonical_assistant_outcome]).
    - [Messages] ([providers/mod.rs], [session_store.rs]): conversation messages
      and the preview line.
    - [SessionCodec] ([session_store.rs], [providers/mod.rs], [session_protocol.rs]): the
      derived JSON encoding of stored sessions and its decoding; the class [JsonText]
      states what they rely on of the JSON library, and [bits_text] is an instance.
    - [Store] ([session_store.rs]): writer epochs, generations, load, import and
      delete as atomic transactions.
    - [Persistence] ([session_core.rs], [SessionPersistence], [persist_current],
      [configure_turn_checkpoint]): save requests and the checkpoints of turns as a
      step machine over the store.
    - [Views] ([session_daemon.rs], [SnapshotState], [fit_snapshot_to_frame];
      [frontend_state.rs], [ViewState]): the snapshot the daemon keeps and the state a
      frontend shows.
    - [Client] ([session_client.rs]; [session_daemon.rs], [serve_client]): attaching,
      resuming and receiving, against the daemon's replies.
    - [RemoteAuth] ([remote_auth.rs]): pairing claims, approvals, tickets and
      revocation over an abstract signature scheme ([DeviceCrypto]).
    - [RemoteGateway] ([remote_gateway.rs]): admission of addresses, the pairing and
      authentication dialogue of a connection, the controller lease and the message
      rate, with all connections interleaved.
    - [Registry], [RegistryLocks], [Daemon] ([session_daemon.rs], [SessionDaemon]): the
      registry of sessions; [Registry] has its data and critical sections and every
      task that works on it (open, handshake, prompt, eviction, ending, final save,
      shutdown) as a step machine that may be dropped where the code awaits,
      [RegistryLocks] the locks, reservations and late saves, [Daemon] the lives of
      sessions and clients.
    - [Listing] ([session_daemon.rs], [listing_rows], [list_sessions_for_connection],
      [fit_session_list_to_frame]): the rows of a listing, and the snapshot a
      connection pages through, with the registry that bounds them.
    - [Serve] ([session_daemon.rs], [serve_client_with_policy]): the handler of each
      client message, and the loop of a connection over its event queue as a step
      machine interleaved with the router, the prompt task, stops and replacements.
    - [Catalog] ([session_catalog.rs], [SessionCatalog]; [session_store.rs],
      [scan_summaries]; [session_daemon.rs], [reconcile_catalog_once],
      [durable_listing_rows]): the index of stored sessions and its reconciliation
      with the store.
    - [CatalogWriter] ([session_catalog.rs], [SessionCatalogWriter], [run_writer]): the
      bounded queue of catalog mutations and the task that applies them, as a step
      machine.
    - [Coordination] ([coordination/store.rs]): the tables through which agents register,
      write to each other and reserve files, with the statements on them.
    - [Notices] ([agent.rs], [coordination_model_notice], [poll_coordination_ui_notice]):
      the notices of unread mail to the model and to the user, as interleaved steps.
    - [CoordOps] ([ops/coord.rs], [coordination/names.rs], [config.rs]): the verbs of the
      coordination operation over that store, with the faults of every statement, and
      the minting of names.
    - [History] ([agent.rs], [compaction.rs]): what makes a history acceptable to the
      providers ([paired]), the repairs of interrupted turns, the compaction cut.
    - [ToolOutput] ([tool_output.rs], [config.rs]): bounding and storing tool output,
      shedding old results.
    - [Providers] ([providers/mod.rs], [agent.rs], [compaction.rs], [evidence.rs],
      [ops/exec_filter.rs]): responses, usage, retries, policy, evidence ledger.
    - [AgentLoop] ([agent.rs], [run_inner]): the loop of a turn over an environment
      ([Env]) whose answers may depend on everything that happened before.
    - [AgentSession] ([agent.rs], [AgentSession]): journal, commit, cancellation,
      retry, truncation and compaction.

    Names follow the source.  A mutable structure is a record, a method a function
    from the old state to the new one; a method that several tasks may interrupt is
    a step machine whose steps are its critical sections (one lock, one atomic
    access), and a relation interleaves the tasks.  Errors are values of [result].
    Arguments stand for what the outside decides: the clock, which branch of a
    select is ready, the answers of the file system and of the database, epochs.

    ** What the theorems show

    - Events: subscribers that attach with a snapshot miss and repeat nothing,
      replay is exact or asks for a snapshot, the router refines a log; the bounded
      timeline is a window of the unbounded one, finished tools never change, and
      it shows exactly the active tool calls.
    - Turns: a turn and a clear never overlap, the stream is well bracketed with the
      approvals it waits for, the terminal status reports who won the claim.
    - Approvals and tools: every approval is claimed exactly once, the first
      decision is final, an allowed call was allowed by someone entitled to, a
      decided request returns; every admitted call is announced and finished once in
      every interleaving, output is bounded, cleanup after a cancelled turn leaves
      nothing open.
    - Loop detector: exact failures are bounded, storms are stopped, progress is
      not disturbed, hints back off.
    - Persistence: a clean session has stored everything it was asked to, or a checkpoint
      of a turn that began after it, a superseded writer is inert, saved records are kept
      and decoded as they were.
    - Views: a client follows the daemon from a snapshot on, whatever the transport
      repeats or drops; frame fitting is a first fit; attaching reaches the daemon's
      position.
    - Agent: every request has an acceptable history, no tool runs that the hook did
      not allow, completed results are journaled before the next call, a turn with a
      failover chain of distinct models ends;
      cancelling, compacting and truncating keep the session usable, and usage is
      counted once.
    - Tool output: a bounded or pruned result can be recovered from the file it names,
      previews fit, the shrinking loop ends, evidence says what was observed.
    - Remote access: only a paired device that signs its challenge is served, under its
      own identity, by at most one controller at a time; revocation disconnects,
      admission counts are exact, devices and message rates are bounded.
    - Daemon: sessions and reservations stay within the limit, a session ends once and
      tells everyone attached, its clients are the live connections, only a deserted
      session is evicted, a late save keeps its identity, nothing is registered after
      a shutdown has begun, no lock is lost.
    - Serving: an observer is sent the log without gaps and is current when its
      connection is quiet, every request is answered once until the session stops, a
      connection does only what it was granted, request keys of different clients differ.
    - Listing and catalog: pages are the listing, following cursors ends with all of it,
      listings are bounded and those of remote and local clients do not disturb each
      other; the latest mutation wins in any order, reconciliation of a readable store
      left alone ends with exactly the stored sessions, the writer becomes quiet and loses
      nothing silently.
    - Coordination: the tables stay well formed, a message reaches exactly those
      addressed and is never changed, unread mail is announced once on each channel while
      the session keeps its name, the conflict check is exact, reservations of other
      agents are untouched, minted names are free; every failure but one is an answer.
    - Text: error messages shown to users are fixed ones, log text is masked and
      bounded, truncation keeps UTF-8 valid.

    Some theorems exhibit behaviour that contradicts what comments, tests or the
    manual say: [Turn.cancelling_can_follow_terminal],
    [Approvals.late_decision_is_lost], [ProviderErrors.bearer_credential_survives],
    [Persistence.failed_write_is_not_retried], [Views.attach_mid_stream_splits_answer],
    [AgentLoop.failover_sends_failed_attempt], [ToolOutput.marker_path_read_back],
    [ToolOutput.truncation_can_grow], [AgentSession.retry_restarts_last_user_text],
    [RemoteAuth.revocation_misses_approved_pairing],
    [RemoteGateway.replaced_ticket_can_stay_served],
    [Daemon.dropped_open_leaks_reservation], [Serve.lag_can_go_unnoticed],
    [Catalog.corrupt_record_stops_reconciliation],
    [CatalogWriter.reconciler_overwrites_a_mark],
    [Coordination.concurrent_reservations_miss_each_other],
    [Coordination.concurrent_registrations_share_a_session],
    [Notices.renamed_session_misses_mail], [Notices.ui_notice_for_old_name_hides_mail],
    [AgentLoop.repeated_model_never_ends], [ToolLifecycle.cleanup_can_finish_before_start],
    [Store.deep_call_is_not_loaded], [Persistence.clean_over_checkpoint],
    [Persistence.stale_capture_is_reachable],
    [CoordOps.self_addressed_mail_blames_the_store],
    [CoordOps.huge_reservation_limit_panics],
    [CoordOps.failed_registration_drops_the_binding],
    [CoordOps.failed_lookup_takes_a_name] and
    [CoordOps.failed_read_back_blames_the_request].

    ** Bounds and fuel

    A [u64] that can overflow is a [Z] with the checked or saturating operation of
    the source; counters that grow by one per operation and are not checked in the
    source (atomics of the persistence, detector counters) are unbounded.  A
    [usize] is a [nat].  Recursion that is not structural has fuel: decimal digits
    (20 digits suffice for a [u64]), searches and replacements in a string (its
    length), popping characters (its length); the lemmas show the fuel suffices
    where a result depends on it; the shrinking of a JSON value has one round per byte
    of its strings ([structured_preview_terminates]); the agent loop runs with any
    fuel, and [turn_terminates] gives the fuel that suffices; [writer_drain] and
    [reconcile_until] have the bounds their theorems state.  Statements about event logs assume fewer than
    2^64 events where the source stops numbering.

    ** What is not modelled

    Transport (sockets, WebSockets, stdio), JSON encodings other than that of stored
    sessions, SQL text and schema set-up, logging, the providers' HTTP clients, the terminal UI and the
    operating-system effects of tools: they are input and output around the parts
    above, or libraries, and enter as arguments.  The protocol servers ([acp_cmd.rs],
    [mcp.rs]), the tool operations ([ops/], but for coordination) and the knowledge
    graph ([kgl/]) are programs of their own that the session engine does not depend
    on. *)

From stdpp Require Import base numbers list strings gmap sorting.

(** ** Machine integers *)

(** A [u64] is a [Z] between 0 and [U64_MAX]; the operations below are the ones
    of the Rust standard library the program uses, with their overflow
    behaviour written out.  A [usize] is a [nat]: the program uses it for the
    lengths of collections, which are bounded by the address space. *)
Definition U64_MAX : Z := 18446744073709551615.
Definition I64_MIN : Z := -9223372036854775808.
Definition I64_MAX : Z := 9223372036854775807.

Definition is_u64 (z : Z) : Prop := (0 ≤ z ≤ U64_MAX)%Z.

Definition u64_saturating_add (a b : Z) : Z := Z.min (a + b) U64_MAX.

Definition u64_checked_add (a b : Z) : option Z :=
  if (a + b <=? U64_MAX)%Z then Some (a + b)%Z else None.

Definition u64_checked_sub (a b : Z) : option Z :=
  if (b <=? a)%Z then Some (a - b)%Z else None.

Definition i64_checked_sub (a b : Z) : option Z :=
  if ((I64_MIN <=? a - b) && (a - b <=? I64_MAX))%Z then Some (a - b)%Z else None.

(** ** Results *)

Inductive result (A E : Type) : Type :=
  | Ok (a : A)
  | Err (e : E).
Arguments Ok {A E} a.
Arguments Err {A E} e.

#[export] Instance result_eq_dec {A E} `{EqDecision A, EqDecision E} : EqDecision (result A E).
Proof. solve_decision. Defined.

Definition map_err {A E F : Type} (f : E → F) (r : result A E) : result A F :=
  match r with Ok a => Ok a | Err e => Err (f e) end.

Definition ok_or {A E : Type} (o : option A) (e : E) : result A E :=
  match o with Some a => Ok a | None => Err e end.

Declare Scope result_scope.
Delimit Scope result_scope with result.

(** Rust's [?] on a [Result]. *)
Notation "'let?' x := c 'in' k" :=
  (match c with Ok x => k | Err e => Err e end)
  (at level 10, x name, c at level 100, k at level 200) : result_scope.

(** ** Searching and updating vectors from either end *)

(** [iter().rev().find(p)]: the last element that satisfies [p]. *)
Fixpoint rfind {A : Type} (p : A → bool) (l : list A) : option A :=
  match l with
  | [] => None
  | x :: l' => match rfind p l' with Some y => Some y | None => if p x then Some x else None end
  end.

(** [iter().find(p)]: the first element that satisfies [p]. *)
Fixpoint lfind {A : Type} (p : A → bool) (l : list A) : option A :=
  match l with
  | [] => None
  | x :: l' => if p x then Some x else lfind p l'
  end.

(** [if let Some(x) = v.iter_mut().find(p) { *x = f(x) }]. *)
Fixpoint update_first {A : Type} (p : A → bool) (f : A → A) (l : list A) : list A :=
  match l with
  | [] => []
  | x :: l' => if p x then f x :: l' else x :: update_first p f l'
  end.

(** [if let Some(x) = v.iter_mut().rev().find(p) { *x = f(x) }]. *)
Fixpoint update_last {A : Type} (p : A → bool) (f : A → A) (l : list A) : list A :=
  match l with
  | [] => []
  | x :: l' => if existsb p l' then x :: update_last p f l'
               else if p x then f x :: l' else x :: l'
  end.

(** The last [n] elements. *)
Definition lastn {A : Type} (n : nat) (l : list A) : list A := drop (length l - n) l.

Definition is_some {A : Type} (o : option A) : bool :=
  match o with Some _ => true | None => false end.

(** ** Tactics *)

(** Case on the boolean tests and matches of the goal, simplifying the
    resulting equations, until none is left. *)
Ltac split_cases :=
  repeat (case_match; simplify_eq/=); simplify_eq/=.

(** Turn boolean tests in the hypotheses into propositions. *)
Ltac bool_to_prop :=
  repeat match goal with
  | H : (_ && _) = true |- _ => apply andb_true_iff in H as [? ?]
  | H : (_ || _) = true |- _ => apply orb_true_iff in H; destruct H
  | H : (_ || _) = false |- _ => apply orb_false_iff in H as [? ?]
  | H : negb _ = true |- _ => apply negb_true_iff in H
  | H : negb _ = false |- _ => apply negb_false_iff in H
  | H : bool_decide _ = true |- _ => apply bool_decide_eq_true in H
  | H : bool_decide _ = false |- _ => apply bool_decide_eq_false in H
  | H : (_ <=? _)%Z = true |- _ => apply Z.leb_le in H
  | H : (_ <=? _)%Z = false |- _ => apply Z.leb_gt in H
  | H : (_ <? _)%Z = true |- _ => apply Z.ltb_lt in H
  | H : (_ <? _)%Z = false |- _ => apply Z.ltb_ge in H
  | H : (_ =? _)%Z = true |- _ => apply Z.eqb_eq in H
  | H : (_ =? _)%Z = false |- _ => apply Z.eqb_neq in H
  | H : (_ <=? _)%nat = true |- _ => apply Nat.leb_le in H
  | H : (_ <=? _)%nat = false |- _ => apply Nat.leb_gt in H
  | H : (_ <? _)%nat = true |- _ => apply Nat.ltb_lt in H
  | H : (_ <? _)%nat = false |- _ => apply Nat.ltb_ge in H
  end.

(** Lemmas about list searches and updates. *)
Create Rewrite HintDb vec.

(** ** Lemmas on machine integers *)

Lemma u64_checked_add_Some a b c :
  u64_checked_add a b = Some c ↔ c = (a + b)%Z ∧ (a + b ≤ U64_MAX)%Z.
Proof. unfold u64_checked_add. split; intros; split_cases; bool_to_prop; naive_solver lia. Qed.

Lemma u64_saturating_add_exact a b :
  (a + b ≤ U64_MAX)%Z → u64_saturating_add a b = (a + b)%Z.
Proof. unfold u64_saturating_add. lia. Qed.

(** ** Lemmas on vectors *)

Section vectors.
Context {A : Type}.
Implicit Types (p : A → bool) (f : A → A) (l k : list A) (x : A) (n : nat).

Lemma length_lastn n l : length (lastn n l) = n `min` length l.
Proof. unfold lastn. rewrite length_drop. lia. Qed.

Lemma lastn_split n l : l = take (length l - n) l ++ lastn n l.
Proof. symmetry. apply take_drop. Qed.

Lemma lastn_app_r n l k : length k ≤ n → lastn n (l ++ k) = lastn (n - length k) l ++ k.
Proof.
  intros. unfold lastn. rewrite length_app, drop_app.
  replace (length l + length k - n - length l) with 0 by lia.
  by replace (length l + length k - n) with (length l - (n - length k)) by lia.
Qed.

Lemma lastn_app_ge n l k : n ≤ length k → lastn n (l ++ k) = lastn n k.
Proof.
  intros. unfold lastn. rewrite length_app, drop_app_ge by lia.
  f_equal. lia.
Qed.

(** Trimming before an append does not change what a later trim keeps. *)
Lemma lastn_lastn_app n l k : lastn n (lastn n l ++ k) = lastn n (l ++ k).
Proof.
  rewrite (lastn_split n l) at 2. rewrite <- app_assoc.
  destruct (decide (n ≤ length l)).
  - symmetry. apply lastn_app_ge. rewrite length_app, length_lastn. lia.
  - by replace (length l - n) with 0 by lia.
Qed.

Lemma last_lastn n l : 0 < n → last (lastn n l) = last l.
Proof.
  intros Hn. destruct l as [|x l _] using rev_ind; [done|].
  rewrite lastn_app_r by (simpl; lia). by rewrite !last_snoc.
Qed.

Lemma elem_of_lastn n l x : x ∈ lastn n l → x ∈ l.
Proof. intros Hx. rewrite (lastn_split n l). apply elem_of_app. by right. Qed.

Lemma existsb_elem p l : existsb p l = true ↔ ∃ x, x ∈ l ∧ p x = true.
Proof. rewrite existsb_exists. setoid_rewrite list_elem_of_In. done. Qed.

Lemma existsb_not p l : existsb p l = false ↔ ∀ x, x ∈ l → p x = false.
Proof.
  split.
  - intros H x Hx. destruct (p x) eqn:E; [|done].
    rewrite (proj2 (existsb_elem p l)) in H; [done|eauto].
  - intros H. destruct (existsb p l) eqn:E; [|done].
    apply existsb_elem in E as (x & Hx & E). by rewrite H in E.
Qed.

Lemma rfind_app p l k :
  rfind p (l ++ k) = match rfind p k with Some y => Some y | None => rfind p l end.
Proof.
  induction l as [|x l IH]; simpl; [by destruct (rfind p k)|].
  rewrite IH. by destruct (rfind p k).
Qed.

Lemma rfind_Some p l x :
  rfind p l = Some x ↔ ∃ l1 l2, l = l1 ++ x :: l2 ∧ p x = true ∧ ∀ y, y ∈ l2 → p y = false.
Proof.
  split.
  - induction l as [|y l IH]; simpl; [done|]. destruct (rfind p l) as [z|] eqn:E.
    + intros [= ->]. destruct (IH eq_refl) as (l1 & l2 & -> & ? & ?).
      by exists (y :: l1), l2.
    + destruct (p y) eqn:Ep; [|done]. intros [= ->].
      exists [], l. split_and!; [done..|]. clear IH Ep. intros z Hz.
      induction l as [|w l IHl]; [by apply not_elem_of_nil in Hz|].
      simpl in E. destruct (rfind p l); [done|]. destruct (p w) eqn:?; [done|].
      apply elem_of_cons in Hz as [->|?]; auto.
  - intros (l1 & l2 & -> & Hp & Hl2). rewrite rfind_app. simpl.
    assert (rfind p l2 = None) as ->; [|by rewrite Hp].
    clear Hp. induction l2 as [|w l2 IH]; [done|]. simpl.
    rewrite IH by (intros; apply Hl2; by right). by rewrite Hl2 by left.
Qed.

Lemma rfind_existsb p l : is_some (rfind p l) = existsb p l.
Proof.
  induction l as [|x l IH]; [done|]. simpl. rewrite <- IH.
  by destruct (rfind p l), (p x).
Qed.

Lemma update_last_none p f l : existsb p l = false → update_last p f l = l.
Proof.
  induction l as [|x l IH]; [done|]. simpl. intros [-> ->]%orb_false_iff. done.
Qed.

Lemma update_last_app p f l k :
  update_last p f (l ++ k) =
  if existsb p k then l ++ update_last p f k else update_last p f l ++ k.
Proof.
  induction l as [|x l IH]; simpl.
  { destruct (existsb p k) eqn:E; [done|]. by apply update_last_none. }
  rewrite existsb_app, IH.
  destruct (existsb p k) eqn:Ek; rewrite ?orb_true_r, ?orb_false_r; [done|].
  by destruct (existsb p l), (p x).
Qed.

Lemma length_update_last p f l : length (update_last p f l) = length l.
Proof.
  induction l as [|x l IH]; [done|]. simpl.
  destruct (existsb p l), (p x); simpl; by rewrite ?IH.
Qed.

(** The update of the last match commutes with trimming the front. *)
Lemma lastn_update_last n p f l :
  lastn n (update_last p f l) = update_last p f (lastn n l).
Proof.
  unfold lastn at 1. rewrite length_update_last.
  rewrite (lastn_split n l) at 2. rewrite update_last_app.
  destruct (existsb p (lastn n l)) eqn:E.
  - rewrite drop_app_ge by (rewrite length_take; lia).
    rewrite length_take. by replace (_ - _) with 0 by lia.
  - rewrite (update_last_none _ _ (lastn n l)) by done.
    rewrite drop_app_ge by (rewrite length_update_last, length_take; lia).
    rewrite length_update_last, length_take. by replace (_ - _) with 0 by lia.
Qed.

(** An update that keeps [g] keeps the list of [g]s. *)
Lemma map_update_last {B} (g : A → B) p f l :
  (∀ x, p x = true → g (f x) = g x) → map g (update_last p f l) = map g l.
Proof.
  intros Hg. induction l as [|x l IH]; [done|]. simpl.
  destruct (existsb p l); simpl; [by rewrite IH|].
  destruct (p x) eqn:E; simpl; [by rewrite Hg|done].
Qed.

Lemma update_last_at p f l1 x l2 :
  p x = true → (∀ y, y ∈ l2 → p y = false) →
  update_last p f (l1 ++ x :: l2) = l1 ++ f x :: l2.
Proof.
  intros Hx Hl2. rewrite update_last_app. simpl. rewrite Hx. simpl.
  by rewrite (proj2 (existsb_not _ _) Hl2).
Qed.

Lemma length_update_first p f l : length (update_first p f l) = length l.
Proof. induction l as [|x l IH]; [done|]. simpl. destruct (p x); simpl; by rewrite ?IH. Qed.

End vectors.

Lemma StronglySorted_snoc {A} (R : relation A) (l : list A) x :
  StronglySorted R l → Forall (λ y, R y x) l → StronglySorted R (l ++ [x]).
Proof.
  induction 1 as [|y l Hs IH Hy]; intros Hx; simpl; [by repeat constructor|].
  apply Forall_cons in Hx as [Hyx Hx]. constructor; [by apply IH|].
  apply Forall_app; by repeat constructor.
Qed.

Lemma take_last_split {A} (l : list A) e :
  last l = Some e → l = take (length l - 1) l ++ [e].
Proof.
  destruct l as [|x l _] using rev_ind; [done|]. rewrite last_snoc. intros [= ->].
  rewrite length_app. simpl. rewrite take_app_le by lia.
  by rewrite take_ge by lia.
Qed.

Lemma elem_of_Lfilter {A} (p : A → bool) (l : list A) x : x ∈ List.filter p l ↔ x ∈ l ∧ p x = true.
Proof. rewrite !list_elem_of_In. apply filter_In. Qed.

Lemma Lfilter_all {A} (p : A → bool) (l : list A) : (∀ x, x ∈ l → p x = true) → List.filter p l = l.
Proof.
  induction l as [|x l IH]; intros H; simpl; [done|]. rewrite H by set_solver. f_equal. apply IH. set_solver.
Qed.

Lemma NoDup_map_filter {A B} (f : A → B) (p : A → bool) l : NoDup (map f l) → NoDup (map f (List.filter p l)).
Proof.
  induction l as [|x l IH]; simpl; [done|]. intros [Hx Hl]%NoDup_cons. destruct (p x); simpl; [|by apply IH].
  constructor; [|by apply IH]. intros (y&Hy&Hin)%list_elem_of_fmap. apply Hx. rewrite Hy. apply list_elem_of_fmap_2.
  apply list_elem_of_In, filter_In in Hin. apply list_elem_of_In. tauto.
Qed.

Lemma sorted_split {A} (R : relation A) (l k : list A) x y : StronglySorted R (l ++ k) → x ∈ l → y ∈ k → R x y.
Proof.
  induction l as [|z l IH]; simpl; intros Hs Hx Hy; [set_solver|]. apply StronglySorted_inv in Hs as [Hs Hz].
  apply elem_of_cons in Hx as [->|Hx]; [|by apply IH]. rewrite Forall_forall in Hz. apply Hz. set_solver.
Qed.

Lemma sorted_NoDup (l : list Z) : StronglySorted Z.lt l → NoDup l.
Proof.
  induction 1 as [|x l Hs IH Hx]; constructor; [|done].
  intros Hin. rewrite Forall_forall in Hx. apply Hx in Hin. lia.
Qed.

Lemma elem_of_update_last {A} (p : A → bool) f l x :
  x ∈ l → p x = false → x ∈ update_last p f l.
Proof.
  induction l as [|y l IH]; simpl; intros Hx Hp; [by apply not_elem_of_nil in Hx|].
  apply elem_of_cons in Hx as [->|Hx].
  - destruct (existsb p l); [left|]. rewrite Hp. left.
  - destruct (existsb p l); [right; auto|]. destruct (p y); by right.
Qed.

Lemma rfind_lastn_or {A} (p : A → bool) n (l : list A) :
  rfind p l = match rfind p (lastn n l) with
              | Some x => Some x
              | None => rfind p (take (length l - n) l)
              end.
Proof. rewrite (lastn_split n l) at 1. apply rfind_app. Qed.

#[export] Hint Rewrite @length_update_last @length_update_first @length_lastn @length_app
  @length_drop @length_take : vec.

(** ** Counting the values of a map *)

Section tally.
Context {A : Type}.
Implicit Types (f : A → bool) (m : gmap nat A) (x y : A).

(** The number of values of a map that satisfy a test: how many of the tasks in a pool
    are in a given state. *)
Definition tally f m : nat := size (filter (λ e : nat * A, f e.2 = true) m).

Definition b2n (b : bool) : nat := if b then 1 else 0.

Lemma tally_insert_new f m i x : m !! i = None → tally f (<[i := x]> m) = b2n (f x) + tally f m.
Proof.
  intros Hi. unfold tally. destruct (f x) eqn:E.
  - rewrite map_filter_insert_True by done. apply map_size_insert_None, map_lookup_filter_None_2. by left.
  - rewrite map_filter_insert_False by (simpl; congruence). by rewrite delete_id.
Qed.

Lemma tally_insert f m i x y : m !! i = Some x → tally f (<[i := y]> m) + b2n (f x) = tally f m + b2n (f y).
Proof.
  intros Hi. rewrite <- (insert_delete_id m i x Hi) at 2. rewrite <- insert_delete_eq.
  rewrite !tally_insert_new by apply lookup_delete_eq. lia.
Qed.

Lemma tally_pos f m i x : m !! i = Some x → f x = true → 0 < tally f m.
Proof.
  intros Hi Hf. rewrite <- (insert_delete_id m i x Hi), tally_insert_new by apply lookup_delete_eq. rewrite Hf. simpl. lia.
Qed.

End tally.
