(* ===== verification/RustStr.v ===== *)
(** * Strings of the Rust standard library

    A Rust [String] or [&str] is a [string] of bytes holding UTF-8; [len] is
    [String.length].  This file models the operations of [str], [String] and
    [u64] the modelled sources use: decimal formatting and parsing, prefixes,
    searches, character boundaries, splitting into characters, lines and words,
    trimming, sorting. *)

From Stdlib Require Import Ascii.
From stdpp Require Import base numbers list strings gmap sorting.
From S2P Require Import Prelude.

(** ** Bytes *)

Definition byte_of (c : Ascii.ascii) : nat := Ascii.nat_of_ascii c.

(** A UTF-8 continuation byte. *)
Definition is_continuation (c : Ascii.ascii) : bool :=
  (128 <=? byte_of c) && (byte_of c <? 192).

Fixpoint str_take (n : nat) (s : string) : string :=
  match n, s with
  | S n, String c s => String c (str_take n s)
  | _, _ => EmptyString
  end.

Fixpoint str_drop (n : nat) (s : string) : string :=
  match n, s with
  | S n, String _ s => str_drop n s
  | _, _ => s
  end.

(** [str::is_char_boundary]. *)
Definition is_char_boundary (s : string) (i : nat) : bool :=
  (i =? 0) ||
  match str_drop i s with
  | EmptyString => i =? String.length s
  | String c _ => negb (is_continuation c)
  end.

(** ** Decimal numbers *)

Definition digit_char (d : Z) : Ascii.ascii := Ascii.ascii_of_nat (48 + Z.to_nat d).

Definition digit_value (c : Ascii.ascii) : option Z :=
  let b := byte_of c in
  if (48 <=? b) && (b <=? 57) then Some (Z.of_nat (b - 48)) else None.

Fixpoint to_digits (fuel : nat) (n : Z) (acc : string) : string :=
  match fuel with
  | O => acc
  | S fuel =>
      let acc' := String (digit_char (n mod 10)) acc in
      if (n <? 10)%Z then acc' else to_digits fuel (n / 10) acc'
  end.

(** [u64::to_string]: a [u64] has at most 20 digits. *)
Definition u64_to_string (n : Z) : string := to_digits 20 n "".

Fixpoint parse_digits (acc : Z) (s : string) : option Z :=
  match s with
  | EmptyString => Some acc
  | String c s =>
      match digit_value c with
      | Some d => if (acc * 10 + d <=? U64_MAX)%Z then parse_digits (acc * 10 + d) s else None
      | None => None
      end
  end.

(** [str::parse::<u64>]: an optional [+], then at least one digit, no overflow. *)
Definition parse_u64 (s : string) : option Z :=
  match s with
  | EmptyString => None
  | String "+"%char EmptyString => None
  | String "+"%char s => parse_digits 0 s
  | s => parse_digits 0 s
  end.

(** ** Prefixes, suffixes, searches *)

Fixpoint strip_prefix (p s : string) : option string :=
  match p, s with
  | EmptyString, s => Some s
  | String a p, String b s => if decide (a = b) then strip_prefix p s else None
  | String _ _, EmptyString => None
  end.

Definition starts_with (p s : string) : bool := is_some (strip_prefix p s).

(** [s.contains(needle)]. *)
Fixpoint contains (needle s : string) : bool :=
  starts_with needle s ||
  match s with EmptyString => false | String _ s => contains needle s end.

Definition to_lower (c : Ascii.ascii) : Ascii.ascii :=
  let b := byte_of c in
  if (65 <=? b) && (b <=? 90) then Ascii.ascii_of_nat (b + 32) else c.

Fixpoint str_map (f : Ascii.ascii → Ascii.ascii) (s : string) : string :=
  match s with EmptyString => EmptyString | String c s => String (f c) (str_map f s) end.

Definition to_ascii_lowercase (s : string) : string := str_map to_lower s.

(** ** Characters *)

(** The characters of a string, each as its encoding: a byte and the
    continuation bytes that follow it. *)
Fixpoint chars (s : string) : list string :=
  match s with
  | EmptyString => []
  | String c s =>
      match chars s with
      | (String c' _ as g) :: gs =>
          if is_continuation c' then String c g :: gs else String c "" :: g :: gs
      | gs => String c "" :: gs
      end
  end.

Definition str_concat (l : list string) : string := foldr String.append "" l.

(** [char::is_whitespace] (Unicode [White_Space]) on an encoded character. *)
Definition char_is_whitespace (g : string) : bool :=
  match map byte_of (String.list_ascii_of_string g) with
  | [b] => (b =? 32) || ((9 <=? b) && (b <=? 13))
  | [a; b] => (a =? 194) && ((b =? 133) || (b =? 160))
  | [a; b; c] =>
      ((a =? 225) && (b =? 154) && (c =? 128))
      || ((a =? 226) && (b =? 128) &&
          (((128 <=? c) && (c <=? 138)) || (c =? 168) || (c =? 169) || (c =? 175)))
      || ((a =? 226) && (b =? 129) && (c =? 159))
      || ((a =? 227) && (b =? 128) && (c =? 128))
  | _ => false
  end.

Fixpoint drop_while {A} (p : A → bool) (l : list A) : list A :=
  match l with [] => [] | x :: l' => if p x then drop_while p l' else l end.

(** [str::trim] and [str::trim_end]. *)
Definition trim_end (s : string) : string :=
  str_concat (reverse (drop_while char_is_whitespace (reverse (chars s)))).

Definition trim (s : string) : string :=
  str_concat (reverse (drop_while char_is_whitespace
    (reverse (drop_while char_is_whitespace (chars s))))).

(** [str::split_whitespace]: the maximal runs of non-whitespace characters;
    [cur] is the run being read. *)
Fixpoint words (cur : string) (cs : list string) : list string :=
  match cs with
  | [] => if decide (cur = "") then [] else [cur]
  | g :: cs =>
      if char_is_whitespace g then
        if decide (cur = "") then words "" cs else cur :: words "" cs
      else words (cur +:+ g) cs
  end.

Definition split_whitespace (s : string) : list string := words "" (chars s).

(** [str::split_inclusive(char::is_whitespace)]: pieces that end with the
    whitespace character that terminates them. *)
Fixpoint pieces (cur : string) (cs : list string) : list string :=
  match cs with
  | [] => if decide (cur = "") then [] else [cur]
  | g :: cs =>
      if char_is_whitespace g then (cur +:+ g) :: pieces "" cs else pieces (cur +:+ g) cs
  end.

Definition split_inclusive_whitespace (s : string) : list string := pieces "" (chars s).

(** [[..].join(sep)]. *)
Fixpoint join (sep : string) (l : list string) : string :=
  match l with
  | [] => ""
  | [x] => x
  | x :: l => x +:+ sep +:+ join sep l
  end.

Definition newline : string := String (Ascii.ascii_of_nat 10) "".
Definition carriage_return : string := String (Ascii.ascii_of_nat 13) "".

(** A terminated line loses a carriage return at its end. *)
Fixpoint strip_cr (s : string) : string :=
  match s with
  | EmptyString => EmptyString
  | String c EmptyString => if byte_of c =? 13 then EmptyString else s
  | String c s => String c (strip_cr s)
  end.

(** [str::lines]; [cur] is the line being read. *)
Fixpoint lines_from (cur : string) (s : string) : list string :=
  match s with
  | EmptyString => if decide (cur = "") then [] else [cur]
  | String c s =>
      if byte_of c =? 10 then strip_cr cur :: lines_from "" s
      else lines_from (cur +:+ String c "") s
  end.

Definition lines (s : string) : list string := lines_from "" s.

(** Well-formed UTF-8 as [String] requires it. *)
Definition in_range (lo hi : nat) (c : Ascii.ascii) : bool :=
  (lo <=? byte_of c) && (byte_of c <=? hi).

Fixpoint valid_utf8 (s : string) : bool :=
  match s with
  | EmptyString => true
  | String a s1 =>
      if byte_of a <? 128 then valid_utf8 s1
      else match s1 with
      | EmptyString => false
      | String b s2 =>
          if in_range 194 223 a then is_continuation b && valid_utf8 s2
          else match s2 with
          | EmptyString => false
          | String c s3 =>
              if in_range 224 239 a then
                in_range (if byte_of a =? 224 then 160 else 128)
                         (if byte_of a =? 237 then 159 else 191) b
                && is_continuation c && valid_utf8 s3
              else match s3 with
              | EmptyString => false
              | String d s4 =>
                  in_range 240 244 a
                  && in_range (if byte_of a =? 240 then 144 else 128)
                              (if byte_of a =? 244 then 143 else 191) b
                  && is_continuation c && is_continuation d && valid_utf8 s4
              end
          end
      end
  end.

(** ** Sorting *)

(** Stable insertion sort; [leb] compares keys ([sort], [sort_by_key], and, on
    values, [sort_unstable], whose result is the same list). *)
Fixpoint insert_by {A} (leb : A → A → bool) (x : A) (l : list A) : list A :=
  match l with
  | [] => [x]
  | y :: l' => if leb x y then x :: l else y :: insert_by leb x l'
  end.

Definition sort_by {A} (leb : A → A → bool) (l : list A) : list A :=
  foldr (insert_by leb) [] l.

(** [Vec::dedup]: drop an element equal to the one kept before it. *)
Fixpoint dedup {A} `{EqDecision A} (l : list A) : list A :=
  match l with
  | [] => []
  | x :: l' => match dedup l' with
               | y :: k => if decide (x = y) then y :: k else x :: y :: k
               | [] => [x]
               end
  end.

(** Byte-wise lexicographic order. *)
Definition str_leb (a b : string) : bool :=
  match String.compare a b with Gt => false | _ => true end.

(** [a < b]. *)
Definition str_ltb (a b : string) : bool := negb (str_leb b a).

(** ** Lemmas *)

Lemma length_append a b : String.length (a +:+ b) = String.length a + String.length b.
Proof. induction a as [|c a IH]; simpl; [done|]. by rewrite IH. Qed.

Lemma append_cons x a b : String x a +:+ b = String x (a +:+ b).
Proof. done. Qed.

Lemma append_nil_l b : "" +:+ b = b.
Proof. done. Qed.

Lemma append_assoc a b c : (a +:+ b) +:+ c = a +:+ (b +:+ c).
Proof. induction a as [|x a IH]; [done|]. by rewrite !append_cons, IH. Qed.

Lemma append_nil_r a : a +:+ "" = a.
Proof. induction a as [|x a IH]; [done|]. by rewrite append_cons, IH. Qed.

Lemma str_take_all n s : String.length s ≤ n → str_take n s = s.
Proof.
  revert n. induction s as [|c s IH]; intros n Hn; [by destruct n|].
  destruct n as [|n]; [simpl in Hn; lia|]. simpl. f_equal. apply IH. simpl in Hn. lia.
Qed.

Lemma length_str_take n s : String.length (str_take n s) = n `min` String.length s.
Proof. revert s. induction n as [|n IH]; intros [|c s]; simpl; [done..|]. by rewrite IH. Qed.

Lemma str_take_drop n s : str_take n s +:+ str_drop n s = s.
Proof.
  revert s. induction n as [|n IH]; intros [|c s]; simpl; [done..|]. by rewrite append_cons, IH.
Qed.

Lemma strip_prefix_app p s : strip_prefix p (p +:+ s) = Some s.
Proof. induction p as [|c p IH]; [done|]. rewrite append_cons. simpl. by rewrite decide_True. Qed.

Lemma strip_prefix_Some p s t : strip_prefix p s = Some t ↔ s = p +:+ t.
Proof.
  split; [|intros ->; apply strip_prefix_app].
  revert s. induction p as [|c p IH]; intros s; simpl; [by intros [= ->]|].
  destruct s as [|d s]; [done|]. case_decide; [subst|done]. intros ?%IH. by subst.
Qed.

Lemma starts_with_spec p s : starts_with p s = true ↔ ∃ t, s = p +:+ t.
Proof.
  unfold starts_with. setoid_rewrite <- strip_prefix_Some.
  destruct (strip_prefix p s); naive_solver.
Qed.

Lemma digit_value_char d : (0 ≤ d < 10)%Z → digit_value (digit_char d) = Some d.
Proof.
  intros Hd. unfold digit_value, digit_char, byte_of.
  rewrite Ascii.nat_ascii_embedding by lia.
  destruct (Nat.leb_spec 48 (48 + Z.to_nat d)); [|lia].
  destruct (Nat.leb_spec (48 + Z.to_nat d) 57); [|lia].
  simpl. f_equal. lia.
Qed.

Lemma parse_to_digits fuel n acc :
  (0 ≤ n < 10 ^ Z.of_nat fuel)%Z → (n ≤ U64_MAX)%Z → 0 < fuel →
  parse_digits 0 (to_digits fuel n acc) = parse_digits n acc.
Proof.
  revert n acc. induction fuel as [|fuel IH]; intros n acc Hn Hmax Hf; [lia|]. cbn [to_digits].
  pose proof (Z.mod_pos_bound n 10 ltac:(lia)).
  destruct (Z.ltb_spec n 10).
  - cbn [parse_digits]. rewrite digit_value_char by done. rewrite Z.mod_small by lia.
    destruct (Z.leb_spec (0 * 10 + n) U64_MAX); [|lia]. done.
  - assert (0 < fuel). { destruct fuel; [|lia]. simpl in Hn. lia. }
    rewrite IH; [|split|..].
    + cbn [parse_digits]. rewrite digit_value_char by done.
      replace (n / 10 * 10 + n mod 10)%Z with n by (rewrite Z.mul_comm; apply Z.div_mod; lia).
      destruct (Z.leb_spec n U64_MAX); [done|lia].
    + apply Z.div_pos; lia.
    + apply Z.div_lt_upper_bound; [lia|].
      rewrite Nat2Z.inj_succ, Z.pow_succ_r in Hn by lia. lia.
    + transitivity n; [|done]. apply Z.div_le_upper_bound; lia.
    + done.
Qed.

Lemma to_digits_digit fuel n acc :
  0 < fuel → (0 ≤ n)%Z → ∃ d t, to_digits fuel n acc = String (digit_char d) t ∧ (0 ≤ d < 10)%Z.
Proof.
  revert n acc. induction fuel as [|fuel IH]; intros n acc Hf Hn; [lia|]. cbn [to_digits].
  pose proof (Z.mod_pos_bound n 10 ltac:(lia)).
  destruct (n <? 10)%Z; [by eauto|].
  destruct fuel as [|fuel]; [by eauto|]. apply IH; [lia|]. apply Z.div_pos; lia.
Qed.

Lemma digit_char_not_plus d : (0 ≤ d < 10)%Z → digit_char d ≠ "+"%char.
Proof.
  intros Hd Heq. apply (f_equal digit_value) in Heq.
  by rewrite digit_value_char in Heq.
Qed.

(** Formatting then parsing a [u64] gives it back. *)
Lemma parse_u64_to_string n : is_u64 n → parse_u64 (u64_to_string n) = Some n.
Proof.
  intros [Hn Hmax].
  assert (parse_digits 0 (u64_to_string n) = Some n) as Hp.
  { unfold u64_to_string. rewrite parse_to_digits; [done| |done|lia].
    split; [done|]. unfold U64_MAX in Hmax. lia. }
  destruct (to_digits_digit 20 n "" ltac:(lia) Hn) as (d & t & Heq & Hd).
  unfold u64_to_string in *. rewrite Heq in *.
  pose proof (digit_char_not_plus d Hd) as Hplus.
  unfold parse_u64. destruct (digit_char d) as [[] [] [] [] [] [] [] []]; try done.
Qed.

(** The order of strings is stdpp's. *)
Lemma str_leb_le a b : str_leb a b = true ↔ String.le a b.
Proof. symmetry. apply Is_true_true. Qed.

Lemma str_leb_total a b : str_leb a b = true ∨ str_leb b a = true.
Proof. rewrite !str_leb_le. apply (total String.le). Qed.

Lemma str_leb_trans a b c : str_leb a b = true → str_leb b c = true → str_leb a c = true.
Proof. rewrite !str_leb_le. apply (transitivity (R := String.le)). Qed.

Lemma str_leb_antisym a b : str_leb a b = true → str_leb b a = true → a = b.
Proof. rewrite !str_leb_le. apply (anti_symm String.le). Qed.

Lemma str_ltb_irrefl a : str_ltb a a = false.
Proof. unfold str_ltb. destruct (str_leb_total a a) as [->| ->]; done. Qed.

Lemma str_ltb_trans a b c : str_ltb a b = true → str_ltb b c = true → str_ltb a c = true.
Proof.
  unfold str_ltb. rewrite !negb_true_iff. intros Hab Hbc. destruct (str_leb c a) eqn:Hca; [|done].
  destruct (str_leb_total b c) as [H|H]; [|congruence]. by rewrite (str_leb_trans b c a H Hca) in Hab.
Qed.

Lemma str_ltb_asym a b : str_ltb a b = true → str_ltb b a = false.
Proof. intros H. destruct (str_ltb b a) eqn:H'; [|done]. pose proof (str_ltb_trans a b a H H') as C. by rewrite str_ltb_irrefl in C. Qed.

Lemma str_ltb_empty a : str_ltb "" a = negb (bool_decide (a = "")).
Proof. by destruct a. Qed.

Section sorting.
Context {A : Type} (leb : A → A → bool).

Lemma insert_by_perm x l : insert_by leb x l ≡ₚ x :: l.
Proof.
  induction l as [|y l IH]; simpl; [done|]. case_match; [done|].
  rewrite IH. apply Permutation_swap.
Qed.

Lemma sort_by_perm l : sort_by leb l ≡ₚ l.
Proof.
  induction l as [|x l IH]; [done|]. change (sort_by leb (x :: l)) with (insert_by leb x (sort_by leb l)).
  rewrite insert_by_perm. by rewrite IH.
Qed.

Hypothesis leb_total : ∀ a b, leb a b = true ∨ leb b a = true.
Hypothesis leb_trans : ∀ a b c, leb a b = true → leb b c = true → leb a c = true.

Lemma insert_by_sorted x l :
  StronglySorted (λ a b, leb a b = true) l → StronglySorted (λ a b, leb a b = true) (insert_by leb x l).
Proof.
  induction 1 as [|y l Hs IH Hy]; simpl; [by repeat constructor|].
  destruct (leb x y) eqn:E.
  - constructor; [by constructor|]. constructor; [done|].
    eapply Forall_impl; [exact Hy|]. intros z. by apply leb_trans.
  - constructor; [done|]. rewrite insert_by_perm. constructor; [|done].
    destruct (leb_total x y); [congruence|done].
Qed.

Lemma sort_by_sorted l : StronglySorted (λ a b, leb a b = true) (sort_by leb l).
Proof.
  induction l as [|x l IH]; [constructor|]. by apply insert_by_sorted.
Qed.

End sorting.

Section dedup.
Context {A : Type} `{EqDecision A}.

Lemma elem_of_dedup (l : list A) x : x ∈ dedup l ↔ x ∈ l.
Proof.
  induction l as [|y l IH]; [done|]. simpl. rewrite elem_of_cons, <- IH.
  destruct (dedup l) as [|z k]; [set_solver|]. case_decide; set_solver.
Qed.

Lemma head_dedup (l : list A) : head (dedup l) = head l.
Proof. destruct l as [|y l]; [done|]. simpl. repeat case_match; by simplify_eq/=. Qed.

(** On a sorted list [dedup] leaves no duplicate. *)
Lemma NoDup_dedup (R : relation A) (l : list A) :
  (∀ a b, R a b → R b a → a = b) → StronglySorted R l → NoDup (dedup l).
Proof.
  intros Hanti. induction 1 as [|x l Hs IH Hx]; simpl; [constructor|].
  destruct (dedup l) as [|y k] eqn:E; [apply NoDup_singleton|]. case_decide as Hxy; [done|].
  constructor; [|done]. intros Hin. rewrite <- E, elem_of_dedup in Hin.
  pose proof (head_dedup l) as Hh. rewrite E in Hh. destruct l as [|z l]; [done|]. simplify_eq/=.
  apply Hxy, Hanti; [by inv Hx|]. apply elem_of_cons in Hin as [->|Hin]; [by inv Hx|].
  inv Hs. by eapply Forall_forall.
Qed.

(** [v.sort(); v.dedup()] gives each element once. *)
Lemma sort_dedup_spec (leb : A → A → bool) (l : list A) :
  (∀ a b, leb a b = true ∨ leb b a = true) →
  (∀ a b c, leb a b = true → leb b c = true → leb a c = true) →
  (∀ a b, leb a b = true → leb b a = true → a = b) →
  NoDup (dedup (sort_by leb l)) ∧ ∀ x, x ∈ dedup (sort_by leb l) ↔ x ∈ l.
Proof.
  intros Htot Htr Hanti. split.
  - eapply NoDup_dedup; [exact Hanti|]. by apply sort_by_sorted.
  - intros x. by rewrite elem_of_dedup, sort_by_perm.
Qed.
End dedup.

Lemma str_concat_app a b : str_concat (a ++ b) = str_concat a +:+ str_concat b.
Proof. induction a as [|x a IH]; simpl; [done|]. by rewrite IH, append_assoc. Qed.

Lemma str_concat_chars s : str_concat (chars s) = s.
Proof.
  induction s as [|c s IH]; [done|]. simpl.
  destruct (chars s) as [|[|c' g] gs]; simpl in *; [by rewrite <- IH|by rewrite <- IH|].
  destruct (is_continuation c'); simpl; by rewrite <- IH.
Qed.
