(* ===== verification/Utf8.v ===== *)
(** * UTF-8

    A valid UTF-8 string is a concatenation of encoded characters; cutting it
    at a character boundary and joining two of them keeps it valid.  The
    truncations of the program all go through [floor_boundary]. *)

From Stdlib Require Import Ascii.
From stdpp Require Import base numbers list strings gmap sorting.
From S2P Require Import Prelude RustStr.

(** ** Encoded characters *)

(** A string that does not begin inside a character. *)
Definition starts_char (s : string) : bool :=
  match s with EmptyString => true | String c _ => negb (is_continuation c) end.

Lemma in_range_continuation lo hi c :
  128 ≤ lo → hi ≤ 191 → in_range lo hi c = true → is_continuation c = true.
Proof.
  unfold in_range, is_continuation. intros ?? [H1%Nat.leb_le H2%Nat.leb_le]%andb_true_iff.
  apply andb_true_iff. split; [apply Nat.leb_le; lia|apply Nat.ltb_lt; lia].
Qed.

(** The encoded characters. *)
Inductive encoded_char : string → Prop :=
  | enc1 a : byte_of a < 128 → encoded_char (String a "")
  | enc2 a b : in_range 194 223 a = true → is_continuation b = true → encoded_char (String a (String b ""))
  | enc3 a b c : in_range 224 239 a = true →
      in_range (if byte_of a =? 224 then 160 else 128) (if byte_of a =? 237 then 159 else 191) b = true →
      is_continuation c = true → encoded_char (String a (String b (String c "")))
  | enc4 a b c d : in_range 240 244 a = true →
      in_range (if byte_of a =? 240 then 144 else 128) (if byte_of a =? 244 then 143 else 191) b = true →
      is_continuation c = true → is_continuation d = true → encoded_char (String a (String b (String c (String d "")))).

Lemma valid_utf8_cons g s : encoded_char g → valid_utf8 (g +:+ s) = valid_utf8 s.
Proof.
  assert (∀ lo hi a, in_range lo hi a = true → lo ≤ byte_of a ≤ hi) as Hr.
  { intros lo hi a [?%Nat.leb_le ?%Nat.leb_le]%andb_true_iff. lia. }
  assert (∀ lo hi a, byte_of a < lo ∨ hi < byte_of a → in_range lo hi a = false) as Hf.
  { intros lo hi a Hlh. unfold in_range. apply andb_false_iff. rewrite !Nat.leb_gt. lia. }
  destruct 1 as [a Ha|a b Ha Hb|a b c Ha Hb Hc|a b c d Ha Hb Hc Hd];
    rewrite ?append_cons, append_nil_l; cbn [valid_utf8].
  - by rewrite (proj2 (Nat.ltb_lt _ _) Ha).
  - pose proof (Hr _ _ _ Ha). rewrite (proj2 (Nat.ltb_ge (byte_of a) 128)) by lia.
    by rewrite Ha, Hb.
  - pose proof (Hr _ _ _ Ha). rewrite (proj2 (Nat.ltb_ge (byte_of a) 128)) by lia.
    rewrite (Hf 194 223) by lia. by rewrite Ha, Hb, Hc.
  - pose proof (Hr _ _ _ Ha). rewrite (proj2 (Nat.ltb_ge (byte_of a) 128)) by lia.
    rewrite (Hf 194 223), (Hf 224 239) by lia. by rewrite Ha, Hb, Hc, Hd.
Qed.

Lemma valid_utf8_uncons s :
  valid_utf8 s = true → s = "" ∨ ∃ g t, encoded_char g ∧ s = g +:+ t ∧ valid_utf8 t = true.
Proof.
  destruct s as [|a s1]; [by left|]. intros Hv. right. revert Hv. cbn [valid_utf8].
  destruct (Nat.ltb_spec (byte_of a) 128) as [Ha|_].
  { intros. exists (String a ""), s1. split_and!; [by constructor|done|done]. }
  destruct s1 as [|b s2]; [done|]. destruct (in_range 194 223 a) eqn:E2.
  { intros [??]%andb_true_iff. exists (String a (String b "")), s2. split_and!; [by constructor|done|done]. }
  destruct s2 as [|c s3]; [done|]. destruct (in_range 224 239 a) eqn:E3.
  { intros [[??]%andb_true_iff ?]%andb_true_iff.
    exists (String a (String b (String c ""))), s3. split_and!; [by constructor|done|done]. }
  destruct s3 as [|d s4]; [done|]. intros Hv. bool_to_prop.
  exists (String a (String b (String c (String d "")))), s4. split_and!; [by constructor|done|done].
Qed.

(** The bytes of an encoded character after its first are continuations. *)
Fixpoint all_continuation (s : string) : bool :=
  match s with EmptyString => true | String c s => is_continuation c && all_continuation s end.

Lemma encoded_char_tail g :
  encoded_char g → ∃ x r, g = String x r ∧ all_continuation r = true.
Proof.
  destruct 1 as [a Ha|a b Ha Hb|a b c Ha Hb Hc|a b c d Ha Hb Hc Hd]; do 2 eexists; (split; [done|]);
    cbn [all_continuation]; [done|by rewrite Hb|..].
  - rewrite (in_range_continuation _ _ b) with (3 := Hb), Hc; [done|repeat case_match; lia..].
  - rewrite (in_range_continuation _ _ b) with (3 := Hb), Hc, Hd; [done|repeat case_match; lia..].
Qed.

Lemma encoded_char_first g :
  encoded_char g → ∃ x r, g = String x r ∧ is_continuation x = false.
Proof.
  assert (∀ lo hi c, 192 ≤ lo → in_range lo hi c = true → is_continuation c = false) as Hr.
  { intros lo hi c Hlo [?%Nat.leb_le _]%andb_true_iff. apply andb_false_iff. rewrite Nat.ltb_ge. lia. }
  destruct 1 as [a Ha|a b Ha Hb|a b c Ha Hb Hc|a b c d Ha Hb Hc Hd]; do 2 eexists; (split; [done|]).
  - apply andb_false_iff. rewrite Nat.leb_gt. lia.
  - eapply (Hr 194); [lia|done].
  - eapply (Hr 224); [lia|done].
  - eapply (Hr 240); [lia|done].
Qed.

Lemma continuation_prefix r t a b :
  all_continuation r = true → starts_char b = true → r +:+ t = a +:+ b →
  ∃ a', a = r +:+ a' ∧ t = a' +:+ b.
Proof.
  revert a. induction r as [|x r IH]; intros a Hr Hb He; [by exists a|].
  cbn [all_continuation] in Hr. apply andb_true_iff in Hr as [Hx Hr]. rewrite append_cons in He.
  destruct a as [|y a].
  - rewrite append_nil_l in He. subst b. cbn [starts_char] in Hb. by rewrite Hx in Hb.
  - rewrite append_cons in He. injection He as -> He.
    destruct (IH a Hr Hb He) as (a'&->&->). by exists a'.
Qed.

Lemma valid_utf8_split a b :
  valid_utf8 (a +:+ b) = true → starts_char b = true → valid_utf8 a = true ∧ valid_utf8 b = true.
Proof.
  remember (String.length a) as n eqn:Hn. revert a Hn.
  induction n as [n IH] using lt_wf_ind. intros a -> Hv Hb.
  destruct a as [|x a]; [done|].
  destruct (valid_utf8_uncons _ Hv) as [?|(g&t&Hg&He&Ht)]; [done|].
  destruct (encoded_char_tail g Hg) as (y&r&->&Hr).
  rewrite !append_cons in He. injection He as -> He.
  destruct (continuation_prefix r t a b Hr Hb (eq_sym He)) as (a'&->&->).
  rewrite <- append_cons, (valid_utf8_cons _ a' Hg).
  apply (IH (String.length a')); try done. simpl. rewrite length_append. lia.
Qed.

Lemma valid_utf8_app a b :
  valid_utf8 a = true → valid_utf8 (a +:+ b) = valid_utf8 b.
Proof.
  remember (String.length a) as n eqn:Hn. revert a Hn.
  induction n as [n IH] using lt_wf_ind. intros a -> Hv.
  destruct (valid_utf8_uncons _ Hv) as [->|(g&t&Hg&->&Ht)]; [done|].
  rewrite append_assoc, (valid_utf8_cons g _ Hg). apply (IH (String.length t)); try done.
  destruct (encoded_char_tail g Hg) as (y&r&->&Hr). rewrite length_append. simpl. lia.
Qed.

(** ** Cutting at a character boundary *)

Lemma boundary_starts_char s i :
  is_char_boundary s i = true → i = 0 ∨ starts_char (str_drop i s) = true.
Proof.
  unfold is_char_boundary. destruct (Nat.eqb_spec i 0); [auto|]. cbn [orb].
  destruct (str_drop i s); [by right|]. by right.
Qed.

Lemma valid_utf8_cut s i :
  valid_utf8 s = true → is_char_boundary s i = true →
  valid_utf8 (str_take i s) = true ∧ valid_utf8 (str_drop i s) = true.
Proof.
  intros Hv [->|Hb]%boundary_starts_char; [done|].
  apply valid_utf8_split; [by rewrite str_take_drop|done].
Qed.

(** [while end > 0 && !s.is_char_boundary(end) { end -= 1 }]. *)
Fixpoint floor_boundary (s : string) (end_ : nat) : nat :=
  match end_ with
  | 0 => 0
  | S n => if is_char_boundary s (S n) then S n else floor_boundary s n
  end.

Lemma floor_boundary_spec s i :
  floor_boundary s i ≤ i ∧ is_char_boundary s (floor_boundary s i) = true ∧
  ∀ j, floor_boundary s i < j ≤ i → is_char_boundary s j = false.
Proof.
  induction i as [|i (Hle&Hb&Hmax)]; [split_and!; [done|done|lia]|].
  cbn [floor_boundary]. destruct (is_char_boundary s (S i)) eqn:E.
  - split_and!; [done|done|lia].
  - split_and!; [lia|done|]. intros j Hj. destruct (decide (j = S i)) as [->|]; [done|]. apply Hmax. lia.
Qed.
