(* ===== verification/Protocol.v ===== *)
(** * The session protocol: data and validation

    Models [src/src/session_protocol.rs]: the messages a client sends, the
    canonical session events, the timeline and snapshot data, runtime options
    and their validation, context usage, and the size limits on client
    messages.  Constructors carry a short prefix where two Rust enums use the
    same variant name ([Cap]: client capabilities, [Cm]: client messages,
    [Tool]: tool-call statuses, [Ek]: timeline entry kinds, [Turn]: turn
    statuses, [Dur]: durability statuses, [Out]: assistant outcomes, [Sm]: server
    messages). *)

From stdpp Require Import base numbers list strings gmap.
From S2P Require Import Prelude.

(** ** Data *)

Definition PROTOCOL_VERSION : Z := 3.

Inductive ClientCapability :=
  | CapObserve | CapPrompt | CapConfigure | CapInterrupt | CapStop
  | CapApproveOnce | CapApproveAlways.

#[export] Instance ClientCapability_eq_dec : EqDecision ClientCapability.
Proof. solve_decision. Defined.

Definition has_capability (granted : list ClientCapability) (required : ClientCapability) : bool :=
  existsb (λ c, bool_decide (c = required)) granted.

Inductive ClientKind := KindTerminal | KindAndroid | KindHeadless | KindBrowser | KindAgent.

#[export] Instance ClientKind_eq_dec : EqDecision ClientKind.
Proof. solve_decision. Defined.

Record ClientInfo := {
  client_id : string;
  client_kind : ClientKind;
  client_label : string;
}.

#[export] Instance ClientInfo_eq_dec : EqDecision ClientInfo.
Proof. solve_decision. Defined.

Inductive ApprovalDecision := AllowOnce | AllowAlways | Deny.

#[export] Instance ApprovalDecision_eq_dec : EqDecision ApprovalDecision.
Proof. solve_decision. Defined.

(** [RuntimeValue]; the integer is an [i64]. *)
Inductive RuntimeValue :=
  | RvString (s : string)
  | RvBool (b : bool)
  | RvInteger (z : Z).

#[export] Instance RuntimeValue_eq_dec : EqDecision RuntimeValue.
Proof. solve_decision. Defined.

Inductive ClientMessage :=
  | CmAttach (protocol_version : Z) (session_id : option string) (ticket : option string)
      (client : ClientInfo) (requested_capabilities : list ClientCapability)
  | CmResume (protocol_version : Z) (session_id : string) (last_seen_seq : Z)
      (ticket : option string) (client : ClientInfo)
      (requested_capabilities : list ClientCapability)
  | CmPrompt (request_id text : string)
  | CmApprovalResponse (approval_id : string) (decision : ApprovalDecision)
  | CmInterrupt (request_id : option string)
  | CmStopSession (request_id : string)
  | CmClearHistory (request_id : string)
  | CmGetUsage (request_id : string)
  | CmListSessions (request_id : string) (cursor : option string)
  | CmSyncRequest (last_seen_seq : Z)
  | CmSetConfig (request_id : option string) (config_id : string) (value : RuntimeValue)
  | CmPing
  | CmDetach.

#[export] Instance ClientMessage_eq_dec : EqDecision ClientMessage.
Proof. solve_decision. Defined.

Inductive TurnStatus :=
  | TurnIdle | TurnRunning | TurnWaitingForApproval | TurnCancelling | TurnCancelled.

#[export] Instance TurnStatus_eq_dec : EqDecision TurnStatus.
Proof. solve_decision. Defined.

Inductive DurabilityStatus :=
  | DurSaved | DurUnsaved | DurSaving | DurDegraded | DurSuperseded.

#[export] Instance DurabilityStatus_eq_dec : EqDecision DurabilityStatus.
Proof. solve_decision. Defined.

Inductive ToolCallStateStatus :=
  | ToolPending | ToolInProgress | ToolCompleted | ToolFailed | ToolCancelled.

#[export] Instance ToolCallStateStatus_eq_dec : EqDecision ToolCallStateStatus.
Proof. solve_decision. Defined.

Definition is_terminal (s : ToolCallStateStatus) : bool :=
  match s with ToolCompleted | ToolFailed | ToolCancelled => true | _ => false end.

Inductive AssistantOutcome :=
  | OutCompleted
  | OutErrored (context_overflow : bool) (message : string)
  | OutRefused
  | OutAborted
  | OutMaxTokens.

#[export] Instance AssistantOutcome_eq_dec : EqDecision AssistantOutcome.
Proof. solve_decision. Defined.

Inductive TranscriptRole := TrUser | TrAssistant | TrSystem | TrThought.

#[export] Instance TranscriptRole_eq_dec : EqDecision TranscriptRole.
Proof. solve_decision. Defined.

Record ToolCallState := mkToolCallState {
  ts_id : string;
  ts_name : string;
  ts_title : string;
  ts_status : ToolCallStateStatus;
  ts_output : option string;
}.

Record ActiveToolState := mkActiveTool {
  at_occurrence_id : Z;
  at_tool_call_id : string;
  at_name : string;
  at_title : string;
  at_status : ToolCallStateStatus;
  at_content_truncated : bool;
}.

#[export] Instance ActiveToolState_eq_dec : EqDecision ActiveToolState.
Proof. solve_decision. Defined.

Inductive TimelineEntryKind :=
  | EkUser (text : string) (content_truncated : bool)
  | EkAssistant (text : string) (content_truncated : bool)
  | EkThought (text : string) (content_truncated : bool)
  | EkSystem (text : string) (content_truncated : bool)
  | EkOutcome (outcome : AssistantOutcome)
  | EkTool (tool_call_id name title : string) (status : ToolCallStateStatus)
      (output : option string) (content_truncated : bool).

#[export] Instance TimelineEntryKind_eq_dec : EqDecision TimelineEntryKind.
Proof. solve_decision. Defined.

Record TimelineEntry := mkEntry {
  te_id : Z;
  te_order : Z;
  te_entry : TimelineEntryKind;
}.

#[export] Instance TimelineEntry_eq_dec : EqDecision TimelineEntry.
Proof. solve_decision. Defined.

Record HistoryWindow := mkWindow {
  hw_truncated_before : Z;
  hw_retained : nat;
  hw_total : option Z;
  hw_continuation : option string;
}.

#[export] Instance HistoryWindow_eq_dec : EqDecision HistoryWindow.
Proof. solve_decision. Defined.

(** [HistoryWindow::complete]. *)
Definition window_complete (retained : nat) : HistoryWindow :=
  mkWindow 0 retained (Some (Z.of_nat retained)) None.

(** [HistoryWindow::is_truncated]. *)
Definition window_is_truncated (w : HistoryWindow) : bool := (0 <? hw_truncated_before w)%Z.

Record ApprovalRequest := mkApprovalRequest {
  ar_id : string;
  ar_tool_call_id : string;
  ar_tool : string;
  ar_detail : string;
  ar_allow_always_available : bool;
  ar_ineligible_deadline_unix_ms : option Z;
  ar_deadline_paused : bool;
}.

#[export] Instance ApprovalRequest_eq_dec : EqDecision ApprovalRequest.
Proof. solve_decision. Defined.

(** [ApprovalRequest::unassigned]: the broker assigns the id. *)
Definition approval_request_unassigned (tool_call_id tool detail : string)
    (allow_always_available : bool) : ApprovalRequest :=
  mkApprovalRequest "" tool_call_id tool detail allow_always_available None false.

(** ** Runtime options *)

Record RuntimeChoice := { choice_id : string; choice_label : string }.

#[export] Instance RuntimeChoice_eq_dec : EqDecision RuntimeChoice.
Proof. solve_decision. Defined.

Inductive RuntimeOptionSpec :=
  | SpecSelect (choices : list RuntimeChoice)
  | SpecBoolean
  | SpecInteger (min max step : Z).

#[export] Instance RuntimeOptionSpec_eq_dec : EqDecision RuntimeOptionSpec.
Proof. solve_decision. Defined.

Record RuntimeOption := mkRuntimeOption {
  ro_id : string;
  ro_label : string;
  ro_value : RuntimeValue;
  ro_default_value : RuntimeValue;
  ro_spec : RuntimeOptionSpec;
  ro_mutable_while_running : bool;
  ro_help : option string;
}.

#[export] Instance RuntimeOption_eq_dec : EqDecision RuntimeOption.
Proof. solve_decision. Defined.

(** [RuntimeOption::select], [::boolean] and [::integer]. *)
Definition option_select (id label : string) (value : RuntimeValue)
    (choices : list RuntimeChoice) : RuntimeOption :=
  mkRuntimeOption id label value value (SpecSelect choices) false None.

Definition option_boolean (id label : string) (value : RuntimeValue) : RuntimeOption :=
  mkRuntimeOption id label value value SpecBoolean false None.

Definition option_integer (id label : string) (value : RuntimeValue) (min max step : Z)
    : RuntimeOption :=
  mkRuntimeOption id label value value (SpecInteger min max (Z.max step 1)) false None.

(** [RuntimeOption::accepts].  Rust's [%] on [i64] truncates towards zero. *)
Definition accepts (o : RuntimeOption) (candidate : RuntimeValue) : bool :=
  match ro_spec o, candidate with
  | SpecSelect choices, RvString value =>
      existsb (λ choice, bool_decide (choice_id choice = value)) choices
  | SpecBoolean, RvBool _ => true
  | SpecInteger min max step, RvInteger value =>
      (0 <? step)%Z && (min <=? max)%Z && (min <=? value)%Z && (value <=? max)%Z
      && match i64_checked_sub value min with
         | Some offset => (Z.rem offset step =? 0)%Z
         | None => false
         end
  | _, _ => false
  end.

(** ** Context usage *)

Inductive ContextBudgetError := OutputReservationNotBelowWindow.

#[export] Instance ContextBudgetError_eq_dec : EqDecision ContextBudgetError.
Proof. solve_decision. Defined.

Record ContextUsage := mkContextUsage {
  cu_prompt_tokens : Z;
  cu_estimated : bool;
  cu_model_context_window : option Z;
  cu_output_reservation : Z;
  cu_effective_input_budget : option Z;
  cu_utilization_basis_points : option Z;
  cu_compaction_high_water_tokens : option Z;
  cu_budget_error : option ContextBudgetError;
}.

#[export] Instance ContextUsage_eq_dec : EqDecision ContextUsage.
Proof. solve_decision. Defined.

(** [ContextUsage::new]: the product is taken in [u128] (a [u64] times 10000
    fits), the quotient is capped at 10000 before the cast to [u16]. *)
Definition context_usage_new (prompt_tokens : Z) (model_context_window : option Z)
    (output_reservation : Z) (compaction_high_water_tokens : option Z) : ContextUsage :=
  let budget_error :=
    match model_context_window with
    | Some window =>
        if (window <=? output_reservation)%Z then Some OutputReservationNotBelowWindow else None
    | None => None
    end in
  let effective_input_budget :=
    match model_context_window with
    | Some window =>
        match u64_checked_sub window output_reservation with
        | Some budget => if (0 <? budget)%Z then Some budget else None
        | None => None
        end
    | None => None
    end in
  let utilization_basis_points :=
    match effective_input_budget with
    | Some budget => Some (Z.min (prompt_tokens * 10000 / budget) 10000)
    | None => None
    end in
  mkContextUsage prompt_tokens false model_context_window output_reservation
    effective_input_budget utilization_basis_points compaction_high_water_tokens budget_error.

(** [ContextUsage::mark_estimated]. *)
Definition mark_estimated (u : ContextUsage) : ContextUsage :=
  mkContextUsage (cu_prompt_tokens u) true (cu_model_context_window u) (cu_output_reservation u)
    (cu_effective_input_budget u) (cu_utilization_basis_points u)
    (cu_compaction_high_water_tokens u) (cu_budget_error u).

(** ** Session events and snapshots *)

Inductive SessionEvent :=
  | UserMessage (text : string) (request_id : option string)
  | AssistantDelta (text : string)
  | AssistantDone (outcome : AssistantOutcome)
  | ThoughtDelta (text : string)
  | ToolCallStarted (id name title : string) (input_summary : option string)
  | ToolCallUpdated (id : string) (status : ToolCallStateStatus)
  | ToolCallFinished (id : string) (status : ToolCallStateStatus) (output : string)
  | ApprovalRequested (request : ApprovalRequest)
  | ApprovalResolved (approval_id : string) (decision : ApprovalDecision) (resolved_by : string)
  | ApprovalDeadlineChanged (approval_id : string) (ineligible_deadline_unix_ms : Z) (paused : bool)
  | RuntimeOptionsChanged (options : list RuntimeOption)
  | ContextUsageChanged (usage : ContextUsage)
  | ConversationCleared
  | TurnStatusChanged (status : TurnStatus)
  | DurabilityStatusChanged (status : DurabilityStatus)
  | SessionEnding (reason : string).

#[export] Instance SessionEvent_eq_dec : EqDecision SessionEvent.
Proof. solve_decision. Defined.

Record SessionSnapshot := mkSnapshot {
  ss_session_id : string;
  ss_seq : Z;
  ss_turn_status : TurnStatus;
  ss_durability_status : DurabilityStatus;
  ss_timeline : list TimelineEntry;
  ss_active_tools : list ActiveToolState;
  ss_history_window : HistoryWindow;
  ss_pending_approvals : list ApprovalRequest;
  ss_runtime_options : list RuntimeOption;
  ss_context_usage : option ContextUsage;
}.

(** ** Messages of the server *)

Record SessionListEntry := mkListEntry {
  le_session_id : string;
  le_active : bool;
  le_attached_clients : nat;
  le_model : option string;
  le_updated_at_unix_ms : option Z;
  le_preview : option string;
  le_message_count : option nat;
  le_turn_status : option TurnStatus;
}.

Record SessionWorkspace := { workspace_id : string; workspace_label : string }.

Record SessionUsage := mkUsage {
  us_input : Z;
  us_output : Z;
  us_reasoning_output : option Z;
  us_thinking_bytes : Z;
  us_cache_read : Z;
  us_cache_write : Z;
  us_cost_usd_micros : Z;
}.

Inductive AttachDeniedCode :=
  | DeniedInvalidMessage | DeniedProtocolVersion | DeniedSessionNotFound | DeniedSessionStopped
  | DeniedSessionLimitReached | DeniedClientLimitReached | DeniedDuplicateClient
  | DeniedSessionAlreadyActive | DeniedSessionOpenFailed | DeniedFactoryUnavailable
  | DeniedEventSubscriptionFailed | DeniedDaemonShuttingDown | DeniedSnapshotTooLarge.

Inductive RevocationCode := RevokedSessionStopped | RevokedEventQueueLagged | RevokedAttachmentReplaced.

Inductive ServerMessage :=
  | SmAttachOk (protocol_version : Z) (session_id : string)
      (granted_capabilities : list ClientCapability) (seq : Z)
  | SmAttachDenied (code : option AttachDeniedCode) (reason : string)
  | SmEvent (seq : Z) (event : SessionEvent)
  | SmSnapshot (seq : Z) (state : SessionSnapshot)
  | SmError (request_id : option string) (code message : string)
  | SmCommandResult (request_id operation : string) (changed : bool)
  | SmSessionList (request_id : string) (workspace : option SessionWorkspace)
      (sessions : list SessionListEntry) (next_cursor : option string) (incomplete : bool)
  | SmUsage (request_id : string) (usage : SessionUsage)
  | SmPong
  | SmRevoked (code : option RevocationCode) (reason : string).

(** ** Sequence numbers *)

Inductive SequenceError := NotIncreasing (previous next : Z).

Definition validate_next_sequence (previous : option Z) (next : Z) : result () SequenceError :=
  match previous with
  | Some previous => if (next <=? previous)%Z then Err (NotIncreasing previous next) else Ok ()
  | None => Ok ()
  end.

(** ** Size limits on client messages *)

Record ProtocolLimits := {
  max_frame_bytes : nat;
  max_prompt_bytes : nat;
  max_label_bytes : nat;
  max_identifier_bytes : nat;
  max_cursor_bytes : nat;
  max_ticket_bytes : nat;
  max_runtime_value_bytes : nat;
  max_capabilities : nat;
}.

Inductive ProtocolValidationError :=
  | FieldTooLarge (field : string) (max_bytes : nat)
  | TooManyCapabilities (max : nat).

#[export] Instance ProtocolValidationError_eq_dec : EqDecision ProtocolValidationError.
Proof. solve_decision. Defined.

(** The closure [check] of [validate_client_message]. *)
Definition check_field (field value : string) (max_bytes : nat) : option ProtocolValidationError :=
  if max_bytes <? String.length value then Some (FieldTooLarge field max_bytes) else None.

(** The same on an optional field: [field.as_deref().and_then(check)]. *)
Definition check_opt (field : string) (value : option string) (max_bytes : nat)
    : option ProtocolValidationError :=
  match value with Some v => check_field field v max_bytes | None => None end.

Definition check_capabilities (l : ProtocolLimits) (caps : list ClientCapability)
    : option ProtocolValidationError :=
  if max_capabilities l <? length caps then Some (TooManyCapabilities (max_capabilities l)) else None.

(** [Option::or_else]. *)
Definition or_else {A} (o : option A) (k : option A) : option A :=
  match o with Some a => Some a | None => k end.

Definition client_message_error (l : ProtocolLimits) (message : ClientMessage)
    : option ProtocolValidationError :=
  let idb := max_identifier_bytes l in
  match message with
  | CmAttach _ session_id ticket client caps =>
      or_else (check_field "attach.client.id" (client_id client) idb)
     (or_else (check_field "attach.client.label" (client_label client) (max_label_bytes l))
     (or_else (check_opt "attach.session_id" session_id idb)
     (or_else (check_opt "attach.ticket" ticket (max_ticket_bytes l))
              (check_capabilities l caps))))
  | CmResume _ session_id _ ticket client caps =>
      or_else (check_field "resume.client.id" (client_id client) idb)
     (or_else (check_field "resume.client.label" (client_label client) (max_label_bytes l))
     (or_else (check_field "resume.session_id" session_id idb)
     (or_else (check_opt "resume.ticket" ticket (max_ticket_bytes l))
              (check_capabilities l caps))))
  | CmPrompt request_id text =>
      or_else (check_field "prompt.request_id" request_id idb)
              (check_field "prompt.text" text (max_prompt_bytes l))
  | CmApprovalResponse approval_id _ =>
      check_field "approval_response.approval_id" approval_id idb
  | CmInterrupt request_id => check_opt "interrupt.request_id" request_id idb
  | CmStopSession request_id => check_field "stop_session.request_id" request_id idb
  | CmClearHistory request_id => check_field "clear_history.request_id" request_id idb
  | CmGetUsage request_id => check_field "get_usage.request_id" request_id idb
  | CmListSessions request_id cursor =>
      or_else (check_field "list_sessions.request_id" request_id idb)
              (check_opt "list_sessions.cursor" cursor (max_cursor_bytes l))
  | CmSetConfig request_id config_id value =>
      or_else (check_opt "set_config.request_id" request_id idb)
     (or_else (check_field "set_config.config_id" config_id idb)
       match value with
       | RvString value => check_field "set_config.value" value (max_runtime_value_bytes l)
       | _ => None
       end)
  | CmSyncRequest _ | CmPing | CmDetach => None
  end.

Definition validate_client_message (l : ProtocolLimits) (message : ClientMessage)
    : result () ProtocolValidationError :=
  match client_message_error l message with Some e => Err e | None => Ok () end.

(** ** Properties *)

(** What the limits promise of each message, field by field. *)
Definition fits (n : nat) (s : string) : Prop := String.length s ≤ n.
Definition fits_opt (n : nat) (o : option string) : Prop := ∀ s, o = Some s → fits n s.

Definition message_fits (l : ProtocolLimits) (m : ClientMessage) : Prop :=
  let idb := max_identifier_bytes l in
  match m with
  | CmAttach _ session_id ticket client caps =>
      fits idb (client_id client) ∧ fits (max_label_bytes l) (client_label client) ∧
      fits_opt idb session_id ∧ fits_opt (max_ticket_bytes l) ticket ∧
      length caps ≤ max_capabilities l
  | CmResume _ session_id _ ticket client caps =>
      fits idb (client_id client) ∧ fits (max_label_bytes l) (client_label client) ∧
      fits idb session_id ∧ fits_opt (max_ticket_bytes l) ticket ∧
      length caps ≤ max_capabilities l
  | CmPrompt request_id text => fits idb request_id ∧ fits (max_prompt_bytes l) text
  | CmApprovalResponse approval_id _ => fits idb approval_id
  | CmInterrupt request_id => fits_opt idb request_id
  | CmStopSession request_id | CmClearHistory request_id | CmGetUsage request_id =>
      fits idb request_id
  | CmListSessions request_id cursor =>
      fits idb request_id ∧ fits_opt (max_cursor_bytes l) cursor
  | CmSetConfig request_id config_id value =>
      fits_opt idb request_id ∧ fits idb config_id ∧
      (∀ s, value = RvString s → fits (max_runtime_value_bytes l) s)
  | CmSyncRequest _ | CmPing | CmDetach => True
  end.

Lemma check_field_None f v n : check_field f v n = None ↔ fits n v.
Proof.
  unfold check_field, fits. destruct (Nat.ltb_spec n (String.length v)); split; intros; [done|lia|lia|done].
Qed.

Lemma check_opt_None f v n : check_opt f v n = None ↔ fits_opt n v.
Proof.
  unfold fits_opt. destruct v as [v|]; simpl; [rewrite check_field_None|]; naive_solver.
Qed.

Lemma check_capabilities_None l caps :
  check_capabilities l caps = None ↔ length caps ≤ max_capabilities l.
Proof.
  unfold check_capabilities. destruct (Nat.ltb_spec (max_capabilities l) (length caps));
    split; intros; [done|lia|lia|done].
Qed.

Lemma or_else_None {A} (o k : option A) : or_else o k = None ↔ o = None ∧ k = None.
Proof. destruct o; naive_solver. Qed.

#[local] Hint Rewrite check_field_None check_opt_None check_capabilities_None @or_else_None : vec.

(** a client message passes validation exactly when every text field fits
    the byte limit of its kind and the capability list fits its limit. *)
Theorem validate_client_message_spec l m :
  validate_client_message l m = Ok () ↔ message_fits l m.
Proof.
  unfold validate_client_message.
  assert (client_message_error l m = None ↔ message_fits l m) as <-.
  { destruct m; simpl; autorewrite with vec; try done.
    destruct value; simpl; autorewrite with vec; naive_solver. }
  destruct (client_message_error l m); naive_solver.
Qed.

(** an integer option accepts exactly the values of its grid
    [min, min + step, ...] up to [max] whose offset from [min] is representable
    as an [i64]; in particular a step that is not positive accepts nothing. *)
Theorem accepts_integer_spec o min max step v :
  ro_spec o = SpecInteger min max step →
  accepts o (RvInteger v) = true ↔
  (0 < step ∧ v ≤ max ∧ v - min ≤ I64_MAX ∧ ∃ k, 0 ≤ k ∧ v = min + k * step)%Z.
Proof.
  intros Hs. unfold accepts. rewrite Hs. unfold i64_checked_sub.
  split.
  - intros H. bool_to_prop. split_cases; bool_to_prop; try done.
    split_and!; [lia..|].
    exists ((v - min) `quot` step)%Z.
    split; [apply Z.quot_pos; lia|]. pose proof (Z.quot_rem' (v - min) step). lia.
  - intros (Hstep & Hmax & Hoff & k & Hk & ->).
    assert (0 ≤ k * step)%Z by (apply Z.mul_nonneg_nonneg; lia).
    assert (I64_MIN <= 0)%Z by done.
    assert (((I64_MIN <=? min + k * step - min) && (min + k * step - min <=? I64_MAX))%Z = true)
      as -> by (apply andb_true_iff; split; apply Z.leb_le; lia).
    replace (min + k * step - min)%Z with (k * step)%Z by lia.
    rewrite Z.rem_mul by lia.
    repeat (rewrite andb_true_iff; split); try (apply Z.leb_le; lia); try (apply Z.ltb_lt; lia).
    done.
Qed.

Lemma accepts_integer_spec_witness :
  accepts (option_integer "max_turns" "Max turns" (RvInteger 5) 1 99 2) (RvInteger 7) = true.
Proof.
  apply (accepts_integer_spec _ 1 99 2 7); [reflexivity|].
  unfold I64_MAX. split_and!; [lia..|]. exists 3%Z. lia.
Defined.

(** the context usage published for a turn: an effective budget exists
    exactly when a known window exceeds the output reservation, and is then
    their difference; a budget error is reported exactly when the window is
    known and does not exceed it; and the utilization, when present, is the
    occupied share of the budget in basis points, between 0 and 10000. *)
Theorem context_usage_new_spec prompt window reservation high :
  is_u64 prompt → is_u64 reservation →
  let u := context_usage_new prompt window reservation high in
  (∀ b, cu_effective_input_budget u = Some b ↔
        ∃ w, window = Some w ∧ (reservation < w)%Z ∧ b = (w - reservation)%Z) ∧
  (is_some (cu_budget_error u) = true ↔ ∃ w, window = Some w ∧ (w ≤ reservation)%Z) ∧
  (∀ p, cu_utilization_basis_points u = Some p ↔
        ∃ b, cu_effective_input_budget u = Some b ∧
             p = Z.min (prompt * 10000 / b) 10000 ∧ (0 ≤ p ≤ 10000)%Z).
Proof.
  intros [Hp _] Hr. simpl. unfold u64_checked_sub. split_and!.
  - intros b. destruct window as [w|]; [|naive_solver].
    split_cases; bool_to_prop; naive_solver lia.
  - destruct window as [w|]; [|naive_solver]. split_cases; bool_to_prop; naive_solver lia.
  - intros p. destruct window as [w|]; [|naive_solver].
    split_cases; bool_to_prop; try naive_solver.
    assert (0 ≤ prompt * 10000 / (w - reservation))%Z by (apply Z.div_pos; lia).
    split; [|naive_solver].
    intros [= <-]. eexists. split_and!; [done|done|lia|lia].
Qed.

Lemma context_usage_new_spec_witness :
  cu_utilization_basis_points (context_usage_new 90000 (Some 200000%Z) 20000 None) = Some 5000%Z.
Proof.
  apply (context_usage_new_spec 90000 (Some 200000%Z) 20000 None); [split; done..|].
  exists 180000%Z. split_and!; [reflexivity|reflexivity|lia|lia].
Defined.

