(* ===== verification/Timeline.v ===== *)
(** * The canonical session timeline

    Models [src/src/session_timeline.rs]: the reducer that folds canonical
    session events into a bounded, ordered timeline with the set of active
    tools and the description of the retained window.  The daemon and every
    frontend run this same reducer, so what it computes is what the user sees.

    The abstract specification ([SpecTimeline]) is an unbounded timeline that
    keeps no bookkeeping: no trimming, no active-tool list, no entry id for the
    open text entry.  The refinement theorem says that the reducer shows exactly
    the newest [max_entries] entries of that timeline, that its active tools are
    the tool entries of the *unbounded* timeline that have not ended (also when
    the entry itself was trimmed), and that its window counts what was dropped. *)

From stdpp Require Import base numbers list strings gmap sorting.
From S2P Require Import Prelude Protocol.

(** ** The reducer *)

Record TimelineReducer := mkReducer {
  tl_timeline : list TimelineEntry;
  tl_active_tools : list ActiveToolState;
  tl_history_window : HistoryWindow;
  tl_max_entries : nat;
  tl_next_id : Z;
  tl_open_entry_id : option Z;
}.

#[export] Instance TimelineReducer_eq_dec : EqDecision TimelineReducer.
Proof. solve_decision. Defined.

Inductive TextKind := TextAssistant | TextThought.

Definition with_timeline (r : TimelineReducer) (t : list TimelineEntry) : TimelineReducer :=
  mkReducer t (tl_active_tools r) (tl_history_window r) (tl_max_entries r) (tl_next_id r)
    (tl_open_entry_id r).

Definition with_active_tools (r : TimelineReducer) (a : list ActiveToolState) : TimelineReducer :=
  mkReducer (tl_timeline r) a (tl_history_window r) (tl_max_entries r) (tl_next_id r)
    (tl_open_entry_id r).

Definition with_window (r : TimelineReducer) (w : HistoryWindow) : TimelineReducer :=
  mkReducer (tl_timeline r) (tl_active_tools r) w (tl_max_entries r) (tl_next_id r)
    (tl_open_entry_id r).

Definition with_open (r : TimelineReducer) (o : option Z) : TimelineReducer :=
  mkReducer (tl_timeline r) (tl_active_tools r) (tl_history_window r) (tl_max_entries r)
    (tl_next_id r) o.

Definition is_open (r : TimelineReducer) (id : Z) : bool :=
  bool_decide (tl_open_entry_id r = Some id).

Definition close_open (r : TimelineReducer) : TimelineReducer := with_open r None.

Definition sync_window (r : TimelineReducer) : TimelineReducer :=
  let w := tl_history_window r in
  let retained := length (tl_timeline r) in
  with_window r (mkWindow (hw_truncated_before w) retained
    (Some (u64_saturating_add (hw_truncated_before w) (Z.of_nat retained)))
    (hw_continuation w)).

Definition trim_to_limit (r : TimelineReducer) : TimelineReducer :=
  let excess := length (tl_timeline r) - tl_max_entries r in
  if 0 <? excess then
    let timeline := drop excess (tl_timeline r) in
    let w := tl_history_window r in
    let w' := mkWindow (u64_saturating_add (hw_truncated_before w) (Z.of_nat excess))
                (hw_retained w) (hw_total w) (hw_continuation w) in
    let opened :=
      match tl_open_entry_id r with
      | Some id => if existsb (λ e, (te_id e =? id)%Z) timeline then Some id else None
      | None => None
      end in
    mkReducer timeline (tl_active_tools r) w' (tl_max_entries r) (tl_next_id r) opened
  else r.

(** [push] also returns the id it minted. *)
Definition push (r : TimelineReducer) (entry : TimelineEntryKind) : TimelineReducer * Z :=
  let id := tl_next_id r in
  let r1 := mkReducer (tl_timeline r ++ [mkEntry id id entry]) (tl_active_tools r)
              (tl_history_window r) (tl_max_entries r) (u64_saturating_add id 1)
              (tl_open_entry_id r) in
  (sync_window (trim_to_limit r1), id).

Definition is_tool (k : TimelineEntryKind) : bool :=
  match k with EkTool _ _ _ _ _ _ => true | _ => false end.

(** What [update_occurrence] does to the entry it found. *)
Definition set_tool_status (status : ToolCallStateStatus) (output : option string)
    (e : TimelineEntry) : TimelineEntry :=
  match te_entry e with
  | EkTool tool_call_id name title _ current_output truncated =>
      mkEntry (te_id e) (te_order e)
        (EkTool tool_call_id name title status
           (match output with Some o => Some o | None => current_output end) truncated)
  | _ => e
  end.

Definition update_occurrence (r : TimelineReducer) (occurrence_id : Z)
    (status : ToolCallStateStatus) (output : option string) : TimelineReducer :=
  with_timeline r
    (update_last (λ e, (te_id e =? occurrence_id)%Z && is_tool (te_entry e))
       (set_tool_status status output) (tl_timeline r)).

(** A tool entry of call [tool_call_id] that has not ended. *)
Definition is_live_call (tool_call_id : string) (e : TimelineEntry) : bool :=
  match te_entry e with
  | EkTool candidate _ _ status _ _ =>
      bool_decide (candidate = tool_call_id) && negb (is_terminal status)
  | _ => false
  end.

Definition set_active_status (status : ToolCallStateStatus) (t : ActiveToolState)
    : ActiveToolState :=
  mkActiveTool (at_occurrence_id t) (at_tool_call_id t) (at_name t) (at_title t) status
    (at_content_truncated t).

Definition update_tool (r : TimelineReducer) (tool_call_id : string)
    (status : ToolCallStateStatus) (output : option string) : TimelineReducer :=
  let occurrence_id :=
    match rfind (is_live_call tool_call_id) (tl_timeline r) with
    | Some entry => Some (te_id entry)
    | None =>
        at_occurrence_id <$>
          rfind (λ t, bool_decide (at_tool_call_id t = tool_call_id)) (tl_active_tools r)
    end in
  match occurrence_id with
  | Some occurrence_id =>
      let r1 := update_occurrence r occurrence_id status output in
      if is_terminal status then
        with_active_tools r1
          (List.filter (λ t, negb (at_occurrence_id t =? occurrence_id)%Z) (tl_active_tools r1))
      else
        with_active_tools r1
          (update_first (λ t, (at_occurrence_id t =? occurrence_id)%Z)
             (set_active_status status) (tl_active_tools r1))
  | None => r
  end.

Definition text_entry (kind : TextKind) (text : string) : TimelineEntryKind :=
  match kind with
  | TextAssistant => EkAssistant text false
  | TextThought => EkThought text false
  end.

(** Append [text] to an entry of the same kind, if it is one. *)
Definition append_to (kind : TextKind) (text : string) (k : TimelineEntryKind)
    : option TimelineEntryKind :=
  match k, kind with
  | EkAssistant t c, TextAssistant => Some (EkAssistant (t +:+ text) c)
  | EkThought t c, TextThought => Some (EkThought (t +:+ text) c)
  | _, _ => None
  end.

Definition append_text (r : TimelineReducer) (kind : TextKind) (text : string)
    : TimelineReducer :=
  let appended :=
    match tl_open_entry_id r, last (tl_timeline r) with
    | Some open_id, Some e =>
        if (te_id e =? open_id)%Z then
          match append_to kind text (te_entry e) with
          | Some k => Some (mkEntry (te_id e) (te_order e) k)
          | None => None
          end
        else None
    | _, _ => None
    end in
  match appended with
  | Some e => with_timeline r (take (length (tl_timeline r) - 1) (tl_timeline r) ++ [e])
  | None =>
      let '(r1, id) := push (close_open r) (text_entry kind text) in
      with_open r1 (Some id)
  end.

Definition clear (r : TimelineReducer) : TimelineReducer :=
  mkReducer [] [] (window_complete 0) (tl_max_entries r) (tl_next_id r) None.

(** The tool entry and the active tool pushed by [ToolCallStarted] and
    [start_reconstructed_tool], which differ in the initial status. *)
Definition start_tool (r : TimelineReducer) (id name title : string)
    (status : ToolCallStateStatus) : TimelineReducer * Z :=
  let '(r1, occurrence_id) := push (close_open r) (EkTool id name title status None false) in
  (with_active_tools r1
     (tl_active_tools r1 ++ [mkActiveTool occurrence_id id name title status false]),
   occurrence_id).

Definition apply (r : TimelineReducer) (event : SessionEvent) : TimelineReducer :=
  sync_window
    match event with
    | UserMessage text _ => fst (push (close_open r) (EkUser text false))
    | AssistantDelta text => append_text r TextAssistant text
    | ThoughtDelta text => append_text r TextThought text
    | AssistantDone outcome => fst (push (close_open r) (EkOutcome outcome))
    | ToolCallStarted id name title _ => fst (start_tool r id name title ToolPending)
    | ToolCallUpdated id status => update_tool r id status None
    | ToolCallFinished id status output => update_tool r id status (Some output)
    | ConversationCleared => clear r
    | ApprovalRequested _ | ApprovalResolved _ _ _ | ApprovalDeadlineChanged _ _ _
    | RuntimeOptionsChanged _ | ContextUsageChanged _ | TurnStatusChanged _
    | DurabilityStatusChanged _ | SessionEnding _ => r
    end.

Definition from_parts (timeline : list TimelineEntry) (active_tools : list ActiveToolState)
    (history_window : HistoryWindow) (max_entries : nat) : TimelineReducer :=
  let ids := map (λ e, Z.max (te_id e) (te_order e)) timeline
             ++ map at_occurrence_id active_tools in
  let next_id := u64_saturating_add (foldr Z.max 0%Z ids) 1 in
  let r := mkReducer timeline active_tools history_window (max_entries `max` 1) next_id None in
  let r := fold_left (λ r t, update_occurrence r (at_occurrence_id t) (at_status t) None)
             active_tools r in
  sync_window (trim_to_limit r).

Definition new (max_entries : nat) : TimelineReducer :=
  from_parts [] [] (window_complete 0) max_entries.

Definition into_parts (r : TimelineReducer)
    : list TimelineEntry * list ActiveToolState * HistoryWindow :=
  (tl_timeline r, tl_active_tools r, tl_history_window r).

(** *** Rebuilding a timeline from stored history *)

Definition push_reconstructed (r : TimelineReducer) (entry : TimelineEntryKind)
    : TimelineReducer * Z := push (close_open r) entry.

Definition start_reconstructed_tool (r : TimelineReducer) (tool_call_id name title : string)
    : TimelineReducer * Z := start_tool r tool_call_id name title ToolInProgress.

Definition push_system (r : TimelineReducer) (text : string) : TimelineReducer :=
  fst (push (close_open r) (EkSystem text false)).

Definition update_reconstructed_tool (r : TimelineReducer) (tool_call_id : string)
    (status : ToolCallStateStatus) (output : string) : TimelineReducer :=
  update_tool r tool_call_id status (Some output).

Definition cancel_reconstructed_active_tools (r : TimelineReducer) : TimelineReducer :=
  fold_left (λ r t, update_occurrence r (at_occurrence_id t) ToolCancelled None)
    (tl_active_tools r) (with_active_tools r []).

(** ** The operations as data, and their sequences *)

Inductive TimelineOp :=
  | OpApply (event : SessionEvent)
  | OpPush (entry : TimelineEntryKind)
  | OpStartTool (tool_call_id name title : string)
  | OpUpdateTool (tool_call_id : string) (status : ToolCallStateStatus) (output : string)
  | OpSystem (text : string)
  | OpCancelActive.

Definition run_op (r : TimelineReducer) (op : TimelineOp) : TimelineReducer :=
  match op with
  | OpApply event => apply r event
  | OpPush entry => fst (push_reconstructed r entry)
  | OpStartTool id name title => fst (start_reconstructed_tool r id name title)
  | OpUpdateTool id status output => update_reconstructed_tool r id status output
  | OpSystem text => push_system r text
  | OpCancelActive => cancel_reconstructed_active_tools r
  end.

Definition run_ops (r : TimelineReducer) (ops : list TimelineOp) : TimelineReducer :=
  fold_left run_op ops r.

(** ** The abstract timeline *)

Record SpecTimeline := mkSpec {
  sp_entries : list TimelineEntry;
  sp_next : Z;
  sp_open : bool;
}.

Definition spec_new : SpecTimeline := mkSpec [] 1 false.

Definition spec_push (s : SpecTimeline) (k : TimelineEntryKind) (opened : bool) : SpecTimeline :=
  mkSpec (sp_entries s ++ [mkEntry (sp_next s) (sp_next s) k]) (sp_next s + 1) opened.

Definition spec_append (s : SpecTimeline) (kind : TextKind) (text : string) : SpecTimeline :=
  match (if sp_open s then last (sp_entries s) else None) with
  | Some e =>
      match append_to kind text (te_entry e) with
      | Some k => mkSpec (take (length (sp_entries s) - 1) (sp_entries s)
                          ++ [mkEntry (te_id e) (te_order e) k]) (sp_next s) true
      | None => spec_push s (text_entry kind text) true
      end
  | None => spec_push s (text_entry kind text) true
  end.

(** Only the newest occurrence of the call that has not ended is updated. *)
Definition spec_update (s : SpecTimeline) (id : string) (status : ToolCallStateStatus)
    (output : option string) : SpecTimeline :=
  mkSpec (update_last (is_live_call id) (set_tool_status status output) (sp_entries s))
    (sp_next s) (sp_open s).

(** The active tool a timeline entry stands for, if it is one. *)
Definition active_of (e : TimelineEntry) : option ActiveToolState :=
  match te_entry e with
  | EkTool id name title status _ truncated =>
      if is_terminal status then None
      else Some (mkActiveTool (te_id e) id name title status truncated)
  | _ => None
  end.

Definition live_tools (l : list TimelineEntry) : list ActiveToolState := omap active_of l.

Definition cancel_entry (e : TimelineEntry) : TimelineEntry :=
  if is_some (active_of e) then set_tool_status ToolCancelled None e else e.

Definition spec_event (s : SpecTimeline) (event : SessionEvent) : SpecTimeline :=
  match event with
  | UserMessage text _ => spec_push s (EkUser text false) false
  | AssistantDelta text => spec_append s TextAssistant text
  | ThoughtDelta text => spec_append s TextThought text
  | AssistantDone outcome => spec_push s (EkOutcome outcome) false
  | ToolCallStarted id name title _ => spec_push s (EkTool id name title ToolPending None false) false
  | ToolCallUpdated id status => spec_update s id status None
  | ToolCallFinished id status output => spec_update s id status (Some output)
  | ConversationCleared => mkSpec [] (sp_next s) false
  | _ => s
  end.

Definition spec_op (s : SpecTimeline) (op : TimelineOp) : SpecTimeline :=
  match op with
  | OpApply event => spec_event s event
  | OpPush entry => spec_push s entry false
  | OpStartTool id name title => spec_push s (EkTool id name title ToolInProgress None false) false
  | OpUpdateTool id status output => spec_update s id status (Some output)
  | OpSystem text => spec_push s (EkSystem text false) false
  | OpCancelActive => mkSpec (map cancel_entry (sp_entries s)) (sp_next s) (sp_open s)
  end.

Definition spec_ops (s : SpecTimeline) (ops : list TimelineOp) : SpecTimeline :=
  fold_left spec_op ops s.

(** The callers push only entries that are not tools with [push_reconstructed]
    (tools have an operation of their own). *)
Definition op_ok (op : TimelineOp) : Prop :=
  match op with OpPush entry => is_tool entry = false | _ => True end.

#[export] Instance op_ok_dec op : Decision (op_ok op).
Proof. destruct op; simpl; apply _. Defined.

(** The refinement relation: what a reducer with limit [m] shows of [s]. *)
Record refines (m : nat) (s : SpecTimeline) (r : TimelineReducer) : Prop := {
  rf_timeline : tl_timeline r = lastn m (sp_entries s);
  rf_active : tl_active_tools r = live_tools (sp_entries s);
  rf_window : tl_history_window r =
    mkWindow (Z.of_nat (length (sp_entries s) - m)) (m `min` length (sp_entries s))
      (Some (Z.of_nat (length (sp_entries s)))) None;
  rf_max : tl_max_entries r = m;
  rf_next : tl_next_id r = sp_next s;
  rf_open : tl_open_entry_id r = if sp_open s then te_id <$> last (sp_entries s) else None;
}.

(** Ids are minted in increasing order and are the chronological positions. *)
Record spec_wf (s : SpecTimeline) : Prop := {
  wf_sorted : StronglySorted Z.lt (map te_id (sp_entries s));
  wf_ids : Forall (λ e, (1 ≤ te_id e < sp_next s)%Z ∧ te_order e = te_id e) (sp_entries s);
  wf_next : (Z.of_nat (length (sp_entries s)) < sp_next s)%Z;
}.

(** ** Lemmas *)

Lemma spec_new_wf : spec_wf spec_new.
Proof. split; simpl; [constructor|constructor|lia]. Qed.

Section refinement.
Context (m : nat).
Hypothesis (Hm : 0 < m).
Implicit Types (s : SpecTimeline) (r : TimelineReducer) (l : list TimelineEntry).

Lemma live_tools_app l k : live_tools (l ++ k) = live_tools l ++ live_tools k.
Proof. apply omap_app. Qed.

(** Pushing on a closed reducer appends to the abstract timeline and trims. *)
Lemma push_closed s r k :
  refines m s r → tl_open_entry_id r = None → spec_wf s → (sp_next s < U64_MAX)%Z →
  let l := sp_entries s ++ [mkEntry (sp_next s) (sp_next s) k] in
  push r k =
  (mkReducer (lastn m l) (tl_active_tools r)
     (mkWindow (Z.of_nat (length l - m)) (m `min` length l) (Some (Z.of_nat (length l))) None)
     m (sp_next s + 1) None, sp_next s).
Proof.
  intros [Ht _ Hw Hmx Hn _] Ho Hwf Hmax. pose proof (wf_next _ Hwf) as Hlen. simpl.
  set (e := mkEntry _ _ k). unfold push. rewrite Hn. f_equal.
  unfold sync_window, trim_to_limit, with_window; simpl. fold e.
  rewrite Hw, Hmx, Ht, Ho; simpl.
  rewrite (u64_saturating_add_exact (sp_next s) 1) by lia.
  assert (lastn m (sp_entries s ++ [e]) =
          drop (m `min` length (sp_entries s) + 1 - m) (lastn m (sp_entries s) ++ [e])) as ->.
  { rewrite <- lastn_lastn_app. unfold lastn at 1. by autorewrite with vec. }
  autorewrite with vec; simpl.
  destruct (Nat.ltb_spec 0 (m `min` length (sp_entries s) + 1 - m)); simpl; autorewrite with vec; simpl.
  - rewrite !u64_saturating_add_exact by (rewrite ?u64_saturating_add_exact; lia).
    do 2 f_equal; try lia. f_equal; lia.
  - rewrite u64_saturating_add_exact by lia.
    replace (m `min` length (sp_entries s) + 1 - m) with 0 by lia. rewrite drop_0.
    do 2 f_equal; try lia. f_equal; lia.
Qed.

Lemma refines_close s r :
  refines m s r → refines m (mkSpec (sp_entries s) (sp_next s) false) (close_open r).
Proof. by intros []; split. Qed.

Lemma wf_reopen s o : spec_wf s → spec_wf (mkSpec (sp_entries s) (sp_next s) o).
Proof. by intros []; split. Qed.

(** The window is already in step with the timeline. *)
Lemma refines_sync s r :
  refines m s r → spec_wf s → (sp_next s ≤ U64_MAX)%Z → sync_window r = r.
Proof.
  intros [Ht _ Hw _ _ _] Hwf Hmax. pose proof (wf_next _ Hwf).
  unfold sync_window, with_window. rewrite Ht, Hw. simpl. destruct r; simpl in *. subst.
  autorewrite with vec. rewrite u64_saturating_add_exact by lia.
  do 2 f_equal. f_equal. lia.
Qed.

Lemma spec_push_wf s k o : spec_wf s → spec_wf (spec_push s k o).
Proof using. clear m Hm.
  intros [Hs Hi Hn]. split; simpl.
  - rewrite map_app. apply StronglySorted_snoc; [done|].
    apply Forall_map. eapply Forall_impl; [exact Hi|]. naive_solver.
  - apply Forall_app. split; [|repeat constructor; simpl; lia].
    eapply Forall_impl; [exact Hi|]. naive_solver lia.
  - rewrite length_app. simpl. lia.
Qed.

Lemma refines_push s r k :
  refines m s r → spec_wf s → (sp_next s < U64_MAX)%Z → is_tool k = false →
  refines m (spec_push s k false) (fst (push (close_open r) k)).
Proof.
  intros Hr Hwf Hmax Hk.
  pose proof (push_closed _ _ k (refines_close _ _ Hr) eq_refl (wf_reopen _ _ Hwf) Hmax) as ->.
  split; simpl; try done. rewrite live_tools_app, (rf_active _ _ _ Hr). simpl.
  unfold active_of; simpl. destruct k; try done; by rewrite app_nil_r.
Qed.

Lemma refines_start s r id name title status :
  refines m s r → spec_wf s → (sp_next s < U64_MAX)%Z → is_terminal status = false →
  refines m (spec_push s (EkTool id name title status None false) false)
    (fst (start_tool r id name title status)).
Proof.
  intros Hr Hwf Hmax Hst. unfold start_tool.
  pose proof (push_closed _ _ (EkTool id name title status None false)
    (refines_close _ _ Hr) eq_refl (wf_reopen _ _ Hwf) Hmax) as ->.
  split; simpl; try done. rewrite live_tools_app, (rf_active _ _ _ Hr). simpl.
  unfold active_of; simpl. by rewrite Hst.
Qed.

Lemma append_to_id kind text k k' :
  append_to kind text k = Some k' → is_tool k = false ∧ is_tool k' = false.
Proof. destruct k, kind; naive_solver. Qed.

Lemma active_of_text id o k : is_tool k = false → active_of (mkEntry id o k) = None.
Proof. by destruct k. Qed.

Lemma spec_append_wf s kind text : spec_wf s → spec_wf (spec_append s kind text).
Proof using. clear m Hm.
  intros Hwf. unfold spec_append.
  destruct (sp_open s); [|by apply spec_push_wf].
  destruct (last (sp_entries s)) as [e|] eqn:He; [|by apply spec_push_wf].
  destruct (append_to kind text (te_entry e)) as [k|]; [|by apply spec_push_wf].
  pose proof (take_last_split _ _ He) as Hl. destruct Hwf as [Hs Hi Hn].
  split; simpl.
  - rewrite map_app. rewrite Hl, map_app in Hs. done.
  - rewrite Hl in Hi. apply Forall_app in Hi as [Hi1 Hi2]. apply Forall_app. split; [done|].
    inv Hi2. by constructor.
  - rewrite Hl, length_app in Hn. rewrite length_app. done.
Qed.

Lemma refines_append s r kind text :
  refines m s r → spec_wf s → (sp_next s < U64_MAX)%Z →
  refines m (spec_append s kind text) (append_text r kind text).
Proof.
  intros Hr Hwf Hmax.
  assert (Hpush : let '(r1, id) := push (close_open r) (text_entry kind text) in
    refines m (spec_push s (text_entry kind text) true) (with_open r1 (Some id))).
  { pose proof (push_closed _ _ (text_entry kind text)
      (refines_close _ _ Hr) eq_refl (wf_reopen _ _ Hwf) Hmax) as ->.
    split; simpl; try done; [|by rewrite last_snoc].
    rewrite live_tools_app, (rf_active _ _ _ Hr). simpl.
    unfold active_of; simpl. by destruct kind; rewrite app_nil_r. }
  unfold spec_append, append_text.
  rewrite (rf_open _ _ _ Hr), (rf_timeline _ _ _ Hr), last_lastn by done.
  destruct (sp_open s) eqn:Ho; [|done].
  destruct (last (sp_entries s)) as [e|] eqn:He; simpl; [|done].
  rewrite Z.eqb_refl.
  destruct (append_to kind text (te_entry e)) as [k|] eqn:Hk; [|done].
  apply append_to_id in Hk as [Hk1 Hk2].
  pose proof (take_last_split _ _ He) as Hl.
  set (p := take (length (sp_entries s) - 1) (sp_entries s)) in *.
  assert (Hlen : length (sp_entries s) = length p + 1) by (rewrite Hl, length_app; done).
  split; simpl.
  - rewrite length_lastn, Hl. rewrite (lastn_app_r m p [e]), (lastn_app_r m p [_]) by (simpl; lia).
    simpl. rewrite take_app_le; [rewrite take_ge; [done|]|];
      rewrite length_lastn, ?length_app; simpl; lia.
  - rewrite (rf_active _ _ _ Hr), Hl, !live_tools_app. simpl.
    rewrite active_of_text by done. destruct e; simpl in *. by rewrite active_of_text.
  - rewrite (rf_window _ _ _ Hr), Hlen, length_app. done.
  - apply (rf_max _ _ _ Hr).
  - apply (rf_next _ _ _ Hr).
  - rewrite (rf_open _ _ _ Hr), Ho, He, last_snoc. done.
Qed.

(** Looking a call up among the active tools or in the timeline is the same. *)
Lemma rfind_live_tools id l :
  at_occurrence_id <$> rfind (λ t, bool_decide (at_tool_call_id t = id)) (live_tools l) =
  te_id <$> rfind (is_live_call id) l.
Proof.
  induction l as [|e l IH]; [done|].
  assert (rfind (λ t, bool_decide (at_tool_call_id t = id)) (live_tools l) = None ↔
          rfind (is_live_call id) l = None) as Hnone.
  { split; intros H; rewrite H in IH; simpl in IH; by destruct (rfind _ _). }
  simpl. destruct (active_of e) as [t|] eqn:Ha; simpl.
  - destruct (rfind (is_live_call id) l) as [x|].
    + destruct (rfind _ (live_tools l)); [done|]. by destruct (proj1 Hnone eq_refl).
    + rewrite (proj2 Hnone eq_refl). unfold active_of in Ha. unfold is_live_call.
      destruct (te_entry e) as [| | | | |c n ti st o tr]; try done.
      destruct (is_terminal st); [done|]. simplify_eq/=.
      rewrite andb_true_r. by case_bool_decide.
  - rewrite IH. destruct (rfind (is_live_call id) l) as [x|]; [done|].
    unfold active_of in Ha. unfold is_live_call.
    destruct (te_entry e) as [| | | | |c n ti st o tr]; try done.
    destruct (is_terminal st); [|done]. by rewrite andb_false_r.
Qed.

(** Ids identify entries. *)
Lemma sorted_ids_split s l1 x l2 e :
  spec_wf s → sp_entries s = l1 ++ x :: l2 → e ∈ l1 ∨ e ∈ l2 → te_id e ≠ te_id x.
Proof using. clear m Hm.
  intros [Hs _ _] Heq He. rewrite Heq, map_app in Hs. simpl in Hs.
  assert (Hlt1 : ∀ y, y ∈ map te_id l1 → (y < te_id x)%Z).
  { intros y Hy. revert Hs Hy. generalize (map te_id l1) as k. clear.
    induction k as [|z k IH]; simpl; intros Hs Hy; [by apply not_elem_of_nil in Hy|].
    apply StronglySorted_inv in Hs as [Hs Hf]. apply elem_of_cons in Hy as [->|Hy]; [|auto].
    apply Forall_app in Hf as [_ Hf]. by inv Hf. }
  assert (Hlt2 : ∀ y, y ∈ map te_id l2 → (te_id x < y)%Z).
  { assert (StronglySorted Z.lt (te_id x :: map te_id l2)) as Hs2.
    { revert Hs. generalize (map te_id l1) as k. clear. induction k as [|z k IH]; simpl; [done|].
      intros [Hs _]%StronglySorted_inv. auto. }
    apply StronglySorted_inv in Hs2 as [_ Hf]. by rewrite Forall_forall in Hf. }
  destruct He as [He|He]; apply (list_elem_of_fmap_2 te_id) in He; [apply Hlt1 in He|apply Hlt2 in He]; lia.
Qed.

Lemma live_tools_ids l t : t ∈ live_tools l → ∃ e, e ∈ l ∧ at_occurrence_id t = te_id e.
Proof.
  intros (e & He & Ha)%list_elem_of_omap. exists e. split; [done|].
  unfold active_of in Ha. by split_cases.
Qed.

Lemma filter_live_tools_ne i l :
  (∀ e, e ∈ l → te_id e ≠ i) →
  List.filter (λ t, negb (at_occurrence_id t =? i)%Z) (live_tools l) = live_tools l.
Proof.
  intros Hne. assert (∀ t, t ∈ live_tools l → at_occurrence_id t ≠ i) as Hl.
  { intros t (e & He & ->)%live_tools_ids. auto. }
  induction (live_tools l) as [|t k IH]; [done|]. simpl.
  assert ((at_occurrence_id t =? i)%Z = false) as -> by (apply Z.eqb_neq, Hl; left).
  simpl. f_equal. apply IH. intros; apply Hl; by right.
Qed.

Lemma update_first_live_tools_ne i f l k :
  (∀ e, e ∈ l → te_id e ≠ i) →
  update_first (λ t, (at_occurrence_id t =? i)%Z) f (live_tools l ++ k) =
  live_tools l ++ update_first (λ t, (at_occurrence_id t =? i)%Z) f k.
Proof.
  intros Hne. assert (∀ t, t ∈ live_tools l → at_occurrence_id t ≠ i) as Hl.
  { intros t (e & He & ->)%live_tools_ids. auto. }
  induction (live_tools l) as [|t k' IH]; [done|]. simpl.
  assert ((at_occurrence_id t =? i)%Z = false) as -> by (apply Z.eqb_neq, Hl; left).
  f_equal. apply IH. intros; apply Hl; by right.
Qed.

Lemma set_tool_status_id st o e : te_id (set_tool_status st o e) = te_id e.
Proof. unfold set_tool_status. by destruct (te_entry e). Qed.

Lemma set_tool_status_order st o e : te_order (set_tool_status st o e) = te_order e.
Proof. unfold set_tool_status. by destruct (te_entry e). Qed.

Lemma live_tools_cons_tool i ord c n ti st o tr l :
  live_tools (mkEntry i ord (EkTool c n ti st o tr) :: l) =
  (if is_terminal st then [] else [mkActiveTool i c n ti st tr]) ++ live_tools l.
Proof. unfold live_tools; simpl. unfold active_of; simpl. by destruct (is_terminal st). Qed.

(** The effect of an update on the active tools of an entry with a unique id. *)
Lemma live_tools_update id st o l1 x l2 :
  is_live_call id x = true →
  (∀ e, e ∈ l1 ∨ e ∈ l2 → te_id e ≠ te_id x) →
  live_tools (l1 ++ set_tool_status st o x :: l2) =
  if is_terminal st then
    List.filter (λ t, negb (at_occurrence_id t =? te_id x)%Z) (live_tools (l1 ++ x :: l2))
  else update_first (λ t, (at_occurrence_id t =? te_id x)%Z) (set_active_status st)
         (live_tools (l1 ++ x :: l2)).
Proof.
  intros Hx Hne. rewrite !live_tools_app. unfold is_live_call in Hx.
  destruct x as [i ord k]; cbn [te_id te_entry] in *.
  destruct k as [| | | | |c n ti st0 o0 tr]; try done.
  apply andb_true_iff in Hx as [_ Hst0%negb_true_iff].
  unfold set_tool_status; cbn [te_id te_order te_entry]. rewrite !live_tools_cons_tool, Hst0.
  destruct (is_terminal st); simpl.
  - rewrite List.filter_app. simpl. rewrite Z.eqb_refl. simpl.
    by rewrite !filter_live_tools_ne by naive_solver.
  - rewrite update_first_live_tools_ne by naive_solver. simpl. by rewrite Z.eqb_refl.
Qed.

Lemma refines_update s r id st o :
  refines m s r → spec_wf s → refines m (spec_update s id st o) (update_tool r id st o).
Proof.
  intros Hr Hwf. unfold update_tool.
  set (found := match rfind (is_live_call id) (tl_timeline r) with Some e => _ | None => _ end).
  assert (found = te_id <$> rfind (is_live_call id) (sp_entries s)) as ->.
  { unfold found. rewrite (rf_timeline _ _ _ Hr), (rf_active _ _ _ Hr), rfind_live_tools.
    rewrite (rfind_lastn_or _ m (sp_entries s)).
    destruct (rfind (is_live_call id) (lastn m (sp_entries s))); done. }
  destruct (rfind (is_live_call id) (sp_entries s)) as [x|] eqn:Hf; simpl.
  - apply rfind_Some in Hf as (l1 & l2 & Hl & Hx & Hl2).
    pose proof (λ e, sorted_ids_split s l1 x l2 e Hwf Hl) as Hne.
    assert (Htool : is_tool (te_entry x) = true).
    { unfold is_live_call in Hx. by destruct (te_entry x). }
    assert (Heq : update_last (λ e, (te_id e =? te_id x)%Z && is_tool (te_entry e))
      (set_tool_status st o) (sp_entries s) = l1 ++ set_tool_status st o x :: l2).
    { rewrite Hl. apply update_last_at; [by rewrite Z.eqb_refl|].
      intros e He. apply andb_false_iff. left. apply Z.eqb_neq. auto. }
    assert (Hlast : update_last (is_live_call id) (set_tool_status st o) (sp_entries s) =
      l1 ++ set_tool_status st o x :: l2) by (rewrite Hl; by apply update_last_at).
    assert (Htl : update_last (λ e, (te_id e =? te_id x)%Z && is_tool (te_entry e))
      (set_tool_status st o) (tl_timeline r) = lastn m (l1 ++ set_tool_status st o x :: l2)).
    { by rewrite (rf_timeline _ _ _ Hr), <- Heq, lastn_update_last. }
    pose proof (live_tools_update id st o l1 x l2 Hx Hne) as Hlive. rewrite <- Hl in Hlive.
    assert (Hlast' : te_id <$> last (l1 ++ set_tool_status st o x :: l2) =
                     te_id <$> last (sp_entries s)).
    { rewrite Hl. destruct l2 as [|y l2 _] using rev_ind.
      - rewrite !last_snoc. simpl. by rewrite set_tool_status_id.
      - by rewrite !app_comm_cons, !app_assoc, !last_snoc. }
    destruct (is_terminal st); split; simpl; rewrite ?Hlast, ?Htl, ?Hlive, ?Hlast'; try done;
      try (by rewrite (rf_active _ _ _ Hr)); try apply Hr;
      rewrite (rf_window _ _ _ Hr), Hl, !length_app; done.
  - assert (Hid : update_last (is_live_call id) (set_tool_status st o) (sp_entries s) = sp_entries s).
    { apply update_last_none. by rewrite <- rfind_existsb, Hf. }
    unfold spec_update. rewrite Hid. by destruct s.
Qed.

Lemma spec_update_wf s id st o : spec_wf s → spec_wf (spec_update s id st o).
Proof using. clear m Hm.
  intros [Hs Hi Hn]. split; simpl.
  - rewrite map_update_last; [done|]. intros; apply set_tool_status_id.
  - clear Hs Hn. induction Hi as [|e l He Hi IH]; simpl; [constructor|].
    repeat case_match; constructor; try done.
    by rewrite set_tool_status_id, set_tool_status_order.
  - by rewrite length_update_last.
Qed.

(** The entry ids stay distinct from each other while the tools are cancelled. *)
Definition cancel_one (l : list TimelineEntry) (t : ActiveToolState) : list TimelineEntry :=
  update_last (λ e, (te_id e =? at_occurrence_id t)%Z && is_tool (te_entry e))
    (set_tool_status ToolCancelled None) l.

Lemma fold_update_occurrence ts r :
  fold_left (λ r t, update_occurrence r (at_occurrence_id t) ToolCancelled None) ts r =
  with_timeline r (fold_left cancel_one ts (tl_timeline r)).
Proof.
  revert r. induction ts as [|t ts IH]; intros r; simpl; [by destruct r|].
  rewrite IH. done.
Qed.

Lemma fold_cancel_lastn ts l :
  fold_left cancel_one ts (lastn m l) = lastn m (fold_left cancel_one ts l).
Proof.
  revert l. induction ts as [|t ts IH]; intros l; simpl; [done|].
  unfold cancel_one at 2. rewrite <- lastn_update_last. apply IH.
Qed.

Lemma active_of_Some e t :
  active_of e = Some t → at_occurrence_id t = te_id e ∧ is_tool (te_entry e) = true.
Proof. unfold active_of. intros. by split_cases. Qed.

Lemma cancel_entry_id e : te_id (cancel_entry e) = te_id e.
Proof. unfold cancel_entry. case_match; [apply set_tool_status_id|done]. Qed.

Lemma cancel_entry_order e : te_order (cancel_entry e) = te_order e.
Proof. unfold cancel_entry. case_match; [apply set_tool_status_order|done]. Qed.

Lemma fold_cancel_split before rest :
  NoDup (map te_id (before ++ rest)) →
  fold_left cancel_one (live_tools rest) (before ++ rest) = before ++ map cancel_entry rest.
Proof.
  revert before. induction rest as [|e rest IH]; intros before Hnd; [done|].
  unfold live_tools; simpl. fold (live_tools rest). unfold cancel_entry at 1.
  destruct (active_of e) as [t|] eqn:Ha; simpl.
  - apply active_of_Some in Ha as [Hid Htool].
    assert (cancel_one (before ++ e :: rest) t =
            (before ++ [set_tool_status ToolCancelled None e]) ++ rest) as ->.
    { unfold cancel_one. rewrite update_last_at, <- app_assoc; [done|by rewrite Hid, Z.eqb_refl, Htool|].
      intros y Hy. apply andb_false_iff. left. apply Z.eqb_neq. rewrite Hid. intros Heq.
      rewrite map_app in Hnd. apply NoDup_app in Hnd as (_ & _ & Hnd). simpl in Hnd.
      apply NoDup_cons in Hnd as [Hnin _]. apply Hnin. rewrite <- Heq.
      by apply (list_elem_of_fmap_2 te_id). }
    rewrite IH; [by rewrite <- app_assoc|].
    rewrite !map_app in *. simpl in *. by rewrite set_tool_status_id, <- app_assoc.
  - replace (before ++ e :: rest) with ((before ++ [e]) ++ rest) by (by rewrite <- app_assoc).
    rewrite IH; [by rewrite <- app_assoc|]. by rewrite <- app_assoc.
Qed.

Lemma live_tools_cancelled l : live_tools (map cancel_entry l) = [].
Proof.
  induction l as [|e l IH]; [done|]. unfold live_tools; simpl. fold (live_tools (map cancel_entry l)).
  assert (active_of (cancel_entry e) = None) as ->; [|done].
  unfold cancel_entry. destruct (active_of e) eqn:Ha; simpl; [|done].
  unfold active_of in *. unfold set_tool_status. by destruct (te_entry e).
Qed.

Lemma refines_cancel s r :
  refines m s r → spec_wf s →
  refines m (mkSpec (map cancel_entry (sp_entries s)) (sp_next s) (sp_open s))
    (cancel_reconstructed_active_tools r).
Proof.
  intros Hr Hwf. unfold cancel_reconstructed_active_tools.
  rewrite fold_update_occurrence. simpl.
  rewrite (rf_timeline _ _ _ Hr), (rf_active _ _ _ Hr), fold_cancel_lastn.
  pose proof (fold_cancel_split [] (sp_entries s)) as Hc. simpl in Hc.
  rewrite Hc by (apply sorted_NoDup, Hwf). clear Hc.
  split; simpl; try apply Hr.
  - done.
  - by rewrite live_tools_cancelled.
  - by rewrite length_map, (rf_window _ _ _ Hr).
  - rewrite (rf_open _ _ _ Hr). destruct (sp_open s); [|done].
    change (map cancel_entry (sp_entries s)) with (cancel_entry <$> sp_entries s).
    rewrite fmap_last. destruct (last (sp_entries s)); simpl; [by rewrite cancel_entry_id|done].
Qed.

Lemma spec_cancel_wf s :
  spec_wf s → spec_wf (mkSpec (map cancel_entry (sp_entries s)) (sp_next s) (sp_open s)).
Proof using. clear m Hm.
  intros [Hs Hi Hn]. split; simpl.
  - rewrite map_map. erewrite map_ext; [exact Hs|]. apply cancel_entry_id.
  - apply Forall_map. eapply Forall_impl; [exact Hi|]. intros e He.
    by rewrite cancel_entry_id, cancel_entry_order.
  - by rewrite length_map.
Qed.

Lemma spec_op_wf s op : spec_wf s → spec_wf (spec_op s op).
Proof using. clear m Hm.
  intros Hwf. destruct op as [[]|k|id n t|id st o|t|]; simpl;
    auto using spec_push_wf, spec_append_wf, spec_update_wf, spec_cancel_wf.
  destruct Hwf as [? ? ?]. split; simpl; [constructor|constructor|lia].
Qed.

Lemma spec_op_next s op : (sp_next s ≤ sp_next (spec_op s op) ≤ sp_next s + 1)%Z.
Proof using. clear m Hm.
  destruct op as [[]|k|id n t|id st o|t|]; simpl; unfold spec_append; repeat case_match; simpl; lia.
Qed.

(** One operation of the reducer is one operation of the abstract timeline. *)
Lemma refines_op s r op :
  refines m s r → spec_wf s → (sp_next s < U64_MAX)%Z → op_ok op →
  refines m (spec_op s op) (run_op r op).
Proof.
  intros Hr Hwf Hmax Hop.
  assert (∀ e r', refines m (spec_event s e) r' → refines m (spec_event s e) (sync_window r')) as Hsync.
  { intros e r' Hr'. rewrite (refines_sync (spec_event s e)); [done|done|by apply (spec_op_wf s (OpApply e))|].
    pose proof (spec_op_next s (OpApply e)). simpl in *. lia. }
  destruct op as [e|k|id n t|id st o|t|]; cbn [run_op spec_op];
    auto using refines_push, refines_start, refines_update, refines_cancel.
  - unfold apply. apply Hsync. destruct e; cbn [spec_event];
      auto using refines_push, refines_start, refines_update, refines_append.
    split; simpl; try done; [by rewrite Nat.min_0_r|apply Hr..].
  - by apply refines_push.
  - by apply refines_start.
  - by apply refines_update.
  - by apply refines_push.
Qed.

Lemma refines_new : refines m spec_new (new m).
Proof.
  unfold new, from_parts. simpl. unfold trim_to_limit; simpl.
  replace (m `max` 1) with m by lia.
  destruct (Nat.ltb_spec 0 (0 - m)); [lia|]. unfold sync_window, with_window; simpl.
  by split; simpl; try done; rewrite ?Nat.min_0_r.
Qed.

Lemma refines_ops_from s r ops :
  refines m s r → spec_wf s → Forall op_ok ops →
  (sp_next s + Z.of_nat (length ops) ≤ U64_MAX)%Z →
  refines m (spec_ops s ops) (run_ops r ops) ∧ spec_wf (spec_ops s ops).
Proof.
  revert s r. induction ops as [|op ops IH]; intros s r Hr Hwf Hok Hmax; simpl; [done|].
  inv Hok. pose proof (spec_op_next s op). simpl in Hmax.
  apply IH; auto using spec_op_wf; [|lia].
  apply refines_op; auto. lia.
Qed.

End refinement.

(** ** Properties *)

(** C1: refinement.  After any sequence of operations from an empty reducer
    (shorter than the id space), the reducer shows exactly the newest
    [max_entries] entries of the unbounded timeline, its active tools are the
    unfinished tool entries of the unbounded timeline (trimmed ones included),
    and its window counts the dropped, the retained and the total entries. *)
Theorem timeline_refines_unbounded m ops :
  0 < m → Forall op_ok ops → (Z.of_nat (length ops) < U64_MAX)%Z →
  let r := run_ops (new m) ops in
  let full := sp_entries (spec_ops spec_new ops) in
  tl_timeline r = lastn m full ∧
  tl_active_tools r = live_tools full ∧
  tl_history_window r = mkWindow (Z.of_nat (length full - m)) (m `min` length full)
                          (Some (Z.of_nat (length full))) None.
Proof.
  intros Hm Hok Hlen.
  destruct (refines_ops_from m Hm spec_new (new m) ops (refines_new m Hm) spec_new_wf Hok) as [Hr _].
  { simpl. lia. }
  split_and!; apply Hr.
Qed.

Definition demo_ops : list TimelineOp :=
  map OpApply
    [UserMessage "hi" None; ToolCallStarted "t" "exec" "ls" None; AssistantDelta "a";
     AssistantDelta "b"; ThoughtDelta "c"; ToolCallFinished "t" ToolCompleted "ok"].

Lemma timeline_refines_unbounded_witness :
  length (tl_timeline (run_ops (new 2) demo_ops)) = 2 ∧
  hw_total (tl_history_window (run_ops (new 2) demo_ops)) = Some 4%Z.
Proof.
  destruct (timeline_refines_unbounded 2 demo_ops) as (Ht & _ & Hw);
    [lia|by repeat constructor|done|].
  rewrite Ht, Hw. by split; vm_compute.
Defined.

(** Bounds that hold of every reducer, whatever it was built from. *)
Definition bounded (r : TimelineReducer) : Prop :=
  0 < tl_max_entries r ∧
  length (tl_timeline r) ≤ tl_max_entries r ∧
  hw_retained (tl_history_window r) = length (tl_timeline r) ∧
  hw_total (tl_history_window r) =
    Some (u64_saturating_add (hw_truncated_before (tl_history_window r))
            (Z.of_nat (length (tl_timeline r)))).

Lemma sync_trim_bounded r : 0 < tl_max_entries r → bounded (sync_window (trim_to_limit r)).
Proof.
  intros Hm. unfold trim_to_limit.
  destruct (Nat.ltb_spec 0 (length (tl_timeline r) - tl_max_entries r));
    split_and!; simpl; rewrite ?length_drop; try done; lia.
Qed.

Lemma sync_bounded r :
  0 < tl_max_entries r → length (tl_timeline r) ≤ tl_max_entries r → bounded (sync_window r).
Proof. intros. split_and!; done. Qed.

Lemma push_bounded r k : 0 < tl_max_entries r → bounded (fst (push r k)).
Proof. intros. by apply sync_trim_bounded. Qed.

Lemma update_tool_shape r id st o :
  length (tl_timeline (update_tool r id st o)) = length (tl_timeline r) ∧
  tl_max_entries (update_tool r id st o) = tl_max_entries r ∧
  tl_history_window (update_tool r id st o) = tl_history_window r.
Proof.
  unfold update_tool. destruct (match rfind _ _ with Some _ => _ | None => _ end); [|done].
  by destruct (is_terminal st); simpl; rewrite length_update_last.
Qed.

Lemma update_tool_bounded r id st o : bounded r → bounded (update_tool r id st o).
Proof.
  destruct (update_tool_shape r id st o) as (Hl & Hm & Hw).
  unfold bounded. by rewrite Hl, Hm, Hw.
Qed.

Lemma append_text_bounded r kind text : bounded r → bounded (append_text r kind text).
Proof.
  intros (Hm & Hl & Hr & Ht).
  assert (Hp : let '(r1, id) := push (close_open r) (text_entry kind text) in
               bounded (with_open r1 (Some id))) by by apply (push_bounded (close_open r)).
  unfold append_text. destruct (tl_open_entry_id r) as [o|]; [|done].
  destruct (last (tl_timeline r)) as [e|] eqn:He; [|done].
  destruct (te_id e =? o)%Z; [|done].
  destruct (append_to _ _ _) as [k|]; [|done].
  apply take_last_split in He.
  assert (length (take (length (tl_timeline r) - 1) (tl_timeline r) ++ [mkEntry (te_id e) (te_order e) k])
          = length (tl_timeline r)) as Hlen.
  { rewrite He at 3. by rewrite !length_app. }
  unfold bounded. simpl. by rewrite Hlen.
Qed.

Lemma fold_cancel_shape ts l : length (fold_left cancel_one ts l) = length l.
Proof.
  revert l. induction ts as [|t ts IH]; intros l; simpl; [done|].
  rewrite IH. apply length_update_last.
Qed.

(** every operation keeps the timeline within its limit and the window in
    step with it, from any reducer for which this holds: the retained count is
    the number of entries shown and the total is dropped plus retained. *)
Theorem run_op_bounded r op : bounded r → bounded (run_op r op).
Proof.
  intros Hb. pose proof (proj1 Hb) as Hm.
  destruct op as [e|k|id n t|id st o|t|]; cbn [run_op].
  - assert (∀ r', bounded r' → bounded (sync_window r')) as Hs.
    { intros r' (? & ? & _ & _). by apply sync_bounded. }
    unfold apply. apply Hs.
    destruct e; try done; try (by apply (push_bounded (close_open r)));
      auto using append_text_bounded, update_tool_bounded.
    split_and!; simpl; try done; lia.
  - by apply (push_bounded (close_open r)).
  - by apply (push_bounded (close_open r)).
  - by apply update_tool_bounded.
  - by apply (push_bounded (close_open r)).
  - unfold cancel_reconstructed_active_tools. rewrite fold_update_occurrence.
    unfold bounded. simpl. rewrite fold_cancel_shape. exact Hb.
Qed.

(** [from_parts] establishes the bounds from any parts. *)
Lemma from_parts_bounded t a w m : bounded (from_parts t a w m).
Proof.
  unfold from_parts. apply sync_trim_bounded.
  match goal with |- context [fold_left ?f ?ts ?r] =>
    assert (tl_max_entries (fold_left f ts r) = tl_max_entries r) as -> end; [|simpl; lia].
  set (f := λ (r : TimelineReducer) (t : ActiveToolState), _).
  assert (∀ ts r, tl_max_entries (fold_left f ts r) = tl_max_entries r) as H; [|apply H].
  induction ts as [|x ts IH]; intros r; simpl; [done|]. by rewrite IH.
Qed.

Lemma run_op_bounded_witness :
  bounded (run_op (from_parts [] [] (window_complete 7) 0) (OpSystem "notice")).
Proof. apply run_op_bounded. apply from_parts_bounded. Defined.

(** A tool entry that has ended. *)
Definition ended (e : TimelineEntry) : Prop :=
  ∃ c n t st o tr, te_entry e = EkTool c n t st o tr ∧ is_terminal st = true.

Lemma ended_not_live e id : ended e → is_live_call id e = false.
Proof.
  intros (c & n & t & st & o & tr & He & Hst). unfold is_live_call.
  by rewrite He, Hst, andb_false_r.
Qed.

Lemma spec_append_ended s kind text e :
  ended e → e ∈ sp_entries s → e ∈ sp_entries (spec_append s kind text).
Proof.
  intros Hend He. unfold spec_append.
  destruct (sp_open s); [|apply elem_of_app; by left].
  destruct (last (sp_entries s)) as [x|] eqn:Hx; [|apply elem_of_app; by left].
  destruct (append_to kind text (te_entry x)) as [k|] eqn:Hk; [|apply elem_of_app; by left].
  apply append_to_id in Hk as [Hk _]. apply take_last_split in Hx.
  simpl. rewrite Hx in He. apply elem_of_app in He as [He|He]; apply elem_of_app; [by left|].
  apply list_elem_of_singleton in He as ->.
  destruct Hend as (c & n & t & st & o & tr & Heq & _). by rewrite Heq in Hk.
Qed.

Lemma spec_op_ended s op e :
  op ≠ OpApply ConversationCleared → ended e → e ∈ sp_entries s → e ∈ sp_entries (spec_op s op).
Proof.
  intros Hop Hend He.
  destruct op as [[]|k|id n t|id st o|t|]; simpl; try done;
    try (by apply spec_append_ended);
    try (apply elem_of_app; by left);
    try (apply elem_of_update_last; [done|by apply ended_not_live]).
  apply list_elem_of_fmap. exists e. split; [|done].
  unfold cancel_entry, active_of. destruct Hend as (c & n & t & st & o & tr & -> & ->). done.
Qed.

(** exactly-one terminal state.  Once a tool call occurrence has ended,
    no later operation changes its entry: after any further operations that do
    not clear the conversation, the entry is still there unchanged unless it was
    trimmed, that is, unless [max_entries] newer entries exist. *)
Theorem ended_tool_immutable m ops later e :
  0 < m → Forall op_ok (ops ++ later) → (Z.of_nat (length (ops ++ later)) < U64_MAX)%Z →
  OpApply ConversationCleared ∉ later →
  ended e → e ∈ tl_timeline (run_ops (new m) ops) →
  let r := run_ops (new m) (ops ++ later) in
  e ∈ tl_timeline r ∨
  (length (tl_timeline r) = m ∧ Forall (λ x, te_id e < te_id x)%Z (tl_timeline r)).
Proof.
  intros Hm Hok Hlen Hclr Hend He. simpl.
  assert (Hlen1 : (sp_next spec_new + Z.of_nat (length ops) ≤ U64_MAX)%Z).
  { rewrite length_app in Hlen. simpl. lia. }
  destruct (refines_ops_from m Hm spec_new (new m) ops (refines_new m Hm) spec_new_wf
    (proj1 (proj1 (Forall_app _ _ _) Hok)) Hlen1) as [Hr _].
  destruct (refines_ops_from m Hm spec_new (new m) (ops ++ later) (refines_new m Hm) spec_new_wf
    Hok) as [Hr' Hwf']; [simpl; lia|].
  rewrite (rf_timeline _ _ _ Hr) in He. apply elem_of_lastn in He.
  assert (He' : e ∈ sp_entries (spec_ops spec_new (ops ++ later))).
  { unfold spec_ops. rewrite fold_left_app. fold (spec_ops spec_new ops).
    clear Hok Hlen Hlen1 Hr Hr' Hwf'. revert He. generalize (spec_ops spec_new ops) as s.
    induction later as [|op later IH]; intros s He; simpl; [done|].
    apply not_elem_of_cons in Hclr as [Hop Hclr]. apply IH; [done|].
    apply spec_op_ended; auto. }
  rewrite (rf_timeline _ _ _ Hr').
  set (full := sp_entries (spec_ops spec_new (ops ++ later))) in *.
  rewrite (lastn_split m full) in He'. apply elem_of_app in He' as [Hold|Hnew]; [right|by left].
  apply list_elem_of_split in Hold as (l1 & l2 & Hsplit).
  assert (length (take (length full - m) full) > 0) as Hpos by (rewrite Hsplit, length_app; simpl; lia).
  rewrite length_take in Hpos. split; [rewrite length_lastn; lia|].
  pose proof (wf_sorted _ Hwf') as Hs. fold full in Hs.
  rewrite (lastn_split m full), Hsplit, <- app_assoc, map_app in Hs. simpl in Hs.
  apply StronglySorted_app in Hs as (_ & _ & Hs).
  apply StronglySorted_inv in Hs as [_ Hf]. rewrite map_app in Hf.
  apply Forall_app in Hf as [_ Hf]. by rewrite Forall_map in Hf.
Qed.

Lemma ended_tool_immutable_witness :
  let e := mkEntry 2 2 (EkTool "t" "exec" "ls" ToolCompleted (Some "ok") false) in
  let r := run_ops (new 9) (demo_ops ++ [OpApply (ToolCallUpdated "t" ToolFailed)]) in
  e ∈ tl_timeline r ∨
  (length (tl_timeline r) = 9 ∧ Forall (λ x, te_id e < te_id x)%Z (tl_timeline r)).
Proof.
  apply (ended_tool_immutable 9 demo_ops [OpApply (ToolCallUpdated "t" ToolFailed)]).
  - lia.
  - by repeat constructor.
  - done.
  - intros H. apply list_elem_of_singleton in H. done.
  - by exists "t", "exec", "ls", ToolCompleted, (Some "ok"), false.
  - vm_compute. right. left.
Defined.
