(* ===== verification/Router.v ===== *)
(** * The session event router

    Models [SessionEventRouter] of [src/src/session_core.rs]: it assigns each
    canonical event a session-local sequence number, keeps the newest events for
    replay, and hands every event to the subscribed handlers.  Every operation
    runs under the router's [dispatch] mutex (and [subscribe] under the handler
    mutex), so an operation is one atomic step of the model.

    A handler is code of the embedding frontend: it is represented by whether a
    call panics, and each call is reported in the list of deliveries an emission
    returns.  [HashMap] iteration order is unspecified; the model delivers in the
    order of [map_to_list], and the theorems do not depend on it.

    The abstract specification of the router is the append-only log of the
    events it accepted ([router_log]); [EventSink] is the interface through which
    the approval broker and the tool lifecycle use it. *)

From stdpp Require Import base numbers list strings gmap.
From S2P Require Import Prelude Protocol.

Inductive SessionEventError :=
  | SequenceExhausted
  | HandlerPanicked
  | HandlerLimitReached (max : nat).

#[export] Instance SessionEventError_eq_dec : EqDecision SessionEventError.
Proof. solve_decision. Defined.

(** [true] when the call panics. *)
Definition SessionEventHandler := Z → SessionEvent → bool.

Record SessionEventRouter := mkRouter {
  rt_sequence : Z;
  rt_next_id : Z;
  rt_fixed_count : nat;
  rt_entries : gmap Z SessionEventHandler;
  rt_replay : list (Z * SessionEvent);
  rt_max_replay_events : nat;
}.

Inductive SessionReplay :=
  | Available (events : list (Z * SessionEvent)) (latest_seq : Z)
  | SnapshotRequired (latest_seq : Z).

#[export] Instance SessionReplay_eq_dec : EqDecision SessionReplay.
Proof. solve_decision. Defined.

(** One call of a handler: the handler's id, the sequence number, the event. *)
Definition Delivery : Type := Z * Z * SessionEvent.

Definition new_with_replay (handler : option SessionEventHandler) (max_replay_events : nat)
    : SessionEventRouter :=
  mkRouter 0 1 (if is_some handler then 1 else 0)
    (match handler with Some h => {[0%Z := h]} | None => ∅ end) [] max_replay_events.

Definition router_new (handler : option SessionEventHandler) : SessionEventRouter :=
  new_with_replay handler 0.

(** [while replay.len() > max { replay.pop_front(); }] *)
Fixpoint pop_excess {A} (max : nat) (q : list A) : list A :=
  match q with
  | [] => []
  | x :: q' => if max <? length q then pop_excess max q' else q
  end.

Definition emit_locked (r : SessionEventRouter) (event : SessionEvent)
    : SessionEventRouter * list Delivery * result Z SessionEventError :=
  match u64_checked_add (rt_sequence r) 1 with
  | None => (r, [], Err SequenceExhausted)
  | Some sequence =>
      let replay :=
        if 0 <? rt_max_replay_events r
        then pop_excess (rt_max_replay_events r) (rt_replay r ++ [(sequence, event)])
        else rt_replay r in
      let handlers := map_to_list (rt_entries r) in
      let deliveries := map (λ h : Z * SessionEventHandler, (h.1, sequence, event)) handlers in
      let handler_panicked := existsb (λ h : Z * SessionEventHandler, h.2 sequence event) handlers in
      (mkRouter sequence (rt_next_id r) (rt_fixed_count r) (rt_entries r) replay
         (rt_max_replay_events r),
       deliveries,
       if handler_panicked then Err HandlerPanicked else Ok sequence)
  end.

Definition emit (r : SessionEventRouter) (event : SessionEvent)
    : SessionEventRouter * list Delivery * result Z SessionEventError := emit_locked r event.

(** *** The durability status byte *)

Definition durability_status_code (s : DurabilityStatus) : Z :=
  match s with
  | DurSaved => 0 | DurUnsaved => 1 | DurSaving => 2 | DurDegraded => 3 | DurSuperseded => 4
  end.

(** The [debug_assert!] on an unknown code is not reached by the codes stored. *)
Definition durability_status_from_code (code : Z) : DurabilityStatus :=
  match code with
  | 1%Z => DurUnsaved
  | 2%Z => DurSaving
  | 3%Z => DurDegraded
  | 4%Z => DurSuperseded
  | 0%Z => DurSaved
  | _ => DurDegraded
  end.

Definition durability_blocked (previous status : DurabilityStatus) : bool :=
  bool_decide (previous = DurSuperseded)
  || (bool_decide (previous = DurDegraded)
      && negb (match status with DurSaved | DurSuperseded => true | _ => false end))
  || (bool_decide (previous = DurSaving) && bool_decide (status = DurUnsaved)).

(** [current] is the value of the atomic status byte. *)
Definition transition_durability (r : SessionEventRouter) (current : Z) (status : DurabilityStatus)
    : SessionEventRouter * Z * list Delivery :=
  let previous := durability_status_from_code current in
  if bool_decide (previous = status) || durability_blocked previous status then (r, current, [])
  else
    let '(r', ds, _) := emit_locked r (DurabilityStatusChanged status) in
    (r', durability_status_code status, ds).

(** *** Subscriptions *)

Definition subscribe (r : SessionEventRouter) (max_handlers : nat) (handler : SessionEventHandler)
    : SessionEventRouter * result Z SessionEventError :=
  let dynamic_count := size (rt_entries r) - rt_fixed_count r in
  if max_handlers <=? dynamic_count then (r, Err (HandlerLimitReached max_handlers))
  else
    let handler_id := rt_next_id r in
    match u64_checked_add handler_id 1 with
    | None => (r, Err SequenceExhausted)
    | Some next_id =>
        (mkRouter (rt_sequence r) next_id (rt_fixed_count r)
           (<[handler_id := handler]> (rt_entries r)) (rt_replay r) (rt_max_replay_events r),
         Ok handler_id)
    end.

(** [impl Drop for SessionEventSubscription]. *)
Definition drop_subscription (r : SessionEventRouter) (handler_id : Z) : SessionEventRouter :=
  mkRouter (rt_sequence r) (rt_next_id r) (rt_fixed_count r) (delete handler_id (rt_entries r))
    (rt_replay r) (rt_max_replay_events r).

Definition capture_sequence {T} (r : SessionEventRouter) (capture : SessionEventRouter → T) : Z * T :=
  (rt_sequence r, capture r).

Definition subscribe_and_capture {T} (r : SessionEventRouter) (max_handlers : nat)
    (handler : SessionEventHandler) (capture : SessionEventRouter → T)
    : SessionEventRouter * result (Z * T) SessionEventError :=
  let '(r', sub) := subscribe r max_handlers handler in
  (r', match sub with Ok id => Ok (id, capture r') | Err e => Err e end).

Definition latest_sequence (r : SessionEventRouter) : Z := rt_sequence r.

Definition replay_since (r : SessionEventRouter) (last_seen_seq : Z) : SessionReplay :=
  let latest_seq := rt_sequence r in
  if (latest_seq <? last_seen_seq)%Z then SnapshotRequired latest_seq
  else if (last_seen_seq =? latest_seq)%Z then Available [] latest_seq
  else match rt_replay r with
       | [] => SnapshotRequired latest_seq
       | (earliest_seq, _) :: _ =>
           if (u64_saturating_add last_seen_seq 1 <? earliest_seq)%Z then SnapshotRequired latest_seq
           else Available (List.filter (λ p, last_seen_seq <? p.1)%Z (rt_replay r)) latest_seq
       end.

(** *** Operations as data *)

Inductive RouterOp :=
  | REmit (event : SessionEvent)
  | RSubscribe (max_handlers : nat) (handler : SessionEventHandler)
  | RDrop (handler_id : Z).

Definition router_op (r : SessionEventRouter) (op : RouterOp) : SessionEventRouter * list Delivery :=
  match op with
  | REmit e => fst (emit r e)
  | RSubscribe n h => (fst (subscribe r n h), [])
  | RDrop id => (drop_subscription r id, [])
  end.

Fixpoint router_run (r : SessionEventRouter) (ops : list RouterOp)
    : SessionEventRouter * list Delivery :=
  match ops with
  | [] => (r, [])
  | op :: ops => let '(r1, d1) := router_op r op in
                 let '(r2, d2) := router_run r1 ops in (r2, d1 ++ d2)
  end.

(** The events a sequence of operations emits. *)
Definition emitted (ops : list RouterOp) : list SessionEvent :=
  omap (λ op, match op with REmit e => Some e | _ => None end) ops.

(** ** The abstract log *)

(** The events of a log with their sequence numbers, counted from [start + 1]. *)
Fixpoint number_from (start : Z) (h : list SessionEvent) : list (Z * SessionEvent) :=
  match h with [] => [] | e :: h => (start + 1, e)%Z :: number_from (start + 1) h end.

Record router_log (r : SessionEventRouter) (h : list SessionEvent) : Prop := {
  log_sequence : rt_sequence r = Z.of_nat (length h);
  log_replay : rt_replay r = lastn (rt_max_replay_events r) (number_from 0 h);
}.

(** What the components that publish events rely on. *)
Class EventSink (S : Type) := {
  sink_emit : S → SessionEvent → S * result Z SessionEventError;
  sink_log : S → list SessionEvent → Prop;
  sink_emit_spec : ∀ s h e, sink_log s h →
    match sink_emit s e with
    | (s', Ok n) => n = (Z.of_nat (length h) + 1)%Z ∧ sink_log s' (h ++ [e])
    | (s', Err HandlerPanicked) => sink_log s' (h ++ [e])
    | (s', Err SequenceExhausted) => s' = s ∧ Z.of_nat (length h) = U64_MAX
    | (s', Err (HandlerLimitReached _)) => False
    end;
  sink_log_bound : ∀ s h, sink_log s h → (Z.of_nat (length h) ≤ U64_MAX)%Z;
}.

Definition router_emit (r : SessionEventRouter) (e : SessionEvent)
    : SessionEventRouter * result Z SessionEventError :=
  let '(r', _, res) := emit r e in (r', res).

(** ** Lemmas *)

Lemma pop_excess_lastn {A} max (q : list A) : pop_excess max q = lastn max q.
Proof.
  induction q as [|x q IH]; [done|]. simpl. unfold lastn at 1. simpl length.
  destruct (Nat.ltb_spec max (S (length q))).
  - rewrite IH. unfold lastn. by replace (S (length q) - max) with (S (length q - max)) by lia.
  - by replace (S (length q) - max) with 0 by lia.
Qed.

Lemma length_number_from s h : length (number_from s h) = length h.
Proof. revert s. induction h as [|e h IH]; intros s; simpl; [done|]. by rewrite IH. Qed.

Lemma number_from_app s h k :
  number_from s (h ++ k) = number_from s h ++ number_from (s + Z.of_nat (length h)) k.
Proof.
  revert s. induction h as [|e h IH]; intros s; simpl; [by rewrite Z.add_0_r|].
  rewrite IH. do 3 f_equal. lia.
Qed.

Lemma drop_number_from n s h :
  n ≤ length h → drop n (number_from s h) = number_from (s + Z.of_nat n) (drop n h).
Proof.
  revert s h. induction n as [|n IH]; intros s h Hn; [by rewrite Z.add_0_r|].
  destruct h as [|e h]; simpl in *; [lia|]. rewrite IH by lia. f_equal. lia.
Qed.

Lemma filter_number_from k s h :
  (k ≤ s)%Z → List.filter (λ p, k <? p.1)%Z (number_from s h) = number_from s h.
Proof.
  revert s. induction h as [|e h IH]; intros s Hk; simpl; [done|].
  destruct (Z.ltb_spec k (s + 1)); [|lia]. rewrite IH by lia. done.
Qed.

Lemma filter_number_from_drop k s h :
  (s ≤ k)%Z → List.filter (λ p, k <? p.1)%Z (number_from s h) =
              drop (Z.to_nat (k - s)) (number_from s h).
Proof.
  revert s. induction h as [|e h IH]; intros s Hk; simpl; [by rewrite drop_nil|].
  destruct (Z.ltb_spec k (s + 1)).
  - replace (Z.to_nat (k - s)) with 0 by lia. simpl. f_equal. apply filter_number_from. lia.
  - replace (Z.to_nat (k - s)) with (S (Z.to_nat (k - (s + 1)))) by lia. simpl. apply IH. lia.
Qed.

Lemma emit_locked_log r h e :
  router_log r h → (Z.of_nat (length h) < U64_MAX)%Z →
  router_log (emit_locked r e).1.1 (h ++ [e]).
Proof.
  intros [Hs Hr] Hmax. unfold emit_locked, u64_checked_add.
  rewrite Hs. destruct (Z.leb_spec (Z.of_nat (length h) + 1) U64_MAX); [|lia].
  split; simpl; [rewrite length_app; simpl; lia|].
  rewrite Hr, number_from_app. simpl.
  destruct (Nat.ltb_spec 0 (rt_max_replay_events r)) as [Hm|Hm].
  - by rewrite pop_excess_lastn, lastn_lastn_app.
  - replace (rt_max_replay_events r) with 0 by lia. unfold lastn.
    rewrite !Nat.sub_0_r. by rewrite !drop_all.
Qed.

#[export] Program Instance router_sink : EventSink SessionEventRouter := {|
  sink_emit := router_emit;
  sink_log r h := router_log r h ∧ (Z.of_nat (length h) ≤ U64_MAX)%Z;
|}.
Next Obligation.
  intros r h e [Hlog Hmax]. simpl. unfold router_emit, emit.
  destruct (decide (Z.of_nat (length h) = U64_MAX)) as [Heq|Hne].
  - unfold emit_locked, u64_checked_add. rewrite (log_sequence _ _ Hlog), Heq.
    by destruct (Z.leb_spec (U64_MAX + 1) U64_MAX); [lia|].
  - pose proof (emit_locked_log r h e Hlog ltac:(lia)) as Hlog'.
    assert (Z.of_nat (length (h ++ [e])) ≤ U64_MAX)%Z by (rewrite length_app; simpl; lia).
    revert Hlog'. unfold emit_locked, u64_checked_add. rewrite (log_sequence _ _ Hlog).
    destruct (Z.leb_spec (Z.of_nat (length h) + 1) U64_MAX); [|lia].
    simpl. intros Hlog'. destruct (existsb _ _); auto.
Qed.
Next Obligation. intros r h [_ H]. exact H. Qed.

(** Publishing through any sink that has room appends to its log, whether or
    not a handler panics. *)
Lemma sink_emit_appends {S : Type} `{EventSink S} (s : S) h e :
  sink_log s h → (Z.of_nat (length h) < U64_MAX)%Z → sink_log (sink_emit s e).1 (h ++ [e]).
Proof.
  intros Hl Hmax. pose proof (sink_emit_spec s h e Hl) as Hs.
  destruct (sink_emit s e) as [s' [n|[]]]; simpl in *; [naive_solver|lia|done|done].
Qed.

(** Handler ids are minted in increasing order. *)
Definition entries_wf (r : SessionEventRouter) : Prop :=
  ∀ id, is_Some (rt_entries r !! id) → (id < rt_next_id r)%Z.

Lemma router_op_wf r op : entries_wf r → entries_wf (router_op r op).1.
Proof.
  intros Hwf id. destruct op as [e|n h|i]; simpl.
  - unfold emit, emit_locked. case_match; simpl; apply Hwf.
  - unfold subscribe. case_match; [apply Hwf|].
    destruct (u64_checked_add (rt_next_id r) 1) eqn:Hc; [|apply Hwf].
    simpl. apply u64_checked_add_Some in Hc as [-> _].
    destruct (decide (id = rt_next_id r)) as [->|Hne]; [lia|].
    rewrite lookup_insert_ne by done. intros ?%Hwf. lia.
  - intros [x Hx]. apply lookup_delete_Some in Hx as [_ Hx]. apply Hwf. eauto.
Qed.

Lemma new_wf handler n : entries_wf (new_with_replay handler n).
Proof.
  intros id [x Hx]. unfold new_with_replay in *; simpl in *. destruct handler.
  - apply lookup_singleton_Some in Hx as [<- _]. lia.
  - by rewrite lookup_empty in Hx.
Qed.

Lemma router_run_log r h ops :
  router_log r h → (Z.of_nat (length h) + Z.of_nat (length (emitted ops)) ≤ U64_MAX)%Z →
  router_log (router_run r ops).1 (h ++ emitted ops).
Proof.
  revert r h. induction ops as [|op ops IH]; intros r h Hlog Hmax; simpl.
  { by rewrite app_nil_r. }
  assert (Hstep : router_log (router_op r op).1 (h ++ emitted [op])).
  { destruct op as [e|n hd|i]; simpl in *.
    - apply emit_locked_log; [done|lia].
    - rewrite app_nil_r. unfold subscribe. repeat case_match; try done.
      split; simpl; apply Hlog.
    - rewrite app_nil_r. split; simpl; apply Hlog. }
  destruct (router_op r op) as [r1 d1] eqn:E1. simpl in Hstep.
  assert (emitted (op :: ops) = emitted [op] ++ emitted ops) as Heq by by destruct op.
  specialize (IH r1 (h ++ emitted [op]) Hstep).
  destruct (router_run r1 ops) as [r2 d2]. simpl in *. rewrite Heq, app_assoc. apply IH.
  rewrite Heq, length_app in Hmax. rewrite length_app. lia.
Qed.

(** What the handler [id] was called with, in order. *)
Definition received (id : Z) (ds : list Delivery) : list (Z * SessionEvent) :=
  omap (λ d, if decide (d.1.1 = id) then Some (d.1.2, d.2) else None) ds.

Lemma received_app id ds1 ds2 : received id (ds1 ++ ds2) = received id ds1 ++ received id ds2.
Proof. apply omap_app. Qed.

Lemma received_broadcast (m : gmap Z SessionEventHandler) id h s e :
  m !! id = Some h →
  received id (map (λ x : Z * SessionEventHandler, (x.1, s, e)) (map_to_list m)) = [(s, e)].
Proof.
  intros Hid. apply Permutation_singleton_r.
  assert (map_to_list m ≡ₚ (id, h) :: map_to_list (delete id m)) as Hp.
  { rewrite <- (insert_delete_id m id h) at 1 by done.
    apply map_to_list_insert. apply lookup_delete_eq. }
  unfold received. apply (Permutation_map (λ x, (x.1, s, e))) in Hp. rewrite Hp. clear Hp. simpl.
  rewrite decide_True by done. constructor.
  assert (Hrest : ∀ x, x ∈ map_to_list (delete id m) → x.1 ≠ id).
  { intros [i g] Hx%elem_of_map_to_list. by apply lookup_delete_Some in Hx as [? _]. }
  induction (map_to_list (delete id m)) as [|x l IH]; [done|]. simpl.
  rewrite decide_False by (apply Hrest; left). apply IH. intros; apply Hrest; by right.
Qed.

Lemma router_op_received r op id h :
  entries_wf r → rt_entries r !! id = Some h → op ≠ RDrop id →
  (rt_sequence r + Z.of_nat (length (emitted [op])) ≤ U64_MAX)%Z →
  rt_entries (router_op r op).1 !! id = Some h ∧
  rt_sequence (router_op r op).1 = (rt_sequence r + Z.of_nat (length (emitted [op])))%Z ∧
  received id (router_op r op).2 = number_from (rt_sequence r) (emitted [op]).
Proof.
  intros Hwf Hid Hop Hmax. destruct op as [e|n g|i]; simpl in *.
  - unfold emit, emit_locked, u64_checked_add.
    destruct (Z.leb_spec (rt_sequence r + 1) U64_MAX); [|lia]. simpl.
    split_and!; [done|lia|]. by erewrite received_broadcast.
  - unfold subscribe. repeat case_match; simpl; split_and!; try done; try lia.
    rewrite lookup_insert_ne; [done|]. intros Heq.
    assert (id < rt_next_id r)%Z by (apply Hwf; eauto). lia.
  - rewrite lookup_delete_ne by congruence. split_and!; [done|lia|done].
Qed.

(** The deliveries to one handler over any run in which it stays subscribed. *)
Lemma router_run_received r ops id h :
  entries_wf r → rt_entries r !! id = Some h → RDrop id ∉ ops →
  (rt_sequence r + Z.of_nat (length (emitted ops)) ≤ U64_MAX)%Z →
  received id (router_run r ops).2 = number_from (rt_sequence r) (emitted ops).
Proof.
  revert r. induction ops as [|op ops IH]; intros r Hwf Hid Hnd Hmax; simpl; [done|].
  assert (emitted (op :: ops) = emitted [op] ++ emitted ops) as Heq by by destruct op.
  rewrite Heq, length_app in Hmax. apply not_elem_of_cons in Hnd as [Hop Hnd].
  destruct (router_op_received r op id h Hwf Hid) as (Hid' & Hseq' & Hrec); [done|lia|].
  pose proof (router_op_wf r op Hwf) as Hwf'.
  destruct (router_op r op) as [r1 d1]. simpl in *.
  specialize (IH r1 Hwf' Hid' Hnd ltac:(lia)).
  destruct (router_run r1 ops) as [r2 d2]. simpl in *.
  by rewrite received_app, Hrec, IH, Heq, number_from_app, Hseq'.
Qed.

Lemma subscribe_Ok r max h r' id :
  subscribe r max h = (r', Ok id) →
  id = rt_next_id r ∧ rt_entries r' = <[id := h]> (rt_entries r) ∧
  rt_sequence r' = rt_sequence r ∧ rt_replay r' = rt_replay r.
Proof. unfold subscribe. intros. split_cases. done. Qed.

(** ** Properties *)

(** C5: no gap and no duplicate on attach.  A client that subscribes and
    captures the sequence number in one step is then called, in order, with
    exactly the events emitted afterwards, numbered from that capture on, as long
    as it stays subscribed: whatever other clients subscribe, unsubscribe or
    panic in the meantime. *)
Theorem subscriber_sees_every_event r max h r' id seq ops :
  entries_wf r →
  subscribe_and_capture r max h latest_sequence = (r', Ok (id, seq)) →
  RDrop id ∉ ops →
  (seq + Z.of_nat (length (emitted ops)) ≤ U64_MAX)%Z →
  received id (router_run r' ops).2 = number_from seq (emitted ops).
Proof.
  intros Hwf Hsub Hnd Hmax. unfold subscribe_and_capture in Hsub.
  destruct (subscribe r max h) as [r1 [i|]] eqn:Hs; simplify_eq.
  pose proof (router_op_wf r (RSubscribe max h) Hwf) as Hwf'. simpl in Hwf'. rewrite Hs in Hwf'.
  apply subscribe_Ok in Hs as (-> & He & _ & _).
  unfold latest_sequence in *. eapply router_run_received; [done| |done|done].
  rewrite He. apply lookup_insert_eq.
Qed.

Lemma subscriber_sees_every_event_witness :
  received 1 (router_run (subscribe (router_new (Some (λ _ _, true))) 4 (λ _ _, false)).1
    [REmit ConversationCleared; RSubscribe 4 (λ _ _, true); REmit (AssistantDelta "x")]).2 =
  [(1%Z, ConversationCleared); (2%Z, AssistantDelta "x")].
Proof.
  refine (subscriber_sees_every_event (router_new (Some (λ _ _, true))) 4 (λ _ _, false) _ 1 0
    [REmit ConversationCleared; RSubscribe 4 (λ _ _, true); REmit (AssistantDelta "x")]
    (new_wf _ _) _ _ _).
  - vm_compute. reflexivity.
  - intros H. repeat (apply elem_of_cons in H as [H|H]; [done|]). by apply not_elem_of_nil in H.
  - done.
Defined.

(** The answer of [replay_since] against the log. *)
Lemma replay_since_log r h k :
  router_log r h → (Z.of_nat (length h) ≤ U64_MAX)%Z → (0 ≤ k)%Z →
  replay_since r k =
  if decide (k ≤ Z.of_nat (length h) ∧ Z.of_nat (length h) - k ≤ Z.of_nat (rt_max_replay_events r))%Z
  then Available (drop (Z.to_nat k) (number_from 0 h)) (Z.of_nat (length h))
  else SnapshotRequired (Z.of_nat (length h)).
Proof.
  intros [Hs Hr] Hmax Hk. unfold replay_since. rewrite Hs.
  set (n := Z.of_nat (length h)) in *.
  destruct (Z.ltb_spec n k).
  { rewrite decide_False; [done|lia]. }
  destruct (Z.eqb_spec k n) as [->|Hne].
  { rewrite decide_True by lia. rewrite drop_ge; [done|]. rewrite length_number_from. lia. }
  assert (Hlast : lastn (rt_max_replay_events r) (number_from 0 h) =
    number_from (Z.of_nat (length h - rt_max_replay_events r))
      (drop (length h - rt_max_replay_events r) h)).
  { unfold lastn. rewrite length_number_from, drop_number_from by lia. done. }
  destruct (rt_replay r) as [|[first e] q] eqn:Hq.
  - rewrite decide_False; [done|]. intros [_ Hret].
    assert (length (lastn (rt_max_replay_events r) (number_from 0 h)) = 0) as Hz by by rewrite <- Hr.
    rewrite length_lastn, length_number_from in Hz. lia.
  - assert (first = Z.of_nat (length h - rt_max_replay_events r) + 1)%Z as ->.
    { rewrite Hlast in Hr. by destruct (drop _ h); simplify_eq/=. }
    rewrite u64_saturating_add_exact by lia.
    destruct (Z.ltb_spec (k + 1) (Z.of_nat (length h - rt_max_replay_events r) + 1)).
    { rewrite decide_False; [done|lia]. }
    rewrite decide_True by lia. f_equal.
    rewrite Hr, Hlast, filter_number_from_drop, <- Hlast by lia.
    unfold lastn. rewrite drop_drop, length_number_from. f_equal. lia.
Qed.

(** C13: replay.  Against the log of accepted events, [replay_since] answers
    [Available] exactly when the position asked for is not in the future and
    everything after it is still retained, and then returns precisely the events
    after that position; otherwise it asks for a snapshot. *)
Theorem replay_since_spec r h k :
  router_log r h → (Z.of_nat (length h) ≤ U64_MAX)%Z → (0 ≤ k)%Z →
  replay_since r k =
  if decide (k ≤ Z.of_nat (length h) ∧ Z.of_nat (length h) - k ≤ Z.of_nat (rt_max_replay_events r))%Z
  then Available (drop (Z.to_nat k) (number_from 0 h)) (Z.of_nat (length h))
  else SnapshotRequired (Z.of_nat (length h)).
Proof. apply replay_since_log. Qed.

Lemma replay_since_spec_witness :
  replay_since (router_run (new_with_replay None 2)
    (map REmit [ConversationCleared; AssistantDelta "a"; AssistantDelta "b"])).1 1 =
  Available [(2%Z, AssistantDelta "a"); (3%Z, AssistantDelta "b")] 3.
Proof.
  rewrite (replay_since_spec _ [ConversationCleared; AssistantDelta "a"; AssistantDelta "b"]);
    [reflexivity|split; reflexivity|done|done].
Defined.

(** the router refines the append-only log: from an empty router, after any
    interleaving of emissions, subscriptions and unsubscriptions, its sequence
    number is the number of events emitted and its replay buffer holds exactly
    the newest [max_replay_events] of them with consecutive numbers. *)
Theorem router_refines_log handler max ops :
  (Z.of_nat (length (emitted ops)) ≤ U64_MAX)%Z →
  let r := (router_run (new_with_replay handler max) ops).1 in
  rt_sequence r = Z.of_nat (length (emitted ops)) ∧
  rt_replay r = lastn (rt_max_replay_events r) (number_from 0 (emitted ops)) ∧
  rt_max_replay_events r = max.
Proof.
  intros Hmax. simpl.
  destruct (router_run_log (new_with_replay handler max) [] ops) as [Hs Hr]; [by split|simpl; lia|].
  split_and!; [done|done|].
  assert (∀ r, rt_max_replay_events (router_run r ops).1 = rt_max_replay_events r) as Hm.
  { clear. induction ops as [|op ops IH]; intros r; simpl; [done|].
    destruct (router_op r op) as [r1 d1] eqn:E. specialize (IH r1).
    destruct (router_run r1 ops). simpl in *. rewrite IH.
    replace r1 with (router_op r op).1 by by rewrite E.
    destruct op; simpl; unfold emit, emit_locked, subscribe; repeat case_match; done. }
  by rewrite Hm.
Qed.

Lemma router_refines_log_witness :
  rt_sequence (router_run (new_with_replay None 1) (map REmit [ConversationCleared; AssistantDelta "a"])).1
  = 2%Z.
Proof. apply (router_refines_log None 1 (map REmit [ConversationCleared; AssistantDelta "a"])). done. Defined.

(** The documented durability transitions. *)
Inductive durability_step : DurabilityStatus → DurabilityStatus → Prop :=
  | step_saved st : st ≠ DurSaved → durability_step DurSaved st
  | step_unsaved st : st ≠ DurUnsaved → durability_step DurUnsaved st
  | step_saving st : st ∈ [DurSaved; DurDegraded; DurSuperseded] → durability_step DurSaving st
  | step_degraded st : st ∈ [DurSaved; DurSuperseded] → durability_step DurDegraded st.

Lemma durability_code_roundtrip s : durability_status_from_code (durability_status_code s) = s.
Proof. by destruct s. Qed.

Lemma durability_allowed prev st :
  bool_decide (prev = st) || durability_blocked prev st = false ↔ durability_step prev st.
Proof.
  split.
  - destruct prev, st; cbv; intros; try done; constructor; (done || by repeat constructor).
  - intros H. destruct prev, st; cbv; try done; inv H;
      try done; repeat (match goal with H : _ ∈ _ |- _ => inv H end); done.
Qed.

(** the durability status moves only along the documented transitions, one
    [DurabilityStatusChanged] event per move and none otherwise; in particular
    [Superseded] is final, and [Degraded] is left only for [Saved] or
    [Superseded]. *)
Theorem transition_durability_spec r h prev st :
  router_log r h → (Z.of_nat (length h) < U64_MAX)%Z →
  let '(r', code, _) := transition_durability r (durability_status_code prev) st in
  (durability_step prev st ∧ code = durability_status_code st ∧
     router_log r' (h ++ [DurabilityStatusChanged st])) ∨
  ((¬ durability_step prev st) ∧ code = durability_status_code prev ∧ r' = r).
Proof.
  intros Hlog Hmax. unfold transition_durability. rewrite durability_code_roundtrip.
  destruct (bool_decide (prev = st) || durability_blocked prev st) eqn:Hb.
  - right. rewrite <- durability_allowed, Hb. done.
  - pose proof (emit_locked_log r h (DurabilityStatusChanged st) Hlog Hmax) as Hlog'.
    destruct (emit_locked r (DurabilityStatusChanged st)) as [[r1 ds] res]. simpl in *. left.
    by rewrite <- durability_allowed.
Qed.

Lemma transition_durability_spec_witness :
  let '(r', code, _) :=
    transition_durability (router_new None) (durability_status_code DurDegraded) DurSaving in
  (durability_step DurDegraded DurSaving ∧ code = durability_status_code DurSaving ∧
     router_log r' ([] ++ [DurabilityStatusChanged DurSaving])) ∨
  ((¬ durability_step DurDegraded DurSaving) ∧ code = durability_status_code DurDegraded ∧
     r' = router_new None).
Proof. apply (transition_durability_spec (router_new None) []); [by split|done]. Defined.
