(* ===== verification/Safety.v ===== *)
(** * The safety policy

    Models [src/src/safety.rs]: which tool calls are blocked, allowed or need an
    operator's approval, and how an "always" approval is remembered for the
    session and persisted to the approvals file.  The gate is shared by every
    approval surface.

    The auto-approve set (shared and interior-mutable in the program) and the
    file system are explicit state; what the operating system answers when the
    approvals file is opened is the parameter [FsEnv].  The prompt callback may
    answer differently each time it is called, so its answer to a call is an
    argument of the decision on that call. *)

From stdpp Require Import base numbers list strings gmap.
From S2P Require Import Prelude RustStr Utf8.

(** ** Data *)

(** JSON values ([serde_json::Value]); numbers are kept as their text. *)
#[warnings="-register-all"]
Inductive Json :=
  | JNull
  | JBool (b : bool)
  | JNumber (text : string)
  | JString (s : string)
  | JArray (items : list Json)
  | JObject (fields : list (string * Json)).

(** Induction with a hypothesis for every value inside. *)
Section json_induction.
Context (P : Json → Prop).
Hypotheses (Hnull : P JNull) (Hbool : ∀ b, P (JBool b)) (Hnum : ∀ n, P (JNumber n)) (Hstr : ∀ s, P (JString s)).
Hypothesis (Harr : ∀ items, Forall P items → P (JArray items)).
Hypothesis (Hobj : ∀ fields, Forall (λ f : string * Json, P f.2) fields → P (JObject fields)).

Fixpoint json_induction (v : Json) : P v :=
  match v with
  | JNull => Hnull
  | JBool b => Hbool b
  | JNumber n => Hnum n
  | JString s => Hstr s
  | JArray items =>
      Harr items ((fix go l : Forall P l :=
        match l with [] => List.Forall_nil _ | x :: l => List.Forall_cons _ _ _ (json_induction x) (go l) end) items)
  | JObject fields =>
      Hobj fields ((fix go l : Forall (λ f : string * Json, P f.2) l :=
        match l with [] => List.Forall_nil _ | x :: l => List.Forall_cons _ _ _ (json_induction x.2) (go l) end) fields)
  end.
End json_induction.

(** [agent::ToolCallInfo] and [agent::BeforeHookResult]. *)
Record ToolCallInfo := mkToolCall { tc_id : string; tc_name : string; tc_input : Json }.

Inductive BeforeHookResult := HookAllow | HookBlock (reason : string).

#[export] Instance BeforeHookResult_eq_dec : EqDecision BeforeHookResult.
Proof. solve_decision. Defined.

Inductive ApprovalMode := ModeAuto | ModeInteractive | ModeParanoid.

(** The operator's answer to a prompt ([safety::ApprovalDecision]). *)
Inductive OperatorDecision := OpDeny | OpOnce | OpAlways.

Inductive Gate := GateBlock (reason : string) | GateAllow | GateNeedsApproval.

#[export] Instance Gate_eq_dec : EqDecision Gate.
Proof. solve_decision. Defined.

Definition DESTRUCTIVE_TOOLS : list string :=
  ["exec"; "write_file"; "edit_file"; "append_file"; "git"; "docker"; "cargo"; "gh"].

Definition REMOTE_TOOL_PREFIX : string := "mcp__".

Definition is_destructive_tool (name : string) : bool :=
  bool_decide (name ∈ DESTRUCTIVE_TOOLS) || starts_with REMOTE_TOOL_PREFIX name.

Record SafetyPolicy := mkPolicy {
  sp_approval_mode : ApprovalMode;
  sp_allowed_commands : list string;
  sp_denied_commands : list string;
  sp_approve_fn : bool; (** whether there is a prompt callback *)
  sp_approvals_path : option string;
  sp_secure_approvals : bool;
}.

(** [SafetyPolicy::default]. *)
Definition policy_default : SafetyPolicy := mkPolicy ModeAuto [] [] false None false.

(** The mutable part: the auto-approve set and the files. *)
Record SafetyState := mkSafety {
  sf_auto_approve : gset string;
  sf_files : gmap string string;
}.

(** What the system answers when the approvals file at a path is opened. *)
Record FsEnv := {
  env_can_open : string → bool;          (** opening it for appending succeeds *)
  env_can_create_dir : string → bool;    (** [create_dir_all] of the parent succeeds *)
  env_can_open_nofollow : string → bool; (** the same open with [O_NOFOLLOW] *)
  env_regular_single : string → bool;    (** a regular file with one link *)
}.

(** ** The gate *)

Definition denied_message (name : string) : string :=
  "blocked by policy: '" +:+ name +:+ "' is in the denied-commands list".
Definition not_allowed_message (name : string) : string :=
  "blocked by policy: '" +:+ name +:+ "' is not in the allowed-commands list".
Definition declined_message (name : string) : string :=
  "blocked: operator declined approval for '" +:+ name +:+ "'".

Definition mode_needs_approval (mode : ApprovalMode) (name : string) : bool :=
  match mode with
  | ModeAuto => false
  | ModeInteractive => is_destructive_tool name
  | ModeParanoid => true
  end.

Definition gate (p : SafetyPolicy) (s : SafetyState) (name : string) : Gate :=
  if existsb (λ d, bool_decide (d = name)) (sp_denied_commands p)
  then GateBlock (denied_message name)
  else if negb (bool_decide (sp_allowed_commands p = []))
          && negb (existsb (λ a, bool_decide (a = name)) (sp_allowed_commands p))
  then GateBlock (not_allowed_message name)
  else if negb (mode_needs_approval (sp_approval_mode p) name) then GateAllow
  else if bool_decide (name ∈ sf_auto_approve s) then GateAllow
  else GateNeedsApproval.

(** ** Persisted approvals *)

(** The names in the text of an approvals file. *)
Definition approvals_in (content : string) : list string :=
  List.filter (λ l, negb (bool_decide (l = "")) && negb (starts_with "#" l))
    (map trim (lines content)).

(** [load_approvals]: an unreadable file (missing, or not UTF-8) is empty. *)
Definition load_approvals (files : gmap string string) (path : string) : gset string :=
  match files !! path with
  | Some c => if valid_utf8 c then list_to_set (approvals_in c) else ∅
  | None => ∅
  end.

Definition append_line (files : gmap string string) (path name : string) : gmap string string :=
  <[path := default "" (files !! path) +:+ name +:+ newline]> files.

Definition persist_approval (env : FsEnv) (files : gmap string string) (path name : string)
    : gmap string string :=
  if bool_decide (name ∈ load_approvals files path) then files
  else if env_can_open env path then append_line files path name
  else files.

(** [persist_state_approval]: refuses links, and reads the file it opened. *)
Definition persist_state_approval (env : FsEnv) (files : gmap string string) (path name : string)
    : gmap string string :=
  if negb (env_can_create_dir env path) then files
  else if negb (env_can_open_nofollow env path) then files
  else
    let existing := default "" (files !! path) in
    let opened := <[path := existing]> files in
    if negb (env_regular_single env path) then opened
    else if negb (valid_utf8 existing)
            || existsb (λ l, bool_decide (trim l = name)) (lines existing) then opened
    else append_line opened path name.

Definition remember_always (env : FsEnv) (p : SafetyPolicy) (s : SafetyState) (name : string)
    : SafetyState :=
  let approved := {[name]} ∪ sf_auto_approve s in
  if starts_with REMOTE_TOOL_PREFIX name then mkSafety approved (sf_files s)
  else match sp_approvals_path p with
       | Some path =>
           mkSafety approved
             (if sp_secure_approvals p then persist_state_approval env (sf_files s) path name
              else persist_approval env (sf_files s) path name)
       | None => mkSafety approved (sf_files s)
       end.

(** ** The decision *)

(** The hook's decision, and what the operator answered if the callback was called
    ([None] when it was not, in particular when there is none and the call that
    needs an approval is let through). *)
Definition decide_call (env : FsEnv) (p : SafetyPolicy) (s : SafetyState) (info : ToolCallInfo)
    (operator : OperatorDecision) : SafetyState * (BeforeHookResult * option OperatorDecision) :=
  let name := tc_name info in
  match gate p s name with
  | GateBlock reason => (s, (HookBlock reason, None))
  | GateAllow => (s, (HookAllow, None))
  | GateNeedsApproval =>
      let asked := if sp_approve_fn p then Some operator else None in
      match default OpOnce asked with
      | OpDeny => (s, (HookBlock (declined_message name), asked))
      | OpOnce => (s, (HookAllow, asked))
      | OpAlways => (remember_always env p s name, (HookAllow, asked))
      end
  end.

(** [stdin_approve_fn] on the line the operator typed. *)
Definition stdin_decision (line : string) : OperatorDecision :=
  if decide (trim line = "Y") then OpAlways
  else if decide (trim line = "y") then OpOnce
  else OpDeny.

(** A sequence of calls, each with what the operator answers if asked about it; the
    decisions of the hook, with the answers that were asked for. *)
Fixpoint decide_calls (env : FsEnv) (p : SafetyPolicy) (s : SafetyState)
    (calls : list (ToolCallInfo * OperatorDecision))
    : SafetyState * list (BeforeHookResult * option OperatorDecision) :=
  match calls with
  | [] => (s, [])
  | (c, operator) :: calls =>
      let '(s1, b) := decide_call env p s c operator in
      let '(s2, bs) := decide_calls env p s1 calls in (s2, b :: bs)
  end.

(** ** Lemmas *)

Lemma existsb_eq_elem (l : list string) x :
  existsb (λ d, bool_decide (d = x)) l = bool_decide (x ∈ l).
Proof.
  induction l as [|y l IH]; simpl; [done|]. rewrite IH.
  case_bool_decide as H1; case_bool_decide as H2; case_bool_decide as H3; simpl; try done; set_solver.
Qed.

(** What the policy lists say of a tool, before any approval. *)
Definition listed (p : SafetyPolicy) (name : string) : Prop :=
  (name ∉ sp_denied_commands p) ∧
  (sp_allowed_commands p = [] ∨ name ∈ sp_allowed_commands p).

Lemma gate_cases p s name :
  match gate p s name with
  | GateBlock _ => ¬ listed p name
  | GateAllow => listed p name ∧
      (mode_needs_approval (sp_approval_mode p) name = false ∨ name ∈ sf_auto_approve s)
  | GateNeedsApproval => listed p name ∧
      mode_needs_approval (sp_approval_mode p) name = true ∧ name ∉ sf_auto_approve s
  end.
Proof.
  unfold gate, listed. rewrite !existsb_eq_elem.
  case_bool_decide as Hd; [naive_solver|].
  case_bool_decide as Hn; case_bool_decide as Ha; simpl;
    try (destruct (mode_needs_approval _ _); simpl; [case_bool_decide|]; naive_solver).
  naive_solver.
Qed.

Lemma remember_always_approves env p s name :
  sf_auto_approve (remember_always env p s name) = {[name]} ∪ sf_auto_approve s.
Proof. unfold remember_always. by repeat case_match. Qed.

Lemma decide_call_allow env p s c operator s' asked :
  decide_call env p s c operator = (s', (HookAllow, asked)) →
  listed p (tc_name c) ∧
  (mode_needs_approval (sp_approval_mode p) (tc_name c) = true →
   tc_name c ∈ sf_auto_approve s ∨ sp_approve_fn p = false ∨ asked = Some OpOnce ∨ asked = Some OpAlways).
Proof.
  unfold decide_call. pose proof (gate_cases p s (tc_name c)) as Hg.
  destruct (gate p s (tc_name c)); intros; simplify_eq; [naive_solver congruence|].
  split; [apply Hg|]. intros _. right. destruct (sp_approve_fn p); [right|by left].
  destruct operator; simplify_eq/=; auto.
Qed.

Lemma decide_call_auto env p s c operator s' b asked name :
  decide_call env p s c operator = (s', (b, asked)) → name ∈ sf_auto_approve s' →
  name ∈ sf_auto_approve s ∨ (name = tc_name c ∧ asked = Some OpAlways).
Proof.
  unfold decide_call. intros H Hin.
  destruct (gate p s (tc_name c)); simplify_eq; [by left..|].
  destruct (sp_approve_fn p); simpl in H; [|simplify_eq; by left].
  destruct operator; simplify_eq; [by left..|].
  rewrite remember_always_approves in Hin. set_solver.
Qed.

(** Names made of printing ASCII characters that are not a comment: what tool
    names look like. *)
Definition plain_char (c : Ascii.ascii) : bool := (33 <=? byte_of c) && (byte_of c <=? 126).

Fixpoint all_plain (s : string) : bool :=
  match s with EmptyString => true | String c s => plain_char c && all_plain s end.

Definition plain_name (name : string) : bool :=
  negb (bool_decide (name = "")) && negb (starts_with "#" name) && all_plain name.

Lemma plain_facts c :
  plain_char c = true →
  is_continuation c = false ∧ (byte_of c <? 128) = true ∧
  (byte_of c =? 10) = false ∧ (byte_of c =? 13) = false ∧
  char_is_whitespace (String c "") = false.
Proof.
  unfold plain_char, is_continuation, char_is_whitespace.
  cbn [map String.list_ascii_of_string]. intros H. bool_to_prop.
  split_and!.
  - destruct (Nat.leb_spec 128 (byte_of c)); [lia|done].
  - apply Nat.ltb_lt. lia.
  - apply Nat.eqb_neq. lia.
  - apply Nat.eqb_neq. lia.
  - assert ((byte_of c =? 32) = false) as -> by (apply Nat.eqb_neq; lia).
    assert ((byte_of c <=? 13) = false) as -> by (apply Nat.leb_gt; lia). by rewrite andb_false_r.
Qed.

Lemma chars_plain s :
  all_plain s = true →
  Forall (λ g, char_is_whitespace g = false ∧
               ∃ c, g = String c "" ∧ is_continuation c = false) (chars s).
Proof.
  induction s as [|c s IH]; simpl; intros H; [constructor|].
  apply andb_true_iff in H as [Hc Hs]. specialize (IH Hs).
  destruct (plain_facts c Hc) as (Hk & _ & _ & _ & Hw).
  destruct (chars s) as [|g gs]; [by repeat constructor; eauto|].
  pose proof IH as IH'. inv IH' as [|? ? (_ & c' & -> & Hc') _].
  rewrite Hc'. constructor; [eauto|done].
Qed.

Lemma drop_while_none {A} (p : A → bool) l : Forall (λ x, p x = false) l → drop_while p l = l.
Proof. destruct 1 as [|x l Hx Hl]; simpl; [done|]. by rewrite Hx. Qed.

Lemma trim_plain s : all_plain s = true → trim s = s.
Proof.
  intros H%chars_plain. unfold trim.
  assert (Forall (λ g, char_is_whitespace g = false) (chars s)) as Hf.
  { eapply Forall_impl; [exact H|]. naive_solver. }
  rewrite (drop_while_none _ _ Hf), drop_while_none by by apply Forall_reverse.
  rewrite reverse_involutive. apply str_concat_chars.
Qed.

Lemma strip_cr_plain s : all_plain s = true → strip_cr s = s.
Proof.
  induction s as [|c s IH]; intros H; [done|]. simpl in H.
  apply andb_true_iff in H as [Hc Hs]. destruct (plain_facts c Hc) as (_ & _ & _ & Hr & _).
  destruct s as [|d s]; simpl; [by rewrite Hr|]. f_equal. apply IH. done.
Qed.

Lemma valid_utf8_plain_app s t : all_plain s = true → valid_utf8 (s +:+ t) = valid_utf8 t.
Proof.
  induction s as [|c s IH]; intros H; [done|]. simpl in H.
  apply andb_true_iff in H as [Hc Hs]. destruct (plain_facts c Hc) as (_ & Hb & _).
  rewrite append_cons. simpl. rewrite Hb. auto.
Qed.

Lemma lines_from_complete cur a b :
  lines_from cur (a +:+ newline +:+ b) = lines_from cur (a +:+ newline) ++ lines_from "" b.
Proof.
  revert cur. induction a as [|c a IH]; intros cur; [done|].
  rewrite !append_cons. cbn [lines_from].
  destruct (byte_of c =? 10); simpl; by rewrite IH.
Qed.

Lemma lines_from_plain cur s :
  all_plain s = true → lines_from cur (s +:+ newline) = [strip_cr (cur +:+ s)].
Proof.
  revert cur. induction s as [|c s IH]; intros cur H; simpl in H.
  { rewrite append_nil_r. done. }
  apply andb_true_iff in H as [Hc Hs]. destruct (plain_facts c Hc) as (_ & _ & Hnl & _).
  rewrite append_cons. cbn [lines_from]. rewrite Hnl, IH by done.
  by rewrite append_assoc.
Qed.

(** A file whose last line is terminated. *)
Definition complete_file (c : string) : Prop := c = "" ∨ ∃ c', c = c' +:+ newline.

Lemma lines_append c name :
  complete_file c → all_plain name = true → lines (c +:+ name +:+ newline) = lines c ++ [name].
Proof.
  unfold lines. intros [->|[c' ->]] Hp.
  - change (lines_from EmptyString (name +:+ newline) = [name]).
    rewrite lines_from_plain by done. by rewrite append_nil_l, strip_cr_plain.
  - rewrite append_assoc, lines_from_complete, (lines_from_plain "" name) by done.
    by rewrite append_nil_l, strip_cr_plain.
Qed.

Lemma approvals_append c name :
  complete_file c → plain_name name = true →
  approvals_in (c +:+ name +:+ newline) = approvals_in c ++ [name].
Proof.
  intros Hc Hp. unfold plain_name in Hp. apply andb_true_iff in Hp as [Hp Hall].
  unfold approvals_in. rewrite lines_append, map_app, List.filter_app by done. simpl.
  by rewrite trim_plain, Hp.
Qed.

(** ** Properties *)

(** C16: no tool runs outside the policy.  Over any sequence of calls and whatever
    the operator answers each time, an allowed call is not on the denylist and is
    on a non-empty allowlist; and if the approval mode asks for approval of that
    tool, then the tool was approved before the session, or there is no prompt
    callback at all (the policy then allows without asking), or the operator was
    asked about this very call and allowed it, or was asked about an earlier call
    of the same tool and answered "always". *)
Theorem decide_calls_sound env p s calls s' answers i c operator asked :
  decide_calls env p s calls = (s', answers) →
  calls !! i = Some (c, operator) → answers !! i = Some (HookAllow, asked) →
  listed p (tc_name c) ∧
  (mode_needs_approval (sp_approval_mode p) (tc_name c) = true →
   tc_name c ∈ sf_auto_approve s ∨ sp_approve_fn p = false ∨
   asked = Some OpOnce ∨ asked = Some OpAlways ∨
   ∃ j c' operator' b', j < i ∧ calls !! j = Some (c', operator') ∧ tc_name c' = tc_name c ∧
     answers !! j = Some (b', Some OpAlways)).
Proof.
  revert s s' answers i. induction calls as [|[c0 op0] calls IH]; intros s s' answers i Hrun Hc Ha;
    simpl in Hrun; [done|].
  destruct (decide_call env p s c0 op0) as [s1 [b a0]] eqn:Hd.
  destruct (decide_calls env p s1 calls) as [s2 bs] eqn:Hr. simplify_eq.
  destruct i as [|i]; simpl in *.
  - simplify_eq. apply decide_call_allow in Hd. naive_solver.
  - destruct (IH s1 s' bs i Hr Hc Ha) as [Hl Hap]. split; [done|]. intros Hm.
    destruct (Hap Hm) as [Hin|[?|[?|[?|(j & c' & o' & b' & ? & ? & ? & ?)]]]]; [|by auto..|].
    + destruct (decide_call_auto _ _ _ _ _ _ _ _ _ Hd Hin) as [?|[? ->]]; [by left|].
      do 4 right. exists 0, c0, op0, b. split_and!; [lia|done|done|done].
    + do 4 right. exists (S j), c', o', b'. split_and!; [lia|done|done|done].
Qed.

Definition demo_env : FsEnv :=
  {| env_can_open _ := true; env_can_create_dir _ := true; env_can_open_nofollow _ := true;
     env_regular_single _ := true |}.

Definition demo_policy : SafetyPolicy :=
  mkPolicy ModeInteractive [] ["docker"] true (Some "approvals") false.

(** The operator allows the first call for good; the second is not asked about. *)
Definition demo_calls : list (ToolCallInfo * OperatorDecision) :=
  [(mkToolCall "1" "exec" JNull, OpAlways); (mkToolCall "2" "exec" JNull, OpDeny)].

Lemma decide_calls_sound_witness :
  listed demo_policy "exec" ∧
  (mode_needs_approval ModeInteractive "exec" = true →
   "exec" ∈ (∅ : gset string) ∨ true = false ∨
   None = Some OpOnce ∨ None = Some OpAlways ∨
   ∃ j c' operator' b', j < 1 ∧ demo_calls !! j = Some (c', operator') ∧ tc_name c' = "exec" ∧
     [(HookAllow, Some OpAlways); (HookAllow, None)] !! j = Some (b', Some OpAlways)).
Proof.
  refine (decide_calls_sound demo_env demo_policy (mkSafety ∅ ∅) demo_calls
    _ _ 1 (mkToolCall "2" "exec" JNull) OpDeny None _ _ _); [vm_compute; reflexivity|reflexivity|reflexivity].
Defined.

(** persisting an approval and loading the file again gives back the earlier
    approvals together with the new one, when the file's last line is terminated;
    persisting the same name again changes nothing. *)
Theorem persist_approval_roundtrip env files path name c :
  env_can_open env path = true → plain_name name = true →
  default "" (files !! path) = c → complete_file c → valid_utf8 c = true →
  let files' := persist_approval env files path name in
  load_approvals files' path = {[name]} ∪ load_approvals files path ∧
  persist_approval env files' path name = files'.
Proof.
  intros Ho Hp Hc Hcomp Hv.
  assert (load_approvals (persist_approval env files path name) path =
          {[name]} ∪ load_approvals files path) as Hload.
  { unfold persist_approval at 1. case_bool_decide as Hin; [set_solver|].
    rewrite Ho. unfold append_line, load_approvals. rewrite lookup_insert_eq, Hc.
    rewrite valid_utf8_app by done. unfold plain_name in Hp. pose proof Hp as Hp'.
    apply andb_true_iff in Hp' as [_ Hall].
    rewrite valid_utf8_plain_app by done. simpl. rewrite approvals_append by done.
    destruct (files !! path) as [c'|]; simpl in Hc; subst; [rewrite Hv|];
      rewrite list_to_set_app_L; simpl; set_solver. }
  split; [done|]. set (files' := persist_approval env files path name) in *.
  unfold persist_approval at 1. rewrite bool_decide_eq_true_2; [done|]. rewrite Hload. set_solver.
Qed.

Lemma persist_approval_roundtrip_witness :
  load_approvals (persist_approval demo_env {["f" := "git" +:+ newline]} "f" "exec") "f" =
  {[ "exec" ]} ∪ load_approvals {["f" := "git" +:+ newline]} "f".
Proof.
  apply (persist_approval_roundtrip demo_env {["f" := "git" +:+ newline]} "f" "exec"
    ("git" +:+ newline)); try reflexivity. right. by exists "git".
Defined.

(** an "always" answer for a remote (MCP) tool lasts for the session only:
    the tool is approved from then on without a prompt wherever policy lists
    admit it, but no file changes, so no later session inherits it. *)
Theorem remote_always_is_session_scoped env p s name rest :
  name = REMOTE_TOOL_PREFIX +:+ rest →
  sf_files (remember_always env p s name) = sf_files s ∧
  (listed p name → gate p (remember_always env p s name) name = GateAllow).
Proof.
  intros ->. split.
  - unfold remember_always.
    assert (starts_with REMOTE_TOOL_PREFIX (REMOTE_TOOL_PREFIX +:+ rest) = true) as ->; [|done].
    apply starts_with_spec. eauto.
  - intros Hl. pose proof (gate_cases p (remember_always env p s (REMOTE_TOOL_PREFIX +:+ rest))
      (REMOTE_TOOL_PREFIX +:+ rest)) as Hg.
    rewrite remember_always_approves in Hg.
    destruct (gate _ _ _); [done|done|]. destruct Hg as (_ & _ & Hg). set_solver.
Qed.

Lemma remote_always_is_session_scoped_witness :
  sf_files (remember_always demo_env demo_policy (mkSafety ∅ ∅) "mcp__fs_write") = ∅.
Proof.
  exact (proj1 (remote_always_is_session_scoped demo_env demo_policy (mkSafety ∅ ∅)
    "mcp__fs_write" "fs_write" eq_refl)).
Defined.
