(* ===== verification/Turn.v ===== *)
(** * Turns, cancellation and history mutation

    Models the turn machinery of [src/src/session_core.rs]: [TurnSignal] (the
    claim that decides whether a turn completed or was cancelled),
    [TurnController] and [ActiveTurn] (the slot of the active turn),
    [SessionCore::begin_turn] and the drop of [SessionTurn], [cancel_with] /
    [cancel_turn], [SessionMutationPermit], the claim protocol of
    [clear_history], and the statuses [request_approval] announces inside a turn.

    These operations run concurrently on several tasks, so each is a sequence of
    atomic steps: a load or compare-exchange of an atomic, a critical section of
    the slot mutex, or one event emission (the router serialises them).  A
    configuration is the shared state and the program counter of every task;
    [sys_step] lets any task take its next step, so every interleaving is a run.
    The steps interleave sequentially consistently: the slot is guarded by a
    mutex, whose critical sections order the accesses of the mutation flag around
    them.  An emission whose handler panics is in the log all the same, and the
    sequence numbers are taken not to run out (they are 64 bits wide), so an
    emission is always one more event of the log. *)

From stdpp Require Import base numbers list strings gmap.
From S2P Require Import Prelude Protocol.

(** ** The claim on a turn's outcome *)

(** [TurnSignal::LIVE], [COMPLETED], [CANCELLED]. *)
Inductive TurnOutcome := SigLive | SigCompleted | SigCancelled.

#[export] Instance TurnOutcome_eq_dec : EqDecision TurnOutcome.
Proof. solve_decision. Defined.

(** [TurnSignal::claim]: a compare-exchange from [LIVE]; claiming the outcome
    already held reports success. *)
Definition claim (current outcome : TurnOutcome) : TurnOutcome * bool :=
  if decide (current = SigLive) then (outcome, true)
  else (current, bool_decide (current = outcome)).

Definition is_cancelled (current : TurnOutcome) : bool := bool_decide (current = SigCancelled).

(** ** Shared state *)

(** Signals are heap objects ([Arc<TurnSignal>]); the slot compares them by
    identity.  [sh_trace] is the log of the events emitted so far. *)
Record Shared := mkShared {
  sh_active : option nat;
  sh_signals : gmap nat TurnOutcome;
  sh_next : nat;
  sh_mutation : bool;
  sh_lifecycle : bool;
  sh_trace : list SessionEvent;
}.

Definition signal_of (sh : Shared) (sig : nat) : TurnOutcome :=
  default SigLive (sh_signals sh !! sig).

Definition set_active (sh : Shared) (a : option nat) : Shared :=
  mkShared a (sh_signals sh) (sh_next sh) (sh_mutation sh) (sh_lifecycle sh) (sh_trace sh).
Definition set_signal (sh : Shared) (sig : nat) (o : TurnOutcome) : Shared :=
  mkShared (sh_active sh) (<[sig := o]> (sh_signals sh)) (sh_next sh) (sh_mutation sh)
    (sh_lifecycle sh) (sh_trace sh).
Definition set_mutation (sh : Shared) (b : bool) : Shared :=
  mkShared (sh_active sh) (sh_signals sh) (sh_next sh) b (sh_lifecycle sh) (sh_trace sh).
Definition set_lifecycle (sh : Shared) (b : bool) : Shared :=
  mkShared (sh_active sh) (sh_signals sh) (sh_next sh) (sh_mutation sh) b (sh_trace sh).
Definition log_event (sh : Shared) (e : SessionEvent) : Shared :=
  mkShared (sh_active sh) (sh_signals sh) (sh_next sh) (sh_mutation sh) (sh_lifecycle sh)
    (sh_trace sh ++ [e]).

(** [TurnController::begin], one critical section of the slot. *)
Definition controller_begin (sh : Shared) : option (Shared * nat) :=
  match sh_active sh with
  | Some _ => None
  | None =>
      let sig := sh_next sh in
      Some (mkShared (Some sig) (<[sig := SigLive]> (sh_signals sh)) (S sig) (sh_mutation sh)
              (sh_lifecycle sh) (sh_trace sh), sig)
  end.

(** [impl Drop for ActiveTurn]: clears the slot only if it holds this signal. *)
Definition active_turn_drop (sh : Shared) (sig : nat) : Shared :=
  if decide (sh_active sh = Some sig) then set_active sh None else sh.

(** [SessionMutationPermit::acquire], and its drop. *)
Definition permit_acquire (sh : Shared) : option Shared :=
  if sh_mutation sh then None else Some (set_mutation sh true).
Definition permit_drop (sh : Shared) : Shared := set_mutation sh false.

(** ** Program counters *)

Inductive Pc :=
  (* [begin_turn], the turn, and the drop of its [SessionTurn] *)
  | TStart
  | TChecked
  | TClaimed (sig : nat)
  | TRelease (sig : nat)
  | TAdmitted (sig : nat)
  | TRunning (sig : nat)
  (* inside [request_approval], after [WaitingForApproval] *)
  | TWaiting (sig : nat)
  | TDropping (sig : nat) (completed : option bool)
  | TEmit (sig : nat) (completed : option bool) (status : TurnStatus)
  | TUnslot (sig : nat)
  | TBusy
  | TDone
  (* [clear_history] *)
  | CStart
  | CPermit
  | CLifecycle
  | CLocked
  | CMutating
  | CUnlock (busy : bool)
  | CRelease (busy : bool)
  | CBusy
  | CDone
  (* [cancel_turn] *)
  | XStart
  | XGot (sig : nat)
  | XRead (sig : nat) (already : bool)
  | XClaimed (sig : nat) (already : bool)
  | XNotify (sig : nat)
  | XDone (accepted : bool)
  (* any other task that emits events of the session *)
  | EOther.

(** What a task does next where the code leaves it open. *)
Inductive TurnChoice :=
  (* the work of the turn finished and claims completion *)
  | ChFinish
  (* the turn is left without a claim: cancelled by the notification, an error
     return, a dropped future *)
  | ChLeave
  (* a tool call asks for an approval; it is resolved (or the broker closed, or an
     event of the request failed); the denial at the timeout failed *)
  | ChAsk
  | ChResolved
  | ChUndenied
  (* an event that is no status *)
  | ChEvent (event : SessionEvent).

(** Events other than the statuses and the clearing are emitted all along. *)
Definition plain_event (event : SessionEvent) : bool :=
  match event with TurnStatusChanged _ | ConversationCleared => false | _ => true end.
Arguments plain_event : simpl never.

(** [ActiveTurn::complete] ([SessionTurn::mark_completed]). *)
Definition mark_completed (sh : Shared) (sig : nat) : Shared * bool :=
  let '(o, won) := claim (signal_of sh sig) SigCompleted in (set_signal sh sig o, won).

(** The terminal status the drop of [SessionTurn] emits. *)
Definition terminal_status (sh : Shared) (sig : nat) : TurnStatus :=
  if is_cancelled (signal_of sh sig) then TurnCancelled else TurnIdle.

(** [request_approval], from the announcement that the turn waits: [Running] is
    announced again when the request is resolved, when the broker closed and when an
    event of the request failed, but not when the denial at the timeout fails.  The
    future may be dropped while it waits. *)
Definition approval_begin (sh : Shared) (sig : nat) : Shared * Pc :=
  (log_event sh (TurnStatusChanged TurnWaitingForApproval), TWaiting sig).

Definition approval_step (sh : Shared) (sig : nat) (choice : TurnChoice) : option (Shared * Pc) :=
  match choice with
  | ChResolved => Some (log_event sh (TurnStatusChanged TurnRunning), TRunning sig)
  | ChUndenied => Some (sh, TRunning sig)
  | ChLeave => Some (sh, TDropping sig None)
  | ChEvent event => if plain_event event then Some (log_event sh event, TWaiting sig) else None
  | _ => None
  end.

(** A task in [begin_turn], the turn it admits, and the drop of its
    [SessionTurn] (which emits the terminal status and then drops the
    [ActiveTurn]).  The tool calls of a turn run one after the other, so that one
    approval is waited for at a time. *)
Definition turn_step (sh : Shared) (pc : Pc) (choice : TurnChoice) : option (Shared * Pc) :=
  match pc with
  | TStart => Some (sh, if sh_mutation sh then TBusy else TChecked)
  | TChecked =>
      match controller_begin sh with
      | Some (sh', sig) => Some (sh', TClaimed sig)
      | None => Some (sh, TBusy)
      end
  | TClaimed sig => Some (sh, if sh_mutation sh then TRelease sig else TAdmitted sig)
  | TRelease sig => Some (active_turn_drop sh sig, TBusy)
  | TAdmitted sig => Some (log_event sh (TurnStatusChanged TurnRunning), TRunning sig)
  | TRunning sig =>
      match choice with
      | ChFinish => let '(sh', won) := mark_completed sh sig in Some (sh', TDropping sig (Some won))
      | ChLeave => Some (sh, TDropping sig None)
      | ChAsk => Some (approval_begin sh sig)
      | ChEvent event => if plain_event event then Some (log_event sh event, pc) else None
      | _ => None
      end
  | TWaiting sig => approval_step sh sig choice
  | TDropping sig completed =>
      match choice with
      | ChEvent event => if plain_event event then Some (log_event sh event, pc) else None
      | _ => Some (sh, TEmit sig completed (terminal_status sh sig))
      end
  | TEmit sig _ status => Some (log_event sh (TurnStatusChanged status), TUnslot sig)
  | TUnslot sig => Some (active_turn_drop sh sig, TDone)
  | _ => None
  end.

(** A task in [clear_history]: the permit, the first look at the slot, the
    lifecycle lock, the second look, the mutation with its event, and the release
    of the guards in reverse order. *)
Definition clear_step (sh : Shared) (pc : Pc) : option (Shared * Pc) :=
  match pc with
  | CStart => Some (match permit_acquire sh with
                    | Some sh' => (sh', CPermit)
                    | None => (sh, CBusy)
                    end)
  | CPermit => Some (sh, if is_some (sh_active sh) then CRelease true else CLifecycle)
  | CLifecycle => if sh_lifecycle sh then None else Some (set_lifecycle sh true, CLocked)
  | CLocked => Some (sh, if is_some (sh_active sh) then CUnlock true else CMutating)
  | CMutating => Some (log_event sh ConversationCleared, CUnlock false)
  | CUnlock busy => Some (set_lifecycle sh false, CRelease busy)
  | CRelease busy => Some (permit_drop sh, if busy then CBusy else CDone)
  | _ => None
  end.

(** A task in [cancel_turn], that is [cancel_with] emitting [Cancelling]: clone
    the slot, look whether the turn is already cancelled, claim, emit, notify. *)
Definition cancel_step (sh : Shared) (pc : Pc) : option (Shared * Pc) :=
  match pc with
  | XStart => Some (sh, match sh_active sh with Some sig => XGot sig | None => XDone false end)
  | XGot sig => Some (sh, XRead sig (is_cancelled (signal_of sh sig)))
  | XRead sig already =>
      let '(o, won) := claim (signal_of sh sig) SigCancelled in
      Some (set_signal sh sig o, if won then XClaimed sig already else XDone false)
  | XClaimed sig already =>
      Some (if already then sh else log_event sh (TurnStatusChanged TurnCancelling), XNotify sig)
  | XNotify sig => Some (sh, XDone true)
  | _ => None
  end.

(** A task that emits other events: deltas of a driver, durability, configuration. *)
Definition other_step (sh : Shared) (choice : TurnChoice) : option (Shared * Pc) :=
  match choice with
  | ChEvent event => if plain_event event then Some (log_event sh event, EOther) else None
  | _ => None
  end.

(** The next step of a task. *)
Definition task_step (sh : Shared) (pc : Pc) (choice : TurnChoice) : option (Shared * Pc) :=
  match pc with
  | CStart | CPermit | CLifecycle | CLocked | CMutating | CUnlock _ | CRelease _ | CBusy | CDone =>
      clear_step sh pc
  | XStart | XGot _ | XRead _ _ | XClaimed _ _ | XNotify _ | XDone _ => cancel_step sh pc
  | EOther => other_step sh choice
  | _ => turn_step sh pc choice
  end.

(** ** Configurations *)

Definition Config : Type := Shared * list Pc.

Inductive sys_step : Config → Config → Prop :=
  | sys_step_task sh tasks i pc choice sh' pc' :
      tasks !! i = Some pc →
      task_step sh pc choice = Some (sh', pc') →
      sys_step (sh, tasks) (sh', <[i := pc']> tasks).

Definition initial_shared : Shared := mkShared None ∅ 0 false false [].

Definition is_start (pc : Pc) : Prop := pc = TStart ∨ pc = CStart ∨ pc = XStart ∨ pc = EOther.

Definition initial (c : Config) : Prop := c.1 = initial_shared ∧ Forall is_start c.2.

(** Run a schedule: at each entry, the task and the choice. *)
Fixpoint run_schedule (c : Config) (schedule : list (nat * TurnChoice)) : option Config :=
  match schedule with
  | [] => Some c
  | (i, choice) :: rest =>
      match c.2 !! i with
      | Some pc =>
          match task_step c.1 pc choice with
          | Some (sh', pc') => run_schedule (sh', <[i := pc']> c.2) rest
          | None => None
          end
      | None => None
      end
  end.

(** *** Regions of the program counters *)

(** The signal a task has in the slot. *)
Definition owns (pc : Pc) : option nat :=
  match pc with
  | TClaimed sig | TRelease sig | TAdmitted sig | TRunning sig | TWaiting sig | TDropping sig _
  | TEmit sig _ _ | TUnslot sig => Some sig
  | _ => None
  end.

(** Between [begin_turn] succeeding and the release of the slot. *)
Definition in_turn (pc : Pc) : bool :=
  match pc with
  | TAdmitted _ | TRunning _ | TWaiting _ | TDropping _ _ | TEmit _ _ _ | TUnslot _ => true
  | _ => false
  end.

(** [Running] was emitted and the terminal status was not. *)
Definition turn_open (pc : Pc) : bool :=
  match pc with TRunning _ | TWaiting _ | TDropping _ _ | TEmit _ _ _ => true | _ => false end.

Definition holds_permit (pc : Pc) : bool :=
  match pc with CPermit | CLifecycle | CLocked | CMutating | CUnlock _ | CRelease _ => true | _ => false end.

(** The event stream as a language: a turn opens with [Running]; inside it
    [WaitingForApproval] may be announced, and [Running] again only after it; the
    turn closes with [Idle] or [Cancelled]; turns do not overlap, and the
    conversation is cleared only between turns. *)
Inductive StreamState := StClosed | StRunning | StWaiting.

#[export] Instance StreamState_eq_dec : EqDecision StreamState.
Proof. solve_decision. Defined.

Definition bracket_step (st : option StreamState) (e : SessionEvent) : option StreamState :=
  st ≫= λ st,
  match e with
  | TurnStatusChanged TurnRunning => if decide (st = StRunning) then None else Some StRunning
  | TurnStatusChanged TurnWaitingForApproval => if decide (st = StClosed) then None else Some StWaiting
  | TurnStatusChanged (TurnIdle | TurnCancelled) => if decide (st = StClosed) then None else Some StClosed
  | ConversationCleared => if decide (st = StClosed) then Some StClosed else None
  | _ => Some st
  end.

Definition bracket (trace : list SessionEvent) : option StreamState :=
  fold_left bracket_step trace (Some StClosed).

(** ** The invariant *)

(** A turn whose completion claim was decided ends accordingly. *)
Definition outcome_ok (sh : Shared) (pc : Pc) : Prop :=
  match pc with
  | TDropping sig (Some true) => signal_of sh sig = SigCompleted
  | TDropping sig (Some false) => signal_of sh sig = SigCancelled
  | TEmit _ (Some true) st => st = TurnIdle
  | TEmit _ (Some false) st => st = TurnCancelled
  | TEmit _ None st => st = TurnIdle ∨ st = TurnCancelled
  | _ => True
  end.

Record sys_inv (c : Config) : Prop := {
  inv_own : ∀ i pc sig, c.2 !! i = Some pc → owns pc = Some sig →
    sh_active c.1 = Some sig ∧ sig < sh_next c.1;
  inv_own_unique : ∀ i j pc pc', c.2 !! i = Some pc → c.2 !! j = Some pc' →
    owns pc ≠ None → owns pc' ≠ None → i = j;
  inv_permit : ∀ i pc, c.2 !! i = Some pc → holds_permit pc = true → sh_mutation c.1 = true;
  inv_permit_unique : ∀ i j pc pc', c.2 !! i = Some pc → c.2 !! j = Some pc' →
    holds_permit pc = true → holds_permit pc' = true → i = j;
  inv_excl : ∀ i j pc, c.2 !! i = Some pc → in_turn pc = true → c.2 !! j = Some CMutating → False;
  inv_outcome : ∀ i pc, c.2 !! i = Some pc → outcome_ok c.1 pc;
  inv_bracket : ∃ b, bracket (sh_trace c.1) = Some b ∧
    (b ≠ StClosed ↔ ∃ i pc, c.2 !! i = Some pc ∧ turn_open pc = true) ∧
    (∀ i sig, c.2 !! i = Some (TWaiting sig) → b = StWaiting);
}.

(** *** What one step does to each part of the state *)

Ltac step_cases H :=
  unfold task_step, turn_step, approval_begin, approval_step, clear_step, cancel_step, other_step, mark_completed, terminal_status,
    controller_begin, permit_acquire, permit_drop, active_turn_drop, claim in H;
  repeat (case_match; simplify_eq/=); simplify_eq/=.

Lemma step_own sh pc ch sh' pc' :
  task_step sh pc ch = Some (sh', pc') →
  (owns pc' = owns pc ∧ sh_active sh' = sh_active sh ∧ sh_next sh' = sh_next sh) ∨
  (owns pc = None ∧ sh_active sh = None ∧ owns pc' = Some (sh_next sh) ∧
     sh_active sh' = Some (sh_next sh) ∧ sh_next sh' = S (sh_next sh)) ∨
  (∃ sig, owns pc = Some sig ∧ owns pc' = None ∧ sh' = active_turn_drop sh sig).
Proof.
  intros H. destruct pc; try done;
    try (right; right; eexists; simpl in H; simplify_eq; split_and!; done);
    step_cases H; auto; try (left; repeat split; by repeat case_match).
  right; left. done.
Qed.

Lemma step_permit sh pc ch sh' pc' :
  task_step sh pc ch = Some (sh', pc') →
  (holds_permit pc' = holds_permit pc ∧ sh_mutation sh' = sh_mutation sh) ∨
  (holds_permit pc = false ∧ sh_mutation sh = false ∧ holds_permit pc' = true ∧
     sh_mutation sh' = true) ∨
  (holds_permit pc = true ∧ holds_permit pc' = false ∧ sh_mutation sh' = false).
Proof.
  intros H. destruct pc; step_cases H; auto;
    try (right; right; repeat split; by repeat case_match); right; left; done.
Qed.

Lemma step_excl sh pc ch sh' pc' :
  task_step sh pc ch = Some (sh', pc') →
  (in_turn pc' = true → in_turn pc = true ∨ (owns pc ≠ None ∧ sh_mutation sh = false)) ∧
  (pc' = CMutating → sh_active sh = None ∧ holds_permit pc = true).
Proof.
  intros H. destruct pc; step_cases H; split; intros; simplify_eq/=; auto;
    try (by repeat case_match); try (destruct (sh_active sh'); done).
Qed.

Lemma step_signal sh pc ch sh' pc' sig :
  task_step sh pc ch = Some (sh', pc') → signal_of sh sig ≠ SigLive → sig < sh_next sh →
  signal_of sh' sig = signal_of sh sig.
Proof.
  intros H Hne Hlt. unfold signal_of in *.
  destruct pc; step_cases H; try done; try (by case_match);
    rewrite lookup_insert;
    match goal with |- context [decide (?a = sig)] => destruct (decide (a = sig)) end;
    subst; unfold signal_of in *; simpl; try done; try lia; congruence.
Qed.

Lemma step_trace sh pc ch sh' pc' :
  task_step sh pc ch = Some (sh', pc') →
  (turn_open pc' = turn_open pc ∧ (∀ sig, pc' = TWaiting sig → pc = TWaiting sig) ∧
     (sh_trace sh' = sh_trace sh ∨
      sh_trace sh' = sh_trace sh ++ [TurnStatusChanged TurnCancelling] ∨
      (∃ e, plain_event e = true ∧ sh_trace sh' = sh_trace sh ++ [e]) ∨
      (pc = CMutating ∧ sh_trace sh' = sh_trace sh ++ [ConversationCleared]))) ∨
  (∃ sig, pc = TAdmitted sig ∧ pc' = TRunning sig ∧
     sh_trace sh' = sh_trace sh ++ [TurnStatusChanged TurnRunning]) ∨
  (∃ sig, pc = TRunning sig ∧ pc' = TWaiting sig ∧
     sh_trace sh' = sh_trace sh ++ [TurnStatusChanged TurnWaitingForApproval]) ∨
  (∃ sig, pc = TWaiting sig ∧ pc' = TRunning sig ∧
     sh_trace sh' = sh_trace sh ++ [TurnStatusChanged TurnRunning]) ∨
  (∃ sig c st, pc = TEmit sig c st ∧ turn_open pc' = false ∧ pc' = TUnslot sig ∧
     sh_trace sh' = sh_trace sh ++ [TurnStatusChanged st]).
Proof.
  intros H. destruct pc; step_cases H;
    first [ left; split; [by repeat case_match|split; [intros ? ?; by repeat case_match|]];
            first [ by left | by right; left | right; right; left; by eexists | by right; right; right ]
          | right; left; by eexists
          | right; right; left; by eexists
          | right; right; right; left; by eexists
          | right; right; right; right; by eexists _, _, _ ].
Qed.

Lemma step_outcome sh pc ch sh' pc' :
  task_step sh pc ch = Some (sh', pc') → outcome_ok sh pc → outcome_ok sh' pc'.
Proof.
  intros H Hok. destruct pc; step_cases H; try done;
    unfold outcome_ok, signal_of, set_signal, is_cancelled, terminal_status in *; simpl in *;
    rewrite ?lookup_insert_eq; simpl; try done; repeat case_match; bool_to_prop; simplify_eq/=;
    try done; try congruence; auto;
    clear H0; by destruct (default SigLive (sh_signals sh !! sig)).
Qed.

(** *** Preservation *)

(** Split a lookup in the updated task list. *)
Ltac task_lookup :=
  repeat match goal with
  | H : <[_ := _]> _ !! _ = Some _ |- _ =>
      apply list_lookup_insert_Some in H as [(? & ? & ?)|[? H]]; subst
  end.

Section preservation.
Context (sh : Shared) (tasks : list Pc) (i : nat) (pc : Pc) (ch : TurnChoice) (sh' : Shared) (pc' : Pc).
Hypothesis (Hinv : sys_inv (sh, tasks)).
Hypothesis (Hi : tasks !! i = Some pc).
Hypothesis (Hstep : task_step sh pc ch = Some (sh', pc')).

Lemma no_owner_elsewhere j p : j ≠ i → owns pc ≠ None → tasks !! j = Some p → owns p = None.
Proof.
  intros Hne Ho Hj. destruct (owns p) eqn:E; [|done]. exfalso. apply Hne.
  by apply (inv_own_unique _ Hinv j i p pc); rewrite ?E.
Qed.

Lemma in_turn_owns p : in_turn p = true → owns p ≠ None.
Proof. by destruct p. Qed.

Lemma turn_open_owns p : turn_open p = true → owns p ≠ None ∧ in_turn p = true.
Proof. by destruct p. Qed.

Lemma preserve_own j p sig :
  <[i := pc']> tasks !! j = Some p → owns p = Some sig →
  sh_active sh' = Some sig ∧ sig < sh_next sh'.
Proof.
  intros Hj Hp. pose proof (inv_own _ Hinv) as Hown. simpl in Hown.
  destruct (step_own _ _ _ _ _ Hstep) as [(He & Ha & Hn)|[(Hpc & Hna & He & Ha & Hn)|(s0 & Hpc & He & ->)]];
    task_lookup.
  - rewrite Ha, Hn. rewrite He in Hp. eauto.
  - rewrite Ha, Hn. eauto.
  - rewrite He in Hp. simplify_eq. rewrite Ha, Hn. split; [done|lia].
  - destruct (Hown _ _ _ Hj Hp). congruence.
  - congruence.
  - rewrite (no_owner_elsewhere j p) in Hp by (try congruence; done). done.
Qed.

Lemma preserve_own_unique j k p q :
  <[i := pc']> tasks !! j = Some p → <[i := pc']> tasks !! k = Some q →
  owns p ≠ None → owns q ≠ None → j = k.
Proof.
  intros Hj Hk Hp Hq. pose proof (inv_own _ Hinv) as Hown. simpl in Hown.
  pose proof (inv_own_unique _ Hinv) as Hu. simpl in Hu.
  assert (∀ l r, l ≠ i → tasks !! l = Some r → owns r ≠ None → owns pc' ≠ None → False) as Hx.
  { intros l r Hli Hl Hr Hpc'.
    destruct (step_own _ _ _ _ _ Hstep) as [(He & _)|[(_ & Hna & _)|(s0 & _ & He & _)]].
    - apply Hr, (no_owner_elsewhere l); congruence.
    - destruct (owns r) as [sig|] eqn:E; [|done]. destruct (Hown _ _ _ Hl E). congruence.
    - congruence. }
  task_lookup; [done| | |by eapply Hu]; exfalso; eapply Hx; eauto.
Qed.

Lemma preserve_permit j p :
  <[i := pc']> tasks !! j = Some p → holds_permit p = true → sh_mutation sh' = true.
Proof.
  intros Hj Hp. pose proof (inv_permit _ Hinv) as Hm. pose proof (inv_permit_unique _ Hinv) as Hu.
  simpl in *.
  destruct (step_permit _ _ _ _ _ Hstep) as [(He & ->)|[(_ & _ & _ & ->)|(Hpc & He & _)]]; task_lookup.
  - eapply Hm; [done|congruence].
  - by eapply Hm.
  - done.
  - done.
  - congruence.
  - exfalso. apply (H : i ≠ j). by eapply Hu.
Qed.

Lemma preserve_permit_unique j k p q :
  <[i := pc']> tasks !! j = Some p → <[i := pc']> tasks !! k = Some q →
  holds_permit p = true → holds_permit q = true → j = k.
Proof.
  intros Hj Hk Hp Hq. pose proof (inv_permit _ Hinv) as Hm. pose proof (inv_permit_unique _ Hinv) as Hu.
  simpl in *.
  assert (∀ l r, i ≠ l → tasks !! l = Some r → holds_permit r = true → holds_permit pc' = true → False) as Hx.
  { intros l r Hli Hl Hr Hpc'. specialize (Hm l r Hl Hr).
    destruct (step_permit _ _ _ _ _ Hstep) as [(He & _)|[(_ & Hf & _)|(_ & He & _)]]; try congruence.
    apply Hli. eapply Hu; [exact Hi|exact Hl|congruence|done]. }
  task_lookup; [done| | |by eapply Hu]; exfalso; eapply Hx; eauto.
Qed.

Lemma preserve_excl j k p :
  <[i := pc']> tasks !! j = Some p → in_turn p = true → <[i := pc']> tasks !! k = Some CMutating → False.
Proof.
  intros Hj Hp Hk. pose proof (inv_excl _ Hinv) as Hx. pose proof (inv_permit _ Hinv) as Hm.
  pose proof (inv_own _ Hinv) as Hown. simpl in *.
  destruct (step_excl _ _ _ _ _ Hstep) as [Ht Hc]. task_lookup.
  - done.
  - destruct (Hc eq_refl) as [Hna _]. apply in_turn_owns in Hp.
    destruct (owns p) as [sig|] eqn:E; [|done]. destruct (Hown _ _ _ Hj E). congruence.
  - destruct (Ht Hp) as [?|[_ Hf]]; [eapply Hx; eauto|].
    specialize (Hm k CMutating Hk eq_refl). congruence.
  - eapply Hx; eauto.
Qed.

Lemma preserve_outcome j p : <[i := pc']> tasks !! j = Some p → outcome_ok sh' p.
Proof.
  intros Hj. pose proof (inv_outcome _ Hinv) as Ho. pose proof (inv_own _ Hinv) as Hown. simpl in *.
  task_lookup; [eapply step_outcome; eauto|].
  pose proof (Ho j p Hj) as Hok. specialize (Hown j p).
  destruct p as [| | | | | | |sig [[]|]|sig [[]|] st| | | | | | | | | | | | | | | | | | |]; try done; simpl in *;
    destruct (Hown sig Hj eq_refl);
    rewrite (step_signal _ _ _ _ _ sig Hstep); congruence.
Qed.

Lemma bracket_snoc t e : bracket (t ++ [e]) = bracket_step (bracket t) e.
Proof. unfold bracket. by rewrite fold_left_app. Qed.

(** Tasks other than this one are not in an open turn when this one owns the slot. *)
Lemma others_closed j p : j ≠ i → owns pc ≠ None → tasks !! j = Some p → turn_open p = false.
Proof.
  intros Hne Ho Hj. destruct (turn_open p) eqn:E; [|done].
  apply turn_open_owns in E as [E _]. by rewrite (no_owner_elsewhere j p) in E.
Qed.

Lemma open_same :
  turn_open pc' = turn_open pc →
  (∃ j p, <[i := pc']> tasks !! j = Some p ∧ turn_open p = true) ↔
  (∃ j p, tasks !! j = Some p ∧ turn_open p = true).
Proof.
  intros Heq. split; intros (j & p & Hj & Hp).
  - task_lookup; [exists j, pc; split; congruence|by eauto].
  - destruct (decide (i = j)) as [<-|Hne].
    + exists i, pc'. simplify_eq. rewrite list_lookup_insert_eq by (by eapply lookup_lt_Some).
      split; congruence.
    + exists j, p. by rewrite list_lookup_insert_ne.
Qed.

(** The owner is in an open turn that stays open. *)
Lemma open_kept (b : StreamState) :
  owns pc ≠ None → b ≠ StClosed → turn_open pc' = true → (∀ sig, pc' = TWaiting sig → b = StWaiting) →
  (b ≠ StClosed ↔ ∃ j p, <[i := pc']> tasks !! j = Some p ∧ turn_open p = true) ∧
  (∀ j sig, <[i := pc']> tasks !! j = Some (TWaiting sig) → b = StWaiting).
Proof.
  intros Hown Hb Hop Hw. split.
  - split; [intros _|done]. exists i, pc'. by rewrite list_lookup_insert_eq by (by eapply lookup_lt_Some).
  - intros j sig Hj. task_lookup; [by eapply Hw|].
    by pose proof (no_owner_elsewhere j (TWaiting sig) ltac:(done) Hown ltac:(done)).
Qed.

Lemma preserve_bracket :
  ∃ b, bracket (sh_trace sh') = Some b ∧
    (b ≠ StClosed ↔ ∃ j p, <[i := pc']> tasks !! j = Some p ∧ turn_open p = true) ∧
    (∀ j sig, <[i := pc']> tasks !! j = Some (TWaiting sig) → b = StWaiting).
Proof.
  destruct (inv_bracket _ Hinv) as (b & Hb & Hopen & Hwait). simpl in *.
  destruct (step_trace _ _ _ _ _ Hstep) as
    [(Heq & Hw & Htr)|[(sig & Hpc & Hpc' & Htr)|[(sig & Hpc & Hpc' & Htr)|[(sig & Hpc & Hpc' & Htr)|(sig & c & st & Hpc & _ & Hpc' & Htr)]]]].
  - pose proof (open_same Heq) as Hsame. rewrite <- Hsame in Hopen.
    assert (∀ j sig, <[i := pc']> tasks !! j = Some (TWaiting sig) → b = StWaiting) as Hwait'.
    { intros j sig Hj. apply list_lookup_insert_Some in Hj as [(_ & Hpc & _)|[_ Hj]]; [|by eapply Hwait].
      eapply (Hwait i sig). by rewrite Hi, (Hw sig). }
    exists b. split; [|done]. destruct Htr as [->|[->|[(e & He & ->)|[Hpc ->]]]]; [done|..]; rewrite bracket_snoc, Hb; [done|by destruct e|].
    simpl. destruct (decide (b = StClosed)) as [->|Hne]; [done|].
    destruct (proj1 Hsame (proj1 Hopen Hne)) as (k & q & Hk & Hq).
    apply turn_open_owns in Hq as [_ Hq]. exfalso.
    apply (inv_excl _ Hinv k i q); simpl; [done|done|by rewrite Hi, Hpc].
  - rewrite Htr, bracket_snoc, Hb. exists StRunning.
    assert (b = StClosed) as ->.
    { destruct (decide (b = StClosed)) as [->|Hne]; [done|]. destruct (proj1 Hopen Hne) as (j & p & Hj & Hp).
      destruct (decide (j = i)) as [->|Hji]; [by simplify_eq|]. by rewrite (others_closed j p) in Hp by (subst; done). }
    split; [done|]. apply open_kept; by subst.
  - rewrite Htr, bracket_snoc, Hb. exists StWaiting.
    assert (b ≠ StClosed) as Hne by (apply Hopen; exists i, pc; by subst).
    split; [by destruct b|]. apply open_kept; by subst.
  - rewrite Htr, bracket_snoc, Hb. exists StRunning.
    assert (b = StWaiting) as -> by (apply (Hwait i sig); by subst).
    split; [done|]. apply open_kept; by subst.
  - rewrite Htr, bracket_snoc, Hb. exists StClosed.
    assert (b ≠ StClosed) as Hne by (apply Hopen; exists i, pc; by subst).
    pose proof (inv_outcome _ Hinv i _ Hi) as Hok. rewrite Hpc in Hok. simpl in Hok.
    split; [by destruct b, c as [[]|]; simpl; naive_solver|].
    assert (∀ j p, <[i := pc']> tasks !! j = Some p → turn_open p = false) as Hoth.
    { intros j p Hj. apply list_lookup_insert_Some in Hj as [(? & <- & ?)|[Hji Hj]]; [by subst|].
      apply (others_closed j); [done|by rewrite Hpc|done]. }
    split; [split; [done|]; intros (j & p & Hj & Hp); by rewrite (Hoth j p Hj) in Hp|].
    intros j sig' Hj. by specialize (Hoth j _ Hj).
Qed.

Lemma preserve_inv : sys_inv (sh', <[i := pc']> tasks).
Proof.
  split; simpl; eauto using preserve_own, preserve_own_unique, preserve_permit,
    preserve_permit_unique, preserve_excl, preserve_outcome, preserve_bracket.
Qed.

End preservation.

Lemma initial_inv c : initial c → sys_inv c.
Proof.
  destruct c as [sh tasks]. intros [Hsh Hst]. simpl in *. subst.
  assert (∀ i pc, tasks !! i = Some pc → pc = TStart ∨ pc = CStart ∨ pc = XStart ∨ pc = EOther) as Hs.
  { intros i pc Hi. by apply (Forall_lookup_1 _ _ _ _ Hst Hi). }
  split; simpl.
  - intros i pc sig Hi. destruct (Hs _ _ Hi) as [->|[->|[->| ->]]]; done.
  - intros i j pc pc' Hi. destruct (Hs _ _ Hi) as [->|[->|[->| ->]]]; done.
  - intros i pc Hi. destruct (Hs _ _ Hi) as [->|[->|[->| ->]]]; done.
  - intros i j pc pc' Hi. destruct (Hs _ _ Hi) as [->|[->|[->| ->]]]; done.
  - intros i j pc Hi. destruct (Hs _ _ Hi) as [->|[->|[->| ->]]]; done.
  - intros i pc Hi. destruct (Hs _ _ Hi) as [->|[->|[->| ->]]]; done.
  - exists StClosed. split; [done|]. split; [split; [done|]; intros (i & pc & Hi & Ho)|intros i sig Hi];
      destruct (Hs _ _ Hi) as [Hx|[Hx|[Hx|Hx]]]; by subst.
Qed.

Lemma reachable_inv c c' : initial c → rtc sys_step c c' → sys_inv c'.
Proof.
  intros Hc Hrun. pose proof (initial_inv c Hc) as Hi. clear Hc.
  induction Hrun as [c|c1 c2 c3 Hstep _ IH]; [done|]. apply IH.
  destruct Hstep. by eapply preserve_inv.
Qed.

Lemma run_schedule_reachable c schedule c' :
  run_schedule c schedule = Some c' → rtc sys_step c c'.
Proof.
  revert c. induction schedule as [|[i ch] rest IH]; intros [sh tasks]; simpl.
  { intros [= <-]. constructor. }
  destruct (tasks !! i) as [pc|] eqn:Hi; [|done].
  destruct (task_step sh pc ch) as [[sh' pc']|] eqn:Hs; [|done].
  intros H. econstructor; [by econstructor|]. by apply IH.
Qed.

(** ** Properties *)

(** C2: turns and history mutation exclude each other.  In every interleaving of
    any number of prompts, clears and cancels, at most one turn is between its
    admission and the release of its slot, at most one clear is mutating the
    history, and never both at once. *)
Theorem turn_and_clear_exclusive c c' :
  initial c → rtc sys_step c c' →
  (∀ i j p q, c'.2 !! i = Some p → c'.2 !! j = Some q → in_turn p = true → in_turn q = true → i = j) ∧
  (∀ i j, c'.2 !! i = Some CMutating → c'.2 !! j = Some CMutating → i = j) ∧
  (∀ i j p, c'.2 !! i = Some p → in_turn p = true → c'.2 !! j = Some CMutating → False).
Proof.
  intros Hc Hrun. pose proof (reachable_inv c c' Hc Hrun) as Hinv. split_and!.
  - intros i j p q Hp Hq ?%in_turn_owns ?%in_turn_owns. by eapply (inv_own_unique _ Hinv).
  - intros i j Hi Hj. by eapply (inv_permit_unique _ Hinv).
  - apply (inv_excl _ Hinv).
Qed.

Lemma turn_and_clear_exclusive_witness :
  (∀ i j p q, [TRelease 0; CMutating] !! i = Some p → [TRelease 0; CMutating] !! j = Some q →
     in_turn p = true → in_turn q = true → i = j) ∧
  (∀ i j, [TRelease 0; CMutating] !! i = Some CMutating →
     [TRelease 0; CMutating] !! j = Some CMutating → i = j) ∧
  (∀ i j p, [TRelease 0; CMutating] !! i = Some p → in_turn p = true →
     [TRelease 0; CMutating] !! j = Some CMutating → False).
Proof.
  assert (run_schedule (initial_shared, [TStart; CStart])
    [(0, ChFinish); (1, ChFinish); (1, ChFinish); (1, ChFinish); (1, ChFinish); (0, ChFinish); (0, ChFinish)] =
    Some (mkShared (Some 0) {[0 := SigLive]} 1 true true [], [TRelease 0; CMutating])) as Hrun
    by (vm_compute; reflexivity).
  exact (turn_and_clear_exclusive (initial_shared, [TStart; CStart])
    (mkShared (Some 0) {[0 := SigLive]} 1 true true [], [TRelease 0; CMutating])
    (conj eq_refl (Forall_cons_2 _ _ _ (or_introl eq_refl)
      (Forall_cons_2 _ _ _ (or_intror (or_introl eq_refl)) (Forall_nil_2 _))))
    (run_schedule_reachable _ _ _ Hrun)).
Defined.

(** C15: the event stream of every interleaving of prompts, clears, cancels and other
    emissions is well bracketed. A turn opens with [Running]; inside it
    [WaitingForApproval] is announced when a tool call asks, and [Running] a second
    time only after that; exactly one terminal status ([Idle] or [Cancelled]) closes
    it before the next turn starts, and [ConversationCleared] never falls inside a
    turn. The stream is inside a turn exactly while some task has a turn open, and
    says [WaitingForApproval] while that task waits for an approval. *)
Theorem event_stream_bracketed c c' :
  initial c → rtc sys_step c c' →
  ∃ b, bracket (sh_trace c'.1) = Some b ∧
       (b ≠ StClosed ↔ ∃ i p, c'.2 !! i = Some p ∧ turn_open p = true) ∧
       (∀ i sig, c'.2 !! i = Some (TWaiting sig) → b = StWaiting).
Proof. intros Hc Hrun. apply (inv_bracket _ (reachable_inv c c' Hc Hrun)). Qed.

Definition demo_cancel : list (nat * TurnChoice) :=
  [(0, ChFinish); (0, ChFinish); (0, ChFinish); (0, ChFinish);
   (1, ChFinish); (1, ChFinish); (1, ChFinish); (1, ChFinish); (1, ChFinish);
   (0, ChFinish); (0, ChFinish); (0, ChFinish); (0, ChFinish)].

(** A turn in which a call asks, is answered, and asks again. *)
Definition demo_approvals : list (nat * TurnChoice) :=
  [(0, ChFinish); (0, ChFinish); (0, ChFinish); (0, ChFinish); (0, ChEvent (AssistantDelta "a"));
   (0, ChAsk); (1, ChEvent (AssistantDelta "b")); (0, ChResolved); (0, ChAsk)].

Definition demo_approvals_trace : list SessionEvent :=
  [TurnStatusChanged TurnRunning; AssistantDelta "a"; TurnStatusChanged TurnWaitingForApproval;
   AssistantDelta "b"; TurnStatusChanged TurnRunning; TurnStatusChanged TurnWaitingForApproval].

Lemma event_stream_bracketed_witness :
  ∃ b, bracket demo_approvals_trace = Some b ∧
       (b ≠ StClosed ↔ ∃ i p, [TWaiting 0; EOther] !! i = Some p ∧ turn_open p = true) ∧
       (∀ i sig, [TWaiting 0; EOther] !! i = Some (TWaiting sig) → b = StWaiting).
Proof.
  assert (run_schedule (initial_shared, [TStart; EOther]) demo_approvals =
    Some (mkShared (Some 0) {[0 := SigLive]} 1 false false demo_approvals_trace, [TWaiting 0; EOther])) as Hrun
    by (vm_compute; reflexivity).
  apply (event_stream_bracketed (initial_shared, [TStart; EOther])
    (mkShared (Some 0) {[0 := SigLive]} 1 false false demo_approvals_trace, [TWaiting 0; EOther])
    (conj eq_refl (Forall_cons_2 _ _ _ (or_introl eq_refl)
      (Forall_cons_2 _ _ _ (or_intror (or_intror (or_intror eq_refl))) (Forall_nil_2 _))))
    (run_schedule_reachable _ _ _ Hrun)).
Defined.

(** completion and cancellation race for one claim, and the terminal event
    reports who won it: a turn that claimed completion announces [Idle], and a
    turn whose completion claim was refused announces [Cancelled]. *)
Theorem terminal_status_follows_claim c c' i sig won status :
  initial c → rtc sys_step c c' → c'.2 !! i = Some (TEmit sig (Some won) status) →
  status = if (won : bool) then TurnIdle else TurnCancelled.
Proof.
  intros Hc Hrun Hi. pose proof (inv_outcome _ (reachable_inv c c' Hc Hrun) _ _ Hi) as Ho.
  by destruct won.
Qed.

Lemma terminal_status_follows_claim_witness :
  TurnCancelled = if false then TurnIdle else TurnCancelled.
Proof.
  assert (run_schedule (initial_shared, [TStart; XStart]) (take 11 demo_cancel) =
    Some (mkShared (Some 0) {[0 := SigCancelled]} 1 false false
      [TurnStatusChanged TurnRunning; TurnStatusChanged TurnCancelling],
      [TEmit 0 (Some false) TurnCancelled; XDone true])) as Hrun by (vm_compute; reflexivity).
  exact (terminal_status_follows_claim (initial_shared, [TStart; XStart]) _ 0 0 false TurnCancelled
    (conj eq_refl (Forall_cons_2 _ _ _ (or_introl eq_refl)
      (Forall_cons_2 _ _ _ (or_intror (or_intror (or_introl eq_refl))) (Forall_nil_2 _))))
    (run_schedule_reachable _ _ _ Hrun) eq_refl).
Defined.

(** the notice of a cancellation can still arrive after the turn's terminal
    event.  [cancel_with] claims the outcome, then emits [Cancelling], then
    notifies; a turn whose work finishes between the claim and the emission loses
    its completion claim, ends with [Cancelled] without waiting for the
    notification, and the stream then rests on [Cancelling] with every task
    finished. *)
Theorem cancelling_can_follow_terminal :
  ∃ c', rtc sys_step (initial_shared, [TStart; XStart]) c' ∧
        c'.2 = [TDone; XDone true] ∧
        sh_trace c'.1 = [TurnStatusChanged TurnRunning; TurnStatusChanged TurnCancelled;
                         TurnStatusChanged TurnCancelling].
Proof.
  pose (schedule := [(0, ChFinish); (0, ChFinish); (0, ChFinish); (0, ChFinish); (1, ChFinish); (1, ChFinish); (1, ChFinish);
                     (0, ChFinish); (0, ChFinish); (0, ChFinish); (0, ChFinish); (1, ChFinish); (1, ChFinish)] : list (nat * TurnChoice)).
  assert (∃ c', run_schedule (initial_shared, [TStart; XStart]) schedule = Some c' ∧
    c'.2 = [TDone; XDone true] ∧
    sh_trace c'.1 = [TurnStatusChanged TurnRunning; TurnStatusChanged TurnCancelled;
                     TurnStatusChanged TurnCancelling]) as (c' & Hrun & H).
  { eexists. split; [vm_compute; reflexivity|done]. }
  exists c'. split; [|done]. by eapply run_schedule_reachable.
Qed.
