(* ===== verification/Approvals.v ===== *)
(** * The approval broker and approval requests

    Models [ApprovalBroker] and [request_approval] of
    [src/src/session_core.rs].  The broker hands out session-local approval ids,
    keeps the requests that wait for a decision, checks the capabilities of the
    client that decides, and keeps each decision until exactly one party claims
    it for the [ApprovalResolved] event.  [request_approval] is the task that
    registers a request, publishes it and waits for the decision, denying it when
    no eligible client is attached for too long.

    Every broker operation is one critical section of the broker's mutex.  The
    waiting task runs concurrently with clients, so it is a step machine
    ([req_step]) whose steps are its critical sections, interleaved with arbitrary
    broker operations and events of others ([req_sys_step]).  It publishes events
    through any [EventSink]. *)

From stdpp Require Import base numbers list strings gmap sorting.
From S2P Require Import Prelude RustStr Protocol Router.

(** ** The broker *)

Record ApprovalResolution := mkResolution {
  rs_approval_id : string;
  rs_tool : string;
  rs_decision : ApprovalDecision;
  rs_resolved_by : string;
}.

#[export] Instance ApprovalResolution_eq_dec : EqDecision ApprovalResolution.
Proof. solve_decision. Defined.

Inductive ApprovalError :=
  | NotPending
  | AlreadyResolved
  | MissingCapability (required : ClientCapability)
  | AllowAlwaysUnavailable
  | IdExhausted.

#[export] Instance ApprovalError_eq_dec : EqDecision ApprovalError.
Proof. solve_decision. Defined.

(** The broker's state.  [ab_sent] holds what was sent on the one-shot channel of
    each request: a request with no entry has an empty channel. *)
Record ApprovalBroker := mkBroker {
  ab_pending : gmap string ApprovalRequest;
  ab_unemitted : gmap string ApprovalResolution;
  ab_next_id : Z;
  ab_sent : gmap string ApprovalResolution;
  ab_allow_always : bool;
  ab_timeout : option Z;
  ab_approve_once_clients : nat;
  ab_approve_always_clients : nat;
}.

(** [ApprovalBroker::new] and [new_with_timeout]. *)
Definition broker_new (allow_always : bool) (timeout : option Z) : ApprovalBroker :=
  mkBroker ∅ ∅ 0 ∅ allow_always timeout 0 0.

Definition set_eligible_client_counts (b : ApprovalBroker) (approve_once approve_always : nat)
    : ApprovalBroker :=
  mkBroker (ab_pending b) (ab_unemitted b) (ab_next_id b) (ab_sent b) (ab_allow_always b)
    (ab_timeout b) approve_once approve_always.

Definition has_eligible_client (b : ApprovalBroker) (approval_id : string) : bool :=
  match ab_pending b !! approval_id with
  | None => false
  | Some pending =>
      (0 <? ab_approve_once_clients b)
      || (ar_allow_always_available pending && (0 <? ab_approve_always_clients b))
  end.

Definition with_state (b : ApprovalBroker) (pending : gmap string ApprovalRequest)
    (unemitted sent : gmap string ApprovalResolution) : ApprovalBroker :=
  mkBroker pending unemitted (ab_next_id b) sent (ab_allow_always b) (ab_timeout b)
    (ab_approve_once_clients b) (ab_approve_always_clients b).

(** [format!("approval-{}", n)]. *)
Definition approval_id_of (n : Z) : string := "approval-" +:+ u64_to_string n.

Definition register (b : ApprovalBroker) (request : ApprovalRequest)
    : ApprovalBroker * result ApprovalRequest ApprovalError :=
  match u64_checked_add (ab_next_id b) 1 with
  | None => (b, Err IdExhausted)
  | Some n =>
      let request' :=
        mkApprovalRequest (approval_id_of n) (ar_tool_call_id request) (ar_tool request)
          (ar_detail request) (ar_allow_always_available request && ab_allow_always b)
          (ar_ineligible_deadline_unix_ms request) (ar_deadline_paused request) in
      (mkBroker (<[approval_id_of n := request']> (ab_pending b)) (ab_unemitted b) n (ab_sent b)
         (ab_allow_always b) (ab_timeout b) (ab_approve_once_clients b) (ab_approve_always_clients b),
       Ok request')
  end.

(** [ApprovalBroker::pending]: sorted by the text of the id. *)
Definition pending_requests (b : ApprovalBroker) : list ApprovalRequest :=
  sort_by (λ l r, str_leb (ar_id l) (ar_id r)) (map snd (map_to_list (ab_pending b))).

Definition update_deadline (b : ApprovalBroker) (approval_id : string) (deadline_unix_ms : Z)
    (paused : bool) : ApprovalBroker * bool :=
  match ab_pending b !! approval_id with
  | None => (b, false)
  | Some r =>
      if bool_decide (ar_ineligible_deadline_unix_ms r = Some deadline_unix_ms)
         && Bool.eqb (ar_deadline_paused r) paused
      then (b, false)
      else
        let r' := mkApprovalRequest (ar_id r) (ar_tool_call_id r) (ar_tool r) (ar_detail r)
                    (ar_allow_always_available r) (Some deadline_unix_ms) paused in
        (with_state b (<[approval_id := r']> (ab_pending b)) (ab_unemitted b) (ab_sent b), true)
  end.

Definition approval_sequence (approval_id : string) : Z :=
  match strip_prefix "approval-" approval_id with
  | Some sequence => default U64_MAX (parse_u64 sequence)
  | None => U64_MAX
  end.

Definition required_capability (decision : ApprovalDecision) : ClientCapability :=
  match decision with AllowAlways => CapApproveAlways | AllowOnce | Deny => CapApproveOnce end.

Definition resolve (b : ApprovalBroker) (approval_id resolved_by : string)
    (capabilities : list ClientCapability) (decision : ApprovalDecision)
    : ApprovalBroker * result ApprovalResolution ApprovalError :=
  if negb (has_capability capabilities (required_capability decision))
  then (b, Err (MissingCapability (required_capability decision)))
  else
    match ab_pending b !! approval_id with
    | None =>
        (b, Err (if (approval_sequence approval_id <=? ab_next_id b)%Z
                 then AlreadyResolved else NotPending))
    | Some pending =>
        if bool_decide (decision = AllowAlways) && negb (ar_allow_always_available pending)
        then (b, Err AllowAlwaysUnavailable)
        else
          let resolution := mkResolution approval_id (ar_tool pending) decision resolved_by in
          (with_state b (delete approval_id (ab_pending b))
             (<[approval_id := resolution]> (ab_unemitted b))
             (<[approval_id := resolution]> (ab_sent b)),
           Ok resolution)
    end.

Definition seq_leb (l r : string) : bool := (approval_sequence l <=? approval_sequence r)%Z.

Definition cancel_all (b : ApprovalBroker) (resolved_by : string)
    : ApprovalBroker * list ApprovalResolution :=
  let drained := sort_by (λ l r : string * ApprovalRequest, seq_leb l.1 r.1)
                   (map_to_list (ab_pending b)) in
  let resolutions :=
    map (λ p : string * ApprovalRequest, mkResolution p.1 (ar_tool p.2) Deny resolved_by) drained in
  let sent := foldl (λ m r, <[rs_approval_id r := r]> m) (ab_sent b) resolutions in
  (with_state b ∅ ∅ sent,
   sort_by (λ l r, seq_leb (rs_approval_id l) (rs_approval_id r))
     (resolutions ++ map snd (map_to_list (ab_unemitted b)))).

Definition take_unemitted (b : ApprovalBroker) (approval_id : string)
    : ApprovalBroker * option ApprovalResolution :=
  (with_state b (ab_pending b) (delete approval_id (ab_unemitted b)) (ab_sent b),
   ab_unemitted b !! approval_id).

(** *** Operations as data *)

Inductive BrokerOp :=
  | BRegister (request : ApprovalRequest)
  | BUpdateDeadline (approval_id : string) (deadline : Z) (paused : bool)
  | BResolve (approval_id resolved_by : string) (caps : list ClientCapability)
      (decision : ApprovalDecision)
  | BTake (approval_id : string)
  | BCancelAll (resolved_by : string)
  | BEligible (approve_once approve_always : nat).

(** The resolutions an operation claims for emission. *)
Definition broker_op (b : ApprovalBroker) (op : BrokerOp) : ApprovalBroker * list ApprovalResolution :=
  match op with
  | BRegister r => ((register b r).1, [])
  | BUpdateDeadline id d p => ((update_deadline b id d p).1, [])
  | BResolve id by_ caps dec => ((resolve b id by_ caps dec).1, [])
  | BTake id => let '(b', o) := take_unemitted b id in (b', option_list o)
  | BCancelAll by_ => cancel_all b by_
  | BEligible o a => (set_eligible_client_counts b o a, [])
  end.

Fixpoint broker_run (b : ApprovalBroker) (ops : list BrokerOp)
    : ApprovalBroker * list ApprovalResolution :=
  match ops with
  | [] => (b, [])
  | op :: ops => let '(b1, c1) := broker_op b op in
                 let '(b2, c2) := broker_run b1 ops in (b2, c1 ++ c2)
  end.

(** ** A request in flight *)

Inductive ApprovalRequestError :=
  | ErrBroker (error : ApprovalError)
  | ErrEvent (error : SessionEventError)
  | ErrBrokerClosed.

#[export] Instance ApprovalRequestError_eq_dec : EqDecision ApprovalRequestError.
Proof. solve_decision. Defined.

(** Where the task is.  [anchor] is the deadline fixed when the request first had
    no eligible client. *)
Inductive ReqPc :=
  | RqRegister (request : ApprovalRequest)
  | RqPublishStatus (registered : ApprovalRequest)
  | RqPublishRequest (registered : ApprovalRequest)
  | RqDenyResolve (resolved_by : string) (error : SessionEventError)
  | RqDenyTake (error : SessionEventError)
  | RqAwait                             (** no timeout: waiting on the channel *)
  | RqTop (anchor : option Z)           (** at the head of the wait loop *)
  | RqCheck (anchor : option Z)         (** before reading the eligibility *)
  | RqUpdate (anchor : option Z) (eligible : bool)  (** before [update_deadline] *)
  | RqEmitDeadline (deadline : Z) (eligible : bool)
  | RqSelect (anchor : option Z) (eligible : bool)  (** in the select *)
  | RqTimeout (anchor : option Z)       (** the deadline branch was taken *)
  | RqTake (resolution : ApprovalResolution)
  | RqEmitResolved (resolution unemitted : ApprovalResolution)
  | RqRunning (outcome : result ApprovalResolution ApprovalRequestError)
  | RqReturned (outcome : result ApprovalResolution ApprovalRequestError).

(** Which branch of a select is ready when the channel is empty. *)
Inductive Wake := WakeEligibility | WakeDeadline.

(** What the receiver of a one-shot channel sees: the sender of a request that
    is neither pending nor answered has been dropped. *)
Inductive Recv := RecvOk (resolution : ApprovalResolution) | RecvEmpty | RecvClosed.

Definition try_recv (b : ApprovalBroker) (approval_id : string) : Recv :=
  match ab_sent b !! approval_id with
  | Some r => RecvOk r
  | None => if is_some (ab_pending b !! approval_id) then RecvEmpty else RecvClosed
  end.

Section request.
Context {S : Type} `{EventSink S}.

(** [rq_own] lists the events the task has published, in order. *)
Record ReqState := mkReq {
  rq_broker : ApprovalBroker;
  rq_sink : S;
  rq_id : string;
  rq_own : list SessionEvent;
  rq_pc : ReqPc;
}.

Definition publish (st : ReqState) (e : SessionEvent) : ReqState * result Z SessionEventError :=
  let '(s', res) := sink_emit (rq_sink st) e in
  (mkReq (rq_broker st) s' (rq_id st) (rq_own st ++ [e]) (rq_pc st), res).

Definition goto (st : ReqState) (pc : ReqPc) : ReqState :=
  mkReq (rq_broker st) (rq_sink st) (rq_id st) (rq_own st) pc.

Definition with_broker (st : ReqState) (b : ApprovalBroker) : ReqState :=
  mkReq b (rq_sink st) (rq_id st) (rq_own st) (rq_pc st).

(** The wait on the receiver: a decision, a closed channel, or [empty]. *)
Definition on_recv (st : ReqState) (empty : option ReqState) : option ReqState :=
  match try_recv (rq_broker st) (rq_id st) with
  | RecvOk r => Some (goto st (RqTake r))
  | RecvClosed => Some (goto st (RqRunning (Err ErrBrokerClosed)))
  | RecvEmpty => empty
  end.

(** One step of [request_approval]; [None] while it has to wait.  Each step is at
    most one critical section of the broker or of the event sink.
    [clock_deadline] is [system_deadline_unix_ms(timeout)]. *)
Definition req_step (st : ReqState) (wake : Wake) (clock_deadline : Z) : option ReqState :=
  let b := rq_broker st in
  match rq_pc st with
  | RqRegister request =>
      match register b request with
      | (b', Err error) => Some (goto (with_broker st b') (RqReturned (Err (ErrBroker error))))
      | (b', Ok registered) =>
          Some (mkReq b' (rq_sink st) (ar_id registered) (rq_own st) (RqPublishStatus registered))
      end
  | RqPublishStatus registered =>
      match publish st (TurnStatusChanged TurnWaitingForApproval) with
      | (st', Err error) => Some (goto st' (RqDenyResolve "status_event_failed" error))
      | (st', Ok _) => Some (goto st' (RqPublishRequest registered))
      end
  | RqPublishRequest registered =>
      match publish st (ApprovalRequested registered) with
      | (st', Err error) => Some (goto st' (RqDenyResolve "request_event_failed" error))
      | (st', Ok _) => Some (goto st' (if is_some (ab_timeout b) then RqTop None else RqAwait))
      end
  | RqDenyResolve resolved_by error =>
      Some (goto (with_broker st (resolve b (rq_id st) resolved_by [CapApproveOnce] Deny).1)
              (RqDenyTake error))
  | RqDenyTake error =>
      Some (goto (with_broker st (take_unemitted b (rq_id st)).1) (RqRunning (Err (ErrEvent error))))
  | RqAwait => on_recv st None
  | RqTop anchor => on_recv st (Some (goto st (RqCheck anchor)))
  | RqCheck anchor =>
      if has_eligible_client b (rq_id st) then
        Some (goto st (if is_some anchor then RqUpdate anchor true else RqSelect None true))
      else Some (goto st (RqUpdate (Some (default clock_deadline anchor)) false))
  | RqUpdate anchor eligible =>
      let deadline := default clock_deadline anchor in
      let '(b', changed) := update_deadline b (rq_id st) deadline eligible in
      Some (goto (with_broker st b')
              (if changed then RqEmitDeadline deadline eligible else RqSelect (Some deadline) eligible))
  | RqEmitDeadline deadline eligible =>
      Some (goto (publish st (ApprovalDeadlineChanged (rq_id st) deadline eligible)).1
              (RqSelect (Some deadline) eligible))
  | RqSelect anchor eligible =>
      on_recv st match wake, eligible with
                 | WakeEligibility, _ => Some (goto st (RqTop anchor))
                 | WakeDeadline, false => Some (goto st (RqTimeout anchor))
                 | WakeDeadline, true => None
                 end
  | RqTimeout anchor =>
      match resolve b (rq_id st) "approval_timeout" [CapApproveOnce] Deny with
      | (b', Ok r) => Some (goto (with_broker st b') (RqTake r))
      | (b', Err NotPending) => Some (goto (with_broker st b') (RqTop anchor))
      | (b', Err e) => Some (goto (with_broker st b') (RqReturned (Err (ErrBroker e))))
      end
  | RqTake resolution =>
      let '(b', unemitted) := take_unemitted b (rq_id st) in
      Some (goto (with_broker st b')
              match unemitted with
              | Some u => RqEmitResolved resolution u
              | None => RqRunning (Ok resolution)
              end)
  | RqEmitResolved resolution u =>
      Some (goto (publish st (ApprovalResolved (rs_approval_id u) (rs_decision u)
                                (rs_resolved_by u))).1 (RqRunning (Ok resolution)))
  | RqRunning outcome =>
      Some (goto (publish st (TurnStatusChanged TurnRunning)).1 (RqReturned outcome))
  | RqReturned _ => None
  end.

Definition request_start (b : ApprovalBroker) (s : S) (request : ApprovalRequest) : ReqState :=
  mkReq b s "" [] (RqRegister request).

(** The task and the rest of the session, interleaved: others operate on the
    broker and publish events of their own. *)
Inductive req_sys_step : ReqState → ReqState → Prop :=
  | req_sys_task st wake clock st' :
      req_step st wake clock = Some st' → req_sys_step st st'
  | req_sys_broker st op :
      req_sys_step st (with_broker st (broker_op (rq_broker st) op).1)
  | req_sys_emit st e :
      req_sys_step st (mkReq (rq_broker st) (sink_emit (rq_sink st) e).1 (rq_id st) (rq_own st)
                         (rq_pc st)).

(** A schedule of such steps, run one after the other. *)
Inductive ReqAct :=
  | ATask (wake : Wake) (clock_deadline : Z)
  | ABroker (op : BrokerOp)
  | AEmit (e : SessionEvent).

Fixpoint req_exec (st : ReqState) (acts : list ReqAct) : option ReqState :=
  match acts with
  | [] => Some st
  | ATask wake clock :: acts =>
      match req_step st wake clock with Some st' => req_exec st' acts | None => None end
  | ABroker op :: acts => req_exec (with_broker st (broker_op (rq_broker st) op).1) acts
  | AEmit e :: acts =>
      req_exec (mkReq (rq_broker st) (sink_emit (rq_sink st) e).1 (rq_id st) (rq_own st) (rq_pc st))
        acts
  end.

(** The task run alone. *)
Fixpoint req_run (n : nat) (wake : Wake) (clock_deadline : Z) (st : ReqState) : ReqState :=
  match n with
  | 0 => st
  | Datatypes.S n =>
      match req_step st wake clock_deadline with
      | Some st' => req_run n wake clock_deadline st'
      | None => st
      end
  end.

End request.
Arguments ReqState : clear implicits.

(** ** Approval ids *)

Lemma approval_sequence_id n : is_u64 n → approval_sequence (approval_id_of n) = n.
Proof.
  intros Hn. unfold approval_sequence, approval_id_of.
  by rewrite strip_prefix_app, parse_u64_to_string.
Qed.

Lemma approval_id_inj n m : is_u64 n → is_u64 m → approval_id_of n = approval_id_of m → n = m.
Proof.
  intros Hn Hm He. rewrite <- (approval_sequence_id n), <- (approval_sequence_id m) by done.
  by rewrite He.
Qed.

(** ** The invariant of the broker *)

(** [issued b id]: the broker has handed [id] out. *)
Definition issued (b : ApprovalBroker) (id : string) : Prop :=
  ∃ n, (1 ≤ n ≤ ab_next_id b)%Z ∧ id = approval_id_of n.

(** The state of the broker after some resolutions have been [claimed]: every
    issued request is pending or answered and not both; every answer is waiting
    to be emitted or claimed and not both. *)
Record accounted (b : ApprovalBroker) (claimed : list ApprovalResolution) : Prop := {
  acc_range : is_u64 (ab_next_id b);
  acc_issued : ∀ id, issued b id ↔ is_Some (ab_pending b !! id) ∨ is_Some (ab_sent b !! id);
  acc_disjoint : ∀ id, is_Some (ab_pending b !! id) → ab_sent b !! id = None;
  acc_pending_id : ∀ id r, ab_pending b !! id = Some r → ar_id r = id;
  acc_unemitted_sent : ∀ id r, ab_unemitted b !! id = Some r → ab_sent b !! id = Some r;
  acc_sent_id : ∀ id r, ab_sent b !! id = Some r → rs_approval_id r = id;
  acc_claimed : ∀ id r,
    ab_sent b !! id = Some r ∧ ab_unemitted b !! id = None ↔ r ∈ claimed ∧ rs_approval_id r = id;
  acc_nodup : NoDup (rs_approval_id <$> claimed);
}.

Lemma accounted_new aa t : accounted (broker_new aa t) [].
Proof.
  split; simpl; try (intros *; rewrite ?lookup_empty; naive_solver); try done.
  - intros id. rewrite !lookup_empty. split; [|by intros [[? [=]]|[? [=]]]].
    intros (n&?&_); simpl in *; lia.
  - intros id r. rewrite lookup_empty, elem_of_nil. naive_solver.
  - constructor.
Qed.

Lemma accounted_answer b c id r u :
  accounted b c → ab_pending b !! id = Some u → rs_approval_id r = id →
  accounted (with_state b (delete id (ab_pending b)) (<[id := r]> (ab_unemitted b))
               (<[id := r]> (ab_sent b))) c.
Proof.
  intros [] Hp Hr. assert (ab_sent b !! id = None) as Hs by eauto.
  split; simpl; try done.
  - intros id'. destruct (decide (id = id')) as [<-|Hne].
    + rewrite lookup_insert, decide_True by done. split; [eauto|]. intros _.
      apply (acc_issued0 id). eauto.
    + rewrite lookup_insert_ne, lookup_delete_ne by done. apply (acc_issued0 id').
  - intros id' [r' [Hne ?]%lookup_delete_Some]. rewrite lookup_insert_ne by done. eauto.
  - intros id' r' [_ ?]%lookup_delete_Some. eauto.
  - intros id' r'. rewrite !lookup_insert_Some. naive_solver.
  - intros id' r'. rewrite !lookup_insert_Some. naive_solver.
  - intros id' r'. rewrite lookup_insert_Some, lookup_insert_None. rewrite <- acc_claimed0.
    split; [naive_solver|]. intros [??]. split; [|naive_solver]. right. naive_solver.
Qed.

Lemma accounted_register b c request :
  accounted b c → accounted (register b request).1 c.
Proof.
  intros Ha. unfold register. destruct (u64_checked_add _ _) as [n|] eqn:E; [|done].
  apply u64_checked_add_Some in E as [-> Hle]. destruct Ha. unfold is_u64 in *.
  set (n := (ab_next_id b + 1)%Z) in *. set (id := approval_id_of n).
  assert (¬ issued b id) as Hfresh.
  { intros (m&?&He). apply approval_id_inj in He; unfold is_u64 in *; lia. }
  assert (ab_pending b !! id = None ∧ ab_sent b !! id = None) as [Hp Hs].
  { rewrite !eq_None_not_Some. split; intros ?; apply Hfresh, acc_issued0; eauto. }
  split; simpl; try done.
  - split; [lia|]. done.
  - intros id'. destruct (decide (id = id')) as [<-|Hne].
    + rewrite lookup_insert, decide_True by done. split; [eauto|]. intros _. exists n; simpl. split; [lia|done].
    + rewrite lookup_insert_ne by done. rewrite <- (acc_issued0 id'). split.
      * intros (m&Hm&->). exists m. split; [|done]. simpl in Hm.
        assert (m ≠ n) by (intros ->; done). lia.
      * intros (m&Hm&->). exists m. simpl. split; [lia|done].
  - intros id' [r' [[<- _]|[_ ?]]%lookup_insert_Some]; eauto.
  - intros id' r. rewrite lookup_insert_Some. naive_solver.
Qed.

Lemma accounted_update_deadline b c id d p :
  accounted b c → accounted (update_deadline b id d p).1 c.
Proof.
  intros []. unfold update_deadline.
  destruct (ab_pending b !! id) as [r|] eqn:E; [|by split].
  case_match; [by split|]. split; simpl; try done.
  - intros id'. rewrite (acc_issued0 id'). destruct (decide (id = id')) as [<-|Hne].
    + rewrite E, lookup_insert, decide_True by done. naive_solver.
    + by rewrite lookup_insert_ne.
  - intros id' [r' [[<- _]|[_ ?]]%lookup_insert_Some]; eauto.
  - intros id' r'. rewrite lookup_insert_Some. naive_solver.
Qed.

Lemma accounted_resolve b c id by_ caps d :
  accounted b c → accounted (resolve b id by_ caps d).1 c.
Proof.
  intros Ha. unfold resolve. case_match; [done|].
  destruct (ab_pending b !! id) as [r|] eqn:E; [|done].
  case_match; [done|]. simpl. by eapply accounted_answer.
Qed.

Lemma accounted_take b c id :
  accounted b c →
  accounted (take_unemitted b id).1 (c ++ option_list (take_unemitted b id).2).
Proof.
  intros []. unfold take_unemitted. simpl. split; simpl; try done.
  - intros id' r [_ ?]%lookup_delete_Some. eauto.
  - intros id' r. rewrite lookup_delete_None, elem_of_app. split.
    + intros [Hs [<-|Hn]]; [|naive_solver].
      destruct (ab_unemitted b !! id) as [u|] eqn:E; [|naive_solver].
      pose proof (acc_unemitted_sent0 _ _ E). simplify_eq. split; [right; simpl; set_solver|eauto].
    + intros [[Hc|Hu] Hid]; [naive_solver|].
      destruct (ab_unemitted b !! id) as [u|] eqn:E; simpl in Hu; [|set_solver].
      assert (r = u) as -> by set_solver. pose proof (acc_unemitted_sent0 _ _ E).
      pose proof (acc_sent_id0 _ _ H). naive_solver.
  - rewrite fmap_app. destruct (ab_unemitted b !! id) as [u|] eqn:E; simpl; [|by rewrite app_nil_r].
    apply NoDup_app. split; [done|]. split; [|apply NoDup_singleton].
    intros x (r&->&Hr)%list_elem_of_fmap. rewrite list_elem_of_singleton. intros He.
    destruct (proj2 (acc_claimed0 _ r) (conj Hr eq_refl)) as [_ Hn].
    rewrite He, (acc_sent_id0 _ _ (acc_unemitted_sent0 _ _ E)) in Hn. congruence.
Qed.

Lemma lookup_send_all (l : list ApprovalResolution) (m : gmap string ApprovalResolution) id r :
  NoDup (rs_approval_id <$> l) →
  foldl (λ m r, <[rs_approval_id r := r]> m) m l !! id = Some r ↔
  (r ∈ l ∧ rs_approval_id r = id) ∨ ((id ∉ rs_approval_id <$> l) ∧ m !! id = Some r).
Proof.
  revert m. induction l as [|x l IH]; intros m; simpl.
  - rewrite !elem_of_nil. naive_solver.
  - intros [Hx Hl]%NoDup_cons. rewrite IH by done.
    rewrite lookup_insert_Some, !elem_of_cons. split.
    + intros [[??]|[? [[??]|[??]]]]; [naive_solver|naive_solver|naive_solver].
    + intros [[[->|?] ?]|[??]]; [|naive_solver|naive_solver].
      right. split; [by subst|naive_solver].
Qed.

(** The denials of [cancel_all]. *)
Definition denials (b : ApprovalBroker) (resolved_by : string) : list ApprovalResolution :=
  map (λ p : string * ApprovalRequest, mkResolution p.1 (ar_tool p.2) Deny resolved_by)
    (sort_by (λ l r : string * ApprovalRequest, seq_leb l.1 r.1) (map_to_list (ab_pending b))).

Lemma elem_of_denials b by_ r :
  r ∈ denials b by_ ↔
  ∃ q, ab_pending b !! rs_approval_id r = Some q ∧ r = mkResolution (rs_approval_id r) (ar_tool q) Deny by_.
Proof.
  unfold denials. change (@map) with (@fmap list _). rewrite list_elem_of_fmap.
  setoid_rewrite sort_by_perm. split.
  - intros ([id q]&->&Hq). apply elem_of_map_to_list in Hq. eauto.
  - intros (q&Hq&->). exists (rs_approval_id r, q). split; [done|]. by apply elem_of_map_to_list.
Qed.

Lemma NoDup_denials b by_ : NoDup (rs_approval_id <$> denials b by_).
Proof.
  unfold denials. change (@map) with (@fmap list _). rewrite <- list_fmap_compose, sort_by_perm.
  apply (NoDup_fst_map_to_list (ab_pending b)).
Qed.

Lemma lookup_sent_cancel_all b c by_ id r :
  accounted b c →
  ab_sent (cancel_all b by_).1 !! id = Some r ↔
  (r ∈ denials b by_ ∧ rs_approval_id r = id) ∨ ab_sent b !! id = Some r.
Proof.
  intros []. unfold cancel_all. fold (denials b by_). simpl.
  rewrite lookup_send_all by apply NoDup_denials. split; [naive_solver|].
  intros [?|Hs]; [by left|]. right. split; [|done].
  intros (r'&->&(q&Hq&_)%elem_of_denials)%list_elem_of_fmap. naive_solver.
Qed.

Lemma elem_of_unemitted b c r :
  accounted b c →
  r ∈ map snd (map_to_list (ab_unemitted b)) ↔ ab_unemitted b !! rs_approval_id r = Some r.
Proof.
  intros []. change (@map) with (@fmap list _). rewrite list_elem_of_fmap. split.
  - intros ([id' r']&->&Hr%elem_of_map_to_list). simpl.
    by rewrite (acc_sent_id0 _ _ (acc_unemitted_sent0 _ _ Hr)).
  - intros Hr. exists (rs_approval_id r, r). split; [done|]. by apply elem_of_map_to_list.
Qed.

(** What [cancel_all] claims: a denial of every pending request and every
    resolution that was not yet emitted. *)
Lemma elem_of_cancel_all b c by_ r :
  accounted b c →
  r ∈ (cancel_all b by_).2 ↔ r ∈ denials b by_ ∨ ab_unemitted b !! rs_approval_id r = Some r.
Proof.
  intros Ha. unfold cancel_all. fold (denials b by_). simpl.
  by rewrite sort_by_perm, elem_of_app, (elem_of_unemitted _ c).
Qed.

Lemma NoDup_cancel_all b c by_ :
  accounted b c → NoDup (rs_approval_id <$> (cancel_all b by_).2).
Proof.
  intros Ha. unfold cancel_all. fold (denials b by_). simpl.
  rewrite sort_by_perm, fmap_app. apply NoDup_app. split; [apply NoDup_denials|]. split.
  - intros x (r&->&(q&Hq&_)%elem_of_denials)%list_elem_of_fmap
      (u&Hu&Hm%(elem_of_unemitted b c))%list_elem_of_fmap; [|done].
    destruct Ha. rewrite <- Hu in Hm. apply acc_unemitted_sent0 in Hm.
    rewrite acc_disjoint0 in Hm; naive_solver.
  - change (@map) with (@fmap list _). rewrite <- list_fmap_compose.
    erewrite list_fmap_ext; [apply (NoDup_fst_map_to_list (ab_unemitted b))|].
    intros i [id r] Hi%list_elem_of_lookup_2%elem_of_map_to_list. simpl. destruct Ha. eauto.
Qed.

Lemma accounted_cancel_all b c by_ :
  accounted b c → accounted (cancel_all b by_).1 (c ++ (cancel_all b by_).2).
Proof.
  intros Ha. pose proof (λ id r, lookup_sent_cancel_all b c by_ id r Ha) as Hs.
  pose proof (λ r, elem_of_cancel_all b c by_ r Ha) as Hc.
  pose proof (NoDup_cancel_all b c by_ Ha) as Hnd.
  set (b' := (cancel_all b by_).1) in *. set (l := (cancel_all b by_).2) in *.
  assert (ab_pending b' = ∅ ∧ ab_unemitted b' = ∅ ∧ ab_next_id b' = ab_next_id b) as (Hp&Hu&Hn)
    by done. destruct Ha.
  split; rewrite ?Hp, ?Hu, ?Hn; try done.
  - intros id. unfold issued. rewrite Hn. fold (issued b id). rewrite acc_issued0, lookup_empty.
    split.
    + intros [[q Hq]|[r Hr]]; right.
      * exists (mkResolution id (ar_tool q) Deny by_). apply Hs. left. split; [|done].
        apply elem_of_denials. simpl. eauto.
      * exists r. apply Hs. by right.
    + intros [[? [=]]|[r [[(q&Hq&_)%elem_of_denials <-]|Hr]%Hs]]; eauto.
  - intros id. rewrite lookup_empty. by intros [? [=]].
  - intros id r [[_ ?]|?]%Hs; eauto.
  - intros id r. rewrite Hs, lookup_empty, elem_of_app, Hc. split.
    + intros [[[??]|Hr] _]; [naive_solver|].
      pose proof (acc_sent_id0 _ _ Hr) as Hid. split; [|done].
      destruct (ab_unemitted b !! id) as [u|] eqn:E; [|left; naive_solver].
      pose proof (acc_unemitted_sent0 _ _ E). simplify_eq. auto.
    + intros [[Hr|[Hr|Hr]] Hid]; split; try done; [right; naive_solver|naive_solver|].
      right. subst. eauto.
  - rewrite fmap_app. apply NoDup_app. split; [done|]. split; [|done].
    intros x (r&->&Hr)%list_elem_of_fmap (u&He&Hu')%list_elem_of_fmap.
    destruct (proj2 (acc_claimed0 _ r) (conj Hr eq_refl)) as [Hsent Hno].
    apply Hc in Hu' as [(q&Hq&_)%elem_of_denials|Hu']; rewrite <- He in *; [|congruence].
    rewrite acc_disjoint0 in Hsent; naive_solver.
Qed.

Lemma accounted_op b c op :
  accounted b c → accounted (broker_op b op).1 (c ++ (broker_op b op).2).
Proof.
  intros Ha. destruct op as [r|id d p|id by_ caps d|id|by_|o a]; simpl; rewrite ?app_nil_r.
  - by apply accounted_register.
  - by apply accounted_update_deadline.
  - by apply accounted_resolve.
  - by apply (accounted_take b c id).
  - by apply accounted_cancel_all.
  - by destruct Ha; split.
Qed.

Lemma accounted_run b c ops :
  accounted b c → accounted (broker_run b ops).1 (c ++ (broker_run b ops).2).
Proof.
  revert b c. induction ops as [|op ops IH]; intros b c Ha; simpl; [by rewrite app_nil_r|].
  pose proof (accounted_op b c op Ha) as H1. destruct (broker_op b op) as [b1 c1]; simpl in *.
  specialize (IH _ _ H1). destruct (broker_run b1 ops) as [b2 c2]; simpl in *. by rewrite app_assoc.
Qed.

(** ** Decisions are final and claimed once *)

Lemma answered_not_pending b c id r :
  accounted b c → ab_sent b !! id = Some r → ab_pending b !! id = None.
Proof.
  intros [] Hs. destruct (ab_pending b !! id) eqn:E; [|done]. rewrite acc_disjoint0 in Hs; eauto; done.
Qed.

Lemma sent_stable_op b c op id r :
  accounted b c → ab_sent b !! id = Some r → ab_sent (broker_op b op).1 !! id = Some r.
Proof.
  intros Ha Hs. pose proof (answered_not_pending b c id r Ha Hs) as Hp.
  destruct op as [q|id' d p|id' by_ caps d|id'|by_|o a]; simpl; try done.
  - unfold register. by case_match.
  - unfold update_deadline. by repeat case_match.
  - unfold resolve. repeat case_match; try done. simpl.
    rewrite lookup_insert_ne; [done|]. intros ->. congruence.
  - apply (lookup_sent_cancel_all b c by_ id r Ha). by right.
Qed.

Lemma sent_stable_run b c ops id r :
  accounted b c → ab_sent b !! id = Some r → ab_sent (broker_run b ops).1 !! id = Some r.
Proof.
  revert b c. induction ops as [|op ops IH]; intros b c Ha Hs; simpl; [done|].
  pose proof (accounted_op b c op Ha) as H1. pose proof (sent_stable_op b c op id r Ha Hs) as H2.
  destruct (broker_op b op) as [b1 c1]; simpl in *.
  specialize (IH _ _ H1 H2). by destruct (broker_run b1 ops).
Qed.

Lemma approval_id_issued b id : is_u64 (ab_next_id b) → issued b id → (approval_sequence id ≤ ab_next_id b)%Z.
Proof.
  intros Hr (n&Hn&->). unfold is_u64 in *. rewrite approval_sequence_id; unfold is_u64; lia.
Qed.

Lemma resolve_answered b c id by_ caps d r :
  accounted b c → ab_sent b !! id = Some r →
  resolve b id by_ caps d =
    (b, Err (if has_capability caps (required_capability d) then AlreadyResolved
             else MissingCapability (required_capability d))).
Proof.
  intros Ha Hs. pose proof (answered_not_pending b c id r Ha Hs) as Hp.
  unfold resolve. rewrite Hp. destruct (has_capability _ _); simpl; [|done].
  rewrite (proj2 (Z.leb_le _ _)); [done|]. apply approval_id_issued; [by destruct Ha|].
  destruct Ha. apply acc_issued0. eauto.
Qed.

(** C17: Over any sequence of broker operations, each approval handed out is in
    exactly one of three states: waiting for a decision; decided and waiting to
    be emitted; decided and claimed.  No resolution is claimed twice, a claimed or
    unemitted resolution is the one that was sent to the waiting task, and
    nothing is claimed that was not requested. *)
Theorem approvals_claimed_exactly_once aa timeout ops :
  let '(b, claimed) := broker_run (broker_new aa timeout) ops in
  NoDup (rs_approval_id <$> claimed) ∧
  (∀ r, r ∈ claimed → ∃ n, (1 ≤ n ≤ ab_next_id b)%Z ∧ rs_approval_id r = approval_id_of n) ∧
  ∀ n, (1 ≤ n ≤ ab_next_id b)%Z →
    let id := approval_id_of n in
    (is_Some (ab_pending b !! id) ∧ ab_sent b !! id = None ∧ ab_unemitted b !! id = None ∧
       id ∉ (rs_approval_id <$> claimed)) ∨
    (∃ r, ab_pending b !! id = None ∧ ab_sent b !! id = Some r ∧ ab_unemitted b !! id = Some r ∧
       id ∉ (rs_approval_id <$> claimed)) ∨
    (∃ r, ab_pending b !! id = None ∧ ab_sent b !! id = Some r ∧ ab_unemitted b !! id = None ∧
       r ∈ claimed ∧ rs_approval_id r = id).
Proof.
  pose proof (accounted_run _ [] ops (accounted_new aa timeout)) as Ha. simpl in Ha.
  destruct (broker_run _ ops) as [b c]. simpl in Ha.
  pose proof (λ id r, answered_not_pending b c id r Ha) as Hans. destruct Ha. split; [done|]. split.
  - intros r Hr. apply acc_issued0. right.
    destruct (proj2 (acc_claimed0 _ r) (conj Hr eq_refl)) as [? _]. eauto.
  - intros n Hn id.
    assert (ab_sent b !! id = None ∨ is_Some (ab_unemitted b !! id) → id ∉ (rs_approval_id <$> c)) as Hno.
    { intros Hor (r&Hid&Hr)%list_elem_of_fmap.
      destruct (proj2 (acc_claimed0 id r) (conj Hr (eq_sym Hid))) as [Hs Hu].
      rewrite Hs, Hu in Hor. by destruct Hor as [?|[? ?]]. }
    assert (issued b id) as Hi by (exists n; eauto).
    apply acc_issued0 in Hi as [Hp|[r Hs]].
    + left. pose proof (acc_disjoint0 _ Hp) as Hs. split; [done|]. split; [done|]. split; [|auto].
      destruct (ab_unemitted b !! id) as [u|] eqn:E; [|done]. apply acc_unemitted_sent0 in E. congruence.
    + right. pose proof (Hans _ _ Hs) as Hp.
      destruct (ab_unemitted b !! id) as [u|] eqn:E.
      * left. pose proof (acc_unemitted_sent0 _ _ E). simplify_eq. eauto 10.
      * right. exists r. destruct (proj1 (acc_claimed0 id r) (conj Hs E)). auto.
Qed.

(** The first accepted decision of an approval is final: it is the one the
    waiting task receives, whatever happens afterwards, and every later attempt
    is refused without changing the broker. *)
Theorem first_decision_wins aa timeout ops id by_ caps d b1 r later by' caps' d' :
  resolve (broker_run (broker_new aa timeout) ops).1 id by_ caps d = (b1, Ok r) →
  let b2 := (broker_run b1 later).1 in
  r = mkResolution id (rs_tool r) d by_ ∧ try_recv b2 id = RecvOk r ∧
  resolve b2 id by' caps' d' =
    (b2, Err (if has_capability caps' (required_capability d') then AlreadyResolved
              else MissingCapability (required_capability d'))).
Proof.
  intros He. pose proof (accounted_run _ [] ops (accounted_new aa timeout)) as Ha. simpl in Ha.
  set (b := (broker_run (broker_new aa timeout) ops).1) in *. set (c := (broker_run _ ops).2) in *.
  pose proof (accounted_resolve b c id by_ caps d Ha) as H1. rewrite He in H1. simpl in H1.
  assert (r = mkResolution id (rs_tool r) d by_ ∧ ab_sent b1 !! id = Some r) as [Hr Hs].
  { unfold resolve in He. repeat case_match; simplify_eq/=. by rewrite lookup_insert, decide_True. }
  pose proof (accounted_run b1 c later H1) as H2.
  pose proof (sent_stable_run b1 c later id r H1 Hs) as Hs2. simpl.
  split; [done|]. split; [unfold try_recv; by rewrite Hs2|]. by eapply resolve_answered.
Qed.

(** ** Decisions that allow a call *)

(** Where the permissions in the broker come from, given the operations so far. *)
Record justified (aa : bool) (ops : list BrokerOp) (b : ApprovalBroker) : Prop := {
  just_aa : ab_allow_always b = aa;
  just_pending : ∀ id q, ab_pending b !! id = Some q →
    ∃ request, BRegister request ∈ ops ∧ ar_tool request = ar_tool q ∧
      (ar_allow_always_available q = true →
         aa = true ∧ ar_allow_always_available request = true);
  just_sent : ∀ id r, ab_sent b !! id = Some r →
    ∃ request, BRegister request ∈ ops ∧ ar_tool request = rs_tool r ∧
      (rs_decision r ≠ Deny → ∃ caps, BResolve id (rs_resolved_by r) caps (rs_decision r) ∈ ops ∧
         has_capability caps (required_capability (rs_decision r)) = true) ∧
      (rs_decision r = AllowAlways → aa = true ∧ ar_allow_always_available request = true);
}.

Lemma justified_resolve aa ops b id by_ caps d :
  justified aa ops b → BResolve id by_ caps d ∈ ops → justified aa ops (resolve b id by_ caps d).1.
Proof.
  intros [] Hop. unfold resolve. destruct (has_capability _ _) eqn:Hc; simpl; [|by split].
  destruct (ab_pending b !! id) as [q|] eqn:E; simpl; [|by split].
  case_match eqn:Ha; simpl; [by split|]. split; simpl; [done| |].
  - intros id' q' [_ ?]%lookup_delete_Some. eauto.
  - intros id' r [[<- <-]|[_ ?]]%lookup_insert_Some; [|eauto]. simpl.
    destruct (just_pending0 id q E) as (request&?&?&Haa). exists request. split_and!; eauto.
    intros ->. apply Haa. simpl in Ha. by destruct (ar_allow_always_available q).
Qed.

Lemma justified_cancel_all aa ops b c by_ :
  accounted b c → justified aa ops b → justified aa ops (cancel_all b by_).1.
Proof.
  intros Ha []. split; [done|by intros id q; simpl; rewrite lookup_empty|].
  intros id r [[(q&Hq&->)%elem_of_denials Hid]|Hr]%(lookup_sent_cancel_all b c); [|eauto|done].
  simpl in *. destruct (just_pending0 _ _ Hq) as (request&?&?&?). exists request. by split_and!.
Qed.

Lemma justified_op aa ops b c op :
  accounted b c → justified aa ops b → op ∈ ops → justified aa ops (broker_op b op).1.
Proof.
  intros Ha Hj Hop. destruct op as [q|id d p|id by_ caps d|id|by_|o a]; simpl.
  - unfold register. case_match; [|done]. destruct Hj. split; simpl; [done| |done].
    intros id q' [[<- <-]|[_ ?]]%lookup_insert_Some; [|eauto]. exists q. simpl. split_and!; [done..|].
    rewrite just_aa0. by intros [??]%andb_true_iff.
  - unfold update_deadline. repeat case_match; try done. destruct Hj. split; simpl; [done| |done].
    intros id' q' [[<- <-]|[_ ?]]%lookup_insert_Some; [|eauto].
    apply (just_pending0 _ _ ltac:(eassumption)).
  - by apply justified_resolve.
  - by destruct Hj.
  - by eapply justified_cancel_all.
  - by destruct Hj.
Qed.

Lemma justified_run aa ops b c later :
  accounted b c → justified aa (ops ++ later) b → justified aa (ops ++ later) (broker_run b later).1.
Proof.
  revert ops b c. induction later as [|op later IH]; intros ops b c Ha Hj; simpl; [done|].
  pose proof (accounted_op b c op Ha) as H1.
  pose proof (justified_op aa _ b c op Ha Hj ltac:(set_solver)) as H2.
  destruct (broker_op b op) as [b1 c1]; simpl in *.
  rewrite cons_middle, app_assoc in H2 |- *. specialize (IH _ _ _ H1 H2).
  by destruct (broker_run b1 later).
Qed.

(** The broker fails closed.  A decision that allows a call was made by a
    [resolve] for that approval whose client holds the capability the decision
    needs, for the tool a request named; an [AllowAlways] needs in addition that
    both the session and the request offered it. *)
Theorem approval_decisions_justified aa timeout ops id r :
  let b := (broker_run (broker_new aa timeout) ops).1 in
  try_recv b id = RecvOk r →
  ∃ request, BRegister request ∈ ops ∧ ar_tool request = rs_tool r ∧
    (rs_decision r ≠ Deny → ∃ caps, BResolve id (rs_resolved_by r) caps (rs_decision r) ∈ ops ∧
       has_capability caps (required_capability (rs_decision r)) = true) ∧
    (rs_decision r = AllowAlways → aa = true ∧ ar_allow_always_available request = true).
Proof.
  intros b Hs. unfold try_recv in Hs. repeat case_match; simplify_eq.
  assert (justified aa ops (broker_new aa timeout)) as Hj.
  { split; simpl; [done|intros id' q|intros id' q]; by rewrite lookup_empty. }
  pose proof (justified_run aa [] _ [] ops (accounted_new aa timeout) Hj) as []. eauto.
Qed.

(** ** What a request publishes and returns *)

Section request_proofs.
Context {S : Type} `{EventSink S}.
Implicit Types (st : ReqState S) (own : list SessionEvent).

(** The request was published, and then deadline changes that all report the one
    anchored deadline. *)
Definition waited (id : string) (anchor : option Z) own : Prop :=
  ∃ registered ds, ar_id registered = id ∧
    own = [TurnStatusChanged TurnWaitingForApproval; ApprovalRequested registered] ++ ds ∧
    ∀ e, e ∈ ds → ∃ d p, anchor = Some d ∧ e = ApprovalDeadlineChanged id d p.

(** The publication of the request was attempted and failed. *)
Definition not_published (id : string) own : Prop :=
  own = [TurnStatusChanged TurnWaitingForApproval] ∨
  ∃ registered, ar_id registered = id ∧
    own = [TurnStatusChanged TurnWaitingForApproval; ApprovalRequested registered].

Definition resolved_event (r : ApprovalResolution) : SessionEvent :=
  ApprovalResolved (rs_approval_id r) (rs_decision r) (rs_resolved_by r).

(** The decision has been received, and emitted unless another party claimed it. *)
Definition decided (id : string) (r : ApprovalResolution) own : Prop :=
  ∃ anchor own0, waited id anchor own0 ∧ (own = own0 ∨ own = own0 ++ [resolved_event r]).

Definition outcome_ok (b : ApprovalBroker) (id : string)
    (outcome : result ApprovalResolution ApprovalRequestError) own : Prop :=
  match outcome with
  | Ok r => ab_sent b !! id = Some r ∧ decided id r own
  | Err (ErrEvent _) => not_published id own
  | _ => False
  end.

Definition pc_ok (b : ApprovalBroker) (id : string) own (pc : ReqPc) : Prop :=
  match pc with
  | RqRegister _ => own = []
  | RqPublishStatus registered => ar_id registered = id ∧ own = [] ∧ issued b id
  | RqPublishRequest registered =>
      ar_id registered = id ∧ own = [TurnStatusChanged TurnWaitingForApproval] ∧ issued b id
  | RqDenyResolve _ _ | RqDenyTake _ => not_published id own
  | RqAwait => waited id None own ∧ issued b id
  | RqTop anchor | RqCheck anchor | RqUpdate anchor _ | RqSelect anchor _ | RqTimeout anchor =>
      waited id anchor own ∧ issued b id
  | RqEmitDeadline d _ => waited id (Some d) own ∧ issued b id
  | RqTake r => ab_sent b !! id = Some r ∧ ∃ anchor, waited id anchor own
  | RqEmitResolved r u => ab_sent b !! id = Some r ∧ u = r ∧ ∃ anchor, waited id anchor own
  | RqRunning outcome => outcome_ok b id outcome own
  | RqReturned (Err (ErrBroker IdExhausted)) => own = []
  | RqReturned (Err (ErrBroker AlreadyResolved)) =>
      is_Some (ab_sent b !! id) ∧ ∃ anchor, waited id anchor own
  | RqReturned outcome =>
      ∃ own0, own = own0 ++ [TurnStatusChanged TurnRunning] ∧ outcome_ok b id outcome own0
  end.

Definition req_inv st : Prop :=
  (∃ c, accounted (rq_broker st) c) ∧ pc_ok (rq_broker st) (rq_id st) (rq_own st) (rq_pc st).

(** [pc_ok] only depends on what has been handed out and answered. *)
Lemma pc_ok_mono b b' id own pc :
  (∀ i, issued b i → issued b' i) →
  (∀ i r, ab_sent b !! i = Some r → ab_sent b' !! i = Some r) →
  pc_ok b id own pc → pc_ok b' id own pc.
Proof.
  intros Hi Hs. assert (∀ o w, outcome_ok b id o w → outcome_ok b' id o w) as Ho.
  { intros [r|[]] w; simpl; naive_solver. }
  destruct pc as [| | | | | | | | | | | | | | |[r|[[]| |]]]; simpl; try naive_solver.
  all: unfold is_Some; naive_solver.
Qed.

Lemma issued_op b op id : issued b id → issued (broker_op b op).1 id.
Proof.
  intros (n&Hn&->). exists n. split; [|done].
  destruct op; simpl; try done.
  - unfold register. case_match eqn:E; [|done]. apply u64_checked_add_Some in E. simpl. lia.
  - unfold update_deadline. by repeat case_match.
  - unfold resolve. by repeat case_match.
Qed.

Lemma try_recv_issued b c id :
  accounted b c → issued b id →
  (∃ r, try_recv b id = RecvOk r ∧ ab_sent b !! id = Some r) ∨
  (try_recv b id = RecvEmpty ∧ is_Some (ab_pending b !! id)).
Proof.
  intros [] Hi. unfold try_recv. apply acc_issued0 in Hi. unfold is_some.
  destruct Hi as [[q Hq]|[r Hr]]; [|rewrite Hr; eauto]. rewrite acc_disjoint0, Hq by eauto. eauto.
Qed.

Lemma deny_issued b c id by_ :
  accounted b c → issued b id →
  (∃ b' r, resolve b id by_ [CapApproveOnce] Deny = (b', Ok r) ∧ ab_sent b' !! id = Some r) ∨
  (is_Some (ab_sent b !! id) ∧ resolve b id by_ [CapApproveOnce] Deny = (b, Err AlreadyResolved)).
Proof.
  intros Ha Hi. destruct (proj1 (acc_issued b c Ha id) Hi) as [[q Hq]|[r Hr]].
  - left. unfold resolve. rewrite Hq. simpl. do 2 eexists. split; [done|]. simpl.
    by rewrite lookup_insert, decide_True.
  - right. split; [eauto|]. by rewrite (resolve_answered b c id by_ [CapApproveOnce] Deny r).
Qed.

Lemma req_start_inv b c (s : S) request : accounted b c → req_inv (request_start b s request).
Proof. intros. split; [by exists c|done]. Qed.

Lemma waited_anchor id d own : waited id None own → waited id (Some d) own.
Proof. intros (reg&ds&?&?&Hds). exists reg, ds. split_and!; [done..|]. naive_solver. Qed.

Lemma waited_snoc id d p own :
  waited id (Some d) own → waited id (Some d) (own ++ [ApprovalDeadlineChanged id d p]).
Proof.
  intros (reg&ds&?&->&Hds). exists reg, (ds ++ [ApprovalDeadlineChanged id d p]).
  split_and!; [done|by rewrite <- !app_assoc|]. intros e [?|?]%elem_of_app; [eauto|].
  exists d, p. set_solver.
Qed.

Lemma publish_fields st e :
  rq_broker (publish st e).1 = rq_broker st ∧ rq_id (publish st e).1 = rq_id st ∧
  rq_own (publish st e).1 = rq_own st ++ [e].
Proof. unfold publish. by destruct (sink_emit (rq_sink st) e). Qed.

(** Receiving leads to [RqTake] or to the wait that follows an empty channel. *)
Lemma on_recv_inv st empty st' :
  req_inv st → issued (rq_broker st) (rq_id st) → (∃ anchor, waited (rq_id st) anchor (rq_own st)) →
  (∀ st0, empty = Some st0 → req_inv st0) →
  on_recv st empty = Some st' → req_inv st'.
Proof.
  intros [[c Ha] _] Hi Hw Hempty. unfold on_recv.
  destruct (try_recv_issued _ c _ Ha Hi) as [(r&->&Hr)|[-> _]]; [|auto].
  intros [= <-]. split; [by exists c|]. by simpl.
Qed.

(** A step that only changes where the task is. *)
Lemma goto_inv st pc :
  req_inv st → pc_ok (rq_broker st) (rq_id st) (rq_own st) pc → req_inv (goto st pc).
Proof. by intros [Ha _] Hpc. Qed.

(** A step that performs one broker operation. *)
Lemma broker_step_inv st op pc :
  req_inv st → pc_ok (broker_op (rq_broker st) op).1 (rq_id st) (rq_own st) pc →
  req_inv (goto (with_broker st (broker_op (rq_broker st) op).1) pc).
Proof.
  intros [[c Ha] _] Hpc. split; [|done]. simpl. eexists. by apply accounted_op.
Qed.

(** A step that publishes one event. *)
Lemma publish_step_inv st e pc :
  req_inv st → pc_ok (rq_broker st) (rq_id st) (rq_own st ++ [e]) pc →
  req_inv (goto (publish st e).1 pc).
Proof.
  intros [[c Ha] _] Hpc. destruct (publish_fields st e) as (Hb&Hid&Hown).
  split; simpl; rewrite ?Hb, ?Hid, ?Hown; [by exists c|done].
Qed.

Lemma req_register_inv st request wake clock st' :
  req_inv st → rq_pc st = RqRegister request → req_step st wake clock = Some st' → req_inv st'.
Proof.
  intros [[c Ha] Hpc] Epc. unfold req_step. rewrite Epc in *. simpl in Hpc.
  pose proof (accounted_register _ c request Ha) as Ha'. unfold register in *.
  destruct (u64_checked_add _ _) as [n|] eqn:E; intros [= <-].
  - apply u64_checked_add_Some in E as [-> ?]. split; [by exists c|]. simpl. split_and!; try done.
    exists (ab_next_id (rq_broker st) + 1)%Z. simpl. split; [|done]. destruct Ha. unfold is_u64 in *. lia.
  - split; [by exists c|]. done.
Qed.

Lemma req_publish_inv st wake clock st' :
  req_inv st →
  match rq_pc st with
  | RqPublishStatus _ | RqPublishRequest _ | RqEmitDeadline _ _ | RqEmitResolved _ _
  | RqRunning _ => True
  | _ => False
  end →
  req_step st wake clock = Some st' → req_inv st'.
Proof.
  intros Hinv Hk. pose proof Hinv as [_ Hpc]. unfold req_step.
  destruct (rq_pc st) as [|reg|reg| | | | | | |d p| | | |r u|o|]; try done; simpl in Hpc.
  - destruct Hpc as (Hreg&Hown&?).
    destruct (publish st _) as [st1 [n|err]] eqn:E; intros [= <-];
      apply (f_equal fst) in E; simpl in E; subst st1; apply publish_step_inv; try done; rewrite Hown.
    + done.
    + by left.
  - destruct Hpc as (Hreg&Hown&Hi).
    destruct (publish st _) as [st1 [n|err]] eqn:E; intros [= <-];
      apply (f_equal fst) in E; simpl in E; subst st1; apply publish_step_inv; try done; rewrite Hown.
    + assert (waited (rq_id st) None ([TurnStatusChanged TurnWaitingForApproval] ++ [ApprovalRequested reg])).
      { exists reg, []. split_and!; [done..|]. intros e. by rewrite elem_of_nil. }
      by destruct (is_some _).
    + right. by exists reg.
  - intros [= <-]. apply publish_step_inv; [done|]. destruct Hpc. split; [by apply waited_snoc|done].
  - intros [= <-]. apply publish_step_inv; [done|]. destruct Hpc as (?&->&anchor&Hw).
    split; [done|]. exists anchor, (rq_own st). auto.
  - intros [= <-]. apply publish_step_inv; [done|]. simpl.
    destruct o as [r|[[]| |]]; try done; eauto.
Qed.

Lemma req_wait_inv st wake clock st' :
  req_inv st →
  match rq_pc st with
  | RqAwait | RqTop _ | RqCheck _ | RqUpdate _ _ | RqSelect _ _ => True
  | _ => False
  end →
  req_step st wake clock = Some st' → req_inv st'.
Proof.
  intros Hinv Hk. pose proof Hinv as [_ Hpc]. unfold req_step.
  destruct (rq_pc st) as [| | | | | |a|a|a e| |a e| | | | |]; try done; simpl in Hpc; destruct Hpc as [Hw Hi].
  - apply on_recv_inv; eauto. done.
  - apply on_recv_inv; eauto. intros st0 [= <-]. by apply goto_inv.
  - destruct (has_eligible_client _ _); intros [= <-]; apply goto_inv; try done.
    + by destruct a.
    + split; [|done]. destruct a; simpl; [done|]. by apply waited_anchor.
  - pose proof (broker_step_inv st (BUpdateDeadline (rq_id st) (default clock a) e)) as Hb. simpl in Hb.
    pose proof (issued_op (rq_broker st) (BUpdateDeadline (rq_id st) (default clock a) e) _ Hi) as Hi'.
    simpl in Hi'. destruct (update_deadline _ _ _ _) as [b' ch]; simpl in *. intros [= <-].
    apply Hb; [done|]. assert (waited (rq_id st) (Some (default clock a)) (rq_own st)).
    { destruct a; simpl; [done|]. by apply waited_anchor. }
    by destruct ch.
  - apply on_recv_inv; eauto. intros st0. destruct wake, e; intros [= <-]; by apply goto_inv.
Qed.

Lemma req_broker_inv st wake clock st' :
  req_inv st →
  match rq_pc st with
  | RqDenyResolve _ _ | RqDenyTake _ | RqTimeout _ | RqTake _ => True
  | _ => False
  end →
  req_step st wake clock = Some st' → req_inv st'.
Proof.
  intros Hinv Hk. pose proof Hinv as [[c Ha] Hpc]. unfold req_step.
  destruct (rq_pc st) as [| | |by_ err|err| | | | | | |a|r| | |]; try done; simpl in Hpc.
  - intros [= <-]. by apply (broker_step_inv st (BResolve (rq_id st) by_ [CapApproveOnce] Deny)).
  - intros [= <-]. by apply (broker_step_inv st (BTake (rq_id st))).
  - destruct Hpc as [Hw Hi].
    pose proof (broker_step_inv st (BResolve (rq_id st) "approval_timeout" [CapApproveOnce] Deny)) as Hb.
    simpl in Hb.
    destruct (deny_issued _ c _ "approval_timeout" Ha Hi) as [(b'&r&Hres&Hs)|[Hs Hres]];
      rewrite Hres in *; intros [= <-]; (apply Hb; [done|]); simpl; eauto.
  - destruct Hpc as (Hs&a&Hw).
    intros [= <-]. apply (broker_step_inv st (BTake (rq_id st))); [done|]. simpl.
    destruct (ab_unemitted _ !! _) as [u|] eqn:E; simpl.
    + pose proof (acc_unemitted_sent _ _ Ha _ _ E). split_and!; [done|congruence|eauto].
    + split; [done|]. exists a, (rq_own st). auto.
Qed.

Lemma req_sys_step_inv st st' : req_inv st → req_sys_step st st' → req_inv st'.
Proof.
  intros Hinv Hstep. destruct Hstep as [st wake clock st' Hs|st op|st e].
  - destruct (rq_pc st) eqn:E;
      first [ by eapply req_register_inv
            | by (eapply req_publish_inv; [done| |done]; rewrite E)
            | by (eapply req_wait_inv; [done| |done]; rewrite E)
            | by (eapply req_broker_inv; [done| |done]; rewrite E)
            | by (unfold req_step in Hs; rewrite E in Hs) ].
  - destruct Hinv as [[c Ha] Hpc]. split; [eexists; by apply accounted_op|]. simpl.
    eapply pc_ok_mono; [by apply issued_op| |done]. intros. by eapply sent_stable_op.
  - destruct Hinv as [Ha Hpc]. by split.
Qed.

Lemma req_exec_steps st acts st' : req_exec st acts = Some st' → rtc req_sys_step st st'.
Proof.
  revert st. induction acts as [|[wake clock|op|e] acts IH]; intros st; simpl.
  - intros [= ->]. apply rtc_refl.
  - destruct (req_step st wake clock) eqn:E; [|done]. intros Hex.
    eapply rtc_l; [by eapply req_sys_task|eauto].
  - intros Hex. eapply rtc_l; [apply req_sys_broker|eauto].
  - intros Hex. eapply rtc_l; [apply req_sys_emit|eauto].
Qed.

Lemma req_steps_inv st st' : rtc req_sys_step st st' → req_inv st → req_inv st'.
Proof. induction 1 as [|? ? ? Hs _ IH]; [done|]. intros Hinv. eapply IH, req_sys_step_inv; eauto. Qed.

(** The waiting points: before the timeout branch has been taken. *)
Definition waiting_pc (pc : ReqPc) : bool :=
  match pc with
  | RqAwait | RqTop _ | RqCheck _ | RqUpdate _ _ | RqEmitDeadline _ _ | RqSelect _ _ => true
  | _ => false
  end.

(** After the decision was taken, at most three steps remain. *)
Lemma req_run_finish st r wake clock :
  rq_pc st = RqTake r → rq_pc (req_run 3 wake clock st) = RqReturned (Ok r).
Proof.
  intros E. simpl. unfold req_step at 1. rewrite E. simpl.
  destruct (ab_unemitted (rq_broker st) !! rq_id st); simpl;
    repeat (unfold req_step; simpl; try (rewrite (surjective_pairing (publish _ _)))); try done.
Qed.

Lemma req_run_add n m wake clock st :
  req_run (n + m) wake clock st = req_run m wake clock (req_run n wake clock st).
Proof.
  revert st. induction n as [|n IH]; intros st; simpl; [done|].
  destruct (req_step st wake clock) eqn:E; [done|].
  clear IH. destruct m as [|m]; simpl; [done|]. by rewrite E.
Qed.

Lemma req_run_returned n wake clock st o :
  rq_pc st = RqReturned o → req_run n wake clock st = st.
Proof. intros E. destruct n; simpl; [done|]. unfold req_step. by rewrite E. Qed.

Lemma req_run_more n m wake clock st o :
  n ≤ m → rq_pc (req_run n wake clock st) = RqReturned o →
  rq_pc (req_run m wake clock st) = RqReturned o.
Proof.
  intros Hle Ho. replace m with (n + (m - n)) by lia. rewrite req_run_add.
  by rewrite (req_run_returned _ _ _ _ o).
Qed.

Lemma on_recv_sent st empty r :
  ab_sent (rq_broker st) !! rq_id st = Some r → on_recv st empty = Some (goto st (RqTake r)).
Proof. intros Hs. unfold on_recv, try_recv. by rewrite Hs. Qed.

(** The number of waiting steps left once the decision is in the channel. *)
Definition wait_rank (pc : ReqPc) : nat :=
  match pc with
  | RqCheck _ => 3
  | RqUpdate _ _ => 2
  | RqEmitDeadline _ _ => 2
  | _ => 1
  end.

Lemma wait_step_decided st r wake clock c :
  accounted (rq_broker st) c → ab_sent (rq_broker st) !! rq_id st = Some r →
  waiting_pc (rq_pc st) = true →
  ∃ st', req_step st wake clock = Some st' ∧
    (rq_pc st' = RqTake r ∨
     waiting_pc (rq_pc st') = true ∧ wait_rank (rq_pc st') < wait_rank (rq_pc st) ∧
     rq_broker st' = rq_broker st ∧ rq_id st' = rq_id st).
Proof.
  intros Ha Hs Hw. pose proof (answered_not_pending _ _ _ _ Ha Hs) as Hp. unfold req_step.
  destruct (rq_pc st) as [| | | | | |a|a|a e|d e|a e| | | | |]; try done; simpl.
  - rewrite (on_recv_sent st _ r Hs). eauto.
  - rewrite (on_recv_sent st _ r Hs). eauto.
  - unfold has_eligible_client. rewrite Hp. eexists. split; [done|]. right. simpl. auto with lia.
  - unfold update_deadline. rewrite Hp. eexists. split; [done|]. right. simpl. auto with lia.
  - eexists. split; [done|]. right. simpl. destruct (publish_fields st (ApprovalDeadlineChanged (rq_id st) d e)) as (->&->&_).
    auto with lia.
  - rewrite (on_recv_sent st _ r Hs). eauto.
Qed.

Lemma decided_wait_returns n st r wake clock c :
  accounted (rq_broker st) c → ab_sent (rq_broker st) !! rq_id st = Some r →
  waiting_pc (rq_pc st) = true → wait_rank (rq_pc st) ≤ n →
  rq_pc (req_run (n + 3) wake clock st) = RqReturned (Ok r).
Proof.
  revert st. induction n as [|n IH]; intros st Ha Hs Hw Hn.
  - by destruct (rq_pc st); simpl in *; try lia.
  - destruct (wait_step_decided st r wake clock c Ha Hs Hw) as (st'&Hst&Hpc). simpl. rewrite Hst.
    destruct Hpc as [Hpc|(Hw'&Hlt&Hb&Hid)].
    + apply (req_run_more 3); [lia|]. by apply req_run_finish.
    + apply IH; rewrite ?Hb, ?Hid; try done. lia.
Qed.

(** A decision reaches the task: in every reachable state in which the
    approval has been decided while the task is waiting, the task on its own
    returns that decision after at most six steps, however its selects wake. *)
Theorem decided_request_returns aa timeout ops (s : S) request st r wake clock :
  rtc req_sys_step (request_start (broker_run (broker_new aa timeout) ops).1 s request) st →
  waiting_pc (rq_pc st) = true → try_recv (rq_broker st) (rq_id st) = RecvOk r →
  rq_pc (req_run 6 wake clock st) = RqReturned (Ok r).
Proof.
  intros Hsteps Hpc Hr.
  pose proof (accounted_run _ [] ops (accounted_new aa timeout)) as Ha.
  apply req_steps_inv in Hsteps as [[c Hc] _]; [|by eapply req_start_inv].
  apply (decided_wait_returns 3 st r wake clock c); [done| |done|by destruct (rq_pc st); simpl; lia].
  unfold try_recv in Hr. by repeat case_match; simplify_eq.
Qed.

(** What a request publishes and returns, in every interleaving with other
    clients and other events.  A returned decision is the one recorded by the
    broker, and the task published, in this order: waiting for approval, the
    request, changes of one single anchored deadline, the decision unless another
    party claimed it, and running.  When an event cannot be published the request
    is denied and the turn is reported running.  The request is never reported as
    closed or as not pending. *)
Theorem approval_request_outcome aa timeout ops (s : S) request st outcome :
  rtc req_sys_step (request_start (broker_run (broker_new aa timeout) ops).1 s request) st →
  rq_pc st = RqReturned outcome →
  let id := rq_id st in
  match outcome with
  | Ok r =>
      try_recv (rq_broker st) id = RecvOk r ∧
      ∃ registered deadline ds resolved, ar_id registered = id ∧
        rq_own st = [TurnStatusChanged TurnWaitingForApproval; ApprovalRequested registered]
                    ++ ds ++ resolved ++ [TurnStatusChanged TurnRunning] ∧
        (∀ e, e ∈ ds → ∃ paused, e = ApprovalDeadlineChanged id deadline paused) ∧
        (resolved = [] ∨ resolved = [ApprovalResolved id (rs_decision r) (rs_resolved_by r)])
  | Err (ErrBroker IdExhausted) => rq_own st = []
  | Err (ErrBroker AlreadyResolved) => ∃ r, try_recv (rq_broker st) id = RecvOk r
  | Err (ErrEvent _) =>
      last (rq_own st) = Some (TurnStatusChanged TurnRunning) ∧
      head (rq_own st) = Some (TurnStatusChanged TurnWaitingForApproval)
  | Err _ => False
  end.
Proof.
  intros Hsteps Hpc id.
  pose proof (accounted_run _ [] ops (accounted_new aa timeout)) as Ha.
  apply req_steps_inv in Hsteps as [[c Hc] Hok]; [|by eapply req_start_inv].
  rewrite Hpc in Hok. fold id in Hok. unfold try_recv.
  destruct outcome as [r|[[]| |]]; simpl in Hok; try naive_solver.
  - destruct Hok as (own0&->&Hs&anchor&own1&(reg&ds&Hreg&->&Hds)&Hor). rewrite Hs. split; [done|].
    exists reg, (default 0%Z anchor), ds.
    pose proof (acc_sent_id _ _ Hc _ _ Hs) as Hid.
    assert (∀ e, e ∈ ds → ∃ paused, e = ApprovalDeadlineChanged id (default 0%Z anchor) paused) as Hds'.
    { intros e (d&p&->&->)%Hds. eauto. }
    destruct Hor as [->| ->]; [exists []|exists [resolved_event r]];
      rewrite <- ?app_assoc; split_and!; auto.
    right. unfold resolved_event. by rewrite Hid.
  - destruct Hok as [[r Hr] _]. rewrite Hr. eauto.
  - destruct Hok as (own0&->&[->|(reg&_&->)]); done.
Qed.
End request_proofs.

(** ** Concrete runs *)

Definition sample_request : ApprovalRequest :=
  mkApprovalRequest "" "call-1" "bash" "ls" true None false.

Definition task : ReqAct := ATask WakeDeadline 5000.

(** No eligible client is attached, the deadline passes, and a client that has
    just connected allows the call before the task denies it. *)
Definition late_allow : list ReqAct :=
  [task; task; task; task; task; task; task; task;
   ABroker (BEligible 1 0);
   ABroker (BResolve "approval-1" "phone" [CapApproveOnce] AllowOnce);
   task].

(** As [late_allow], but the client decides while the task is still waiting. *)
Definition timely_allow : list ReqAct :=
  [task; task; task; task; task; task; task;
   ABroker (BEligible 1 0);
   ABroker (BResolve "approval-1" "phone" [CapApproveOnce] AllowOnce)].

Definition sample_start : ReqState SessionEventRouter :=
  request_start (broker_run (broker_new true (Some 1000%Z)) []).1 (router_new None) sample_request.

Definition sample_end (acts : list ReqAct) : ReqState SessionEventRouter :=
  default sample_start (req_exec sample_start acts).

Lemma sample_steps acts :
  is_some (req_exec sample_start acts) = true → rtc req_sys_step sample_start (sample_end acts).
Proof.
  unfold sample_end. intros Hs. apply (req_exec_steps _ acts).
  by destruct (req_exec sample_start acts).
Qed.

(** A decision made between the expiry of the deadline and the task's denial
    is lost: there is an interleaving in which the client's [AllowOnce] is accepted
    by the broker, yet the request fails with [AlreadyResolved], without publishing
    the decision and without leaving the waiting status; the retry on [NotPending]
    that was to catch this case is never taken. *)
Theorem late_decision_is_lost :
  ∃ st, rtc req_sys_step sample_start st ∧
    try_recv (rq_broker st) (rq_id st) =
      RecvOk (mkResolution "approval-1" "bash" AllowOnce "phone") ∧
    rq_pc st = RqReturned (Err (ErrBroker AlreadyResolved)) ∧
    (TurnStatusChanged TurnRunning ∉ rq_own st) ∧
    (ApprovalResolved "approval-1" AllowOnce "phone" ∉ rq_own st).
Proof.
  exists (sample_end late_allow). split; [by apply sample_steps; vm_compute|].
  split; [by vm_compute|]. split; [by vm_compute|].
  assert (rq_own (sample_end late_allow) =
    [TurnStatusChanged TurnWaitingForApproval;
     ApprovalRequested (mkApprovalRequest "approval-1" "call-1" "bash" "ls" true None false);
     ApprovalDeadlineChanged "approval-1" 5000 false]) as -> by (by vm_compute).
  split; rewrite !elem_of_cons, elem_of_nil; intros [[=]|[[=]|[[=]|[]]]].
Qed.

Lemma first_decision_wins_witness :
  let b := (broker_run (broker_new true None) [BRegister sample_request]).1 in
  let b2 := (broker_run (resolve b "approval-1" "tui" [CapApproveOnce] AllowOnce).1
               [BCancelAll "shutdown"]).1 in
  try_recv b2 "approval-1" = RecvOk (mkResolution "approval-1" "bash" AllowOnce "tui") ∧
  resolve b2 "approval-1" "phone" [CapApproveOnce] Deny = (b2, Err AlreadyResolved).
Proof.
  pose proof (first_decision_wins true None [BRegister sample_request] "approval-1" "tui"
    [CapApproveOnce] AllowOnce _ _ [BCancelAll "shutdown"] "phone" [CapApproveOnce] Deny
    ltac:(vm_compute; reflexivity)) as (_&Hr&He).
  intros b b2. split; [exact Hr|]. exact He.
Defined.

Lemma approval_decisions_justified_witness :
  ∃ request, BRegister request ∈ [BRegister sample_request;
      BResolve "approval-1" "tui" [CapApproveAlways] AllowAlways] ∧
    (AllowAlways = AllowAlways → true = true ∧ ar_allow_always_available request = true).
Proof.
  destruct (approval_decisions_justified true None
    [BRegister sample_request; BResolve "approval-1" "tui" [CapApproveAlways] AllowAlways]
    "approval-1" (mkResolution "approval-1" "bash" AllowAlways "tui")
    ltac:(vm_compute; reflexivity)) as (request&Hin&_&_&Haa).
  exists request. exact (conj Hin Haa).
Defined.

Lemma decided_request_returns_witness :
  rq_pc (req_run 6 WakeEligibility 7000 (sample_end timely_allow)) =
  RqReturned (Ok (mkResolution "approval-1" "bash" AllowOnce "phone")).
Proof.
  apply (decided_request_returns true (Some 1000%Z) [] (router_new None) sample_request
    (sample_end timely_allow)).
  - apply sample_steps. by vm_compute.
  - by vm_compute.
  - by vm_compute.
Defined.

Lemma approval_request_outcome_witness :
  let st := sample_end (timely_allow ++ [task; task; task; task]) in
  try_recv (rq_broker st) "approval-1" =
    RecvOk (mkResolution "approval-1" "bash" AllowOnce "phone") ∧
  ∃ registered deadline ds resolved, ar_id registered = rq_id st ∧
    rq_own st = [TurnStatusChanged TurnWaitingForApproval; ApprovalRequested registered]
                ++ ds ++ resolved ++ [TurnStatusChanged TurnRunning] ∧
    (∀ e, e ∈ ds → ∃ paused, e = ApprovalDeadlineChanged (rq_id st) deadline paused) ∧
    (resolved = [] ∨ resolved = [ApprovalResolved (rq_id st) AllowOnce "phone"]).
Proof.
  intros st.
  refine (approval_request_outcome true (Some 1000%Z) [] (router_new None) sample_request st
    (Ok (mkResolution "approval-1" "bash" AllowOnce "phone")) _ _).
  - apply sample_steps. by vm_compute.
  - by vm_compute.
Defined.
