(* ===== verification/ToolLifecycle.v ===== *)
(** * The canonical tool lifecycle

    Models [CanonicalToolLifecycle] of [src/src/session_core.rs] and
    [SessionCore::cleanup_cancelled_turn]: admission of tool calls (duplicates and
    the limit on active calls), authorization through the safety gate and the
    approval broker, exactly one terminal event per admitted call, bounded output,
    and the cleanup after a cancelled turn.

    Events are published through any [EventSink]; [lc_emitted] lists what was
    published, in order.  The decision of an approval is an argument of
    [authorize_reserved]: it is the outcome of a request of [Approvals].  Other
    calls may run while it is awaited, so the gate's answer is an argument of the
    second half ([authorize_after]).

    The operations hold the lock of the active calls only while they look them up
    and change them, and publish after they have released it.  So each operation is
    given twice: as the function that runs it to its end ([reserve], [finish],
    [tool_cancel_all], ...), and as the steps between which other tasks run
    ([lc_step]: a critical section, or one event); [runs_alone] says that the first
    is what the steps do when nothing comes between. *)

From stdpp Require Import base numbers list strings gmap sorting.
From S2P Require Import Prelude RustStr Utf8 Protocol Timeline Router Safety Approvals.

(** ** Bounded output *)

Definition MARKER : string := newline +:+ "[tool output truncated]".

Definition bounded_tool_output (output : string) (max_bytes : nat) : string :=
  if String.length output <=? max_bytes then output
  else
    let prefix_budget := max_bytes - String.length MARKER in
    let end_ := floor_boundary output (prefix_budget `min` String.length output) in
    str_take end_ output +:+
    (if String.length MARKER <=? max_bytes then MARKER else str_take max_bytes MARKER).

(** ** Text shown for a call *)

(** [serde_json::Value::get] with a string key, and [as_str]. *)
Definition json_get (v : Json) (key : string) : option Json :=
  match v with
  | JObject fields => snd <$> lfind (λ f, bool_decide (f.1 = key)) fields
  | _ => None
  end.

Definition json_as_str (v : Json) : option string :=
  match v with JString s => Some s | _ => None end.

Definition tool_call_title (info : ToolCallInfo) : string :=
  if bool_decide (tc_name info = "exec") then
    default (tc_name info) (json_get (tc_input info) "command" ≫= json_as_str)
  else tc_name info.

Definition approval_denial_reason (tool : string) (resolution : ApprovalResolution) : string :=
  let by_ := rs_resolved_by resolution in
  if bool_decide (by_ = "acp_cancelled") then "permission request cancelled for '" +:+ tool +:+ "'"
  else if bool_decide (by_ = "acp_unrecognized")
  then "unrecognized permission outcome for '" +:+ tool +:+ "'"
  else if bool_decide (by_ ∈ ["acp_request_failed"; "acp_unavailable"; "acp_spawn_failed"])
  then "permission request failed for '" +:+ tool +:+ "'"
  else if bool_decide (by_ = "broker_closed") then "permission broker closed for '" +:+ tool +:+ "'"
  else if bool_decide (by_ = "resolution_failed")
  then "permission resolution failed for '" +:+ tool +:+ "'"
  else "permission denied for '" +:+ tool +:+ "'".

(** [ApprovalRequest::unassigned]. *)
Definition unassigned (tool_call_id tool detail : string) (allow_always_available : bool)
    : ApprovalRequest :=
  mkApprovalRequest "" tool_call_id tool detail allow_always_available None false.

(** ** The lifecycle *)

Section lifecycle.
Context {S : Type} `{EventSink S}.
(** The policy and the file system are fixed for the session. *)
Context (env : FsEnv) (policy : SafetyPolicy).

Record Lifecycle := mkLifecycle {
  lc_sink : S;
  lc_approvals : ApprovalBroker;
  lc_safety : SafetyState;
  lc_active : gset string;
  lc_max_active_tools : nat;
  lc_max_output_bytes : option nat;
  lc_emitted : list SessionEvent;
}.

(** [new_with_output_limit]. *)
Definition lifecycle_new (events : S) (approvals : ApprovalBroker) (safety : SafetyState)
    (max_active_tools max_output_bytes : nat) : Lifecycle :=
  mkLifecycle events approvals safety ∅ (max_active_tools `max` 1)
    (Some (max_output_bytes `max` 16)) [].

Definition lc_emit (st : Lifecycle) (e : SessionEvent) : Lifecycle :=
  mkLifecycle (sink_emit (lc_sink st) e).1 (lc_approvals st) (lc_safety st) (lc_active st)
    (lc_max_active_tools st) (lc_max_output_bytes st) (lc_emitted st ++ [e]).

Definition with_active (st : Lifecycle) (active : gset string) : Lifecycle :=
  mkLifecycle (lc_sink st) (lc_approvals st) (lc_safety st) active
    (lc_max_active_tools st) (lc_max_output_bytes st) (lc_emitted st).

Definition with_safety (st : Lifecycle) (safety : SafetyState) : Lifecycle :=
  mkLifecycle (lc_sink st) (lc_approvals st) safety (lc_active st)
    (lc_max_active_tools st) (lc_max_output_bytes st) (lc_emitted st).

Definition with_approvals (st : Lifecycle) (approvals : ApprovalBroker) : Lifecycle :=
  mkLifecycle (lc_sink st) approvals (lc_safety st) (lc_active st)
    (lc_max_active_tools st) (lc_max_output_bytes st) (lc_emitted st).

Definition approval_required (st : Lifecycle) (tool : string) : bool :=
  bool_decide (gate policy (lc_safety st) tool = GateNeedsApproval).

(** The critical section of [reserve]. *)
Definition reserve_admit (st : Lifecycle) (info : ToolCallInfo) : Lifecycle * result unit string :=
  if bool_decide (tc_id info ∈ lc_active st)
  then (st, Err ("tool call '" +:+ tc_id info +:+ "' is already active"))
  else if lc_max_active_tools st <=? size (lc_active st)
  then (st, Err ("active tool-call limit (" +:+
                 u64_to_string (Z.of_nat (lc_max_active_tools st)) +:+ ") reached"))
  else (with_active st ({[tc_id info]} ∪ lc_active st), Ok tt).

Definition started_event (info : ToolCallInfo) : SessionEvent :=
  ToolCallStarted (tc_id info) (tc_name info) (tc_name info) None.

Definition reserve (st : Lifecycle) (info : ToolCallInfo) : Lifecycle * result unit string :=
  match reserve_admit st info with
  | (st1, Err reason) => (st1, Err reason)
  | (st1, Ok _) => (lc_emit st1 (started_event info), Ok tt)
  end.

Definition project_output (st : Lifecycle) (output : string) : string :=
  match lc_max_output_bytes st with
  | None => output
  | Some max => bounded_tool_output output max
  end.

(** The critical section of [finish]. *)
Definition finish_claim (st : Lifecycle) (info : ToolCallInfo) : Lifecycle * bool :=
  if bool_decide (tc_id info ∈ lc_active st)
  then (with_active st (lc_active st ∖ {[tc_id info]}), true)
  else (st, false).

Definition finished_event (st : Lifecycle) (info : ToolCallInfo) (output : string) (is_error : bool) : SessionEvent :=
  ToolCallFinished (tc_id info) (if is_error then ToolFailed else ToolCompleted) (project_output st output).

Definition finish (st : Lifecycle) (info : ToolCallInfo) (output : string) (is_error : bool)
    : Lifecycle * bool :=
  match finish_claim st info with
  | (st1, false) => (st1, false)
  | (st1, true) => (lc_emit st1 (finished_event st1 info output is_error), true)
  end.

(** The decision of [authorize_reserved], given the gate's answer and, where the
    call needs an approval, the outcome of the request. *)
Definition authorize_decision (st : Lifecycle) (info : ToolCallInfo) (g : Gate)
    (outcome : result ApprovalResolution ApprovalRequestError) : Lifecycle * BeforeHookResult :=
  match g with
  | GateBlock reason => (st, HookBlock reason)
  | GateAllow => (st, HookAllow)
  | GateNeedsApproval =>
      match outcome with
      | Ok resolution =>
          match rs_decision resolution with
          | AllowOnce => (st, HookAllow)
          | AllowAlways =>
              (with_safety st (remember_always env policy (lc_safety st) (tc_name info)), HookAllow)
          | Deny => (st, HookBlock (approval_denial_reason (tc_name info) resolution))
          end
      | Err _ => (st, HookBlock ("permission broker unavailable for '" +:+ tc_name info +:+ "'"))
      end
  end.

Definition authorize_after (st : Lifecycle) (info : ToolCallInfo) (g : Gate)
    (outcome : result ApprovalResolution ApprovalRequestError) : Lifecycle * BeforeHookResult :=
  let '(st1, decision) := authorize_decision st info g outcome in
  match decision with
  | HookAllow => (lc_emit st1 (ToolCallUpdated (tc_id info) ToolInProgress), decision)
  | HookBlock _ =>
      let st2 := lc_emit st1 (ToolCallUpdated (tc_id info) ToolFailed) in
      ((finish st2 info "blocked" true).1, decision)
  end.

Definition authorize_reserved (st : Lifecycle) (info : ToolCallInfo)
    (outcome : result ApprovalResolution ApprovalRequestError) : Lifecycle * BeforeHookResult :=
  authorize_after st info (gate policy (lc_safety st) (tc_name info)) outcome.

Definition before (st : Lifecycle) (info : ToolCallInfo)
    (outcome : result ApprovalResolution ApprovalRequestError) : Lifecycle * BeforeHookResult :=
  match reserve st info with
  | (st', Err reason) => (st', HookBlock reason)
  | (st', Ok _) => authorize_reserved st' info outcome
  end.

(** The critical section of [cancel_all]. *)
Definition drain_active (st : Lifecycle) : Lifecycle * list string :=
  (with_active st ∅, sort_by str_leb (elements (lc_active st))).

Definition cancelled_events (id : string) : list SessionEvent :=
  [ToolCallUpdated id ToolCancelled; ToolCallFinished id ToolCancelled "cancelled"].

Definition tool_cancel_all (st : Lifecycle) : Lifecycle :=
  let '(st1, ids) := drain_active st in
  foldl (λ st id, foldl lc_emit st (cancelled_events id)) st1 ids.

Definition apply_approval_side_effects (st : Lifecycle) (resolution : ApprovalResolution)
    : Lifecycle :=
  if bool_decide (rs_decision resolution = AllowAlways)
  then with_safety st (remember_always env policy (lc_safety st) (rs_tool resolution))
  else st.

(** One turn of the loop of [cleanup_cancelled_turn]. *)
Definition publish_cancelled (st : Lifecycle) (r : ApprovalResolution) : Lifecycle :=
  lc_emit (apply_approval_side_effects st r)
    (ApprovalResolved (rs_approval_id r) (rs_decision r) (rs_resolved_by r)).

Definition cleanup_cancelled_turn (st : Lifecycle) : Lifecycle :=
  let '(b, resolutions) := cancel_all (lc_approvals st) "session_cancelled" in
  tool_cancel_all (foldl publish_cancelled (with_approvals st b) resolutions).

(** *** Operations as data *)

Inductive LifecycleOp :=
  | LReserve (info : ToolCallInfo)
  | LAuthorize (info : ToolCallInfo) (g : Gate)
      (outcome : result ApprovalResolution ApprovalRequestError)
  | LFinish (info : ToolCallInfo) (output : string) (is_error : bool)
  | LCancelAll
  | LCleanup
  | LBroker (op : BrokerOp)
  | LEvent (e : SessionEvent).

Definition lifecycle_op (st : Lifecycle) (op : LifecycleOp) : Lifecycle :=
  match op with
  | LReserve info => (reserve st info).1
  | LAuthorize info g outcome => (authorize_after st info g outcome).1
  | LFinish info output is_error => (finish st info output is_error).1
  | LCancelAll => tool_cancel_all st
  | LCleanup => cleanup_cancelled_turn st
  | LBroker op => with_approvals st (broker_op (lc_approvals st) op).1
  | LEvent e => lc_emit st e
  end.

Definition lifecycle_run (st : Lifecycle) (ops : list LifecycleOp) : Lifecycle :=
  foldl lifecycle_op st ops.

(** Tool events are published by the lifecycle alone; the others by all parts of the
    session. *)
Definition is_tool_event (e : SessionEvent) : bool :=
  match e with
  | ToolCallStarted _ _ _ _ | ToolCallUpdated _ _ | ToolCallFinished _ _ _ | ConversationCleared => true
  | _ => false
  end.

Definition op_other_ok (op : LifecycleOp) : bool :=
  match op with LEvent e => negb (is_tool_event e) | _ => true end.

(** *** The steps of the operations *)

(** Where a task is: before an operation or one of its critical sections, about to
    publish events, in the loop of [cleanup_cancelled_turn], or done. *)
Inductive LcTask :=
  | KStart (op : LifecycleOp)
  | KEmit (es : list SessionEvent) (next : LcTask)
  | KPublish (rs : list ApprovalResolution)
  | KDone.

Definition lc_step (st : Lifecycle) (k : LcTask) : option (Lifecycle * LcTask) :=
  match k with
  | KStart (LReserve info) =>
      match reserve_admit st info with
      | (st1, Err _) => Some (st1, KDone)
      | (st1, Ok _) => Some (st1, KEmit [started_event info] KDone)
      end
  | KStart (LAuthorize info g outcome) =>
      match authorize_decision st info g outcome with
      | (st1, HookAllow) => Some (st1, KEmit [ToolCallUpdated (tc_id info) ToolInProgress] KDone)
      | (st1, HookBlock _) =>
          Some (st1, KEmit [ToolCallUpdated (tc_id info) ToolFailed] (KStart (LFinish info "blocked" true)))
      end
  | KStart (LFinish info output is_error) =>
      match finish_claim st info with
      | (st1, false) => Some (st1, KDone)
      | (st1, true) => Some (st1, KEmit [finished_event st1 info output is_error] KDone)
      end
  | KStart LCancelAll =>
      let '(st1, ids) := drain_active st in Some (st1, KEmit (concat (map cancelled_events ids)) KDone)
  | KStart LCleanup =>
      let '(b, resolutions) := cancel_all (lc_approvals st) "session_cancelled" in
      Some (with_approvals st b, KPublish resolutions)
  | KStart (LBroker op) => Some (with_approvals st (broker_op (lc_approvals st) op).1, KDone)
  | KStart (LEvent e) => Some (lc_emit st e, KDone)
  | KEmit [] next => Some (st, next)
  | KEmit (e :: es) next => Some (lc_emit st e, KEmit es next)
  | KPublish [] => Some (st, KStart LCancelAll)
  | KPublish (r :: rs) =>
      Some (apply_approval_side_effects st r,
            KEmit [ApprovalResolved (rs_approval_id r) (rs_decision r) (rs_resolved_by r)] (KPublish rs))
  | KDone => None
  end.

(** Tasks run at the same time, and new ones start at any time. *)
Inductive lc_steps : Lifecycle * list LcTask → Lifecycle * list LcTask → Prop :=
  | lc_spawn st tasks op :
      op_other_ok op = true → lc_steps (st, tasks) (st, tasks ++ [KStart op])
  | lc_task st tasks i k st' k' :
      tasks !! i = Some k → lc_step st k = Some (st', k') → lc_steps (st, tasks) (st', <[i := k']> tasks).

End lifecycle.
Arguments Lifecycle : clear implicits.

(** ** Bounded output: properties *)

Lemma valid_utf8_marker n : valid_utf8 (str_take n MARKER) = true.
Proof. do 24 (destruct n as [|n]; [by vm_compute|]). by destruct n; vm_compute. Qed.

Lemma length_MARKER : String.length MARKER = 24.
Proof. done. Qed.

(** The mark of truncation, cut where it does not fit. *)
Lemma marker_cut max :
  (if String.length MARKER <=? max then MARKER else str_take max MARKER) = str_take max MARKER.
Proof. destruct (Nat.leb_spec (String.length MARKER) max); [|done]. by rewrite str_take_all. Qed.

(** Tool output is bounded: the projected output has at most the allowed
    number of bytes and is valid UTF-8; an output that fits is unchanged, and
    one that does not becomes its longest prefix of whole characters that leaves
    room for the truncation mark, followed by the mark. *)
Theorem bounded_tool_output_spec output max_bytes :
  let bounded := bounded_tool_output output max_bytes in
  String.length bounded ≤ max_bytes ∧
  (valid_utf8 output = true → valid_utf8 bounded = true) ∧
  (String.length output ≤ max_bytes → bounded = output) ∧
  (max_bytes < String.length output → ∃ n,
     bounded = str_take n output +:+ str_take max_bytes MARKER ∧
     is_char_boundary output n = true ∧ n + String.length MARKER ≤ max_bytes `max` String.length MARKER ∧
     ∀ j, n < j ≤ max_bytes - String.length MARKER → is_char_boundary output j = false).
Proof.
  intros bounded. subst bounded. unfold bounded_tool_output. rewrite marker_cut.
  destruct (Nat.leb_spec (String.length output) max_bytes) as [Hle|Hlt].
  { split_and!; [done|done|done|lia]. }
  rewrite Nat.min_l by lia. set (budget := max_bytes - _).
  destruct (floor_boundary_spec output budget) as (Hb&Hcut&Hmax).
  set (n := floor_boundary output budget) in *. pose proof length_MARKER.
  split_and!.
  - rewrite length_append, !length_str_take. lia.
  - intros Hv. rewrite valid_utf8_app by (by apply valid_utf8_cut). apply valid_utf8_marker.
  - lia.
  - intros _. exists n. split_and!; [done|done|lia|done].
Qed.

(** ** Admission and completion: the invariant *)

(** Whether call [id] is open after the events so far; [None] when a call was
    started twice without finishing, or finished while not started. *)
Definition track (id : string) (open : option bool) (e : SessionEvent) : option bool :=
  match open with
  | None => None
  | Some o =>
      match e with
      | ToolCallStarted i _ _ _ =>
          if bool_decide (i = id) then (if o then None else Some true) else Some o
      | ToolCallFinished i _ _ =>
          if bool_decide (i = id) then (if o then Some false else None) else Some o
      | _ => Some o
      end
  end.

Definition call_open (id : string) (log : list SessionEvent) : option bool :=
  foldl (track id) (Some false) log.

(** ** Agreement with the timeline *)

(** The ids of the live tools of a timeline. *)
Definition live_ids (l : list TimelineEntry) : list string := at_tool_call_id <$> live_tools l.

Lemma live_ids_app l k : live_ids (l ++ k) = live_ids l ++ live_ids k.
Proof. unfold live_ids. by rewrite live_tools_app, fmap_app. Qed.

Lemma live_ids_call id e l : is_live_call id e = true → live_ids (e :: l) = id :: live_ids l.
Proof.
  destruct e as [i o []]; try done. unfold is_live_call; simpl.
  intros [->%bool_decide_eq_true Ht%negb_true_iff]%andb_true_iff.
  unfold live_ids, live_tools, active_of; simpl. by rewrite Ht.
Qed.

Lemma live_ids_no_call id l : existsb (is_live_call id) l = false → id ∉ live_ids l.
Proof.
  induction l as [|[i o k] l IH]; [by intros _ ?%elem_of_nil|]. simpl.
  intros [Hk Hl]%orb_false_iff. specialize (IH Hl).
  destruct k as [| | | | |c n ti st o0 tr]; try exact IH.
  unfold is_live_call in Hk; simpl in Hk. unfold live_ids, live_tools, active_of in *; simpl.
  destruct (is_terminal st); simpl; [exact IH|].
  rewrite not_elem_of_cons. split; [|exact IH]. intros ->.
  by rewrite bool_decide_eq_true_2 in Hk.
Qed.

(** The effect of a tool update on the live ids. *)
Lemma live_ids_update s id st o :
  NoDup (live_ids (sp_entries s)) →
  let l' := live_ids (sp_entries (spec_update s id st o)) in
  NoDup l' ∧ ∀ x, x ∈ l' ↔ x ∈ live_ids (sp_entries s) ∧ (is_terminal st = true → x ≠ id).
Proof.
  intros Hnd. simpl. destruct (existsb (is_live_call id) (sp_entries s)) eqn:Hex.
  - rewrite <- rfind_existsb in Hex.
    destruct (rfind (is_live_call id) (sp_entries s)) as [e|] eqn:Hf; [|done].
    apply rfind_Some in Hf as (l1&l2&Hl&He&Hl2). rewrite Hl in *.
    rewrite update_last_at by done. rewrite !live_ids_app in *.
    rewrite (live_ids_call id e) in * by done.
    assert (live_ids (set_tool_status st o e :: l2) =
      (if is_terminal st then [] else [id]) ++ live_ids l2) as ->.
    { destruct e as [i oo []]; try done. unfold is_live_call in He; simpl in He.
      apply andb_true_iff in He as [->%bool_decide_eq_true _].
      unfold set_tool_status, live_ids; cbn [te_id te_order te_entry]. rewrite live_tools_cons_tool. by destruct (is_terminal st). }
    apply NoDup_app in Hnd as (Hn1&Hn12&[Hn3 Hn4]%NoDup_cons). setoid_rewrite elem_of_cons in Hn12.
    destruct (is_terminal st); simpl.
    + split; [apply NoDup_app; naive_solver|]. intros x. rewrite !elem_of_app, elem_of_cons. naive_solver.
    + split; [|intros x; naive_solver]. apply NoDup_app. rewrite NoDup_cons.
      setoid_rewrite elem_of_cons. naive_solver.
  - rewrite update_last_none by done. split; [done|]. pose proof (live_ids_no_call _ _ Hex). naive_solver.
Qed.

(** The abstract timeline of a log. *)
Definition timeline_of (log : list SessionEvent) : SpecTimeline :=
  spec_ops spec_new (map OpApply log).

Lemma timeline_of_snoc log e : timeline_of (log ++ [e]) = spec_event (timeline_of log) e.
Proof. unfold timeline_of, spec_ops. by rewrite map_app, fold_left_app. Qed.

(** The live tools of the timeline of [log] are the calls in [active]. *)
Definition shows (log : list SessionEvent) (active : gset string) : Prop :=
  let l := live_ids (sp_entries (timeline_of log)) in
  NoDup l ∧ ∀ id, id ∈ l ↔ id ∈ active.

Lemma live_ids_push s k o :
  is_tool k = false → live_ids (sp_entries (spec_push s k o)) = live_ids (sp_entries s).
Proof.
  intros Hk. simpl. rewrite live_ids_app. destruct k; try done; apply app_nil_r.
Qed.

Lemma live_ids_append s kind text :
  live_ids (sp_entries (spec_append s kind text)) = live_ids (sp_entries s).
Proof.
  unfold spec_append. destruct (if sp_open s then _ else None) as [e|] eqn:E;
    [|by apply live_ids_push; destruct kind].
  destruct (append_to kind text (te_entry e)) as [k|] eqn:Ea; [|by apply live_ids_push; destruct kind].
  destruct (sp_open s); [|done]. apply last_Some in E as [l' ->]. simpl.
  rewrite length_app, Nat.add_sub, take_app_length, !live_ids_app. f_equal.
  destruct e as [i oo []], kind; simpl in Ea; by simplify_eq.
Qed.

Lemma shows_other log active e :
  is_tool_event e = false → shows log active → shows (log ++ [e]) active.
Proof.
  intros He. unfold shows. rewrite timeline_of_snoc.
  assert (live_ids (sp_entries (spec_event (timeline_of log) e)) =
    live_ids (sp_entries (timeline_of log))) as ->; [|done].
  destruct e; try done; simpl spec_event; auto using live_ids_append, live_ids_push.
Qed.

Lemma shows_update log active id st o e :
  e = ToolCallUpdated id st ∧ o = None ∨ (∃ out, e = ToolCallFinished id st out ∧ o = Some out) →
  shows log active →
  shows (log ++ [e]) (if is_terminal st then active ∖ {[id]} else active).
Proof.
  intros He [Hnd Hin]. unfold shows. rewrite timeline_of_snoc.
  assert (spec_event (timeline_of log) e = spec_update (timeline_of log) id st o) as ->.
  { by destruct He as [[-> ->]|(out&->&->)]. }
  destruct (live_ids_update (timeline_of log) id st o Hnd) as [Hnd' Hin'].
  split; [done|]. intros x. rewrite Hin', Hin. destruct (is_terminal st); set_solver.
Qed.

Lemma shows_started log active id name title sum :
  id ∉ active → shows log active →
  shows (log ++ [ToolCallStarted id name title sum]) ({[id]} ∪ active).
Proof.
  intros Hid [Hnd Hin]. unfold shows. rewrite timeline_of_snoc. simpl. rewrite live_ids_app.
  change (live_ids [mkEntry _ _ _]) with [id]. split.
  - apply NoDup_app. split; [done|]. split; [|apply NoDup_singleton]. set_solver.
  - intros x. rewrite elem_of_app, list_elem_of_singleton. set_solver.
Qed.

Lemma shows_ext log (a b : gset string) : a = b → shows log a → shows log b.
Proof. by intros ->. Qed.

(** ** The invariant *)

Section lifecycle_proofs.
Context {S : Type} `{EventSink S} (env : FsEnv) (policy : SafetyPolicy).
Implicit Types (st : Lifecycle S).

Record lifecycle_inv st : Prop := {
  inv_open : ∀ id, call_open id (lc_emitted st) = Some (bool_decide (id ∈ lc_active st));
  inv_bound : size (lc_active st) ≤ lc_max_active_tools st;
}.

Lemma call_open_snoc id log e : call_open id (log ++ [e]) = track id (call_open id log) e.
Proof. unfold call_open. by rewrite foldl_app. Qed.

Lemma inv_emit_other st e :
  (∀ id o, track id (Some o) e = Some o) → lifecycle_inv st → lifecycle_inv (lc_emit st e).
Proof.
  intros He [Ho Hb]. split; [|done]. intros id. simpl. rewrite call_open_snoc, Ho. apply He.
Qed.

Lemma inv_with_safety st s : lifecycle_inv st → lifecycle_inv (with_safety st s).
Proof. by intros []. Qed.

Lemma inv_with_approvals st b : lifecycle_inv st → lifecycle_inv (with_approvals st b).
Proof. by intros []. Qed.

Lemma inv_reserve st info : lifecycle_inv st → lifecycle_inv (reserve st info).1.
Proof.
  intros [Ho Hb]. unfold reserve, reserve_admit. case_bool_decide as Hin; [done|].
  destruct (Nat.leb_spec (lc_max_active_tools st) (size (lc_active st))); [done|].
  split; simpl.
  - intros id. rewrite call_open_snoc, Ho. simpl.
    repeat case_bool_decide; try done; set_solver.
  - rewrite size_union by set_solver. rewrite size_singleton. lia.
Qed.

Lemma inv_finish st info output is_error :
  lifecycle_inv st → lifecycle_inv (finish st info output is_error).1.
Proof.
  intros [Ho Hb]. unfold finish, finish_claim. case_bool_decide as Hin; [|done]. split; simpl.
  - intros id. rewrite call_open_snoc, Ho. simpl. repeat case_bool_decide; try done; set_solver.
  - etrans; [|exact Hb]. apply subseteq_size. set_solver.
Qed.

Lemma authorize_decision_inv st info g outcome :
  lifecycle_inv st → lifecycle_inv (authorize_decision env policy st info g outcome).1.
Proof.
  intros. unfold authorize_decision. repeat case_match; try done. by apply inv_with_safety.
Qed.

Lemma inv_authorize st info g outcome :
  lifecycle_inv st → lifecycle_inv (authorize_after env policy st info g outcome).1.
Proof.
  intros Hi%(authorize_decision_inv st info g outcome). unfold authorize_after.
  destruct (authorize_decision _ _ _ _ _ _) as [st1 []]; simpl in *; [by apply inv_emit_other|].
  by apply inv_finish, inv_emit_other.
Qed.

(** Emitting the terminal events of the drained calls closes each of them. *)
Lemma cancel_emits st ids :
  NoDup ids →
  (∀ id, call_open id (lc_emitted st) = Some (bool_decide (id ∈ ids))) →
  lc_active st = ∅ →
  lifecycle_inv (foldl (λ st id,
      lc_emit (lc_emit st (ToolCallUpdated id ToolCancelled))
        (ToolCallFinished id ToolCancelled "cancelled")) st ids).
Proof.
  intros Hnd. revert st. induction Hnd as [|i ids Hi Hnd IH]; intros st Ho Ha; simpl.
  - split; [|rewrite Ha, size_empty; lia]. intros id. rewrite Ho, Ha.
    repeat case_bool_decide; set_solver.
  - apply IH; [|done]. intros id. simpl. rewrite !call_open_snoc, Ho. simpl.
    repeat case_bool_decide; try done; set_solver.
Qed.

Lemma inv_cancel_all st : lifecycle_inv st → lifecycle_inv (tool_cancel_all st).
Proof.
  intros [Ho Hb]. unfold tool_cancel_all. apply cancel_emits; [|intros id|done].
  - rewrite sort_by_perm. apply NoDup_elements.
  - rewrite Ho. f_equal. apply bool_decide_ext. rewrite sort_by_perm, elem_of_elements. done.
Qed.

Lemma inv_side_effects st r : lifecycle_inv st → lifecycle_inv (apply_approval_side_effects env policy st r).
Proof. intros. unfold apply_approval_side_effects. case_match; auto using inv_with_safety. Qed.

Lemma inv_cleanup st : lifecycle_inv st → lifecycle_inv (cleanup_cancelled_turn env policy st).
Proof.
  intros Hi. unfold cleanup_cancelled_turn.
  destruct (cancel_all _ _) as [b rs]. apply inv_cancel_all.
  apply (inv_with_approvals _ b) in Hi. revert Hi. generalize (with_approvals st b).
  induction rs as [|r rs IH]; intros st' Hi; simpl; [done|].
  apply IH, inv_emit_other; [done|]. by apply inv_side_effects.
Qed.

Lemma inv_op st op :
  op_other_ok op = true → lifecycle_inv st → lifecycle_inv (lifecycle_op env policy st op).
Proof.
  destruct op as [info|info g o|info out e| | |op|e]; intros Hok Hi; simpl.
  - by apply inv_reserve.
  - by apply inv_authorize.
  - by apply inv_finish.
  - by apply inv_cancel_all.
  - by apply inv_cleanup.
  - by apply inv_with_approvals.
  - apply inv_emit_other; [|done]. by destruct e.
Qed.

Lemma inv_run st ops :
  forallb op_other_ok ops = true → lifecycle_inv st → lifecycle_inv (lifecycle_run env policy st ops).
Proof.
  revert st. induction ops as [|op ops IH]; intros st; simpl; [done|].
  intros [Ho Hs]%andb_true_iff Hi. apply IH; [done|]. by apply inv_op.
Qed.

Lemma inv_new s b sf ma mo : lifecycle_inv (lifecycle_new s b sf ma mo).
Proof. split; [|apply Nat.le_0_l]. intros id. by rewrite bool_decide_eq_false_2. Qed.

(** *** The timeline shows the active calls *)

Definition shown st : Prop := shows (lc_emitted st) (lc_active st).

(** [finish] also restores agreement when the timeline has already ended the call. *)
Lemma shown_finish st info output is_error :
  shown st ∨ shows (lc_emitted st) (lc_active st ∖ {[tc_id info]}) →
  shown (finish st info output is_error).1.
Proof.
  intros Hs. unfold shown, finish, finish_claim. case_bool_decide as Hin; simpl.
  - destruct Hs as [Hs|Hs];
      (eapply shows_ext; [|eapply (shows_update _ _ (tc_id info)
         (if is_error then ToolFailed else ToolCompleted)); [right; eauto|exact Hs]]);
      destruct is_error; set_solver.
  - destruct Hs as [Hs|Hs]; [exact Hs|]. eapply shows_ext; [|exact Hs]. set_solver.
Qed.

Lemma shown_reserve st info : shown st → shown (reserve st info).1.
Proof.
  intros Hs. unfold reserve, reserve_admit. case_bool_decide; [done|]. destruct (_ <=? _); [done|].
  by apply shows_started.
Qed.

Lemma authorize_decision_same st info g outcome :
  let st' := (authorize_decision env policy st info g outcome).1 in
  lc_emitted st' = lc_emitted st ∧ lc_active st' = lc_active st ∧
  lc_max_active_tools st' = lc_max_active_tools st ∧ lc_sink st' = lc_sink st.
Proof. unfold authorize_decision. by repeat case_match. Qed.

Lemma shown_authorize st info g outcome :
  shown st → shown (authorize_after env policy st info g outcome).1.
Proof.
  intros Hs. unfold authorize_after.
  pose proof (authorize_decision_same st info g outcome) as (He&Ha&_&_).
  destruct (authorize_decision _ _ _ _ _ _) as [st1 []]; simpl in *;
    unfold shown in Hs; rewrite <- He, <- Ha in Hs.
  - eapply shows_ext; [|eapply (shows_update _ _ (tc_id info) ToolInProgress); [by left|exact Hs]]. done.
  - apply shown_finish. right. simpl.
    eapply shows_ext; [|eapply (shows_update _ _ (tc_id info) ToolFailed); [by left|exact Hs]]. done.
Qed.

Lemma shown_cancel_emits st ids :
  shows (lc_emitted st) (list_to_set ids) → NoDup ids → lc_active st = ∅ →
  shown (foldl (λ st id,
      lc_emit (lc_emit st (ToolCallUpdated id ToolCancelled))
        (ToolCallFinished id ToolCancelled "cancelled")) st ids).
Proof.
  revert st. induction ids as [|i ids IH]; intros st Hs Hnd Ha; simpl.
  - unfold shown. by rewrite Ha.
  - apply NoDup_cons in Hnd as [Hi Hnd]. apply IH; [|done|done]. simpl.
    eapply shows_ext; [|eapply (shows_update _ _ i ToolCancelled); [right; eauto|];
      eapply (shows_update _ _ i ToolCancelled); [by left|exact Hs]].
    simpl. set_solver.
Qed.

Lemma shown_cancel_all st : shown st → shown (tool_cancel_all st).
Proof.
  intros Hs. unfold tool_cancel_all. apply shown_cancel_emits; [|rewrite sort_by_perm; apply NoDup_elements|done].
  eapply shows_ext; [|exact Hs]. simpl. rewrite sort_by_perm. by rewrite list_to_set_elements_L.
Qed.

Lemma shown_cleanup st : shown st → shown (cleanup_cancelled_turn env policy st).
Proof.
  intros Hs. unfold cleanup_cancelled_turn.
  destruct (cancel_all _ _) as [b rs]. apply shown_cancel_all.
  assert (shown (with_approvals st b)) as Hs' by exact Hs. revert Hs'. generalize (with_approvals st b).
  induction rs as [|r rs IH]; intros st' Hi; simpl; [done|].
  apply IH. apply shows_other; [done|]. simpl. unfold apply_approval_side_effects. by case_match.
Qed.

Lemma shown_op st op :
  op_other_ok op = true → shown st → shown (lifecycle_op env policy st op).
Proof.
  destruct op as [info|info g o|info out e| | |op|e]; intros Hok Hi; simpl; try done.
  - by apply shown_reserve.
  - by apply shown_authorize.
  - apply shown_finish. by left.
  - by apply shown_cancel_all.
  - by apply shown_cleanup.
  - apply shows_other; [by apply negb_true_iff|done].
Qed.

Lemma shown_run st ops :
  forallb op_other_ok ops = true → shown st → shown (lifecycle_run env policy st ops).
Proof.
  revert st. induction ops as [|op ops IH]; intros st; simpl; [done|].
  intros [Ho Hs]%andb_true_iff Hi. apply IH; [done|]. by apply shown_op.
Qed.

(** *** The published events are the log of the sink *)

Definition logged st : Prop :=
  (Z.of_nat (length (lc_emitted st)) ≤ U64_MAX)%Z → sink_log (lc_sink st) (lc_emitted st).

Lemma logged_emit st e : logged st → logged (lc_emit st e).
Proof.
  unfold logged; simpl. rewrite length_app. simpl. intros Hl Hle.
  apply sink_emit_appends; [apply Hl; lia|lia].
Qed.

Lemma logged_emits {A} (f : Lifecycle S → A → Lifecycle S) st l :
  (∀ st a, logged st → logged (f st a)) → logged st → logged (foldl f st l).
Proof. intros Hf. revert st. induction l as [|a l IH]; intros st; simpl; auto. Qed.

Lemma logged_op st op : logged st → logged (lifecycle_op env policy st op).
Proof.
  intros Hl. assert (∀ st, logged st → logged (tool_cancel_all st)) as Hc.
  { intros st' Hl'. apply (logged_emits _ (with_active st' ∅)); [|done].
    intros. by do 2 apply logged_emit. }
  assert (∀ st i o e, logged st → logged (finish st i o e).1) as Hf.
  { intros. unfold finish, finish_claim. case_bool_decide; [by apply logged_emit|done]. }
  destruct op as [info|info g o|info out e| | |op|e]; simpl; auto using logged_emit.
  - unfold reserve, reserve_admit. case_bool_decide; [done|]. destruct (_ <=? _); [done|]. by apply logged_emit.
  - unfold authorize_after. pose proof (authorize_decision_same st info g o) as (He&_&_&Hs).
    assert (logged (authorize_decision env policy st info g o).1) as Hd.
    { unfold logged. by rewrite He, Hs. }
    destruct (authorize_decision _ _ _ _ _ _) as [st1 []]; simpl in *; auto using logged_emit.
  - unfold cleanup_cancelled_turn. destruct (cancel_all _ _) as [b rs]. apply Hc.
    apply logged_emits; [|done]. intros st' r Hl'. apply logged_emit.
    unfold apply_approval_side_effects. by case_match.
Qed.

Lemma logged_run st ops : logged st → logged (lifecycle_run env policy st ops).
Proof. intros. apply logged_emits; [|done]. apply logged_op. Qed.

(** ** Properties *)

(** Operations that run one after the other, as those of one task do, alternate start
    and finish for each call; a call is active exactly when its last start has no
    finish. *)
Theorem tool_calls_alternate (s : S) b sf max_active max_output ops :
  sink_log s [] → forallb op_other_ok ops = true →
  let st := lifecycle_run env policy (lifecycle_new s b sf max_active max_output) ops in
  (∀ id, call_open id (lc_emitted st) = Some (bool_decide (id ∈ lc_active st))) ∧
  size (lc_active st) ≤ lc_max_active_tools st ∧
  ((Z.of_nat (length (lc_emitted st)) ≤ U64_MAX)%Z → sink_log (lc_sink st) (lc_emitted st)).
Proof.
  intros Hlog Hok. simpl. set (st0 := lifecycle_new s b sf max_active max_output).
  destruct (inv_run st0 ops Hok (inv_new s b sf max_active max_output)) as [Ho Hb].
  split_and!; [done|done|]. apply (logged_run st0). by intros _.
Qed.

Lemma tool_cancel_all_fields st :
  lc_active (tool_cancel_all st) = ∅ ∧ lc_approvals (tool_cancel_all st) = lc_approvals st ∧
  lc_safety (tool_cancel_all st) = lc_safety st ∧
  ∃ tail, lc_emitted (tool_cancel_all st) = lc_emitted st ++ tail.
Proof.
  unfold tool_cancel_all, drain_active. set (st0 := with_active st ∅).
  change (lc_approvals st) with (lc_approvals st0). change (lc_safety st) with (lc_safety st0).
  change (lc_emitted st) with (lc_emitted st0). assert (lc_active st0 = ∅) as Ha by done.
  generalize dependent st0. induction (sort_by _ _) as [|i ids IH]; intros st0 Ha; simpl.
  - split_and!; [done..|]. exists []. by rewrite app_nil_r.
  - edestruct (IH (lc_emit (lc_emit st0 (ToolCallUpdated i ToolCancelled))
      (ToolCallFinished i ToolCancelled "cancelled"))) as (?&?&?&tail&Ht); [done|].
    split_and!; [done..|]. eexists. etrans; [exact Ht|]. simpl. rewrite <- !app_assoc. reflexivity.
Qed.

(** *** Operations that run at the same time *)

Definition started_for (id : string) (e : SessionEvent) : nat :=
  match e with ToolCallStarted i _ _ _ => Nat.b2n (bool_decide (i = id)) | _ => 0 end.

Definition finished_for (id : string) (e : SessionEvent) : nat :=
  match e with ToolCallFinished i _ _ => Nat.b2n (bool_decide (i = id)) | _ => 0 end.

(** The events a task has decided on and not yet published. *)
Fixpoint pending (f : SessionEvent → nat) (k : LcTask) : nat :=
  match k with KEmit es next => sum_list_with f es + pending f next | _ => 0 end.

Fixpoint task_ok (k : LcTask) : bool :=
  match k with KStart op => op_other_ok op | KEmit _ next => task_ok next | _ => true end.

Definition starts (id : string) st (tasks : list LcTask) : nat :=
  sum_list_with (started_for id) (lc_emitted st) + sum_list_with (pending (started_for id)) tasks.

Definition finishes (id : string) st (tasks : list LcTask) : nat :=
  sum_list_with (finished_for id) (lc_emitted st) + sum_list_with (pending (finished_for id)) tasks.

Record conc_inv st (tasks : list LcTask) : Prop := {
  ci_balance : ∀ id, starts id st tasks = finishes id st tasks + Nat.b2n (bool_decide (id ∈ lc_active st));
  ci_bound : size (lc_active st) ≤ lc_max_active_tools st;
  ci_tasks : Forall (λ k, task_ok k = true) tasks;
  ci_logged : logged st;
}.

Lemma cancelled_counts id ids :
  sum_list_with (started_for id) (concat (map cancelled_events ids)) = 0 ∧
  (NoDup ids → sum_list_with (finished_for id) (concat (map cancelled_events ids)) = Nat.b2n (bool_decide (id ∈ ids))).
Proof.
  induction ids as [|i ids [IH1 IH2]]; [done|]. split; [exact IH1|]. intros [Hi Hnd]%NoDup_cons. simpl. rewrite IH2 by done.
  repeat case_bool_decide; set_solver.
Qed.

Definition conc_step_ok st k st' k' : Prop :=
  (∀ id,
    sum_list_with (started_for id) (lc_emitted st') + pending (started_for id) k' +
      (sum_list_with (finished_for id) (lc_emitted st) + pending (finished_for id) k + Nat.b2n (bool_decide (id ∈ lc_active st))) =
    sum_list_with (started_for id) (lc_emitted st) + pending (started_for id) k +
      (sum_list_with (finished_for id) (lc_emitted st') + pending (finished_for id) k' + Nat.b2n (bool_decide (id ∈ lc_active st')))) ∧
  (size (lc_active st) ≤ lc_max_active_tools st → size (lc_active st') ≤ lc_max_active_tools st') ∧
  task_ok k' = true ∧ (logged st → logged st').

Lemma conc_same st k st' k' :
  lc_emitted st' = lc_emitted st → lc_active st' = lc_active st → lc_max_active_tools st' = lc_max_active_tools st →
  lc_sink st' = lc_sink st → task_ok k' = true →
  (∀ id, pending (started_for id) k' = pending (started_for id) k ∧ pending (finished_for id) k' = pending (finished_for id) k) →
  conc_step_ok st k st' k'.
Proof.
  intros He Ha Hm Hs Hk Hp. split; [|split; [by rewrite Ha, Hm|split; [done|unfold logged; by rewrite He, Hs]]].
  intros id. destruct (Hp id) as [-> ->]. rewrite He, Ha. lia.
Qed.

Lemma conc_reserve st info st' k' :
  lc_step env policy st (KStart (LReserve info)) = Some (st', k') → conc_step_ok st (KStart (LReserve info)) st' k'.
Proof.
  simpl. unfold reserve_admit. case_bool_decide as Hin; [intros [= <- <-]; by apply conc_same|].
  destruct (Nat.leb_spec (lc_max_active_tools st) (size (lc_active st))); [intros [= <- <-]; by apply conc_same|].
  intros [= <- <-]. split; [|split; [|done]].
  - intros id. simpl. repeat case_bool_decide; simpl; try lia; set_solver.
  - intros _. simpl. rewrite size_union by set_solver. rewrite size_singleton. lia.
Qed.

Lemma conc_finish st info output is_error st' k' :
  lc_step env policy st (KStart (LFinish info output is_error)) = Some (st', k') →
  conc_step_ok st (KStart (LFinish info output is_error)) st' k'.
Proof.
  simpl. unfold finish_claim. case_bool_decide as Hin; intros [= <- <-]; [|by apply conc_same].
  split; [|split; [|done]].
  - intros id. simpl. repeat case_bool_decide; simpl; try lia; set_solver.
  - simpl. intros Hb. etrans; [|exact Hb]. apply subseteq_size. set_solver.
Qed.

Lemma conc_cancel_all st st' k' :
  lc_step env policy st (KStart LCancelAll) = Some (st', k') → conc_step_ok st (KStart LCancelAll) st' k'.
Proof.
  intros [= <- <-]. set (ids := sort_by _ _). split; [|split; [|done]].
  - intros id. destruct (cancelled_counts id ids) as [H1 H2]. simpl. rewrite H1, H2 by (unfold ids; rewrite sort_by_perm; apply NoDup_elements).
    assert (bool_decide (id ∈ ids) = bool_decide (id ∈ lc_active st)) as ->.
    { apply bool_decide_ext. unfold ids. rewrite sort_by_perm, elem_of_elements. done. }
    rewrite (bool_decide_eq_false_2 (id ∈ ∅)) by set_solver. simpl. lia.
  - intros _. apply Nat.le_0_l.
Qed.

Lemma conc_emit st e es next : conc_step_ok st (KEmit (e :: es) next) (lc_emit st e) (KEmit es next) ∨ task_ok next = false.
Proof.
  destruct (task_ok next) eqn:Hk; [left|by right]. split; [|split; [done|split; [done|apply logged_emit]]].
  intros id. simpl. rewrite !sum_list_with_app. simpl. lia.
Qed.

Lemma conc_event st e : is_tool_event e = false → conc_step_ok st (KStart (LEvent e)) (lc_emit st e) KDone.
Proof.
  intros He. split; [|split; [done|split; [done|apply logged_emit]]].
  intros id. simpl. rewrite !sum_list_with_app. destruct e; try done; simpl; lia.
Qed.

Lemma conc_step st k st' k' :
  task_ok k = true → lc_step env policy st k = Some (st', k') → conc_step_ok st k st' k'.
Proof.
  intros Hk Hs. destruct k as [[info|info g o|info out e| | |op|e]|[|e es] next|[|res rs]|]; try done.
  - by apply conc_reserve.
  - simpl in Hs. pose proof (authorize_decision_same st info g o) as (He&Ha&Hm&Hsink).
    destruct (authorize_decision _ _ _ _ _ _) as [st1 []]; simpl in *; simplify_eq; by apply conc_same.
  - by apply conc_finish.
  - by apply conc_cancel_all.
  - unfold lc_step in Hs. destruct (cancel_all _ _). simplify_eq. by apply conc_same.
  - simpl in Hs. simplify_eq. by apply conc_same.
  - simpl in Hs, Hk. simplify_eq. by apply conc_event, negb_true_iff.
  - simpl in Hs. simplify_eq. by apply conc_same.
  - simpl in Hs, Hk. simplify_eq. destruct (conc_emit st e es next) as [?|?]; congruence.
  - simpl in Hs. simplify_eq. by apply conc_same.
  - simpl in Hs. simplify_eq. apply conc_same; try done; unfold apply_approval_side_effects; by case_match.
Qed.

Lemma sum_insert {A} (f : A → nat) (l : list A) i x y :
  l !! i = Some x → sum_list_with f (<[i := y]> l) + f x = sum_list_with f l + f y.
Proof.
  revert i. induction l as [|z l IH]; intros [|i] Hi; simplify_eq/=; [lia|]. specialize (IH i Hi). lia.
Qed.

Lemma conc_inv_steps c c' : lc_steps env policy c c' → conc_inv c.1 c.2 → conc_inv c'.1 c'.2.
Proof.
  intros [st tasks op Hop|st tasks i k st' k' Hi Hs] [Hb Hsz Hok Hl]; simpl in *.
  - split; simpl; [|done| |done].
    + intros id. specialize (Hb id). unfold starts, finishes in *. rewrite !sum_list_with_app. simpl. lia.
    + apply Forall_app. split; [done|]. by constructor.
  - destruct (conc_step st k st' k') as (Hb'&Hsz'&Hk'&Hl'); [by apply (Forall_lookup_1 _ _ _ _ Hok Hi)|done|].
    split; simpl; [|by auto|by apply Forall_insert|by auto].
    intros id. specialize (Hb id). specialize (Hb' id). unfold starts, finishes in *.
    pose proof (sum_insert (pending (started_for id)) tasks i k k' Hi). pose proof (sum_insert (pending (finished_for id)) tasks i k k' Hi). lia.
Qed.

Lemma conc_inv_reachable c c' : rtc (lc_steps env policy) c c' → conc_inv c.1 c.2 → conc_inv c'.1 c'.2.
Proof. induction 1; eauto using conc_inv_steps. Qed.

(** *** An operation alone *)

Inductive alone : Lifecycle S → LcTask → Lifecycle S → Prop :=
  | alone_done st : alone st KDone st
  | alone_step st k st1 k1 st2 : lc_step env policy st k = Some (st1, k1) → alone st1 k1 st2 → alone st k st2.

Lemma alone_emits es next : ∀ st st', alone (foldl lc_emit st es) next st' → alone st (KEmit es next) st'.
Proof. induction es as [|e es IH]; intros st st' H1; (eapply alone_step; [done|]); [done|by apply IH]. Qed.

Lemma foldl_cancelled st ids :
  foldl (λ st id, foldl lc_emit st (cancelled_events id)) st ids = foldl lc_emit st (concat (map cancelled_events ids)).
Proof. revert st. induction ids as [|i ids IH]; intros st; [done|]. apply IH. Qed.

Lemma alone_cancel_all st : alone st (KStart LCancelAll) (tool_cancel_all st).
Proof.
  eapply alone_step; [done|]. apply alone_emits. unfold tool_cancel_all, drain_active. rewrite foldl_cancelled. constructor.
Qed.

Lemma alone_finish st info output is_error : alone st (KStart (LFinish info output is_error)) (finish st info output is_error).1.
Proof.
  unfold finish. destruct (finish_claim st info) as [st1 []] eqn:E; (eapply alone_step; [simpl; rewrite E; done|]);
    [apply alone_emits|]; constructor.
Qed.

Lemma alone_publish rs : ∀ st, alone st (KPublish rs) (tool_cancel_all (foldl (publish_cancelled env policy) st rs)).
Proof.
  induction rs as [|res rs IH]; intros st; (eapply alone_step; [done|]); [apply alone_cancel_all|].
  apply alone_emits. apply (IH (publish_cancelled env policy st res)).
Qed.

(** An operation between whose steps nothing else happens does what its function says. *)
Lemma runs_alone st op : alone st (KStart op) (lifecycle_op env policy st op).
Proof.
  destruct op as [info|info g o|info out e| | |op|e]; simpl.
  - unfold reserve. destruct (reserve_admit st info) as [st1 []] eqn:E; (eapply alone_step; [simpl; rewrite E; done|]);
      [apply alone_emits|]; constructor.
  - unfold authorize_after. destruct (authorize_decision _ _ _ _ _ _) as [st1 []] eqn:E;
      (eapply alone_step; [simpl; rewrite E; done|]); apply alone_emits; [constructor|apply alone_finish].
  - apply alone_finish.
  - apply alone_cancel_all.
  - unfold cleanup_cancelled_turn. destruct (cancel_all _ _) as [b rs] eqn:E.
    eapply alone_step; [unfold lc_step; rewrite E; done|]. apply alone_publish.
  - eapply alone_step; [done|]. constructor.
  - eapply alone_step; [done|]. constructor.
Qed.

Lemma alone_conc st k st' tasks : alone st k st' → rtc (lc_steps env policy) (st, tasks ++ [k]) (st', tasks ++ [KDone]).
Proof.
  induction 1 as [|st k st1 k1 st2 Hs _ IH]; [constructor|]. eapply rtc_l; [|exact IH].
  replace (tasks ++ [k1]) with (<[length tasks + 0 := k1]> (tasks ++ [k])) by (by rewrite insert_app_r).
  eapply lc_task; [|done]. rewrite lookup_app_r by lia. by replace (length tasks + 0 - length tasks) with 0 by lia.
Qed.

(** C18: Every tool call that is admitted is announced once and finishes once, in every
    interleaving of reservations, authorizations, completions, cancellations and
    cleanups of any number of tasks with other events; the operations publish after
    they have released the lock. At every moment, and for every call id, the starts
    that are published or about to be are the finishes that are published or about to
    be, and one more exactly while the call is active; no more calls are active than
    the limit, and the log is the one the event sink keeps. So when no operation is
    under way every start but those of the active calls has its finish, and after a
    cleanup, all of them. (The order of a start and its finish is kept by
    operations that follow each other, [tool_calls_alternate], and may be lost when a
    cleanup runs in the middle of a reservation,
    [cleanup_can_finish_before_start].) *)
Theorem tool_calls_finish_exactly_once (s : S) b sf max_active max_output st tasks :
  sink_log s [] →
  rtc (lc_steps env policy) (lifecycle_new s b sf max_active max_output, []) (st, tasks) →
  (∀ id, starts id st tasks = finishes id st tasks + Nat.b2n (bool_decide (id ∈ lc_active st))) ∧
  size (lc_active st) ≤ lc_max_active_tools st ∧
  ((Z.of_nat (length (lc_emitted st)) ≤ U64_MAX)%Z → sink_log (lc_sink st) (lc_emitted st)) ∧
  (Forall (eq KDone) tasks →
     (∀ id, sum_list_with (started_for id) (lc_emitted st) =
            sum_list_with (finished_for id) (lc_emitted st) + Nat.b2n (bool_decide (id ∈ lc_active st))) ∧
     let st' := cleanup_cancelled_turn env policy st in
     rtc (lc_steps env policy) (st, tasks) (st', tasks ++ [KDone]) ∧ lc_active st' = ∅ ∧
     ∀ id, sum_list_with (started_for id) (lc_emitted st') = sum_list_with (finished_for id) (lc_emitted st')).
Proof.
  intros Hlog Hrun.
  assert (∀ st tasks, Forall (eq KDone) tasks → conc_inv st tasks → ∀ id, sum_list_with (started_for id) (lc_emitted st) =
    sum_list_with (finished_for id) (lc_emitted st) + Nat.b2n (bool_decide (id ∈ lc_active st))) as Hquiet.
  { intros st1 ts Hts Hi id. pose proof (ci_balance _ _ Hi id) as Hb. unfold starts, finishes in Hb.
    assert (∀ f, sum_list_with (pending f) ts = 0) as Hz by (intros f; clear -Hts; induction Hts as [|? ? <- ? IH]; [done|exact IH]). rewrite !Hz in Hb. lia. }
  assert (conc_inv st tasks) as Hinv.
  { apply (conc_inv_reachable _ _ Hrun). split; simpl; [|apply Nat.le_0_l|done|by intros _].
    intros id. by rewrite bool_decide_eq_false_2 by set_solver. }
  split_and!; [apply Hinv..|]. intros Hdone. split; [by apply (Hquiet st tasks)|]. intros st'.
  assert (rtc (lc_steps env policy) (st, tasks) (st', tasks ++ [KDone])) as Hclean.
  { eapply rtc_l; [by apply (lc_spawn _ _ st tasks LCleanup)|]. apply alone_conc, (runs_alone st LCleanup). }
  assert (lc_active st' = ∅) as Ha by (unfold st', cleanup_cancelled_turn; destruct (cancel_all _ _); apply tool_cancel_all_fields).
  split; [done|]. split; [done|]. intros id. pose proof (conc_inv_reachable _ _ Hclean Hinv) as Hinv'.
  rewrite (Hquiet st' (tasks ++ [KDone])), Ha, bool_decide_eq_false_2 by (try set_solver; try done; apply Forall_app; by repeat constructor).
  simpl. lia.
Qed.

(** The timeline agrees with the lifecycle whose operations follow each other: a reducer that receives the
    published events lists as active tools exactly the calls the lifecycle holds
    active, each once, whatever part of the timeline it has dropped. *)
Theorem timeline_shows_active_tools (s : S) b sf max_active max_output ops m :
  forallb op_other_ok ops = true → 0 < m →
  let st := lifecycle_run env policy (lifecycle_new s b sf max_active max_output) ops in
  (Z.of_nat (length (lc_emitted st)) < U64_MAX)%Z →
  let r := run_ops (new m) (map OpApply (lc_emitted st)) in
  (at_tool_call_id <$> tl_active_tools r) ≡ₚ elements (lc_active st).
Proof.
  intros Hok Hm st Hlen r. set (st0 := lifecycle_new s b sf max_active max_output) in *.
  assert (shown st0) as Hs0.
  { split; [constructor|]. intros id. simpl. set_solver. }
  destruct (shown_run st0 ops Hok Hs0) as [Hnd Hin]. fold st in Hnd, Hin.
  destruct (refines_ops_from m Hm spec_new (new m) (map OpApply (lc_emitted st))
    (refines_new m Hm) spec_new_wf) as [Hr _].
  { apply Forall_forall. by intros op (e&->&_)%list_elem_of_fmap. }
  { simpl. rewrite length_map. lia. }
  unfold r. rewrite (rf_active _ _ _ Hr).
  apply NoDup_Permutation; [exact Hnd|apply NoDup_elements|].
  intros id. rewrite elem_of_elements. apply Hin.
Qed.

(** The state after a call was admitted. *)
Definition admitted st (info : ToolCallInfo) : Lifecycle S :=
  lc_emit (with_active st ({[tc_id info]} ∪ lc_active st))
    (ToolCallStarted (tc_id info) (tc_name info) (tc_name info) None).

(** A call blocked right after its admission. *)
Lemma blocked_after_admission st info :
  tc_id info ∉ lc_active st →
  let st' := (finish (lc_emit (admitted st info) (ToolCallUpdated (tc_id info) ToolFailed))
                info "blocked" true).1 in
  lc_active st' = lc_active st ∧ lc_safety st' = lc_safety st ∧
  (lc_emitted st' = lc_emitted st ∨
   lc_emitted st' = lc_emitted st ++
     [ToolCallStarted (tc_id info) (tc_name info) (tc_name info) None;
      ToolCallUpdated (tc_id info) ToolFailed;
      ToolCallFinished (tc_id info) ToolFailed (project_output st "blocked")]).
Proof.
  intros Hin. unfold finish, finish_claim. rewrite bool_decide_eq_true_2 by (simpl; set_solver). simpl.
  split; [set_solver|]. split; [done|]. right. by rewrite <- !app_assoc.
Qed.

(** The hook before a tool call.  A call that may run was admitted, passes
    the deny and allow lists and, where the mode needs approval, was approved
    before or by the outcome of its request; it is active and announced as in
    progress.  A blocked call leaves the active calls as they were, and it is
    either not announced at all or announced, failed and finished; only an
    [AllowAlways] decision changes what is remembered. *)
Theorem before_spec st info outcome st' :
  ∀ decision, before env policy st info outcome = (st', decision) →
  match decision with
  | HookAllow =>
      lc_active st' = {[tc_id info]} ∪ lc_active st ∧ (tc_id info ∉ lc_active st) ∧
      listed policy (tc_name info) ∧
      (mode_needs_approval (sp_approval_mode policy) (tc_name info) = true →
         tc_name info ∈ sf_auto_approve (lc_safety st) ∨
         ∃ r, outcome = Ok r ∧ rs_decision r ≠ Deny) ∧
      lc_emitted st' = lc_emitted st ++
        [ToolCallStarted (tc_id info) (tc_name info) (tc_name info) None;
         ToolCallUpdated (tc_id info) ToolInProgress]
  | HookBlock _ =>
      lc_active st' = lc_active st ∧ lc_safety st' = lc_safety st ∧
      (lc_emitted st' = lc_emitted st ∨
       lc_emitted st' = lc_emitted st ++
         [ToolCallStarted (tc_id info) (tc_name info) (tc_name info) None;
          ToolCallUpdated (tc_id info) ToolFailed;
          ToolCallFinished (tc_id info) ToolFailed (project_output st "blocked")])
  end.
Proof.
  intros decision. unfold before, reserve, reserve_admit.
  case_bool_decide as Hin; [intros [= <- <-]; auto|].
  destruct (lc_max_active_tools st <=? size (lc_active st)); [intros [= <- <-]; auto|].
  change (lc_emit (with_active st ({[tc_id info]} ∪ lc_active st)) (started_event info)) with (admitted st info).
  set (st1 := admitted st info). unfold authorize_reserved, authorize_after, authorize_decision.
  pose proof (gate_cases policy (lc_safety st1) (tc_name info)) as Hg.
  pose proof (blocked_after_admission st info Hin) as Hblock. fold st1 in Hblock.
  destruct (gate policy (lc_safety st1) (tc_name info)) as [reason| |] eqn:Eg; simpl.
  - intros [= <- <-]. auto.
  - intros [= <- <-]. simpl. rewrite <- app_assoc. clear Hblock. destruct Hg as [Hl [Hm|Hm]].
    + rewrite Hm. by split_and!.
    + split_and!; auto.
  - clear Eg. destruct outcome as [r|err]; [destruct (rs_decision r) eqn:Ed|]; simpl; intros [= <- <-]; auto;
      simpl; rewrite <- app_assoc; (split_and!; [done|done|apply Hg| |done]);
      intros _; right; exists r; rewrite Ed; done.
Qed.

Lemma foldl_cleanup_fields st rs :
  let st' := foldl (publish_cancelled env policy) st rs in
  lc_approvals st' = lc_approvals st ∧
  lc_emitted st' = lc_emitted st ++ (resolved_event <$> rs) ∧
  (∀ name, name ∈ sf_auto_approve (lc_safety st') ↔
     name ∈ sf_auto_approve (lc_safety st) ∨
     ∃ r, r ∈ rs ∧ rs_decision r = AllowAlways ∧ rs_tool r = name).
Proof.
  revert st. induction rs as [|r rs IH]; intros st; simpl.
  - split_and!; [done|by rewrite app_nil_r|]. set_solver.
  - destruct (IH (publish_cancelled env policy st r)) as (->&->&Hs).
    unfold publish_cancelled in *. simpl. unfold apply_approval_side_effects in *. setoid_rewrite elem_of_cons.
    case_bool_decide as Hd; simpl in *; rewrite <- app_assoc; (split_and!; [done|done|]);
      intros name; rewrite Hs.
    + rewrite remember_always_approves. set_solver.
    + naive_solver.
Qed.

(** The cleanup after a cancelled turn leaves no call active and no approval
    pending or unemitted; it publishes one decision for every approval that was
    pending (denied) or decided and not yet published; and an [AllowAlways] the
    operator gave before the cancellation is still remembered, while no denial
    is. *)
Theorem cleanup_cancelled_turn_spec st claimed :
  accounted (lc_approvals st) claimed →
  let st' := cleanup_cancelled_turn env policy st in
  lc_active st' = ∅ ∧ ab_pending (lc_approvals st') = ∅ ∧ ab_unemitted (lc_approvals st') = ∅ ∧
  (∃ rs tail,
     lc_emitted st' = lc_emitted st ++ (resolved_event <$> rs) ++ tail ∧
     NoDup (rs_approval_id <$> rs) ∧
     ∀ r, r ∈ rs ↔
       ab_unemitted (lc_approvals st) !! rs_approval_id r = Some r ∨
       ∃ q, ab_pending (lc_approvals st) !! rs_approval_id r = Some q ∧
            r = mkResolution (rs_approval_id r) (ar_tool q) Deny "session_cancelled") ∧
  (∀ name, name ∈ sf_auto_approve (lc_safety st') ↔
     name ∈ sf_auto_approve (lc_safety st) ∨
     ∃ id r, ab_unemitted (lc_approvals st) !! id = Some r ∧
       rs_decision r = AllowAlways ∧ rs_tool r = name).
Proof.
  intros Ha. pose proof (λ r, elem_of_cancel_all _ _ "session_cancelled" r Ha) as Hel.
  pose proof (NoDup_cancel_all _ _ "session_cancelled" Ha) as Hnd.
  unfold cleanup_cancelled_turn.
  set (b' := (cancel_all (lc_approvals st) "session_cancelled").1).
  set (rs := (cancel_all (lc_approvals st) "session_cancelled").2) in *.
  rewrite (surjective_pairing (cancel_all _ _)). fold b' rs.
  destruct (foldl_cleanup_fields (with_approvals st b') rs) as (Hb&He&Hs).
  destruct (tool_cancel_all_fields (foldl (publish_cancelled env policy) (with_approvals st b') rs))
    as (Hact&Happ&Hsafe&tail&Hem).
  cbn zeta. rewrite Hact, Happ, Hb, Hsafe, Hem, He. split_and!; [done|done|done| |].
  - exists rs, tail. split_and!; [by rewrite <- app_assoc|done|]. intros r.
    rewrite Hel, elem_of_denials. tauto.
  - intros name. rewrite Hs. simpl. setoid_rewrite Hel. split.
    + intros [?|(r&[(q&_&->)%elem_of_denials|Hu]&Hd&Ht)]; [auto|done|eauto 10].
    + intros [?|(id&r&Hu&Hd&Ht)]; [auto|]. right. exists r. split; [|done]. right.
      destruct Ha. by rewrite (acc_sent_id _ _ (acc_unemitted_sent _ _ Hu)).
Qed.

End lifecycle_proofs.

(** ** Concrete runs *)

Definition sample_env : FsEnv :=
  {| env_can_open := λ _, true; env_can_create_dir := λ _, true;
     env_can_open_nofollow := λ _, true; env_regular_single := λ _, true |}.

Definition paranoid : SafetyPolicy := mkPolicy ModeParanoid [] ["docker"] false None false.

Definition call (id name : string) : ToolCallInfo := mkToolCall id name (JObject []).

Definition sample_lifecycle : Lifecycle SessionEventRouter :=
  lifecycle_new (router_new None) (broker_new true None) (mkSafety ∅ ∅) 2 64.

Definition sample_lifecycle_ops : list LifecycleOp :=
  [LReserve (call "a" "exec"); LReserve (call "b" "git");
   LEvent (AssistantDelta "x"); LReserve (call "c" "cargo");
   LAuthorize (call "a" "exec") GateAllow (Err ErrBrokerClosed); LFinish (call "a" "exec") "ok" false;
   LFinish (call "a" "exec") "again" false; LReserve (call "a" "exec")].

(** Run the tasks in the given order. *)
Fixpoint lc_schedule (st : Lifecycle SessionEventRouter) (tasks : list LcTask) (order : list nat)
    : option (Lifecycle SessionEventRouter * list LcTask) :=
  match order with
  | [] => Some (st, tasks)
  | i :: order =>
      k ← tasks !! i; p ← lc_step sample_env paranoid st k; lc_schedule p.1 (<[i := p.2]> tasks) order
  end.

Lemma lc_schedule_reachable st tasks order st' tasks' :
  lc_schedule st tasks order = Some (st', tasks') →
  rtc (lc_steps sample_env paranoid) (st, tasks) (st', tasks').
Proof.
  revert st tasks. induction order as [|i order IH]; intros st tasks Hs; simpl in Hs; [simplify_eq; constructor|].
  destruct (tasks !! i) as [k|] eqn:Hi; [|done]. simpl in Hs.
  destruct (lc_step sample_env paranoid st k) as [[st1 k1]|] eqn:E; [|done]. eapply rtc_l; [by eapply lc_task|]. by apply IH.
Qed.

Lemma lc_spawn_all st ops :
  forallb op_other_ok ops = true → rtc (lc_steps sample_env paranoid) (st : Lifecycle SessionEventRouter, []) (st, map KStart ops).
Proof.
  induction ops as [|op ops IH] using rev_ind; [constructor|]. rewrite forallb_app. intros [Ho [Hop _]%andb_true_iff]%andb_true_iff.
  rewrite map_app. eapply rtc_r; [by apply IH|]. by constructor.
Qed.

(** Two reservations and a completion; the second call is admitted but not announced
    yet. *)
Definition sample_concurrent : Lifecycle SessionEventRouter * list LcTask :=
  default (sample_lifecycle, [])
    (lc_schedule sample_lifecycle
       (map KStart [LReserve (call "a" "exec"); LReserve (call "b" "git"); LFinish (call "a" "exec") "ok" false])
       [0; 0; 1; 2; 2; 2; 0]).

Lemma tool_calls_finish_exactly_once_witness :
  let '(st, tasks) := sample_concurrent in
  (∀ id, starts id st tasks = finishes id st tasks + Nat.b2n (bool_decide (id ∈ lc_active st))) ∧
  starts "b" st tasks = 1 ∧ finishes "b" st tasks = 0 ∧ finishes "a" st tasks = 1.
Proof.
  assert (lc_schedule sample_lifecycle
       (map KStart [LReserve (call "a" "exec"); LReserve (call "b" "git"); LFinish (call "a" "exec") "ok" false])
       [0; 0; 1; 2; 2; 2; 0] = Some sample_concurrent) as Hrun by (vm_compute; reflexivity).
  destruct sample_concurrent as [st tasks] eqn:E.
  destruct (tool_calls_finish_exactly_once sample_env paranoid (router_new None)
    (broker_new true None) (mkSafety ∅ ∅) 2 64 st tasks) as (Ho&_&_&_).
  - by split.
  - etrans; [apply (lc_spawn_all sample_lifecycle [LReserve (call "a" "exec"); LReserve (call "b" "git"); LFinish (call "a" "exec") "ok" false]); reflexivity|].
    exact (lc_schedule_reachable _ _ _ _ _ Hrun).
  - split; [exact Ho|]. vm_compute in E. injection E as <- <-. vm_compute. auto.
Defined.

(** A cleanup in the middle of a reservation finishes the call before it is started, and
    the clients go on showing a call that is not active. *)
Theorem cleanup_can_finish_before_start :
  ∃ st, rtc (lc_steps sample_env paranoid) (sample_lifecycle, []) (st, [KDone; KDone]) ∧
    lc_active st = ∅ ∧
    lc_emitted st = [ToolCallUpdated "a" ToolCancelled; ToolCallFinished "a" ToolCancelled "cancelled"; started_event (call "a" "exec")] ∧
    (at_tool_call_id <$> tl_active_tools (run_ops (new 10) (map OpApply (lc_emitted st)))) = ["a"].
Proof.
  destruct (lc_schedule sample_lifecycle (map KStart [LReserve (call "a" "exec"); LCleanup]) [0; 1; 1; 1; 1; 1; 1; 0; 0])
    as [[st tasks]|] eqn:Hrun; [|by vm_compute in Hrun].
  exists st. split.
  - replace [KDone; KDone] with tasks by (vm_compute in Hrun; by injection Hrun as <- <-).
    etrans; [apply (lc_spawn_all sample_lifecycle [LReserve (call "a" "exec"); LCleanup]); reflexivity|].
    by eapply lc_schedule_reachable.
  - vm_compute in Hrun. injection Hrun as <- <-. by vm_compute.
Qed.

Lemma timeline_shows_active_tools_witness :
  let st := lifecycle_run sample_env paranoid sample_lifecycle sample_lifecycle_ops in
  (at_tool_call_id <$> tl_active_tools (run_ops (new 1) (map OpApply (lc_emitted st))))
  ≡ₚ elements (lc_active st).
Proof.
  apply (timeline_shows_active_tools sample_env paranoid (router_new None) (broker_new true None)
    (mkSafety ∅ ∅) 2 64 sample_lifecycle_ops 1); [done|lia|by vm_compute].
Defined.

Definition sample_allow : ApprovalResolution := mkResolution "approval-1" "git" AllowOnce "tui".

Lemma before_spec_witness :
  let st' := (before sample_env paranoid sample_lifecycle (call "b" "git") (Ok sample_allow)).1 in
  (before sample_env paranoid sample_lifecycle (call "b" "git") (Ok sample_allow)).2 = HookAllow ∧
  lc_active st' = {["b"]} ∪ ∅ ∧ listed paranoid "git".
Proof.
  destruct (before_spec sample_env paranoid sample_lifecycle (call "b" "git") (Ok sample_allow)
    (before sample_env paranoid sample_lifecycle (call "b" "git") (Ok sample_allow)).1 HookAllow
    ltac:(vm_compute; reflexivity)) as (Ha&_&Hl&_).
  intros st'. split; [by vm_compute|]. split; [exact Ha|exact Hl].
Defined.

Lemma cleanup_cancelled_turn_spec_witness :
  let b := (broker_run (broker_new true None)
              [BRegister sample_request;
               BResolve "approval-1" "tui" [CapApproveAlways] AllowAlways]).1 in
  let st := lifecycle_run sample_env paranoid
              (lifecycle_new (router_new None) b (mkSafety ∅ ∅) 2 64) [LReserve (call "a" "exec")] in
  lc_active (cleanup_cancelled_turn sample_env paranoid st) = ∅ ∧
  "bash" ∈ sf_auto_approve (lc_safety (cleanup_cancelled_turn sample_env paranoid st)).
Proof.
  intros b st. destruct (cleanup_cancelled_turn_spec sample_env paranoid st []) as (Ha&_&_&_&Hs).
  - exact (accounted_run _ [] [BRegister sample_request;
      BResolve "approval-1" "tui" [CapApproveAlways] AllowAlways] (accounted_new true None)).
  - split; [exact Ha|]. apply Hs. right.
    exists "approval-1", (mkResolution "approval-1" "bash" AllowAlways "tui"). split_and!; reflexivity.
Defined.
