(* ===== verification/LoopDetector.v ===== *)
(** * The tool retry-storm detector

    Models [src/src/loop_detector.rs].  After each model round the agent loop
    hands the detector the fingerprints of the calls and results of the round; it
    answers with nothing, a corrective hint, or a hard stop of the turn.

    Fingerprints are part of the observations; the hash of a set of fingerprints
    ([DefaultHasher], whose algorithm the standard library leaves open) is the
    section variable [hash_set].  Counters ([u32], [u64]) are natural numbers:
    each grows by at most one per round. *)

From stdpp Require Import base numbers list strings gmap sorting.
From S2P Require Import Prelude RustStr.

(** ** Data *)

Definition FAILURE_WARN_ROUNDS : nat := 3.
Definition FAILURE_STOP_ROUNDS : nat := 6.
Definition MAX_TRACKED_FAILURES : nat := 128.

Record CallObservation := mkObs {
  ob_name : string;
  ob_call_fp : Z;
  ob_result_fp : Z;
  ob_is_error : bool;
  ob_transient : bool;
}.

Inductive RoundVerdict :=
  | Proceed
  | Steer (text : string)
  | Break (text : string).

#[export] Instance RoundVerdict_eq_dec : EqDecision RoundVerdict.
Proof. solve_decision. Defined.

Record LoopDetectorConfig := mkLoopConfig {
  cfg_enabled : bool;
  cfg_repeat_threshold : nat;
  cfg_no_novelty_rounds : nat;
  cfg_circuit_breaker_rounds : nat;
}.

(** [LoopDetectorConfig::default]. *)
Definition loop_config_default : LoopDetectorConfig := mkLoopConfig true 3 3 12.

Record DetectorStats := mkStats {
  ds_rounds_observed : nat;
  ds_steers_emitted : nat;
  ds_steers_suppressed : nat;
  ds_max_pair_repeats : nat;
}.

(** An exact pair: the call, the result, whether it is an error. *)
Definition Pair : Type := Z * Z * bool.

Record LoopDetector := mkDetector {
  ld_cfg : LoopDetectorConfig;
  ld_steer_sections : list string;
  ld_pair_rounds : gmap Pair nat;
  ld_failure_rounds : gmap (Z * Z) nat;
  ld_consecutive_no_novelty : nat;
  ld_last_call_set : option Z;
  ld_steered_call_set : option Z;
  ld_ignored_steers : nat;
  ld_rotation : nat;
  ld_stats : DetectorStats;
}.

(** ** Text *)

(** [str::replace]: left to right, without overlap. *)
Fixpoint replace_from (fuel : nat) (needle with_ s : string) : string :=
  match fuel with
  | 0 => s
  | S fuel =>
      match strip_prefix needle s with
      | Some rest => with_ +:+ replace_from fuel needle with_ rest
      | None => match s with
                | EmptyString => EmptyString
                | String c s => String c (replace_from fuel needle with_ s)
                end
      end
  end.

Definition str_replace (needle with_ s : string) : string :=
  replace_from (S (String.length s)) needle with_ s.

(** [str::split] by a string separator. *)
Fixpoint split_from (fuel : nat) (sep cur s : string) : list string :=
  match fuel with
  | 0 => [cur +:+ s]
  | S fuel =>
      match strip_prefix sep s with
      | Some rest => cur :: split_from fuel sep "" rest
      | None => match s with
                | EmptyString => [cur]
                | String c s => split_from fuel sep (cur +:+ String c "") s
                end
      end
  end.

Definition str_split (sep s : string) : list string := split_from (S (String.length s)) sep "" s.

Definition nat_to_string (n : nat) : string := u64_to_string (Z.of_nat n).

Definition MAX_NAMES : nat := 5.

Definition summarize_tools (round : list CallObservation) : string :=
  let names := dedup (sort_by str_leb (map ob_name round)) in
  let overflow := length names - MAX_NAMES in
  join ", " (take MAX_NAMES names) +:+
  (if 0 <? overflow then " (+" +:+ nat_to_string overflow +:+ " more)" else "").

(** ** The detector *)

Definition detector_new (cfg : LoopDetectorConfig) (steer_template : string) : LoopDetector :=
  mkDetector cfg
    (List.filter (λ s, negb (bool_decide (s = "")))
       (map trim (str_split (newline +:+ "---" +:+ newline) steer_template)))
    ∅ ∅ 0 None None 0 0 (mkStats 0 0 0 0).

Definition on_context_pruned (d : LoopDetector) : LoopDetector :=
  mkDetector (ld_cfg d) (ld_steer_sections d) ∅ (ld_failure_rounds d) 0 (ld_last_call_set d)
    (ld_steered_call_set d) (ld_ignored_steers d) (ld_rotation d) (ld_stats d).

Definition fallback_steer : string :=
  "You are repeating identical tool calls that return identical results. Change your approach.".

Definition bump_emitted (s : DetectorStats) : DetectorStats :=
  mkStats (ds_rounds_observed s) (ds_steers_emitted s + 1) (ds_steers_suppressed s)
    (ds_max_pair_repeats s).

Definition bump_suppressed (s : DetectorStats) : DetectorStats :=
  mkStats (ds_rounds_observed s) (ds_steers_emitted s) (ds_steers_suppressed s + 1)
    (ds_max_pair_repeats s).

Definition render_steer (d : LoopDetector) (round : list CallObservation) (repeats : nat)
    : LoopDetector * string :=
  let n := length (ld_steer_sections d) in
  let '(section, rotation) :=
    if n =? 0 then (fallback_steer, ld_rotation d)
    else (default "" (ld_steer_sections d !! (ld_rotation d mod n)), ld_rotation d + 1) in
  (mkDetector (ld_cfg d) (ld_steer_sections d) (ld_pair_rounds d) (ld_failure_rounds d)
     (ld_consecutive_no_novelty d) (ld_last_call_set d) (ld_steered_call_set d)
     (ld_ignored_steers d) rotation (bump_emitted (ld_stats d)),
   str_replace "{rounds}" (nat_to_string (ld_consecutive_no_novelty d))
     (str_replace "{repeats}" (nat_to_string repeats)
        (str_replace "{tools}" (summarize_tools round) section))).

(** [u32::is_power_of_two]. *)
Definition is_power_of_two (n : nat) : bool := (0 <? n) && (n =? 2 ^ Nat.log2 n).

(** Lexicographic order on fingerprints, as [Ord] on tuples. *)
Definition pair2_leb (a b : Z * Z) : bool :=
  (a.1 <? b.1)%Z || ((a.1 =? b.1)%Z && (a.2 <=? b.2)%Z).

Definition pair_leb (a b : Pair) : bool :=
  if decide (a.1 = b.1) then implb a.2 b.2 else pair2_leb a.1 b.1.

Definition obs_pair (o : CallObservation) : Pair := (ob_call_fp o, ob_result_fp o, ob_is_error o).

(** [HashMap::entry(k).or_insert(0) += 1] over a list of keys. *)
Definition bump {K} `{Countable K} (m : gmap K nat) (k : K) : gmap K nat :=
  <[k := default 0 (m !! k) + 1]> m.

Section detector.
Context (hash_set : list Z → Z).

Definition breaker_message (no_novelty : nat) (round : list CallObservation) : string :=
  "loop detector circuit breaker: " +:+ nat_to_string no_novelty +:+
  " consecutive tool rounds produced no new information (repeated identical calls/results; tools: "
  +:+ summarize_tools round +:+
  "). Stopping this turn; re-prompt with a different approach or raise [loop_detector].circuit_breaker_rounds.".

Definition call_set_of (round : list CallObservation) : Z :=
  hash_set (dedup (sort_by Z.leb (map ob_call_fp round))).

Definition observe_legacy (d : LoopDetector) (round : list CallObservation)
    : LoopDetector * RoundVerdict :=
  let round_pairs := dedup (sort_by pair_leb (map obs_pair round)) in
  let novelty := existsb (λ p, negb (is_some (ld_pair_rounds d !! p))) round_pairs in
  let pairs := foldl bump (if novelty then ∅ else ld_pair_rounds d) round_pairs in
  let max_repeats := foldr Nat.max 0 (map (λ p, default 0 (pairs !! p)) round_pairs) in
  let s := ld_stats d in
  let stats := mkStats (ds_rounds_observed s) (ds_steers_emitted s) (ds_steers_suppressed s)
                 (ds_max_pair_repeats s `max` max_repeats) in
  let call_set := call_set_of round in
  let no_novelty := if novelty then 0 else ld_consecutive_no_novelty d + 1 in
  let '(steered, ignored) :=
    match ld_steered_call_set d with
    | Some steered => if (steered =? call_set)%Z then (Some steered, ld_ignored_steers d) else (None, 0)
    | None => (None, ld_ignored_steers d)
    end in
  let state steered ignored stats :=
    mkDetector (ld_cfg d) (ld_steer_sections d) pairs (ld_failure_rounds d) no_novelty
      (Some call_set) steered ignored (ld_rotation d) stats in
  let breaker := cfg_circuit_breaker_rounds (ld_cfg d) in
  if (0 <? breaker) && (breaker <=? no_novelty)
  then (state steered ignored stats, Break (breaker_message no_novelty round))
  else
    let repeat_hit := (0 <? cfg_repeat_threshold (ld_cfg d))
                      && (cfg_repeat_threshold (ld_cfg d) <=? max_repeats) in
    let window_hit := (0 <? cfg_no_novelty_rounds (ld_cfg d))
                      && (cfg_no_novelty_rounds (ld_cfg d) <=? no_novelty) in
    if negb repeat_hit && negb window_hit then (state steered ignored stats, Proceed)
    else if bool_decide (steered = Some call_set) then
      if is_power_of_two (ignored + 1) then
        let '(d', text) := render_steer (state steered (ignored + 1) stats) round max_repeats in
        (d', Steer text)
      else (state steered (ignored + 1) (bump_suppressed stats), Proceed)
    else
      let '(d', text) := render_steer (state (Some call_set) 0 stats) round max_repeats in
      (d', Steer text).

(** *** Exact failures *)

Definition exhausted_message (round : list CallObservation) : string :=
  "exact failure budget exhausted: " +:+ nat_to_string MAX_TRACKED_FAILURES +:+
  " distinct failed calls in this turn (tools: " +:+ summarize_tools round +:+
  "); stopping rather than evicting protection".

Definition failure_stop_message (name : string) (count : nat) : string :=
  "exact failure budget: tool " +:+ name +:+ " returned the same error in " +:+ nat_to_string count +:+
  " rounds. Stopping this turn; change the request or start a new turn.".

Definition failure_warn_message (name : string) : string :=
  "Tool " +:+ name +:+ " returned the same error in " +:+ nat_to_string FAILURE_WARN_ROUNDS +:+
  " rounds. Do not repeat unchanged inputs; inspect the error or ask the user for clarification.".

(** The name reported for a failure: that of the first observation of the call
    (there is one, since the pair comes from the round). *)
Definition failure_name (round : list CallObservation) (key : Z * Z) : string :=
  match lfind (λ o, (ob_call_fp o =? key.1)%Z) round with Some o => ob_name o | None => "" end.

(** Matching successes reset their own operation. *)
Definition reset_failures (round : list CallObservation) (m : gmap (Z * Z) nat)
    : gmap (Z * Z) nat :=
  foldl (λ m o, filter (λ kv : Z * Z * nat, kv.1.1 ≠ ob_call_fp o) m) m
    (List.filter (λ o, negb (ob_is_error o)) round).

(** The exact failures of a round, those already tracked first. *)
Definition round_failures (round : list CallObservation) (m : gmap (Z * Z) nat) : list (Z * Z) :=
  let failures := dedup (sort_by pair2_leb
    (map (λ o, (ob_call_fp o, ob_result_fp o))
       (List.filter (λ o, ob_is_error o && negb (ob_transient o)) round))) in
  sort_by (λ a b, implb (negb (is_some (m !! a))) (negb (is_some (m !! b)))) failures.

(** The loop over the failures of a round: the counts, and the hint of the last
    failure that reached the warning or the reason to stop. *)
Fixpoint count_failures (round : list CallObservation) (m : gmap (Z * Z) nat)
    (failure_steer : option string) (failures : list (Z * Z))
    : gmap (Z * Z) nat * result (option string) string :=
  match failures with
  | [] => (m, Ok failure_steer)
  | key :: failures =>
      if negb (is_some (m !! key)) && (MAX_TRACKED_FAILURES <=? size m)
      then (m, Err (exhausted_message round))
      else
        let count := default 0 (m !! key) + 1 in
        let m' := bump m key in
        if FAILURE_STOP_ROUNDS <=? count
        then (m', Err (failure_stop_message (failure_name round key) count))
        else count_failures round m'
               (if count =? FAILURE_WARN_ROUNDS
                then Some (failure_warn_message (failure_name round key)) else failure_steer)
               failures
  end.

Definition observe_round (d : LoopDetector) (round : list CallObservation)
    : LoopDetector * RoundVerdict :=
  match round with
  | [] => (d, Proceed)
  | _ =>
      let s := ld_stats d in
      let stats := mkStats (ds_rounds_observed s + 1) (ds_steers_emitted s)
                     (ds_steers_suppressed s) (ds_max_pair_repeats s) in
      let m0 := reset_failures round (ld_failure_rounds d) in
      let '(m, res) := count_failures round m0 None (round_failures round m0) in
      let d1 := mkDetector (ld_cfg d) (ld_steer_sections d) (ld_pair_rounds d) m
                  (ld_consecutive_no_novelty d) (ld_last_call_set d) (ld_steered_call_set d)
                  (ld_ignored_steers d) (ld_rotation d) stats in
      match res with
      | Err text => (d1, Break text)
      | Ok failure_steer =>
          let '(d2, legacy) := observe_legacy d1 round in
          match legacy, failure_steer with
          | Proceed, Some text =>
              (mkDetector (ld_cfg d2) (ld_steer_sections d2) (ld_pair_rounds d2)
                 (ld_failure_rounds d2) (ld_consecutive_no_novelty d2) (ld_last_call_set d2)
                 (ld_last_call_set d2) 0 (ld_rotation d2) (bump_emitted (ld_stats d2)),
               Steer text)
          | _, _ => (d2, legacy)
          end
      end
  end.

(** A turn: rounds are observed until the detector stops it. *)
Fixpoint observe_rounds (d : LoopDetector) (rounds : list (list CallObservation))
    : LoopDetector * list RoundVerdict :=
  match rounds with
  | [] => (d, [])
  | round :: rounds =>
      match observe_round d round with
      | (d1, Break text) => (d1, [Break text])
      | (d1, v) => let '(d2, vs) := observe_rounds d1 rounds in (d2, v :: vs)
      end
  end.

End detector.

(** ** Sets of fingerprints *)

Lemma pair2_order :
  (∀ a b, pair2_leb a b = true ∨ pair2_leb b a = true) ∧
  (∀ a b c, pair2_leb a b = true → pair2_leb b c = true → pair2_leb a c = true) ∧
  (∀ a b, pair2_leb a b = true → pair2_leb b a = true → a = b).
Proof.
  unfold pair2_leb. split_and!.
  - intros [a1 a2] [b1 b2]; simpl. rewrite !orb_true_iff, !andb_true_iff. lia.
  - intros [a1 a2] [b1 b2] [c1 c2]; simpl. rewrite !orb_true_iff, !andb_true_iff. lia.
  - intros [a1 a2] [b1 b2]; simpl. rewrite !orb_true_iff, !andb_true_iff. intros. f_equal; lia.
Qed.

Lemma pair_order :
  (∀ a b, pair_leb a b = true ∨ pair_leb b a = true) ∧
  (∀ a b c, pair_leb a b = true → pair_leb b c = true → pair_leb a c = true) ∧
  (∀ a b, pair_leb a b = true → pair_leb b a = true → a = b).
Proof.
  destruct pair2_order as (Ht&Htr&Ha). unfold pair_leb. split_and!.
  - intros [a x] [b y]; simpl. repeat case_decide; subst; try done; destruct x, y; auto.
  - intros [a x] [b y] [c z]; simpl. repeat case_decide; subst; try done; eauto.
    + by destruct x, y, z.
  - intros [a x] [b y]; simpl. repeat case_decide; subst; try done.
    + by destruct x, y.
    + intros H1 H2. exfalso. eauto.
Qed.

(** The distinct pairs of a round. *)
Definition pairs_of (round : list CallObservation) : list Pair :=
  dedup (sort_by pair_leb (map obs_pair round)).

Lemma pairs_of_spec round :
  NoDup (pairs_of round) ∧ ∀ p, p ∈ pairs_of round ↔ ∃ o, o ∈ round ∧ p = obs_pair o.
Proof.
  destruct pair_order as (Ht&Htr&Ha).
  destruct (sort_dedup_spec pair_leb (map obs_pair round) Ht Htr Ha) as [Hnd Hin].
  split; [exact Hnd|]. intros p. unfold pairs_of. rewrite Hin.
  change (@map) with (@fmap list _). rewrite list_elem_of_fmap. naive_solver.
Qed.

(** ** Exact failures *)

(** The round shows the exact failure [key]; the round shows a success of [call]. *)
Definition fails (key : Z * Z) (round : list CallObservation) : bool :=
  existsb (λ o, ob_is_error o && negb (ob_transient o)
                && bool_decide ((ob_call_fp o, ob_result_fp o) = key)) round.

Definition succeeds (call : Z) (round : list CallObservation) : bool :=
  existsb (λ o, negb (ob_is_error o) && (ob_call_fp o =? call)%Z) round.

(** How many rounds have shown [key] since its call last succeeded. *)
Definition streak_step (key : Z * Z) (n : nat) (round : list CallObservation) : nat :=
  (if succeeds key.1 round then 0 else n) + (if fails key round then 1 else 0).

Definition streak (key : Z * Z) (rounds : list (list CallObservation)) : nat :=
  foldl (streak_step key) 0 rounds.

Lemma lookup_reset_failures round m key :
  reset_failures round m !! key = if succeeds key.1 round then None else m !! key.
Proof.
  unfold reset_failures, succeeds. revert m. induction round as [|o round IH]; intros m; simpl; [done|].
  destruct (ob_is_error o); simpl; [apply IH|]. rewrite IH.
  destruct (existsb _ round); [by rewrite orb_true_r|]. rewrite orb_false_r.
  destruct (Z.eqb_spec (ob_call_fp o) key.1) as [He|Hne].
  - apply map_lookup_filter_None. right. intros x _. simpl. naive_solver.
  - destruct (m !! key) as [n|] eqn:E.
    + apply map_lookup_filter_Some. split; [done|]. simpl. naive_solver.
    + apply map_lookup_filter_None. by left.
Qed.

Lemma size_reset_failures round m : size (reset_failures round m) ≤ size m.
Proof.
  unfold reset_failures. revert m. induction (List.filter _ round) as [|o l IH]; intros m; simpl; [done|].
  etrans; [apply IH|]. apply map_subseteq_size, map_filter_subseteq.
Qed.

Lemma round_failures_spec round m :
  NoDup (round_failures round m) ∧ ∀ key, key ∈ round_failures round m ↔ fails key round = true.
Proof.
  destruct pair2_order as (Ht&Htr&Ha). unfold round_failures.
  set (fs := map _ (List.filter _ round)).
  destruct (sort_dedup_spec pair2_leb fs Ht Htr Ha) as [Hnd Hin].
  split; [by rewrite sort_by_perm|]. intros key. rewrite sort_by_perm, Hin. unfold fs, fails.
  rewrite existsb_exists. change (@map) with (@fmap list _). rewrite list_elem_of_fmap.
  setoid_rewrite list_elem_of_In. setoid_rewrite filter_In.
  split.
  - intros (o&->&Ho&Hc). exists o. split; [done|]. rewrite Hc. by rewrite bool_decide_eq_true_2.
  - intros (o&Ho&[Hc Hk%bool_decide_eq_true]%andb_true_iff). eauto.
Qed.

Lemma lookup_bump {K} `{Countable K} (m : gmap K nat) k k' :
  bump m k !! k' = if decide (k = k') then Some (default 0 (m !! k) + 1) else m !! k'.
Proof. unfold bump. case_decide as E; [subst; by rewrite lookup_insert, decide_True|by rewrite lookup_insert_ne]. Qed.

Lemma count_failures_ok round m steer fs m' steer' :
  count_failures round m steer fs = (m', Ok steer') → NoDup fs →
  size m ≤ MAX_TRACKED_FAILURES →
  size m' ≤ MAX_TRACKED_FAILURES ∧
  ∀ key, m' !! key = (if decide (key ∈ fs) then Some (default 0 (m !! key) + 1) else m !! key) ∧
         (key ∈ fs → default 0 (m' !! key) < FAILURE_STOP_ROUNDS).
Proof.
  revert m steer. induction fs as [|k fs IH]; intros m steer; cbn [count_failures].
  { intros [= <- <-] _ Hsz. split; [done|]. intros key. rewrite decide_False by set_solver. set_solver. }
  destruct (negb _ && _) eqn:Ecap; [done|]. destruct (Nat.leb_spec FAILURE_STOP_ROUNDS (default 0 (m !! k) + 1)) as [|Hlt]; [done|].
  intros He [Hk Hnd]%NoDup_cons Hsz. apply IH in He as [Hsz' Hl]; [|done|].
  - split; [done|]. intros key. destruct (Hl key) as [Hm Hb]. rewrite lookup_bump in Hm.
    destruct (decide (k = key)) as [->|Hne].
    + rewrite decide_False in Hm by done. rewrite decide_True by set_solver. split; [done|].
      intros _. by rewrite Hm.
    + split; [|set_solver]. rewrite Hm. repeat case_decide; try done; set_solver.
  - unfold bump. destruct (m !! k) as [n|] eqn:E; cbn [is_some negb andb] in Ecap.
    + rewrite map_size_insert_Some by eauto. done.
    + apply Nat.leb_gt in Ecap. rewrite map_size_insert_None by done. lia.
Qed.

Section detector_proofs.
Context (hash_set : list Z → Z).
Implicit Types (d : LoopDetector) (round : list CallObservation).

Definition is_break (v : RoundVerdict) : bool := match v with Break _ => true | _ => false end.

Lemma observe_legacy_failures d round :
  ld_failure_rounds (observe_legacy hash_set d round).1 = ld_failure_rounds d ∧
  ld_cfg (observe_legacy hash_set d round).1 = ld_cfg d.
Proof.
  unfold observe_legacy, render_steer. cbn zeta.
  repeat (case_match; simplify_eq/=; try done).
Qed.

(** The failures tracked by a detector that has not stopped the turn. *)
Record tracks d (rounds : list (list CallObservation)) : Prop := {
  tr_count : ∀ key, default 0 (ld_failure_rounds d !! key) = streak key rounds;
  tr_bound : ∀ key, streak key rounds < FAILURE_STOP_ROUNDS;
  tr_size : size (ld_failure_rounds d) ≤ MAX_TRACKED_FAILURES;
}.

Lemma streak_snoc key rounds round :
  streak key (rounds ++ [round]) = streak_step key (streak key rounds) round.
Proof. unfold streak. by rewrite foldl_app. Qed.

Lemma observe_round_failures d round d' v :
  observe_round hash_set d round = (d', v) → is_break v = false → round ≠ [] →
  ∃ steer, count_failures round (reset_failures round (ld_failure_rounds d)) None
             (round_failures round (reset_failures round (ld_failure_rounds d))) =
           (ld_failure_rounds d', Ok steer).
Proof.
  unfold observe_round. destruct round as [|o round]; [done|]. intros Hobs Hv _.
  destruct (count_failures _ _ _ _) as [m [steer|text]] eqn:Ec; [|by simplify_eq].
  exists steer. f_equal.
  set (d1 := mkDetector _ _ _ _ _ _ _ _ _ _) in Hobs.
  destruct (observe_legacy_failures d1 (o :: round)) as [Hf _].
  destruct (observe_legacy hash_set d1 (o :: round)) as [d2 legacy]. simpl in Hf.
  destruct legacy, steer; simplify_eq/=; done.
Qed.

Lemma tracks_step d rounds round d' v :
  tracks d rounds → observe_round hash_set d round = (d', v) → is_break v = false →
  tracks d' (rounds ++ [round]).
Proof.
  intros [Hc Hb Hs] Hobs Hv. destruct (decide (round = [])) as [->|Hne].
  { simplify_eq/=. assert (∀ key, streak key (rounds ++ [[]]) = streak key rounds) as Hnil.
    { intros key. rewrite streak_snoc. unfold streak_step. simpl. lia. }
    split; intros; rewrite ?Hnil; auto. }
  destruct (observe_round_failures d round d' v Hobs Hv Hne) as [steer Hcount].
  set (m0 := reset_failures round (ld_failure_rounds d)) in *.
  destruct (round_failures_spec round m0) as [Hnd Hin].
  destruct (count_failures_ok _ _ _ _ _ _ Hcount Hnd) as [Hsz Hl].
  { etrans; [apply size_reset_failures|done]. }
  assert (∀ key, default 0 (m0 !! key) = if succeeds key.1 round then 0 else streak key rounds) as Hm0.
  { intros key. unfold m0. rewrite lookup_reset_failures. destruct (succeeds key.1 round); [done|apply Hc]. }
  assert (∀ key, default 0 (ld_failure_rounds d' !! key) = streak key (rounds ++ [round])) as Hcnt.
  { intros key. destruct (Hl key) as [-> _]. rewrite streak_snoc. unfold streak_step.
    case_decide as Hk; [|destruct (fails key round) eqn:E; [by apply Hin in E|]]; simpl; rewrite Hm0.
    - apply Hin in Hk. rewrite Hk. done.
    - by rewrite Nat.add_0_r. }
  split; [done| |done]. intros key. destruct (Hl key) as [_ Hlt].
  rewrite <- Hcnt. destruct (decide (key ∈ round_failures round m0)) as [Hk|Hk]; [auto|].
  destruct (Hl key) as [-> _]. rewrite decide_False by done. rewrite Hm0.
  destruct (succeeds _ _); [unfold FAILURE_STOP_ROUNDS; lia|apply Hb].
Qed.

Lemma tracks_rounds d before rounds :
  tracks d before → (∀ v, v ∈ (observe_rounds hash_set d rounds).2 → is_break v = false) →
  tracks (observe_rounds hash_set d rounds).1 (before ++ rounds).
Proof.
  revert d before. induction rounds as [|round rounds IH]; intros d before Ht Hv; simpl in *.
  { by rewrite app_nil_r. }
  destruct (observe_round hash_set d round) as [d1 v] eqn:E.
  destruct v as [|text|text]; [| |exfalso; specialize (Hv (Break text)); set_solver];
    (destruct (observe_rounds hash_set d1 rounds) as [d2 vs] eqn:E2; simpl in *;
     rewrite cons_middle, app_assoc; specialize (IH d1 (before ++ [round])); rewrite E2 in IH; simpl in IH;
     apply IH; [by eapply tracks_step|set_solver]).
Qed.

(** The exact-failure budget.  In a turn the detector did not stop, its
    counters are, for every exact failure (call, error), the number of rounds that
    showed it since the call last succeeded; that number is below the stopping
    limit, and no more than the maximum number of failures is tracked.  So the
    same failing call is never repeated six times without a success. *)
Theorem exact_failure_budget cfg template rounds :
  let '(d, verdicts) := observe_rounds hash_set (detector_new cfg template) rounds in
  (∀ v, v ∈ verdicts → is_break v = false) →
  (∀ key, default 0 (ld_failure_rounds d !! key) = streak key rounds ∧
          streak key rounds < FAILURE_STOP_ROUNDS) ∧
  size (ld_failure_rounds d) ≤ MAX_TRACKED_FAILURES.
Proof.
  pose proof (tracks_rounds (detector_new cfg template) [] rounds) as Ht.
  destruct (observe_rounds _ _ _) as [d vs]. simpl in Ht. intros Hv.
  destruct Ht as [Hc Hb Hs]; [|done|auto].
  split; [intros key; simpl; by rewrite lookup_empty|intros key; apply Nat.lt_0_succ|].
  apply Nat.le_0_l.
Qed.

(** ** The no-progress window *)

(** The round shows a pair outside the window. *)
Definition novel d round : bool :=
  existsb (λ p, negb (is_some (ld_pair_rounds d !! p))) (pairs_of round).

Definition next_pairs d round : gmap Pair nat :=
  foldl bump (if novel d round then ∅ else ld_pair_rounds d) (pairs_of round).

Definition next_count d round : nat :=
  if novel d round then 0 else ld_consecutive_no_novelty d + 1.

Lemma lookup_bumps {K} `{Countable K} (m : gmap K nat) (l : list K) k :
  NoDup l → foldl bump m l !! k = if decide (k ∈ l) then Some (default 0 (m !! k) + 1) else m !! k.
Proof.
  intros Hnd. revert m. induction Hnd as [|x l Hx Hnd IH]; intros m; simpl.
  { done. }
  rewrite IH, lookup_bump. repeat case_decide; subst; try done; set_solver.
Qed.

(** What the window is after a round, whatever the verdict. *)
Lemma observe_legacy_window d round :
  let d' := (observe_legacy hash_set d round).1 in
  ld_pair_rounds d' = next_pairs d round ∧
  ld_consecutive_no_novelty d' = next_count d round ∧
  ld_last_call_set d' = Some (call_set_of hash_set round).
Proof.
  unfold next_pairs, next_count, novel, pairs_of, observe_legacy, render_steer. cbn zeta.
  repeat (case_match; simplify_eq/=; try done).
Qed.

Lemma observe_legacy_breaker d round :
  0 < cfg_circuit_breaker_rounds (ld_cfg d) ≤ next_count d round →
  is_break (observe_legacy hash_set d round).2 = true.
Proof.
  intros [Hpos Hle]. unfold next_count, novel, pairs_of in Hle. unfold observe_legacy. cbn zeta.
  apply Nat.ltb_lt in Hpos. apply Nat.leb_le in Hle.
  destruct (match ld_steered_call_set d with Some _ => _ | None => _ end) as [steered ignored].
  by rewrite Hpos, Hle.
Qed.

(** [observe_round] seen from the window. *)
Lemma observe_round_window d round d' v :
  observe_round hash_set d round = (d', v) → is_break v = false → round ≠ [] →
  ld_pair_rounds d' = next_pairs d round ∧
  ld_consecutive_no_novelty d' = next_count d round ∧
  ld_cfg d' = ld_cfg d ∧
  (0 < cfg_circuit_breaker_rounds (ld_cfg d) →
   next_count d round < cfg_circuit_breaker_rounds (ld_cfg d)).
Proof.
  unfold observe_round. destruct round as [|o round]; [done|]. intros Hobs Hv _.
  destruct (count_failures _ _ _ _) as [m [steer|text]] eqn:Ec; [|by simplify_eq].
  set (d1 := mkDetector _ _ _ _ _ _ _ _ _ _) in Hobs.
  destruct (observe_legacy_window d1 (o :: round)) as (Hp&Hn&_).
  pose proof (observe_legacy_breaker d1 (o :: round)) as Hbr.
  destruct (observe_legacy_failures d1 (o :: round)) as [_ Hcfg].
  change (next_pairs d1 (o :: round)) with (next_pairs d (o :: round)) in Hp.
  change (next_count d1 (o :: round)) with (next_count d (o :: round)) in Hn, Hbr.
  change (ld_cfg d1) with (ld_cfg d) in Hcfg, Hbr.
  destruct (observe_legacy hash_set d1 (o :: round)) as [d2 legacy]. simpl in Hp, Hn, Hcfg, Hbr.
  assert (is_break legacy = false ∧ ld_pair_rounds d' = ld_pair_rounds d2 ∧
    ld_consecutive_no_novelty d' = ld_consecutive_no_novelty d2 ∧ ld_cfg d' = ld_cfg d2) as (Hl&->&->&->).
  { destruct legacy, steer; by simplify_eq/=. }
  split_and!; [done..|]. intros Hpos. apply Nat.lt_nge. intros Hle. rewrite Hbr in Hl; [done|lia].
Qed.

Lemma novel_false d round :
  novel d round = false ↔ ∀ p, p ∈ pairs_of round → is_Some (ld_pair_rounds d !! p).
Proof.
  unfold novel. rewrite <- not_true_iff_false, existsb_exists. setoid_rewrite <- list_elem_of_In. split.
  - intros Hn p Hp. destruct (ld_pair_rounds d !! p) eqn:E; [eauto|].
    exfalso. apply Hn. exists p. by rewrite E.
  - intros Hn (p&Hp&Hx). destruct (Hn p Hp) as [n Hs]. by rewrite Hs in Hx.
Qed.

Lemma next_pairs_known d round p :
  p ∈ pairs_of round → is_Some (next_pairs d round !! p).
Proof.
  intros Hp. unfold next_pairs. rewrite lookup_bumps by apply pairs_of_spec. rewrite decide_True by done. eauto.
Qed.

Lemma next_pairs_keeps d round p :
  novel d round = false → is_Some (ld_pair_rounds d !! p) → is_Some (next_pairs d round !! p).
Proof.
  intros Hn Hp. unfold next_pairs. rewrite Hn, lookup_bumps by apply pairs_of_spec.
  case_decide; [eauto|done].
Qed.

(** Repeating rounds of known pairs reaches the breaker. *)
Lemma breaker_reached d rounds (known : list Pair) :
  0 < cfg_circuit_breaker_rounds (ld_cfg d) →
  cfg_circuit_breaker_rounds (ld_cfg d) ≤ ld_consecutive_no_novelty d + length rounds →
  ld_consecutive_no_novelty d < cfg_circuit_breaker_rounds (ld_cfg d) →
  (∀ p, p ∈ known → is_Some (ld_pair_rounds d !! p)) →
  (∀ round, round ∈ rounds → round ≠ [] ∧ ∀ p, p ∈ pairs_of round → p ∈ known) →
  ∃ v, v ∈ (observe_rounds hash_set d rounds).2 ∧ is_break v = true.
Proof.
  revert d. induction rounds as [|round rounds IH]; intros d Hpos Hlen Hlt Hk Hr; simpl in *; [lia|].
  destruct (Hr round) as [Hne Hsub]; [set_solver|].
  assert (novel d round = false) as Hnov by (apply novel_false; naive_solver).
  destruct (observe_round hash_set d round) as [d1 v] eqn:E.
  destruct (is_break v) eqn:Hv.
  { exists v. destruct v; try done. simpl. set_solver. }
  destruct (observe_round_window d round d1 v E Hv Hne) as (Hp&Hn&Hc&Hbr).
  unfold next_count in Hn, Hbr. rewrite Hnov in Hn, Hbr.
  destruct (IH d1) as (w&Hw&Hb); rewrite ?Hc, ?Hn; auto; [lia| |set_solver|].
  { intros p Hp'. rewrite Hp. apply next_pairs_keeps; auto. }
  exists w. split; [|done]. destruct (observe_rounds hash_set d1 rounds). destruct v; simpl in *; set_solver.
Qed.

(** The circuit breaker ends every storm.  Whatever the detector has seen, a
    round followed by as many rounds as the breaker allows, all of which only show
    pairs of the first, is stopped: no model can keep repeating known calls with
    known results. *)
Theorem circuit_breaker_stops_storm d first rounds :
  let breaker := cfg_circuit_breaker_rounds (ld_cfg d) in
  0 < breaker → breaker ≤ length rounds → first ≠ [] →
  (∀ round, round ∈ rounds → round ≠ [] ∧
     ∀ o, o ∈ round → ∃ o', o' ∈ first ∧ obs_pair o' = obs_pair o) →
  ∃ v, v ∈ (observe_rounds hash_set d (first :: rounds)).2 ∧ is_break v = true.
Proof.
  intros breaker Hpos Hlen Hf Hr. simpl.
  destruct (observe_round hash_set d first) as [d1 v] eqn:E.
  destruct (is_break v) eqn:Hv.
  { exists v. destruct v; try done. simpl. set_solver. }
  destruct (observe_round_window d first d1 v E Hv Hf) as (Hp&Hn&Hc&Hbr).
  destruct (breaker_reached d1 rounds (pairs_of first)) as (w&Hw&Hb); rewrite ?Hc, ?Hn; auto.
  - unfold breaker in Hlen. lia.
  - intros p Hp'. rewrite Hp. by apply next_pairs_known.
  - intros round (Hne&Hsub)%Hr. split; [done|]. intros p (o&Ho&->)%pairs_of_spec.
    destruct (Hsub o Ho) as (o'&Ho'&<-). apply pairs_of_spec. eauto.
  - exists w. split; [|done]. destruct (observe_rounds hash_set d1 rounds). destruct v; simpl in *; set_solver.
Qed.

(** ** Progress is not disturbed *)

(** A round without exact failures. *)
Definition no_failure round : Prop := ∀ o, o ∈ round → ob_is_error o = false ∨ ob_transient o = true.

Lemma no_failure_counts round m :
  no_failure round → count_failures round m None (round_failures round m) = (m, Ok None).
Proof.
  intros Hf. assert (round_failures round m = []) as ->; [|done].
  destruct (round_failures round m) as [|key l] eqn:E; [done|]. exfalso.
  assert (fails key round = true) as Hk.
  { apply (round_failures_spec round m). rewrite E. set_solver. }
  unfold fails in Hk. apply existsb_exists in Hk as (o&Ho%list_elem_of_In&Hc).
  apply andb_true_iff in Hc as [[He Ht]%andb_true_iff _].
  destruct (Hf o Ho) as [Hx|Hx]; rewrite Hx in *; done.
Qed.

(** The verdict of a round without exact failures is that of the window. *)
Lemma observe_round_no_failure d round :
  no_failure round → round ≠ [] →
  ∃ m stats,
    observe_round hash_set d round =
    observe_legacy hash_set
      (mkDetector (ld_cfg d) (ld_steer_sections d) (ld_pair_rounds d) m
         (ld_consecutive_no_novelty d) (ld_last_call_set d) (ld_steered_call_set d)
         (ld_ignored_steers d) (ld_rotation d) stats) round.
Proof.
  intros Hf Hne. destruct round as [|o round]; [done|]. unfold observe_round.
  rewrite no_failure_counts by done.
  exists (reset_failures (o :: round) (ld_failure_rounds d)),
    (mkStats (ds_rounds_observed (ld_stats d) + 1) (ds_steers_emitted (ld_stats d))
       (ds_steers_suppressed (ld_stats d)) (ds_max_pair_repeats (ld_stats d))).
  destruct (observe_legacy _ _ _) as [d2 []]; reflexivity.
Qed.

Lemma novel_max_repeats d round :
  novel d round = true →
  foldr Nat.max 0 (map (λ p, default 0 (next_pairs d round !! p)) (pairs_of round)) ≤ 1.
Proof.
  intros Hn. unfold next_pairs. rewrite Hn.
  assert (∀ l : list Pair, (∀ p, p ∈ l → p ∈ pairs_of round) →
    foldr Nat.max 0 (map (λ p, default 0 (foldl bump ∅ (pairs_of round) !! p)) l) ≤ 1) as Hl; [|auto].
  intros l. induction l as [|p l IH]; intros Hsub; simpl; [lia|].
  rewrite lookup_bumps by apply pairs_of_spec. rewrite decide_True by set_solver.
  rewrite lookup_empty. simpl. pose proof (IH ltac:(set_solver)). lia.
Qed.

Lemma novel_round_proceeds d round :
  novel d round = true → cfg_repeat_threshold (ld_cfg d) ≠ 1 →
  (observe_legacy hash_set d round).2 = Proceed.
Proof.
  intros Hn Ht. pose proof (novel_max_repeats d round Hn) as Hmax.
  unfold next_pairs in Hmax. unfold novel, pairs_of in Hn, Hmax. unfold observe_legacy. cbn zeta.
  rewrite Hn in Hmax |- *.
  destruct (match ld_steered_call_set d with Some _ => _ | None => _ end) as [steered ignored].
  set (mr := foldr Nat.max 0 _) in Hmax |- *.
  assert (∀ t, (0 <? t) && (t <=? 0) = false) as Hz by (intros [|t]; done). rewrite !Hz.
  assert ((0 <? cfg_repeat_threshold (ld_cfg d)) && (cfg_repeat_threshold (ld_cfg d) <=? mr) = false) as ->.
  { apply andb_false_iff. rewrite Nat.ltb_ge, Nat.leb_gt. lia. }
  done.
Qed.

(** Each round shows a pair its predecessor did not show. *)
Fixpoint changing (prev : list CallObservation) (rounds : list (list CallObservation)) : Prop :=
  match rounds with
  | [] => True
  | round :: rounds =>
      (∃ o, o ∈ round ∧ ∀ o', o' ∈ prev → obs_pair o' ≠ obs_pair o) ∧ changing round rounds
  end.

Lemma changing_proceeds d prev rounds :
  cfg_repeat_threshold (ld_cfg d) ≠ 1 →
  (∀ p, is_Some (ld_pair_rounds d !! p) → p ∈ pairs_of prev) →
  changing prev rounds → (∀ round, round ∈ rounds → no_failure round) →
  ∀ v, v ∈ (observe_rounds hash_set d rounds).2 → v = Proceed.
Proof.
  revert d prev. induction rounds as [|round rounds IH]; intros d prev Ht Hp Hc Hf; simpl; [set_solver|].
  destruct Hc as [(o&Ho&Hnew) Hc]. assert (round ≠ []) as Hne by (intros ->; set_solver).
  assert (novel d round = true) as Hn.
  { apply not_false_iff_true. rewrite novel_false. intros Hall.
    destruct (proj1 (proj2 (pairs_of_spec prev) (obs_pair o))) as (o'&Ho'&He).
    - apply Hp, Hall. apply pairs_of_spec. eauto.
    - by eapply Hnew. }
  destruct (observe_round hash_set d round) as [d1 v] eqn:E.
  assert (v = Proceed) as ->.
  { destruct (observe_round_no_failure d round) as (m&stats&He); [apply Hf; set_solver|done|].
    rewrite He in E. set (d0 := mkDetector _ _ _ _ _ _ _ _ _ _) in E.
    pose proof (novel_round_proceeds d0 round Hn Ht) as Hv. rewrite E in Hv. done. }
  destruct (observe_round_window d round d1 Proceed E eq_refl Hne) as (Hp1&_&Hc1&_).
  destruct (observe_rounds hash_set d1 rounds) as [d2 vs] eqn:E2. simpl. intros w [->|Hw]%elem_of_cons; [done|].
  apply (IH d1 round); [by rewrite Hc1| |done|set_solver|by rewrite E2].
  intros p. rewrite Hp1. unfold next_pairs. rewrite Hn, lookup_bumps by apply pairs_of_spec.
  case_decide; [done|]. rewrite lookup_empty. by intros [].
Qed.

(** Work that makes progress is never disturbed: as long as every round
    shows some call or result that the round before it did not show, and no exact
    failure, the detector lets the turn proceed without a hint or a stop. *)
Theorem progress_is_not_disturbed cfg template rounds :
  cfg_repeat_threshold cfg ≠ 1 → changing [] rounds →
  (∀ round, round ∈ rounds → no_failure round) →
  ∀ v, v ∈ (observe_rounds hash_set (detector_new cfg template) rounds).2 → v = Proceed.
Proof.
  intros Ht Hc Hf. apply (changing_proceeds _ []); try done.
  intros p. simpl. rewrite lookup_empty. by intros [].
Qed.

(** ** Hints back off *)

Definition is_steer (v : RoundVerdict) : bool := match v with Steer _ => true | _ => false end.

(** The detector has steered on the call-set of [round], which shows nothing new,
    and the no-progress window is open for [n] more rounds without a stop. *)
Record stuck d round (n : nat) : Prop := {
  stuck_steered : ld_steered_call_set d = Some (call_set_of hash_set round);
  stuck_known : novel d round = false;
  stuck_window : 0 < cfg_no_novelty_rounds (ld_cfg d) ≤ ld_consecutive_no_novelty d + 1;
  stuck_breaker : cfg_circuit_breaker_rounds (ld_cfg d) = 0 ∨
    ld_consecutive_no_novelty d + n < cfg_circuit_breaker_rounds (ld_cfg d);
}.

Lemma stuck_legacy d round n :
  stuck d round (S n) →
  let '(d', v) := observe_legacy hash_set d round in
  is_steer v = is_power_of_two (ld_ignored_steers d + 1) ∧ is_break v = false ∧
  ld_ignored_steers d' = ld_ignored_steers d + 1 ∧ stuck d' round n.
Proof.
  intros [Hs Hk [Hw0 Hw] Hb].
  destruct (observe_legacy_window d round) as (Hp'&Hn'&_).
  destruct (observe_legacy_failures d round) as [_ Hc'].
  assert (∀ p, p ∈ pairs_of round → is_Some (next_pairs d round !! p)) as Hknown
    by (intros; by apply next_pairs_known).
  assert (next_count d round = ld_consecutive_no_novelty d + 1) as Hcnt by (unfold next_count; by rewrite Hk).
  rewrite Hcnt in Hn'.
  assert ((0 <? cfg_circuit_breaker_rounds (ld_cfg d)) &&
    (cfg_circuit_breaker_rounds (ld_cfg d) <=? ld_consecutive_no_novelty d + 1) = false) as Hbr.
  { apply andb_false_iff. rewrite Nat.ltb_ge, Nat.leb_gt. lia. }
  assert ((0 <? cfg_no_novelty_rounds (ld_cfg d)) &&
    (cfg_no_novelty_rounds (ld_cfg d) <=? ld_consecutive_no_novelty d + 1) = true) as Hwin.
  { apply andb_true_iff. rewrite Nat.ltb_lt, Nat.leb_le. lia. }
  destruct (observe_legacy hash_set d round) as [d' v] eqn:E. simpl in Hp', Hn', Hc'.
  assert (ld_steered_call_set d' = Some (call_set_of hash_set round) ∧
    is_steer v = is_power_of_two (ld_ignored_steers d + 1) ∧ is_break v = false ∧
    ld_ignored_steers d' = ld_ignored_steers d + 1) as (Hs'&Hv&Hnb&Hi).
  { unfold novel, pairs_of in Hk. unfold observe_legacy in E. cbn zeta in E.
    rewrite Hk, Hs, Z.eqb_refl, Hbr, Hwin, andb_false_r in E.
    rewrite bool_decide_eq_true_2 in E by done.
    destruct (is_power_of_two (ld_ignored_steers d + 1)) eqn:Ep.
    - destruct (render_steer _ _ _) as [d'' text] eqn:Er. unfold render_steer in Er.
      repeat case_match; simplify_eq/=; done.
    - by simplify_eq/=. }
  split_and!; [done..|]. split; rewrite ?Hc', ?Hn'; [done| |lia|lia].
  apply novel_false. intros p Hp. rewrite Hp'. auto.
Qed.

(** Hints back off exponentially.  While the model repeats the call-set the
    detector has steered on, and nothing new shows, the next [n] rounds hint
    exactly in those whose number of ignored hints is a power of two. *)
Theorem steers_back_off d round n :
  stuck d round n → no_failure round → round ≠ [] →
  map is_steer (observe_rounds hash_set d (repeat round n)).2 =
  map (λ i, is_power_of_two (ld_ignored_steers d + i)) (seq 1 n).
Proof.
  revert d. induction n as [|n IH]; intros d Hst Hf Hne; [done|]. cbn [repeat observe_rounds].
  destruct (observe_round_no_failure d round Hf Hne) as (m&stats&He).
  set (d0 := mkDetector _ _ _ _ _ _ _ _ _ _) in He.
  assert (stuck d0 round (S n)) as Hst0 by (by destruct Hst).
  pose proof (stuck_legacy d0 round n Hst0) as Hstep. rewrite <- He in Hstep.
  destruct (observe_round hash_set d round) as [d1 v].
  destruct Hstep as (Hv&Hb&Hi&Hst1).
  assert (map is_steer (observe_rounds hash_set d1 (repeat round n)).2 =
    map (λ i, is_power_of_two (ld_ignored_steers d + i)) (seq 2 n)) as Htail.
  { rewrite (IH d1 Hst1 Hf Hne), Hi, <- (seq_shift n 1), List.map_map. apply List.map_ext.
    intros i. f_equal. simpl. lia. }
  destruct (observe_rounds hash_set d1 (repeat round n)) as [d2 vs]. simpl in Htail |- *.
  change (ld_ignored_steers d0) with (ld_ignored_steers d) in Hv.
  destruct v; [| |done]; simpl in *; by rewrite <- Hv, Htail.
Qed.

End detector_proofs.

(** ** Concrete runs *)

Definition sum_hash (l : list Z) : Z := foldr Z.add 0%Z l.

Definition ok_obs (call res : Z) : CallObservation := mkObs "read_file" call res false false.
Definition err_obs (call res : Z) : CallObservation := mkObs "exec" call res true false.

Lemma exact_failure_budget_witness :
  let rounds := [[err_obs 1 7]; [err_obs 1 7]; [ok_obs 1 8; err_obs 1 7]; [err_obs 1 7]] in
  let d := (observe_rounds sum_hash (detector_new loop_config_default "") rounds).1 in
  default 0 (ld_failure_rounds d !! (1, 7)%Z) = 2 ∧ streak (1, 7)%Z rounds < FAILURE_STOP_ROUNDS.
Proof.
  intros rounds d.
  pose proof (exact_failure_budget sum_hash loop_config_default "" rounds) as Hb.
  assert (∀ v, v ∈ (observe_rounds sum_hash (detector_new loop_config_default "") rounds).2 →
    is_break v = false) as Hv.
  { intros v Hin%list_elem_of_In. apply negb_true_iff. revert v Hin.
    apply (proj1 (forallb_forall (λ v, negb (is_break v)) _)). by vm_compute. }
  rewrite (surjective_pairing (observe_rounds _ _ rounds)) in Hb.
  destruct (Hb Hv) as [Hk _]. destruct (Hk (1, 7)%Z) as [Hc Hlt].
  split; [|exact Hlt]. unfold d. rewrite Hc. done.
Defined.

Lemma circuit_breaker_stops_storm_witness :
  ∃ v, v ∈ (observe_rounds sum_hash (detector_new loop_config_default "")
              ([ok_obs 1 1; ok_obs 2 2] :: repeat [ok_obs 2 2] 12)).2 ∧ is_break v = true.
Proof.
  apply (circuit_breaker_stops_storm sum_hash (detector_new loop_config_default "")).
  - simpl. lia.
  - simpl. lia.
  - done.
  - intros round ->%list_elem_of_In%repeat_spec. split; [done|]. intros o ->%list_elem_of_singleton.
    exists (ok_obs 2 2). split; [set_solver|done].
Defined.

(** Two calls in turn, each with its own result, for as long as one likes. *)
Lemma progress_is_not_disturbed_witness :
  (observe_rounds sum_hash (detector_new loop_config_default "")
     [[ok_obs 1 1]; [ok_obs 2 2]; [ok_obs 1 1]; [ok_obs 2 2]; [ok_obs 1 1]; [ok_obs 2 2]]).2 !! 5
  = Some Proceed.
Proof.
  set (rounds := [[ok_obs 1 1]; _; _; _; _; _]).
  assert (∀ v, v ∈ (observe_rounds sum_hash (detector_new loop_config_default "") rounds).2 →
    v = Proceed) as Hv.
  { apply (progress_is_not_disturbed sum_hash loop_config_default ""); [done| |].
    - simpl. split_and!; try done; eexists; (split; [by apply list_elem_of_singleton|]);
        intros o'; rewrite ?elem_of_nil, ?list_elem_of_singleton; try done; by intros ->.
    - intros round Hr o Ho. left. unfold rounds in Hr.
      repeat (apply elem_of_cons in Hr as [->|Hr]; [apply list_elem_of_singleton in Ho as ->; done|]).
      by apply elem_of_nil in Hr. }
  assert (is_Some ((observe_rounds sum_hash (detector_new loop_config_default "") rounds).2 !! 5)) as [v E].
  { by apply lookup_lt_is_Some; vm_compute. }
  rewrite E. f_equal. apply Hv. by eapply list_elem_of_lookup_2.
Defined.

(** After the first hint, the hints 1, 2 and 4 are given and 3 and 5 are not. *)
Lemma steers_back_off_witness :
  let d := (observe_rounds sum_hash (detector_new loop_config_default "")
              (repeat [ok_obs 1 1] 3)).1 in
  map is_steer (observe_rounds sum_hash d (repeat [ok_obs 1 1] 5)).2 =
  [true; true; false; true; false].
Proof.
  intros d. rewrite (steers_back_off sum_hash d [ok_obs 1 1] 5).
  - by vm_compute.
  - split; [by vm_compute|by vm_compute|by vm_compute; lia|by right; vm_compute; lia].
  - intros o ->%list_elem_of_singleton. by left.
  - done.
Defined.
