(* ===== verification/ProviderErrors.v ===== *)
(** * Provider errors

    Models the part of [src/src/session_core.rs] that turns a provider's error
    text into what users and logs may see: [safe_provider_error_message] chooses
    one of a fixed set of messages, [canonical_assistant_outcome] maps the end of
    a turn to the outcome clients receive, and [sanitize_provider_error] masks
    tokens that look like credentials and bounds the text for the debug log. *)

From Stdlib Require Import Ascii.
From stdpp Require Import base numbers list strings gmap sorting.
From S2P Require Import Prelude RustStr Utf8 Protocol.

(** ** HTTP status codes in error text *)

(** [u8::is_ascii_alphanumeric] and [is_ascii_digit] on a byte; a character that
    is not ASCII is neither. *)
Definition byte_is_digit (c : Ascii.ascii) : bool := (48 <=? byte_of c) && (byte_of c <=? 57).

Definition byte_is_alphanumeric (c : Ascii.ascii) : bool :=
  byte_is_digit c || ((65 <=? byte_of c) && (byte_of c <=? 90))
  || ((97 <=? byte_of c) && (byte_of c <=? 122)).

Definition char_is_alphanumeric (g : string) : bool :=
  match g with String c EmptyString => byte_is_alphanumeric c | _ => false end.

(** [str::split] by a predicate on characters. *)
Fixpoint split_chars (sep : string → bool) (cur : string) (cs : list string) : list string :=
  match cs with
  | [] => [cur]
  | g :: cs => if sep g then cur :: split_chars sep "" cs else split_chars sep (cur +:+ g) cs
  end.

Definition error_has_token (error token : string) : bool :=
  existsb (λ part, bool_decide (part = token))
    (split_chars (λ g, negb (char_is_alphanumeric g)) "" (chars error)).

(** What follows each match of [str::match_indices]. *)
Fixpoint match_rests (fuel : nat) (needle s : string) : list string :=
  match fuel with
  | 0 => []
  | S fuel =>
      match strip_prefix needle s with
      | Some rest => rest :: match_rests fuel needle rest
      | None => match s with
                | EmptyString => []
                | String _ s => match_rests fuel needle s
                end
      end
  end.

Definition compact (error : string) : string :=
  str_concat (List.filter char_is_alphanumeric (chars error)).

Definition starts_with_digit (s : string) : bool :=
  match s with String c _ => byte_is_digit c | EmptyString => false end.

Definition error_has_http_status (error status : string) : bool :=
  error_has_token error status ||
  existsb (λ prefix,
    existsb (λ rest, negb (starts_with_digit rest))
      (match_rests (S (String.length (compact error))) (prefix +:+ status) (compact error)))
    ["http"; "api"; "status"].

(** ** The message shown to users *)

Definition normalize_sep (c : Ascii.ascii) : Ascii.ascii :=
  if bool_decide (c ∈ ["_"; "-"; "`"]%char) then " "%char else c.

Definition normalized (error : string) : string :=
  join " " (split_whitespace (str_map normalize_sep error)).

Definition mentions (text : string) (needles : list string) : bool :=
  existsb (λ n, contains n text) needles.

Definition msg_context : string :=
  "Provider rejected the prompt because the context window was exceeded.".
Definition msg_history : string :=
  "Provider rejected invalid tool-call history. Restart/reload the session or use /clear.".
Definition msg_billing : string :=
  "Provider billing/credit issue (HTTP 402). Check the provider account balance.".
Definition msg_authentication : string := "Provider authentication failed (HTTP 401).".
Definition msg_authorization : string := "Provider authorization failed (HTTP 403).".
Definition msg_rate_limit : string := "Provider rate limit exceeded (HTTP 429).".
Definition msg_timeout : string := "Provider request timed out.".
Definition msg_network : string := "Provider network request failed.".
Definition msg_invalid : string := "Provider returned an invalid response.".
Definition msg_stream : string := "Provider response stream failed.".
Definition msg_other : string := "Provider request failed.".

Definition safe_provider_error_message (context_overflow : bool) (error : option string) : string :=
  let error := to_ascii_lowercase (default "" error) in
  let n := normalized error in
  let invalid_tool_history := error_has_http_status error "400"
    && contains "tool use ids were found without tool result blocks" n in
  if context_overflow
     || mentions n ["prompt is too long"; "exceed context limit"; "maximum context length";
                    "context overflow"; "context length exceeded"; "context window exceeded";
                    "context window was exceeded"]
  then msg_context
  else if invalid_tool_history then msg_history
  else if error_has_http_status error "402"
          || mentions n ["insufficient credit"; "payment required"]
  then msg_billing
  else if error_has_http_status error "401"
          || mentions n ["authentication"; "invalid api key"; "unauthorized"; "not authorized"]
  then msg_authentication
  else if error_has_http_status error "403"
          || mentions n ["permission denied"; "forbidden"; "authorization failed";
                         "authorization error"]
  then msg_authorization
  else if error_has_http_status error "429" || mentions n ["rate limit"] then msg_rate_limit
  else if mentions n ["timeout"; "timed out"; "time out"] then msg_timeout
  else if mentions n ["network"; "connection"; "upstream"] then msg_network
  else if mentions n ["parse"; "decode"] then msg_invalid
  else if mentions n ["stream error"; "stream failed"; "response stream"] then msg_stream
  else msg_other.

(** [providers::StopReason]. *)
Inductive StopReason :=
  | StopEndTurn | StopToolUse | StopError | StopRefusal | StopAborted | StopMaxTokens.

(** The part of [agent::TurnResult] the outcome depends on. *)
Record TurnResult := mkTurnResult {
  tr_stop_reason : StopReason;
  tr_error_message : option string;
  tr_context_overflow : bool;
}.

Definition canonical_assistant_outcome (turn : TurnResult) : AssistantOutcome :=
  match tr_stop_reason turn with
  | StopError =>
      OutErrored (tr_context_overflow turn)
        (safe_provider_error_message (tr_context_overflow turn) (tr_error_message turn))
  | StopRefusal => OutRefused
  | StopAborted => OutAborted
  | StopMaxTokens => OutMaxTokens
  | StopEndTurn | StopToolUse => OutCompleted
  end.

(** ** The debug log *)

Definition RAW_ERROR_LOG_CAP : nat := 500.

Definition TRUNCATED : string := "…[truncated]".

(** [c.is_ascii_alphanumeric() || c is a dash or underscore]. *)
Definition char_is_keyish (g : string) : bool :=
  char_is_alphanumeric g || bool_decide (g = "-") || bool_decide (g = "_").

Definition looks_secret (trimmed : string) : bool :=
  let lower := to_ascii_lowercase trimmed in
  starts_with "bearer" lower || starts_with "authorization" lower || starts_with "sk-" lower
  || starts_with "or-" lower
  || ((20 <=? String.length trimmed) && forallb char_is_keyish (chars trimmed)).

(** What one token contributes to the output. *)
Definition redact (token : string) : string :=
  let trimmed := trim_end token in
  if looks_secret trimmed then "[REDACTED]" +:+ str_drop (String.length trimmed) token else token.

(** The loop over the tokens: the output and whether the cap was reached. *)
Fixpoint sanitize_loop (out : string) (tokens : list string) : string * bool :=
  match tokens with
  | [] => (out, false)
  | token :: tokens =>
      let out := out +:+ redact token in
      if RAW_ERROR_LOG_CAP <=? String.length out then (out, true) else sanitize_loop out tokens
  end.

(** [String::pop]. *)
Definition pop (s : string) : string := str_concat (removelast (chars s)).

(** [while !out.is_char_boundary(CAP.min(out.len())) { out.pop(); }]; a string
    has at most as many characters as bytes. *)
Fixpoint pop_to_boundary (fuel : nat) (out : string) : string :=
  if is_char_boundary out (RAW_ERROR_LOG_CAP `min` String.length out) then out
  else match fuel with
       | 0 => out
       | S fuel => pop_to_boundary fuel (pop out)
       end.

Definition sanitize_provider_error (raw : string) : string :=
  let '(out, truncated) := sanitize_loop "" (split_inclusive_whitespace raw) in
  if truncated then
    let out := pop_to_boundary (String.length out) out in
    str_take (RAW_ERROR_LOG_CAP `min` String.length out) out +:+ TRUNCATED
  else out.

(** ** Tokens of error text *)

(** [post] begins with a separator, or is empty. *)
Definition ends_run (sep : string → bool) (post : list string) : Prop :=
  match post with [] => True | g :: _ => sep g = true end.

(** The parts of a split are the maximal runs between separators. *)
Lemma elem_of_split_chars sep cur cs part :
  part ∈ split_chars sep cur cs ↔
  (∃ mid post, cs = mid ++ post ∧ part = cur +:+ str_concat mid ∧
     Forall (λ g, sep g = false) mid ∧ ends_run sep post) ∨
  (∃ pre g mid post, cs = pre ++ g :: mid ++ post ∧ sep g = true ∧ part = str_concat mid ∧
     Forall (λ g, sep g = false) mid ∧ ends_run sep post).
Proof.
  revert cur. induction cs as [|g cs IH]; intros cur; simpl.
  { rewrite list_elem_of_singleton. split.
    - intros ->. left. exists [], []. by rewrite append_nil_r.
    - intros [([|]&post&He&->&_)|([|]&g&mid&post&He&_)]; try done. simpl. by rewrite append_nil_r. }
  destruct (sep g) eqn:Hg.
  - rewrite elem_of_cons, IH. split.
    + intros [->|[(mid&post&->&->&Hm&Hp)|(pre&g'&mid&post&->&Hg'&->&Hm&Hp)]].
      * left. exists [], (g :: cs). simpl. by rewrite append_nil_r.
      * right. exists [], g, mid, post. by rewrite append_nil_l.
      * right. exists (g :: pre), g', mid, post. done.
    + intros [([|x mid]&post&He&->&Hm&Hp)|([|x pre]&g'&mid&post&He&Hg'&->&Hm&Hp)]; simplify_eq/=.
      * left. by rewrite append_nil_r.
      * apply Forall_cons in Hm as [Hx _]. congruence.
      * right. left. exists mid, post. by rewrite append_nil_l.
      * right. right. eauto 10.
  - rewrite IH. split.
    + intros [(mid&post&->&->&Hm&Hp)|(pre&g'&mid&post&->&Hg'&->&Hm&Hp)].
      * left. exists (g :: mid), post. split_and!; [done| |by constructor|done].
        simpl. by rewrite append_assoc.
      * right. exists (g :: pre), g', mid, post. done.
    + intros [([|x mid]&post&He&->&Hm&Hp)|([|x pre]&g'&mid&post&He&Hg'&->&Hm&Hp)]; simplify_eq/=.
      * congruence.
      * left. apply Forall_cons in Hm as [_ Hm]. exists mid, post. split_and!; try done.
        by rewrite append_assoc.
      * congruence.
      * right. eauto 10.
Qed.

(** A status code counts as mentioned exactly when it stands as a whole word:
    the text is split at every character that is not an ASCII letter or digit, and
    one of the pieces is the code. *)
Theorem error_has_token_spec error token :
  error_has_token error token = true ↔
  ∃ pre mid post, chars error = pre ++ mid ++ post ∧ str_concat mid = token ∧
    Forall (λ g, char_is_alphanumeric g = true) mid ∧
    match last pre with Some g => char_is_alphanumeric g = false | None => True end ∧
    match head post with Some g => char_is_alphanumeric g = false | None => True end.
Proof.
  unfold error_has_token. rewrite existsb_exists. setoid_rewrite <- list_elem_of_In.
  setoid_rewrite elem_of_split_chars. setoid_rewrite bool_decide_eq_true.
  assert (∀ mid, Forall (λ g, negb (char_is_alphanumeric g) = false) mid ↔
                 Forall (λ g, char_is_alphanumeric g = true) mid) as Hmid.
  { intros mid. apply Forall_iff. intros g. by destruct (char_is_alphanumeric g). }
  assert (∀ post, ends_run (λ g, negb (char_is_alphanumeric g)) post ↔
    match head post with Some g => char_is_alphanumeric g = false | None => True end) as Hend.
  { intros [|g post]; simpl; [done|]. by rewrite negb_true_iff. }
  split.
  - intros (x&[(mid&post&He&->&Hm&Hp)|(pre&g&mid&post&He&Hg&->&Hm&Hp)]&<-).
    + exists [], mid, post. rewrite <- Hmid, <- Hend. done.
    + exists (pre ++ [g]), mid, post. rewrite <- Hmid, <- Hend, last_snoc, <- app_assoc.
      apply negb_true_iff in Hg. done.
  - intros (pre&mid&post&He&Ht&Hm%Hmid&Hl&Hp%Hend). exists token. split; [|done].
    destruct pre as [|g pre _] using rev_ind; [left; exists mid, post; by subst|].
    right. rewrite last_snoc in Hl. exists pre, g, mid, post.
    rewrite <- app_assoc in He. rewrite Hl. by subst.
Qed.

(** ** Characters *)

(** The groups of a string are not empty, and all but the first begin a character. *)
Lemma chars_groups s :
  match chars s with
  | [] => s = ""
  | g :: gs => g ≠ "" ∧ Forall (λ h, h ≠ "" ∧ starts_char h = true) gs
  end.
Proof.
  induction s as [|c s IH]; [done|]. simpl. destruct (chars s) as [|[|c' g] gs] eqn:E; simpl.
  - by split.
  - destruct IH as [? _]. done.
  - destruct IH as [_ Hgs]. destruct (is_continuation c') eqn:Hc; [done|].
    split; [done|]. constructor; [|done]. split; [done|]. simpl. by rewrite Hc.
Qed.

Lemma chars_valid s : valid_utf8 s = true → Forall encoded_char (chars s).
Proof.
  remember (String.length s) as n eqn:Hn. revert s Hn. induction n as [n IH] using lt_wf_ind. intros s -> Hv.
  destruct (valid_utf8_uncons s Hv) as [->|(g&t&Hg&->&Ht)]; [constructor|].
  destruct (encoded_char_tail g Hg) as (x&r&->&Hr).
  assert (chars (String x r +:+ t) = String x r :: chars t) as ->.
  { clear IH Hg Hv. rewrite append_cons.
    assert (chars t = [] ∧ t = "" ∨ ∃ c h gs, chars t = String c h :: gs ∧ is_continuation c = false) as Ht'.
    { destruct t as [|c t']; [by left|]. right.
      destruct (valid_utf8_uncons _ Ht) as [?|(g'&t''&Hg'&He&_)]; [done|].
      destruct (encoded_char_first g' Hg') as (c'&r'&->&Hc').
      rewrite append_cons in He. injection He as -> ->.
      pose proof (chars_groups (String c' (r' +:+ t''))) as Hgr. simpl in Hgr |- *.
      destruct (chars (r' +:+ t'')) as [|[|c0 g0] gs]; eauto. destruct (is_continuation c0); eauto. }
    clear Ht. induction r as [|y r IHr] in x, Hr |- *.
    - rewrite append_nil_l. simpl. destruct Ht' as [[-> _]|(c&h&gs&->&->)]; done.
    - cbn [all_continuation] in Hr. apply andb_true_iff in Hr as [Hy Hr].
      rewrite append_cons. specialize (IHr y Hr). change (chars (String x (String y (r +:+ t)))) with
        (match chars (String y (r +:+ t)) with
         | (String c' _ as g) :: gs => if is_continuation c' then String x g :: gs else String x "" :: g :: gs
         | gs => String x "" :: gs
         end). rewrite IHr, Hy. done. }
  constructor; [done|]. apply (IH (String.length t)); try done. rewrite length_append. simpl. lia.
Qed.

Lemma encoded_concat_valid gs : Forall encoded_char gs → valid_utf8 (str_concat gs) = true.
Proof. induction 1 as [|g gs Hg _ IH]; simpl; [done|]. by rewrite valid_utf8_cons. Qed.

Lemma str_drop_app a b : str_drop (String.length a) (a +:+ b) = b.
Proof. induction a as [|c a IH]; [by destruct b|]. by rewrite append_cons. Qed.

Lemma str_take_app n a b : n ≤ String.length a → str_take n (a +:+ b) = str_take n a.
Proof.
  revert a. induction n as [|n IH]; intros a Hn; [by destruct b|].
  destruct a as [|c a]; simpl in Hn; [lia|]. rewrite append_cons. simpl. f_equal. apply IH. lia.
Qed.

Lemma drop_while_suffix {A} (p : A → bool) l : ∃ k, l = k ++ drop_while p l.
Proof.
  induction l as [|x l [k IH]]; [by exists []|]. simpl. destruct (p x); [|by exists []].
  exists (x :: k). simpl. by f_equal.
Qed.

(** [trim_end] keeps a prefix of whole characters. *)
Lemma trim_end_prefix s : ∃ k m, chars s = k ++ m ∧ trim_end s = str_concat k.
Proof.
  destruct (drop_while_suffix char_is_whitespace (reverse (chars s))) as [m Hm].
  exists (reverse (drop_while char_is_whitespace (reverse (chars s)))), (reverse m). split; [|done].
  rewrite <- reverse_app, <- Hm. by rewrite reverse_involutive.
Qed.

(** ** Sanitizing *)

(** The tokens of the text are the text. *)
Lemma concat_pieces cur cs : str_concat (pieces cur cs) = cur +:+ str_concat cs.
Proof.
  revert cur. induction cs as [|g cs IH]; intros cur; simpl.
  - case_decide; subst; done.
  - destruct (char_is_whitespace g); cbn [str_concat foldr]; [|by rewrite IH, append_assoc].
    fold (str_concat (pieces "" cs)). rewrite IH, append_nil_l. apply append_assoc.
Qed.

Lemma concat_tokens raw : str_concat (split_inclusive_whitespace raw) = raw.
Proof.
  unfold split_inclusive_whitespace. rewrite concat_pieces, append_nil_l. apply str_concat_chars.
Qed.

Lemma pieces_valid cur cs :
  valid_utf8 cur = true → Forall encoded_char cs →
  Forall (λ t, valid_utf8 t = true) (pieces cur cs).
Proof.
  intros Hcur Hcs. revert cur Hcur. induction Hcs as [|g cs Hg _ IH]; intros cur Hcur; simpl.
  - case_decide; [constructor|]. by repeat constructor.
  - assert (valid_utf8 (cur +:+ g) = true).
    { rewrite valid_utf8_app by done. rewrite <- (append_nil_r g). by rewrite valid_utf8_cons. }
    case_match; [constructor|]; auto.
Qed.

Lemma redact_valid token : valid_utf8 token = true → valid_utf8 (redact token) = true.
Proof.
  intros Hv. unfold redact. case_match; [|done].
  destruct (trim_end_prefix token) as (k&m&Hk&->).
  pose proof (chars_valid token Hv) as Hc. rewrite Hk in Hc. apply Forall_app in Hc as [_ Hm].
  rewrite <- (str_concat_chars token) at 1. rewrite Hk, str_concat_app, str_drop_app.
  rewrite valid_utf8_app by done. by apply encoded_concat_valid.
Qed.

Lemma sanitize_loop_spec out tokens :
  match sanitize_loop out tokens with
  | (out', false) => out' = out +:+ str_concat (map redact tokens) ∧
      (String.length out < RAW_ERROR_LOG_CAP → String.length out' < RAW_ERROR_LOG_CAP)
  | (out', true) => ∃ k rest, tokens = k ++ rest ∧
      out' = out +:+ str_concat (map redact k) ∧ RAW_ERROR_LOG_CAP ≤ String.length out'
  end.
Proof.
  revert out. induction tokens as [|t tokens IH]; intros out; cbn [sanitize_loop].
  { simpl. by rewrite append_nil_r. }
  destruct (Nat.leb_spec RAW_ERROR_LOG_CAP (String.length (out +:+ redact t))) as [Hle|Hlt].
  { exists [t], tokens. simpl. by rewrite append_nil_r. }
  specialize (IH (out +:+ redact t)). destruct (sanitize_loop _ tokens) as [out' []].
  - destruct IH as (k&rest&->&->&?). exists (t :: k), rest. split_and!; [done| |done].
    simpl. by rewrite append_assoc.
  - destruct IH as [-> Hb]. split; [|auto]. simpl. by rewrite append_assoc.
Qed.

Lemma removelast_last (gs : list string) : gs ≠ [] → ∃ g, gs = removelast gs ++ [g].
Proof. intros Hne. exists (List.last gs ""). by apply app_removelast_last. Qed.

(** Popping takes off a last character. *)
Lemma pop_spec s :
  s ≠ "" → ∃ g, s = pop s +:+ g ∧ g ≠ "" ∧ (pop s = "" ∨ starts_char g = true).
Proof.
  intros Hs. pose proof (chars_groups s) as Hg. unfold pop.
  destruct (removelast_last (chars s)) as [g Hgs]; [by intros E; rewrite E in Hg|].
  exists g. split_and!.
  - rewrite <- (str_concat_chars s) at 1. rewrite Hgs at 1. rewrite str_concat_app. simpl.
    by rewrite append_nil_r.
  - destruct (removelast (chars s)) as [|h hs]; rewrite Hgs in Hg; simpl in Hg; [by destruct Hg|].
    destruct Hg as [_ Hf]. rewrite Forall_app, Forall_singleton in Hf. destruct Hf as [_ Hf]. exact (proj1 Hf).
  - destruct (removelast (chars s)) as [|h hs]; [by left|]. right. rewrite Hgs in Hg. simpl in Hg.
    destruct Hg as [_ Hf]. rewrite Forall_app, Forall_singleton in Hf. destruct Hf as [_ Hf]. exact (proj2 Hf).
Qed.

(** The loop stops at a boundary, having taken off whole characters. *)
Lemma pop_to_boundary_spec fuel out :
  String.length out ≤ fuel →
  let r := pop_to_boundary fuel out in
  is_char_boundary r (RAW_ERROR_LOG_CAP `min` String.length r) = true ∧
  ∃ rest, out = r +:+ rest ∧ (r = "" ∨ starts_char rest = true).
Proof.
  revert out. induction fuel as [|fuel IH]; intros out Hf; cbn [pop_to_boundary]; cbn zeta.
  - destruct out; [|simpl in Hf; lia]. split; [done|]. exists "". auto.
  - destruct (is_char_boundary out _) eqn:E.
    { split; [done|]. exists "". rewrite append_nil_r. auto. }
    assert (out ≠ "") as Hne by (by intros ->).
    destruct (pop_spec out Hne) as (g&Hg&Hgne&Hst).
    assert (String.length (pop out) ≤ fuel) as Hlen.
    { apply (f_equal String.length) in Hg. rewrite length_append in Hg. destruct g; [done|]. simpl in Hg. lia. }
    destruct (IH (pop out) Hlen) as (Hb&rest&Hr&Hs). split; [done|].
    set (r := pop_to_boundary fuel (pop out)) in *. exists (rest +:+ g). split.
    + rewrite <- append_assoc, <- Hr. done.
    + destruct Hs as [->|Hs]; [by left|]. destruct rest as [|c rest]; [|by right].
      rewrite append_nil_r in Hr. rewrite append_nil_l. rewrite <- Hr. destruct Hst; auto.
Qed.

(** What the debug log may contain.  The text is cut into tokens that end at
    white space; each token that looks like a credential is replaced by a mark and
    the others are kept.  Below the cap that is the whole output; otherwise the
    output is a prefix of it of at most 500 bytes followed by the truncation mark.
    The output is valid UTF-8 when the text is. *)
Theorem sanitize_provider_error_spec raw :
  let tokens := split_inclusive_whitespace raw in
  let full := str_concat (map redact tokens) in
  let out := sanitize_provider_error raw in
  str_concat tokens = raw ∧
  (valid_utf8 raw = true → valid_utf8 out = true) ∧
  (String.length full < RAW_ERROR_LOG_CAP → out = full) ∧
  (RAW_ERROR_LOG_CAP ≤ String.length full →
     ∃ n, n ≤ RAW_ERROR_LOG_CAP ∧ out = str_take n full +:+ TRUNCATED).
Proof.
  intros tokens full out. split; [apply concat_tokens|].
  subst out. unfold sanitize_provider_error. fold tokens.
  pose proof (sanitize_loop_spec "" tokens) as Hl.
  assert (valid_utf8 raw = true → ∀ k, (∀ t, t ∈ k → t ∈ tokens) → valid_utf8 (str_concat (map redact k)) = true) as Hvalid.
  { intros Hv k Hk. pose proof (pieces_valid "" (chars raw) eq_refl (chars_valid raw Hv)) as Hp.
    rewrite Forall_forall in Hp. induction k as [|t k IH]; simpl; [done|].
    rewrite valid_utf8_app; [apply IH; set_solver|]. apply redact_valid, Hp. set_solver. }
  destruct (sanitize_loop "" tokens) as [o []].
  - destruct Hl as (k&rest&Hk&->&Hcap). rewrite append_nil_l in *.
    set (o := str_concat (map redact k)) in *.
    destruct (pop_to_boundary_spec (String.length o) o) as (Hb&rest'&Hr&Hs); [done|].
    set (r := pop_to_boundary _ o) in *.
    assert (full = o +:+ str_concat (map redact rest)) as Hfull.
    { unfold full. by rewrite Hk, map_app, str_concat_app. }
    split_and!.
    + intros Hv. assert (valid_utf8 o = true) as Ho by (apply Hvalid; [done|intros t Ht; rewrite Hk; apply elem_of_app; by left]).
      rewrite Hr in Ho. assert (valid_utf8 r = true) as Hvr.
      { destruct Hs as [->|Hs]; [done|]. exact (proj1 (valid_utf8_split _ _ Ho Hs)). }
      rewrite valid_utf8_app; [done|]. by apply valid_utf8_cut.
    + rewrite Hfull, length_append. lia.
    + intros _. exists (RAW_ERROR_LOG_CAP `min` String.length r). split; [lia|].
      rewrite Hfull, Hr, append_assoc, str_take_app; [done|lia].
  - destruct Hl as [-> Hb]. rewrite append_nil_l in *. split_and!; [|done|].
    + intros Hv. apply Hvalid; auto.
    + intros Hc. specialize (Hb ltac:(unfold RAW_ERROR_LOG_CAP; simpl; lia)). unfold full in Hc. lia.
Qed.

(** The credential of an [Authorization: Bearer] header is not masked: the
    words [Authorization:] and [Bearer] are, the secret that follows is not. *)
Theorem bearer_credential_survives :
  sanitize_provider_error "auth failed Bearer abc123XYZ token"
  = "auth failed [REDACTED] abc123XYZ token".
Proof. by vm_compute. Qed.

Definition SAFE_MESSAGES : list string :=
  [msg_context; msg_history; msg_billing; msg_authentication; msg_authorization; msg_rate_limit;
   msg_timeout; msg_network; msg_invalid; msg_stream; msg_other].

Lemma safe_provider_error_message_safe overflow error :
  safe_provider_error_message overflow error ∈ SAFE_MESSAGES.
Proof. unfold safe_provider_error_message, SAFE_MESSAGES. repeat case_match; set_solver. Qed.

(** No provider text reaches a client: the outcome of a turn depends on the
    provider's error text only through one of eleven fixed messages, and a context
    overflow is always reported as such. *)
Theorem assistant_outcome_is_safe turn :
  match canonical_assistant_outcome turn with
  | OutErrored overflow message =>
      tr_stop_reason turn = StopError ∧ overflow = tr_context_overflow turn ∧
      message ∈ SAFE_MESSAGES ∧ (overflow = true → message = msg_context)
  | _ => tr_stop_reason turn ≠ StopError
  end.
Proof.
  unfold canonical_assistant_outcome. destruct (tr_stop_reason turn) eqn:E; try done.
  split_and!; [done|done|apply safe_provider_error_message_safe|].
  intros Ho. unfold safe_provider_error_message. by rewrite Ho.
Qed.
