(* ===== verification/Messages.v ===== *)
(** * Messages of a conversation

    Models [Role], [ContentBlock] and [Message] of [src/src/providers/mod.rs], and
    the preview line that [src/src/session_store.rs] derives from a conversation. *)

From stdpp Require Import base numbers list strings gmap sorting.
From S2P Require Import Prelude RustStr Utf8 Safety.

(** ** Data *)

Inductive Role := RoleUser | RoleAssistant.

#[export] Instance Role_eq_dec : EqDecision Role.
Proof. solve_decision. Defined.

Inductive ContentBlock :=
  | CbText (text : string)
  | CbImage (data media_type : string) (uri : option string)
  | CbThinking (text : string)
  | CbProviderState (provider : string) (data : Json)
  | CbToolCall (id name : string) (input : Json)
  | CbToolResult (tool_use_id content : string) (is_error : bool).

Record Message := mkMessage { msg_role : Role; msg_content : list ContentBlock }.

(** [Message::user] and [Message::assistant]. *)
Definition message_user (text : string) : Message := mkMessage RoleUser [CbText text].
Definition message_assistant (text : string) : Message := mkMessage RoleAssistant [CbText text].

(** ** The preview line *)

(** [plugins::floor_char_boundary]. *)
Definition floor_char_boundary (s : string) (max : nat) : nat :=
  if String.length s <=? max then String.length s else floor_boundary s max.

(** The loop of [normalize_preview] over the words of the line. *)
Fixpoint preview_loop (max_bytes : nat) (preview : string) (words : list string) : string :=
  match words with
  | [] => preview
  | word :: words =>
      let separator := if bool_decide (preview = "") then 0 else 1 in
      if max_bytes - String.length preview <=? separator then preview
      else
        let preview := if separator =? 1 then preview +:+ " " else preview in
        let boundary := floor_char_boundary word (max_bytes - String.length preview) in
        let preview := preview +:+ str_take boundary word in
        if boundary <? String.length word then preview else preview_loop max_bytes preview words
  end.

Definition normalize_preview (line : string) (max_bytes : nat) : option string :=
  let preview := preview_loop max_bytes "" (split_whitespace line) in
  if bool_decide (preview = "") then None else Some preview.

(** [iter().find_map(f)]. *)
Fixpoint find_map {A B} (f : A → option B) (l : list A) : option B :=
  match l with
  | [] => None
  | x :: l => match f x with Some b => Some b | None => find_map f l end
  end.

Definition first_user_preview (messages : list Message) (max_bytes : nat) : option string :=
  if max_bytes =? 0 then None
  else
    lfind (λ m, bool_decide (msg_role m = RoleUser)) messages ≫= λ m,
      find_map (λ b, match b with
                     | CbText text => head (lines text) ≫= λ line, normalize_preview line max_bytes
                     | _ => None
                     end) (msg_content m).

(** ** Lemmas *)

Lemma floor_char_boundary_spec s max :
  floor_char_boundary s max ≤ max `min` String.length s ∧
  is_char_boundary s (floor_char_boundary s max) = true.
Proof.
  unfold floor_char_boundary. destruct (Nat.leb_spec (String.length s) max) as [Hle|Hlt].
  - split; [lia|]. unfold is_char_boundary. apply orb_true_iff. right.
    pose proof (str_take_drop (String.length s) s) as Hs.
    apply (f_equal String.length) in Hs. rewrite length_append, length_str_take in Hs.
    destruct (str_drop (String.length s) s); [apply Nat.eqb_refl|simpl in Hs; lia].
  - destruct (floor_boundary_spec s max) as (?&?&_). split; [lia|done].
Qed.

Lemma preview_loop_bound max preview words :
  String.length preview ≤ max →
  String.length (preview_loop max preview words) ≤ max.
Proof.
  revert preview. induction words as [|word words IH]; intros preview Hp; cbn [preview_loop]; [done|].
  set (separator := if bool_decide (preview = "") then 0 else 1).
  destruct (Nat.leb_spec (max - String.length preview) separator) as [|Hroom]; [done|].
  set (preview1 := if separator =? 1 then preview +:+ " " else preview).
  assert (String.length preview1 ≤ max).
  { unfold preview1. destruct (separator =? 1); [|done]. rewrite length_append. simpl. lia. }
  destruct (floor_char_boundary_spec word (max - String.length preview1)) as [Hb _].
  set (boundary := floor_char_boundary _ _) in *.
  assert (String.length (preview1 +:+ str_take boundary word) ≤ max).
  { rewrite length_append, length_str_take. lia. }
  destruct (boundary <? String.length word); [done|]. by apply IH.
Qed.

Lemma normalize_preview_bound line max preview :
  normalize_preview line max = Some preview → String.length preview ≤ max.
Proof.
  unfold normalize_preview. case_bool_decide; [done|]. intros [= <-]. apply preview_loop_bound. simpl. lia.
Qed.

Lemma find_map_Some {A B} (f : A → option B) l b : find_map f l = Some b → ∃ a, a ∈ l ∧ f a = Some b.
Proof.
  induction l as [|x l IH]; simpl; [done|]. destruct (f x) eqn:E.
  - intros [= <-]. exists x. split; [by left|done].
  - intros (a&?&?)%IH. exists a. split; [by right|done].
Qed.

Lemma first_user_preview_bound messages max preview :
  first_user_preview messages max = Some preview → String.length preview ≤ max.
Proof.
  unfold first_user_preview. case_match; [done|]. destruct (lfind _ _) as [m|]; simpl; [|done].
  intros ([]&_&Hb)%find_map_Some; try done. destruct (lines text) as [|line ?]; simpl in Hb; [done|].
  by eapply normalize_preview_bound.
Qed.
