(* ===== verification/SessionCodec.v ===== *)
(** * The encoding of stored sessions

    A session is stored as JSON text.  [serde] derives the encoding and the decoding of
    [PersistedSession] ([src/src/session_store.rs]), [Role], [ContentBlock] and
    [Message] ([src/src/providers/mod.rs]) and [AssistantOutcome]
    ([src/src/session_protocol.rs]) from the types and their attributes; here they are
    written out, as functions to and from JSON trees.

    The step between trees and text is [serde_json]'s: the class [JsonText] states what
    the store relies on.  Text is read back to the tree it was printed from, as long as
    the tree is not nested more deeply than the recursion limit, and not at all when it
    is.  [bits_text] is an instance. *)

From Stdlib Require Import Ascii.
From stdpp Require Import base numbers countable list strings gmap.
From S2P Require Import Prelude RustStr Utf8 Safety Protocol Messages.

(** ** Data *)

Record PersistedSession := mkPersisted {
  ps_version : Z;
  ps_generation : Z;
  ps_session_id : string;
  ps_model : string;
  ps_thinking : option string;
  ps_cwd : option string;
  ps_client_user_message_ids : list string;
  ps_assistant_outcomes : list AssistantOutcome;
  ps_messages : list Message;
}.

Definition with_generation (r : PersistedSession) (generation : Z) : PersistedSession :=
  mkPersisted (ps_version r) generation (ps_session_id r) (ps_model r) (ps_thinking r) (ps_cwd r)
    (ps_client_user_message_ids r) (ps_assistant_outcomes r) (ps_messages r).

(** ** Trees and text *)

(** How many objects and arrays are open at the deepest place. *)
Fixpoint json_depth (v : Json) : nat :=
  match v with
  | JArray items => S (foldr (λ x n, json_depth x `max` n) 0 items)
  | JObject fields => S (foldr (λ f n, json_depth f.2 `max` n) 0 fields)
  | _ => 0
  end.

(** [Value]s as the program holds them: numbers are texts that a number prints as, and the
    keys of an object are distinct. *)
Fixpoint json_ok (number_ok : string → Prop) (v : Json) : Prop :=
  match v with
  | JNumber text => number_ok text
  | JArray items => foldr (λ x P, json_ok number_ok x ∧ P) True items
  | JObject fields => NoDup (map fst fields) ∧ foldr (λ f P, json_ok number_ok f.2 ∧ P) True fields
  | _ => True
  end.

(** [serde_json::to_vec] of a tree, [serde_json::from_slice] up to the tree, the texts of
    numbers, and the recursion limit of the reader. *)
Definition JSON_MAX_DEPTH : nat := 127.

Class JsonText := {
  to_text : Json → string;
  of_text : string → option Json;
  number_ok : string → Prop;
  number_ok_u64 n : is_u64 n → number_ok (u64_to_string n);
  of_to_text v : json_ok number_ok v → json_depth v ≤ JSON_MAX_DEPTH → of_text (to_text v) = Some v;
  of_to_text_deep v : JSON_MAX_DEPTH < json_depth v → of_text (to_text v) = None;
}.

(** ** Encoding *)

Definition enc_u64 (n : Z) : Json := JNumber (u64_to_string n).

(** An enum is its variant's name, or an object from the name to the content. *)
Definition enc_role (role : Role) : Json :=
  JString (match role with RoleUser => "User" | RoleAssistant => "Assistant" end).

Definition enc_block (block : ContentBlock) : Json :=
  match block with
  | CbText text => JObject [("Text", JString text)]
  | CbImage data media_type uri =>
      JObject [("Image", JObject [("data", JString data); ("media_type", JString media_type);
        ("uri", match uri with Some uri => JString uri | None => JNull end)])]
  | CbThinking text => JObject [("Thinking", JString text)]
  | CbProviderState provider data =>
      JObject [("ProviderState", JObject [("provider", JString provider); ("data", data)])]
  | CbToolCall id name input =>
      JObject [("ToolCall", JObject [("id", JString id); ("name", JString name); ("input", input)])]
  | CbToolResult tool_use_id content is_error =>
      JObject [("ToolResult", JObject [("tool_use_id", JString tool_use_id); ("content", JString content);
        ("is_error", JBool is_error)])]
  end.

Definition enc_message (m : Message) : Json :=
  JObject [("role", enc_role (msg_role m)); ("content", JArray (map enc_block (msg_content m)))].

(** [tag = "type", rename_all = "snake_case"]. *)
Definition enc_outcome (o : AssistantOutcome) : Json :=
  match o with
  | OutCompleted => JObject [("type", JString "completed")]
  | OutErrored context_overflow message =>
      JObject [("type", JString "errored"); ("context_overflow", JBool context_overflow); ("message", JString message)]
  | OutRefused => JObject [("type", JString "refused")]
  | OutAborted => JObject [("type", JString "aborted")]
  | OutMaxTokens => JObject [("type", JString "max_tokens")]
  end.

(** [skip_serializing_if]. *)
Definition skip_none (name : string) (x : option string) : list (string * Json) :=
  match x with Some x => [(name, JString x)] | None => [] end.

Definition skip_empty {A} (name : string) (enc : A → Json) (l : list A) : list (string * Json) :=
  match l with [] => [] | _ => [(name, JArray (map enc l))] end.

Definition enc_session (r : PersistedSession) : Json :=
  JObject ([("version", enc_u64 (ps_version r)); ("generation", enc_u64 (ps_generation r));
            ("session_id", JString (ps_session_id r)); ("model", JString (ps_model r))] ++
           skip_none "thinking" (ps_thinking r) ++ skip_none "cwd" (ps_cwd r) ++
           skip_empty "client_user_message_ids" JString (ps_client_user_message_ids r) ++
           skip_empty "assistant_outcomes" enc_outcome (ps_assistant_outcomes r) ++
           [("messages", JArray (map enc_message (ps_messages r)))]).

(** ** Decoding *)

(** A field of a struct: of an object, where it may be missing and unknown ones are
    ignored but a repeated one is an error; or of an array, by its place.  The outer
    [None] is the error. *)
Definition field (name : string) (place : nat) (v : Json) : option (option Json) :=
  match v with
  | JObject fields =>
      match List.filter (λ f : string * Json, String.eqb f.1 name) fields with
      | [] => Some None
      | [f] => Some (Some f.2)
      | _ => None
      end
  | JArray items => Some (items !! place)
  | _ => None
  end.

(** An array may not be longer than the struct. *)
Definition is_struct (count : nat) (v : Json) : bool :=
  match v with JObject _ => true | JArray items => length items <=? count | _ => false end.

Definition required {A} (dec : Json → option A) (x : option (option Json)) : option A := x ≫= λ x, x ≫= dec.

Definition defaulted {A} (dec : Json → option A) (d : A) (x : option (option Json)) : option A :=
  x ≫= λ x, match x with Some v => dec v | None => Some d end.

Definition dec_string (v : Json) : option string := match v with JString s => Some s | _ => None end.
Definition dec_bool (v : Json) : option bool := match v with JBool b => Some b | _ => None end.
Definition dec_u64 (v : Json) : option Z := match v with JNumber text => parse_u64 text | _ => None end.
Definition dec_u32 (v : Json) : option Z :=
  dec_u64 v ≫= λ n, if (n <=? 4294967295)%Z then Some n else None.
Definition dec_option {A} (dec : Json → option A) (v : Json) : option (option A) :=
  match v with JNull => Some None | v => Some <$> dec v end.
Definition dec_list {A} (dec : Json → option A) (v : Json) : option (list A) :=
  match v with JArray items => mapM dec items | _ => None end.

(** [Value]: its objects keep the order of their keys, and the last of equal keys counts. *)
Fixpoint index_insert (key : string) (v : Json) (m : list (string * Json)) : list (string * Json) :=
  match m with
  | [] => [(key, v)]
  | (k, w) :: m => if String.eqb k key then (k, v) :: m else (k, w) :: index_insert key v m
  end.

Fixpoint read_value (v : Json) : Json :=
  match v with
  | JArray items => JArray (map read_value items)
  | JObject fields =>
      JObject (foldl (λ m f, index_insert f.1 f.2 m) [] (map (λ f, (f.1, read_value f.2)) fields))
  | v => v
  end.

Definition dec_value (v : Json) : option Json := Some (read_value v).

(** A variant and its content. *)
Definition variant (v : Json) : option (string * option Json) :=
  match v with
  | JString name => Some (name, None)
  | JObject [(name, content)] => Some (name, Some content)
  | _ => None
  end.

Definition is_unit (content : option Json) : bool := match content with None | Some JNull => true | _ => false end.

Definition dec_role (v : Json) : option Role :=
  variant v ≫= λ '(name, content),
  if negb (is_unit content) then None
  else if String.eqb name "User" then Some RoleUser
  else if String.eqb name "Assistant" then Some RoleAssistant
  else None.

(** [uri] has no default: an object may leave it out, an array may not. *)
Definition dec_uri (v : Json) : option (option string) :=
  match v with
  | JArray _ => required (dec_option dec_string) (field "uri" 2 v)
  | v => defaulted (dec_option dec_string) None (field "uri" 2 v)
  end.

Definition dec_block (v : Json) : option ContentBlock :=
  p ← variant v; c ← p.2;
  let str name place := required dec_string (field name place c) in
  if String.eqb p.1 "Text" then CbText <$> dec_string c
  else if String.eqb p.1 "Image" then
    if negb (is_struct 3 c) then None
    else data ← str "data" 0; media_type ← str "media_type" 1; uri ← dec_uri c; Some (CbImage data media_type uri)
  else if String.eqb p.1 "Thinking" then CbThinking <$> dec_string c
  else if String.eqb p.1 "ProviderState" then
    if negb (is_struct 2 c) then None
    else provider ← str "provider" 0; data ← required dec_value (field "data" 1 c); Some (CbProviderState provider data)
  else if String.eqb p.1 "ToolCall" then
    if negb (is_struct 3 c) then None
    else id ← str "id" 0; name ← str "name" 1; input ← required dec_value (field "input" 2 c); Some (CbToolCall id name input)
  else if String.eqb p.1 "ToolResult" then
    if negb (is_struct 3 c) then None
    else id ← str "tool_use_id" 0; content ← str "content" 1;
         is_error ← required dec_bool (field "is_error" 2 c); Some (CbToolResult id content is_error)
  else None.

Definition dec_message (v : Json) : option Message :=
  if negb (is_struct 2 v) then None
  else role ← required dec_role (field "role" 0 v); content ← required (dec_list dec_block) (field "content" 1 v);
       Some (mkMessage role content).

(** The tag, and what remains. *)
Definition tagged (v : Json) : option (string * Json) :=
  match v with
  | JObject fields =>
      tag ← required dec_string (field "type" 0 v);
      Some (tag, JObject (List.filter (λ f : string * Json, negb (String.eqb f.1 "type")) fields))
  | JArray (JString tag :: rest) => Some (tag, JArray rest)
  | _ => None
  end.

Definition dec_outcome (v : Json) : option AssistantOutcome :=
  p ← tagged v;
  if String.eqb p.1 "errored" then
    if negb (is_struct 2 p.2) then None
    else overflow ← required dec_bool (field "context_overflow" 0 p.2);
         message ← required dec_string (field "message" 1 p.2); Some (OutErrored overflow message)
  else if negb (is_struct 0 p.2) then None
  else if String.eqb p.1 "completed" then Some OutCompleted
  else if String.eqb p.1 "refused" then Some OutRefused
  else if String.eqb p.1 "aborted" then Some OutAborted
  else if String.eqb p.1 "max_tokens" then Some OutMaxTokens
  else None.

Definition dec_session (v : Json) : option PersistedSession :=
  if negb (is_struct 9 v) then None
  else
    version ← required dec_u32 (field "version" 0 v);
    generation ← defaulted dec_u64 0%Z (field "generation" 1 v);
    session_id ← required dec_string (field "session_id" 2 v);
    model ← required dec_string (field "model" 3 v);
    thinking ← defaulted (dec_option dec_string) None (field "thinking" 4 v);
    cwd ← defaulted (dec_option dec_string) None (field "cwd" 5 v);
    client_user_message_ids ← defaulted (dec_list dec_string) [] (field "client_user_message_ids" 6 v);
    assistant_outcomes ← defaulted (dec_list dec_outcome) [] (field "assistant_outcomes" 7 v);
    messages ← required (dec_list dec_message) (field "messages" 8 v);
    Some (mkPersisted version generation session_id model thinking cwd client_user_message_ids assistant_outcomes messages).

(** ** Records and text *)

Section text.
Context `{JsonText}.

(** [serde_json::to_vec(&record)]: a path that is not UTF-8 has no encoding. *)
Definition encode_session (r : PersistedSession) : option string :=
  match ps_cwd r with
  | Some cwd => if valid_utf8 cwd then Some (to_text (enc_session r)) else None
  | None => Some (to_text (enc_session r))
  end.

(** [serde_json::from_slice]. *)
Definition decode_session (text : string) : option PersistedSession := of_text text ≫= dec_session.

(** *** What the decoding gives back *)

(** The values inside a message are values of [serde_json], and not too deep to be read
    inside the record. *)
Definition block_value (block : ContentBlock) : option Json :=
  match block with CbProviderState _ data => Some data | CbToolCall _ _ input => Some input | _ => None end.

Definition RECORD_DEPTH : nat := 6.

Definition block_ok (block : ContentBlock) : Prop :=
  ∀ v, block_value block = Some v → json_ok number_ok v ∧ json_depth v + RECORD_DEPTH ≤ JSON_MAX_DEPTH.

(** A record of the program: integers of their width, and such values. *)
Record record_ok (r : PersistedSession) : Prop := {
  ro_version : (0 ≤ ps_version r ≤ 4294967295)%Z;
  ro_generation : is_u64 (ps_generation r);
  ro_messages : Forall (λ m, Forall block_ok (msg_content m)) (ps_messages r);
}.

(** ** Lemmas *)

Lemma mapM_enc {A} (enc : A → Json) (dec : Json → option A) (l : list A) :
  Forall (λ x, dec (enc x) = Some x) l → mapM dec (map enc l) = Some l.
Proof. induction 1 as [|x l Hx _ IH]; simpl; [done|]. by rewrite Hx, IH. Qed.

Lemma index_insert_new key v m : key ∉ map fst m → index_insert key v m = m ++ [(key, v)].
Proof.
  induction m as [|[k w] m IH]; simpl; [done|]. intros [Hk Hm]%not_elem_of_cons.
  destruct (String.eqb_spec k key); [congruence|]. by rewrite IH.
Qed.

Lemma index_inserts fields m :
  NoDup (map fst m ++ map fst fields) → foldl (λ m f, index_insert f.1 f.2 m) m fields = m ++ fields.
Proof.
  revert m. induction fields as [|[k v] fields IH]; intros m Hnd; simpl; [by rewrite app_nil_r|].
  rewrite index_insert_new by (apply NoDup_app in Hnd as (_&Hd&_); intros Hk; apply (Hd k Hk); left).
  rewrite IH, <- app_assoc; [done|]. by rewrite map_app, <- app_assoc.
Qed.

Lemma read_value_id P v : json_ok P v → read_value v = v.
Proof.
  induction v as [| | | |items IH|fields IH] using json_induction; simpl; try done.
  - intros Hok. f_equal. induction IH as [|x items Hx _ IH']; [done|]. destruct Hok. simpl. by rewrite Hx, IH'.
  - intros [Hnd Hok].
    assert (map (λ f, (f.1, read_value f.2)) fields = fields) as ->.
    { clear Hnd. induction IH as [|[k v] fields Hx _ IH']; [done|]. destruct Hok. simpl in *. by rewrite Hx, IH'. }
    by rewrite index_inserts.
Qed.

Lemma dec_enc_u64 n : is_u64 n → dec_u64 (enc_u64 n) = Some n.
Proof. apply parse_u64_to_string. Qed.

Lemma dec_enc_outcome o : dec_outcome (enc_outcome o) = Some o.
Proof. by destruct o. Qed.

Lemma dec_enc_block block : block_ok block → dec_block (enc_block block) = Some block.
Proof.
  unfold block_ok. destruct block as [| ? ? []| |provider data|id name input|]; simpl; try done; intros Hok;
    destruct (Hok _ eq_refl) as [Hv _]; unfold dec_block; cbn; by erewrite read_value_id.
Qed.

Lemma dec_enc_message m : Forall block_ok (msg_content m) → dec_message (enc_message m) = Some m.
Proof.
  intros Hok. destruct m as [role content]. unfold dec_message. cbn -[dec_block enc_block].
  rewrite (mapM_enc enc_block dec_block content); [by destruct role|].
  eapply Forall_impl; [exact Hok|]. apply dec_enc_block.
Qed.

(** The field of [skip_empty]. *)
Definition listed_if {A} (enc : A → Json) (l : list A) : option Json :=
  match l with [] => None | _ => Some (JArray (map enc l)) end.

Lemma default_list {A} (enc : A → Json) (dec : Json → option A) (l : list A) :
  (∀ x, dec (enc x) = Some x) →
  match listed_if enc l with Some v => dec_list dec v | None => Some [] end = Some l.
Proof. intros Hx. destruct l as [|x l]; [done|]. apply mapM_enc, Forall_forall. done. Qed.

(** The fields of the record are found. *)
Lemma session_fields r :
  let v := enc_session r in
  field "version" 0 v = Some (Some (enc_u64 (ps_version r))) ∧
  field "generation" 1 v = Some (Some (enc_u64 (ps_generation r))) ∧
  field "session_id" 2 v = Some (Some (JString (ps_session_id r))) ∧
  field "model" 3 v = Some (Some (JString (ps_model r))) ∧
  field "thinking" 4 v = Some (JString <$> ps_thinking r) ∧
  field "cwd" 5 v = Some (JString <$> ps_cwd r) ∧
  field "client_user_message_ids" 6 v =
    Some (listed_if JString (ps_client_user_message_ids r)) ∧
  field "assistant_outcomes" 7 v =
    Some (listed_if enc_outcome (ps_assistant_outcomes r)) ∧
  field "messages" 8 v = Some (Some (JArray (map enc_message (ps_messages r)))).
Proof. destruct r as [ver gen id model [] [] [] [] messages]; by split_and!. Qed.

Lemma dec_enc_session r : record_ok r → dec_session (enc_session r) = Some r.
Proof.
  intros [Hv Hg Hm]. destruct (session_fields r) as (F0&F1&F2&F3&F4&F5&F6&F7&F8). unfold dec_session.
  change (is_struct 9 (enc_session r)) with true. cbn [negb]. rewrite F0, F1, F2, F3, F4, F5, F6, F7, F8. cbn [required defaulted mbind option_bind].
  unfold dec_u32. rewrite !dec_enc_u64 by (done || (unfold is_u64, U64_MAX; lia)). simpl.
  destruct (Z.leb_spec (ps_version r) 4294967295); [|lia].
  assert (∀ x : option string, (match JString <$> x with Some v => dec_option dec_string v | None => Some None end) = Some x)
    as Ho by (by intros []). simpl. rewrite !Ho. simpl.
  assert (mapM dec_message (map enc_message (ps_messages r)) = Some (ps_messages r)) as ->.
  { apply mapM_enc. eapply Forall_impl; [exact Hm|]. apply dec_enc_message. }
  rewrite (default_list JString dec_string), (default_list enc_outcome dec_outcome) by (done || apply dec_enc_outcome).
  by destruct r.
Qed.

(** *** The tree of a record *)

Lemma json_ok_array (l : list Json) : Forall (json_ok number_ok) l → json_ok number_ok (JArray l).
Proof. induction 1; simpl; auto. Qed.

Lemma json_depth_array (l : list Json) n : Forall (λ v, json_depth v ≤ n) l → json_depth (JArray l) ≤ S n.
Proof. simpl. induction 1; simpl in *; lia. Qed.

Lemma json_depth_field (fields : list (string * Json)) f : f ∈ fields → S (json_depth f.2) ≤ json_depth (JObject fields).
Proof. simpl. induction 1; simpl in *; lia. Qed.

Lemma json_depth_item (items : list Json) v : v ∈ items → S (json_depth v) ≤ json_depth (JArray items).
Proof. simpl. induction 1; simpl in *; lia. Qed.

Lemma nodup_keys (ks : list string) : bool_decide (NoDup ks) = true → NoDup ks.
Proof. apply bool_decide_eq_true_1. Qed.

Lemma enc_block_ok block :
  block_ok block → json_ok number_ok (enc_block block) ∧ json_depth (enc_block block) ≤ JSON_MAX_DEPTH - 4.
Proof.
  unfold block_ok, JSON_MAX_DEPTH, RECORD_DEPTH.
  destruct block as [| ? ? []| |provider data|id name input|]; simpl; intros Hok;
    try (destruct (Hok _ eq_refl) as [Hv Hd]);
    (split; [|lia]); repeat split; try done; apply nodup_keys; vm_compute; reflexivity.
Qed.

Lemma enc_message_ok m :
  Forall block_ok (msg_content m) →
  json_ok number_ok (enc_message m) ∧ json_depth (enc_message m) ≤ JSON_MAX_DEPTH - 2.
Proof.
  intros Hok. destruct m as [role content]. simpl in Hok.
  assert (Forall (json_ok number_ok) (map enc_block content) ∧ Forall (λ v, json_depth v ≤ JSON_MAX_DEPTH - 4) (map enc_block content)) as [H1 H2].
  { split; rewrite Forall_fmap; (eapply Forall_impl; [exact Hok|]); intros b Hb; by apply enc_block_ok. }
  apply json_ok_array in H1. apply json_depth_array in H2. cbn [enc_message msg_role msg_content]. split.
  - cbn [json_ok foldr map fst snd]. split; [apply nodup_keys; vm_compute; reflexivity|]. split; [by destruct role|]. by split.
  - unfold JSON_MAX_DEPTH in *. simpl in *. destruct role; simpl; lia.
Qed.

Lemma keys_session r : NoDup (map fst (match enc_session r with JObject fields => fields | _ => [] end)).
Proof. destruct r as [ver gen id model [] [] [] [] messages]; apply nodup_keys; vm_compute; reflexivity. Qed.

Lemma enc_outcomes_ok (l : list AssistantOutcome) :
  json_ok number_ok (JArray (map enc_outcome l)) ∧ json_depth (JArray (map enc_outcome l)) ≤ 2.
Proof.
  split; [apply json_ok_array|apply json_depth_array]; apply Forall_fmap, Forall_forall; intros [] _; simpl; try lia;
    repeat split; try done; apply nodup_keys; vm_compute; reflexivity.
Qed.

Lemma enc_strings_ok (l : list string) :
  json_ok number_ok (JArray (map JString l)) ∧ json_depth (JArray (map JString l)) ≤ 1.
Proof. split; [apply json_ok_array|apply json_depth_array]; apply Forall_fmap, Forall_forall; intros ? _; simpl; (done || lia). Qed.

Lemma json_ok_object (fields : list (string * Json)) :
  NoDup (map fst fields) → Forall (λ f, json_ok number_ok f.2) fields → json_ok number_ok (JObject fields).
Proof. intros Hnd Hf. split; [done|]. clear Hnd. induction Hf; simpl; auto. Qed.

Lemma json_depth_object (fields : list (string * Json)) n :
  Forall (λ f, json_depth f.2 ≤ n) fields → json_depth (JObject fields) ≤ S n.
Proof. simpl. induction 1; simpl in *; lia. Qed.

(** A value that fits in a field of the record. *)
Definition fits (f : string * Json) : Prop := json_ok number_ok f.2 ∧ json_depth f.2 ≤ S (JSON_MAX_DEPTH - 2).

Lemma fits_leaf name v : json_ok number_ok v → json_depth v = 0 → fits (name, v).
Proof. intros Hv Hd. split; [done|]. simpl. rewrite Hd. lia. Qed.

Lemma fits_skip_none name x : Forall fits (skip_none name x).
Proof. destruct x; repeat constructor; by apply fits_leaf. Qed.

Lemma fits_skip_empty {A} name (enc : A → Json) l n :
  n ≤ S (JSON_MAX_DEPTH - 2) → json_ok number_ok (JArray (map enc l)) ∧ json_depth (JArray (map enc l)) ≤ n →
  Forall fits (skip_empty name enc l).
Proof. intros Hn [Hok Hd]. destruct l; [constructor|]. apply Forall_singleton. split; [done|]. etrans; [exact Hd|done]. Qed.

Lemma fits_u64 name n : is_u64 n → fits (name, enc_u64 n).
Proof. intros Hn. apply fits_leaf; [by apply number_ok_u64|done]. Qed.

Lemma enc_session_ok r :
  record_ok r → json_ok number_ok (enc_session r) ∧ json_depth (enc_session r) ≤ JSON_MAX_DEPTH.
Proof.
  intros [Hv Hg Hm].
  assert (Forall fits (match enc_session r with JObject fields => fields | _ => [] end)) as Hf.
  { cbn [enc_session]. rewrite !Forall_app. split_and!.
    - repeat (apply Forall_cons; split); [apply fits_u64; unfold is_u64, U64_MAX; lia|by apply fits_u64|by apply fits_leaf..|apply Forall_nil_2].
    - apply fits_skip_none.
    - apply fits_skip_none.
    - eapply fits_skip_empty; [|apply enc_strings_ok]. unfold JSON_MAX_DEPTH. lia.
    - eapply fits_skip_empty; [|apply enc_outcomes_ok]. unfold JSON_MAX_DEPTH. lia.
    - apply Forall_singleton. split; [apply json_ok_array|apply json_depth_array]; apply Forall_fmap;
        (eapply Forall_impl; [exact Hm|]); intros m ?; by apply enc_message_ok. }
  apply Forall_and in Hf as [Hf1 Hf2]. split.
  - apply json_ok_object; [apply (keys_session r)|exact Hf1].
  - apply json_depth_object in Hf2. exact Hf2.
Qed.

(** A record of the program is read back as it was. *)
Lemma decode_encode_session r text : record_ok r → encode_session r = Some text → decode_session text = Some r.
Proof.
  intros Hr He. destruct (enc_session_ok r Hr) as [Hok Hd].
  assert (text = to_text (enc_session r)) as -> by (unfold encode_session in He; by repeat case_match; simplify_eq).
  unfold decode_session. rewrite of_to_text by done. simpl. by apply dec_enc_session.
Qed.

(** The input of a tool call is six levels inside the record. *)
Lemma call_depth r m id name input :
  m ∈ ps_messages r → CbToolCall id name input ∈ msg_content m →
  json_depth input + RECORD_DEPTH ≤ json_depth (enc_session r).
Proof.
  intros Hm Hc. unfold RECORD_DEPTH.
  assert (S (json_depth (JArray (map enc_message (ps_messages r)))) ≤ json_depth (enc_session r)) as H1.
  { apply (json_depth_field _ ("messages", JArray (map enc_message (ps_messages r)))). rewrite !elem_of_app. do 5 right. by left. }
  assert (S (json_depth (enc_message m)) ≤ json_depth (JArray (map enc_message (ps_messages r)))) as H2
    by (apply json_depth_item; by apply list_elem_of_fmap_2).
  assert (S (json_depth (JArray (map enc_block (msg_content m)))) ≤ json_depth (enc_message m)) as H3
    by (apply (json_depth_field _ ("content", JArray (map enc_block (msg_content m)))); right; left).
  assert (S (json_depth (enc_block (CbToolCall id name input))) ≤ json_depth (JArray (map enc_block (msg_content m)))) as H4
    by (apply json_depth_item; by apply list_elem_of_fmap_2).
  assert (json_depth input + 2 ≤ json_depth (enc_block (CbToolCall id name input))) as H5 by (simpl; lia).
  lia.
Qed.

Lemma deep_call_unreadable r m id name input text :
  m ∈ ps_messages r → CbToolCall id name input ∈ msg_content m → JSON_MAX_DEPTH < json_depth input + RECORD_DEPTH →
  encode_session r = Some text → decode_session text = None.
Proof.
  intros Hm Hc Hd He. pose proof (call_depth r m id name input Hm Hc).
  assert (text = to_text (enc_session r)) as -> by (unfold encode_session in He; by repeat case_match; simplify_eq).
  unfold decode_session. by rewrite of_to_text_deep by lia.
Qed.
End text.

(** ** An instance *)

Fixpoint tree_of (v : Json) : gen_tree (string + bool) :=
  match v with
  | JNull => GenNode 0 []
  | JBool b => GenLeaf (inr b)
  | JNumber text => GenNode 1 [GenLeaf (inl text)]
  | JString s => GenLeaf (inl s)
  | JArray items => GenNode 2 (map tree_of items)
  | JObject fields => GenNode 3 (map (λ f, GenNode 4 [GenLeaf (inl f.1); tree_of f.2]) fields)
  end.

Fixpoint of_tree (t : gen_tree (string + bool)) : Json :=
  match t with
  | GenLeaf (inr b) => JBool b
  | GenLeaf (inl s) => JString s
  | GenNode 1 [GenLeaf (inl text)] => JNumber text
  | GenNode 2 ts => JArray (map of_tree ts)
  | GenNode 3 ts =>
      JObject (map (λ t, match t with GenNode _ [GenLeaf (inl k); v] => (k, of_tree v) | _ => ("", JNull) end) ts)
  | _ => JNull
  end.

Lemma of_tree_of v : of_tree (tree_of v) = v.
Proof.
  induction v as [| | | |items IH|fields IH] using json_induction; simpl; try done; f_equal; rewrite map_map.
  - induction IH as [|x items Hx _ IH']; [done|]. simpl. by rewrite Hx, IH'.
  - induction IH as [|[k v] fields Hx _ IH']; [done|]. simpl in *. by rewrite Hx, IH'.
Qed.

Fixpoint bits_of (p : positive) : string :=
  match p with xH => "" | xO p => String "0"%char (bits_of p) | xI p => String "1"%char (bits_of p) end.

Fixpoint of_bits (s : string) : positive :=
  match s with "" => xH | String c s => if Ascii.eqb c "0"%char then xO (of_bits s) else xI (of_bits s) end.

Lemma of_bits_of p : of_bits (bits_of p) = p.
Proof. induction p as [p IH|p IH|]; simpl; by rewrite ?IH. Qed.

Definition bits_read (text : string) : option Json :=
  t ← decode (of_bits text); let v := of_tree t in if json_depth v <=? JSON_MAX_DEPTH then Some v else None.

Lemma bits_read_print v :
  bits_read (bits_of (encode (tree_of v))) = if json_depth v <=? JSON_MAX_DEPTH then Some v else None.
Proof. unfold bits_read. rewrite of_bits_of, decode_encode. simpl. by rewrite of_tree_of. Qed.

(** Trees as the bits of their code. *)
Definition bits_print (v : Json) : string := bits_of (encode (tree_of v)).

Lemma bits_roundtrip v : json_ok (λ _, True) v → json_depth v ≤ JSON_MAX_DEPTH → bits_read (bits_print v) = Some v.
Proof. intros _ Hd. unfold bits_print. rewrite bits_read_print. by apply Nat.leb_le in Hd as ->. Qed.

Lemma bits_too_deep v : JSON_MAX_DEPTH < json_depth v → bits_read (bits_print v) = None.
Proof. intros Hd. unfold bits_print. rewrite bits_read_print. by apply Nat.leb_gt in Hd as ->. Qed.

Definition bits_text : JsonText :=
  Build_JsonText bits_print bits_read (λ _, True) (λ _ _, I) bits_roundtrip bits_too_deep.
