(* ===== verification/Store.v ===== *)
(** * The session store

    Models the transactions of [src/src/session_store.rs]: who may write a session
    (the writer epoch), which write wins (the generation), deletion, import and
    loading.

    The database is two tables, [sessions] and [session_writers].  SQLite runs each
    operation in one immediate transaction, so an operation is one atomic step;
    the argument [fault] is the error of the database, if it fails, in which case
    the transaction is rolled back.  A row holds the JSON text of its record
    ([SessionCodec]), which loading decodes.  The epoch of a claim (a random UUID) is
    an argument. *)

From stdpp Require Import base numbers list strings gmap sorting.
From S2P Require Import Prelude RustStr Safety Protocol Messages SessionCodec ProviderErrors.

(** ** Data *)

Definition SESSION_PERSIST_VERSION : Z := 1.

(** [std::io::ErrorKind], as far as the program distinguishes kinds. *)
Inductive IoKind := KInterrupted | KWouldBlock | KTimedOut | KPermissionDenied | KOther.

#[export] Instance IoKind_eq_dec : EqDecision IoKind.
Proof. solve_decision. Defined.

Inductive SessionStoreError :=
  | SeUnsafeId
  | SeAlreadyExists
  | SeWriterChanged (expected : Z) (found : option Z)
  | SeNotFound
  | SeFutureVersion (found supported : Z)
  | SeUnsupportedVersion (found supported : Z)
  | SeCorrupt
  | SeDatabase
  | SeIo (kind : IoKind).

(** [SessionStoreError::kind]. *)
Inductive SessionStoreErrorKind :=
  | SkUnsafeId | SkAlreadyExists | SkWriterChanged | SkNotFound | SkFutureVersion
  | SkUnsupportedVersion | SkCorrupt | SkDatabase | SkPermission | SkIo.

Definition error_kind (e : SessionStoreError) : SessionStoreErrorKind :=
  match e with
  | SeUnsafeId => SkUnsafeId
  | SeAlreadyExists => SkAlreadyExists
  | SeWriterChanged _ _ => SkWriterChanged
  | SeNotFound => SkNotFound
  | SeFutureVersion _ _ => SkFutureVersion
  | SeUnsupportedVersion _ _ => SkUnsupportedVersion
  | SeCorrupt => SkCorrupt
  | SeDatabase => SkDatabase
  | SeIo KPermissionDenied => SkPermission
  | SeIo _ => SkIo
  end.

(** [std::io::Error::other]: the kind of the wrapped error is not kept. *)
Definition io_other (e : SessionStoreError) : IoKind := KOther.

Record SessionWriter := mkWriter { sw_session_id : string; sw_epoch : string }.

Record SessionSummary := mkSummary {
  ss_id : string;
  ss_model : string;
  ss_message_count : nat;
  ss_cwd : option string;
  ss_first_user_line : option string;
}.

Inductive SessionWriteOutcome :=
  | WSaved (summary : SessionSummary)
  | WStale (stored_generation : Z)
  | WSuperseded.

(** A row of [sessions]: the columns that are read back. *)
Record Row := mkRow { row_generation : Z; row_payload : string; row_summary : SessionSummary }.

Record SessionStore := mkStore {
  st_sessions : gmap string Row;
  st_writers : gmap string string;
}.

(** ** Operations *)

Section store.
Context `{JsonText}.

Definition valid_id (id : string) : bool :=
  negb (bool_decide (id = "")) && forallb char_is_keyish (chars id).

Definition claim_writer (s : SessionStore) (session_id : string) (expected_generation : option Z)
    (epoch : string) (fault : option SessionStoreError)
    : SessionStore * result SessionWriter SessionStoreError :=
  if negb (valid_id session_id) then (s, Err SeUnsafeId)
  else match fault with
  | Some e => (s, Err e)
  | None =>
      let found := row_generation <$> st_sessions s !! session_id in
      let claimed := (mkStore (st_sessions s) (<[session_id := epoch]> (st_writers s)),
                      Ok (mkWriter session_id epoch)) in
      match expected_generation with
      | Some expected => if bool_decide (found = Some expected) then claimed
                         else (s, Err (SeWriterChanged expected found))
      | None => if is_some found then (s, Err SeAlreadyExists) else claimed
      end
  end.

Definition summary_of (r : PersistedSession) (preview : option string) : SessionSummary :=
  mkSummary (ps_session_id r) (ps_model r) (length (ps_messages r)) (ps_cwd r) preview.

(** The last part of [write_record]: the record is encoded and its row replaced; a record
    that cannot be encoded leaves the transaction. *)
Definition put_record (s : SessionStore) (record : PersistedSession) (generation : Z) (max_preview_bytes : nat)
    : SessionStore * result SessionWriteOutcome IoKind :=
  let record := with_generation record generation in
  match encode_session record with
  | None => (s, Err KOther)
  | Some payload =>
      let summary := summary_of record (first_user_preview (ps_messages record) max_preview_bytes) in
      (mkStore (<[ps_session_id record := mkRow generation payload summary]> (st_sessions s)) (st_writers s),
       Ok (WSaved summary))
  end.

Definition write_record (s : SessionStore) (record : PersistedSession) (max_preview_bytes : nat)
    (requested_generation : option Z) (writer : option SessionWriter)
    (fault : option SessionStoreError) : SessionStore * result SessionWriteOutcome IoKind :=
  match fault with
  | Some e => (s, Err (io_other e))
  | None =>
      let id := ps_session_id record in
      let active_epoch := st_writers s !! id in
      let epoch_matches :=
        match writer with
        | Some w => bool_decide (active_epoch = Some (sw_epoch w))
        | None => negb (is_some active_epoch)
        end in
      if negb epoch_matches then (s, Ok WSuperseded)
      else
        let stored_generation := row_generation <$> st_sessions s !! id in
        let generation :=
          match requested_generation with
          | Some g => g
          | None => u64_saturating_add (default 0%Z stored_generation) 1
          end in
        match stored_generation with
        | Some stored => if (generation <=? stored)%Z then (s, Ok (WStale stored)) else put_record s record generation max_preview_bytes
        | None => put_record s record generation max_preview_bytes
        end
  end.

(** [save_record_result], which [save_acp_generation_result] calls with the
    writer's own session id. *)
Definition save_record_result (s : SessionStore) (id model : string) (thinking : option string)
    (messages : list Message) (cwd : option string) (client_user_message_ids : list string)
    (assistant_outcomes : list AssistantOutcome) (max_preview_bytes : nat) (generation : option Z)
    (writer : option SessionWriter) (fault : option SessionStoreError)
    : SessionStore * result SessionWriteOutcome IoKind :=
  if negb (valid_id id) then (s, Err KOther)
  else write_record s
         (mkPersisted SESSION_PERSIST_VERSION (default 0%Z generation) id model thinking cwd
            client_user_message_ids assistant_outcomes messages)
         max_preview_bytes generation writer fault.

Definition save_acp_generation_result (s : SessionStore) (writer : SessionWriter) (generation : Z)
    (model thinking : string) (messages : list Message) (cwd : string)
    (client_user_message_ids : list string) (assistant_outcomes : list AssistantOutcome)
    (max_preview_bytes : nat) (fault : option SessionStoreError)
    : SessionStore * result SessionWriteOutcome IoKind :=
  save_record_result s (sw_session_id writer) model (Some thinking) messages (Some cwd)
    client_user_message_ids assistant_outcomes max_preview_bytes (Some generation) (Some writer) fault.

Definition validate_persisted_session (r : PersistedSession) : result unit SessionStoreError :=
  if (SESSION_PERSIST_VERSION <? ps_version r)%Z
  then Err (SeFutureVersion (ps_version r) SESSION_PERSIST_VERSION)
  else if negb (ps_version r =? SESSION_PERSIST_VERSION)%Z
  then Err (SeUnsupportedVersion (ps_version r) SESSION_PERSIST_VERSION)
  else Ok tt.

Definition decode_persisted_session (payload : string) : result PersistedSession SessionStoreError :=
  match decode_session payload with
  | None => Err SeCorrupt
  | Some record => (let? _ := validate_persisted_session record in Ok record)%result
  end.

Definition load_result (s : SessionStore) (id : string) (fault : option SessionStoreError)
    : result PersistedSession SessionStoreError :=
  if negb (valid_id id) then Err SeUnsafeId
  else match fault with
  | Some e => Err e
  | None =>
      match st_sessions s !! id with
      | None => Err SeNotFound
      | Some row =>
          (let? record := decode_persisted_session (row_payload row) in
           if bool_decide (ps_session_id record = id)
           then Ok (with_generation record (row_generation row))
           else Err SeDatabase)%result
      end
  end.

Definition import_if_absent (s : SessionStore) (record : PersistedSession) (max_preview_bytes : nat)
    (fault : option SessionStoreError) : SessionStore * result unit SessionStoreError :=
  match validate_persisted_session record with
  | Err e => (s, Err e)
  | Ok _ =>
      let id := ps_session_id record in
      if negb (valid_id id) then (s, Err SeUnsafeId)
      else
        let record := with_generation record 1 in
        match encode_session record, fault with
        | None, _ => (s, Err SeCorrupt)
        | Some _, Some e => (s, Err e)
        | Some payload, None =>
            if is_some (st_sessions s !! id) || is_some (st_writers s !! id)
            then (s, Err SeAlreadyExists)
            else
              let summary := summary_of record (first_user_preview (ps_messages record) max_preview_bytes) in
              (mkStore (<[id := mkRow 1 payload summary]> (st_sessions s)) (st_writers s), Ok tt)
        end
  end.

Definition delete_unconditionally (s : SessionStore) (id : string)
    (fault : option SessionStoreError) : SessionStore * result bool IoKind :=
  if negb (valid_id id) then (s, Ok false)
  else match fault with
  | Some e => (s, Err (io_other e))
  | None => (mkStore (delete id (st_sessions s)) (delete id (st_writers s)),
             Ok (is_some (st_sessions s !! id)))
  end.

Definition delete_writer (s : SessionStore) (w : SessionWriter) (fault : option SessionStoreError)
    : SessionStore * result (option bool) IoKind :=
  match fault with
  | Some e => (s, Err (io_other e))
  | None =>
      let id := sw_session_id w in
      if bool_decide (st_writers s !! id = Some (sw_epoch w))
      then (mkStore (delete id (st_sessions s)) (delete id (st_writers s)),
            Ok (Some (is_some (st_sessions s !! id))))
      else (s, Ok None)
  end.

(** *** Operations as data *)

Inductive StoreOp :=
  | SClaim (id : string) (expected : option Z) (epoch : string) (fault : option SessionStoreError)
  | SWrite (record : PersistedSession) (max_preview : nat) (generation : option Z)
      (writer : option SessionWriter) (fault : option SessionStoreError)
  | SImport (record : PersistedSession) (max_preview : nat) (fault : option SessionStoreError)
  | SDelete (id : string) (fault : option SessionStoreError)
  | SDeleteWriter (w : SessionWriter) (fault : option SessionStoreError).

Definition store_op (s : SessionStore) (op : StoreOp) : SessionStore :=
  match op with
  | SClaim id expected epoch fault => (claim_writer s id expected epoch fault).1
  | SWrite r mp g w fault => (write_record s r mp g w fault).1
  | SImport r mp fault => (import_if_absent s r mp fault).1
  | SDelete id fault => (delete_unconditionally s id fault).1
  | SDeleteWriter w fault => (delete_writer s w fault).1
  end.

Definition store_run (s : SessionStore) (ops : list StoreOp) : SessionStore := foldl store_op s ops.

(** ** Lemmas *)

(** No claim of the sequence is given the epoch (epochs are fresh UUIDs). *)
Definition epoch_fresh (epoch : string) (op : StoreOp) : Prop :=
  match op with SClaim _ _ e _ => e ≠ epoch | _ => True end.

Definition holds (s : SessionStore) (w : SessionWriter) : Prop :=
  st_writers s !! sw_session_id w = Some (sw_epoch w).

Lemma store_op_holds s op w :
  epoch_fresh (sw_epoch w) op → holds (store_op s op) w → holds s w.
Proof.
  unfold holds. destruct op as [id ex e f|r mp g ww f|r mp f|id f|ww f]; simpl.
  - intros Hne. unfold claim_writer. repeat case_match; simpl; try done;
      intros [[_ ?]|[_ ?]]%lookup_insert_Some; naive_solver.
  - intros _. unfold write_record, put_record. by repeat case_match.
  - intros _. unfold import_if_absent. by repeat case_match.
  - intros _. unfold delete_unconditionally. repeat case_match; simpl; try done.
    by intros [_ ?]%lookup_delete_Some.
  - intros _. unfold delete_writer. repeat case_match; simpl; try done.
    by intros [_ ?]%lookup_delete_Some.
Qed.

Lemma store_run_holds s ops w :
  Forall (epoch_fresh (sw_epoch w)) ops → holds (store_run s ops) w → holds s w.
Proof.
  intros Hf. revert s. induction Hf as [|op ops Hop Hops IH]; intros s; simpl; [done|].
  intros Hh%IH. by eapply store_op_holds.
Qed.


(** ** Properties *)

(** C4: A superseded writer is inert for ever.  Once the active epoch of a session
    is not the writer's, and as epochs are never given out twice, then after any
    later claims, writes, imports and deletions its writes and deletions are
    refused and change nothing. *)
Theorem superseded_writer_is_inert s ops w record max_preview generation :
  ¬ holds s w → Forall (epoch_fresh (sw_epoch w)) ops →
  ps_session_id record = sw_session_id w →
  let s' := store_run s ops in
  write_record s' record max_preview generation (Some w) None = (s', Ok WSuperseded) ∧
  delete_writer s' w None = (s', Ok None).
Proof.
  intros Hh Hf Hid s'. assert (¬ holds s' w) as Hn by (intros ?%store_run_holds; auto).
  unfold write_record, delete_writer. rewrite Hid. unfold holds in Hn.
  by rewrite !bool_decide_eq_false_2 by done.
Qed.




(** What an accepted write did. *)
Lemma write_saved s record max_preview requested writer s' summary :
  write_record s record max_preview requested writer None = (s', Ok (WSaved summary)) →
  let id := ps_session_id record in
  ∃ generation payload,
    s' = mkStore (<[id := mkRow generation payload summary]> (st_sessions s)) (st_writers s) ∧
    encode_session (with_generation record generation) = Some payload ∧
    (∀ g, requested = Some g → generation = g) ∧
    (requested = None → generation = u64_saturating_add (default 0%Z (row_generation <$> st_sessions s !! id)) 1) ∧
    (∀ old, st_sessions s !! id = Some old → (row_generation old < generation)%Z).
Proof.
  intros Hw id. unfold write_record, put_record in Hw. fold id in Hw. destruct (negb _); [done|].
  set (g := match requested with Some g => g | None => _ end) in Hw.
  assert ((∀ g', requested = Some g' → g = g') ∧
    (requested = None → g = u64_saturating_add (default 0%Z (row_generation <$> st_sessions s !! id)) 1)) as [Hg1 Hg2]
    by (unfold g; destruct requested; naive_solver).
  exists g. destruct (st_sessions s !! id) as [old|] eqn:Eo; simpl in Hw.
  - destruct (Z.leb_spec g (row_generation old)); [done|]. destruct (encode_session _) as [payload|] eqn:Ee; simplify_eq.
    exists payload. split_and!; try done. intros ? [= ->]. lia.
  - destruct (encode_session _) as [payload|] eqn:Ee; simplify_eq. exists payload. by split_and!.
Qed.



(** A session whose history has a tool call with an input nested more deeply than the
    reader allows inside a record is saved, and cannot be loaded again. *)
Theorem deep_call_is_not_loaded s record max_preview requested writer s' summary m id name input :
  write_record s record max_preview requested writer None = (s', Ok (WSaved summary)) →
  valid_id (ps_session_id record) = true →
  m ∈ ps_messages record → CbToolCall id name input ∈ msg_content m → JSON_MAX_DEPTH < json_depth input + RECORD_DEPTH →
  load_result s' (ps_session_id record) None = Err SeCorrupt.
Proof.
  intros Hw Hv Hm Hc Hd. destruct (write_saved s record max_preview requested writer s' summary Hw) as (g&payload&->&He&_).
  unfold load_result. rewrite Hv. simpl. rewrite lookup_insert, decide_True by done. simpl. unfold decode_persisted_session.
  by rewrite (deep_call_unreadable (with_generation record g) m id name input payload).
Qed.

End store.

(** ** Concrete runs *)

#[local] Existing Instance bits_text.

Definition sample_record : PersistedSession :=
  mkPersisted 1 0 "s-1" "m" None None [] []
    [message_user "hello"; mkMessage RoleAssistant [CbToolCall "c" "t" (JObject [("k", JNull)])]].

Definition sample_store : SessionStore :=
  store_run (mkStore ∅ ∅) [SClaim "s-1" None "e1" None;
    SWrite sample_record 80 (Some 4%Z) (Some (mkWriter "s-1" "e1")) None].

Lemma superseded_writer_is_inert_witness :
  let s' := store_run sample_store [SClaim "s-1" (Some 4%Z) "e2" None;
              SWrite sample_record 80 (Some 5%Z) (Some (mkWriter "s-1" "e2")) None] in
  write_record s' sample_record 80 (Some 9%Z) (Some (mkWriter "s-1" "e1")) None = (s', Ok WSuperseded) ∧
  delete_writer s' (mkWriter "s-1" "e1") None = (s', Ok None).
Proof.
  pose proof (superseded_writer_is_inert
    (store_run sample_store [SClaim "s-1" (Some 4%Z) "e2" None])
    [SWrite sample_record 80 (Some 5%Z) (Some (mkWriter "s-1" "e2")) None]
    (mkWriter "s-1" "e1") sample_record 80 (Some 9%Z)) as Hi.
  apply Hi; [|by repeat constructor|done]. unfold holds. by vm_compute.
Defined.


(** An input of the depth the reader accepts on its own, inside a record. *)
Definition nested (n : nat) : Json := Nat.iter n (λ v, JArray [v]) JNull.

Definition deep_record : PersistedSession :=
  mkPersisted 1 0 "s-1" "m" None None [] [] [mkMessage RoleAssistant [CbToolCall "c" "t" (nested 122)]].

Lemma deep_call_is_not_loaded_witness :
  let s := (write_record (mkStore ∅ ∅) deep_record 80 (Some 4%Z) None None).1 in
  of_text (to_text (nested 122)) = Some (nested 122) ∧ load_result s "s-1" None = Err SeCorrupt.
Proof.
  split; [vm_compute; reflexivity|].
  apply (deep_call_is_not_loaded (mkStore ∅ ∅) deep_record 80 (Some 4%Z) None _ (mkSummary "s-1" "m" 1 None None)
    (mkMessage RoleAssistant [CbToolCall "c" "t" (nested 122)]) "c" "t" (nested 122)).
  - vm_compute. reflexivity.
  - reflexivity.
  - left.
  - left.
  - vm_compute. lia.
Defined.
