(* ===== verification/History.v ===== *)
(** * Conversation history: turns, tool-call pairing and compaction

    Models the functions of [src/src/agent.rs] that keep a history acceptable to the
    model providers ([close_orphan_tool_calls], [materialize_cancelled_suffix] and
    the turn helpers) and the machinery of [src/src/compaction.rs] that decides where a
    history is cut and what replaces the evicted part.

    Providers reject an assistant message whose tool calls are not answered by the
    next message; [paired] is that condition.  The estimate of a message's size
    needs the printed length of JSON values, which is a parameter ([json_text]). *)

From stdpp Require Import base numbers list strings gmap sorting.
From S2P Require Import Prelude RustStr Safety Messages.

(** ** Blocks *)

Definition block_call_id (b : ContentBlock) : option string :=
  match b with CbToolCall id _ _ => Some id | _ => None end.

Definition block_result_id (b : ContentBlock) : option string :=
  match b with CbToolResult tool_use_id _ _ => Some tool_use_id | _ => None end.

Definition is_tool_result (b : ContentBlock) : bool := is_some (block_result_id b).

(** The ids a message asks to be answered: only the assistant makes calls. *)
Definition call_ids (m : Message) : list string :=
  if bool_decide (msg_role m = RoleAssistant) then omap block_call_id (msg_content m) else [].

Definition result_ids (m : Message) : list string := omap block_result_id (msg_content m).

(** The set [answered] of both repair functions. *)
Definition answered (messages : list Message) : list string :=
  concat (map result_ids messages).

(** ** Closing orphan tool calls *)

Definition has_orphan_tool_calls (messages : list Message) : bool :=
  if negb (existsb (λ m, existsb (λ b, is_some (block_call_id b)) (msg_content m)) messages) then false
  else
    existsb (λ m, existsb (λ b, match block_call_id b with
                                | Some id => negb (bool_decide (id ∈ answered messages))
                                | None => false
                                end) (msg_content m)) messages.

Definition INTERRUPTED_TOOL_RESULT : string :=
  "Tool call interrupted: the assistant turn ended before this tool ran, so it produced no result and changed nothing. Re-issue it if it is still needed.".

Definition orphan_ids (ans : list string) (m : Message) : list string :=
  List.filter (λ id, negb (bool_decide (id ∈ ans))) (call_ids m).

Definition interrupted_result (tool_use_id : string) : ContentBlock :=
  CbToolResult tool_use_id INTERRUPTED_TOOL_RESULT true.

(** The loop that pushes each message and, after it, the synthetic results. *)
Fixpoint repair (ans : list string) (messages : list Message) : list Message :=
  match messages with
  | [] => []
  | m :: messages =>
      let ids := orphan_ids ans m in
      m :: (if bool_decide (ids = []) then [] else [mkMessage RoleUser (map interrupted_result ids)])
        ++ repair ans messages
  end.

Definition close_orphan_tool_calls (messages : list Message) : list Message :=
  let ans := answered messages in
  if forallb (λ m, bool_decide (orphan_ids ans m = [])) messages then messages
  else repair ans messages.

(** ** The history of a cancelled turn *)

Definition is_result_message (m : Message) : bool :=
  bool_decide (msg_role m = RoleUser) && negb (bool_decide (length (msg_content m) = 0))
  && forallb is_tool_result (msg_content m).

Definition has_id (id : string) (b : ContentBlock) : bool := bool_decide (block_result_id b = Some id).

(** One result per call, in the order of the calls: the one that exists or the
    note; then the results of other calls. *)
Definition ordered_results (note : string) (ids : list string) (existing : list ContentBlock)
    : list ContentBlock :=
  map (λ id, match lfind (has_id id) existing with
             | Some b => b
             | None => CbToolResult id note true
             end) ids
  ++ List.filter (λ b, negb (existsb (λ id, has_id id b) ids)) existing.

(** The peeking loop of [materialize_cancelled_suffix]. *)
Fixpoint pair_results (note : string) (messages : list Message) : list Message :=
  match messages with
  | [] => []
  | m :: rest =>
      let ids := call_ids m in
      if bool_decide (ids = []) then m :: pair_results note rest
      else
        match rest with
        | next :: rest' =>
            if is_result_message next
            then m :: mkMessage RoleUser (ordered_results note ids (msg_content next))
                   :: pair_results note rest'
            else m :: mkMessage RoleUser (ordered_results note ids []) :: pair_results note rest
        | [] => [m; mkMessage RoleUser (ordered_results note ids [])]
        end
  end.

Definition materialize_cancelled_suffix (messages : list Message) (note : string) : list Message :=
  let materialized := pair_results note messages in
  if bool_decide (note = "") then materialized
  else
    match last materialized with
    | Some m =>
        if bool_decide (msg_role m = RoleAssistant)
        then take (length materialized - 1) materialized
             ++ [mkMessage RoleAssistant (msg_content m ++ [CbText note])]
        else materialized ++ [message_assistant note]
    | None => materialized ++ [message_assistant note]
    end.

(** ** Turns *)

Definition SUMMARY_PREFIX : string := "[Summary of earlier conversation:".
Definition TRUNCATED_PREFIX : string := "[Earlier conversation truncated".

Definition is_user_turn_message (m : Message) : bool :=
  if negb (bool_decide (msg_role m = RoleUser)) then false
  else existsb (λ b, match b with
                     | CbText text =>
                         negb (starts_with SUMMARY_PREFIX text) && negb (starts_with TRUNCATED_PREFIX text)
                     | CbImage _ _ _ => true
                     | _ => false
                     end) (msg_content m).

Definition block_text (b : ContentBlock) : option string :=
  match b with CbText t => Some t | _ => None end.

Definition last_assistant_text (messages : list Message) : string :=
  match rfind (λ m, bool_decide (msg_role m = RoleAssistant)) messages with
  | Some m => join "" (omap block_text (msg_content m))
  | None => ""
  end.

(** ** Compaction *)

Section estimate.
Context (json_text : Json → string).

Definition EST_CHARS_PER_TOKEN : nat := 4.

Definition block_chars (b : ContentBlock) : nat :=
  match b with
  | CbText t | CbThinking t => String.length t
  | CbProviderState provider data => String.length provider + String.length (json_text data)
  | CbImage data media_type uri =>
      String.length data + String.length media_type + match uri with Some u => String.length u | None => 0 end
  | CbToolCall id name input => String.length id + String.length name + String.length (json_text input)
  | CbToolResult tool_use_id content _ => String.length tool_use_id + String.length content
  end.

Definition estimate_message_tokens (m : Message) : nat :=
  sum_list (map block_chars (msg_content m)) / EST_CHARS_PER_TOKEN.

Definition estimate_tokens (messages : list Message) : nat :=
  sum_list (map estimate_message_tokens messages).

Definition estimate_prompt_tokens (system : option string) (messages : list Message) : nat :=
  match system with Some s => String.length s / EST_CHARS_PER_TOKEN | None => 0 end
  + estimate_tokens messages.

Definition is_turn_start (m : Message) : bool :=
  bool_decide (msg_role m = RoleUser)
  && match head (msg_content m) with
     | Some (CbText _) | Some (CbImage _ _ _) => true
     | _ => false
     end.

Fixpoint turn_starts_from (i : nat) (messages : list Message) : list nat :=
  match messages with
  | [] => []
  | m :: messages =>
      if is_turn_start m then i :: turn_starts_from (S i) messages
      else turn_starts_from (S i) messages
  end.

Definition turn_starts (messages : list Message) : list nat := turn_starts_from 0 messages.

(** The walk from the newest turn to older ones. *)
Fixpoint extend_tail (messages : list Message) (target cut : nat) (older : list nat) : nat :=
  match older with
  | [] => cut
  | start :: older =>
      if target <=? estimate_tokens (drop cut messages) then cut
      else extend_tail messages target start older
  end.

Definition choose_cut (messages : list Message) (target_tokens : nat) : option nat :=
  match reverse (turn_starts messages) with
  | newest :: older =>
      if bool_decide (older = []) then None
      else
        let cut := extend_tail messages target_tokens newest older in
        if 0 <? cut then Some cut else None
  | [] => None
  end.

End estimate.

Definition summary_message (summary_text : string) : Message :=
  message_user ("[Summary of earlier conversation: " +:+ summary_text +:+ "]").

Definition drop_marker_message : Message :=
  message_user "[Earlier conversation truncated — summary unavailable]".

(** ** What providers accept *)

(** The message after [m] answers every call of [m]. *)
Definition answers (m next : Message) : bool :=
  is_result_message next && forallb (λ id, bool_decide (id ∈ result_ids next)) (call_ids m).

Fixpoint paired (messages : list Message) : bool :=
  match messages with
  | [] => true
  | m :: rest =>
      (bool_decide (call_ids m = []) || match rest with next :: _ => answers m next | [] => false end)
      && paired rest
  end.

Definition user_turns (messages : list Message) : list Message :=
  List.filter is_user_turn_message messages.

(** Only the assistant's messages hold tool calls. *)
Definition calls_by_assistant (messages : list Message) : Prop :=
  Forall (λ m, msg_role m = RoleUser → omap block_call_id (msg_content m) = []) messages.

(** ** Lemmas *)

Lemma user_turns_app l k : user_turns (l ++ k) = user_turns l ++ user_turns k.
Proof. apply List.filter_app. Qed.

Lemma user_turns_cons m l :
  user_turns (m :: l) = (if is_user_turn_message m then [m] else []) ++ user_turns l.
Proof. unfold user_turns; simpl. by destruct (is_user_turn_message m). Qed.

(** A message of tool results is not a user turn and makes no calls. *)
Lemma results_not_turn r content :
  forallb is_tool_result content = true → is_user_turn_message (mkMessage r content) = false.
Proof.
  intros H. unfold is_user_turn_message; simpl. case_bool_decide; [simpl|done].
  apply existsb_not. intros b Hb. rewrite forallb_forall in H.
  specialize (H b (proj1 (list_elem_of_In _ _) Hb)). by destruct b.
Qed.

Lemma result_message_not_turn m : is_result_message m = true → is_user_turn_message m = false.
Proof.
  unfold is_result_message. rewrite !andb_true_iff. intros [_ H]. destruct m. by apply results_not_turn.
Qed.

Lemma call_ids_user m : msg_role m = RoleUser → call_ids m = [].
Proof. intros H. unfold call_ids. by rewrite H. Qed.

Lemma result_message_user m : is_result_message m = true → msg_role m = RoleUser.
Proof. unfold is_result_message. rewrite !andb_true_iff. intros [[?%bool_decide_eq_true _] _]. done. Qed.

Section ordered.
Context (note : string) (ids : list string) (existing : list ContentBlock).
Hypothesis (Hres : forallb is_tool_result existing = true).

Lemma ordered_results_tool : forallb is_tool_result (ordered_results note ids existing) = true.
Proof.
  unfold ordered_results. rewrite forallb_app. apply andb_true_iff.
  rewrite forallb_forall in Hres. split; apply forallb_forall; intros b Hb.
  - apply in_map_iff in Hb as (id&<-&_). destruct (lfind _ existing) as [b|] eqn:E; [|done].
    apply Hres. revert E. clear. induction existing as [|x l IH]; simpl; [done|].
    destruct (has_id id x); [intros [= ->]; by left|intros ?%IH; by right].
  - apply filter_In in Hb as [Hb _]. auto.
Qed.

Lemma ordered_results_covers id :
  id ∈ ids → id ∈ omap block_result_id (ordered_results note ids existing).
Proof.
  intros Hid. unfold ordered_results. rewrite omap_app. apply elem_of_app. left.
  apply list_elem_of_omap. eexists. split; [by apply (list_elem_of_fmap_2 _ _ id)|].
  simpl. destruct (lfind _ existing) as [b|] eqn:E; [|done].
  revert E. clear. induction existing as [|x l IH]; simpl; [done|].
  destruct (has_id id x) eqn:Hx; [|done]. intros [= ->].
  by apply bool_decide_eq_true in Hx.
Qed.

Lemma ordered_results_message :
  ids ≠ [] → is_result_message (mkMessage RoleUser (ordered_results note ids existing)) = true.
Proof.
  intros Hne. unfold is_result_message; simpl. rewrite ordered_results_tool.
  rewrite bool_decide_false; [done|]. intros [Hz _]%nil_length_inv%app_eq_nil. by apply map_eq_nil in Hz.
Qed.
End ordered.

(** The result message after [m] that the loop builds. *)
Lemma ordered_answers note m existing :
  forallb is_tool_result existing = true → call_ids m ≠ [] →
  answers m (mkMessage RoleUser (ordered_results note (call_ids m) existing)) = true.
Proof.
  intros Hres Hne. unfold answers. rewrite ordered_results_message by done. simpl.
  apply forallb_forall. intros id Hid%list_elem_of_In. apply bool_decide_eq_true.
  by apply ordered_results_covers.
Qed.

Lemma ordered_not_turn note ids existing :
  forallb is_tool_result existing = true →
  is_user_turn_message (mkMessage RoleUser (ordered_results note ids existing)) = false.
Proof. intros. by apply results_not_turn, ordered_results_tool. Qed.

Lemma result_message_content m : is_result_message m = true → forallb is_tool_result (msg_content m) = true.
Proof. unfold is_result_message. rewrite !andb_true_iff. by intros [_ ?]. Qed.

(** What the pairing loop guarantees, by induction on the number of messages. *)
Lemma pair_results_spec note n : ∀ messages, length messages ≤ n →
  let out := pair_results note messages in
  paired out = true ∧ user_turns out = user_turns messages ∧
  concat (map call_ids out) = concat (map call_ids messages) ∧
  (∀ m, last out = Some m → msg_role m = RoleAssistant → call_ids m = []).
Proof.
  induction n as [|n IH]; intros [|m rest] Hlen; try (simpl in *; lia); try (by split_and!).
  cbn [pair_results]. case_bool_decide as Hids.
  - destruct (IH rest) as (Hp&Hu&Hc&Hl); [simpl in *; lia|].
    cbn [paired map concat]. rewrite bool_decide_true by done.
    rewrite !user_turns_cons, Hu, Hc, Hp. split_and!; try done.
    intros m' Hm'. destruct (pair_results note rest) eqn:E; [|by apply Hl]. by simplify_eq/=.
  - assert (Hans : ∀ existing, forallb is_tool_result existing = true → ∀ rest',
      paired (pair_results note rest') = true →
      paired (m :: mkMessage RoleUser (ordered_results note (call_ids m) existing)
              :: pair_results note rest') = true).
    { intros existing He rest' Hr. cbn [paired]. rewrite (ordered_answers note m existing He Hids), Hr.
      by rewrite bool_decide_false, bool_decide_true. }
    assert (Hlast : ∀ (x : Message) l m', msg_role x = RoleUser →
      (∀ m', last l = Some m' → msg_role m' = RoleAssistant → call_ids m' = []) →
      last (m :: x :: l) = Some m' → msg_role m' = RoleAssistant → call_ids m' = []).
    { intros x l m' Hx Hl. destruct l; [intros [= <-]; by rewrite Hx|]. apply Hl. }
    destruct rest as [|next rest'].
    + cbv iota. split_and!; [by apply (Hans [] eq_refl [])| |done|intros m'; by apply Hlast].
      rewrite !user_turns_cons, ordered_not_turn by done. done.
    + cbv iota. destruct (is_result_message next) eqn:Hn.
      * destruct (IH rest') as (Hp&Hu&Hc&Hl); [simpl in *; lia|].
        pose proof (result_message_content _ Hn) as He.
        split_and!; [by apply Hans| | |intros m'; by apply Hlast].
        -- rewrite !user_turns_cons, ordered_not_turn, (result_message_not_turn next), Hu by done. done.
        -- simpl. rewrite Hc, (call_ids_user next) by by apply result_message_user. done.
      * destruct (IH (next :: rest')) as (Hp&Hu&Hc&Hl); [simpl in *; lia|].
        split_and!; [by apply (Hans [] eq_refl)| | |intros m'; by apply Hlast].
        -- rewrite !(user_turns_cons m), (user_turns_cons (mkMessage _ _)), ordered_not_turn, Hu by done. done.
        -- simpl in *. by rewrite Hc.
Qed.

(** *** Pairing and splitting *)

Lemma paired_app l k : paired l = true → paired (l ++ k) = paired k.
Proof.
  induction l as [|m [|next l] IH]; intros H; [done| |].
  - simpl in *. rewrite !andb_true_r, orb_false_r in H. by rewrite H.
  - cbn [paired] in H. apply andb_true_iff in H as [Hm Hr].
    rewrite <- IH by exact Hr. cbn [paired app] in *. by rewrite Hm.
Qed.

Lemma paired_suffix l k : paired (l ++ k) = true → paired k = true.
Proof. induction l as [|m l IH]; [done|]. simpl. rewrite andb_true_iff. intros [_ H]. auto. Qed.

(** A message that is not one of results has nothing open before it. *)
Lemma paired_before l x k :
  paired (l ++ x :: k) = true → is_result_message x = false → paired l = true.
Proof.
  intros H Hx. induction l as [|m l IH]; [done|].
  simpl in H. apply andb_true_iff in H as [Hm Hr]. simpl. rewrite (IH Hr), andb_true_r.
  apply orb_true_iff in Hm as [->|Hm]; [done|]. apply orb_true_iff.
  destruct l as [|next l]; simpl in Hm; [|by right].
  unfold answers in Hm. by rewrite Hx in Hm.
Qed.

Lemma turn_start_not_result m : is_turn_start m = true → is_result_message m = false.
Proof.
  unfold is_turn_start, is_result_message. destruct m as [r [|b content]]; simpl.
  - by rewrite andb_false_r.
  - intros [_ H]%andb_true_iff. by destruct b; rewrite ?andb_false_r.
Qed.

Lemma assistant_not_result m : msg_role m = RoleAssistant → is_result_message m = false.
Proof. intros H. unfold is_result_message. by rewrite H. Qed.

(** Splitting a history at a message that is not one of results keeps both parts. *)
Lemma paired_split l x k :
  is_result_message x = false →
  paired (l ++ x :: k) = true ↔ paired l = true ∧ paired (x :: k) = true.
Proof.
  intros Hx. split.
  - intros H. split; [by eapply paired_before|by eapply paired_suffix].
  - intros [Hl Hk]. by rewrite paired_app.
Qed.

(** *** Closing orphans *)

Lemma answered_app l k : answered (l ++ k) = answered l ++ answered k.
Proof. unfold answered. by rewrite map_app, concat_app. Qed.

Lemma elem_of_answered id messages : id ∈ answered messages ↔ ∃ m, m ∈ messages ∧ id ∈ result_ids m.
Proof.
  induction messages as [|m l IH]; [set_solver|]. change (m :: l) with ([m] ++ l).
  rewrite answered_app, elem_of_app, IH. unfold answered; simpl. rewrite app_nil_r. set_solver.
Qed.

Lemma elem_of_orphan_ids ans m id : id ∈ orphan_ids ans m ↔ id ∈ call_ids m ∧ id ∉ ans.
Proof.
  unfold orphan_ids. rewrite list_elem_of_In, filter_In, <- list_elem_of_In.
  by rewrite negb_true_iff, bool_decide_eq_false.
Qed.

Lemma orphan_ids_nil ans m : orphan_ids ans m = [] ↔ ∀ id, id ∈ call_ids m → id ∈ ans.
Proof.
  split.
  - intros H id Hid. destruct (decide (id ∈ ans)); [done|]. exfalso. apply (not_elem_of_nil id).
    rewrite <- H. by apply elem_of_orphan_ids.
  - intros H. destruct (orphan_ids ans m) as [|id l] eqn:E; [done|].
    assert (id ∈ orphan_ids ans m) as [? []]%elem_of_orphan_ids by (rewrite E; by left). auto.
Qed.

Lemma interrupted_result_ids ids : omap block_result_id (map interrupted_result ids) = ids.
Proof. induction ids as [|id l IH]; [done|]. csimpl. by rewrite IH. Qed.

Lemma interrupted_results ids : forallb is_tool_result (map interrupted_result ids) = true.
Proof. by induction ids. Qed.

(** The message inserted after one whose calls are open. *)
Definition inserted (ans : list string) (m : Message) : list Message :=
  if bool_decide (orphan_ids ans m = []) then []
  else [mkMessage RoleUser (map interrupted_result (orphan_ids ans m))].

Lemma repair_cons ans m l : repair ans (m :: l) = m :: inserted ans m ++ repair ans l.
Proof. done. Qed.

Lemma inserted_user ans m x :
  x ∈ inserted ans m →
  is_user_turn_message x = false ∧ call_ids x = [] ∧ is_result_message x = true ∧
  result_ids x = orphan_ids ans m.
Proof.
  unfold inserted. case_bool_decide as H; [set_solver|]. intros ->%list_elem_of_singleton. split_and!; try done.
  - apply results_not_turn, interrupted_results.
  - unfold is_result_message; simpl. rewrite interrupted_results.
    rewrite bool_decide_false; [done|]. by intros ?%nil_length_inv%map_eq_nil.
  - apply interrupted_result_ids.
Qed.

Lemma repair_elem ans messages x :
  x ∈ repair ans messages ↔ x ∈ messages ∨ ∃ m, m ∈ messages ∧ x ∈ inserted ans m.
Proof.
  induction messages as [|m l IH]; [set_solver|]. rewrite repair_cons, !elem_of_cons, elem_of_app, IH. set_solver.
Qed.

Lemma repair_turns ans messages : user_turns (repair ans messages) = user_turns messages.
Proof.
  induction messages as [|m l IH]; [done|].
  rewrite repair_cons, !user_turns_cons, user_turns_app, IH. f_equal.
  destruct (user_turns (inserted ans m)) as [|x k] eqn:E; [done|].
  assert (x ∈ user_turns (inserted ans m)) as Hx by (rewrite E; by left).
  unfold user_turns in Hx. apply list_elem_of_In, filter_In in Hx as [Hx%list_elem_of_In ?].
  apply inserted_user in Hx as [? _]. congruence.
Qed.

Lemma repair_sublist ans messages : messages `sublist_of` repair ans messages.
Proof.
  induction messages as [|m l IH]; [done|]. rewrite repair_cons. apply sublist_skip.
  by apply sublist_inserts_l.
Qed.

(** After the repair every call is answered. *)
Lemma repair_answers messages m id :
  m ∈ repair (answered messages) messages → id ∈ call_ids m →
  id ∈ answered (repair (answered messages) messages).
Proof.
  intros Hm Hid. rewrite elem_of_answered.
  apply repair_elem in Hm as [Hm|(m'&_&Hm)]; [|apply inserted_user in Hm as (_&Hm&_); rewrite Hm in Hid; set_solver].
  destruct (decide (id ∈ answered messages)) as [(m'&Hm'&Hr)%elem_of_answered|Hno].
  - exists m'. split; [|done]. apply repair_elem. by left.
  - assert (Hne : orphan_ids (answered messages) m ≠ []) by (rewrite orphan_ids_nil; auto).
    set (x := mkMessage RoleUser (map interrupted_result (orphan_ids (answered messages) m))).
    assert (Hx : x ∈ inserted (answered messages) m)
      by (unfold inserted; rewrite bool_decide_false by done; by left).
    exists x. split; [apply repair_elem; eauto|].
    apply inserted_user in Hx as (_&_&_&->). by apply elem_of_orphan_ids.
Qed.

Lemma close_cases messages :
  (close_orphan_tool_calls messages = messages ∧
   ∀ m id, m ∈ messages → id ∈ call_ids m → id ∈ answered messages) ∨
  close_orphan_tool_calls messages = repair (answered messages) messages.
Proof.
  unfold close_orphan_tool_calls. case_match eqn:E; [left|by right]. split; [done|].
  intros m id Hm. rewrite forallb_forall in E. specialize (E m (proj1 (list_elem_of_In _ _) Hm)).
  apply bool_decide_eq_true in E. revert id. by apply orphan_ids_nil.
Qed.

Lemma close_answers messages m id :
  m ∈ close_orphan_tool_calls messages → id ∈ call_ids m →
  id ∈ answered (close_orphan_tool_calls messages).
Proof.
  destruct (close_cases messages) as [[-> H]| ->]; [by apply H|]. apply repair_answers.
Qed.

Lemma close_fix messages :
  (∀ m id, m ∈ messages → id ∈ call_ids m → id ∈ answered messages) →
  close_orphan_tool_calls messages = messages.
Proof.
  intros H. unfold close_orphan_tool_calls. case_match eqn:E; [done|]. exfalso.
  enough (forallb (λ m, bool_decide (orphan_ids (answered messages) m = [])) messages = true) by congruence.
  apply forallb_forall. intros m Hm%list_elem_of_In. apply bool_decide_eq_true, orphan_ids_nil. eauto.
Qed.

Lemma close_turns messages : user_turns (close_orphan_tool_calls messages) = user_turns messages.
Proof. destruct (close_cases messages) as [[-> _]| ->]; [done|]. apply repair_turns. Qed.

Lemma close_sublist messages : messages `sublist_of` close_orphan_tool_calls messages.
Proof. destruct (close_cases messages) as [[-> _]| ->]; [done|]. apply repair_sublist. Qed.

Lemma has_orphan_false messages :
  calls_by_assistant messages →
  has_orphan_tool_calls messages = false ↔
  ∀ m id, m ∈ messages → id ∈ call_ids m → id ∈ answered messages.
Proof.
  intros Hc. unfold calls_by_assistant in Hc. rewrite Forall_forall in Hc.
  assert (Hids : ∀ m, m ∈ messages → omap block_call_id (msg_content m) = call_ids m).
  { intros m Hm. unfold call_ids. case_bool_decide; [done|].
    apply Hc; [done|]. by destruct (msg_role m). }
  assert (Hopen : ∀ m, m ∈ messages →
    existsb (λ b, match block_call_id b with
                  | Some id => negb (bool_decide (id ∈ answered messages)) | None => false end) (msg_content m) = false
    ↔ ∀ id, id ∈ call_ids m → id ∈ answered messages).
  { intros m Hm. rewrite existsb_not, <- Hids by done. split.
    - intros H id (b&Hb&Hid)%list_elem_of_omap. specialize (H b Hb). rewrite Hid in H.
      by apply negb_false_iff, bool_decide_eq_true in H.
    - intros H b Hb. destruct (block_call_id b) as [id|] eqn:E; [|done].
      apply negb_false_iff, bool_decide_eq_true, H, list_elem_of_omap. eauto. }
  unfold has_orphan_tool_calls.
  destruct (existsb (λ m, existsb (λ b, is_some (block_call_id b)) _) messages) eqn:Hany; simpl.
  - rewrite existsb_not. split; [intros H m id Hm; by apply Hopen, H|]. intros H m Hm. apply Hopen; eauto.
  - split; [|done]. intros _ m id Hm Hid. exfalso. rewrite existsb_not in Hany.
    specialize (Hany m Hm). rewrite existsb_not in Hany. rewrite <- Hids in Hid by done.
    apply list_elem_of_omap in Hid as (b&Hb&Hid). specialize (Hany b Hb). by rewrite Hid in Hany.
Qed.

(** A turn that was killed leaves its last calls wholly open; older ones are
    answered by the message after them. *)
Fixpoint open_or_answered (ans : list string) (messages : list Message) : bool :=
  match messages with
  | [] => true
  | m :: rest =>
      (match rest with next :: _ => answers m next | [] => false end
       || forallb (λ id, negb (bool_decide (id ∈ ans))) (call_ids m))
      && open_or_answered ans rest
  end.

Lemma answers_elem m next id : answers m next = true → id ∈ call_ids m → id ∈ result_ids next.
Proof.
  unfold answers. intros [_ H]%andb_true_iff Hid. rewrite forallb_forall in H.
  by eapply bool_decide_eq_true, H, list_elem_of_In.
Qed.

Lemma repair_paired ans messages :
  (∀ id, id ∈ answered messages → id ∈ ans) →
  open_or_answered ans messages = true → paired (repair ans messages) = true.
Proof.
  induction messages as [|m rest IH]; intros Hans H; [done|].
  cbn [open_or_answered] in H. apply andb_true_iff in H as [Hm Hrest].
  assert (Hans' : ∀ id, id ∈ answered rest → id ∈ ans).
  { intros id Hid. apply Hans. change (m :: rest) with ([m] ++ rest). rewrite answered_app. set_solver. }
  specialize (IH Hans' Hrest). rewrite repair_cons.
  apply orb_true_iff in Hm as [Hm|Hopen].
  - destruct rest as [|next rest]; [done|].
    assert (Hnil : orphan_ids ans m = []).
    { apply orphan_ids_nil. intros id Hid. apply Hans'. eapply answers_elem in Hid; [|done].
      apply elem_of_answered. exists next. split; [by left|done]. }
    unfold inserted. rewrite bool_decide_true by done. rewrite repair_cons in *. simpl in *.
    by rewrite Hm, orb_true_r.
  - assert (Hall : ∀ id, id ∈ call_ids m → id ∈ orphan_ids ans m).
    { intros id Hid. apply elem_of_orphan_ids. split; [done|]. rewrite forallb_forall in Hopen.
      by eapply bool_decide_eq_false_1, negb_true_iff, Hopen, list_elem_of_In. }
    unfold inserted. case_bool_decide as Hnil.
    + simpl. rewrite IH, andb_true_r. apply orb_true_iff. left. apply bool_decide_eq_true.
      destruct (call_ids m) as [|id l] eqn:E; [done|]. specialize (Hall id ltac:(by left)).
      rewrite Hnil in Hall. set_solver.
    + set (x := mkMessage _ _). assert (Hx : x ∈ inserted ans m)
        by (unfold inserted; rewrite bool_decide_false by done; by left).
      apply inserted_user in Hx as (_&Hc&Hr&Hids). cbn [paired app].
      rewrite IH, (bool_decide_true (call_ids x = [])) by done. rewrite !andb_true_r.
      apply orb_true_iff. right. unfold answers. rewrite Hr. simpl. apply forallb_forall.
      intros id Hid%list_elem_of_In. apply bool_decide_eq_true. rewrite Hids. auto.
Qed.

Lemma repair_nothing ans messages :
  (∀ m id, m ∈ messages → id ∈ call_ids m → id ∈ ans) → repair ans messages = messages.
Proof.
  induction messages as [|m l IH]; intros Hall; [done|]. rewrite repair_cons. unfold inserted.
  rewrite bool_decide_true by (apply orphan_ids_nil; intros; eapply Hall; [by left|done]).
  simpl. f_equal. apply IH. intros m' id ?. apply Hall. by right.
Qed.

Lemma close_repair messages : close_orphan_tool_calls messages = repair (answered messages) messages.
Proof. destruct (close_cases messages) as [[-> Hall]| ->]; [|done]. symmetry. by apply repair_nothing. Qed.

Lemma close_paired messages :
  open_or_answered (answered messages) messages = true → paired (close_orphan_tool_calls messages) = true.
Proof. intros H. rewrite close_repair. by apply repair_paired. Qed.

Lemma repair_app ans l k : repair ans (l ++ k) = repair ans l ++ repair ans k.
Proof.
  induction l as [|m l IH]; [done|]. cbn [app]. rewrite !repair_cons, IH. cbn [app]. by rewrite <- app_assoc.
Qed.

Lemma paired_answered messages m id :
  paired messages = true → m ∈ messages → id ∈ call_ids m → id ∈ answered messages.
Proof.
  intros Hp (l&k&->)%list_elem_of_split Hid. apply paired_suffix in Hp. simpl in Hp.
  apply andb_true_iff in Hp as [[Hnil%bool_decide_eq_true|Ha]%orb_true_iff _];
    [rewrite Hnil in Hid; set_solver|]. destruct k as [|next k]; [done|].
  rewrite !answered_app. apply elem_of_app. right. apply elem_of_answered.
  exists next. split; [set_solver|]. by eapply answers_elem.
Qed.

(** A response appended to a valid history: its calls are open, nothing else is. *)
Lemma open_response ans l m :
  paired l = true → (∀ id, id ∈ call_ids m → id ∉ ans) → open_or_answered ans (l ++ [m]) = true.
Proof.
  intros Hp Hm. induction l as [|x l IH]; simpl.
  - rewrite andb_true_r. apply forallb_forall. intros id Hid%list_elem_of_In.
    apply negb_true_iff, bool_decide_eq_false. auto.
  - simpl in Hp. apply andb_true_iff in Hp as [Hx Hp]. rewrite IH, andb_true_r by done.
    apply orb_true_iff. apply orb_true_iff in Hx as [Hnil%bool_decide_eq_true|Hx];
      [right; by rewrite Hnil|left]. by destruct l.
Qed.

(** *** The cut *)

Lemma elem_of_turn_starts_from k messages i :
  i ∈ turn_starts_from k messages ↔ k ≤ i ∧ ∃ m, messages !! (i - k) = Some m ∧ is_turn_start m = true.
Proof.
  revert k. induction messages as [|m l IH]; intros k; simpl; [set_solver|].
  assert (Hs : i ∈ turn_starts_from (S k) l ↔
     k < i ∧ ∃ m', (m :: l) !! (i - k) = Some m' ∧ is_turn_start m' = true).
  { rewrite IH. split; intros [Hi (m'&Hm'&?)]; (split; [lia|]); exists m'; (split; [|done]).
    - replace (i - k) with (S (i - S k)) by lia. done.
    - replace (i - k) with (S (i - S k)) in Hm' by lia. done. }
  destruct (is_turn_start m) eqn:E; rewrite ?elem_of_cons, Hs; clear Hs.
  - split.
    + intros [->|[Hi H]]; [|by split; [lia|]]. split; [lia|]. exists m. by rewrite Nat.sub_diag.
    + intros [Hi H]. destruct (decide (i = k)) as [->|]; [by left|]. right. split; [lia|done].
  - split; [intros [Hi H]; by split; [lia|]|]. intros [Hi (m'&Hm'&Ht)]. split; [|by eauto].
    destruct (decide (i = k)) as [->|]; [|lia]. rewrite Nat.sub_diag in Hm'. simpl in Hm'. congruence.
Qed.

Lemma elem_of_turn_starts messages i :
  i ∈ turn_starts messages ↔ ∃ m, messages !! i = Some m ∧ is_turn_start m = true.
Proof.
  unfold turn_starts. rewrite elem_of_turn_starts_from, Nat.sub_0_r.
  split; [by intros [_ ?]|intros ?; by split; [lia|]].
Qed.

Lemma turn_starts_from_sorted k messages : StronglySorted Nat.lt (turn_starts_from k messages).
Proof.
  revert k. induction messages as [|m l IH]; intros k; simpl; [constructor|].
  destruct (is_turn_start m); [|apply IH]. constructor; [apply IH|]. apply Forall_forall.
  intros i [? _]%elem_of_turn_starts_from. lia.
Qed.

Lemma sorted_reverse (l : list nat) :
  StronglySorted Nat.lt l → StronglySorted (λ i j, j < i) (reverse l).
Proof.
  induction 1 as [|i l Hs IH Hi]; [constructor|]. rewrite reverse_cons.
  apply StronglySorted_snoc; [done|]. rewrite Forall_forall in *.
  intros j Hj. apply Hi. by apply elem_of_reverse.
Qed.

Section cut.
Context (json_text : Json → string).
Notation estimate := (estimate_tokens json_text).

(** The walk stops at the newest start whose tail reaches the target, or at the
    oldest one. *)
Lemma extend_tail_spec messages target cut older :
  StronglySorted (λ i j, j < i) (cut :: older) →
  let r := extend_tail json_text messages target cut older in
  r ∈ cut :: older ∧
  (∀ s, s ∈ cut :: older → r < s → estimate (drop s messages) < target) ∧
  (target ≤ estimate (drop r messages) ∨ ∀ s, s ∈ cut :: older → r ≤ s).
Proof.
  revert cut. induction older as [|start older IH]; intros cut Hs; cbn [extend_tail].
  - split_and!; [by left| |right]; intros s ->%list_elem_of_singleton; [lia|done].
  - apply StronglySorted_inv in Hs as [Hs Hcut]. rewrite Forall_forall in Hcut.
    destruct (Nat.leb_spec target (estimate (drop cut messages))) as [Hle|Hlt].
    + split_and!; [by left| |by left]. intros s [->|Hin]%elem_of_cons ?; [lia|]. specialize (Hcut s Hin). simpl in Hcut. lia.
    + destruct (IH start Hs) as (Hin&Hnew&Hlast). set (r := extend_tail _ _ _ _ _) in *.
      specialize (Hcut r Hin) as Hr. simpl in Hr. split_and!; [by right| |].
      * intros s [->|Hsin]%elem_of_cons Hrs; [done|]. by apply Hnew.
      * destruct Hlast as [?|Hlast]; [by left|]. right. intros s [->|Hsin]%elem_of_cons; [lia|]. by apply Hlast.
Qed.

(** The cut that [choose_cut] computes before it tests that it is positive. *)
Lemma choose_cut_spec_gen messages target :
  match choose_cut json_text messages target with
  | Some cut =>
      0 < cut ∧ 2 ≤ length (turn_starts messages) ∧ cut ∈ turn_starts messages ∧
      (∀ s, s ∈ turn_starts messages → cut < s → estimate (drop s messages) < target) ∧
      (target ≤ estimate (drop cut messages) ∨ ∀ s, s ∈ turn_starts messages → cut ≤ s)
  | None =>
      length (turn_starts messages) < 2 ∨
      ∀ s, s ∈ turn_starts messages → 0 < s → estimate (drop s messages) < target
  end.
Proof.
  unfold choose_cut. rewrite <- (length_reverse (turn_starts messages)).
  assert (Hs := sorted_reverse _ (turn_starts_from_sorted 0 messages)). fold (turn_starts messages) in Hs.
  assert (He : ∀ s, s ∈ turn_starts messages ↔ s ∈ reverse (turn_starts messages))
    by (intros; by rewrite elem_of_reverse).
  revert Hs He. destruct (reverse (turn_starts messages)) as [|newest older]; intros Hs He; [left; simpl; lia|].
  case_bool_decide as Hold; [subst; left; simpl; lia|].
  destruct (extend_tail_spec messages target newest older Hs) as (Hin&Hnew&Hlast).
  set (r := extend_tail _ _ _ _ _) in *.
  destruct (Nat.ltb_spec 0 r).
  - split_and!; try done; [|by apply He|by intros s ?%He; apply Hnew|
      by destruct Hlast as [?|Hlast]; [left|right; intros s ?%He; apply Hlast]].
    destruct older; simpl; [done|lia].
  - right. intros s ?%He ?. apply Hnew; [done|lia].
Qed.
End cut.

Lemma assistant_not_turn m : msg_role m = RoleAssistant → is_user_turn_message m = false.
Proof. intros H. unfold is_user_turn_message. by rewrite H. Qed.

(** Ending a valid history with the note as the assistant's. *)
Lemma push_note note l m :
  paired l = true → msg_role m = RoleAssistant → call_ids m = [] →
  last (msg_content m) = Some (CbText note) →
  paired (l ++ [m]) = true ∧ user_turns (l ++ [m]) = user_turns l ∧
  concat (map call_ids (l ++ [m])) = concat (map call_ids l) ∧
  (note = "" ∨ ∃ m', last (l ++ [m]) = Some m' ∧ msg_role m' = RoleAssistant ∧
                     last (msg_content m') = Some (CbText note)).
Proof.
  intros Hl Hm Hc Hn. rewrite paired_app, user_turns_app, map_app, concat_app, last_snoc, user_turns_cons by done.
  simpl. rewrite Hc, assistant_not_turn, !app_nil_r by done. eauto 10.
Qed.

(** What the repair of a cancelled suffix guarantees. *)
Lemma materialize_spec (messages : list Message) (note : string) :
  let out := materialize_cancelled_suffix messages note in
  paired out = true ∧
  user_turns out = user_turns messages ∧
  concat (map call_ids out) = concat (map call_ids messages) ∧
  (note = "" ∨ ∃ m, last out = Some m ∧ msg_role m = RoleAssistant ∧ last (msg_content m) = Some (CbText note)).
Proof.
  destruct (pair_results_spec note _ messages (le_n _)) as (Hp&Hu&Hc&Hl).
  unfold materialize_cancelled_suffix. set (out := pair_results note messages) in *.
  case_bool_decide as Hnote; [by split_and!; [..|left]|].
  rewrite <- Hu, <- Hc. destruct (last out) as [m|] eqn:Hlast; [|by apply push_note].
  case_bool_decide as Hm; [|by apply push_note]. specialize (Hl m eq_refl Hm).
  apply last_Some in Hlast as [l Hout]. rewrite Hout in *. clear Hu Hc.
  rewrite length_app, Nat.add_sub, take_app_length.
  assert (Hlp : paired l = true) by (eapply paired_before; [done|by apply assistant_not_result]).
  assert (Hu : user_turns (l ++ [m]) = user_turns l)
    by (rewrite user_turns_app, user_turns_cons, assistant_not_turn by done; apply app_nil_r).
  assert (Hc : concat (map call_ids (l ++ [m])) = concat (map call_ids l))
    by (rewrite map_app, concat_app; simpl; rewrite Hl; apply app_nil_r).
  rewrite Hu, Hc. apply push_note; [done..| |by simpl; rewrite last_snoc].
  unfold call_ids in *. simpl in *. rewrite bool_decide_true in Hl by done. by rewrite omap_app, Hl.
Qed.

(** ** Theorems *)

(** the history kept for a cancelled turn is one the providers accept, whatever
    the turn had reached: every assistant message with tool calls is followed by a
    message of results that answers all of them.  The repair invents no call and no
    user turn, loses none, and (unless the note is configured empty) the history
    ends with the assistant, so the next user message keeps the alternation. *)
Theorem cancelled_history_is_valid (messages : list Message) (note : string) :
  let out := materialize_cancelled_suffix messages note in
  paired out = true ∧
  user_turns out = user_turns messages ∧
  concat (map call_ids out) = concat (map call_ids messages) ∧
  (note = "" ∨ ∃ m, last out = Some m ∧ msg_role m = RoleAssistant ∧ last (msg_content m) = Some (CbText note)).
Proof. apply materialize_spec. Qed.

(** repairing a loaded or live history answers every tool call that nothing
    answers, adds only messages of results and changes nothing else: the given
    messages stay in order, the user turns are the same, a second repair does
    nothing, and a history without open calls is returned as it is.  When a killed
    turn left its calls wholly open the result is one the providers accept. *)
Theorem closed_history_is_valid (messages : list Message)
    (Hcalls : calls_by_assistant messages) :
  let out := close_orphan_tool_calls messages in
  has_orphan_tool_calls out = false ∧
  messages `sublist_of` out ∧
  user_turns out = user_turns messages ∧
  close_orphan_tool_calls out = out ∧
  (has_orphan_tool_calls messages = false → out = messages) ∧
  (open_or_answered (answered messages) messages = true → paired out = true).
Proof.
  set (out := close_orphan_tool_calls messages). simpl.
  assert (Hout : calls_by_assistant out).
  { unfold out. destruct (close_cases messages) as [[-> _]| ->]; [done|].
    unfold calls_by_assistant in *. rewrite Forall_forall in *. intros x [Hx|(m&_&Hx)]%repair_elem; [auto|].
    intros _. unfold inserted in Hx. case_bool_decide; [set_solver|].
    apply list_elem_of_singleton in Hx as ->. simpl.
    generalize (orphan_ids (answered messages) m) as ids. by induction ids. }
  split_and!.
  - apply has_orphan_false; [done|]. apply close_answers.
  - apply close_sublist.
  - apply close_turns.
  - apply close_fix, close_answers.
  - intros H. apply close_fix. by apply has_orphan_false.
  - apply close_paired.
Qed.

(** A turn killed while its second call was being answered, one with no answer and a
    complete one. *)
Definition killed_history : list Message :=
  [message_user "list the files";
   mkMessage RoleAssistant [CbText "reading"; CbToolCall "a" "ls" JNull; CbToolCall "b" "cat" JNull];
   mkMessage RoleUser [CbToolResult "a" "x.rs" false; CbToolResult "b" "fn x" false];
   mkMessage RoleAssistant [CbToolCall "c" "rm" JNull]].

Lemma closed_history_is_valid_witness :
  paired killed_history = false ∧ paired (close_orphan_tool_calls killed_history) = true ∧
  length (close_orphan_tool_calls killed_history) = 5.
Proof.
  split; [vm_compute; reflexivity|]. split; [|vm_compute; reflexivity].
  apply (closed_history_is_valid killed_history).
  - repeat constructor; done.
  - vm_compute. reflexivity.
Defined.

(** the eviction cut falls on the start of a turn and never on the first message;
    it is the newest start whose kept tail reaches the target, or the oldest start
    when no tail does; nothing is evicted exactly when there are fewer than two
    turns or every later tail is under the target.  Because the cut is at a turn
    start, no tool call is separated from its results: the evicted part, the kept
    part and the compacted history are again acceptable to the providers. *)
Theorem choose_cut_spec (json_text : Json → string) (messages : list Message) (target : nat)
    (Hpaired : paired messages = true) :
  match choose_cut json_text messages target with
  | Some cut =>
      0 < cut ∧ cut ∈ turn_starts messages ∧
      (∀ s, s ∈ turn_starts messages → cut < s → estimate_tokens json_text (drop s messages) < target) ∧
      (target ≤ estimate_tokens json_text (drop cut messages) ∨ ∀ s, s ∈ turn_starts messages → cut ≤ s) ∧
      paired (take cut messages) = true ∧ paired (drop cut messages) = true ∧
      ∀ replacement, call_ids replacement = [] → paired (replacement :: drop cut messages) = true
  | None =>
      length (turn_starts messages) < 2 ∨
      ∀ s, s ∈ turn_starts messages → 0 < s → estimate_tokens json_text (drop s messages) < target
  end.
Proof.
  assert (H := choose_cut_spec_gen json_text messages target).
  destruct (choose_cut json_text messages target) as [cut|]; [|done].
  destruct H as (Hpos&_&Hin&Hnew&Hlast).
  destruct (proj1 (elem_of_turn_starts _ _) Hin) as (m&Hm&Hstart).
  assert (Hsplit := take_drop_middle _ _ _ Hm). rewrite <- Hsplit in Hpaired.
  apply paired_split in Hpaired as [Ht Hd]; [|by apply turn_start_not_result].
  rewrite <- (drop_S _ _ _ Hm) in Hd. split_and!; try done.
  intros replacement Hr. simpl. by rewrite bool_decide_true, Hd.
Qed.

Lemma choose_cut_spec_witness :
  let history := [message_user "first question"; message_assistant "first answer";
                  message_user "second question"; message_assistant "second answer";
                  message_user "third question"; message_assistant "third answer"] in
  choose_cut (λ _, "") history 10 = Some 2 ∧ paired (drop 2 history) = true ∧
  estimate_tokens (λ _, "") (drop 4 history) < 10.
Proof.
  intros history. split; [vm_compute; reflexivity|].
  pose proof (choose_cut_spec (λ _, "") history 10 ltac:(vm_compute; reflexivity)) as H.
  change (choose_cut (λ _, "") history 10) with (Some 2) in H. cbv iota in H.
  destruct H as (_&_&Hnew&_&_&Hd&_). split; [exact Hd|].
  apply Hnew; [|lia]. apply elem_of_turn_starts. exists (message_user "third question"). by split.
Defined.
