(* ===== verification/Persistence.v ===== *)
(** * Session persistence

    Models [SessionPersistence] and [SessionCore::persist_current] of
    [src/src/session_core.rs]: requests to save the session are numbered, one
    gate owner at a time captures the current state and writes it through the
    session's writer, later requests are coalesced into the capture, failed writes
    are retried, and the health and the durability status say whether everything
    that was requested is stored.

    Calls of [persist_current] run concurrently and may be dropped at any await;
    the blocking write then continues on its own.  So the system is a step machine:
    each step of a call is at most one access to shared state (or a few that only
    the gate owner performs), [sys_step] interleaves calls, abandoned writes,
    changes of the session, deletion, and other processes using the store.

    A turn writes as well: it holds the session's lock, so that no capture is taken
    meanwhile, and at every authoritative boundary it saves a recovery projection of
    the turn so far ([configure_turn_checkpoint]), which marks the session dirty, mints
    generations and saves through the same [SessionPersistence] outside the gate.

    [y_hist], [y_regs], [y_caps] and [y_asked] record the history for the statements:
    the states the session went through, the state at each request, the captures, and
    the messages turns asked to checkpoint. *)

From stdpp Require Import base numbers list strings gmap sorting.
From S2P Require Import Prelude RustStr Protocol Router Messages History SessionCodec Store.

(** ** Data *)

Inductive PersistenceHealth := HClean | HDirty | HDegraded (retryable : bool) | HSuperseded.

#[export] Instance PersistenceHealth_eq_dec : EqDecision PersistenceHealth.
Proof. solve_decision. Defined.

Record PersistenceRetryPolicy := mkRetry {
  rp_attempts : nat;
  rp_initial_backoff : Z;
  rp_max_backoff : Z;
}.

(** [PersistenceRetryPolicy::new]; durations are milliseconds. *)
Definition retry_policy_new (attempts : nat) (initial_backoff max_backoff : Z)
    : PersistenceRetryPolicy :=
  mkRetry (attempts `max` 1) initial_backoff (Z.max max_backoff initial_backoff).

(** The state of the session a capture copies. *)
Record Content := mkContent {
  ct_model : string;
  ct_thinking : string;
  ct_messages : list Message;
  ct_cwd : string;
  ct_client_user_message_ids : list string;
  ct_assistant_outcomes : list AssistantOutcome;
}.

(** [cp_version] counts the states of the session up to the captured one. *)
Record PersistenceCapture := mkCapture {
  cp_generation : Z;
  cp_through_seq : Z;
  cp_content : Content;
  cp_version : nat;
}.

(** What [configure_turn_checkpoint] samples, under the session's lock. *)
Record TurnConfig := mkTurnConfig {
  tu_version : nat;
  tu_base : Content;
  tu_client_id : option string;
  tu_retry : bool;
}.

Definition align_client_user_message_ids (ids : list string) (user_turn_count : nat) : list string :=
  if user_turn_count <? length ids then drop (length ids - user_turn_count) ids
  else replicate (user_turn_count - length ids) "" ++ ids.

Definition turn_count (messages : list Message) : nat := length (user_turns messages).

(** The recovery projection of a turn: the turn is recorded as aborted. *)
Definition checkpoint_content (t : TurnConfig) (messages : list Message) : Content :=
  let base := tu_base t in
  let ids := align_client_user_message_ids (ct_client_user_message_ids base) (turn_count (ct_messages base)) in
  let ids := if tu_retry t then ids else ids ++ [default "" (tu_client_id t)] in
  let outcomes := ct_assistant_outcomes base in
  let outcomes := (if tu_retry t then take (length outcomes - 1) outcomes else outcomes) ++ [OutAborted] in
  let turns := turn_count messages in
  mkContent (ct_model base) (ct_thinking base) messages (ct_cwd base)
    (align_client_user_message_ids ids turns) (drop (length outcomes - turns) outcomes).

Inductive PersistenceSaveOutcome :=
  | SoSaved
  | SoSkippedDeleted
  | SoSuperseded
  | SoSkippedStale (stored_generation : Z).

(** What is queued for the session catalog. *)
Inductive CatalogNote := NoteSaved (summary : SessionSummary) | NoteDeleted (session_id : string).

(** [SessionPersistenceState], and the queue of the catalog writer. *)
Record SessionPersistenceState := mkPersistState {
  pp_deleted : bool;
  pp_superseded : bool;
  pp_last_saved_generation : option Z;
  pp_health : PersistenceHealth;
  pp_catalog : list CatalogNote;
}.

Definition persist_default : SessionPersistenceState := mkPersistState false false None HClean [].

Definition is_retryable_persistence_error (kind : IoKind) : bool :=
  match kind with KInterrupted | KWouldBlock | KTimedOut => true | _ => false end.

(** ** Operations of [SessionPersistence] *)

Definition set_health (p : SessionPersistenceState) (h : PersistenceHealth) : SessionPersistenceState :=
  mkPersistState (pp_deleted p) (pp_superseded p) (pp_last_saved_generation p) h (pp_catalog p).

Definition mark_dirty (p : SessionPersistenceState) : SessionPersistenceState :=
  if negb (pp_deleted p) && negb (pp_superseded p) then set_health p HDirty else p.

Definition mark_clean_if_fully_handled (p : SessionPersistenceState) (handled_request requested : Z)
    : SessionPersistenceState * bool :=
  if pp_deleted p || pp_superseded p then (p, true)
  else if (requested <=? handled_request)%Z then (set_health p HClean, true)
  else (set_health p HDirty, false).

Definition mark_degraded (p : SessionPersistenceState) (retryable : bool) : SessionPersistenceState :=
  if negb (pp_deleted p) && negb (pp_superseded p) then set_health p (HDegraded retryable) else p.

Definition health (p : SessionPersistenceState) : PersistenceHealth :=
  if pp_deleted p then HClean else if pp_superseded p then HSuperseded else pp_health p.

Section persistence.
Context `{JsonText}.
(** The session's writer, the preview limit of the catalog writer if there is one,
    and the retry policy. *)
Context (writer : SessionWriter) (catalog : option nat) (policy : PersistenceRetryPolicy).

(** The record a capture is stored as. *)
Definition content_record (generation : Z) (content : Content) : PersistedSession :=
  mkPersisted SESSION_PERSIST_VERSION generation (sw_session_id writer)
    (ct_model content) (Some (ct_thinking content)) (Some (ct_cwd content))
    (ct_client_user_message_ids content) (ct_assistant_outcomes content) (ct_messages content).

Definition record_of (c : PersistenceCapture) : PersistedSession := content_record (cp_generation c) (cp_content c).

(** [usize::MAX], the preview limit without a catalog writer, exceeds any text. *)
Definition max_preview (c : PersistenceCapture) : nat :=
  match catalog with
  | Some n => n
  | None => foldr Nat.max 1 (map (λ m, foldr Nat.max 0 (map (λ b,
              match b with CbText t => String.length t | _ => 0 end) (msg_content m)))
              (ct_messages (cp_content c)))
  end.

(** The write of [save], once the capture is not known to be stale. *)
Definition save_write (p : SessionPersistenceState) (s : SessionStore) (c : PersistenceCapture)
    (fault : option SessionStoreError)
    : SessionPersistenceState * SessionStore * result PersistenceSaveOutcome IoKind :=
  let ct := cp_content c in
  match save_acp_generation_result s writer (cp_generation c) (ct_model ct) (ct_thinking ct)
          (ct_messages ct) (ct_cwd ct) (ct_client_user_message_ids ct) (ct_assistant_outcomes ct)
          (max_preview c) fault with
  | (s', Err kind) => (p, s', Err kind)
  | (s', Ok (WStale stored)) =>
      (mkPersistState (pp_deleted p) (pp_superseded p) (Some stored) (pp_health p) (pp_catalog p),
       s', Ok (SoSkippedStale stored))
  | (s', Ok WSuperseded) =>
      (mkPersistState (pp_deleted p) true (pp_last_saved_generation p) (pp_health p) (pp_catalog p),
       s', Ok SoSuperseded)
  | (s', Ok (WSaved summary)) =>
      (mkPersistState (pp_deleted p) (pp_superseded p) (Some (cp_generation c)) (pp_health p)
         (if is_some catalog then pp_catalog p ++ [NoteSaved summary] else pp_catalog p),
       s', Ok SoSaved)
  end.

Definition save (p : SessionPersistenceState) (s : SessionStore) (c : PersistenceCapture)
    (fault : option SessionStoreError)
    : SessionPersistenceState * SessionStore * result PersistenceSaveOutcome IoKind :=
  if pp_deleted p then (p, s, Ok SoSkippedDeleted)
  else if pp_superseded p then (p, s, Ok SoSuperseded)
  else
    match pp_last_saved_generation p with
    | Some last => if (cp_generation c <? last)%Z then (p, s, Ok (SoSkippedStale last))
                   else save_write p s c fault
    | None => save_write p s c fault
    end.

Definition persist_delete (p : SessionPersistenceState) (s : SessionStore)
    (fault : option SessionStoreError)
    : SessionPersistenceState * SessionStore * result bool IoKind :=
  if pp_deleted p || pp_superseded p then (p, s, Ok false)
  else
    let deleted note :=
      mkPersistState true (pp_superseded p) (pp_last_saved_generation p) (pp_health p)
        (pp_catalog p ++ note) in
    match delete_writer s writer fault with
    | (s', Ok (Some d)) =>
        (deleted (if is_some catalog then [NoteDeleted (sw_session_id writer)] else []), s', Ok d)
    | (s', Ok None) => (deleted [], s', Ok false)
    | (s', Err kind) => (p, s', Err kind)
    end.

(** ** [persist_current] *)

(** Where a call is. *)
Inductive Pc :=
  | PcRegister                       (** before [persistence_requested.fetch_add] *)
  | PcAnnounce (request : Z)         (** before publishing [Unsaved] *)
  | PcGate (request : Z)             (** waiting for the gate *)
  | PcOwned (request : Z)            (** has the gate *)
  | PcSaving                         (** before publishing [Saving] *)
  | PcHandled                        (** before reading the newest request *)
  | PcCapture (handled : Z) (attempts : nat) (delay : Z)
  | PcLock (handled : Z) (attempts : nat) (delay : Z) (through_seq : Z)
                                     (** waiting for the session's lock *)
  | PcSave (handled : Z) (attempts : nat) (delay : Z) (capture : PersistenceCapture)
  | PcOutcome (handled : Z) (attempts : nat) (delay : Z)
      (outcome : result PersistenceSaveOutcome IoKind)
  | PcMarkClean (handled : Z)
  | PcPublishCompleted               (** before [publish_completed_durability] *)
  | PcPublish (status : DurabilityStatus)
  | PcDone.

(** Where the checkpoint of a turn is. *)
Inductive CpPc :=
  | CpIdle
  | CpTry (attempt : nat) (delay : Z) (content : Content)
  | CpSave (attempt : nat) (delay : Z) (capture : PersistenceCapture)
  | CpOutcome (attempt : nat) (delay : Z) (content : Content)
      (outcome : result PersistenceSaveOutcome IoKind)
  | CpPublish (status : DurabilityStatus) (next : CpPc).

Record Sys := mkSys {
  y_hist : list Content;
  y_regs : list nat;
  y_caps : list PersistenceCapture;
  y_requested : Z;
  y_completed : Z;
  y_generation : Z;
  y_persist : SessionPersistenceState;
  y_store : SessionStore;
  y_router : SessionEventRouter;
  y_durability : Z;
  y_owner : option nat;
  y_tasks : gmap nat Pc;
  y_jobs : list PersistenceCapture;
  y_turn : option (TurnConfig * CpPc);
  y_asked : list (TurnConfig * list Message);
}.

Definition set_pc (y : Sys) (i : nat) (pc : Pc) : Sys :=
  mkSys (y_hist y) (y_regs y) (y_caps y) (y_requested y) (y_completed y) (y_generation y)
    (y_persist y) (y_store y) (y_router y) (y_durability y) (y_owner y) (<[i := pc]> (y_tasks y))
    (y_jobs y) (y_turn y) (y_asked y).

Definition set_owner (y : Sys) (o : option nat) : Sys :=
  mkSys (y_hist y) (y_regs y) (y_caps y) (y_requested y) (y_completed y) (y_generation y)
    (y_persist y) (y_store y) (y_router y) (y_durability y) o (y_tasks y) (y_jobs y) (y_turn y) (y_asked y).

Definition set_persist (y : Sys) (p : SessionPersistenceState) (s : SessionStore) : Sys :=
  mkSys (y_hist y) (y_regs y) (y_caps y) (y_requested y) (y_completed y) (y_generation y) p s
    (y_router y) (y_durability y) (y_owner y) (y_tasks y) (y_jobs y) (y_turn y) (y_asked y).

Definition set_completed (y : Sys) (completed : Z) : Sys :=
  mkSys (y_hist y) (y_regs y) (y_caps y) (y_requested y) completed (y_generation y) (y_persist y)
    (y_store y) (y_router y) (y_durability y) (y_owner y) (y_tasks y) (y_jobs y) (y_turn y) (y_asked y).

Definition set_generation (y : Sys) (generation : Z) : Sys :=
  mkSys (y_hist y) (y_regs y) (y_caps y) (y_requested y) (y_completed y) generation (y_persist y)
    (y_store y) (y_router y) (y_durability y) (y_owner y) (y_tasks y) (y_jobs y) (y_turn y) (y_asked y).

Definition publish_durability_status (y : Sys) (status : DurabilityStatus) : Sys :=
  let '(r, code, _) := transition_durability (y_router y) (y_durability y) status in
  mkSys (y_hist y) (y_regs y) (y_caps y) (y_requested y) (y_completed y) (y_generation y)
    (y_persist y) (y_store y) r code (y_owner y) (y_tasks y) (y_jobs y) (y_turn y) (y_asked y).

Definition publish_completed_durability (y : Sys) : Sys :=
  publish_durability_status y
    (if (y_requested y <=? y_completed y)%Z && bool_decide (health (y_persist y) = HClean)
     then DurSaved else DurUnsaved).

Definition persistence_health (y : Sys) : PersistenceHealth :=
  if (y_completed y <? y_requested y)%Z then HDirty else health (y_persist y).

Definition set_turn (y : Sys) (turn : option (TurnConfig * CpPc)) : Sys :=
  mkSys (y_hist y) (y_regs y) (y_caps y) (y_requested y) (y_completed y) (y_generation y) (y_persist y)
    (y_store y) (y_router y) (y_durability y) (y_owner y) (y_tasks y) (y_jobs y) turn (y_asked y).

(** A capture with a fresh generation. *)
Definition mint (y : Sys) (through_seq : Z) (content : Content) (version : nat) : Sys * PersistenceCapture :=
  let c := mkCapture (y_generation y + 1) through_seq content version in
  (mkSys (y_hist y) (y_regs y) (y_caps y ++ [c]) (y_requested y) (y_completed y)
     (y_generation y + 1) (y_persist y) (y_store y) (y_router y) (y_durability y) (y_owner y)
     (y_tasks y) (y_jobs y) (y_turn y) (y_asked y), c).

Definition current (y : Sys) : Content := default (mkContent "" "" [] "" [] []) (last (y_hist y)).

(** [capture_persistence], under the locks of the state. *)
Definition capture_persistence (y : Sys) (through_seq : Z) : Sys * PersistenceCapture :=
  mint y through_seq (current y) (length (y_hist y)).

Definition next_delay (delay : Z) : Z := Z.min (delay * 2) (rp_max_backoff policy).

(** One step of call [i]; [fault] is the answer of the database to a write. *)
Definition task_step (y : Sys) (i : nat) (fault : option SessionStoreError) : option Sys :=
  match y_tasks y !! i with
  | None | Some PcDone => None
  | Some PcRegister =>
      let request := (y_requested y + 1)%Z in
      Some (set_pc
        (mkSys (y_hist y) (y_regs y ++ [length (y_hist y)]) (y_caps y) request (y_completed y)
           (y_generation y) (y_persist y) (y_store y) (y_router y) (y_durability y) (y_owner y)
           (y_tasks y) (y_jobs y) (y_turn y) (y_asked y)) i (PcAnnounce request))
  | Some (PcAnnounce request) =>
      let y' := if bool_decide (durability_status_from_code (y_durability y) = DurSaving) then y
                else publish_durability_status y DurUnsaved in
      Some (set_pc y' i (PcGate request))
  | Some (PcGate request) =>
      match y_owner y with
      | Some _ => None
      | None => Some (set_pc (set_owner y (Some i)) i (PcOwned request))
      end
  | Some (PcOwned request) =>
      if (request <=? y_completed y)%Z then Some (set_pc (set_owner y None) i PcDone)
      else Some (set_pc (set_persist y (mark_dirty (y_persist y)) (y_store y)) i PcSaving)
  | Some PcSaving => Some (set_pc (publish_durability_status y DurSaving) i PcHandled)
  | Some PcHandled =>
      Some (set_pc y i (PcCapture (y_requested y) 0 (rp_initial_backoff policy)))
  | Some (PcCapture handled attempts delay) =>
      Some (set_pc y i (PcLock handled (attempts + 1) delay (latest_sequence (y_router y))))
  | Some (PcLock handled attempts delay through_seq) =>
      if is_some (y_turn y) then None
      else let '(y', c) := capture_persistence y through_seq in
           Some (set_pc y' i (PcSave handled attempts delay c))
  | Some (PcSave handled attempts delay c) =>
      let '(p, s, outcome) := save (y_persist y) (y_store y) c fault in
      Some (set_pc (set_persist y p s) i (PcOutcome handled attempts delay outcome))
  | Some (PcOutcome handled attempts delay outcome) =>
      let completed := Z.max (y_completed y) handled in
      match outcome with
      | Ok SoSaved => Some (set_pc (set_completed y completed) i (PcMarkClean handled))
      | Ok (SoSkippedStale stored_generation) =>
          let y1 := set_generation y (Z.max (y_generation y) stored_generation) in
          let y2 := set_persist y1 (mark_dirty (y_persist y1)) (y_store y1) in
          if rp_attempts policy <=? attempts then Some (set_pc y2 i (PcPublish DurUnsaved))
          else Some (set_pc y2 i (PcCapture handled attempts (next_delay delay)))
      | Ok SoSkippedDeleted => Some (set_pc (set_completed y completed) i PcPublishCompleted)
      | Ok SoSuperseded => Some (set_pc (set_completed y completed) i (PcPublish DurSuperseded))
      | Err kind =>
          let retryable := is_retryable_persistence_error kind in
          let y1 := set_persist y (mark_degraded (y_persist y) retryable) (y_store y) in
          if negb retryable || (rp_attempts policy <=? attempts)
          then Some (set_pc (set_completed y1 completed) i (PcPublish DurDegraded))
          else Some (set_pc y1 i (PcCapture handled attempts (next_delay delay)))
      end
  | Some (PcMarkClean handled) =>
      let '(p, _) := mark_clean_if_fully_handled (y_persist y) handled (y_requested y) in
      Some (set_pc (set_persist y p (y_store y)) i PcPublishCompleted)
  | Some PcPublishCompleted =>
      Some (set_pc (set_owner (publish_completed_durability y) None) i PcDone)
  | Some (PcPublish status) =>
      Some (set_pc (set_owner (publish_durability_status y status) None) i PcDone)
  end.

(** Whether a call at this point can be dropped (it is at an await). *)
Definition at_await (pc : Pc) : bool :=
  match pc with PcGate _ | PcCapture _ _ _ | PcLock _ _ _ _ | PcSave _ _ _ _ => true | _ => false end.

Definition abandon (y : Sys) (i : nat) (pc : Pc) : Sys :=
  let y1 := if bool_decide (y_owner y = Some i) then set_owner y None else y in
  let jobs := match pc with PcSave _ _ _ c => y_jobs y ++ [c] | _ => y_jobs y end in
  mkSys (y_hist y1) (y_regs y1) (y_caps y1) (y_requested y1) (y_completed y1) (y_generation y1)
    (y_persist y1) (y_store y1) (y_router y1) (y_durability y1) (y_owner y1)
    (<[i := PcDone]> (y_tasks y1)) jobs (y_turn y1) (y_asked y1).

(** ** The checkpoint of a turn *)

(** A turn begins: [configure_turn_checkpoint] samples the session. *)
Definition turn_begin (y : Sys) (client_id : option string) (retry : bool) : Sys :=
  set_turn y (Some (mkTurnConfig (length (y_hist y)) (current y) client_id retry, CpIdle)).

(** The hook is called with the messages of the turn so far. *)
Definition checkpoint_call (y : Sys) (t : TurnConfig) (messages : list Message) : Sys :=
  mkSys (y_hist y) (y_regs y) (y_caps y) (y_requested y) (y_completed y) (y_generation y)
    (mark_dirty (y_persist y)) (y_store y) (y_router y) (y_durability y) (y_owner y) (y_tasks y) (y_jobs y)
    (Some (t, CpTry 1 (rp_initial_backoff policy) (checkpoint_content t messages))) (y_asked y ++ [(t, messages)]).

(** One step of the loop of the hook. *)
Definition checkpoint_step (y : Sys) (fault : option SessionStoreError) : option Sys :=
  match y_turn y with
  | None | Some (_, CpIdle) => None
  | Some (t, CpTry attempt delay content) =>
      let '(y', c) := mint y 0 content (tu_version t) in Some (set_turn y' (Some (t, CpSave attempt delay c)))
  | Some (t, CpSave attempt delay c) =>
      let '(p, s, outcome) := save (y_persist y) (y_store y) c fault in
      Some (set_turn (set_persist y p s) (Some (t, CpOutcome attempt delay (cp_content c) outcome)))
  | Some (t, CpOutcome attempt delay content outcome) =>
      let again := if rp_attempts policy <=? attempt then CpIdle else CpTry (attempt + 1) (next_delay delay) content in
      match outcome with
      | Ok SoSaved | Ok SoSkippedDeleted => Some (set_turn y (Some (t, CpPublish DurUnsaved CpIdle)))
      | Ok SoSuperseded => Some (set_turn y (Some (t, CpPublish DurSuperseded CpIdle)))
      | Ok (SoSkippedStale stored_generation) =>
          Some (set_turn (set_generation y (Z.max (y_generation y) stored_generation)) (Some (t, again)))
      | Err kind =>
          let retryable := is_retryable_persistence_error kind in
          Some (set_turn (set_persist y (mark_degraded (y_persist y) retryable) (y_store y))
            (Some (t, CpPublish DurDegraded (if retryable then again else CpIdle))))
      end
  | Some (t, CpPublish status next) => Some (set_turn (publish_durability_status y status) (Some (t, next)))
  end.

(** The hook is done, sleeps or waits for its write: the turn may end or be dropped here. *)
Definition turn_may_end (pc : CpPc) : bool :=
  match pc with CpIdle | CpSave _ _ _ => true | CpTry attempt _ _ => 1 <? attempt | _ => false end.

(** The turn ends; a write that was under way goes on. *)
Definition turn_end (y : Sys) (pc : CpPc) : Sys :=
  mkSys (y_hist y) (y_regs y) (y_caps y) (y_requested y) (y_completed y) (y_generation y) (y_persist y)
    (y_store y) (y_router y) (y_durability y) (y_owner y) (y_tasks y)
    (match pc with CpSave _ _ c => y_jobs y ++ [c] | _ => y_jobs y end) None (y_asked y).

(** The operations other processes perform on the store: they do not hold this
    session's writer, and their claims get epochs of their own. *)
Definition foreign (op : StoreOp) : Prop :=
  match op with
  | SClaim _ _ epoch _ => epoch ≠ sw_epoch writer
  | SWrite _ _ _ (Some w) _ => sw_epoch w ≠ sw_epoch writer
  | SDeleteWriter w _ => sw_epoch w ≠ sw_epoch writer
  | _ => True
  end.

Inductive sys_step : Sys → Sys → Prop :=
  | ys_task y i fault y' : task_step y i fault = Some y' → sys_step y y'
  | ys_call y i : y_tasks y !! i = None → sys_step y (set_pc y i PcRegister)
  | ys_abandon y i pc : y_tasks y !! i = Some pc → at_await pc = true → sys_step y (abandon y i pc)
  | ys_job y jobs1 c jobs2 fault :
      y_jobs y = jobs1 ++ c :: jobs2 →
      sys_step y
        (let '(p, s, _) := save (y_persist y) (y_store y) c fault in
         mkSys (y_hist y) (y_regs y) (y_caps y) (y_requested y) (y_completed y) (y_generation y)
           p s (y_router y) (y_durability y) (y_owner y) (y_tasks y) (jobs1 ++ jobs2) (y_turn y) (y_asked y))
  | ys_change y content :
      sys_step y
        (mkSys (y_hist y ++ [content]) (y_regs y) (y_caps y) (y_requested y) (y_completed y)
           (y_generation y) (y_persist y) (y_store y) (y_router y) (y_durability y) (y_owner y)
           (y_tasks y) (y_jobs y) (y_turn y) (y_asked y))
  | ys_delete y fault :
      sys_step y (let '(p, s, _) := persist_delete (y_persist y) (y_store y) fault in
                  set_persist y p s)
  | ys_store y op : foreign op → sys_step y (set_persist y (y_persist y) (store_op (y_store y) op))
  (** [prompt] publishes [Unsaved] before it configures its turn *)
  | ys_unsaved y : sys_step y (publish_durability_status y DurUnsaved)
  | ys_turn_begin y client_id retry : y_turn y = None → sys_step y (turn_begin y client_id retry)
  | ys_turn_call y t messages : y_turn y = Some (t, CpIdle) → sys_step y (checkpoint_call y t messages)
  | ys_turn_step y fault y' : checkpoint_step y fault = Some y' → sys_step y y'
  | ys_turn_end y t pc : y_turn y = Some (t, pc) → turn_may_end pc = true → sys_step y (turn_end y pc).

(** The session as it is opened: its writer has been claimed, and the generation
    continues from the stored one. *)
Definition sys_start (content : Content) (s : SessionStore) (router : SessionEventRouter) : Sys :=
  mkSys [content] [] [] 0 0 (default 0%Z (row_generation <$> st_sessions s !! sw_session_id writer))
    persist_default s router (durability_status_code DurSaved) None ∅ [] None [].

End persistence.

(** ** Effects on the store *)

Section persistence_proofs.
Context `{JsonText}.
Context (writer : SessionWriter) (catalog : option nat) (policy : PersistenceRetryPolicy).
Notation wid := (sw_session_id writer).
Notation save := (save writer catalog).
Notation record_of := (record_of writer).
Notation step := (sys_step writer catalog policy).
Implicit Types (y : Sys) (c : PersistenceCapture) (s : SessionStore) (V : nat).

(** A save leaves the store alone or writes the capture over an older generation. *)
Definition wrote s c s' : Prop :=
  holds s writer ∧
  (∀ old, st_sessions s !! wid = Some old → (row_generation old < cp_generation c)%Z) ∧
  ∃ payload summary, encode_session (record_of c) = Some payload ∧
    s' = mkStore (<[wid := mkRow (cp_generation c) payload summary]> (st_sessions s)) (st_writers s).

Lemma put_effect s c n s' o :
  put_record s (mkPersisted SESSION_PERSIST_VERSION (cp_generation c) wid (ct_model (cp_content c))
    (Some (ct_thinking (cp_content c))) (Some (ct_cwd (cp_content c))) (ct_client_user_message_ids (cp_content c))
    (ct_assistant_outcomes (cp_content c)) (ct_messages (cp_content c))) (cp_generation c) n = (s', o) →
  (s' = s ∧ ∃ kind, o = Err kind) ∨
  (∃ payload summary, o = Ok (WSaved summary) ∧ encode_session (record_of c) = Some payload ∧
    s' = mkStore (<[wid := mkRow (cp_generation c) payload summary]> (st_sessions s)) (st_writers s)).
Proof.
  unfold put_record. change (with_generation _ _) with (record_of c).
  destruct (encode_session (record_of c)) as [payload|] eqn:E; intros [= <- <-]; [right|left; eauto].
  eexists payload, _. split_and!; done.
Qed.

Lemma save_write_effect p s c fault p' s' o :
  save_write writer catalog p s c fault = (p', s', o) → (s' = s ∧ o ≠ Ok SoSaved) ∨ (o = Ok SoSaved ∧ wrote s c s').
Proof.
  unfold save_write, save_acp_generation_result, save_record_result.
  destruct (negb (valid_id wid)); [intros; simplify_eq; by left|]. unfold write_record.
  destruct fault; [intros; simplify_eq; by left|]. cbn [ps_session_id default].
  case_bool_decide as Hh; [|intros; simplify_eq/=; by left]. cbn [negb].
  destruct (st_sessions s !! wid) as [old|] eqn:E; cbn [fmap option_fmap option_map].
  - destruct (Z.leb_spec (cp_generation c) (row_generation old)); [intros; simplify_eq/=; by left|].
    destruct (put_record _ _ _ _) as [s1 o1] eqn:Ep.
    destruct (put_effect _ _ _ _ _ Ep) as [[-> [kind ->]]|(payload&summary&->&He&->)]; intros; simplify_eq; [by left|].
    right. split; [done|]. split; [done|]. split; [intros old' Ho; rewrite E in Ho; simplify_eq; lia|]. by exists payload, summary.
  - destruct (put_record _ _ _ _) as [s1 o1] eqn:Ep.
    destruct (put_effect _ _ _ _ _ Ep) as [[-> [kind ->]]|(payload&summary&->&He&->)]; intros; simplify_eq; [by left|].
    right. split; [done|]. split; [done|]. split; [intros ? ?; congruence|]. by exists payload, summary.
Qed.

Lemma save_effect p s c fault p' s' o :
  save p s c fault = (p', s', o) → (s' = s ∧ o ≠ Ok SoSaved) ∨ (o = Ok SoSaved ∧ wrote s c s').
Proof.
  unfold Persistence.save. repeat (case_match; try (intros; simplify_eq; by left)); apply save_write_effect.
Qed.

(** A save does not touch the health, and never forgets a deletion. *)
Lemma save_flags p s c fault p' s' o :
  save p s c fault = (p', s', o) →
  pp_health p' = pp_health p ∧ pp_deleted p' = pp_deleted p ∧
  (pp_superseded p = true → pp_superseded p' = true).
Proof.
  unfold Persistence.save, save_write. repeat case_match; intros; simplify_eq/=; done.
Qed.

Lemma foreign_op s op :
  foreign writer op → holds (store_op s op) writer →
  holds s writer ∧ st_sessions (store_op s op) !! wid = st_sessions s !! wid.
Proof.
  intros Hf Hh. assert (holds s writer) as Hs.
  { eapply store_op_holds; [|done]. by destruct op. }
  split; [done|]. unfold holds in *.
  destruct op as [i ex e f|r mp g ww f|r mp f|i f|ww f]; simpl in *.
  - unfold claim_writer in *. by repeat case_match.
  - unfold write_record, put_record in *. destruct f; [done|]. cbn zeta in *.
    destruct (decide (ps_session_id r = wid)) as [Hid|Hne].
    + rewrite Hid, Hs in *. destruct ww as [w|]; simpl; [|done].
      rewrite bool_decide_eq_false_2; [done|]. naive_solver.
    + repeat case_match; simpl; try done; by rewrite lookup_insert_ne.
  - unfold import_if_absent in *. destruct (validate_persisted_session r); [|done].
    repeat case_match; simpl; try done. rewrite lookup_insert_ne; [done|].
    intros Hid. rewrite Hid, Hs in *. by rewrite orb_true_r in *.
  - unfold delete_unconditionally in *. repeat case_match; simpl in *; try done.
    apply lookup_delete_Some in Hh as [Hne _]. by rewrite lookup_delete_ne.
  - unfold delete_writer in *. repeat case_match; simpl in *; try done.
    apply lookup_delete_Some in Hh as [Hne _]. by rewrite lookup_delete_ne.
Qed.

(** ** The invariant *)

(** How many states of the session the request [r] covers. *)
Definition ver_of y (r : Z) : nat :=
  if (r <=? 0)%Z then 0 else default 0 (y_regs y !! Z.to_nat (r - 1)).

(** As long as this writer owns the session, the store holds a capture that
    covers [V] states of the session. *)
Definition stored y V : Prop :=
  holds (y_store y) writer → V = 0 ∨
  ∃ c row, c ∈ y_caps y ∧ st_sessions (y_store y) !! wid = Some row ∧
    encode_session (record_of c) = Some (row_payload row) ∧ row_generation row = cp_generation c ∧ V ≤ cp_version c.

Definition not_clean (p : SessionPersistenceState) : Prop :=
  pp_health p ≠ HClean ∨ pp_deleted p = true ∨ pp_superseded p = true.

Definition owned_pc (pc : Pc) : bool :=
  match pc with PcRegister | PcAnnounce _ | PcGate _ | PcDone => false | _ => true end.

Definition pc_ok y (pc : Pc) : Prop :=
  match pc with
  | PcSaving | PcHandled => not_clean (y_persist y)
  | PcCapture handled _ _ | PcLock handled _ _ _ => not_clean (y_persist y) ∧ (handled ≤ y_requested y)%Z
  | PcSave handled _ _ c =>
      not_clean (y_persist y) ∧ (handled ≤ y_requested y)%Z ∧ c ∈ y_caps y ∧ ver_of y handled ≤ cp_version c
  | PcOutcome handled _ _ o =>
      not_clean (y_persist y) ∧ (handled ≤ y_requested y)%Z ∧ (o = Ok SoSaved → stored y (ver_of y handled))
  | PcMarkClean handled =>
      not_clean (y_persist y) ∧ (handled ≤ y_requested y)%Z ∧ stored y (ver_of y handled)
  | _ => True
  end.

(** What a capture holds: the session's state of its version, or a projection of a turn
    that began in that state. *)
Definition holds_content y (v : nat) (content : Content) : Prop :=
  ∃ base, 0 < v ∧ y_hist y !! (v - 1) = Some base ∧
    (content = base ∨
     ∃ t messages, (t, messages) ∈ y_asked y ∧ tu_version t = v ∧ tu_base t = base ∧ content = checkpoint_content t messages).

(** A turn holds the session's lock: every capture so far is of an earlier state, or its
    own. *)
Fixpoint cp_ok y (t : TurnConfig) (pc : CpPc) : Prop :=
  match pc with
  | CpIdle => True
  | CpTry _ _ content | CpOutcome _ _ content _ => holds_content y (tu_version t) content
  | CpSave _ _ c => c ∈ y_caps y ∧ holds_content y (tu_version t) (cp_content c)
  | CpPublish _ next => cp_ok y t next
  end.

Definition turn_ok y (t : TurnConfig) (pc : CpPc) : Prop :=
  0 < tu_version t ≤ length (y_hist y) ∧ y_hist y !! (tu_version t - 1) = Some (tu_base t) ∧
  (∀ c, c ∈ y_caps y → cp_version c ≤ tu_version t) ∧ cp_ok y t pc.

Record sys_inv y : Prop := {
  si_regs_len : Z.of_nat (length (y_regs y)) = y_requested y;
  si_regs_mono : ∀ j k a b, j ≤ k → y_regs y !! j = Some a → y_regs y !! k = Some b → a ≤ b;
  si_regs_hist : ∀ j a, y_regs y !! j = Some a → 0 < a ≤ length (y_hist y);
  si_completed : (0 ≤ y_completed y ≤ y_requested y)%Z;
  si_caps : ∀ c, c ∈ y_caps y → (cp_generation c ≤ y_generation y)%Z ∧ holds_content y (cp_version c) (cp_content c);
  si_caps_mono : ∀ c1 c2, c1 ∈ y_caps y → c2 ∈ y_caps y →
    (cp_generation c1 ≤ cp_generation c2)%Z → cp_version c1 ≤ cp_version c2;
  si_hist : y_hist y ≠ [];
  si_jobs : ∀ c, c ∈ y_jobs y → c ∈ y_caps y;
  si_owner : ∀ i pc, y_tasks y !! i = Some pc → owned_pc pc = true → y_owner y = Some i;
  si_tasks : ∀ i pc, y_tasks y !! i = Some pc → pc_ok y pc;
  si_clean : ¬ not_clean (y_persist y) → stored y (ver_of y (y_completed y));
  si_turn : ∀ t pc, y_turn y = Some (t, pc) → turn_ok y t pc;
}.

Lemma ver_of_mono y r1 r2 :
  sys_inv y → (r1 ≤ r2 ≤ y_requested y)%Z → ver_of y r1 ≤ ver_of y r2.
Proof.
  intros [] Hr. unfold ver_of. destruct (Z.leb_spec r1 0); [lia|]. destruct (Z.leb_spec r2 0); [lia|].
  destruct (lookup_lt_is_Some_2 (y_regs y) (Z.to_nat (r1 - 1))) as [a Ha]; [lia|].
  destruct (lookup_lt_is_Some_2 (y_regs y) (Z.to_nat (r2 - 1))) as [b Hb]; [lia|].
  rewrite Ha, Hb. simpl. eapply si_regs_mono0; [|done|done]. lia.
Qed.

Lemma ver_of_hist y r : sys_inv y → ver_of y r ≤ length (y_hist y).
Proof.
  intros []. unfold ver_of. destruct (Z.leb_spec r 0); [lia|].
  destruct (y_regs y !! Z.to_nat (r - 1)) eqn:E; simpl; [by eapply si_regs_hist0|lia].
Qed.

Lemma stored_mono y V1 V2 : V1 ≤ V2 → stored y V2 → stored y V1.
Proof.
  intros Hle Hs Hh. destruct (Hs Hh) as [->|(c&row&?&?&?&?&?)]; [left; lia|].
  right. exists c, row. split_and!; try done. lia.
Qed.

(** What a step may do to the things the invariant of a call speaks of. *)
Record ext y y' : Prop := {
  ext_requested : (y_requested y ≤ y_requested y')%Z;
  ext_ver : ∀ r, (r ≤ y_requested y)%Z → ver_of y' r = ver_of y r;
  ext_caps : ∀ c, c ∈ y_caps y → c ∈ y_caps y';
  ext_stored : ∀ V, stored y V → stored y' V;
}.

Lemma pc_ok_ext y y' pc :
  ext y y' → (owned_pc pc = true → not_clean (y_persist y) → not_clean (y_persist y')) →
  pc_ok y pc → pc_ok y' pc.
Proof.
  intros [Hr Hv Hc Hs] Hn.
  destruct pc; simpl in *; try done; try (by auto); try (by intros [??]; split; [auto|lia]).
  - intros (?&?&?&?). rewrite Hv by done. split_and!; auto; lia.
  - intros (?&?&Hsaved). rewrite Hv by done. split_and!; auto; lia.
  - intros (?&?&Hsaved). rewrite Hv by done. split_and!; auto; lia.
Qed.

(** A step that leaves the store and the captures alone. *)
Lemma ext_same y y' :
  y_requested y' = y_requested y → y_regs y' = y_regs y → y_caps y' = y_caps y →
  y_store y' = y_store y → ext y y'.
Proof.
  intros Hr Hg Hc Hs. split.
  - by rewrite Hr.
  - intros r _. unfold ver_of. by rewrite Hg.
  - by rewrite Hc.
  - intros V. unfold stored. by rewrite Hc, Hs.
Qed.

Lemma ext_trans y1 y2 y3 : ext y1 y2 → ext y2 y3 → ext y1 y3.
Proof.
  intros [A1 A2 A3 A4] [B1 B2 B3 B4]. split; [lia| |auto|auto]. intros r Hr. rewrite B2, A2; [done|done|lia].
Qed.

(** States and requests of turns are only added. *)
Definition grows y y' : Prop :=
  (∀ i x, y_hist y !! i = Some x → y_hist y' !! i = Some x) ∧ (∀ a, a ∈ y_asked y → a ∈ y_asked y').

Lemma grows_same y y' : y_hist y' = y_hist y → y_asked y' = y_asked y → grows y y'.
Proof. intros Hh Ha. split; [by rewrite Hh|by rewrite Ha]. Qed.

Lemma holds_content_grows y y' v content : grows y y' → holds_content y v content → holds_content y' v content.
Proof.
  intros [Hh Ha] (base&Hv&Hb&Hor). exists base. split_and!; [done|by apply Hh|].
  destruct Hor as [?|(t&m&Hin&?)]; [by left|]. right. exists t, m. auto.
Qed.

Lemma cp_ok_grows y y' t pc :
  grows y y' → (∀ c, c ∈ y_caps y → c ∈ y_caps y') → cp_ok y t pc → cp_ok y' t pc.
Proof.
  intros Hg Hc. induction pc; simpl; eauto using holds_content_grows. intros [??]. eauto using holds_content_grows.
Qed.

Lemma turn_ok_grows y y' t pc : grows y y' → y_caps y' = y_caps y → turn_ok y t pc → turn_ok y' t pc.
Proof.
  intros Hg Hc (Hv&Hb&Hcaps&Hpc). pose proof (proj1 Hg _ _ Hb) as Hb'.
  split; [apply lookup_lt_Some in Hb'; lia|]. split; [done|]. rewrite Hc. split; [done|].
  eapply cp_ok_grows; [done|by rewrite Hc|done].
Qed.

(** A step of call [i] that changes neither the history nor the captures. *)
Lemma inv_task y y' i pc' :
  sys_inv y → ext y y' →
  y_hist y' = y_hist y → y_regs y' = y_regs y → y_requested y' = y_requested y →
  y_caps y' = y_caps y → (y_generation y ≤ y_generation y')%Z → y_jobs y' = y_jobs y →
  y_turn y' = y_turn y → y_asked y' = y_asked y →
  y_tasks y' = <[i := pc']> (y_tasks y) → (0 ≤ y_completed y' ≤ y_requested y)%Z →
  (∀ j, j ≠ i → y_owner y = Some j → y_owner y' = Some j) →
  (owned_pc pc' = true → y_owner y' = Some i) →
  (∀ j, j ≠ i → y_owner y = Some j → not_clean (y_persist y) → not_clean (y_persist y')) →
  pc_ok y' pc' →
  (¬ not_clean (y_persist y') → stored y' (ver_of y' (y_completed y'))) →
  sys_inv y'.
Proof.
  intros [] Hext Hh Hr Hreq Hc Hg Hj Htu Ha Ht Hcomp Hown Hown' Hnc Hpc Hclean. pose proof (grows_same y y' Hh Ha) as Hgr.
  split; rewrite ?Hh, ?Hr, ?Hreq, ?Hc, ?Hj; try done.
  - intros c Hin. destruct (si_caps0 c Hin) as [??]. split; [lia|by eapply holds_content_grows].
  - intros j pc. rewrite Ht, lookup_insert_Some. intros [[<- <-]|[Hne Hpc']] Ho; eauto.
  - intros j pc. rewrite Ht, lookup_insert_Some. intros [[<- <-]|[Hne Hpc']]; [done|].
    eapply pc_ok_ext; [done| |by eauto]. intros Ho. eapply Hnc; [done|]. eauto.
  - rewrite Htu. intros t pc Hpc'. eapply turn_ok_grows; eauto.
Qed.

(** A step of call [i] that only changes its place, the gate and what is published. *)
Lemma inv_goto y y' i pc' :
  sys_inv y →
  y_hist y' = y_hist y → y_regs y' = y_regs y → y_requested y' = y_requested y →
  y_caps y' = y_caps y → y_generation y' = y_generation y → y_jobs y' = y_jobs y →
  y_turn y' = y_turn y → y_asked y' = y_asked y →
  y_store y' = y_store y → y_persist y' = y_persist y → y_completed y' = y_completed y →
  y_tasks y' = <[i := pc']> (y_tasks y) →
  (∀ j, j ≠ i → y_owner y = Some j → y_owner y' = Some j) →
  (owned_pc pc' = true → y_owner y' = Some i) →
  pc_ok y pc' → sys_inv y'.
Proof.
  intros Hinv Hh Hr Hreq Hc Hg Hj Htu Ha Hs Hp Hcomp Ht Hown Hown' Hpc.
  assert (ext y y') as Hext by (by apply ext_same).
  eapply (inv_task y y' i pc'); try done; try (by rewrite ?Hg, ?Hp).
  - rewrite Hcomp. apply Hinv.
  - eapply pc_ok_ext; [done| |done]. by rewrite Hp.
  - rewrite Hp, Hcomp. intros Hn. destruct Hext. rewrite ext_ver0 by apply Hinv.
    by apply ext_stored0, Hinv.
Qed.

(** ** Steps *)

Lemma publish_status_fields y status :
  let y' := publish_durability_status y status in
  y_hist y' = y_hist y ∧ y_regs y' = y_regs y ∧ y_requested y' = y_requested y ∧
  y_caps y' = y_caps y ∧ y_generation y' = y_generation y ∧ y_jobs y' = y_jobs y ∧
  y_store y' = y_store y ∧ y_persist y' = y_persist y ∧ y_completed y' = y_completed y ∧
  y_tasks y' = y_tasks y ∧ y_owner y' = y_owner y ∧ y_turn y' = y_turn y ∧ y_asked y' = y_asked y.
Proof.
  unfold publish_durability_status. by destruct (transition_durability _ _ _) as [[r code] ds].
Qed.

(** Publishing a status and moving on, or releasing the gate. *)
Lemma inv_publish y i status pc' owner' :
  sys_inv y → pc_ok y pc' →
  (∀ j, j ≠ i → y_owner y = Some j → owner' = Some j) → (owned_pc pc' = true → owner' = Some i) →
  sys_inv (set_pc (set_owner (publish_durability_status y status) owner') i pc').
Proof.
  intros Hinv Hpc Ho Ho'. destruct (publish_status_fields y status) as (?&?&?&?&?&?&?&?&?&Ht&?&?&?).
  eapply (inv_goto y); simpl; try done. by rewrite Ht.
Qed.

Lemma inv_publish_on y i status pc' :
  sys_inv y → pc_ok y pc' → (owned_pc pc' = true → y_owner y = Some i) →
  sys_inv (set_pc (publish_durability_status y status) i pc').
Proof.
  intros Hinv Hpc Ho. destruct (publish_status_fields y status) as (?&?&?&?&?&?&?&?&?&Ht&Hown&?&?).
  eapply (inv_goto y); simpl; try done; rewrite ?Hown, ?Ht; done.
Qed.

Lemma not_clean_mark_dirty p : not_clean (mark_dirty p).
Proof.
  unfold mark_dirty, not_clean. destruct (pp_deleted p) eqn:E1; [right; left; done|].
  destruct (pp_superseded p) eqn:E2; [right; right; done|]. by left.
Qed.

Lemma not_clean_mark_degraded p r : not_clean (mark_degraded p r).
Proof.
  unfold mark_degraded, not_clean. destruct (pp_deleted p) eqn:E1; [right; left; done|].
  destruct (pp_superseded p) eqn:E2; [right; right; done|]. by left.
Qed.

(** A registration: the request covers the states so far. *)
Lemma inv_register y i y' fault :
  sys_inv y → y_tasks y !! i = Some PcRegister → task_step writer catalog policy y i fault = Some y' →
  sys_inv y'.
Proof.
  intros Hinv Ht. unfold task_step. rewrite Ht. intros [= <-].
  set (y' := set_pc _ i _).
  assert (∀ r, (r ≤ y_requested y)%Z → ver_of y' r = ver_of y r) as Hver.
  { intros r Hr. unfold ver_of. simpl. destruct (Z.leb_spec r 0); [done|].
    rewrite lookup_app_l; [done|]. destruct Hinv. lia. }
  assert (ext y y') as Hext by (split; simpl; [lia|done|done|done]).
  destruct Hinv. split; simpl; try done.
  - rewrite length_app. simpl. lia.
  - intros j k a b Hjk Ha Hb. rewrite lookup_app in Ha, Hb.
    destruct (y_regs y !! j) as [a'|] eqn:Ej; destruct (y_regs y !! k) as [b'|] eqn:Ek; simplify_eq.
    + eauto.
    + apply list_lookup_singleton_Some in Hb as [_ <-]. by eapply si_regs_hist0.
    + apply lookup_ge_None in Ej. apply lookup_lt_Some in Ek. lia.
    + apply list_lookup_singleton_Some in Ha as [_ <-]. apply list_lookup_singleton_Some in Hb as [_ <-]. done.
  - intros j a [Ha|[_ Ha]]%lookup_app_Some; [eauto|]. apply list_lookup_singleton_Some in Ha as [_ <-].
    destruct (y_hist y); [done|simpl; lia].
  - lia.
  - intros j pc. rewrite lookup_insert_Some. intros [[<- <-]|[_ ?]]; [done|]. eauto.
  - intros j pc. rewrite lookup_insert_Some. intros [[<- <-]|[_ Hpc]]; [done|].
    eapply (pc_ok_ext y); [done|by intros|eauto].
  - intros Hn. rewrite Hver by lia. apply Hext. auto.
  - intros t pc Htu. eapply (turn_ok_grows y); [by apply grows_same|done|eauto].
Qed.

(** A new capture of a version that no capture exceeds keeps the captures in order, and
    what is stored. *)
Lemma mint_caps y seq content v y' c :
  sys_inv y → mint y seq content v = (y', c) → holds_content y v content → (∀ c0, c0 ∈ y_caps y → cp_version c0 ≤ v) →
  (∀ c0, c0 ∈ y_caps y' → (cp_generation c0 ≤ y_generation y')%Z ∧ holds_content y' (cp_version c0) (cp_content c0)) ∧
  (∀ c1 c2, c1 ∈ y_caps y' → c2 ∈ y_caps y' → (cp_generation c1 ≤ cp_generation c2)%Z → cp_version c1 ≤ cp_version c2) ∧
  c ∈ y_caps y' ∧ ext y y'.
Proof.
  intros [] Hmint Hcontent Hmax. unfold mint in Hmint. injection Hmint as <- <-. simpl.
  split_and!; [| |set_solver|].
  - intros c0 [Hin|Hin]%elem_of_app; [destruct (si_caps0 _ Hin); split; [lia|done]|].
    apply list_elem_of_singleton in Hin as ->. simpl. split; [lia|done].
  - intros c1 c2 [H1|H1]%elem_of_app [H2|H2]%elem_of_app;
      rewrite ?list_elem_of_singleton in *; subst; simpl; intros Hg; [by eauto|by auto| |done].
    destruct (si_caps0 _ H2) as [? _]. lia.
  - split; simpl; [done|done|set_solver|]. intros V Hs Hh.
    destruct (Hs Hh) as [?|(c0&row&?&?&?&?&?)]; [by left|]. right. exists c0, row. simpl. split_and!; try done. set_solver.
Qed.

Lemma current_holds y : sys_inv y → y_hist y !! (length (y_hist y) - 1) = Some (current y) ∧ 0 < length (y_hist y).
Proof.
  intros []. unfold current. destruct (last (y_hist y)) as [ct|] eqn:El; [|by apply last_None in El].
  rewrite last_lookup in El. destruct (y_hist y) eqn:Eh; [done|]. split; [|simpl; lia].
  simpl in *. by rewrite Nat.sub_0_r.
Qed.

Lemma caps_hist y c : sys_inv y → c ∈ y_caps y → cp_version c ≤ length (y_hist y).
Proof. intros [] Hc. destruct (si_caps0 _ Hc) as (_&base&?&?%lookup_lt_Some&_). lia. Qed.

(** A capture covers every request so far; no turn is under way. *)
Lemma inv_capture y i handled attempts delay seq y' fault :
  sys_inv y → y_tasks y !! i = Some (PcLock handled attempts delay seq) →
  task_step writer catalog policy y i fault = Some y' → sys_inv y'.
Proof.
  intros Hinv Ht. unfold task_step. rewrite Ht. destruct (is_some (y_turn y)) eqn:Etu; [done|].
  unfold capture_persistence. destruct (mint y seq (current y) (length (y_hist y))) as [y1 c] eqn:Em. intros [= <-].
  destruct (current_holds y Hinv) as [Hcur Hlen].
  destruct (mint_caps y seq (current y) (length (y_hist y)) y1 c Hinv Em) as (Hc1&Hc2&Hc3&Hext).
  { exists (current y). auto. }
  { intros c0 ?. by apply caps_hist. }
  pose proof (ver_of_hist y handled Hinv) as Hle.
  destruct (si_tasks _ Hinv _ _ Ht) as [Hnc Hh].
  pose proof (si_owner _ Hinv _ _ Ht eq_refl) as Hown.
  assert (ext y (set_pc y1 i (PcSave handled attempts delay c))) as Hext' by (eapply ext_trans; [exact Hext|by apply ext_same]).
  unfold mint in Em. injection Em as <- <-. destruct Hinv. split; simpl; try done.
  - intros c0 Hc0. apply elem_of_app. auto.
  - intros j pc. rewrite lookup_insert_Some. intros [[<- <-]|[_ ?]]; [done|]. eauto.
  - intros j pc. rewrite lookup_insert_Some. intros [[<- <-]|[_ Hpc]].
    + simpl. split_and!; [done|done|set_solver|done].
    + eapply (pc_ok_ext y); [exact Hext'|by intros|eauto].
  - intros t pc Htu. by rewrite Htu in Etu.
Qed.

(** A save of a capture keeps what is stored, or replaces it by a newer capture. *)
Lemma stored_save y c fault p' s' o V y' :
  sys_inv y → c ∈ y_caps y → save (y_persist y) (y_store y) c fault = (p', s', o) →
  y_caps y' = y_caps y → y_store y' = s' → stored y V → stored y' V.
Proof.
  intros Hinv Hc Hsave Hcaps Hst Hs. unfold stored. rewrite Hcaps, Hst.
  destruct (save_effect _ _ _ _ _ _ _ Hsave) as [[-> _]|(_&Hh&Hg&payload&summary&He&->)]; [exact Hs|].
  intros _. destruct (Hs Hh) as [->|(c0&row&Hc0&Hrow&Hpay&Hgen&HV)]; [by left|]. right.
  exists c, (mkRow (cp_generation c) payload summary). simpl.
  rewrite lookup_insert, decide_True by done. split_and!; try done.
  etrans; [exact HV|]. eapply (si_caps_mono _ Hinv); [done|done|]. specialize (Hg _ Hrow). lia.
Qed.

Lemma stored_saved y c fault p' s' o y' :
  c ∈ y_caps y → save (y_persist y) (y_store y) c fault = (p', s', o) → o = Ok SoSaved →
  y_caps y' = y_caps y → y_store y' = s' → stored y' (cp_version c).
Proof.
  intros Hc Hsave Ho Hcaps Hst.
  destruct (save_effect _ _ _ _ _ _ _ Hsave) as [[_ ?]|(_&Hh&Hg&payload&summary&He&->)]; [done|].
  intros _. right. exists c, (mkRow (cp_generation c) payload summary).
  rewrite Hcaps, Hst. simpl. rewrite lookup_insert, decide_True by done. done.
Qed.

Lemma not_clean_save p s c fault p' s' o :
  save p s c fault = (p', s', o) → not_clean p → not_clean p'.
Proof.
  intros (Hh&Hd&Hsup)%save_flags. unfold not_clean. rewrite Hh, Hd. naive_solver.
Qed.

Lemma ext_save y c fault p' s' o y' :
  sys_inv y → c ∈ y_caps y → save (y_persist y) (y_store y) c fault = (p', s', o) →
  y_caps y' = y_caps y → y_store y' = s' → y_requested y' = y_requested y → y_regs y' = y_regs y →
  ext y y'.
Proof.
  intros Hinv Hin Hs Hcaps Hst Hreq Hregs. split; [lia| |by rewrite Hcaps|].
  - intros r _. unfold ver_of. by rewrite Hregs.
  - intros V. by eapply stored_save.
Qed.

Lemma inv_save y i handled attempts delay c y' fault :
  sys_inv y → y_tasks y !! i = Some (PcSave handled attempts delay c) →
  task_step writer catalog policy y i fault = Some y' → sys_inv y'.
Proof.
  intros Hinv Ht. unfold task_step. rewrite Ht.
  destruct (save (y_persist y) (y_store y) c fault) as [[p' s'] o] eqn:Es. intros [= <-].
  set (y' := set_pc _ i _).
  pose proof (si_tasks _ Hinv _ _ Ht) as (Hnc&Hh&Hc&Hv).
  pose proof (si_owner _ Hinv _ _ Ht eq_refl) as Hown.
  assert (ext y y') as Hext by (by eapply ext_save).
  eapply (inv_task y y' i); try done; simpl.
  - apply Hinv.
  - intros j _ _. by eapply not_clean_save.
  - split_and!; [by eapply not_clean_save|done|]. intros ->.
    change (ver_of y' handled) with (ver_of y handled).
    eapply stored_mono; [exact Hv|]. by eapply stored_saved.
  - intros Hn. exfalso. apply Hn. by eapply not_clean_save.
Qed.

Lemma inv_outcome y i handled attempts delay o y' fault :
  sys_inv y → y_tasks y !! i = Some (PcOutcome handled attempts delay o) →
  task_step writer catalog policy y i fault = Some y' → sys_inv y'.
Proof.
  intros Hinv Ht. unfold task_step. rewrite Ht.
  pose proof (si_tasks _ Hinv _ _ Ht) as (Hnc&Hh&Hsaved).
  pose proof (si_owner _ Hinv _ _ Ht eq_refl) as Hown.
  pose proof (si_completed _ Hinv) as Hcomp.
  (** Every branch keeps the session, the captures and the store, and the health
      is not clean afterwards. *)
  assert (∀ y1 pc', y_hist y1 = y_hist y → y_regs y1 = y_regs y → y_requested y1 = y_requested y →
    y_caps y1 = y_caps y → (y_generation y ≤ y_generation y1)%Z → y_jobs y1 = y_jobs y →
    y_turn y1 = y_turn y → y_asked y1 = y_asked y →
    y_store y1 = y_store y → y_tasks y1 = y_tasks y → y_owner y1 = y_owner y →
    (0 ≤ y_completed y1 ≤ y_requested y)%Z → not_clean (y_persist y1) →
    pc_ok y1 pc' → sys_inv (set_pc y1 i pc')) as Hgo.
  { intros y1 pc' Hhi Hre Hrq Hca Hge Hjo Htu Has Hst Hta How Hco Hn Hpc.
    eapply (inv_task y _ i pc'); simpl; try done.
    - by apply ext_same.
    - by rewrite Hta.
    - intros j Hj. by rewrite Hown; intros [= ->].
    - intros _. by rewrite How. }
  destruct o as [[| | |g]|kind].
  - intros [= <-]. apply Hgo; simpl; try done; [lia|]. split_and!; auto.
  - intros [= <-]. apply Hgo; simpl; try done. lia.
  - intros [= <-]. apply Hgo; simpl; try done. lia.
  - destruct (rp_attempts policy <=? attempts); intros [= <-]; apply Hgo; simpl; try done;
      try lia; try apply not_clean_mark_dirty. split; [apply not_clean_mark_dirty|done].
  - destruct (_ || _); intros [= <-]; apply Hgo; simpl; try done; try lia;
      try apply not_clean_mark_degraded. split; [apply not_clean_mark_degraded|done].
Qed.

Lemma inv_mark_clean y i handled y' fault :
  sys_inv y → y_tasks y !! i = Some (PcMarkClean handled) →
  task_step writer catalog policy y i fault = Some y' → sys_inv y'.
Proof.
  intros Hinv Ht. unfold task_step. rewrite Ht.
  pose proof (si_tasks _ Hinv _ _ Ht) as (Hnc&Hh&Hsaved).
  pose proof (si_owner _ Hinv _ _ Ht eq_refl) as Hown.
  pose proof (si_completed _ Hinv) as Hcomp.
  destruct (mark_clean_if_fully_handled _ _ _) as [p b] eqn:Ep. intros [= <-].
  apply (inv_task y _ i PcPublishCompleted); simpl; try done.
  - intros j Hj. by rewrite Hown; intros [= ->].
  - intros Hn. unfold mark_clean_if_fully_handled in Ep.
    destruct (pp_deleted (y_persist y) || pp_superseded (y_persist y)) eqn:Ed; [by simplify_eq|].
    destruct (Z.leb_spec (y_requested y) handled) as [Hle|Hgt]; simplify_eq.
    + eapply stored_mono; [|exact Hsaved]. change (ver_of y (y_completed y) ≤ ver_of y handled).
      apply ver_of_mono; [done|lia].
    + exfalso. apply Hn. left. done.
Qed.

Lemma inv_task_step y i y' fault :
  sys_inv y → task_step writer catalog policy y i fault = Some y' → sys_inv y'.
Proof.
  intros Hinv Hstep. destruct (y_tasks y !! i) as [pc|] eqn:Ht;
    [|unfold task_step in Hstep; by rewrite Ht in Hstep].
  pose proof (si_owner _ Hinv _ _ Ht) as Hown.
  pose proof (si_tasks _ Hinv _ _ Ht) as Hpc.
  destruct pc as [|request|request|request| | |handled attempts delay|handled attempts delay seq|handled attempts delay c
    |handled attempts delay o|handled| |status|].
  - by eapply inv_register.
  - unfold task_step in Hstep. rewrite Ht in Hstep. simplify_eq.
    case_bool_decide; [by eapply (inv_goto y _ i (PcGate request))|].
    by apply inv_publish_on.
  - unfold task_step in Hstep. rewrite Ht in Hstep. destruct (y_owner y) eqn:Eo; simplify_eq.
    apply (inv_goto y _ i (PcOwned request)); simpl; try done. by rewrite Eo.
  - unfold task_step in Hstep. rewrite Ht in Hstep. specialize (Hown eq_refl).
    assert (∀ j, j ≠ i → y_owner y = Some j → False) as Hex by (intros j Hj; rewrite Hown; congruence).
    destruct (Z.leb_spec request (y_completed y)); simplify_eq.
    + apply (inv_goto y _ i PcDone); simpl; try done. naive_solver.
    + apply (inv_task y _ i PcSaving); simpl; try done.
      * apply Hinv.
      * naive_solver.
      * apply not_clean_mark_dirty.
      * intros Hn. exfalso. apply Hn, not_clean_mark_dirty.
  - unfold task_step in Hstep. rewrite Ht in Hstep. simplify_eq. specialize (Hown eq_refl).
    by apply inv_publish_on.
  - unfold task_step in Hstep. rewrite Ht in Hstep. simplify_eq. specialize (Hown eq_refl).
    apply (inv_goto y _ i (PcCapture (y_requested y) 0 (rp_initial_backoff policy))); simpl; try done.
  - unfold task_step in Hstep. rewrite Ht in Hstep. simplify_eq. specialize (Hown eq_refl).
    apply (inv_goto y _ i (PcLock handled (attempts + 1) delay (latest_sequence (y_router y)))); simpl; try done.
  - by eapply inv_capture.
  - by eapply inv_save.
  - by eapply inv_outcome.
  - by eapply inv_mark_clean.
  - unfold task_step in Hstep. rewrite Ht in Hstep. simplify_eq. specialize (Hown eq_refl).
    apply inv_publish; try done. intros j Hj. rewrite Hown. congruence.
  - unfold task_step in Hstep. rewrite Ht in Hstep. simplify_eq. specialize (Hown eq_refl).
    apply inv_publish; try done. intros j Hj. rewrite Hown. congruence.
  - unfold task_step in Hstep. by rewrite Ht in Hstep.
Qed.

(** A change of the persistence state and of the store that keeps what is stored. *)
Lemma inv_store y p s :
  sys_inv y → ext y (set_persist y p s) →
  (not_clean (y_persist y) → not_clean p) → sys_inv (set_persist y p s).
Proof.
  intros Hinv Hext Hnc. pose proof Hinv as []. split; simpl; try done.
  - intros i pc Ht. eapply (pc_ok_ext y); [done|by intros _|eauto].
  - intros Hn. change (ver_of (set_persist y p s) (y_completed y)) with (ver_of y (y_completed y)).
    apply Hext, si_clean0. auto.
  - intros t pc Htu. eapply (turn_ok_grows y); [by apply grows_same|done|eauto].
Qed.

Lemma persist_delete_effect p s fault p' s' r :
  persist_delete writer catalog p s fault = (p', s', r) →
  (s' = s ∨ ¬ holds s' writer) ∧ (not_clean p → not_clean p').
Proof.
  unfold persist_delete. destruct (_ || _); [intros; simplify_eq; auto|].
  unfold delete_writer. destruct fault; [intros; simplify_eq; auto|].
  case_bool_decide; intros; simplify_eq/=; (split; [|by intros _; right; left]).
  - right. unfold holds. simpl. by rewrite lookup_delete, decide_True.
  - by left.
Qed.

(** A call ends where it is, possibly leaving a write behind. *)
Lemma inv_drop y i jobs owner' :
  sys_inv y → (∀ c, c ∈ jobs → c ∈ y_caps y) →
  (∀ j pc, j ≠ i → y_tasks y !! j = Some pc → owned_pc pc = true → owner' = Some j) →
  sys_inv (mkSys (y_hist y) (y_regs y) (y_caps y) (y_requested y) (y_completed y) (y_generation y)
    (y_persist y) (y_store y) (y_router y) (y_durability y) owner' (<[i := PcDone]> (y_tasks y)) jobs (y_turn y) (y_asked y)).
Proof.
  intros Hinv Hjobs Hown. set (y' := mkSys _ _ _ _ _ _ _ _ _ _ _ _ _ _ _).
  assert (ext y y') as Hext by (by apply ext_same). destruct Hinv. split; simpl; try done.
  - intros j pc. rewrite lookup_insert_Some. intros [[<- <-]|[Hne Hpc]]; [done|]. eauto.
  - intros j pc. rewrite lookup_insert_Some. intros [[<- <-]|[_ Hpc]]; [done|].
    eapply (pc_ok_ext y); [done|by intros|eauto].
  - intros t pc Htu. eapply (turn_ok_grows y); [by apply grows_same|done|eauto].
Qed.

Lemma inv_abandon y i pc :
  sys_inv y → y_tasks y !! i = Some pc → at_await pc = true → sys_inv (abandon y i pc).
Proof.
  intros Hinv Ht Hpc. unfold abandon.
  assert (∀ c, c ∈ match pc with PcSave _ _ _ c => y_jobs y ++ [c] | _ => y_jobs y end → c ∈ y_caps y) as Hjobs.
  { pose proof (si_tasks _ Hinv _ _ Ht) as Hok. intros c Hin. destruct pc; try done; try by apply Hinv.
    apply elem_of_app in Hin as [?|Hin]; [by apply Hinv|].
    apply list_elem_of_singleton in Hin as ->. by destruct Hok as (_&_&?&_). }
  case_bool_decide as Ho; (apply (inv_drop y i); [done|done|]); simpl;
    intros j pc' Hj Hpc' Hown; pose proof (si_owner _ Hinv _ _ Hpc' Hown); congruence.
Qed.

(** A step of the turn that keeps the session and the captures. *)
Lemma inv_turn y y' :
  sys_inv y → ext y y' → grows y y' →
  y_hist y' = y_hist y → y_regs y' = y_regs y → y_requested y' = y_requested y → y_caps y' = y_caps y →
  (y_generation y ≤ y_generation y')%Z → (∀ c, c ∈ y_jobs y' → c ∈ y_caps y) → y_tasks y' = y_tasks y →
  y_owner y' = y_owner y → y_completed y' = y_completed y → (not_clean (y_persist y) → not_clean (y_persist y')) →
  (∀ t pc, y_turn y' = Some (t, pc) → turn_ok y' t pc) → sys_inv y'.
Proof.
  intros [] Hext Hgr Hh Hr Hreq Hc Hg Hj Ht Ho Hco Hnc Htu. split; rewrite ?Hh, ?Hr, ?Hreq, ?Hc, ?Ht, ?Ho, ?Hco; try done.
  - intros c Hin. destruct (si_caps0 c Hin) as [??]. split; [lia|by eapply holds_content_grows].
  - intros i pc Hpc. eapply (pc_ok_ext y); [done|by intros _|eauto].
  - intros Hn. rewrite (ext_ver _ _ Hext) by lia. apply Hext, si_clean0. auto.
Qed.

(** The place of the checkpoint after a step that keeps what the turn relies on. *)
Lemma turn_goes y y' t pc pc' :
  turn_ok y t pc → grows y y' → y_caps y' = y_caps y → y_turn y' = Some (t, pc') → cp_ok y t pc' →
  ∀ t0 pc0, y_turn y' = Some (t0, pc0) → turn_ok y' t0 pc0.
Proof.
  intros (Hv&Hb&Hcaps&_) Hg Hc Htu Hok t0 pc0 H0. rewrite Htu in H0. injection H0 as <- <-.
  apply (turn_ok_grows y y' t pc'); [done|done|]. exact (conj Hv (conj Hb (conj Hcaps Hok))).
Qed.

Lemma inv_turn_begin y client_id retry : sys_inv y → sys_inv (turn_begin y client_id retry).
Proof.
  intros Hinv. destruct (current_holds y Hinv) as [Hcur Hlen].
  set (y' := turn_begin y client_id retry).
  assert (ext y y') as Hext by (by apply ext_same). assert (grows y y') as Hgr by (by apply grows_same).
  apply (inv_turn y y'); simpl; try done; [apply Hinv|].
  intros t pc [= <- <-]. split_and!; simpl; try done; try lia. intros c Hc. by apply caps_hist.
Qed.

Lemma inv_checkpoint_call y t messages :
  sys_inv y → y_turn y = Some (t, CpIdle) → sys_inv (checkpoint_call policy y t messages).
Proof.
  intros Hinv Htu. pose proof (si_turn _ Hinv _ _ Htu) as Hok.
  set (y' := checkpoint_call policy y t messages).
  assert (ext y y') as Hext by (by apply ext_same). assert (grows y y') as Hgr by (split; simpl; [done|set_solver]).
  apply (inv_turn y y'); simpl; try done; [apply Hinv|intros _; apply not_clean_mark_dirty|].
  intros t0 pc [= <- <-]. destruct Hok as (Hv&Hb&Hcaps&_). split_and!; simpl; try done; try lia.
  exists (tu_base t). simpl. split; [lia|]. split; [done|]. right. exists t, messages. split; [set_solver|done].
Qed.

Lemma inv_turn_end y t pc : sys_inv y → y_turn y = Some (t, pc) → sys_inv (turn_end y pc).
Proof.
  intros Hinv Htu. pose proof (si_turn _ Hinv _ _ Htu) as (_&_&_&Hok).
  set (y' := turn_end y pc).
  assert (ext y y') as Hext by (by apply ext_same). assert (grows y y') as Hgr by (by apply grows_same).
  apply (inv_turn y y'); simpl; try done.
  intros c Hc. destruct pc; try by apply Hinv. apply elem_of_app in Hc as [?|Hc]; [by apply Hinv|].
  apply list_elem_of_singleton in Hc as ->. by destruct Hok.
Qed.

(** A checkpoint is minted: its version is the turn's, which no capture exceeds. *)
Lemma inv_checkpoint_mint y t attempt delay content :
  sys_inv y → y_turn y = Some (t, CpTry attempt delay content) →
  let '(y1, c) := mint y 0 content (tu_version t) in sys_inv (set_turn y1 (Some (t, CpSave attempt delay c))).
Proof.
  intros Hinv Htu. pose proof (si_turn _ Hinv _ _ Htu) as (Hv&Hb&Hcaps&Hok). simpl in Hok.
  destruct (mint y 0 content (tu_version t)) as [y1 c] eqn:Em.
  destruct (mint_caps y 0 content (tu_version t) y1 c Hinv Em Hok Hcaps) as (Hc1&Hc2&Hc3&Hext).
  set (y2 := set_turn _ _). assert (ext y y2) as Hext' by (eapply ext_trans; [exact Hext|by apply ext_same]).
  unfold mint in Em. injection Em as <- <-. destruct Hinv. split; simpl; try done.
  - intros c0 Hc0. apply elem_of_app. auto.
  - intros i pc Hpc. eapply (pc_ok_ext y); [exact Hext'|by intros|eauto].
  - intros Hn. rewrite (ext_ver _ _ Hext') by lia. apply Hext'. auto.
  - intros t0 pc [= <- <-]. split_and!; simpl; try done; try lia.
    intros c0 [?|Hc0]%elem_of_app; [by apply Hcaps|]. by apply list_elem_of_singleton in Hc0 as ->.
Qed.

Lemma inv_checkpoint_save y t attempt delay c fault p s o :
  sys_inv y → y_turn y = Some (t, CpSave attempt delay c) → save (y_persist y) (y_store y) c fault = (p, s, o) →
  sys_inv (set_turn (set_persist y p s) (Some (t, CpOutcome attempt delay (cp_content c) o))).
Proof.
  intros Hinv Htu Es. pose proof (si_turn _ Hinv _ _ Htu) as Hok.
  assert (c ∈ y_caps y ∧ holds_content y (tu_version t) (cp_content c)) as [Hc Hcont] by apply Hok.
  set (y' := set_turn _ _). assert (grows y y') as Hgr by (by apply grows_same).
  assert (ext y y') as Hext by (by eapply ext_save).
  apply (inv_turn y y'); simpl; try done; [apply Hinv|by eapply not_clean_save|].
  by eapply (turn_goes y y').
Qed.

Lemma inv_checkpoint_step y y' fault : sys_inv y → checkpoint_step writer catalog policy y fault = Some y' → sys_inv y'.
Proof.
  intros Hinv. unfold checkpoint_step. destruct (y_turn y) as [[t pc]|] eqn:Htu; [|done].
  pose proof (si_turn _ Hinv _ _ Htu) as Hok.
  assert (∀ y1 pc', y_hist y1 = y_hist y → y_regs y1 = y_regs y → y_requested y1 = y_requested y → y_caps y1 = y_caps y →
    (y_generation y ≤ y_generation y1)%Z → y_jobs y1 = y_jobs y → y_tasks y1 = y_tasks y → y_owner y1 = y_owner y →
    y_completed y1 = y_completed y → y_asked y1 = y_asked y → y_store y1 = y_store y →
    (not_clean (y_persist y) → not_clean (y_persist y1)) → cp_ok y t pc' →
    sys_inv (set_turn y1 (Some (t, pc')))) as Hgo.
  { intros y1 pc' Hh Hr Hreq Hc Hg Hj Ht Ho Hco Ha Hs Hn Hpc'.
    set (y2 := set_turn y1 (Some (t, pc'))). assert (grows y y2) as Hgr by (by apply grows_same).
    assert (ext y y2) as Hext by (by apply ext_same).
    apply (inv_turn y y2); simpl; try done; [rewrite Hj; apply Hinv|]. by eapply (turn_goes y y2 t pc pc'). }
  assert (∀ attempt delay content, holds_content y (tu_version t) content →
    cp_ok y t (if rp_attempts policy <=? attempt then CpIdle else CpTry (attempt + 1) (next_delay policy delay) content)) as Hagain
    by (intros; by destruct (_ <=? _)).
  destruct pc as [|attempt delay content|attempt delay c|attempt delay content o|status next]; try done.
  - destruct (mint _ _ _ _) as [y1 c] eqn:Em. intros [= <-]. pose proof (inv_checkpoint_mint y t attempt delay content Hinv Htu) as Hm.
    by rewrite Em in Hm.
  - destruct (Persistence.save _ _ _ _ _ _) as [[p s] o] eqn:Es. intros [= <-]. by eapply inv_checkpoint_save.
  - assert (holds_content y (tu_version t) content) as Hc by apply Hok.
    destruct o as [[| | |g]|kind]; intros [= <-]; apply Hgo; simpl; try done; try lia; try by apply Hagain.
    + intros _. apply not_clean_mark_degraded.
    + destruct (is_retryable_persistence_error kind); [by apply Hagain|done].
  - intros [= <-]. destruct (publish_status_fields y status) as (?&?&?&?&Hg&?&?&Hp&?&?&?&?&?).
    apply Hgo; try done; [by rewrite Hg|by rewrite Hp|]. apply Hok.
Qed.

Lemma sys_step_inv y y' : step y y' → sys_inv y → sys_inv y'.
Proof.
  intros Hs Hinv. destruct Hs as [y i fault y' Ht|y i Hi|y i pc Ht Hpc|y jobs1 c jobs2 fault Hj|y content|y fault|y op Hf
    |y|y client_id retry Htu|y t messages Htu|y fault y' Ht|y t pc Htu Hpc].
  - by eapply inv_task_step.
  - apply (inv_goto y _ i PcRegister); done.
  - by apply inv_abandon.
  - assert (c ∈ y_caps y) as Hc by (apply Hinv; rewrite Hj; set_solver).
    destruct (save (y_persist y) (y_store y) c fault) as [[p s] o] eqn:Es.
    assert (sys_inv (set_persist y p s)) as Hi.
    { apply inv_store; [done|by eapply ext_save|by eapply not_clean_save]. }
    destruct Hi. split; simpl in *; try done.
    + intros c' Hin. apply si_jobs0. rewrite Hj. set_solver.
    + intros t pc Htu. eapply (turn_ok_grows y); [by apply grows_same|done|by apply Hinv].
  - set (y' := mkSys _ _ _ _ _ _ _ _ _ _ _ _ _ _ _).
    assert (ext y y') as Hext by (by apply ext_same).
    assert (grows y y') as Hgr by (split; [intros i x Hx; by apply lookup_app_l_Some|done]).
    destruct Hinv. split; simpl; try done.
    + intros j a Ha. rewrite length_app. simpl. specialize (si_regs_hist0 _ _ Ha). lia.
    + intros c Hc. destruct (si_caps0 c Hc) as [??]. split; [done|by eapply holds_content_grows].
    + by destruct (y_hist y).
    + intros t pc Htu. by eapply turn_ok_grows; [..|eauto].
  - destruct (persist_delete _ _ _ _ _) as [[p s] r] eqn:Ed.
    destruct (persist_delete_effect _ _ _ _ _ _ Ed) as [Hs Hn].
    apply inv_store; [done| |done]. split; simpl; [done|done|done|].
    intros V HV. destruct Hs as [->|Hs]; [done|]. by intros Hh.
  - apply inv_store; [done| |done]. split; simpl; [done|done|done|].
    intros V HV Hh. destruct (foreign_op _ _ Hf Hh) as [Hh0 Hrow].
    destruct (HV Hh0) as [?|(c&row&?&?&?&?&?)]; [by left|]. right. exists c, row. simpl. by rewrite Hrow.
  - destruct (publish_status_fields y DurUnsaved) as (?&?&?&?&Hg&Hj&?&Hp&?&?&?&Htu&?).
    set (y' := publish_durability_status y DurUnsaved) in *.
    assert (ext y y') as Hext by (by apply ext_same). assert (grows y y') as Hgr by (by apply grows_same).
    apply (inv_turn y y'); try done; [by rewrite Hg|rewrite Hj; apply Hinv|by rewrite Hp|].
    rewrite Htu. intros t pc Hpc. eapply turn_ok_grows; [done|done|]. by apply Hinv.
  - by apply inv_turn_begin.
  - by apply inv_checkpoint_call.
  - by eapply inv_checkpoint_step.
  - by eapply inv_turn_end.
Qed.

Lemma sys_start_inv content s router : sys_inv (sys_start writer content s router).
Proof.
  split; simpl; try done.
  - intros c Hc. by apply elem_of_nil in Hc.
  - intros c1 c2 Hc. by apply elem_of_nil in Hc.
  - intros Hn _. by left.
Qed.

Lemma sys_steps_inv y y' : rtc step y y' → sys_inv y → sys_inv y'.
Proof. induction 1 as [|? ? ? Hs _ IH]; [done|]. intros. by eapply IH, sys_step_inv. Qed.

(** ** Properties *)

(** C3: Clean means saved.  In every interleaving of save requests, dropped calls,
    abandoned writes, changes of the session, turns with their checkpoints, failing
    writes and other users of the store: when the session reports itself clean (and was
    not deleted) and its writer still owns it, then the store holds the encoding of a
    capture of the session taken at or after the state in which the latest save was
    requested, or of a checkpoint that a turn which began at or after that state asked
    for (the projection of the messages the turn passed, recorded as aborted;
    [clean_over_checkpoint] shows that this happens). *)
Theorem clean_means_saved content s router y :
  rtc step (sys_start writer content s router) y →
  persistence_health y = HClean → pp_deleted (y_persist y) = false → holds (y_store y) writer →
  (y_requested y = 0)%Z ∨
  ∃ row v base saved, st_sessions (y_store y) !! wid = Some row ∧
    ver_of y (y_requested y) ≤ v ∧ y_hist y !! (v - 1) = Some base ∧
    (saved = base ∨
     ∃ t messages, (t, messages) ∈ y_asked y ∧ tu_version t = v ∧ tu_base t = base ∧ saved = checkpoint_content t messages) ∧
    encode_session (content_record writer (row_generation row) saved) = Some (row_payload row).
Proof.
  intros Hsteps Hhealth Hdel Hh. apply sys_steps_inv in Hsteps as Hinv; [|apply sys_start_inv].
  unfold persistence_health in Hhealth. destruct (Z.ltb_spec (y_completed y) (y_requested y)); [done|].
  unfold health in Hhealth. rewrite Hdel in Hhealth.
  destruct (pp_superseded (y_persist y)) eqn:Esup; [done|].
  assert (¬ not_clean (y_persist y)) as Hn by (unfold not_clean; rewrite Hhealth, Hdel, Esup; naive_solver).
  pose proof (si_completed _ Hinv). replace (y_requested y) with (y_completed y) by lia.
  destruct (decide (y_completed y = 0)%Z) as [->|Hne]; [by left|]. right.
  destruct (si_clean _ Hinv Hn Hh) as [Hz|(c&row&Hc&Hrow&Hpay&Hgen&Hv)].
  - exfalso. unfold ver_of in Hz. destruct (Z.leb_spec (y_completed y) 0); [lia|].
    destruct (lookup_lt_is_Some_2 (y_regs y) (Z.to_nat (y_completed y - 1))) as [a Ha].
    { destruct Hinv. lia. }
    rewrite Ha in Hz. simpl in Hz. pose proof (si_regs_hist _ Hinv _ _ Ha). lia.
  - destruct (si_caps _ Hinv c Hc) as (_&base&_&Hhist&Hor).
    exists row, (cp_version c), base, (cp_content c). rewrite Hgen. by split_and!.
Qed.

(** A checkpoint is aligned with its messages: one client id per user turn, no more
    outcomes than user turns, and the outcome of the turn under way is [Aborted]. *)
Theorem checkpoint_is_aligned t messages :
  let c := checkpoint_content t messages in
  length (ct_client_user_message_ids c) = turn_count messages ∧
  length (ct_assistant_outcomes c) ≤ turn_count messages ∧
  (0 < turn_count messages → last (ct_assistant_outcomes c) = Some OutAborted).
Proof.
  simpl. set (outcomes := (if tu_retry t then _ else _) ++ [OutAborted]). split_and!.
  - unfold align_client_user_message_ids at 1. destruct (Nat.ltb_spec (turn_count messages)
      (length (if tu_retry t then align_client_user_message_ids (ct_client_user_message_ids (tu_base t)) (turn_count (ct_messages (tu_base t)))
       else align_client_user_message_ids (ct_client_user_message_ids (tu_base t)) (turn_count (ct_messages (tu_base t))) ++ [default "" (tu_client_id t)])));
      [rewrite length_drop|rewrite length_app, length_replicate]; lia.
  - rewrite length_drop. lia.
  - intros Hpos. unfold outcomes. rewrite length_app. simpl. rewrite drop_app_le by lia. by rewrite last_snoc.
Qed.

(** The error of a save does not keep the kind of the database's error. *)
Lemma save_error_kind p s c fault p' s' kind :
  save p s c fault = (p', s', Err kind) → kind = KOther.
Proof.
  unfold Persistence.save, save_write, save_acp_generation_result, save_record_result, write_record, put_record.
  repeat case_match; intros; by simplify_eq/=.
Qed.

(** A failed write is not retried.  Whatever error the database reports and
    however many attempts the policy still allows, the call that made the write
    gives up at once and reports the session as degraded: the store wraps every
    error so that its kind is lost, and no error counts as retryable. *)
Theorem failed_write_is_not_retried y i handled attempts delay c fault p s kind :
  y_tasks y !! i = Some (PcSave handled attempts delay c) →
  save (y_persist y) (y_store y) c fault = (p, s, Err kind) →
  ∃ y1 y2, task_step writer catalog policy y i fault = Some y1 ∧
    task_step writer catalog policy y1 i None = Some y2 ∧
    y_tasks y2 !! i = Some (PcPublish DurDegraded).
Proof.
  intros Ht Hs. pose proof (save_error_kind _ _ _ _ _ _ _ Hs) as ->.
  unfold task_step at 1. rewrite Ht, Hs. do 2 eexists. split; [done|].
  unfold task_step. simpl. rewrite lookup_insert, decide_True by done. simpl. split; [done|].
  simpl. by rewrite lookup_insert, decide_True.
Qed.

(** Running one call. *)
Fixpoint call_run (n : nat) y (i : nat) (fault : option SessionStoreError) : Sys :=
  match n with
  | 0 => y
  | S n => match task_step writer catalog policy y i fault with
           | Some y' => call_run n y' i fault
           | None => y
           end
  end.

Lemma call_run_steps n y i fault : rtc step y (call_run n y i fault).
Proof.
  revert y. induction n as [|n IH]; intros y; simpl; [apply rtc_refl|].
  destruct (task_step _ _ _ y i fault) eqn:E; [|apply rtc_refl].
  eapply rtc_l; [by eapply ys_task|]. apply IH.
Qed.

End persistence_proofs.

(** ** Concrete runs *)

#[local] Existing Instance bits_text.

Definition sample_writer : SessionWriter := mkWriter "s-1" "e1".

Definition sample_content (text : string) : Content :=
  mkContent "m" "off" [message_user text] "/w" ["c1"] [].

Definition sample_retry : PersistenceRetryPolicy := retry_policy_new 3 50 1000.

Definition sample_sys : Sys :=
  sys_start sample_writer (sample_content "hello") sample_store (router_new None).

(** One call that runs to its end. *)
Definition saved_sys : Sys :=
  call_run sample_writer (Some 80) sample_retry 20 (set_pc sample_sys 0 PcRegister) 0 None.

Lemma clean_means_saved_witness :
  (y_requested saved_sys = 0)%Z ∨
  ∃ row v base saved, st_sessions (y_store saved_sys) !! "s-1" = Some row ∧
    ver_of saved_sys (y_requested saved_sys) ≤ v ∧ y_hist saved_sys !! (v - 1) = Some base ∧
    (saved = base ∨
     ∃ t messages, (t, messages) ∈ y_asked saved_sys ∧ tu_version t = v ∧ tu_base t = base ∧ saved = checkpoint_content t messages) ∧
    encode_session (content_record sample_writer (row_generation row) saved) = Some (row_payload row).
Proof.
  apply (clean_means_saved sample_writer (Some 80) sample_retry (sample_content "hello")
    sample_store (router_new None) saved_sys).
  - eapply rtc_l; [by apply (ys_call _ _ _ sample_sys 0)|]. apply call_run_steps.
  - by vm_compute.
  - by vm_compute.
  - by vm_compute.
Defined.

(** The call at its first write, with two attempts left. *)
Definition writing_sys : Sys :=
  call_run sample_writer (Some 80) sample_retry 8 (set_pc sample_sys 0 PcRegister) 0 None.

Lemma failed_write_is_not_retried_witness :
  ∃ y1 y2,
    task_step sample_writer (Some 80) sample_retry writing_sys 0 (Some (SeIo KTimedOut)) = Some y1 ∧
    task_step sample_writer (Some 80) sample_retry y1 0 None = Some y2 ∧
    y_tasks y2 !! 0 = Some (PcPublish DurDegraded).
Proof.
  eapply (failed_write_is_not_retried sample_writer (Some 80) sample_retry writing_sys 0 1 1 50).
  - by vm_compute.
  - by vm_compute.
Defined.

(** *** Turns beside calls *)

Inductive RunAct := RCall (i : nat) | RTask (i : nat) | RBegin (client_id : option string) | RHook (messages : list Message) | RTurn.

Definition run_act (y : Sys) (a : RunAct) : option Sys :=
  match a with
  | RCall i => match y_tasks y !! i with None => Some (set_pc y i PcRegister) | Some _ => None end
  | RTask i => task_step sample_writer (Some 80) sample_retry y i None
  | RBegin client_id => match y_turn y with None => Some (turn_begin y client_id false) | Some _ => None end
  | RHook messages => match y_turn y with Some (t, CpIdle) => Some (checkpoint_call sample_retry y t messages) | _ => None end
  | RTurn => checkpoint_step sample_writer (Some 80) sample_retry y None
  end.

Fixpoint run_acts (y : Sys) (acts : list RunAct) : option Sys :=
  match acts with [] => Some y | a :: acts => y' ← run_act y a; run_acts y' acts end.

Lemma run_acts_steps acts : ∀ y y', run_acts y acts = Some y' → rtc (sys_step sample_writer (Some 80) sample_retry) y y'.
Proof.
  induction acts as [|a acts IH]; intros y y' Hr; simpl in Hr; [simplify_eq; constructor|].
  destruct (run_act y a) as [y1|] eqn:Ha; [|done]. eapply rtc_l; [|by apply IH].
  destruct a as [i|i|client_id|messages|]; simpl in Ha.
  - destruct (y_tasks y !! i) eqn:E; [done|]. injection Ha as <-. by constructor.
  - by eapply ys_task.
  - destruct (y_turn y) eqn:E; [done|]. injection Ha as <-. by constructor.
  - destruct (y_turn y) as [[t []]|] eqn:E; try done. injection Ha as <-. by apply ys_turn_call.
  - by eapply ys_turn_step.
Qed.

(** What the turn asks to save: the conversation and its new question. *)
Definition sample_turn_messages : list Message := [message_user "hello"; message_user "next"].

(** A call writes its capture; before it marks the session clean, a turn begins and writes
    a checkpoint. *)
Definition overtaken_acts : list RunAct :=
  [RCall 0] ++ replicate 9 (RTask 0) ++ [RBegin (Some "c2"); RHook sample_turn_messages; RTurn; RTurn] ++ replicate 3 (RTask 0).

(** The same, but the turn writes before the call does. *)
Definition stale_acts : list RunAct :=
  [RCall 0] ++ replicate 8 (RTask 0) ++ [RBegin (Some "c2"); RHook sample_turn_messages; RTurn; RTurn; RTask 0].

(** A session can report itself clean while the store holds the checkpoint of a turn that
    is under way: the call that was saved before marks the session clean over the mark of
    the checkpoint, which it does not look for. *)
Theorem clean_over_checkpoint :
  ∃ y row, rtc (sys_step sample_writer (Some 80) sample_retry) sample_sys y ∧
    persistence_health y = HClean ∧ is_some (y_turn y) = true ∧
    st_sessions (y_store y) !! "s-1" = Some row ∧
    (ps_assistant_outcomes <$> decode_session (row_payload row)) = Some [OutAborted] ∧
    (ps_messages <$> decode_session (row_payload row)) = Some sample_turn_messages.
Proof.
  destruct (run_acts sample_sys overtaken_acts) as [y|] eqn:Hr; [|by vm_compute in Hr].
  destruct (st_sessions (y_store y) !! "s-1") as [row|] eqn:Hrow; [|exfalso; vm_compute in Hr; injection Hr as <-; by vm_compute in Hrow].
  exists y, row. split; [by eapply run_acts_steps|]. vm_compute in Hr. injection Hr as <-. vm_compute in Hrow. injection Hrow as <-.
  split_and!; vm_compute; reflexivity.
Qed.

(** A capture can be found stale although its call holds the gate: a turn has written a
    checkpoint with a newer generation. *)
Theorem stale_capture_is_reachable :
  ∃ y handled attempts delay stored, rtc (sys_step sample_writer (Some 80) sample_retry) sample_sys y ∧
    y_owner y = Some 0 ∧ y_tasks y !! 0 = Some (PcOutcome handled attempts delay (Ok (SoSkippedStale stored))).
Proof.
  destruct (run_acts sample_sys stale_acts) as [y|] eqn:Hr; [|by vm_compute in Hr].
  exists y. do 4 eexists. split; [by eapply run_acts_steps|]. vm_compute in Hr. injection Hr as <-.
  split; vm_compute; reflexivity.
Qed.
