(* ===== verification/Views.v ===== *)
(** * The two views of a session: the daemon's snapshot and the frontend's state

    Models [SnapshotState], [fit_snapshot_to_frame] and [trim_oldest] of
    [src/src/session_daemon.rs] and the whole reducer of
    [src/src/frontend_state.rs].  The daemon folds the numbered events of a session
    into the snapshot it hands to clients that attach; a client installs such a
    snapshot and folds the events after it.  Both use the timeline reducer of
    [Timeline], so the theorems here rest on the unbounded timeline that reducer
    refines.

    The JSON encoder that measures a frame is a parameter ([encode]). *)

From stdpp Require Import base numbers list strings gmap sorting.
From S2P Require Import Prelude RustStr Protocol Timeline Router.

(** ** The daemon's maintained snapshot *)

Record SnapshotState := mkSnapshotState {
  sn_snapshot : SessionSnapshot;
  sn_max_entries : nat;
  sn_timeline : TimelineReducer;
}.

(** Also returns whether anything was dropped; every caller ignores it. *)
Definition trim_oldest {A : Type} (entries : list A) (max_entries : nat) : list A * bool :=
  let excess := length entries - max_entries in
  (if 0 <? excess then drop excess entries else entries, 0 <? excess).

Definition with_runtime_options (s : SessionSnapshot) (o : list RuntimeOption) : SessionSnapshot :=
  mkSnapshot (ss_session_id s) (ss_seq s) (ss_turn_status s) (ss_durability_status s)
    (ss_timeline s) (ss_active_tools s) (ss_history_window s) (ss_pending_approvals s)
    o (ss_context_usage s).

Definition with_approvals (s : SessionSnapshot) (a : list ApprovalRequest) : SessionSnapshot :=
  mkSnapshot (ss_session_id s) (ss_seq s) (ss_turn_status s) (ss_durability_status s)
    (ss_timeline s) (ss_active_tools s) (ss_history_window s) a (ss_runtime_options s)
    (ss_context_usage s).

Definition with_seq (s : SessionSnapshot) (seq : Z) : SessionSnapshot :=
  mkSnapshot (ss_session_id s) seq (ss_turn_status s) (ss_durability_status s)
    (ss_timeline s) (ss_active_tools s) (ss_history_window s) (ss_pending_approvals s)
    (ss_runtime_options s) (ss_context_usage s).

Definition with_turn_status (s : SessionSnapshot) (t : TurnStatus) : SessionSnapshot :=
  mkSnapshot (ss_session_id s) (ss_seq s) t (ss_durability_status s)
    (ss_timeline s) (ss_active_tools s) (ss_history_window s) (ss_pending_approvals s)
    (ss_runtime_options s) (ss_context_usage s).

Definition with_durability (s : SessionSnapshot) (d : DurabilityStatus) : SessionSnapshot :=
  mkSnapshot (ss_session_id s) (ss_seq s) (ss_turn_status s) d
    (ss_timeline s) (ss_active_tools s) (ss_history_window s) (ss_pending_approvals s)
    (ss_runtime_options s) (ss_context_usage s).

Definition with_usage (s : SessionSnapshot) (u : option ContextUsage) : SessionSnapshot :=
  mkSnapshot (ss_session_id s) (ss_seq s) (ss_turn_status s) (ss_durability_status s)
    (ss_timeline s) (ss_active_tools s) (ss_history_window s) (ss_pending_approvals s)
    (ss_runtime_options s) u.

Definition with_history (s : SessionSnapshot) (t : list TimelineEntry) (a : list ActiveToolState)
    (w : HistoryWindow) : SessionSnapshot :=
  mkSnapshot (ss_session_id s) (ss_seq s) (ss_turn_status s) (ss_durability_status s)
    t a w (ss_pending_approvals s) (ss_runtime_options s) (ss_context_usage s).

Definition sync_timeline (st : SnapshotState) : SnapshotState :=
  mkSnapshotState
    (with_history (sn_snapshot st) (tl_timeline (sn_timeline st)) (tl_active_tools (sn_timeline st))
       (tl_history_window (sn_timeline st)))
    (sn_max_entries st) (sn_timeline st).

(** [SnapshotState::from_snapshot]. *)
Definition from_snapshot (snapshot : SessionSnapshot) (max_entries : nat) : SnapshotState :=
  let max_entries := max_entries `max` 1 in
  let snapshot := with_runtime_options snapshot
                    (trim_oldest (ss_runtime_options snapshot) max_entries).1 in
  let timeline := from_parts (ss_timeline snapshot) (ss_active_tools snapshot)
                    (ss_history_window snapshot) max_entries in
  sync_timeline (mkSnapshotState (with_history snapshot [] [] (ss_history_window snapshot))
                   max_entries timeline).

(** The approvals list under an event; the daemon and the frontend have the
    same three arms. *)
Definition add_approval (pending : list ApprovalRequest) (request : ApprovalRequest)
    : list ApprovalRequest :=
  if existsb (λ a, bool_decide (ar_id a = ar_id request)) pending then pending
  else pending ++ [request].

Definition remove_approval (pending : list ApprovalRequest) (approval_id : string)
    : list ApprovalRequest :=
  List.filter (λ a, negb (bool_decide (ar_id a = approval_id))) pending.

Definition set_deadline (deadline : Z) (paused : bool) (a : ApprovalRequest) : ApprovalRequest :=
  mkApprovalRequest (ar_id a) (ar_tool_call_id a) (ar_tool a) (ar_detail a)
    (ar_allow_always_available a) (Some deadline) paused.

Definition change_deadline (pending : list ApprovalRequest) (approval_id : string)
    (deadline : Z) (paused : bool) : list ApprovalRequest :=
  update_first (λ a, bool_decide (ar_id a = approval_id)) (set_deadline deadline paused) pending.

(** [SnapshotState::apply]. *)
Definition snapshot_apply (st : SnapshotState) (seq : Z) (event : SessionEvent) : SnapshotState :=
  let snapshot := with_seq (sn_snapshot st) seq in
  let timeline := apply (sn_timeline st) event in
  let snapshot :=
    match event with
    | UserMessage _ _ | AssistantDelta _ | ThoughtDelta _ | AssistantDone _
    | ToolCallStarted _ _ _ _ | ToolCallUpdated _ _ | ToolCallFinished _ _ _ => snapshot
    | SessionEnding _ => snapshot
    | ApprovalRequested request =>
        with_approvals snapshot (add_approval (ss_pending_approvals snapshot) request)
    | ApprovalResolved approval_id _ _ =>
        with_approvals snapshot (remove_approval (ss_pending_approvals snapshot) approval_id)
    | ApprovalDeadlineChanged approval_id deadline paused =>
        with_approvals snapshot
          (change_deadline (ss_pending_approvals snapshot) approval_id deadline paused)
    | RuntimeOptionsChanged options =>
        with_runtime_options snapshot (trim_oldest options (sn_max_entries st)).1
    | ContextUsageChanged usage => with_usage snapshot (Some usage)
    | ConversationCleared => with_approvals snapshot []
    | TurnStatusChanged status => with_turn_status snapshot status
    | DurabilityStatusChanged status => with_durability snapshot status
    end in
  sync_timeline (mkSnapshotState snapshot (sn_max_entries st) timeline).

(** The handler of the daemon's own subscription, over a run of numbered events. *)
Definition snapshot_run (st : SnapshotState) (events : list (Z * SessionEvent)) : SnapshotState :=
  fold_left (λ st p, snapshot_apply st p.1 p.2) events st.

(** ** The frontend's reducer *)

Record ViewLine := mkLine { vl_role : TranscriptRole; vl_text : string; vl_open : bool }.

Definition committed (role : TranscriptRole) (text : string) : ViewLine := mkLine role text false.

Inductive ApplyOutcome := Applied | Duplicate | Gap (expected_seq : Z).

#[export] Instance ApplyOutcome_eq_dec : EqDecision ApplyOutcome.
Proof. solve_decision. Defined.

Record ViewState := mkView {
  vw_session_id : string;
  vw_last_seq : Z;
  vw_turn_status : TurnStatus;
  vw_durability_status : DurabilityStatus;
  vw_timeline : TimelineReducer;
  vw_transcript : list ViewLine;
  vw_tool_calls : list ToolCallState;
  vw_pending_approvals : list ApprovalRequest;
  vw_runtime_options : list RuntimeOption;
  vw_context_usage : option ContextUsage;
  vw_max_scrollback_entries : nat;
  vw_ending_reason : option string;
}.

(** [ViewState::with_scrollback_limit]. *)
Definition with_scrollback_limit (session_id : string) (max_scrollback_entries : nat) : ViewState :=
  mkView session_id 0 TurnIdle DurSaved (new max_scrollback_entries) [] [] [] [] None
    (max_scrollback_entries `max` 1) None.

Definition outcome_note (outcome : AssistantOutcome) : option string :=
  match outcome with
  | OutCompleted => None
  | OutErrored _ message => Some ("[turn errored: " +:+ message +:+ "]")
  | OutRefused => Some "[turn refused]"
  | OutAborted => Some "[turn interrupted]"
  | OutMaxTokens => Some "[turn hit the output token limit]"
  end.

(** The transcript line and the tool call an entry is shown as. *)
Definition line_of (r : TimelineReducer) (e : TimelineEntry) : option ViewLine :=
  match te_entry e with
  | EkUser text _ => Some (committed TrUser text)
  | EkAssistant text _ => Some (mkLine TrAssistant text (is_open r (te_id e)))
  | EkThought text _ => Some (mkLine TrThought text (is_open r (te_id e)))
  | EkSystem text _ => Some (committed TrSystem text)
  | EkOutcome outcome => committed TrSystem <$> outcome_note outcome
  | EkTool _ _ _ _ _ _ => None
  end.

Definition call_of (e : TimelineEntry) : option ToolCallState :=
  match te_entry e with
  | EkTool tool_call_id name title status output _ =>
      Some (mkToolCallState tool_call_id name title status output)
  | _ => None
  end.

Definition sync_projection (v : ViewState) : ViewState :=
  let r := vw_timeline v in
  mkView (vw_session_id v) (vw_last_seq v) (vw_turn_status v) (vw_durability_status v) r
    (omap (line_of r) (tl_timeline r)) (omap call_of (tl_timeline r))
    (vw_pending_approvals v) (vw_runtime_options v) (vw_context_usage v)
    (vw_max_scrollback_entries v) (vw_ending_reason v).

Definition with_reducer (v : ViewState) (r : TimelineReducer) : ViewState :=
  mkView (vw_session_id v) (vw_last_seq v) (vw_turn_status v) (vw_durability_status v) r
    (vw_transcript v) (vw_tool_calls v) (vw_pending_approvals v) (vw_runtime_options v)
    (vw_context_usage v) (vw_max_scrollback_entries v) (vw_ending_reason v).

Definition clear_transcript (v : ViewState) : ViewState :=
  sync_projection (with_reducer v (clear (vw_timeline v))).

Definition push_system_message (v : ViewState) (text : string) : ViewState :=
  sync_projection (with_reducer v (push_system (vw_timeline v) text)).

Definition apply_attach_watermark (v : ViewState) (session_id : string) (seq : Z) : ViewState :=
  mkView session_id seq TurnIdle DurSaved (clear (vw_timeline v)) [] [] [] [] None
    (vw_max_scrollback_entries v) None.

Definition apply_snapshot (v : ViewState) (snapshot : SessionSnapshot) : ViewState :=
  let v' := mkView (ss_session_id snapshot) (ss_seq snapshot) (ss_turn_status snapshot)
    (ss_durability_status snapshot)
    (from_parts (ss_timeline snapshot) (ss_active_tools snapshot) (ss_history_window snapshot)
       (vw_max_scrollback_entries v))
    (vw_transcript v) (vw_tool_calls v) (ss_pending_approvals snapshot)
    (ss_runtime_options snapshot) (ss_context_usage snapshot)
    (vw_max_scrollback_entries v) (vw_ending_reason v) in
  let v' := sync_projection v' in
  mkView (vw_session_id v') (vw_last_seq v') (vw_turn_status v') (vw_durability_status v')
    (vw_timeline v') (vw_transcript v') (vw_tool_calls v') (vw_pending_approvals v')
    (vw_runtime_options v') (vw_context_usage v') (vw_max_scrollback_entries v') None.

Definition apply_event_body (v : ViewState) (event : SessionEvent) : ViewState :=
  let '(mkView sid seq turn dur tl tr calls pending options usage limit ending) := v in
  match event with
  | UserMessage _ _ | AssistantDelta _ | ThoughtDelta _ | AssistantDone _
  | ToolCallStarted _ _ _ _ | ToolCallUpdated _ _ | ToolCallFinished _ _ _ => v
  | ApprovalRequested request =>
      mkView sid seq turn dur tl tr calls (add_approval pending request) options usage limit ending
  | ApprovalResolved approval_id _ _ =>
      mkView sid seq turn dur tl tr calls (remove_approval pending approval_id) options usage limit
        ending
  | ApprovalDeadlineChanged approval_id deadline paused =>
      mkView sid seq turn dur tl tr calls (change_deadline pending approval_id deadline paused)
        options usage limit ending
  | RuntimeOptionsChanged options =>
      mkView sid seq turn dur tl tr calls pending options usage limit ending
  | ContextUsageChanged usage =>
      mkView sid seq turn dur tl tr calls pending options (Some usage) limit ending
  | ConversationCleared => mkView sid seq turn dur tl tr calls [] options usage limit None
  | TurnStatusChanged status =>
      mkView sid seq status dur tl tr calls pending options usage limit ending
  | DurabilityStatusChanged status =>
      mkView sid seq turn status tl tr calls pending options usage limit ending
  | SessionEnding reason =>
      mkView sid seq turn dur tl tr calls pending options usage limit (Some reason)
  end.

(** [last_seq + 1] cannot overflow: [seq] is a larger [u64]. *)
Definition apply_event (v : ViewState) (seq : Z) (event : SessionEvent)
    : ViewState * ApplyOutcome :=
  if (seq <=? vw_last_seq v)%Z then (v, Duplicate)
  else
    let expected := (vw_last_seq v + 1)%Z in
    if negb (seq =? expected)%Z then (v, Gap expected)
    else
      let v1 := mkView (vw_session_id v) seq (vw_turn_status v) (vw_durability_status v)
        (apply (vw_timeline v) event) (vw_transcript v) (vw_tool_calls v)
        (vw_pending_approvals v) (vw_runtime_options v) (vw_context_usage v)
        (vw_max_scrollback_entries v) (vw_ending_reason v) in
      (sync_projection (apply_event_body v1 event), Applied).

(** A client that is fed numbered events, and what it answered to each. *)
Fixpoint apply_events (v : ViewState) (events : list (Z * SessionEvent))
    : ViewState * list ApplyOutcome :=
  match events with
  | [] => (v, [])
  | (seq, event) :: rest =>
      let '(v1, o) := apply_event v seq event in
      let '(v2, os) := apply_events v1 rest in
      (v2, o :: os)
  end.

(** ** Fitting a snapshot into a transport frame *)

(** Stage one: a tool's output is dropped and the entry says so. *)
Definition drop_tool_output (e : TimelineEntry) : TimelineEntry :=
  match te_entry e with
  | EkTool tool_call_id name title status (Some _) _ =>
      mkEntry (te_id e) (te_order e) (EkTool tool_call_id name title status None true)
  | _ => e
  end.

(** Stage two: texts, tool names and titles are emptied and the entry says so. *)
Definition drop_text (e : TimelineEntry) : TimelineEntry :=
  let is_empty (text : string) := bool_decide (text = ""%string) in
  mkEntry (te_id e) (te_order e)
    match te_entry e with
    | EkUser text c => if is_empty text then EkUser text c else EkUser "" true
    | EkAssistant text c => if is_empty text then EkAssistant text c else EkAssistant "" true
    | EkThought text c => if is_empty text then EkThought text c else EkThought "" true
    | EkSystem text c => if is_empty text then EkSystem text c else EkSystem "" true
    | EkTool id name title status output c =>
        if negb (is_empty name) || negb (is_empty title)
        then EkTool id "" "" status output true
        else EkTool id name title status output c
    | EkOutcome outcome => EkOutcome outcome
    end.

Definition with_entries (s : SessionSnapshot) (t : list TimelineEntry) : SessionSnapshot :=
  with_history s t (ss_active_tools s) (ss_history_window s).

Definition sync_history_window (s : SessionSnapshot) : SessionSnapshot :=
  let w := ss_history_window s in
  with_history s (ss_timeline s) (ss_active_tools s)
    (mkWindow (hw_truncated_before w) (length (ss_timeline s))
       (Some (u64_saturating_add (hw_truncated_before w) (Z.of_nat (length (ss_timeline s)))))
       (hw_continuation w)).

(** The snapshot without its [n] oldest entries. *)
Definition keep_from (s : SessionSnapshot) (n : nat) : SessionSnapshot :=
  let w := ss_history_window s in
  sync_history_window
    (with_history s (drop n (ss_timeline s)) (ss_active_tools s)
       (mkWindow (u64_saturating_add (hw_truncated_before w) (Z.of_nat n)) (hw_retained w)
          (hw_total w) (hw_continuation w))).

Section fit.
Context (encode : SessionSnapshot → result nat string) (max_frame_bytes : nat).

Definition fits (s : SessionSnapshot) : result bool string :=
  match encode s with
  | Err error => Err ("snapshot serialization failed: " +:+ error)
  | Ok len => Ok (len <=? max_frame_bytes)
  end.

(** The binary search; [None] when the fuel is used up. *)
Fixpoint search (fuel : nat) (s : SessionSnapshot) (low high : nat) : option (result nat string) :=
  match fuel with
  | O => None
  | S fuel =>
      if low <? high then
        let middle := low + (high - low) / 2 in
        match fits (keep_from s middle) with
        | Err e => Some (Err e)
        | Ok true => search fuel s low middle
        | Ok false => search fuel s (middle + 1) high
        end
      else Some (Ok low)
  end.

Definition too_large_message : string :=
  "session snapshot exceeds the configured " +:+ u64_to_string (Z.of_nat max_frame_bytes)
  +:+ "-byte frame limit".

Definition fit_snapshot_to_frame (snapshot : SessionSnapshot) : option (result SessionSnapshot string) :=
  match fits snapshot with
  | Err e => Some (Err e)
  | Ok true => Some (Ok snapshot)
  | Ok false =>
      let snapshot := with_entries snapshot (map drop_tool_output (ss_timeline snapshot)) in
      match fits snapshot with
      | Err e => Some (Err e)
      | Ok true => Some (Ok snapshot)
      | Ok false =>
          let snapshot := with_entries snapshot (map drop_text (ss_timeline snapshot)) in
          match fits snapshot with
          | Err e => Some (Err e)
          | Ok true => Some (Ok snapshot)
          | Ok false =>
              let n := length (ss_timeline snapshot) in
              match search (S n) snapshot 0 n with
              | None => None
              | Some (Err e) => Some (Err e)
              | Some (Ok low) =>
                  let snapshot := keep_from snapshot low in
                  match fits snapshot with
                  | Err e => Some (Err e)
                  | Ok true => Some (Ok snapshot)
                  | Ok false => Some (Err too_large_message)
                  end
              end
          end
      end
  end.

End fit.

(** ** What the two views agree on *)

(** The part of a session that is not its timeline, and how events change it. *)
Record SessionFacts := mkFacts {
  fa_turn_status : TurnStatus;
  fa_durability_status : DurabilityStatus;
  fa_pending_approvals : list ApprovalRequest;
  fa_runtime_options : list RuntimeOption;
  fa_context_usage : option ContextUsage;
}.

Definition facts_event (f : SessionFacts) (event : SessionEvent) : SessionFacts :=
  let '(mkFacts turn dur pending options usage) := f in
  match event with
  | ApprovalRequested request => mkFacts turn dur (add_approval pending request) options usage
  | ApprovalResolved id _ _ => mkFacts turn dur (remove_approval pending id) options usage
  | ApprovalDeadlineChanged id deadline paused =>
      mkFacts turn dur (change_deadline pending id deadline paused) options usage
  | RuntimeOptionsChanged options => mkFacts turn dur pending options usage
  | ContextUsageChanged usage => mkFacts turn dur pending options (Some usage)
  | ConversationCleared => mkFacts turn dur [] options usage
  | TurnStatusChanged status => mkFacts status dur pending options usage
  | DurabilityStatusChanged status => mkFacts turn status pending options usage
  | _ => f
  end.

Definition snapshot_facts (s : SessionSnapshot) : SessionFacts :=
  mkFacts (ss_turn_status s) (ss_durability_status s) (ss_pending_approvals s)
    (ss_runtime_options s) (ss_context_usage s).

Definition view_facts (v : ViewState) : SessionFacts :=
  mkFacts (vw_turn_status v) (vw_durability_status v) (vw_pending_approvals v)
    (vw_runtime_options v) (vw_context_usage v).

(** The daemon keeps only the newest [m] runtime options. *)
Definition trim_facts (m : nat) (f : SessionFacts) : SessionFacts :=
  mkFacts (fa_turn_status f) (fa_durability_status f) (fa_pending_approvals f)
    (lastn m (fa_runtime_options f)) (fa_context_usage f).

(** The unbounded timeline with every id moved by [k]. *)
Definition shift_entry (k : Z) (e : TimelineEntry) : TimelineEntry :=
  mkEntry (te_id e + k) (te_order e + k) (te_entry e).

Definition shift (k : Z) (s : SpecTimeline) : SpecTimeline :=
  mkSpec (map (shift_entry k) (sp_entries s)) (sp_next s + k) (sp_open s).

Definition close_spec (s : SpecTimeline) : SpecTimeline := mkSpec (sp_entries s) (sp_next s) false.

(** The next id is one past the last entry's, and an empty timeline is closed. *)
Definition tight (s : SpecTimeline) : Prop :=
  (sp_entries s = [] ∧ sp_open s = false) ∨ te_id <$> last (sp_entries s) = Some (sp_next s - 1)%Z.

(** An active tool without the id of its entry. *)
Definition tool_content (t : ActiveToolState) : string * string * string * ToolCallStateStatus * bool :=
  (at_tool_call_id t, at_name t, at_title t, at_status t, at_content_truncated t).

(** ** Lemmas: the facts *)

Lemma trim_oldest_lastn {A} (l : list A) m : (trim_oldest l m).1 = lastn m l.
Proof.
  unfold trim_oldest, lastn. simpl. destruct (Nat.ltb_spec 0 (length l - m)); [done|].
  by replace (length l - m) with 0 by lia.
Qed.

Lemma lastn_idem {A} m (l : list A) : lastn m (lastn m l) = lastn m l.
Proof. pose proof (lastn_lastn_app m l []) as H. by rewrite !app_nil_r in H. Qed.

Lemma lastn_lastn {A} c m (l : list A) : c ≤ m → lastn c (lastn m l) = lastn c l.
Proof.
  intros. unfold lastn at 1 3. rewrite length_lastn. unfold lastn. rewrite drop_drop. f_equal. lia.
Qed.

Lemma map_lastn {A B} (g : A → B) n l : lastn n (map g l) = map g (lastn n l).
Proof. unfold lastn. by rewrite length_map, skipn_map. Qed.

Lemma trim_facts_event m f e : trim_facts m (facts_event (trim_facts m f) e) = trim_facts m (facts_event f e).
Proof. destruct f, e; unfold trim_facts; simpl; by rewrite ?lastn_idem. Qed.

Lemma snapshot_apply_facts st seq e f :
  snapshot_facts (sn_snapshot st) = trim_facts (sn_max_entries st) f →
  snapshot_facts (sn_snapshot (snapshot_apply st seq e)) =
  trim_facts (sn_max_entries st) (facts_event f e).
Proof.
  destruct st as [[] m r], f; unfold snapshot_facts, trim_facts; simpl. intros [= -> -> -> -> ->].
  destruct e; simpl; try done. f_equal. apply trim_oldest_lastn.
Qed.

Lemma snapshot_apply_rest st seq e :
  let st' := snapshot_apply st seq e in
  sn_max_entries st' = sn_max_entries st ∧ sn_timeline st' = apply (sn_timeline st) e ∧
  ss_seq (sn_snapshot st') = seq ∧
  into_parts (sn_timeline st') =
    (ss_timeline (sn_snapshot st'), ss_active_tools (sn_snapshot st'),
     ss_history_window (sn_snapshot st')).
Proof. by destruct e. Qed.

Lemma apply_event_next v e :
  let v' := (apply_event v (vw_last_seq v + 1) e).1 in
  (apply_event v (vw_last_seq v + 1) e).2 = Applied ∧
  vw_last_seq v' = (vw_last_seq v + 1)%Z ∧
  vw_timeline v' = apply (vw_timeline v) e ∧
  view_facts v' = facts_event (view_facts v) e ∧
  vw_max_scrollback_entries v' = vw_max_scrollback_entries v.
Proof.
  unfold apply_event. destruct (Z.leb_spec (vw_last_seq v + 1) (vw_last_seq v)); [lia|].
  rewrite Z.eqb_refl. simpl. by destruct v, e.
Qed.

(** ** Lemmas: renumbering the unbounded timeline *)

Lemma update_last_map {A} (p : A → bool) f (g : A → A) l :
  (∀ x, p (g x) = p x) → (∀ x, f (g x) = g (f x)) →
  update_last p f (map g l) = map g (update_last p f l).
Proof.
  intros Hp Hf. assert (∀ k, existsb p (map g k) = existsb p k) as Hex.
  { induction k as [|y k IH]; [done|]. simpl. by rewrite Hp, IH. }
  induction l as [|x l IH]; [done|]. simpl. rewrite Hex, Hp.
  destruct (existsb p l); simpl; [by rewrite IH|]. destruct (p x); simpl; by rewrite ?Hf.
Qed.

Lemma map_shift_0 l : map (shift_entry 0) l = l.
Proof.
  rewrite <- map_id. apply map_ext. intros [i o ?]. unfold shift_entry; simpl. f_equal; lia.
Qed.

Lemma spec_push_shift k s kd o : spec_push (shift k s) kd o = shift k (spec_push s kd o).
Proof.
  unfold spec_push, shift; simpl. rewrite map_app. simpl. unfold shift_entry at 3. simpl.
  f_equal. lia.
Qed.

Lemma spec_append_shift k s kd t : spec_append (shift k s) kd t = shift k (spec_append s kd t).
Proof.
  unfold spec_append. simpl. rewrite fmap_last.
  destruct (sp_open s); [|apply spec_push_shift].
  destruct (last (sp_entries s)) as [e|]; simpl; [|apply spec_push_shift].
  destruct (append_to kd t (te_entry e)); [|apply spec_push_shift].
  unfold shift; simpl. by rewrite map_app, length_map, firstn_map.
Qed.

Lemma spec_op_shift k s op : spec_op (shift k s) op = shift k (spec_op s op).
Proof.
  assert (∀ id st o, spec_update (shift k s) id st o = shift k (spec_update s id st o)) as Hupd.
  { intros id st o. unfold spec_update, shift; simpl. f_equal. apply update_last_map; [done|].
    intros [? ? []]; done. }
  destruct op as [[]|?|? ? ?|? ? ?|?|]; simpl;
    auto using spec_push_shift, spec_append_shift.
  unfold shift; simpl. f_equal. rewrite !map_map. apply map_ext.
  intros [? ? []]; unfold cancel_entry, active_of; simpl; by repeat case_match.
Qed.

Lemma spec_ops_shift k s ops : spec_ops (shift k s) ops = shift k (spec_ops s ops).
Proof.
  revert s. induction ops as [|op ops IH]; intros s; simpl; [done|]. by rewrite spec_op_shift, IH.
Qed.

(** ** Lemmas: a reducer rebuilt from the parts of another one *)

Lemma tight_op s op : tight s → tight (spec_op s op).
Proof.
  intros Ht.
  assert (∀ k o, tight (spec_push s k o)) as Hpush.
  { intros. right. simpl. rewrite last_snoc. simpl. f_equal. lia. }
  assert (∀ id st o, tight (spec_update s id st o)) as Hupd.
  { intros id st o. destruct Ht as [[Ht Ho]|Ht]; [left; unfold spec_update; simpl; by rewrite Ht|right].
    unfold spec_update; simpl. rewrite <- fmap_last in *. rewrite <- Ht. f_equal.
    apply map_update_last. intros; apply set_tool_status_id. }
  assert (∀ k t, tight (spec_append s k t)) as Happ.
  { intros k t. unfold spec_append. destruct (sp_open s); [|apply Hpush].
    destruct (last (sp_entries s)) as [e|] eqn:He; [|apply Hpush].
    destruct (append_to k t (te_entry e)); [|apply Hpush].
    right. simpl. rewrite last_snoc. simpl. destruct Ht as [[Ht _]|Ht]; [by rewrite Ht in He|].
    rewrite He in Ht. done. }
  destruct op as [[]|?|? ? ?|? ? ?|?|]; simpl; auto; [by left|].
  destruct Ht as [[Ht Ho]|Ht]; [left; simpl; by rewrite Ht|right].
  simpl. rewrite <- fmap_last in *. rewrite <- Ht. f_equal.
  change (map te_id (map cancel_entry (sp_entries s)) = map te_id (sp_entries s)).
  rewrite map_map. apply map_ext, cancel_entry_id.
Qed.

Lemma spec_ops_next s ops : (sp_next (spec_ops s ops) ≤ sp_next s + Z.of_nat (length ops))%Z.
Proof.
  revert s. induction ops as [|op ops IH]; intros s; simpl; [lia|].
  pose proof (spec_op_next s op). specialize (IH (spec_op s op)). lia.
Qed.

Lemma tight_open s m r : refines m s r → tight s → tl_open_entry_id r = None → close_spec s = s.
Proof.
  intros Hr Ht Ho. rewrite (rf_open _ _ _ Hr) in Ho. destruct s as [l n []]; [|done].
  simpl in *. destruct Ht as [[_ ?]|Ht]; [done|]. simpl in Ht. by rewrite Ht in Ho.
Qed.

Lemma tight_ops s ops : tight s → tight (spec_ops s ops).
Proof. revert s. induction ops; intros; simpl; auto using tight_op. Qed.

Lemma ids_inj s e e' :
  spec_wf s → e ∈ sp_entries s → e' ∈ sp_entries s → te_id e = te_id e' → e = e'.
Proof.
  intros Hwf (l1&l2&Heq)%list_elem_of_split He' Hid. rewrite Heq in He'.
  rewrite elem_of_app, elem_of_cons in He'.
  destruct He' as [He'|[->|He']]; [|done|];
    destruct (sorted_ids_split s l1 e l2 e' Hwf Heq); eauto.
Qed.

Lemma update_last_id {A} (p : A → bool) f l :
  (∀ x, x ∈ l → p x = true → f x = x) → update_last p f l = l.
Proof.
  induction l as [|x l IH]; intros Hf; [done|]. simpl.
  rewrite IH by (intros; apply Hf; [by right|done]).
  destruct (existsb p l); [done|]. destruct (p x) eqn:Hx; [|done]. rewrite Hf; [done|by left|done].
Qed.

(** Writing the recorded status of the active tools changes nothing. *)
Lemma restore_active_status s n r ts :
  spec_wf s → tl_timeline r = lastn n (sp_entries s) →
  (∀ t, t ∈ ts → t ∈ live_tools (sp_entries s)) →
  fold_left (λ r t, update_occurrence r (at_occurrence_id t) (at_status t) None) ts r = r.
Proof.
  intros Hwf Hr. induction ts as [|t ts IH]; intros Hts; simpl; [done|].
  assert (update_occurrence r (at_occurrence_id t) (at_status t) None = r) as ->.
  { unfold update_occurrence. rewrite update_last_id; [by destruct r|].
    rewrite Hr. intros e He Hp. apply elem_of_lastn in He. bool_to_prop.
    assert (t ∈ live_tools (sp_entries s)) as (e'&He'&Ha)%list_elem_of_omap by (apply Hts; by left).
    pose proof (active_of_Some _ _ Ha) as [Hid _].
    rewrite (ids_inj s e e') by (done || lia). unfold active_of in Ha. unfold set_tool_status.
    destruct e' as [? ? []]; simpl in *; repeat case_match; simplify_eq; by rewrite <- Ha. }
  apply IH. intros; apply Hts; by right.
Qed.

Lemma foldr_max_eq b l : (∀ x, x ∈ l → (x ≤ b)%Z) → b ∈ l → (0 ≤ b)%Z → foldr Z.max 0%Z l = b.
Proof.
  intros Hle Hin Hb.
  assert (∀ k, (∀ x, x ∈ k → (x ≤ b)%Z) → (foldr Z.max 0 k ≤ b)%Z) as Hub.
  { induction k as [|y k IH]; intros Hk; simpl; [done|].
    assert (y ≤ b)%Z by (apply Hk; by left).
    assert (foldr Z.max 0 k ≤ b)%Z by (apply IH; intros; apply Hk; by right). lia. }
  apply Z.le_antisymm; [by apply Hub|]. clear Hub Hle.
  induction Hin as [|x y l ? IH]; simpl; [lia|]. lia.
Qed.

Lemma shift_wf k s :
  spec_wf s → sp_entries s = [] ∨ k = 0%Z → (1 ≤ sp_next s + k)%Z → spec_wf (shift k s).
Proof.
  intros [Hs Hi Hn] Hk Hpos. destruct Hk as [He| ->].
  - unfold shift. rewrite He. split; simpl; [constructor|constructor|lia].
  - unfold shift. rewrite map_shift_0. split; simpl; [done| |lia].
    eapply Forall_impl; [exact Hi|]. simpl. intros. lia.
Qed.

(** The next id a reducer computes from the parts it is given. *)
Lemma next_id_of_parts m s :
  0 < m → spec_wf s → tight s → sp_entries s ≠ [] →
  foldr Z.max 0%Z (map (λ e, Z.max (te_id e) (te_order e)) (lastn m (sp_entries s))
                   ++ map at_occurrence_id (live_tools (sp_entries s))) = (sp_next s - 1)%Z.
Proof.
  intros Hm Hwf [[Ht _]|Ht] Hne; [done|]. pose proof (wf_ids _ Hwf) as Hi. rewrite Forall_forall in Hi.
  destruct (last (sp_entries s)) as [e|] eqn:He; simplify_eq/=.
  assert (Hin : e ∈ lastn m (sp_entries s)) by (apply last_Some_elem_of; by rewrite last_lastn).
  pose proof (Hi e (elem_of_lastn _ _ _ Hin)).
  apply foldr_max_eq; [| |lia].
  - intros x. rewrite elem_of_app. intros [Hx|Hx].
    + apply (list_elem_of_fmap_1 (λ e, Z.max (te_id e) (te_order e))) in Hx as (y&->&Hy%elem_of_lastn).
      apply Hi in Hy. simpl. lia.
    + apply (list_elem_of_fmap_1 at_occurrence_id) in Hx as (t&->&(y&Hy%Hi&->)%live_tools_ids). lia.
  - apply elem_of_app. left. apply list_elem_of_fmap. exists e. split; [|done]. lia.
Qed.

(** Rebuilding a reducer from the parts of one that refines [s], with a limit that
    is not larger: it shows the same timeline, closed, and numbers on from there
    (from 1 again when the timeline is empty). *)
Lemma reattach m c s r :
  refines m s r → spec_wf s → tight s → (sp_next s ≤ U64_MAX)%Z → 0 < c ≤ m →
  ∃ k, (sp_entries s = [] ∨ k = 0%Z) ∧ (k ≤ 0)%Z ∧
    let s' := shift k (close_spec s) in
    refines c s' (from_parts (tl_timeline r) (tl_active_tools r) (tl_history_window r) c) ∧
    spec_wf s' ∧ tight s'.
Proof.
  intros Hr Hwf Ht Hmax Hc. pose proof (wf_next _ Hwf) as Hlen.
  exists (if decide (sp_entries s = []) then 1 - sp_next s else 0)%Z.
  destruct (decide (sp_entries s = [])) as [He|He].
  - cbv zeta. split_and!; [by left|lia| |apply shift_wf; [by apply wf_reopen|by left|simpl; lia]|
      left; simpl; by rewrite He].
    rewrite (rf_timeline _ _ _ Hr), (rf_active _ _ _ Hr), (rf_window _ _ _ Hr). unfold close_spec, shift.
    rewrite He. replace (lastn m []) with (@nil TimelineEntry) by (by unfold lastn).
    simpl. unfold from_parts, trim_to_limit, sync_window, with_window; simpl.
    split; simpl; rewrite ?Nat.min_0_r; try done; [lia|].
    change (u64_saturating_add 0 1) with 1%Z. lia.
  - assert (shift 0 (close_spec s) = close_spec s) as Hz.
    { unfold shift, close_spec; simpl. by rewrite Z.add_0_r, map_shift_0. }
    cbv zeta. split_and!; [by right|done| |apply shift_wf; [by apply wf_reopen|by right|simpl; lia]|].
    2: { rewrite Hz. by destruct Ht as [[]|Ht]; [|right]. }
    simpl. rewrite Hz. unfold from_parts.
    rewrite (rf_timeline _ _ _ Hr), (rf_active _ _ _ Hr), (rf_window _ _ _ Hr).
    rewrite next_id_of_parts by (done || lia).
    rewrite (restore_active_status s m) by done.
    rewrite u64_saturating_add_exact by lia.
    unfold trim_to_limit, sync_window, with_window; simpl. replace (c `max` 1) with c by lia.
    rewrite length_lastn.
    destruct (Nat.ltb_spec 0 (m `min` length (sp_entries s) - c)) as [Hlt|Hge]; simpl.
    + rewrite length_drop, length_lastn, u64_saturating_add_exact by (rewrite ?u64_saturating_add_exact; lia).
      rewrite u64_saturating_add_exact by lia.
      split; simpl; try done; try lia; [|f_equal; [lia|lia|f_equal; lia]].
      unfold lastn. rewrite drop_drop. f_equal. lia.
    + rewrite length_lastn, u64_saturating_add_exact by lia.
      split; simpl; try done; try lia; [|f_equal; [lia|lia|f_equal; lia]].
      unfold lastn. f_equal. lia.
Qed.

(** ** Lemmas: both views over a run of events *)

(** The daemon's state after events that give [s] and [f]. *)
Record daemon_at (m : nat) (s : SpecTimeline) (f : SessionFacts) (st : SnapshotState) : Prop := {
  da_max : sn_max_entries st = m;
  da_refines : refines m s (sn_timeline st);
  da_wf : spec_wf s;
  da_tight : tight s;
  da_facts : snapshot_facts (sn_snapshot st) = trim_facts m f;
  da_parts : into_parts (sn_timeline st) =
    (ss_timeline (sn_snapshot st), ss_active_tools (sn_snapshot st),
     ss_history_window (sn_snapshot st));
}.

Record view_at (c : nat) (s : SpecTimeline) (f : SessionFacts) (v : ViewState) : Prop := {
  va_refines : refines c s (vw_timeline v);
  va_wf : spec_wf s;
  va_facts : view_facts v = f;
  va_max : vw_max_scrollback_entries v = c;
}.

Lemma daemon_run m s f st q h :
  0 < m → daemon_at m s f st → ss_seq (sn_snapshot st) = q →
  (sp_next s + Z.of_nat (length h) ≤ U64_MAX)%Z →
  let st' := snapshot_run st (number_from q h) in
  daemon_at m (spec_ops s (map OpApply h)) (fold_left facts_event h f) st' ∧
  ss_seq (sn_snapshot st') = (q + Z.of_nat (length h))%Z.
Proof.
  intros Hm. revert s f st q. induction h as [|e h IH]; intros s f st q Hd Hq Hmax; simpl.
  { split; [done|lia]. }
  destruct Hd as [Hmx Hr Hwf Ht Hf Hp]. simpl in Hmax.
  destruct (snapshot_apply_rest st (q + 1) e) as (Hmx'&Htl&Hseq&Hp').
  pose proof (spec_op_next s (OpApply e)) as Hn. simpl in Hn.
  unfold snapshot_run in *. cbn [number_from fold_left fst snd].
  destruct (IH (spec_event s e) (facts_event f e) (snapshot_apply st (q + 1) e) (q + 1)%Z) as [Hd' Hs'];
    [|done|lia|].
  - split; [by rewrite Hmx'| |by apply (spec_op_wf s (OpApply e))|by apply (tight_op s (OpApply e))| |done].
    + rewrite Htl. apply (refines_op m Hm s _ (OpApply e)); [done|done|lia|done].
    + rewrite <- Hmx. apply snapshot_apply_facts. by rewrite Hmx.
  - split; [done|]. rewrite Hs'. lia.
Qed.

Lemma view_run c s f v h :
  0 < c → view_at c s f v → (sp_next s + Z.of_nat (length h) ≤ U64_MAX)%Z →
  let '(v', os) := apply_events v (number_from (vw_last_seq v) h) in
  view_at c (spec_ops s (map OpApply h)) (fold_left facts_event h f) v' ∧
  vw_last_seq v' = (vw_last_seq v + Z.of_nat (length h))%Z ∧ os = replicate (length h) Applied.
Proof.
  intros Hc. revert s f v. induction h as [|e h IH]; intros s f v Hv Hmax; simpl.
  { split_and!; [done|lia|done]. }
  destruct Hv as [Hr Hwf Hf Hmx]. simpl in Hmax.
  destruct (apply_event_next v e) as (Ho&Hseq&Htl&Hf'&Hmx').
  destruct (apply_event v (vw_last_seq v + 1) e) as [v1 o]. cbn [fst snd] in *. rewrite <- Hseq.
  pose proof (spec_op_next s (OpApply e)) as Hn. simpl in Hn.
  specialize (IH (spec_event s e) (facts_event f e) v1).
  destruct (apply_events v1 _) as [v2 os]. destruct IH as (Hv'&Hs'&Hos).
  - split; [|by apply (spec_op_wf s (OpApply e))|by rewrite Hf', Hf|by rewrite Hmx'].
    rewrite Htl. apply (refines_op c Hc s _ (OpApply e)); [done|done|lia|done].
  - lia.
  - split_and!; [done|lia|by rewrite Ho, Hos].
Qed.

Lemma facts_run_trim m f h :
  trim_facts m (fold_left facts_event h (trim_facts m f)) = trim_facts m (fold_left facts_event h f).
Proof.
  revert f. induction h as [|e h IH]; intros f; cbn [fold_left].
  { unfold trim_facts; simpl; by rewrite lastn_idem. }
  rewrite <- (IH (facts_event (trim_facts m f) e)), trim_facts_event. apply IH.
Qed.

(** A session the daemon starts on a history that was rebuilt with the reducer. *)
Lemma daemon_start m s0 ops :
  0 < m → Forall op_ok ops → (Z.of_nat (length ops) < U64_MAX)%Z →
  into_parts (run_ops (new m) ops) = (ss_timeline s0, ss_active_tools s0, ss_history_window s0) →
  ∃ s, (sp_next s ≤ 1 + Z.of_nat (length ops))%Z ∧
    daemon_at m s (snapshot_facts s0) (from_snapshot s0 m) ∧
    ss_seq (sn_snapshot (from_snapshot s0 m)) = ss_seq s0.
Proof.
  intros Hm Hok Hlen Hp.
  destruct (refines_ops_from m Hm spec_new (new m) ops) as [Hr Hwf];
    [by apply refines_new|apply spec_new_wf|done|simpl; lia|].
  pose proof (spec_ops_next spec_new ops) as Hnext. simpl in Hnext.
  destruct (reattach m m (spec_ops spec_new ops) (run_ops (new m) ops)) as (k&Hk&Hk0&Hr'&Hwf'&Ht');
    [done|done|apply tight_ops; by left|lia|lia|].
  unfold into_parts in Hp. injection Hp as Hp1 Hp2 Hp3. rewrite Hp1, Hp2, Hp3 in Hr'.
  eexists. split; [|split; [|done]].
  2: { split; [simpl; lia| |exact Hwf'|exact Ht'| |done].
       - simpl. by replace (m `max` 1) with m by lia.
       - unfold snapshot_facts, trim_facts; simpl. f_equal.
         replace (m `max` 1) with m by lia. apply trim_oldest_lastn. }
  simpl. lia.
Qed.

(** Two reducers of the same timeline, one renumbered and with a smaller limit. *)
Lemma shifted_views_agree m c k s rd rv :
  refines m s rd → refines c (shift k s) rv → c ≤ m →
  map te_entry (tl_timeline rv) = lastn c (map te_entry (tl_timeline rd)) ∧
  map tool_content (tl_active_tools rv) = map tool_content (tl_active_tools rd) ∧
  hw_total (tl_history_window rv) = hw_total (tl_history_window rd) ∧
  (k = 0%Z → tl_timeline rv = lastn c (tl_timeline rd) ∧ tl_active_tools rv = tl_active_tools rd).
Proof.
  intros Hd Hv Hc.
  rewrite (rf_timeline _ _ _ Hd), (rf_timeline _ _ _ Hv), (rf_active _ _ _ Hd),
    (rf_active _ _ _ Hv), (rf_window _ _ _ Hd), (rf_window _ _ _ Hv). simpl.
  rewrite length_map, !map_lastn, lastn_lastn, map_map by done. split_and!; [done| |done|].
  - induction (sp_entries s) as [|[i o e] l IH]; [done|]. unfold live_tools in *; simpl.
    destruct e as [| | | | |? ? ? st ? ?]; try exact IH. unfold active_of; simpl.
    destruct (is_terminal st); [exact IH|]. simpl. f_equal. exact IH.
  - intros ->. by rewrite !map_shift_0.
Qed.

(** ** Lemmas: the position in the log *)

(** A numbered event is the one the log has at that number. *)
Definition from_log (h : list SessionEvent) (p : Z * SessionEvent) : Prop :=
  (1 ≤ p.1)%Z ∧ h !! Z.to_nat (p.1 - 1) = Some p.2.

#[export] Instance from_log_dec h p : Decision (from_log h p).
Proof. unfold from_log. apply _. Defined.

(** The view after the events of the log up to number [n]. *)
Definition advance (v : ViewState) (h : list SessionEvent) (n : nat) : ViewState :=
  let k := Z.to_nat (vw_last_seq v) in
  (apply_events v (number_from (vw_last_seq v) (drop k (take n h)))).1.

Lemma apply_events_app v l1 l2 :
  apply_events v (l1 ++ l2) =
  let '(v1, os1) := apply_events v l1 in
  let '(v2, os2) := apply_events v1 l2 in (v2, os1 ++ os2).
Proof.
  revert v. induction l1 as [|[q e] l1 IH]; intros v; simpl; [by destruct (apply_events v l2)|].
  destruct (apply_event v q e) as [v1 o]. rewrite IH.
  destruct (apply_events v1 l1) as [v2 os1]. by destruct (apply_events v2 l2).
Qed.

Lemma apply_events_seq v h :
  let '(v', os) := apply_events v (number_from (vw_last_seq v) h) in
  vw_last_seq v' = (vw_last_seq v + Z.of_nat (length h))%Z ∧ os = replicate (length h) Applied.
Proof.
  revert v. induction h as [|e h IH]; intros v; simpl; [split; [lia|done]|].
  destruct (apply_event_next v e) as (Ho&Hseq&_).
  destruct (apply_event v (vw_last_seq v + 1) e) as [v1 o]. cbn [fst snd] in *. rewrite <- Hseq.
  specialize (IH v1). destruct (apply_events v1 _) as [v2 os]. destruct IH as [Hs ->].
  split; [lia|by rewrite Ho].
Qed.

Lemma advance_seq v h n :
  (0 ≤ vw_last_seq v)%Z → Z.to_nat (vw_last_seq v) ≤ n ≤ length h →
  vw_last_seq (advance v h n) = Z.of_nat n.
Proof.
  intros H0 Hn. unfold advance. pose proof (apply_events_seq v (drop (Z.to_nat (vw_last_seq v)) (take n h))) as H.
  destruct (apply_events v _) as [v' os]. simpl. destruct H as [-> _].
  rewrite length_drop, length_take. lia.
Qed.

Lemma advance_S v h n e :
  (0 ≤ vw_last_seq v)%Z → Z.to_nat (vw_last_seq v) ≤ n → h !! n = Some e →
  advance v h (S n) = (apply_event (advance v h n) (Z.of_nat n + 1) e).1.
Proof.
  intros H0 Hn He. pose proof (lookup_lt_Some _ _ _ He).
  pose proof (advance_seq v h n H0) as Hs. unfold advance in *.
  rewrite (take_S_r _ _ _ He), drop_app_le by (rewrite length_take; lia).
  rewrite number_from_app, apply_events_app. rewrite length_drop, length_take.
  destruct (apply_events v _) as [v1 os1]. simpl in *.
  replace (vw_last_seq v + Z.of_nat (n `min` length h - Z.to_nat (vw_last_seq v)))%Z
    with (Z.of_nat n) by lia.
  by destruct (apply_event v1 (Z.of_nat n + 1) e).
Qed.

(** ** Lemmas: fitting *)

Section fit_lemmas.
Context (encode : SessionSnapshot → result nat string) (size : SessionSnapshot → nat) (max : nat).
Hypothesis (Hsize : ∀ s, encode s = Ok (size s)).

Lemma fits_size s : fits encode max s = Ok (size s <=? max).
Proof. unfold fits. by rewrite Hsize. Qed.

(** The binary search stops with its fuel and finds the first fitting suffix. *)
Lemma search_first s fuel low high :
  (∀ j k, j ≤ k → size (keep_from s k) ≤ size (keep_from s j)) → high - low < fuel → low ≤ high →
  ∃ r, search encode max fuel s low high = Some (Ok r) ∧ low ≤ r ≤ high ∧
    (∀ j, low ≤ j < r → max < size (keep_from s j)) ∧
    (r < high → size (keep_from s r) ≤ max).
Proof.
  intros Hmono. revert low high. induction fuel as [|fuel IH]; intros low high Hf Hle; [lia|].
  cbn [search]. destruct (Nat.ltb_spec low high); [|exists low; split_and!; [done|lia..]].
  rewrite fits_size. set (middle := low + (high - low) / 2).
  assert (low ≤ middle < high) by (unfold middle; pose proof (Nat.div_lt (high - low) 2); lia).
  destruct (Nat.leb_spec (size (keep_from s middle)) max) as [Hfit|Hbig].
  - destruct (IH low middle) as (r&->&?&Hno&Hr); [lia|lia|]. exists r. split_and!; [done|lia|lia|done|].
    intros _. destruct (decide (r < middle)); [auto|]. by replace r with middle by lia.
  - destruct (IH (middle + 1) high) as (r&->&?&Hno&Hr); [lia|lia|]. exists r.
    split_and!; [done|lia|lia| |done]. intros j Hj.
    destruct (decide (middle < j)); [apply Hno; lia|].
    pose proof (Hmono j middle ltac:(lia)). lia.
Qed.

Lemma lfind_first {A} (p : A → bool) f m r :
  r ≤ m → (∀ j, j < r → p (f j) = false) → (r < m → p (f r) = true) →
  lfind p (map f (seq 0 (S m))) = if p (f r) then Some (f r) else None.
Proof.
  intros Hr Hno Hyes.
  assert (∀ k n, (∀ j, j < n → p (f (k + j)) = false) →
    ∀ q, lfind p (map f (seq k (n + S q))) = lfind p (map f (seq (k + n) (S q)))) as Hskip.
  { intros k n. revert k. induction n as [|n IH]; intros k Hk q; [by rewrite Nat.add_0_r|].
    cbn [Nat.add seq map lfind]. rewrite <- (Nat.add_0_r k) at 1. rewrite Hk by lia.
    rewrite IH, <- Nat.add_succ_comm; [done|]. intros j ?.
    rewrite Nat.add_succ_comm. apply Hk. lia. }
  replace (S m) with (r + S (m - r)) by lia. rewrite Hskip by (intros; apply Hno; lia).
  cbn [seq map lfind Nat.add]. destruct (p (f r)) eqn:E; [done|].
  destruct (decide (r < m)) as [Hlt|]; [specialize (Hyes Hlt); congruence|]. by replace (m - r) with 0 by lia.
Qed.

End fit_lemmas.

(** The snapshots that are tried, in order of preference: the whole, without tool
    outputs, without texts, and then without the oldest 0, 1, 2, ... entries. *)
Definition candidates (s : SessionSnapshot) : list SessionSnapshot :=
  let s1 := with_entries s (map drop_tool_output (ss_timeline s)) in
  let s2 := with_entries s1 (map drop_text (ss_timeline s1)) in
  s :: s1 :: s2 :: map (keep_from s2) (seq 0 (S (length (ss_timeline s)))).

(** ** Properties *)

(** C9: a client that attaches sees what the daemon sees.  A session starts on a
    history rebuilt with the reducer; events [h1] arrive; a client whose scrollback
    is not larger than the daemon's limit installs the daemon's snapshot, taken
    when no text is being streamed; events [h2] arrive at both.  Then the client
    has accepted every event and stands at the daemon's sequence number; turn and
    durability status, approvals, options and usage are the daemon's; its timeline
    is the newest part of the daemon's and its active tools are the daemon's, with
    the same ids unless the snapshot was empty. *)
Theorem view_follows_daemon m c s0 ops h1 h2 v :
  0 < m → Forall op_ok ops →
  into_parts (run_ops (new m) ops) = (ss_timeline s0, ss_active_tools s0, ss_history_window s0) →
  (1 + Z.of_nat (length ops) + Z.of_nat (length h1) + Z.of_nat (length h2) ≤ U64_MAX)%Z →
  vw_max_scrollback_entries v = c → 0 < c ≤ m →
  let d1 := snapshot_run (from_snapshot s0 m) (number_from (ss_seq s0) h1) in
  let seq := ss_seq (sn_snapshot d1) in
  tl_open_entry_id (sn_timeline d1) = None →
  let d2 := sn_snapshot (snapshot_run d1 (number_from seq h2)) in
  let '(v2, outcomes) := apply_events (apply_snapshot v (sn_snapshot d1)) (number_from seq h2) in
  let tl := vw_timeline v2 in
  outcomes = replicate (length h2) Applied ∧
  vw_last_seq v2 = ss_seq d2 ∧
  trim_facts m (view_facts v2) = snapshot_facts d2 ∧
  map te_entry (tl_timeline tl) = lastn c (map te_entry (ss_timeline d2)) ∧
  map tool_content (tl_active_tools tl) = map tool_content (ss_active_tools d2) ∧
  hw_total (tl_history_window tl) = hw_total (ss_history_window d2) ∧
  (ss_timeline (sn_snapshot d1) ≠ [] →
   tl_timeline tl = lastn c (ss_timeline d2) ∧ tl_active_tools tl = ss_active_tools d2).
Proof.
  intros Hm Hok Hp Hmax Hvc Hc d1 seq Hopen d2.
  destruct (daemon_start m s0 ops Hm Hok ltac:(lia) Hp) as (s&Hns&Hd0&Hq0).
  destruct (daemon_run m s _ _ _ h1 Hm Hd0 Hq0) as [Hd1 Hq1]; [lia|]. fold d1 in Hd1, Hq1.
  set (s1 := spec_ops s (map OpApply h1)) in *.
  pose proof (spec_ops_next s (map OpApply h1)) as Hn1. fold s1 in Hn1. rewrite length_map in Hn1.
  destruct Hd1 as [Hmx Hr Hwf Ht Hf Hp1].
  destruct (reattach m c s1 (sn_timeline d1)) as (k&Hk&Hk0&Hr'&Hwf'&Ht'); [done|done|done|lia|done|].
  rewrite (tight_open s1 m (sn_timeline d1)) in Hr', Hwf' by done.
  destruct (daemon_run m s1 _ d1 seq h2 Hm ltac:(by split) eq_refl) as [Hd2 Hq2]; [lia|].
  pose proof (view_run c (shift k s1) (trim_facts m (fold_left facts_event h1 (snapshot_facts s0)))
    (apply_snapshot v (sn_snapshot d1)) h2) as Hv.
  change (vw_last_seq (apply_snapshot v (sn_snapshot d1))) with seq in Hv.
  destruct (apply_events _ _) as [v2 os]. destruct Hv as ([Hrv _ Hfv _]&Hsv&Hos).
  { lia. }
  { injection Hp1 as Hpa Hpb Hpc. rewrite Hpa, Hpb, Hpc in Hr'.
    split; [by rewrite <- Hvc in Hr' |- *|done|by rewrite <- Hf|done]. }
  { simpl. lia. }
  destruct Hd2 as [_ Hr2 _ _ Hf2 Hp2].
  rewrite spec_ops_shift in Hrv. injection Hp2 as Hpa Hpb Hpc.
  destruct (shifted_views_agree _ _ _ _ _ _ Hr2 Hrv) as (H1&H2&H3&H4); [lia|].
  rewrite Hpa, Hpb, Hpc in *. split_and!; [done|by rewrite Hsv, <- Hq2| |done|done|done|].
  - unfold d2. by rewrite Hfv, Hf2, facts_run_trim.
  - intros Hne. apply H4. destruct Hk as [He|Hk]; [|done]. destruct Hne.
    injection Hp1 as Hpa1 _ _. rewrite <- Hpa1, (rf_timeline _ _ _ Hr), He. by unfold lastn.
Qed.

(** whatever the transport does to the event stream (drops, repeats, reorders,
    delays), the view is the one the log gives up to some event number: no event is
    applied twice, none is skipped, and none out of order. *)
Theorem view_is_log_prefix v h msgs :
  (0 ≤ vw_last_seq v ≤ Z.of_nat (length h))%Z → Forall (from_log h) msgs →
  let v' := (apply_events v msgs).1 in
  (vw_last_seq v ≤ vw_last_seq v' ≤ Z.of_nat (length h))%Z ∧
  v' = advance v h (Z.to_nat (vw_last_seq v')).
Proof.
  intros Hv Hm.
  assert (∀ n, Z.to_nat (vw_last_seq v) ≤ n ≤ length h → Forall (from_log h) msgs →
    ∃ n', n ≤ n' ≤ length h ∧ (apply_events (advance v h n) msgs).1 = advance v h n') as Hind.
  { clear Hm. induction msgs as [|[q e] msgs IH]; intros n Hn Hm; [exists n; split; [lia|done]|].
    inv Hm. simpl. pose proof (advance_seq v h n ltac:(lia) Hn) as Hs.
    destruct (apply_event (advance v h n) q e) as [v1 o] eqn:Hap.
    assert (v1 = advance v h n ∨ v1 = advance v h (S n) ∧ n < length h) as Hv1.
    { pose proof Hap as Hap'. unfold apply_event in Hap'. rewrite Hs in Hap'.
      destruct (Z.leb_spec q (Z.of_nat n)); [left; congruence|].
      destruct (Z.eqb_spec q (Z.of_nat n + 1)) as [->|]; [|left; simpl in Hap'; congruence].
      right. destruct H1 as [_ He]. simpl in He.
      replace (Z.to_nat (Z.of_nat n + 1 - 1)) with n in He by lia.
      split; [|by apply lookup_lt_Some in He]. rewrite (advance_S v h n e) by (done || lia).
      by rewrite Hap. }
    destruct (IH n Hn) as (n'&?&?); [done|]. destruct (apply_events v1 msgs) as [v2 os] eqn:E2. simpl.
    destruct Hv1 as [->|[-> ?]]; [exists n'; by rewrite E2 in *|].
    destruct (IH (S n)) as (n2&?&?); [lia|done|]. exists n2. rewrite E2 in *. split; [lia|done]. }
  destruct (Hind (Z.to_nat (vw_last_seq v))) as (n'&Hn'&Heq); [lia|done|].
  assert (advance v h (Z.to_nat (vw_last_seq v)) = v) as Hid.
  { unfold advance. rewrite drop_ge; [done|]. rewrite length_take. lia. }
  rewrite Hid in Heq. cbv zeta. rewrite Heq, advance_seq by lia. split; [lia|]. by rewrite Nat2Z.id.
Qed.

(** fitting a snapshot into a frame tries, by binary search, what a linear
    search over all the candidates would find: the first that fits.  It always
    returns, and fails only if no candidate fits.  The encoder is total and does
    not grow when old entries are dropped. *)
Theorem fit_is_first_fit encode size max s :
  (∀ s, encode s = Ok (size s)) →
  (∀ s j k, j ≤ k → size (keep_from s k) ≤ size (keep_from s j)) →
  fit_snapshot_to_frame encode max s =
  Some match lfind (λ c, size c <=? max) (candidates s) with
       | Some c => Ok c
       | None => Err (too_large_message max)
       end.
Proof.
  intros Hsize Hmono. unfold fit_snapshot_to_frame, candidates. cbn [lfind].
  rewrite !(fits_size encode size) by done.
  destruct (size s <=? max); [done|]. cbn [ss_timeline with_entries with_history].
  destruct (size _ <=? max); [done|]. destruct (size _ <=? max); [done|]. rewrite !length_map.
  set (s2 := with_entries _ (map drop_text _)).
  destruct (search_first encode size max Hsize s2 (S (length (ss_timeline s))) 0 (length (ss_timeline s)))
    as (r&->&Hr&Hno&Hyes); [auto|lia|lia|].
  rewrite (lfind_first _ (keep_from s2) _ r), (fits_size encode size) by
    (done || lia || (intros; (apply Nat.leb_gt, Hno || apply Nat.leb_le, Hyes); lia)).
  by destruct (size (keep_from s2 r) <=? max).
Qed.

(** reconnecting.  When the router answers a resume request with events, a
    client that stood at the position it asked for accepts all of them and stands
    at the router's number, with the view the whole log gives. *)
Theorem resume_catches_up r h v events latest :
  router_log r h → (Z.of_nat (length h) ≤ U64_MAX)%Z → (0 ≤ vw_last_seq v)%Z →
  replay_since r (vw_last_seq v) = Available events latest →
  let '(v', outcomes) := apply_events v events in
  vw_last_seq v' = latest ∧ latest = rt_sequence r ∧ v' = advance v h (length h) ∧
  outcomes = replicate (length events) Applied.
Proof.
  intros Hlog Hmax Hv Hrep. rewrite (replay_since_log r h) in Hrep by done.
  case_decide as Hk; simplify_eq. destruct Hk as [Hk _].
  rewrite drop_number_from by lia. replace (0 + Z.of_nat (Z.to_nat (vw_last_seq v)))%Z with (vw_last_seq v) by lia.
  pose proof (apply_events_seq v (drop (Z.to_nat (vw_last_seq v)) h)) as Hs.
  unfold advance. rewrite firstn_all.
  destruct (apply_events v _) as [v' os]. destruct Hs as [Hs ->].
  rewrite length_number_from. split_and!; [rewrite Hs, length_drop; lia|by rewrite (log_sequence _ _ Hlog)|done|done].
Qed.

(** ** Attaching while text is streamed *)

Definition empty_snapshot (session_id : string) : SessionSnapshot :=
  mkSnapshot session_id 0 TurnIdle DurSaved [] [] (window_complete 0) [] [] None.

(** a client that attaches in the middle of a streamed answer does not show
    what the daemon shows.  The snapshot does not say that its last entry is still
    open, so the next piece of text opens a second entry at the client while the
    daemon continues the first. *)
Theorem attach_mid_stream_splits_answer text1 text2 :
  let d1 := snapshot_run (from_snapshot (empty_snapshot "s") 10)
              (number_from 0 [AssistantDelta text1]) in
  let later := number_from 1 [AssistantDelta text2] in
  let d2 := snapshot_run d1 later in
  let v2 := (apply_events (apply_snapshot (with_scrollback_limit "" 10) (sn_snapshot d1)) later).1 in
  map te_entry (ss_timeline (sn_snapshot d2)) = [EkAssistant (text1 +:+ text2) false] ∧
  map te_entry (tl_timeline (vw_timeline v2)) = [EkAssistant text1 false; EkAssistant text2 false].
Proof. done. Qed.

(** ** Witnesses *)

Definition demo_log : list SessionEvent :=
  [UserMessage "q" None; ToolCallStarted "t" "exec" "ls" None; TurnStatusChanged TurnRunning].

Definition demo_more : list SessionEvent :=
  [AssistantDelta "a"; AssistantDelta "b"; ToolCallFinished "t" ToolCompleted "ok";
   DurabilityStatusChanged DurSaving].

Lemma view_follows_daemon_witness :
  let d1 := snapshot_run (from_snapshot (empty_snapshot "s") 3) (number_from 0 demo_log) in
  let v2 := (apply_events (apply_snapshot (with_scrollback_limit "" 2) (sn_snapshot d1))
              (number_from 3 demo_more)).1 in
  vw_last_seq v2 = 7%Z ∧ tl_active_tools (vw_timeline v2) = [].
Proof.
  pose proof (view_follows_daemon 3 2 (empty_snapshot "s") [] demo_log demo_more
    (with_scrollback_limit "" 2) ltac:(lia) ltac:(constructor) eq_refl ltac:(done) eq_refl ltac:(lia)
    eq_refl) as H.
  cbv zeta in H |- *.
  change (ss_seq (sn_snapshot (snapshot_run (from_snapshot (empty_snapshot "s") 3)
    (number_from (ss_seq (empty_snapshot "s")) demo_log)))) with 3%Z in H.
  change (ss_seq (empty_snapshot "s")) with 0%Z in H.
  destruct (apply_events _ _) as [v2 os]. destruct H as (_&Hs&_&_&_&_&Ha). simpl.
  split; [by rewrite Hs|]. destruct Ha as [_ ->]; [done|]. by vm_compute.
Defined.

Lemma view_is_log_prefix_witness :
  let msgs := [(2%Z, ToolCallStarted "t" "exec" "ls" None); (1%Z, UserMessage "q" None);
               (1%Z, UserMessage "q" None); (2%Z, ToolCallStarted "t" "exec" "ls" None)] in
  let v' := (apply_events (with_scrollback_limit "s" 5) msgs).1 in
  vw_last_seq v' = 2%Z ∧ v' = advance (with_scrollback_limit "s" 5) demo_log 2.
Proof.
  cbv zeta.
  destruct (view_is_log_prefix (with_scrollback_limit "s" 5) demo_log
    [(2%Z, ToolCallStarted "t" "exec" "ls" None); (1%Z, UserMessage "q" None);
     (1%Z, UserMessage "q" None); (2%Z, ToolCallStarted "t" "exec" "ls" None)]) as [_ H].
  - simpl. lia.
  - repeat constructor; done.
  - split; [done|exact H].
Defined.

(** An encoder for the witness: a frame has one byte per entry. *)
Lemma fit_is_first_fit_witness :
  let s := with_entries (empty_snapshot "s") (tl_timeline (run_ops (new 5) (map OpApply demo_log))) in
  let size s := length (ss_timeline s) in
  fit_snapshot_to_frame (λ s, Ok (size s)) 1 s =
    Some (Ok (keep_from (with_entries s (map drop_text (map drop_tool_output (ss_timeline s)))) 1)).
Proof.
  cbv zeta. rewrite (fit_is_first_fit _ (λ s, length (ss_timeline s)));
    [by vm_compute|reflexivity|].
  intros s j k ?. simpl. rewrite !length_drop. lia.
Defined.

Lemma resume_catches_up_witness :
  let r := (router_run (new_with_replay None 4) (map REmit demo_log)).1 in
  let v := (apply_events (with_scrollback_limit "s" 5) (number_from 0 (take 1 demo_log))).1 in
  vw_last_seq (apply_events v (number_from 1 (drop 1 demo_log))).1 = 3%Z.
Proof.
  cbv zeta.
  pose proof (resume_catches_up (router_run (new_with_replay None 4) (map REmit demo_log)).1 demo_log
    (apply_events (with_scrollback_limit "s" 5) (number_from 0 (take 1 demo_log))).1
    (number_from 1 (drop 1 demo_log)) 3 ltac:(by split) ltac:(done) ltac:(done) eq_refl) as H.
  destruct (apply_events _ (number_from 1 _)) as [v' os]. apply H.
Defined.
