(* ===== verification/Client.v ===== *)
(** * The session client

    Models [src/src/session_client.rs]: validation of received snapshots, the attach
    handshake, the receive step and the commands of a client of one session.  The
    transport is the environment: the results of its [recv] calls are a queue, the
    results of its [send] calls an answer that is supplied, and the messages sent
    are recorded.  A client that waits for a message that has not arrived yet is
    [Waiting]; everything else it does is a [Done] result.

    Error texts are kept where they are fixed; where the text ends with a debug
    rendering of an id or of a message, that rendering is left out. *)

From stdpp Require Import base numbers list strings gmap.
From S2P Require Import Prelude RustStr Protocol Timeline Router Views.

(** ** Data *)

Inductive TransportError :=
  | TeIo | TeJson | TeFrameTooLarge (max_bytes : nat) | TeUnexpectedEof | TeClosed
  | TeBackpressure | TeInvalidFrameLimit.

Inductive SessionClientError :=
  | CeTransport (error : TransportError)
  | CeDisconnected
  | CeAttachDenied (code : option AttachDeniedCode) (reason : string)
  | CeServer (request_id : option string) (code message : string)
  | CeProtocol (message : string)
  | CeMissingCapability (capability : ClientCapability).

Inductive SessionClientOutcome :=
  | CoAppliedEvent (seq : Z)
  | CoIgnoredDuplicate (seq : Z)
  | CoRequestedSync (expected_seq : Z)
  | CoAppliedSnapshot (seq : Z)
  | CoPong
  | CoCommandResult (request_id operation : string) (changed : bool)
  | CoSessionList (request_id : string) (workspace : option SessionWorkspace)
      (sessions : list SessionListEntry) (next_cursor : option string) (incomplete : bool)
  | CoUsage (request_id : string) (usage : SessionUsage)
  | CoServerError (request_id : option string) (code message : string)
  | CoRevoked (code : option RevocationCode) (reason : string).

(** [frame_limit_mismatch]. *)
Definition frame_limit_mismatch (e : SessionClientError) : option nat :=
  match e with CeTransport (TeFrameTooLarge max_bytes) => Some max_bytes | _ => None end.

(** ** Validation of snapshots *)

Definition duplicate_message (kind : string) : string := "snapshot contains duplicate " +:+ kind +:+ " id".

(** The [HashSet] loop of [require_unique]: an id that was seen before is an error. *)
Fixpoint require_unique {A : Type} `{EqDecision A} (kind : string) (seen ids : list A)
    : result unit SessionClientError :=
  match ids with
  | [] => Ok tt
  | id :: ids =>
      if bool_decide (id ∈ seen) then Err (CeProtocol (duplicate_message kind))
      else require_unique kind (id :: seen) ids
  end.

Definition validate_snapshot_ids (s : SessionSnapshot) : result unit SessionClientError :=
  match require_unique "timeline" [] (map te_id (ss_timeline s)) with
  | Err e => Err e
  | Ok _ =>
  match require_unique "active tool occurrence" [] (map at_occurrence_id (ss_active_tools s)) with
  | Err e => Err e
  | Ok _ =>
  match require_unique "approval" [] (map ar_id (ss_pending_approvals s)) with
  | Err e => Err e
  | Ok _ =>
      let w := ss_history_window s in
      let len := length (ss_timeline s) in
      if negb (hw_retained w =? len)
         || negb (bool_decide (hw_total w =
                    Some (u64_saturating_add (hw_truncated_before w) (Z.of_nat len))))
      then Err (CeProtocol "snapshot history window does not match timeline")
      else if existsb (λ t, is_terminal (at_status t)) (ss_active_tools s)
      then Err (CeProtocol "snapshot active_tools contains terminal tool")
      else if existsb (λ a, negb (existsb (λ t, bool_decide (at_tool_call_id t = ar_tool_call_id a))
                                    (ss_active_tools s))) (ss_pending_approvals s)
      then Err (CeProtocol "snapshot approval references missing active tool")
      else require_unique "runtime option" [] (map ro_id (ss_runtime_options s))
  end end end.

(** ** The client and its transport *)

Record SessionClient := mkClient {
  cl_state : ViewState;
  cl_client : ClientInfo;
  cl_requested_capabilities : list ClientCapability;
  cl_granted_capabilities : list ClientCapability;
  cl_attached : bool;
}.

Record Transport := mkTransport {
  tp_inbox : list (result (option ServerMessage) TransportError);
  tp_send : result unit TransportError;
  tp_sent : list ClientMessage;
}.

Record World := mkWorld { wd_client : SessionClient; wd_transport : Transport }.

Inductive outcome (A : Type) := Done (r : result A SessionClientError) | Waiting.
Arguments Done {A} r.
Arguments Waiting {A}.

(** [SessionClient::new]. *)
Definition client_new (client : ClientInfo) (requested : list ClientCapability)
    (max_scrollback_entries : nat) : SessionClient :=
  mkClient (with_scrollback_limit "" max_scrollback_entries) client requested [] false.

Definition set_state (w : World) (v : ViewState) : World :=
  let c := wd_client w in
  mkWorld (mkClient v (cl_client c) (cl_requested_capabilities c) (cl_granted_capabilities c)
             (cl_attached c)) (wd_transport w).

Definition set_attachment (w : World) (granted : list ClientCapability) (attached : bool) : World :=
  let c := wd_client w in
  mkWorld (mkClient (cl_state c) (cl_client c) (cl_requested_capabilities c) granted attached)
    (wd_transport w).

Definition clear_attachment (w : World) : World := set_attachment w [] false.

(** [transport.send]: the message counts as sent when the transport accepts it. *)
Definition send (w : World) (m : ClientMessage) : World * result unit SessionClientError :=
  let t := wd_transport w in
  match tp_send t with
  | Ok _ => (mkWorld (wd_client w) (mkTransport (tp_inbox t) (tp_send t) (tp_sent t ++ [m])), Ok tt)
  | Err e => (w, Err (CeTransport e))
  end.

Definition recv_message (w : World) : World * outcome ServerMessage :=
  let t := wd_transport w in
  match tp_inbox t with
  | [] => (w, Waiting)
  | r :: inbox =>
      let w := mkWorld (wd_client w) (mkTransport inbox (tp_send t) (tp_sent t)) in
      match r with
      | Ok (Some m) => (w, Done (Ok m))
      | Ok None => (clear_attachment w, Done (Err CeDisconnected))
      | Err e => (clear_attachment w, Done (Err (CeTransport e)))
      end
  end.

(** [replace_transport]; [rotate_client_identity] takes the fresh UUID as text. *)
Definition replace_transport (w : World) (t : Transport) : World :=
  clear_attachment (mkWorld (wd_client w) t).

Definition rotate_client_identity (w : World) (uuid : string) : World :=
  let c := wd_client w in
  mkWorld (mkClient (cl_state c)
             {| client_id := "reconnect-" +:+ uuid; client_kind := client_kind (cl_client c);
                client_label := client_label (cl_client c) |}
             (cl_requested_capabilities c) (cl_granted_capabilities c) (cl_attached c))
    (wd_transport w).

(** ** The attach handshake *)

(** What one message does to a client that is attaching: go on waiting with the
    identity of [AttachOk], or return. *)
Inductive attach_next :=
  | AttachLoop (ident : option (string * Z))
  | AttachReturn (r : result unit SessionClientError).

Definition attach_message (w : World) (requested : option string) (can_resume : bool)
    (ident : option (string * Z)) (m : ServerMessage) : World * attach_next :=
  let c := wd_client w in
  match m with
  | SmAttachOk version session_id granted seq =>
      if negb (version =? PROTOCOL_VERSION)%Z
      then (w, AttachReturn (Err (CeProtocol
              ("server protocol " +:+ u64_to_string version +:+ " does not match "
               +:+ u64_to_string PROTOCOL_VERSION))))
      else if match requested with Some r => negb (bool_decide (r = session_id)) | None => false end
      then (w, AttachReturn (Err (CeProtocol "AttachOk session does not match requested session")))
      else
        let w := set_attachment w granted true in
        if negb (has_capability granted CapObserve)
        then (set_state w (apply_attach_watermark (cl_state c) session_id seq), AttachReturn (Ok tt))
        else if can_resume && bool_decide (vw_session_id (cl_state c) = session_id)
                && (vw_last_seq (cl_state c) =? seq)%Z
        then (w, AttachReturn (Ok tt))
        else (w, AttachLoop (Some (session_id, seq)))
  | SmEvent seq event =>
      match ident with
      | None => (w, AttachReturn (Err (CeProtocol "replay event arrived before AttachOk")))
      | Some (_, expected_seq) =>
          let '(v, o) := apply_event (cl_state c) seq event in
          match o with
          | Gap _ => (set_state w v,
                      AttachReturn (Err (CeProtocol "reconnect replay contains a sequence gap")))
          | Applied | Duplicate =>
              (set_state w v,
               if (vw_last_seq v =? expected_seq)%Z then AttachReturn (Ok tt)
               else AttachLoop ident)
          end
      end
  | SmSnapshot seq state =>
      match ident with
      | None => (w, AttachReturn (Err (CeProtocol "snapshot arrived before AttachOk")))
      | Some (expected_session, expected_seq) =>
          if negb (bool_decide (ss_session_id state = expected_session))
          then (w, AttachReturn (Err (CeProtocol "snapshot session does not match AttachOk")))
          else if negb (seq =? ss_seq state)%Z || negb (seq =? expected_seq)%Z
          then (w, AttachReturn
                     (Err (CeProtocol "attach snapshot sequence does not match AttachOk")))
          else match validate_snapshot_ids state with
               | Err e => (w, AttachReturn (Err e))
               | Ok _ => (set_state w (apply_snapshot (cl_state c) state), AttachReturn (Ok tt))
               end
      end
  | SmAttachDenied code reason => (w, AttachReturn (Err (CeAttachDenied code reason)))
  | SmError request_id code message => (w, AttachReturn (Err (CeServer request_id code message)))
  | _ => (w, AttachReturn (Err (CeProtocol "unexpected attach response")))
  end.

(** The receive loop of [attach_inner]; each turn takes a message from the queue, so
    the length of the queue is the measure. *)
Fixpoint attach_loop (fuel : nat) (w : World) (requested : option string) (can_resume : bool)
    (ident : option (string * Z)) : World * outcome unit :=
  match fuel with
  | O => (w, Waiting)
  | S fuel =>
      match recv_message w with
      | (w, Waiting) => (w, Waiting)
      | (w, Done (Err e)) => (w, Done (Err e))
      | (w, Done (Ok m)) =>
          match attach_message w requested can_resume ident m with
          | (w, AttachLoop ident) => attach_loop fuel w requested can_resume ident
          | (w, AttachReturn r) => (w, Done r)
          end
      end
  end.

Definition can_resume_of (v : ViewState) (session_id : option string) : bool :=
  match session_id with Some id => bool_decide (id = vw_session_id v) | None => false end.

Definition attach_request (c : SessionClient) (session_id : option string) : ClientMessage :=
  match session_id with
  | Some id =>
      if can_resume_of (cl_state c) session_id
      then CmResume PROTOCOL_VERSION id (vw_last_seq (cl_state c)) None (cl_client c)
             (cl_requested_capabilities c)
      else CmAttach PROTOCOL_VERSION session_id None (cl_client c) (cl_requested_capabilities c)
  | None => CmAttach PROTOCOL_VERSION session_id None (cl_client c) (cl_requested_capabilities c)
  end.

Definition attach_inner (w : World) (session_id : option string) : World * outcome unit :=
  let can_resume := can_resume_of (cl_state (wd_client w)) session_id in
  match send w (attach_request (wd_client w) session_id) with
  | (w, Err e) => (w, Done (Err e))
  | (w, Ok _) => attach_loop (S (length (tp_inbox (wd_transport w)))) w session_id can_resume None
  end.

Definition attach (w : World) (session_id : option string) : World * outcome unit :=
  match attach_inner (clear_attachment w) session_id with
  | (w, Done (Err e)) => (clear_attachment w, Done (Err e))
  | (w, r) => (w, r)
  end.

(** ** Receiving *)

(** What [receive] does with a message. *)
Definition receive_message (w : World) (m : ServerMessage)
    : World * result SessionClientOutcome SessionClientError :=
  let c := wd_client w in
  match m with
  | SmEvent seq event =>
      let '(v, o) := apply_event (cl_state c) seq event in
      let w := set_state w v in
      match o with
      | Applied => (w, Ok (CoAppliedEvent seq))
      | Duplicate => (w, Ok (CoIgnoredDuplicate seq))
      | Gap expected_seq =>
          match send w (CmSyncRequest (vw_last_seq v)) with
          | (w, Err e) => (w, Err e)
          | (w, Ok _) => (w, Ok (CoRequestedSync expected_seq))
          end
      end
  | SmSnapshot seq state =>
      if negb (seq =? ss_seq state)%Z
      then (clear_attachment w,
            Err (CeProtocol "snapshot envelope sequence does not match state"))
      else if negb (bool_decide (ss_session_id state = vw_session_id (cl_state c)))
      then (clear_attachment w,
            Err (CeProtocol "snapshot session does not match attached session"))
      else if (seq <? vw_last_seq (cl_state c))%Z then (w, Ok (CoIgnoredDuplicate seq))
      else match validate_snapshot_ids state with
           | Err e => (w, Err e)
           | Ok _ => (set_state w (apply_snapshot (cl_state c) state), Ok (CoAppliedSnapshot seq))
           end
  | SmError request_id code message => (w, Ok (CoServerError request_id code message))
  | SmPong => (w, Ok CoPong)
  | SmCommandResult request_id operation changed =>
      (w, Ok (CoCommandResult request_id operation changed))
  | SmSessionList request_id workspace sessions next_cursor incomplete =>
      (w, Ok (CoSessionList request_id workspace sessions next_cursor incomplete))
  | SmUsage request_id usage => (w, Ok (CoUsage request_id usage))
  | SmRevoked code reason =>
      (set_attachment w (cl_granted_capabilities c) false, Ok (CoRevoked code reason))
  | SmAttachOk _ _ _ _ | SmAttachDenied _ _ =>
      (w, Err (CeProtocol "attach response outside attach handshake"))
  end.

Definition receive (w : World) : World * outcome SessionClientOutcome :=
  match recv_message w with
  | (w, Waiting) => (w, Waiting)
  | (w, Done (Err e)) => (w, Done (Err e))
  | (w, Done (Ok m)) => let '(w, r) := receive_message w m in (w, Done r)
  end.

(** ** Commands *)

Definition require (w : World) (capability : ClientCapability) : result unit SessionClientError :=
  if negb (cl_attached (wd_client w)) then Err CeDisconnected
  else if has_capability (cl_granted_capabilities (wd_client w)) capability then Ok tt
  else Err (CeMissingCapability capability).

Definition next_request_id (prefix uuid : string) : string := prefix +:+ "-" +:+ uuid.

(** The commands that need a capability; the request id carries a fresh UUID. *)
Inductive Command :=
  | KPrompt (text : string)
  | KInterrupt
  | KApprove (approval_id : string) (decision : ApprovalDecision)
  | KSetConfig (config_id : string) (value : RuntimeValue)
  | KStopSession
  | KClearHistory
  | KGetUsage
  | KListSessions (cursor : option string)
  | KSync.

Definition command_capability (k : Command) : ClientCapability :=
  match k with
  | KPrompt _ => CapPrompt
  | KInterrupt => CapInterrupt
  | KApprove _ decision =>
      if bool_decide (decision = AllowAlways) then CapApproveAlways else CapApproveOnce
  | KSetConfig _ _ | KClearHistory => CapConfigure
  | KStopSession => CapStop
  | KGetUsage | KListSessions _ | KSync => CapObserve
  end.

Definition command_message (v : ViewState) (k : Command) (uuid : string) : ClientMessage :=
  match k with
  | KPrompt text => CmPrompt (next_request_id "prompt" uuid) text
  | KInterrupt => CmInterrupt (Some (next_request_id "interrupt" uuid))
  | KApprove approval_id decision => CmApprovalResponse approval_id decision
  | KSetConfig config_id value => CmSetConfig (Some (next_request_id "set-config" uuid)) config_id value
  | KStopSession => CmStopSession (next_request_id "stop" uuid)
  | KClearHistory => CmClearHistory (next_request_id "clear" uuid)
  | KGetUsage => CmGetUsage (next_request_id "usage" uuid)
  | KListSessions cursor => CmListSessions (next_request_id "list" uuid) cursor
  | KSync => CmSyncRequest (vw_last_seq v)
  end.

Definition command (w : World) (k : Command) (uuid : string) : World * result unit SessionClientError :=
  match require w (command_capability k) with
  | Err e => (w, Err e)
  | Ok _ => send w (command_message (cl_state (wd_client w)) k uuid)
  end.

Definition ping (w : World) : World * result unit SessionClientError := send w CmPing.

Definition detach (w : World) : World * result unit SessionClientError :=
  match send w CmDetach with
  | (w, Err e) => (w, Err e)
  | (w, Ok _) => (set_attachment w (cl_granted_capabilities (wd_client w)) false, Ok tt)
  end.

(** ** The daemon's side of the handshake and of a sync request *)

(** The messages [serve_client] sends to a client it has admitted, up to the first
    live event: [stopped] is the check after fitting, [fit] the frame fitting. *)
Definition attach_reply (r : SessionEventRouter) (snapshot : SessionSnapshot)
    (fit : SessionSnapshot → result SessionSnapshot string) (stopped : bool) (session_id : string)
    (granted : list ClientCapability) (resume_seq : option Z) : list ServerMessage :=
  let observes := has_capability granted CapObserve in
  let resume_replay := if observes then replay_since r <$> resume_seq else None in
  let ok seq := SmAttachOk PROTOCOL_VERSION session_id granted seq in
  match resume_replay with
  | Some (Available events latest_seq) => ok latest_seq :: map (λ p, SmEvent p.1 p.2) events
  | _ =>
      if negb observes then [ok (latest_sequence r)]
      else
        let fitted := fit snapshot in
        if stopped
        then [SmAttachDenied (Some DeniedSessionStopped) "session stopped during attach"]
        else match fitted with
             | Err reason => [SmAttachDenied (Some DeniedSnapshotTooLarge) reason]
             | Ok snapshot => [ok (ss_seq snapshot); SmSnapshot (ss_seq snapshot) snapshot]
             end
  end.

(** The answer to [SyncRequest]. *)
Definition sync_reply (r : SessionEventRouter) (snapshot : SessionSnapshot)
    (fit : SessionSnapshot → result SessionSnapshot string)
    (granted : list ClientCapability) (last_seen_seq : Z) : list ServerMessage :=
  if negb (has_capability granted CapObserve)
  then [SmError None "capability_denied" "observe capability was not granted"]
  else match replay_since r last_seen_seq with
       | Available events _ => map (λ p, SmEvent p.1 p.2) events
       | SnapshotRequired _ =>
           match fit snapshot with
           | Ok snapshot => [SmSnapshot (ss_seq snapshot) snapshot]
           | Err message => [SmError None "snapshot_too_large" message]
           end
       end.

(** ** Runs *)

(** [receive], [n] times, while messages are there. *)
Fixpoint receives (n : nat) (w : World) : World :=
  match n with O => w | S n => receives n (receive w).1 end.

Definition facts_at (f0 : SessionFacts) (h : list SessionEvent) (n : Z) : SessionFacts :=
  fold_left facts_event (take (Z.to_nat n) h) f0.

(** What a server that keeps the log [h] sends: events of the log, and snapshots
    (at most [m] options) of the session at some position. *)
Definition honest (h : list SessionEvent) (f0 : SessionFacts) (m : nat)
    (r : result (option ServerMessage) TransportError) : Prop :=
  match r with
  | Ok (Some (SmEvent seq event)) => from_log h (seq, event)
  | Ok (Some (SmSnapshot _ s)) =>
      (0 ≤ ss_seq s ≤ Z.of_nat (length h))%Z ∧
      snapshot_facts s = trim_facts m (facts_at f0 h (ss_seq s))
  | _ => True
  end.

(** A client whose view is the session at its position. *)
Definition consistent (h : list SessionEvent) (f0 : SessionFacts) (m : nat) (v : ViewState) : Prop :=
  (0 ≤ vw_last_seq v ≤ Z.of_nat (length h))%Z ∧
  trim_facts m (view_facts v) = trim_facts m (facts_at f0 h (vw_last_seq v)).

(** ** Lemmas *)

Lemma require_unique_spec {A} `{EqDecision A} kind (seen ids : list A) :
  NoDup seen →
  require_unique kind seen ids =
  if decide (NoDup (reverse ids ++ seen)) then Ok tt else Err (CeProtocol (duplicate_message kind)).
Proof.
  revert seen. induction ids as [|id ids IH]; intros seen Hs; simpl.
  { by rewrite decide_True. }
  case_bool_decide as Hin.
  - rewrite decide_False; [done|]. rewrite reverse_cons, <- app_assoc.
    intros (_&_&[Hn _]%NoDup_cons)%NoDup_app. done.
  - rewrite IH by (by constructor). rewrite reverse_cons, <- app_assoc. done.
Qed.

Lemma require_unique_ok {A} `{EqDecision A} kind (ids : list A) :
  require_unique kind [] ids = Ok tt ↔ NoDup ids.
Proof.
  rewrite require_unique_spec by constructor. rewrite app_nil_r.
  assert (NoDup (reverse ids) ↔ NoDup ids) as Hr by (by rewrite reverse_Permutation).
  case_decide; split; intros; try done; tauto.
Qed.

Lemma facts_at_S f0 h n e :
  (0 ≤ n)%Z → h !! Z.to_nat n = Some e → facts_at f0 h (n + 1) = facts_event (facts_at f0 h n) e.
Proof.
  intros Hn He. unfold facts_at. replace (Z.to_nat (n + 1)) with (S (Z.to_nat n)) by lia.
  by rewrite (take_S_r _ _ _ He), fold_left_app.
Qed.

Lemma apply_event_cases v seq e :
  ((apply_event v seq e).1 = v ∧ seq ≠ vw_last_seq v + 1)%Z ∨
  (seq = vw_last_seq v + 1 ∧ vw_last_seq (apply_event v seq e).1 = seq ∧
   view_facts (apply_event v seq e).1 = facts_event (view_facts v) e)%Z.
Proof.
  destruct (decide (seq = vw_last_seq v + 1)%Z) as [->|Hne].
  - right. destruct (apply_event_next v e) as (_&->&_&->&_). done.
  - left. split; [|done]. unfold apply_event. destruct (seq <=? vw_last_seq v)%Z; [done|].
    destruct (Z.eqb_spec seq (vw_last_seq v + 1)); done.
Qed.

Lemma consistent_event h f0 m v seq e :
  consistent h f0 m v → from_log h (seq, e) →
  consistent h f0 m (apply_event v seq e).1 ∧ (vw_last_seq v ≤ vw_last_seq (apply_event v seq e).1)%Z.
Proof.
  intros [Hn Hf] [Hq He]. simpl in *.
  destruct (apply_event_cases v seq e) as [[-> _]|(->&Hs&Hf')]; [by split|].
  rewrite Hs. split; [|lia]. replace (vw_last_seq v + 1 - 1)%Z with (vw_last_seq v) in He by lia.
  split; rewrite Hs; [apply lookup_lt_Some in He; lia|].
  rewrite Hf', (facts_at_S _ _ _ e) by (done || lia).
  by rewrite <- trim_facts_event, Hf, trim_facts_event.
Qed.

Lemma trim_facts_idem m f : trim_facts m (trim_facts m f) = trim_facts m f.
Proof. unfold trim_facts; simpl. by rewrite lastn_idem. Qed.

Lemma consistent_receive h f0 m w :
  consistent h f0 m (cl_state (wd_client w)) → Forall (honest h f0 m) (tp_inbox (wd_transport w)) →
  let w' := (receive w).1 in
  consistent h f0 m (cl_state (wd_client w')) ∧ Forall (honest h f0 m) (tp_inbox (wd_transport w')) ∧
  (vw_last_seq (cl_state (wd_client w)) ≤ vw_last_seq (cl_state (wd_client w')))%Z.
Proof.
  intros Hc Hin. unfold receive, recv_message. destruct w as [[v ci rq gr at_] [inbox snd sent]].
  simpl in *. destruct inbox as [|r inbox]; [done|]. inv Hin.
  destruct r as [[msg|]|err]; [|done|done]. simpl.
  destruct msg as [| |q e|q s| | | | | |]; try done; simpl.
  - pose proof (consistent_event h f0 m v q e Hc ltac:(done)) as He.
    destruct (apply_event v q e) as [v' []]; simpl in *; unfold send; simpl; destruct snd; simpl; tauto.
  - destruct (Z.eqb_spec q (ss_seq s)) as [->|]; [|done]. simpl.
    case_bool_decide; [|done]. simpl.
    destruct (Z.ltb_spec (ss_seq s) (vw_last_seq v)); [done|].
    destruct (validate_snapshot_ids s); [|done]. simpl.
    destruct H1 as [Hn Hf]. split_and!; [|done|lia]. split; [done|].
    change (view_facts (apply_snapshot v s)) with (snapshot_facts s). by rewrite Hf, trim_facts_idem.
Qed.

Lemma consistent_receives h f0 m n w :
  consistent h f0 m (cl_state (wd_client w)) → Forall (honest h f0 m) (tp_inbox (wd_transport w)) →
  let w' := receives n w in
  consistent h f0 m (cl_state (wd_client w')) ∧
  (vw_last_seq (cl_state (wd_client w)) ≤ vw_last_seq (cl_state (wd_client w')))%Z.
Proof.
  revert w. induction n as [|n IH]; intros w Hc Hin; [done|]. simpl.
  destruct (consistent_receive h f0 m w Hc Hin) as (Hc'&Hin'&Hle).
  destruct (IH _ Hc' Hin') as [? ?]. split; [done|lia].
Qed.

(** *** What the frame fitting keeps *)

(** Entries that differ only in content that was dropped. *)
Definition same_entry (e e' : TimelineEntry) : Prop :=
  te_id e' = te_id e ∧ te_order e' = te_order e.

Lemma fit_in_candidates encode max s s' :
  fit_snapshot_to_frame encode max s = Some (Ok s') →
  s' ∈ candidates s ∧ fits encode max s' = Ok true.
Proof.
  unfold fit_snapshot_to_frame, candidates. intros H.
  assert (∀ fuel t low high r, search encode max fuel t low high = Some (Ok r) → low ≤ high →
    r ≤ high) as Hs.
  { clear. induction fuel as [|fuel IH]; intros t low high r; [done|]. cbn [search].
    destruct (Nat.ltb_spec low high); [|intros; simplify_eq; lia].
    assert ((high - low) / 2 < high - low) by (apply Nat.div_lt; lia).
    destruct (fits _ _ _) as [[]|]; [|..|done]; intros ?%IH ?; lia. }
  cbv zeta in *. destruct (fits encode max s) as [[|]|] eqn:?; simplify_eq; [split; [left|done]|].
  set (s1 := with_entries s _) in *.
  destruct (fits encode max s1) as [[|]|] eqn:?; simplify_eq; [split; [right; left|done]|].
  set (s2 := with_entries s1 _) in *.
  destruct (fits encode max s2) as [[|]|] eqn:?; simplify_eq; [split; [do 2 right; left|done]|].
  destruct (search _ _ _ _ _ _) as [[low|]|] eqn:Hse; simplify_eq.
  destruct (fits encode max (keep_from s2 low)) as [[|]|] eqn:?; simplify_eq. split; [|done].
  do 3 right. apply (list_elem_of_fmap_2 (keep_from s2)). apply list_elem_of_In, in_seq.
  apply Hs in Hse; [|lia]. simpl in Hse. rewrite !length_map in Hse. lia.
Qed.

(** *** Valid snapshots *)

Definition approvals_have_tools (s : SessionSnapshot) : Prop :=
  ∀ a, a ∈ ss_pending_approvals s →
    ∃ t, t ∈ ss_active_tools s ∧ at_tool_call_id t = ar_tool_call_id a.

Record snapshot_valid (s : SessionSnapshot) : Prop := {
  vs_ids : NoDup (map te_id (ss_timeline s));
  vs_tools : NoDup (map at_occurrence_id (ss_active_tools s));
  vs_approvals : NoDup (map ar_id (ss_pending_approvals s));
  vs_retained : hw_retained (ss_history_window s) = length (ss_timeline s);
  vs_total : hw_total (ss_history_window s) =
    Some (u64_saturating_add (hw_truncated_before (ss_history_window s))
            (Z.of_nat (length (ss_timeline s))));
  vs_live : Forall (λ t, is_terminal (at_status t) = false) (ss_active_tools s);
  vs_have : approvals_have_tools s;
  vs_options : NoDup (map ro_id (ss_runtime_options s));
}.

Lemma existsb_Forall_false {A} (p : A → bool) l : existsb p l = false ↔ Forall (λ x, p x = false) l.
Proof. rewrite existsb_not, Forall_forall. done. Qed.

Lemma approvals_check s :
  existsb (λ a, negb (existsb (λ t, bool_decide (at_tool_call_id t = ar_tool_call_id a))
    (ss_active_tools s))) (ss_pending_approvals s) = false ↔ approvals_have_tools s.
Proof.
  rewrite existsb_not. unfold approvals_have_tools. split; intros H a Ha; specialize (H a Ha).
  - apply negb_false_iff, existsb_elem in H as (t&?&?%bool_decide_eq_true). eauto.
  - destruct H as (t&?&?). apply negb_false_iff, existsb_elem. exists t. by rewrite bool_decide_eq_true.
Qed.

Lemma validate_ok_iff s : validate_snapshot_ids s = Ok tt ↔ snapshot_valid s.
Proof.
  unfold validate_snapshot_ids.
  pose proof (require_unique_ok "timeline" (map te_id (ss_timeline s))) as H1.
  pose proof (require_unique_ok "active tool occurrence" (map at_occurrence_id (ss_active_tools s))) as H2.
  pose proof (require_unique_ok "approval" (map ar_id (ss_pending_approvals s))) as H3.
  pose proof (require_unique_ok "runtime option" (map ro_id (ss_runtime_options s))) as H4.
  pose proof (approvals_check s) as H5.
  pose proof (existsb_Forall_false (λ t, is_terminal (at_status t)) (ss_active_tools s)) as H6.
  destruct (require_unique "timeline" _ _) as [[]|]; [|split; [done|intros []; naive_solver]].
  destruct (require_unique "active tool occurrence" _ _) as [[]|]; [|split; [done|intros []; naive_solver]].
  destruct (require_unique "approval" _ _) as [[]|]; [|split; [done|intros []; naive_solver]].
  destruct (Nat.eqb_spec (hw_retained (ss_history_window s)) (length (ss_timeline s))); simpl;
    [|split; [done|by intros []]].
  case_bool_decide; simpl; [|split; [done|by intros []]].
  destruct (existsb _ (ss_active_tools s)); [split; [done|intros []; naive_solver]|].
  destruct (existsb _ (ss_pending_approvals s)); [split; [done|intros []; naive_solver]|].
  rewrite H4. split; [intros; split; naive_solver|by intros []].
Qed.

(** What the frame fitting never touches. *)
Definition authoritative (s : SessionSnapshot) :=
  (ss_session_id s, ss_seq s, ss_active_tools s, snapshot_facts s).

Lemma drop_content_id e : te_id (drop_text e) = te_id e ∧ te_id (drop_tool_output e) = te_id e.
Proof. unfold drop_tool_output. split; [done|]. by repeat case_match. Qed.

Lemma candidate_valid s c :
  c ∈ candidates s →
  authoritative c = authoritative s ∧ (snapshot_valid s → snapshot_valid c).
Proof.
  assert (∀ s g, (∀ e, te_id (g e) = te_id e) → snapshot_valid s →
    snapshot_valid (with_entries s (map g (ss_timeline s)))) as Hmap.
  { intros t g Hg []. split; simpl; rewrite ?length_map; try done.
    rewrite map_map. by erewrite map_ext. }
  assert (∀ s n, snapshot_valid s → snapshot_valid (keep_from s n)) as Hkeep.
  { intros t n [Hids]. split; simpl; try done. rewrite <- skipn_map.
    eapply sublist_NoDup; [exact Hids|]. apply sublist_drop. }
  unfold candidates. rewrite !elem_of_cons. intros [->|[->|[->|Hc]]]; [done|..].
  - split; [done|]. intros. apply Hmap; [apply drop_content_id|done].
  - split; [done|]. intros. apply Hmap; [apply drop_content_id|]. apply Hmap; [apply drop_content_id|done].
  - apply (list_elem_of_fmap_1 (keep_from _)) in Hc as (n&->&_). split; [done|]. intros.
    apply Hkeep, Hmap; [apply drop_content_id|]. apply Hmap; [apply drop_content_id|done].
Qed.

(** *** The daemon's snapshots *)

Lemma facts_approvals_nodup f e :
  NoDup (map ar_id (fa_pending_approvals f)) → NoDup (map ar_id (fa_pending_approvals (facts_event f e))).
Proof.
  destruct f as [t d pending o u]; simpl. intros Hnd.
  destruct e as [| | | | | | |request|id ? ?|id dl ps| | | | | |]; simpl; try done.
  - unfold add_approval. destruct (existsb _ pending) eqn:E; [done|].
    rewrite map_app. simpl. apply NoDup_app. split_and!; [done| |apply NoDup_singleton].
    intros x Hx Hr%list_elem_of_singleton. subst.
    apply (list_elem_of_fmap_1 ar_id) in Hx as (a&Heq&Ha).
    rewrite existsb_not in E. specialize (E a Ha). by apply bool_decide_eq_false in E.
  - unfold remove_approval. eapply sublist_NoDup; [exact Hnd|].
    clear Hnd. induction pending as [|a pending IH]; [constructor|]. simpl.
    destruct (negb _); simpl; by constructor.
  - unfold change_deadline. assert (∀ l, map ar_id (update_first
      (λ a, bool_decide (ar_id a = id)) (set_deadline dl ps) l) = map ar_id l) as ->; [|done].
    induction l as [|a l IH]; [done|]. simpl. case_bool_decide; simpl; [done|by rewrite IH].
  - constructor.
Qed.

Lemma facts_run_nodup h f :
  NoDup (map ar_id (fa_pending_approvals f)) →
  NoDup (map ar_id (fa_pending_approvals (fold_left facts_event h f))).
Proof. revert f. induction h; intros; simpl; auto using facts_approvals_nodup. Qed.

Lemma live_tools_sublist l : map at_occurrence_id (live_tools l) `sublist_of` map te_id l.
Proof.
  induction l as [|e l IH]; [constructor|]. unfold live_tools; simpl. fold (live_tools l).
  destruct (active_of e) as [t|] eqn:Ha; simpl; [|by constructor].
  apply active_of_Some in Ha as [-> _]. by constructor.
Qed.

Lemma live_tools_not_ended l : Forall (λ t, is_terminal (at_status t) = false) (live_tools l).
Proof.
  apply Forall_forall. intros t (e&_&Ha)%list_elem_of_omap. unfold active_of in Ha.
  repeat case_match; by simplify_eq/=.
Qed.

Lemma daemon_valid m s f st :
  0 < m → daemon_at m s f st → (sp_next s ≤ U64_MAX)%Z → NoDup (map ar_id (fa_pending_approvals f)) →
  snapshot_valid (sn_snapshot st) ↔
  approvals_have_tools (sn_snapshot st) ∧ NoDup (map ro_id (ss_runtime_options (sn_snapshot st))).
Proof.
  intros Hm [_ Hr Hwf _ Hf Hp] Hmax Hnd. split; [by intros []|]. intros [Hhave Hopt].
  injection Hp as Ht Ha Hw. rewrite (rf_timeline _ _ _ Hr) in Ht. rewrite (rf_active _ _ _ Hr) in Ha.
  rewrite (rf_window _ _ _ Hr) in Hw. pose proof (wf_next _ Hwf).
  pose proof (sorted_NoDup _ (wf_sorted _ Hwf)) as Hids.
  split; try done; rewrite <- ?Ht, <- ?Ha, <- ?Hw; simpl.
  - rewrite <- map_lastn. eapply sublist_NoDup; [exact Hids|]. apply sublist_drop.
  - eapply sublist_NoDup; [exact Hids|]. apply live_tools_sublist.
  - injection Hf as _ _ -> _ _. done.
  - by rewrite length_lastn.
  - rewrite length_lastn, u64_saturating_add_exact by lia. f_equal. lia.
  - apply live_tools_not_ended.
Qed.

(** *** The handshake *)

Definition arrived (m : ServerMessage) : result (option ServerMessage) TransportError := Ok (Some m).

Definition set_inbox (w : World) (inbox : list (result (option ServerMessage) TransportError)) : World :=
  mkWorld (wd_client w) (mkTransport inbox (tp_send (wd_transport w)) (tp_sent (wd_transport w))).

(** The next replayed event is folded; the loop ends at the announced number. *)
Lemma attach_loop_event fuel w requested cr sid n e inbox :
  let v := cl_state (wd_client w) in
  tp_inbox (wd_transport w) = arrived (SmEvent (vw_last_seq v + 1) e) :: inbox →
  attach_loop (S fuel) w requested cr (Some (sid, n)) =
  let w1 := set_state (set_inbox w inbox) (apply_event v (vw_last_seq v + 1) e).1 in
  if (vw_last_seq v + 1 =? n)%Z then (w1, Done (Ok tt))
  else attach_loop fuel w1 requested cr (Some (sid, n)).
Proof.
  intros v Hin. cbn [attach_loop]. unfold recv_message. rewrite Hin. simpl. fold v.
  destruct (apply_event_next v e) as (Ho&Hseq&_).
  destruct (apply_event v (vw_last_seq v + 1) e) as [v1 o]. simpl in *. subst o. rewrite Hseq.
  by destruct (vw_last_seq v + 1 =? n)%Z.
Qed.

(** Replayed events are folded until the announced number is reached. *)
Lemma attach_loop_events evs : ∀ w v k sid requested cr rest fuel e,
  cl_state (wd_client w) = v → vw_last_seq v = k → S (length evs) ≤ fuel →
  tp_inbox (wd_transport w) =
    map arrived (map (λ p, SmEvent p.1 p.2) (number_from k (e :: evs))) ++ rest →
  attach_loop fuel w requested cr (Some (sid, k + Z.of_nat (S (length evs)))%Z) =
  (set_state (set_inbox w rest) (apply_events v (number_from k (e :: evs))).1, Done (Ok tt)).
Proof.
  induction evs as [|e' evs IH]; intros w v k sid requested cr rest fuel e Hv Hk Hf Hin;
    (destruct fuel as [|fuel]; [lia|]); subst v k;
    rewrite (attach_loop_event _ _ _ _ _ _ e _ Hin); cbv zeta;
    destruct (apply_event_next (cl_state (wd_client w)) e) as (_&Hseq&_);
    cbn [number_from apply_events];
    destruct (apply_event (cl_state (wd_client w)) _ e) as [v1 o]; cbn [fst] in *.
  - cbn [length]. change (Z.of_nat 1) with 1%Z. by rewrite Z.eqb_refl.
  - destruct (Z.eqb_spec (vw_last_seq (cl_state (wd_client w)) + 1)
      (vw_last_seq (cl_state (wd_client w)) + Z.of_nat (S (length (e' :: evs)))))%Z; [simpl in *; lia|].
    replace (vw_last_seq (cl_state (wd_client w)) + Z.of_nat (S (length (e' :: evs))))%Z
      with (vw_last_seq v1 + Z.of_nat (S (length evs)))%Z by (simpl; lia).
    rewrite (IH _ v1 _ sid _ _ rest _ e'); [|done|done|simpl in *; lia|by rewrite Hseq].
    rewrite Hseq. cbn [number_from apply_events].
    destruct (apply_event v1 _ e') as [v2 o2]. by destruct (apply_events v2 _).
Qed.

Lemma attach_loop_ok fuel w session_id cr sid granted seq inbox :
  tp_inbox (wd_transport w) = arrived (SmAttachOk PROTOCOL_VERSION sid granted seq) :: inbox →
  has_capability granted CapObserve = true → session_id = None ∨ session_id = Some sid →
  attach_loop (S fuel) w session_id cr None =
  let w1 := set_attachment (set_inbox w inbox) granted true in
  let v := cl_state (wd_client w) in
  if cr && bool_decide (vw_session_id v = sid) && (vw_last_seq v =? seq)%Z then (w1, Done (Ok tt))
  else attach_loop fuel w1 session_id cr (Some (sid, seq)).
Proof.
  intros Hin Hg Hid. cbn [attach_loop]. unfold recv_message. rewrite Hin. simpl. rewrite Hg. simpl.
  assert (match session_id with Some r => negb (bool_decide (r = sid)) | None => false end = false) as ->.
  { destruct Hid as [->| ->]; [done|]. by rewrite bool_decide_true. }
  by destruct (cr && _ && _).
Qed.

Lemma attach_loop_snapshot fuel w session_id cr sid n s inbox :
  tp_inbox (wd_transport w) = arrived (SmSnapshot (ss_seq s) s) :: inbox →
  ss_session_id s = sid → ss_seq s = n → validate_snapshot_ids s = Ok tt →
  attach_loop (S fuel) w session_id cr (Some (sid, n)) =
  (set_state (set_inbox w inbox) (apply_snapshot (cl_state (wd_client w)) s), Done (Ok tt)).
Proof.
  intros Hin Hid Hn Hv. cbn [attach_loop]. unfold recv_message. rewrite Hin. simpl.
  rewrite bool_decide_true by done. rewrite <- Hn, Z.eqb_refl. simpl. by rewrite Hv.
Qed.

(** The reply with a snapshot. *)
Lemma attach_loop_reply_snapshot fuel w session_id cr sid granted s rest :
  tp_inbox (wd_transport w) =
    arrived (SmAttachOk PROTOCOL_VERSION sid granted (ss_seq s)) :: arrived (SmSnapshot (ss_seq s) s) :: rest →
  has_capability granted CapObserve = true → session_id = None ∨ session_id = Some sid →
  (cr = true → vw_last_seq (cl_state (wd_client w)) ≠ ss_seq s) →
  ss_session_id s = sid → validate_snapshot_ids s = Ok tt →
  attach_loop (S (S fuel)) w session_id cr None =
  (set_state (set_attachment (set_inbox w rest) granted true) (apply_snapshot (cl_state (wd_client w)) s),
   Done (Ok tt)).
Proof.
  intros Hin Hg Hid Hne Hs Hv. rewrite (attach_loop_ok _ _ _ _ _ _ _ _ Hin) by done. cbv zeta.
  assert (cr && bool_decide (vw_session_id (cl_state (wd_client w)) = sid)
          && (vw_last_seq (cl_state (wd_client w)) =? ss_seq s)%Z = false) as ->.
  { destruct cr; [|done]. apply andb_false_iff. right. apply Z.eqb_neq. auto. }
  by rewrite (attach_loop_snapshot _ _ _ _ _ _ s rest).
Qed.

Lemma apply_event_session v q e : vw_session_id (apply_event v q e).1 = vw_session_id v.
Proof. unfold apply_event. repeat case_match; try done. by destruct v, e. Qed.

Lemma apply_events_session v l : vw_session_id (apply_events v l).1 = vw_session_id v.
Proof.
  revert v. induction l as [|[q e] l IH]; intros v; [done|]. simpl.
  pose proof (apply_event_session v q e) as H. destruct (apply_event v q e) as [v1 o].
  specialize (IH v1). destruct (apply_events v1 l). simpl in *. congruence.
Qed.

(** The reply with the events the client has not seen. *)
Lemma attach_loop_reply_events fuel w session_id sid granted evs rest :
  let v := cl_state (wd_client w) in
  let latest := (vw_last_seq v + Z.of_nat (length evs))%Z in
  tp_inbox (wd_transport w) =
    arrived (SmAttachOk PROTOCOL_VERSION sid granted latest) ::
    map arrived (map (λ p, SmEvent p.1 p.2) (number_from (vw_last_seq v) evs)) ++ rest →
  has_capability granted CapObserve = true → session_id = None ∨ session_id = Some sid →
  vw_session_id v = sid → length evs ≤ fuel →
  attach_loop (S fuel) w session_id true None =
  (set_state (set_attachment (set_inbox w rest) granted true)
     (apply_events v (number_from (vw_last_seq v) evs)).1, Done (Ok tt)).
Proof.
  intros v latest Hin Hg Hid Hs Hf. rewrite (attach_loop_ok _ _ _ _ _ _ _ _ Hin) by done. cbv zeta.
  fold v. rewrite bool_decide_true by done. simpl. unfold latest.
  destruct evs as [|e evs].
  - simpl. by rewrite Z.add_0_r, Z.eqb_refl.
  - destruct (Z.eqb_spec (vw_last_seq v) (vw_last_seq v + Z.of_nat (length (e :: evs)))%Z);
      [simpl in *; lia|].
    by rewrite (attach_loop_events evs _ v (vw_last_seq v) sid _ _ rest _ e).
Qed.

(** Either reply leads to the router's sequence number. *)
Lemma attach_loop_reply r h snapshot fit s' sid granted w session_id rest fuel :
  let v := cl_state (wd_client w) in
  let resume := can_resume_of v session_id in
  let reply := attach_reply r snapshot fit false sid granted
                 (if resume then Some (vw_last_seq v) else None) in
  router_log r h → (Z.of_nat (length h) ≤ U64_MAX)%Z → (0 ≤ vw_last_seq v)%Z →
  has_capability granted CapObserve = true → session_id = None ∨ session_id = Some sid →
  fit snapshot = Ok s' → ss_session_id s' = sid → ss_seq s' = Z.of_nat (length h) →
  validate_snapshot_ids s' = Ok tt →
  tp_inbox (wd_transport w) = map arrived reply ++ rest → length reply ≤ fuel →
  ∃ v', attach_loop fuel w session_id resume None =
    (set_state (set_attachment (set_inbox w rest) granted true) v', Done (Ok tt)) ∧
    vw_session_id v' = sid ∧ vw_last_seq v' = Z.of_nat (length h) ∧
    (v' = apply_snapshot v s' ∨ (resume = true ∧ v' = advance v h (length h))).
Proof.
  intros v resume reply Hlog Hmax Hv0 Hobs Hid Hfit Hsid Hseq Hval Hin Hfuel.
  match goal with |- ?G =>
    assert (Hsnap : reply = [SmAttachOk PROTOCOL_VERSION sid granted (ss_seq s'); SmSnapshot (ss_seq s') s'] →
      (resume = true → vw_last_seq v ≠ ss_seq s') → G) end.
  { intros Hre Hne. rewrite Hre in Hin, Hfuel. exists (apply_snapshot v s').
    destruct fuel as [|[|fuel]]; [simpl in Hfuel; lia..|]. split_and!; [|done|done|by left].
    exact (attach_loop_reply_snapshot fuel w session_id resume sid granted s' rest Hin Hobs Hid Hne Hsid Hval). }
  unfold reply, attach_reply in Hin, Hsnap, Hfuel. rewrite Hobs, Hfit in Hin, Hsnap, Hfuel.
  destruct resume eqn:Hres; simpl in Hin, Hsnap, Hfuel; [|by apply Hsnap].
  rewrite (replay_since_log r h) in Hin, Hsnap, Hfuel by done.
  case_decide as Hk; [clear Hsnap|apply Hsnap; [done|intros _; lia]].
  destruct Hk as [Hk _]. rewrite drop_number_from in Hin, Hfuel by lia.
  replace (0 + Z.of_nat (Z.to_nat (vw_last_seq v)))%Z with (vw_last_seq v) in Hin, Hfuel by lia.
  pose proof (advance_seq v h (length h) Hv0 ltac:(lia)) as Hseq'.
  destruct fuel as [|fuel]; [simpl in Hfuel; lia|]. exists (advance v h (length h)).
  split_and!; [|unfold advance; rewrite apply_events_session|done|by right].
  - unfold advance. rewrite firstn_all. apply (attach_loop_reply_events _ _ _ sid); [|done|done| |].
    + fold v. rewrite length_drop.
      by replace (vw_last_seq v + Z.of_nat (length h - Z.to_nat (vw_last_seq v)))%Z
        with (Z.of_nat (length h)) by lia.
    + unfold resume, can_resume_of in Hres. destruct Hid as [->| ->]; [done|].
      by apply bool_decide_eq_true in Hres.
    + simpl in Hfuel. rewrite !length_map, length_number_from in Hfuel. lia.
  - unfold resume, can_resume_of in Hres. destruct Hid as [->| ->]; [done|].
    by apply bool_decide_eq_true in Hres.
Qed.

(** ** Properties *)

(** C10: the client's view is always the session at some position.  However the
    messages of an honest server arrive (repeated, late, out of order, with
    snapshots in between, with other messages, disconnects and transport errors
    among them), after any number of receive steps the turn and durability status,
    the approvals, the options and the usage the client shows are those of the log
    at the client's sequence number, and that number never decreases. *)
Theorem received_view_is_consistent h f0 m n w :
  consistent h f0 m (cl_state (wd_client w)) →
  Forall (honest h f0 m) (tp_inbox (wd_transport w)) →
  let w' := receives n w in
  consistent h f0 m (cl_state (wd_client w')) ∧
  (vw_last_seq (cl_state (wd_client w)) ≤ vw_last_seq (cl_state (wd_client w')))%Z.
Proof. apply consistent_receives. Qed.

(** what the daemon sends, the client accepts.  The snapshot the daemon
    maintains passes the client's validation exactly when every pending approval
    belongs to an active tool and the runtime options have distinct ids; fitting it
    into a frame keeps it valid, keeps the identity, the position, the active tools
    and everything but the timeline, and it is honest. *)
Theorem daemon_snapshot_accepted m s0 ops h later encode max s' :
  0 < m → Forall op_ok ops →
  into_parts (run_ops (new m) ops) = (ss_timeline s0, ss_active_tools s0, ss_history_window s0) →
  (1 + Z.of_nat (length ops) + Z.of_nat (length h) ≤ U64_MAX)%Z →
  NoDup (map ar_id (ss_pending_approvals s0)) → ss_seq s0 = 0%Z →
  let d := sn_snapshot (snapshot_run (from_snapshot s0 m) (number_from 0 h)) in
  (validate_snapshot_ids d = Ok tt ↔
   approvals_have_tools d ∧ NoDup (map ro_id (ss_runtime_options d))) ∧
  (fit_snapshot_to_frame encode max d = Some (Ok s') →
   fits encode max s' = Ok true ∧ authoritative s' = authoritative d ∧
   (validate_snapshot_ids d = Ok tt → validate_snapshot_ids s' = Ok tt) ∧
   honest (h ++ later) (snapshot_facts s0) m (arrived (SmSnapshot (ss_seq s') s'))).
Proof.
  intros Hm Hok Hp Hmax Hnd Hseq d.
  destruct (daemon_start m s0 ops Hm Hok ltac:(lia) Hp) as (s&Hns&Hd0&Hq0). rewrite Hseq in Hq0.
  destruct (daemon_run m s _ _ _ h Hm Hd0 Hq0) as [Hd Hq]; [lia|]. fold d in Hq.
  pose proof (spec_ops_next s (map OpApply h)) as Hn. rewrite length_map in Hn.
  split; [rewrite validate_ok_iff; apply (daemon_valid m _ _ _ Hm Hd); [lia|by apply facts_run_nodup]|].
  intros [Hc Hfit]%fit_in_candidates. destruct (candidate_valid _ _ Hc) as [Hau Hv].
  rewrite !validate_ok_iff. split_and!; [done|done|done|].
  assert (ss_seq s' = ss_seq d ∧ snapshot_facts s' = snapshot_facts d) as [Hs' Hf']
    by (split; [exact (f_equal (λ a, a.1.1.2) Hau)|exact (f_equal snd Hau)]).
  split; rewrite Hs', Hq; [rewrite length_app; lia|].
  pose proof (da_facts _ _ _ _ Hd) as Hfd. fold d in Hfd. rewrite Hf', Hfd. unfold facts_at.
  replace (Z.to_nat (0 + Z.of_nat (length h))) with (length h) by lia. by rewrite take_app_length.
Qed.

(** the attach handshake.  A client that sends its attach or resume request to a
    session and receives the daemon's reply is attached, has taken exactly the
    reply from the transport, and stands at the daemon's sequence number: with its
    own view advanced by the replayed events when it could resume, with the
    daemon's snapshot otherwise. *)
Theorem attach_reaches_daemon r h snapshot fit s' sid granted w session_id rest :
  let v := cl_state (wd_client w) in
  let resume := can_resume_of v session_id in
  router_log r h → (Z.of_nat (length h) ≤ U64_MAX)%Z → (0 ≤ vw_last_seq v)%Z →
  has_capability granted CapObserve = true → tp_send (wd_transport w) = Ok tt →
  session_id = None ∨ session_id = Some sid →
  fit snapshot = Ok s' → ss_session_id s' = sid → ss_seq s' = Z.of_nat (length h) →
  validate_snapshot_ids s' = Ok tt →
  tp_inbox (wd_transport w) =
    map arrived (attach_reply r snapshot fit false sid granted
      (if resume then Some (vw_last_seq v) else None)) ++ rest →
  let '(w', o) := attach w session_id in
  let v' := cl_state (wd_client w') in
  o = Done (Ok tt) ∧ cl_attached (wd_client w') = true ∧
  cl_granted_capabilities (wd_client w') = granted ∧
  tp_inbox (wd_transport w') = rest ∧
  vw_session_id v' = sid ∧ vw_last_seq v' = rt_sequence r ∧
  (v' = apply_snapshot v s' ∨ (resume = true ∧ v' = advance v h (length h))).
Proof.
  intros v resume Hlog Hmax Hv0 Hobs Hsend Hid Hfit Hsid Hseq Hval Hin.
  unfold attach, attach_inner, send. with_strategy opaque [attach_loop] simpl.
  rewrite Hsend. with_strategy opaque [attach_loop] simpl. fold v resume.
  set (w0 := mkWorld _ _).
  destruct (attach_loop_reply r h snapshot fit s' sid granted w0 session_id rest
    (S (length (tp_inbox (wd_transport w))))) as (v'&Heq&Hs&Hq&Hv'); try done.
  { rewrite Hin, length_app, length_map. unfold w0, resume, v. simpl. lia. }
  change (can_resume_of (cl_state (wd_client w0)) session_id) with resume in Heq.
  rewrite Heq, (log_sequence _ _ Hlog). done.
Qed.

(** ** Witnesses *)

Definition demo_client : SessionClient :=
  client_new {| client_id := "c"; client_kind := KindTerminal; client_label := "t" |} [CapObserve] 5.

Definition demo_events : list SessionEvent := [TurnStatusChanged TurnRunning; UserMessage "q" None].

Lemma received_view_is_consistent_witness :
  let w := mkWorld demo_client (mkTransport
    [arrived (SmEvent 2 (UserMessage "q" None)); arrived (SmEvent 1 (TurnStatusChanged TurnRunning));
     arrived SmPong; arrived (SmEvent 2 (UserMessage "q" None))] (Ok tt) []) in
  vw_turn_status (cl_state (wd_client (receives 4 w))) = TurnRunning ∧
  consistent demo_events (view_facts (cl_state demo_client)) 5 (cl_state (wd_client (receives 4 w))).
Proof.
  cbv zeta. split; [done|].
  apply (received_view_is_consistent demo_events (view_facts (cl_state demo_client)) 5 4).
  - by split.
  - repeat constructor; done.
Defined.

Lemma daemon_snapshot_accepted_witness :
  let d := sn_snapshot (snapshot_run (from_snapshot (empty_snapshot "s") 5) (number_from 0 demo_events)) in
  validate_snapshot_ids d = Ok tt.
Proof.
  destruct (daemon_snapshot_accepted 5 (empty_snapshot "s") [] demo_events [] (λ _, Ok 0) 0
    (empty_snapshot "s")) as [[_ H] _]; [lia|constructor|done|done|constructor|done|].
  apply H. split; [|constructor]. intros a Ha. by apply not_elem_of_nil in Ha.
Defined.

Lemma attach_reaches_daemon_witness :
  let r := (router_run (new_with_replay None 4) (map REmit demo_events)).1 in
  let d := sn_snapshot (snapshot_run (from_snapshot (empty_snapshot "s") 5) (number_from 0 demo_events)) in
  let w := mkWorld demo_client (mkTransport
    (map arrived (attach_reply r d Ok false "s" [CapObserve] None)) (Ok tt) []) in
  vw_last_seq (cl_state (wd_client (attach w (Some "s")).1)) = 2%Z.
Proof.
  cbv zeta.
  pose proof (attach_reaches_daemon (router_run (new_with_replay None 4) (map REmit demo_events)).1 demo_events
    (sn_snapshot (snapshot_run (from_snapshot (empty_snapshot "s") 5) (number_from 0 demo_events))) Ok
    (sn_snapshot (snapshot_run (from_snapshot (empty_snapshot "s") 5) (number_from 0 demo_events)))
    "s" [CapObserve]
    (mkWorld demo_client (mkTransport
      (map arrived (attach_reply (router_run (new_with_replay None 4) (map REmit demo_events)).1
        (sn_snapshot (snapshot_run (from_snapshot (empty_snapshot "s") 5) (number_from 0 demo_events)))
        Ok false "s" [CapObserve] None)) (Ok tt) []))
    (Some "s") [] ltac:(by split) ltac:(done) ltac:(done) eq_refl eq_refl ltac:(by right) eq_refl
    eq_refl eq_refl eq_refl eq_refl) as H.
  destruct (attach _ _) as [w' o]. destruct H as (_&_&_&_&_&H&_). simpl. by rewrite H.
Defined.
