(* ===== verification/RemoteAuth.v ===== *)
(** * Pairing and authentication of remote devices

    Models [PairingAuthority] of [src/src/remote_auth.rs]: single-use claims, pairing
    requests, local approval, tickets bound to a device key, revocation.  Every method
    holds the authority's lock from its first access to its return, so each is one
    function of the state.  The clock, random secrets and ids are arguments; the
    cryptography (base64, Ed25519, SHA-256) is the class [DeviceCrypto].

    A notification channel ([watch::Sender]) is a number; the channels on which [true]
    was sent are the set [au_signalled].  A history is the list of the operations
    performed so far. *)

From stdpp Require Import base numbers list strings gmap sorting.
From S2P Require Import Prelude RustStr Protocol.

(** ** The libraries the authority uses *)

Class DeviceCrypto (Key Sig : Type) := {
  base64_decode : string → option string;
  key_from_bytes : string → option Key;
  key_bytes : Key → string;
  signature_from_slice : string → option Sig;
  verify : Key → string → Sig → bool;
  sha256 : string → string;
}.

(** ** Data *)

Record PendingPairing := mkPairing {
  pp_id : string;
  pp_device_id : string;
  pp_fingerprint : string;
  pp_label : string;
  pp_requested_capabilities : list ClientCapability;
}.

Record TicketGrant := mkGrant {
  tg_ticket : string;
  tg_device_id : string;
  tg_capabilities : list ClientCapability;
}.

Record AuthenticatedDevice := mkDevice {
  ad_device_id : string;
  ad_label : string;
  ad_capabilities : list ClientCapability;
}.

Inductive AuthError :=
  | UnknownClaim | ExpiredClaim | InvalidDeviceKey | PairingNotFound | PairingAlreadyResolved
  | CapabilitiesNotRequested | UnknownTicket | DeviceKeyMismatch | InvalidSignature | DeviceLimitReached.

#[export] Instance AuthError_eq_dec : EqDecision AuthError.
Proof. solve_decision. Defined.

Record PairingClaim := mkClaim { pc_secret : string; pc_expires_in_secs : Z }.

Section remote_auth.
Context {Key Sig : Type} `{key_eq_dec : !EqDecision Key} `{crypto : !DeviceCrypto Key Sig}.

Record TicketState := mkTicket {
  ts_device_id : string;
  ts_label : string;
  ts_verifying_key : Key;
  ts_capabilities : list ClientCapability;
}.

Inductive PairingResolution :=
  | PrPending
  | PrApproved (grant : TicketGrant) (ticket : TicketState)
  | PrDenied.

Record PendingState := mkPendingState {
  ps_request : PendingPairing;
  ps_verifying_key : Key;
  ps_resolution : PairingResolution;
}.

Record AuthorityState := mkAuthority {
  au_claims : gmap string Z;
  au_pending : gmap string PendingState;
  au_tickets : gmap string TicketState;
  au_device_notifiers : gmap string nat;
  au_next_channel : nat;
  au_signalled : gset nat;
}.

Definition authority_new : AuthorityState := mkAuthority ∅ ∅ ∅ ∅ 0 ∅.

Definition set_claims (c : gmap string Z) (s : AuthorityState) : AuthorityState :=
  mkAuthority c (au_pending s) (au_tickets s) (au_device_notifiers s) (au_next_channel s) (au_signalled s).
Definition set_pending (p : gmap string PendingState) (s : AuthorityState) : AuthorityState :=
  mkAuthority (au_claims s) p (au_tickets s) (au_device_notifiers s) (au_next_channel s) (au_signalled s).

(** ** Helpers *)

Definition NUL : string := String (Ascii.ascii_of_nat 0) "".

Definition AUTH_DOMAIN : string := "daimonos-remote-v2" +:+ NUL.

Definition auth_message (challenge ticket : string) : string :=
  AUTH_DOMAIN +:+ challenge +:+ NUL +:+ ticket.

Definition decode_verifying_key (encoded : string) : result Key AuthError :=
  match base64_decode encoded with
  | None => Err InvalidDeviceKey
  | Some bytes =>
      if String.length bytes =? 32 then ok_or (key_from_bytes bytes) InvalidDeviceKey else Err InvalidDeviceKey
  end.

Definition hex_digit (n : nat) : string :=
  String (Ascii.ascii_of_nat (if n <? 10 then 48 + n else 87 + n)) "".

Fixpoint hex_encode (bytes : string) : string :=
  match bytes with
  | EmptyString => ""
  | String c bytes => hex_digit (byte_of c / 16) +:+ hex_digit (byte_of c mod 16) +:+ hex_encode bytes
  end.

Definition device_id (key : Key) : string := hex_encode (sha256 (key_bytes key)).

(** [chunks(4)], at most [n] of them. *)
Fixpoint chunks4 (n : nat) (s : string) : list string :=
  match n, s with
  | S n, String _ _ => str_take 4 s :: chunks4 n (str_drop 4 s)
  | _, _ => []
  end.

Definition display_fingerprint (device_id : string) : string := join ":" (chunks4 8 device_id).

Definition add_capability (acc : list ClientCapability) (c : ClientCapability) : list ClientCapability :=
  if bool_decide (c ∈ acc) then acc else acc ++ [c].

Definition deduplicate_capabilities (capabilities : list ClientCapability) : list ClientCapability :=
  foldl add_capability [] capabilities.

(** ** Operations *)

Section authority.
Context (claim_ttl : Z) (max_devices : nat).

Definition create_claim_at (now : Z) (secret : string) (s : AuthorityState) : PairingClaim * AuthorityState :=
  let claims := filter (λ c : string * Z, now < c.2)%Z (au_claims s) in
  (mkClaim secret (claim_ttl / 1000000000), set_claims (<[secret := (now + claim_ttl)%Z]> claims) s).

Definition submit_pairing_at (claim device_public_key label : string)
    (requested_capabilities : list ClientCapability) (now : Z) (uuid : string) (s : AuthorityState)
    : result PendingPairing AuthError * AuthorityState :=
  match decode_verifying_key device_public_key with
  | Err e => (Err e, s)
  | Ok verifying_key =>
      match au_claims s !! claim with
      | None => (Err UnknownClaim, s)
      | Some expires_at =>
          let s := set_claims (delete claim (au_claims s)) s in
          if (expires_at <=? now)%Z then (Err ExpiredClaim, s)
          else
            let id := device_id verifying_key in
            let request := mkPairing uuid id (display_fingerprint id) label
                             (deduplicate_capabilities requested_capabilities) in
            (Ok request,
             set_pending (<[uuid := mkPendingState request verifying_key PrPending]> (au_pending s)) s)
      end
  end.

Definition is_pending (p : PendingState) : bool := match ps_resolution p with PrPending => true | _ => false end.
Definition is_approved (p : PendingState) : bool := match ps_resolution p with PrApproved _ _ => true | _ => false end.

Definition pending_pairings (s : AuthorityState) : list PendingPairing :=
  sort_by (λ l r, str_leb (pp_id l) (pp_id r))
    (ps_request <$> List.filter is_pending (snd <$> map_to_list (au_pending s))).

Definition known_devices (s : AuthorityState) : gset string :=
  dom (au_device_notifiers s) ∪
  list_to_set ((λ p, pp_device_id (ps_request p)) <$> List.filter is_approved (snd <$> map_to_list (au_pending s))).

Definition approve (pairing_id : string) (capabilities : list ClientCapability) (secret : string)
    (s : AuthorityState) : result TicketGrant AuthError * AuthorityState :=
  match au_pending s !! pairing_id with
  | None => (Err PairingNotFound, s)
  | Some pending =>
      let request := ps_request pending in
      if negb (bool_decide (pp_device_id request ∈ known_devices s)) && (max_devices <=? size (known_devices s))
      then (Err DeviceLimitReached, s)
      else if negb (is_pending pending) then (Err PairingAlreadyResolved, s)
      else
        let capabilities := deduplicate_capabilities capabilities in
        if existsb (λ c, negb (bool_decide (c ∈ pp_requested_capabilities request))) capabilities
        then (Err CapabilitiesNotRequested, s)
        else
          let grant := mkGrant secret (pp_device_id request) capabilities in
          let ticket := mkTicket (pp_device_id request) (pp_label request) (ps_verifying_key pending) capabilities in
          (Ok grant,
           set_pending (<[pairing_id := mkPendingState request (ps_verifying_key pending) (PrApproved grant ticket)]>
                          (au_pending s)) s)
  end.

Definition deny (pairing_id : string) (s : AuthorityState) : result unit AuthError * AuthorityState :=
  match au_pending s !! pairing_id with
  | None => (Err PairingNotFound, s)
  | Some pending =>
      if negb (is_pending pending) then (Err PairingAlreadyResolved, s)
      else (Ok (), set_pending (<[pairing_id := mkPendingState (ps_request pending) (ps_verifying_key pending) PrDenied]>
                                  (au_pending s)) s)
  end.

Definition pairing_grant (pairing_id : string) (s : AuthorityState) : result (option TicketGrant) AuthError :=
  match au_pending s !! pairing_id with
  | None => Err PairingNotFound
  | Some pending =>
      match ps_resolution pending with
      | PrPending => Ok None
      | PrApproved grant _ => Ok (Some grant)
      | PrDenied => Err PairingAlreadyResolved
      end
  end.

(** [notifier.send_replace(true)] on the removed notifier of a device. *)
Definition signal_device (device : string) (s : AuthorityState) : AuthorityState :=
  mkAuthority (au_claims s) (au_pending s) (au_tickets s) (delete device (au_device_notifiers s)) (au_next_channel s)
    (match au_device_notifiers s !! device with Some c => {[c]} ∪ au_signalled s | None => au_signalled s end).

Definition drop_tickets (device : string) (s : AuthorityState) : AuthorityState :=
  mkAuthority (au_claims s) (au_pending s)
    (filter (λ t : string * TicketState, ts_device_id t.2 ≠ device) (au_tickets s))
    (au_device_notifiers s) (au_next_channel s) (au_signalled s).

(** [device_notifiers.insert(device, watch::channel(false).0)]. *)
Definition open_channel (device : string) (s : AuthorityState) : AuthorityState :=
  mkAuthority (au_claims s) (au_pending s) (au_tickets s) (<[device := au_next_channel s]> (au_device_notifiers s))
    (S (au_next_channel s)) (au_signalled s).

Definition insert_ticket (ticket : string) (t : TicketState) (s : AuthorityState) : AuthorityState :=
  mkAuthority (au_claims s) (au_pending s) (<[ticket := t]> (au_tickets s)) (au_device_notifiers s)
    (au_next_channel s) (au_signalled s).

Definition replaces_existing (grant : TicketGrant) (s : AuthorityState) : bool :=
  existsb (λ t : string * TicketState,
      negb (bool_decide (t.1 = tg_ticket grant)) && bool_decide (ts_device_id t.2 = tg_device_id grant))
    (map_to_list (au_tickets s)).

Definition finish_pairing (pairing_id : string) (s : AuthorityState) : AuthorityState :=
  match au_pending s !! pairing_id with
  | None => s
  | Some pending =>
      let s := set_pending (delete pairing_id (au_pending s)) s in
      match ps_resolution pending with
      | PrApproved grant ticket =>
          let s :=
            if replaces_existing grant s
            then open_channel (tg_device_id grant) (drop_tickets (tg_device_id grant) (signal_device (tg_device_id grant) s))
            else if is_some (au_device_notifiers s !! tg_device_id grant) then s
            else open_channel (tg_device_id grant) s in
          insert_ticket (tg_ticket grant) ticket s
      | _ => s
      end
  end.

Definition abort_pairing (pairing_id : string) (s : AuthorityState) : AuthorityState :=
  set_pending (delete pairing_id (au_pending s)) s.

Definition authenticate (ticket device_public_key challenge signature : string) (s : AuthorityState)
    : result AuthenticatedDevice AuthError :=
  match decode_verifying_key device_public_key with
  | Err e => Err e
  | Ok presented_key =>
      match au_tickets s !! ticket with
      | None => Err UnknownTicket
      | Some t =>
          if negb (bool_decide (ts_verifying_key t = presented_key)) then Err DeviceKeyMismatch
          else
            match base64_decode signature ≫= signature_from_slice with
            | None => Err InvalidSignature
            | Some sig =>
                if verify presented_key (auth_message challenge ticket) sig
                then Ok (mkDevice (ts_device_id t) (ts_label t) (ts_capabilities t))
                else Err InvalidSignature
            end
      end
  end.

Definition revoke_device (device : string) (s : AuthorityState) : bool * AuthorityState :=
  let before := size (au_tickets s) in
  let s := signal_device device (drop_tickets device s) in
  (negb (size (au_tickets s) =? before), s).

Definition revocation_receiver (device : string) (s : AuthorityState) : option nat := au_device_notifiers s !! device.

(** ** Histories *)

Inductive AuthOp :=
  | OpCreateClaim (now : Z) (secret : string)
  | OpSubmit (claim device_public_key label : string) (requested : list ClientCapability) (now : Z) (uuid : string)
  | OpApprove (pairing_id : string) (capabilities : list ClientCapability) (secret : string)
  | OpDeny (pairing_id : string)
  | OpFinish (pairing_id : string)
  | OpAbort (pairing_id : string)
  | OpRevoke (device : string).

Definition auth_op (s : AuthorityState) (op : AuthOp) : AuthorityState :=
  match op with
  | OpCreateClaim now secret => (create_claim_at now secret s).2
  | OpSubmit claim key label requested now uuid => (submit_pairing_at claim key label requested now uuid s).2
  | OpApprove pairing_id capabilities secret => (approve pairing_id capabilities secret s).2
  | OpDeny pairing_id => (deny pairing_id s).2
  | OpFinish pairing_id => finish_pairing pairing_id s
  | OpAbort pairing_id => abort_pairing pairing_id s
  | OpRevoke device => (revoke_device device s).2
  end.

Definition auth_run (ops : list AuthOp) : AuthorityState := foldl auth_op authority_new ops.

Lemma auth_run_snoc ops op : auth_run (ops ++ [op]) = auth_op (auth_run ops) op.
Proof. unfold auth_run. by rewrite foldl_app. Qed.

(** *** Where a pairing, an approval and a ticket come from *)

(** The request [r] with key [k] was submitted under [pid] with a claim that had been
    handed out and had not expired. *)
Definition submitted (ops : list AuthOp) (pid : string) (r : PendingPairing) (k : Key) : Prop :=
  ∃ h0 t0 claim h1 encoded label requested now h2,
    ops = h0 ++ OpCreateClaim t0 claim :: h1 ++ OpSubmit claim encoded label requested now pid :: h2 ∧
    (now < t0 + claim_ttl)%Z ∧ decode_verifying_key encoded = Ok k ∧
    r = mkPairing pid (device_id k) (display_fingerprint (device_id k)) label (deduplicate_capabilities requested).

(** It was then approved for [capabilities], which it had asked for, with ticket [t]. *)
Definition approved (ops : list AuthOp) (pid t : string) (ticket : TicketState) : Prop :=
  ∃ h0 capabilities h1 r k,
    ops = h0 ++ OpApprove pid capabilities t :: h1 ∧ submitted h0 pid r k ∧
    (∀ c, c ∈ capabilities → c ∈ pp_requested_capabilities r) ∧
    ticket = mkTicket (pp_device_id r) (pp_label r) k (deduplicate_capabilities capabilities).

(** It was then delivered, and the device has not been revoked since. *)
Definition ticketed (ops : list AuthOp) (t : string) (ticket : TicketState) : Prop :=
  ∃ h0 pid h1, ops = h0 ++ OpFinish pid :: h1 ∧ approved h0 pid t ticket ∧ OpRevoke (ts_device_id ticket) ∉ h1.

Lemma submitted_app ops more pid r k : submitted ops pid r k → submitted (ops ++ more) pid r k.
Proof.
  intros (h0&t0&claim&h1&e&l&q&now&h2&->&?). exists h0, t0, claim, h1, e, l, q, now, (h2 ++ more).
  split; [|done]. by simplify_list_eq.
Qed.

Lemma approved_app ops more pid t ticket : approved ops pid t ticket → approved (ops ++ more) pid t ticket.
Proof. intros (h0&c&h1&r&k&->&?). exists h0, c, (h1 ++ more), r, k. split; [|done]. by simplify_list_eq. Qed.

Lemma foldl_add_capability acc l :
  NoDup acc → NoDup (foldl add_capability acc l) ∧ ∀ c, c ∈ foldl add_capability acc l ↔ c ∈ acc ∨ c ∈ l.
Proof.
  revert acc. induction l as [|x l IH]; intros acc Hacc; simpl; [set_solver|].
  destruct (IH (add_capability acc x)) as [Hn He].
  { unfold add_capability. case_bool_decide; [done|]. apply NoDup_app. split_and!; [done|set_solver|apply NoDup_singleton]. }
  split; [done|]. intros c. rewrite He. unfold add_capability. case_bool_decide; set_solver.
Qed.

Lemma elem_of_deduplicate c l : c ∈ deduplicate_capabilities l ↔ c ∈ l.
Proof. destruct (foldl_add_capability [] l) as [_ He]; [constructor|]. etrans; [apply He|set_solver]. Qed.

(** What the state holds is justified by the history. *)
Record auth_inv (ops : list AuthOp) (s : AuthorityState) : Prop := {
  ai_claims claim e : au_claims s !! claim = Some e →
    ∃ h0 t0 h1, ops = h0 ++ OpCreateClaim t0 claim :: h1 ∧ e = (t0 + claim_ttl)%Z;
  ai_pending pid p : au_pending s !! pid = Some p →
    submitted ops pid (ps_request p) (ps_verifying_key p) ∧
    ∀ grant ticket, ps_resolution p = PrApproved grant ticket →
      approved ops pid (tg_ticket grant) ticket ∧ tg_device_id grant = ts_device_id ticket ∧
      ts_device_id ticket = pp_device_id (ps_request p);
  ai_tickets t ticket : au_tickets s !! t = Some ticket → ticketed ops t ticket;
}.

Lemma auth_inv_same_claims ops op s s' :
  auth_inv ops s → au_claims s' ⊆ au_claims s → au_pending s' = au_pending s → au_tickets s' = au_tickets s →
  (∀ d, op ≠ OpRevoke d) → auth_inv (ops ++ [op]) s'.
Proof.
  intros [Hc Hp Ht] Hsub Hpe Hte Hop. split.
  - intros claim e Hl. destruct (Hc claim e) as (h0&t0&h1&->&->); [by eapply lookup_weaken|].
    exists h0, t0, (h1 ++ [op]). split; [by simplify_list_eq|done].
  - rewrite Hpe. intros pid p [Hs Ha]%Hp. split; [by apply submitted_app|].
    intros g t Hr. destruct (Ha g t Hr) as (?&?&?). split_and!; [by apply approved_app|done..].
  - rewrite Hte. intros t ticket (h0&pid&h1&->&Ha&Hn)%Ht. exists h0, pid, (h1 ++ [op]).
    split_and!; [by simplify_list_eq|done|]. set_solver.
Qed.

Lemma auth_inv_pending ops op s m :
  auth_inv ops s → (∀ d, op ≠ OpRevoke d) →
  (∀ pid p, m !! pid = Some p → au_pending s !! pid = Some p ∨
     (submitted (ops ++ [op]) pid (ps_request p) (ps_verifying_key p) ∧
      ∀ grant ticket, ps_resolution p = PrApproved grant ticket →
        approved (ops ++ [op]) pid (tg_ticket grant) ticket ∧ tg_device_id grant = ts_device_id ticket ∧
        ts_device_id ticket = pp_device_id (ps_request p))) →
  auth_inv (ops ++ [op]) (set_pending m s).
Proof.
  intros Hinv Hop Hm. destruct (auth_inv_same_claims ops op s s Hinv) as [Hc Hp Ht]; [done..|].
  split; [done| |done]. simpl. intros pid p [?|?]%Hm; [by apply Hp|done].
Qed.

Lemma auth_inv_tickets ops op s s' :
  auth_inv ops s → au_claims s' = au_claims s →
  (∀ pid p, au_pending s' !! pid = Some p → au_pending s !! pid = Some p) →
  (∀ t ticket, au_tickets s' !! t = Some ticket →
     (au_tickets s !! t = Some ticket ∧ op ≠ OpRevoke (ts_device_id ticket)) ∨ ticketed (ops ++ [op]) t ticket) →
  auth_inv (ops ++ [op]) s'.
Proof.
  intros [Hc Hp Ht] Hcl Hpe Hte. split.
  - rewrite Hcl. intros claim e (h0&t0&h1&->&->)%Hc. exists h0, t0, (h1 ++ [op]). split; [by simplify_list_eq|done].
  - intros pid p [Hs Ha]%Hpe%Hp. split; [by apply submitted_app|].
    intros g t Hr. destruct (Ha g t Hr) as (?&?&?). split_and!; [by apply approved_app|done..].
  - intros t ticket [[(h0&pid&h1&->&Ha&Hn)%Ht Hop]|?]%Hte; [|done].
    exists h0, pid, (h1 ++ [op]). split_and!; [by simplify_list_eq|done|]. set_solver.
Qed.

Lemma submit_inv ops s claim key label requested now uuid :
  auth_inv ops s →
  auth_inv (ops ++ [OpSubmit claim key label requested now uuid])
    (submit_pairing_at claim key label requested now uuid s).2.
Proof.
  intros Hinv. unfold submit_pairing_at. destruct (decode_verifying_key key) as [k|e] eqn:Hk; simpl;
    [|by apply (auth_inv_same_claims _ _ s)].
  destruct (au_claims s !! claim) as [e|] eqn:Hc; simpl; [|by apply (auth_inv_same_claims _ _ s)].
  set (s1 := set_claims (delete claim (au_claims s)) s).
  assert (Hs1 : auth_inv (ops ++ [OpSubmit claim key label requested now uuid]) s1)
    by (apply (auth_inv_same_claims _ _ s); [done|apply delete_subseteq|done..]).
  destruct (Z.leb_spec e now) as [|Hlive]; simpl; [done|]. destruct Hs1 as [Hc1 Hp1 Ht1]. split; [done| |done].
  simpl. intros pid p [[<- <-]|[_ ?]]%lookup_insert_Some; [|by apply Hp1]. split; [|done].
  destruct (ai_claims _ _ Hinv _ _ Hc) as (h0&t0&h1&->&->).
  exists h0, t0, claim, h1, key, label, requested, now, []. split_and!; [by simplify_list_eq|lia|done|done].
Qed.

Lemma approve_inv ops s pid capabilities secret :
  auth_inv ops s → auth_inv (ops ++ [OpApprove pid capabilities secret]) (approve pid capabilities secret s).2.
Proof.
  intros Hinv. assert (Hsame : auth_inv (ops ++ [OpApprove pid capabilities secret]) s)
    by (by apply (auth_inv_same_claims _ _ s)).
  unfold approve. destruct (au_pending s !! pid) as [p|] eqn:Hp; [|done].
  destruct (_ && _); [done|]. destruct (negb (is_pending p)); [done|].
  destruct (existsb _ _) eqn:Hreq; [done|]. cbn [snd]. apply auth_inv_pending; [done..|].
  intros pid' p' [[<- <-]|[_ ?]]%lookup_insert_Some; [right; cbn [ps_request ps_verifying_key ps_resolution]|by left].
  destruct (ai_pending _ _ Hinv _ _ Hp) as [Hs _]. split; [by apply submitted_app|].
  intros grant ticket [= <- <-]. split_and!; [|done..]. exists ops, capabilities, [], (ps_request p), (ps_verifying_key p).
  split_and!; [done..| |done]. intros c Hc%elem_of_deduplicate. destruct (decide (c ∈ pp_requested_capabilities (ps_request p))); [done|].
  exfalso. apply not_true_iff_false in Hreq. apply Hreq, existsb_exists. exists c.
  split; [by apply list_elem_of_In|]. by rewrite bool_decide_false.
Qed.

Lemma deny_inv ops s pid : auth_inv ops s → auth_inv (ops ++ [OpDeny pid]) (deny pid s).2.
Proof.
  intros Hinv. assert (Hsame : auth_inv (ops ++ [OpDeny pid]) s) by (by apply (auth_inv_same_claims _ _ s)).
  unfold deny. destruct (au_pending s !! pid) as [p|] eqn:Hp; [|done]. destruct (negb (is_pending p)); [done|].
  cbn [snd]. apply auth_inv_pending; [done..|].
  intros pid' p' [[<- <-]|[_ ?]]%lookup_insert_Some; [right; cbn [ps_request ps_verifying_key ps_resolution]|by left].
  destruct (ai_pending _ _ Hinv _ _ Hp) as [Hs _]. split; [by apply submitted_app|done].
Qed.

Lemma finish_tickets s pid p grant ticket :
  au_pending s !! pid = Some p → ps_resolution p = PrApproved grant ticket →
  au_tickets (finish_pairing pid s) =
    <[tg_ticket grant := ticket]> (if replaces_existing grant s
      then filter (λ t : string * TicketState, ts_device_id t.2 ≠ tg_device_id grant) (au_tickets s) else au_tickets s).
Proof.
  intros Hp Hr. unfold finish_pairing. rewrite Hp, Hr.
  change (replaces_existing grant (set_pending _ s)) with (replaces_existing grant s).
  destruct (replaces_existing grant s); simpl; [done|]. by destruct (is_some _).
Qed.

Lemma finish_rest s pid :
  au_claims (finish_pairing pid s) = au_claims s ∧ au_pending (finish_pairing pid s) = delete pid (au_pending s).
Proof.
  unfold finish_pairing. destruct (au_pending s !! pid) as [p|] eqn:Hp; [|by rewrite delete_id].
  destruct (ps_resolution p); simpl; [done| |done].
  destruct (replaces_existing _ _); [done|]. by destruct (is_some _).
Qed.

Lemma finish_inv ops s pid : auth_inv ops s → auth_inv (ops ++ [OpFinish pid]) (finish_pairing pid s).
Proof.
  intros Hinv. destruct (finish_rest s pid) as [Hc Hpe]. apply (auth_inv_tickets _ _ s); [done..| |].
  { rewrite Hpe. by intros ? ? [_ ?]%lookup_delete_Some. }
  destruct (au_pending s !! pid) as [p|] eqn:Hp; cycle 1.
  { unfold finish_pairing. rewrite Hp. by left. }
  destruct (ps_resolution p) as [|grant ticket|] eqn:Hr; [unfold finish_pairing; rewrite Hp, Hr; by left| |
    unfold finish_pairing; rewrite Hp, Hr; by left].
  rewrite (finish_tickets s pid p grant ticket) by done.
  intros t tk [[<- <-]|[_ H]]%lookup_insert_Some.
  - right. destruct (ai_pending _ _ Hinv _ _ Hp) as [_ Ha]. destruct (Ha grant ticket Hr) as (Happ&_).
    exists ops, pid, []. split_and!; [done..|set_solver].
  - left. split; [|done]. destruct (replaces_existing grant s); [|done]. by apply map_lookup_filter_Some in H as [? _].
Qed.

Lemma auth_inv_op ops s op : auth_inv ops s → auth_inv (ops ++ [op]) (auth_op s op).
Proof.
  intros Hinv. destruct op as [now secret|claim key label req now uuid|pid caps secret|pid|pid|pid|device]; simpl.
  - destruct (auth_inv_same_claims ops (OpCreateClaim now secret) s s Hinv) as [Hc Hp Ht]; [done..|].
    split; [|done..]. simpl. intros claim e [[<- <-]|[_ [H _]%map_lookup_filter_Some]]%lookup_insert_Some; [|by apply Hc].
    by exists ops, now, [].
  - by apply submit_inv.
  - by apply approve_inv.
  - by apply deny_inv.
  - by apply finish_inv.
  - unfold abort_pairing. apply auth_inv_pending; [done..|]. intros ? ? [_ ?]%lookup_delete_Some. by left.
  - apply (auth_inv_tickets _ _ s); [done..|]. simpl. intros t ticket [Ht Hd]%map_lookup_filter_Some.
    left. split; [done|]. simpl in Hd. congruence.
Qed.

Lemma auth_run_inv ops : auth_inv ops (auth_run ops).
Proof.
  induction ops as [|op ops IH] using rev_ind; [by split|]. rewrite auth_run_snoc. by apply auth_inv_op.
Qed.

(** *** Devices, tickets and channels *)

Lemma elem_of_known_devices s d :
  d ∈ known_devices s ↔
  d ∈ dom (au_device_notifiers s) ∨
  ∃ pid p, au_pending s !! pid = Some p ∧ is_approved p = true ∧ pp_device_id (ps_request p) = d.
Proof.
  unfold known_devices. rewrite elem_of_union, elem_of_list_to_set, list_elem_of_fmap. apply or_iff_compat_l.
  setoid_rewrite list_elem_of_In. setoid_rewrite filter_In. setoid_rewrite <- list_elem_of_In.
  setoid_rewrite list_elem_of_fmap. split.
  - intros (p&->&([pid p']&->&Hin)&Ha). apply elem_of_map_to_list in Hin. by exists pid, p'.
  - intros (pid&p&Hp&Ha&<-). exists p. split; [done|]. split; [|done].
    exists (pid, p). split; [done|]. by apply elem_of_map_to_list.
Qed.

Record device_inv (s : AuthorityState) : Prop := {
  di_paired t ticket : au_tickets s !! t = Some ticket → is_Some (au_device_notifiers s !! ts_device_id ticket);
  di_unique t1 t2 ticket1 ticket2 : au_tickets s !! t1 = Some ticket1 → au_tickets s !! t2 = Some ticket2 →
    ts_device_id ticket1 = ts_device_id ticket2 → t1 = t2;
  di_channel d c : au_device_notifiers s !! d = Some c → c < au_next_channel s ∧ c ∉ au_signalled s;
  di_distinct d1 d2 c : au_device_notifiers s !! d1 = Some c → au_device_notifiers s !! d2 = Some c → d1 = d2;
  di_signalled c : c ∈ au_signalled s → c < au_next_channel s;
  di_limit : size (known_devices s) ≤ max_devices;
}.

Lemma known_subset s s' :
  dom (au_device_notifiers s') ⊆ known_devices s →
  (∀ pid p, au_pending s' !! pid = Some p → is_approved p = true →
     ∃ q, au_pending s !! pid = Some q ∧ is_approved q = true ∧ pp_device_id (ps_request q) = pp_device_id (ps_request p)) →
  known_devices s' ⊆ known_devices s.
Proof.
  intros Hn Hp d [Hd|(pid&p&Hl&Ha&<-)]%elem_of_known_devices; [by apply Hn|].
  destruct (Hp pid p Hl Ha) as (q&?&?&<-). apply elem_of_known_devices. right. eauto.
Qed.

(** Operations that leave tickets and channels alone. *)
Lemma device_inv_pending s s' :
  device_inv s → au_tickets s' = au_tickets s → au_device_notifiers s' = au_device_notifiers s →
  au_next_channel s' = au_next_channel s → au_signalled s' = au_signalled s →
  size (known_devices s') ≤ max_devices → device_inv s'.
Proof. intros [] Ht Hn Hc Hs Hk. split; rewrite ?Ht, ?Hn, ?Hc, ?Hs; done. Qed.

Lemma device_inv_less s s' :
  device_inv s → au_tickets s' = au_tickets s → au_device_notifiers s' = au_device_notifiers s →
  au_next_channel s' = au_next_channel s → au_signalled s' = au_signalled s →
  (∀ pid p, au_pending s' !! pid = Some p → is_approved p = true → au_pending s !! pid = Some p) →
  device_inv s'.
Proof.
  intros Hinv Ht Hn Hc Hs Hp. apply (device_inv_pending s); [done..|].
  etrans; [|apply (di_limit s Hinv)]. apply subseteq_size, known_subset; [|by eauto 6].
  rewrite Hn. intros d Hd. apply elem_of_known_devices. by left.
Qed.

Lemma device_inv_submit s claim key label requested now uuid :
  device_inv s → device_inv (submit_pairing_at claim key label requested now uuid s).2.
Proof.
  intros Hinv. unfold submit_pairing_at. repeat case_match; simpl; try done; apply (device_inv_less s); try done.
  simpl. by intros pid p [[_ <-]|[_ ?]]%lookup_insert_Some.
Qed.

Lemma device_inv_approve s pid capabilities secret :
  device_inv s → device_inv (approve pid capabilities secret s).2.
Proof.
  intros Hinv. unfold approve. destruct (au_pending s !! pid) as [p|] eqn:Hp; [|done].
  destruct (_ && _) eqn:Hlim; [done|]. destruct (negb (is_pending p)); [done|]. destruct (existsb _ _); [done|].
  cbn [snd]. set (d := pp_device_id (ps_request p)). apply (device_inv_pending s); [done..|].
  set (s' := set_pending _ s). assert (Hsub : known_devices s' ⊆ {[d]} ∪ known_devices s).
  { intros x [Hx|(pid'&q&Hl&Ha&<-)]%elem_of_known_devices.
    - apply elem_of_union_r, elem_of_known_devices. by left.
    - unfold s' in Hl. simpl in Hl. apply lookup_insert_Some in Hl as [[_ <-]|[_ Hl]]; [by apply elem_of_union_l, elem_of_singleton|].
      apply elem_of_union_r, elem_of_known_devices. right. eauto. }
  destruct (decide (d ∈ known_devices s)) as [Hd|Hd].
  - etrans; [|apply (di_limit s Hinv)]. apply subseteq_size. etrans; [exact Hsub|].
    apply union_least; [by apply singleton_subseteq_l|done].
  - etrans; [by apply subseteq_size|]. rewrite size_union by (by apply disjoint_singleton_l). rewrite size_singleton.
    fold d in Hlim. rewrite bool_decide_false in Hlim by done. simpl in Hlim. apply Nat.leb_gt in Hlim. lia.
Qed.

Lemma device_inv_deny s pid : device_inv s → device_inv (deny pid s).2.
Proof.
  intros Hinv. unfold deny. repeat case_match; simpl; try done. apply (device_inv_less s); try done.
  simpl. by intros pid' q [[_ <-]|[_ ?]]%lookup_insert_Some.
Qed.

Lemma device_inv_revoke s device : device_inv s → device_inv (revoke_device device s).2.
Proof.
  intros Hinv. pose proof Hinv as [Hpair Huniq Hch Hdist Hsig Hlim]. split; simpl.
  - intros t ticket [Ht Hd]%map_lookup_filter_Some. simpl in Hd.
    rewrite lookup_delete_ne by done. by apply (Hpair t).
  - setoid_rewrite map_lookup_filter_Some. intros t1 t2 k1 k2 [? _] [? _]. by eapply Huniq.
  - intros d c [Hne Hl]%lookup_delete_Some. destruct (Hch d c Hl) as [? ?]. split; [done|].
    destruct (au_device_notifiers s !! device) as [c'|] eqn:Hd; [|done].
    intros [->%elem_of_singleton|?]%elem_of_union; [|done]. by apply Hne, (Hdist _ _ c').
  - intros d1 d2 c [_ ?]%lookup_delete_Some [_ ?]%lookup_delete_Some. by eapply Hdist.
  - intros c. destruct (au_device_notifiers s !! device) as [c'|] eqn:Hd; [|apply Hsig].
    intros [->%elem_of_singleton|?]%elem_of_union; [by apply Hch in Hd as [? _]|by apply Hsig].
  - etrans; [|exact Hlim]. apply subseteq_size, known_subset; [|by eauto 6]. simpl.
    intros d Hd. rewrite dom_delete_L in Hd. apply elem_of_known_devices. left. set_solver.
Qed.

Lemma replaces_existing_false grant s t ticket :
  replaces_existing grant s = false → au_tickets s !! t = Some ticket → ts_device_id ticket = tg_device_id grant →
  t = tg_ticket grant.
Proof.
  intros Hno Ht Hd. destruct (decide (t = tg_ticket grant)) as [|Hne]; [done|]. exfalso.
  apply not_true_iff_false in Hno. apply Hno, existsb_exists. exists (t, ticket). split.
  - by apply list_elem_of_In, elem_of_map_to_list.
  - simpl. by rewrite (bool_decide_false _ Hne), bool_decide_true.
Qed.

(** The channels after a delivery: the device has one, and only its old one was signalled. *)
Lemma finish_channels s pid p grant ticket :
  au_pending s !! pid = Some p → ps_resolution p = PrApproved grant ticket →
  let d := tg_device_id grant in let s' := finish_pairing pid s in
  (replaces_existing grant s = true ∧ au_device_notifiers s' = <[d := au_next_channel s]> (au_device_notifiers s) ∧
     au_next_channel s' = S (au_next_channel s) ∧
     au_signalled s' = match au_device_notifiers s !! d with Some c => {[c]} ∪ au_signalled s | None => au_signalled s end) ∨
  (replaces_existing grant s = false ∧ au_signalled s' = au_signalled s ∧
     (is_Some (au_device_notifiers s !! d) ∧ au_device_notifiers s' = au_device_notifiers s ∧
        au_next_channel s' = au_next_channel s ∨
      au_device_notifiers s !! d = None ∧ au_device_notifiers s' = <[d := au_next_channel s]> (au_device_notifiers s) ∧
        au_next_channel s' = S (au_next_channel s))).
Proof.
  intros Hp Hr d s'. unfold s', finish_pairing. rewrite Hp, Hr.
  change (replaces_existing grant (set_pending _ s)) with (replaces_existing grant s).
  destruct (replaces_existing grant s); simpl.
  - left. split_and!; [done| |done..]. by rewrite insert_delete_eq.
  - right. split_and!; [done|by destruct (is_some _)|]. fold d.
    destruct (au_device_notifiers s !! d) as [c|]; simpl; [left|right]; by eauto.
Qed.

Lemma device_inv_finish s pid :
  (∀ p grant ticket, au_pending s !! pid = Some p → ps_resolution p = PrApproved grant ticket →
     tg_device_id grant = ts_device_id ticket ∧ ts_device_id ticket = pp_device_id (ps_request p)) →
  device_inv s → device_inv (finish_pairing pid s).
Proof.
  intros Hco Hinv. destruct (finish_rest s pid) as [_ Hpe].
  destruct (au_pending s !! pid) as [p|] eqn:Hp; [|unfold finish_pairing; by rewrite Hp].
  assert (Hless : device_inv (set_pending (delete pid (au_pending s)) s)).
  { apply (device_inv_less s); try done. simpl. by intros ? ? [_ ?]%lookup_delete_Some. }
  destruct (ps_resolution p) as [|grant ticket|] eqn:Hr;
    [unfold finish_pairing; by rewrite Hp, Hr| |unfold finish_pairing; by rewrite Hp, Hr].
  destruct (Hco p grant ticket eq_refl Hr) as [Hd1 Hd2]. pose proof (finish_tickets s pid p grant ticket Hp Hr) as Ht.
  pose proof (finish_channels s pid p grant ticket Hp Hr) as Hch. cbv zeta in Hch.
  set (d := tg_device_id grant) in *. set (s' := finish_pairing pid s) in *.
  destruct Hinv as [Hpair Huniq Hchan Hdist Hsig Hlim].
  assert (Htk : ∀ t tk, au_tickets s' !! t = Some tk →
    t = tg_ticket grant ∧ tk = ticket ∨ au_tickets s !! t = Some tk ∧ ts_device_id tk ≠ d).
  { rewrite Ht. intros t tk [[<- <-]|[Hne H]]%lookup_insert_Some; [by left|right].
    destruct (replaces_existing grant s) eqn:E; [by apply map_lookup_filter_Some in H|].
    split; [done|]. intros Hd. by apply Hne; symmetry; eapply replaces_existing_false. }
  assert (Hd : is_Some (au_device_notifiers s' !! d)).
  { destruct Hch as [(_&->&_)|(_&_&[([c Hc]&->&_)|(_&->&_)])]; [|by eauto|]; rewrite lookup_insert_eq; eauto. }
  assert (Hx : ∀ x, x ≠ d → au_device_notifiers s' !! x = au_device_notifiers s !! x).
  { intros x Hne. destruct Hch as [(_&->&_)|(_&_&[(_&->&_)|(_&->&_)])]; [|done|]; by rewrite lookup_insert_ne. }
  assert (Hnext : au_next_channel s ≤ au_next_channel s')
    by (destruct Hch as [(_&_&->&_)|(_&_&[(_&_&->)|(_&_&->)])]; lia).
  assert (Hmine : ∀ c, au_device_notifiers s' !! d = Some c →
    (c = au_next_channel s ∧ au_next_channel s' = S c) ∨ (au_device_notifiers s !! d = Some c ∧ au_signalled s' = au_signalled s)).
  { intros c. destruct Hch as [(_&->&->&_)|(_&->&[(_&->&_)|(_&->&->)])]; [|by right|]; rewrite lookup_insert_eq; intros [= <-]; by left. }
  assert (Hsg : ∀ c, c ∈ au_signalled s' → c ∈ au_signalled s ∨ au_device_notifiers s !! d = Some c).
  { intros c. destruct Hch as [(_&_&_&->)|(_&->&_)]; [|by left].
    destruct (au_device_notifiers s !! d) as [c'|]; [|by left]. intros [->%elem_of_singleton|?]%elem_of_union; auto. }
  split.
  - intros t tk [[-> ->]|[Hl Hne]]%Htk; [by rewrite <- Hd1|]. rewrite Hx by done. by apply (Hpair t).
  - intros t1 t2 k1 k2 [[-> ->]|[H1 N1]]%Htk [[-> ->]|[H2 N2]]%Htk He; [done|congruence..|by eapply Huniq].
  - intros x c Hc. destruct (decide (x = d)) as [->|Hne].
    + destruct (Hmine c Hc) as [[-> Hn]|[Ho ->]].
      * split; [lia|]. intros [?%Hsig|?%Hchan]%Hsg; lia.
      * destruct (Hchan d c Ho). split; [lia|done].
    + rewrite Hx in Hc by done. destruct (Hchan x c Hc) as [? ?]. split; [lia|].
      intros [?|Hdc]%Hsg; [done|]. by apply Hne, (Hdist x d c).
  - assert (Hnew : ∀ x c, x ≠ d → au_device_notifiers s' !! d = Some c → au_device_notifiers s' !! x = Some c → False).
    { intros x c Hne Hc. rewrite Hx by done. intros Hxc. destruct (Hmine c Hc) as [[-> _]|[Ho _]].
      - apply Hchan in Hxc as [? _]. lia.
      - by apply Hne, (Hdist x d c). }
    intros x y c H1 H2. destruct (decide (x = d)) as [->|N1], (decide (y = d)) as [->|N2]; [done|by exfalso; eapply Hnew..|].
    rewrite Hx in H1, H2 by done. by eapply Hdist.
  - intros c [?%Hsig|[? _]%Hchan]%Hsg; lia.
  - etrans; [|exact Hlim]. apply subseteq_size, known_subset.
    + intros x [c Hc]%elem_of_dom. apply elem_of_known_devices. destruct (decide (x = d)) as [->|Hne].
      * right. exists pid, p. split_and!; [done|unfold is_approved; by rewrite Hr|congruence].
      * left. apply elem_of_dom. rewrite Hx in Hc by done. by eauto.
    + rewrite Hpe. intros q pq [_ Hq]%lookup_delete_Some ?. by eauto.
Qed.

Lemma auth_run_device ops : device_inv (auth_run ops).
Proof.
  induction ops as [|op ops IH] using rev_ind.
  { split; simpl; try set_solver. apply Nat.le_0_l. }
  rewrite auth_run_snoc. destruct op; simpl.
  - by apply (device_inv_less (auth_run ops)).
  - by apply device_inv_submit.
  - by apply device_inv_approve.
  - by apply device_inv_deny.
  - apply device_inv_finish; [|done]. intros p grant ticket Hp Hr.
    destruct (ai_pending _ _ (auth_run_inv ops) _ _ Hp) as [_ Ha]. by destruct (Ha grant ticket Hr) as (_&?&?).
  - apply (device_inv_less (auth_run ops)); try done. simpl. by intros ? ? [_ ?]%lookup_delete_Some.
  - by apply device_inv_revoke.
Qed.

(** A channel once handed out for a device stays its channel until it is signalled. *)
Lemma channel_step s op d c :
  device_inv s → (∀ pid p grant ticket, au_pending s !! pid = Some p → ps_resolution p = PrApproved grant ticket →
     tg_device_id grant = ts_device_id ticket) →
  au_device_notifiers s !! d = Some c →
  (c ∈ au_signalled (auth_op s op) ∨ au_device_notifiers (auth_op s op) !! d = Some c ∧ op ≠ OpRevoke d).
Proof.
  intros Hinv Hco Hc. destruct op as [| | |pid|pid|pid|device]; simpl.
  - by right.
  - right. unfold submit_pairing_at. repeat case_match; done.
  - right. unfold approve. repeat case_match; done.
  - right. unfold deny. repeat case_match; done.
  - destruct (au_pending s !! pid) as [p|] eqn:Hp; [|right; unfold finish_pairing; by rewrite Hp].
    destruct (ps_resolution p) as [|grant ticket|] eqn:Hr;
      [right; unfold finish_pairing; by rewrite Hp, Hr| |right; unfold finish_pairing; by rewrite Hp, Hr].
    destruct (finish_channels s pid p grant ticket Hp Hr) as [(_&Hn&_&Hs)|(_&_&[(_&Hn&_)|(Hno&Hn&_)])]; rewrite Hn.
    + destruct (decide (d = tg_device_id grant)) as [->|Hne].
      * left. rewrite Hs, Hc. set_solver.
      * right. by rewrite lookup_insert_ne.
    + by right.
    + right. rewrite lookup_insert_ne; [done|congruence].
  - by right.
  - destruct (decide (d = device)) as [->|Hne].
    + left. rewrite Hc. set_solver.
    + right. rewrite lookup_delete_ne by done. split; [done|congruence].
Qed.

Lemma signalled_step s op c : c ∈ au_signalled s → c ∈ au_signalled (auth_op s op).
Proof.
  intros Hc. destruct op as [| | |pid|pid|pid|device]; simpl; [done|unfold submit_pairing_at|unfold approve|
    unfold deny|unfold finish_pairing|done|]; repeat case_match; simpl; try done; repeat case_match; try done; by apply elem_of_union_r.
Qed.

Lemma channel_run ops more d c :
  revocation_receiver d (auth_run ops) = Some c →
  c ∈ au_signalled (auth_run (ops ++ more)) ∨
  revocation_receiver d (auth_run (ops ++ more)) = Some c ∧ OpRevoke d ∉ more.
Proof.
  intros Hc. induction more as [|op more IH] using rev_ind; [rewrite app_nil_r; right; split; [done|set_solver]|].
  rewrite app_assoc, auth_run_snoc. destruct IH as [IH|[IH Hno]]; [left; by apply signalled_step|].
  destruct (channel_step (auth_run (ops ++ more)) op d c) as [?|[? ?]]; [apply auth_run_device| |done|by left|].
  - intros pid p grant ticket Hp Hr. destruct (ai_pending _ _ (auth_run_inv (ops ++ more)) _ _ Hp) as [_ Ha].
    by destruct (Ha grant ticket Hr) as (_&?&_).
  - right. split; [done|]. set_solver.
Qed.

(** A used claim is gone until it is handed out again. *)
Lemma claim_gone ops claim more :
  au_claims (auth_run ops) !! claim = None → (∀ now, OpCreateClaim now claim ∉ more) →
  au_claims (auth_run (ops ++ more)) !! claim = None.
Proof.
  intros H0. induction more as [|op more IH] using rev_ind; [by rewrite app_nil_r|]. intros Hno.
  assert (au_claims (auth_run (ops ++ more)) !! claim = None) as H by (apply IH; intros now ?; apply (Hno now); set_solver).
  rewrite app_assoc, auth_run_snoc. destruct op as [now secret|c key label req now uuid|pid caps t|pid|pid|pid|device]; simpl.
  - rewrite lookup_insert_ne; [|intros ->; apply (Hno now); set_solver]. by apply map_lookup_filter_None_2; left.
  - unfold submit_pairing_at. repeat case_match; simpl; try done; by apply lookup_delete_None; right.
  - unfold approve. repeat case_match; done.
  - unfold deny. repeat case_match; done.
  - by rewrite (proj1 (finish_rest _ _)).
  - done.
  - done.
Qed.

Lemma revoke_no_ticket s device ticket key challenge signature d :
  authenticate ticket key challenge signature (revoke_device device s).2 = Ok d → ad_device_id d ≠ device.
Proof.
  unfold authenticate. destruct (decode_verifying_key key) as [k|]; [|done].
  destruct (au_tickets _ !! ticket) as [t|] eqn:Ht; [|done]. repeat (case_match; try done). intros [= <-].
  by apply map_lookup_filter_Some in Ht as [_ ?].
Qed.

(** ** Theorems *)

(** C34: only a paired device gets in: a successful authentication means that the ticket
    was delivered after a local approval of a pairing request, that the request had
    been made with a claim the authority handed out and before it expired, with the
    key presented now, that the capabilities are those approved and among those asked
    for, that the device was not revoked since the delivery, and that the signature of
    this challenge and ticket verifies under that key. *)
Theorem authentication_sound (ops : list AuthOp) (ticket key challenge signature : string) (device : AuthenticatedDevice)
    (Hauth : authenticate ticket key challenge signature (auth_run ops) = Ok device) :
  ∃ k t sig, decode_verifying_key key = Ok k ∧ ticketed ops ticket t ∧ ts_verifying_key t = k ∧
    device = mkDevice (device_id k) (ts_label t) (ts_capabilities t) ∧
    (base64_decode signature ≫= signature_from_slice) = Some sig ∧
    verify k (auth_message challenge ticket) sig = true.
Proof.
  unfold authenticate in Hauth. destruct (decode_verifying_key key) as [k|]; [|done].
  destruct (au_tickets (auth_run ops) !! ticket) as [t|] eqn:Ht; [|done].
  destruct (decide (ts_verifying_key t = k)) as [Hk|Hk]; [|by rewrite bool_decide_false in Hauth].
  rewrite bool_decide_true in Hauth by done. simpl in Hauth.
  destruct (_ ≫= _) as [sig|] eqn:Hsig; [|done]. destruct (verify _ _ _) eqn:Hv; [|done]. injection Hauth as <-.
  pose proof (ai_tickets _ _ (auth_run_inv ops) _ _ Ht) as Htk. exists k, t, sig. split_and!; try done.
  destruct Htk as (h0&pid&h1&_&(g0&caps&g1&r&k'&_&(?&?&?&?&?&?&?&?&?&_&_&_&->)&_&->)&_). simpl in *. by subst.
Qed.

(** a claim admits one request: after a request that named it with a well-formed key,
    whatever the outcome, no request gets through with that claim until the authority
    hands the same secret out again, and the refused ones change nothing. *)
Theorem claim_is_single_use (ops more : list AuthOp) (claim key label : string) (requested : list ClientCapability)
    (now : Z) (uuid : string) (k : Key)
    (Hkey : decode_verifying_key key = Ok k) (Hnew : ∀ now, OpCreateClaim now claim ∉ more)
    (key' label' : string) (requested' : list ClientCapability) (now' : Z) (uuid' : string) :
  let s := auth_run (ops ++ OpSubmit claim key label requested now uuid :: more) in
  submit_pairing_at claim key' label' requested' now' uuid' s =
  (Err (match decode_verifying_key key' with Ok _ => UnknownClaim | Err e => e end), s).
Proof.
  intros s. assert (au_claims s !! claim = None) as H.
  { unfold s. rewrite cons_middle, app_assoc. apply claim_gone; [|done]. rewrite auth_run_snoc. simpl.
    unfold submit_pairing_at. rewrite Hkey. destruct (au_claims (auth_run ops) !! claim) as [e|] eqn:E; [|done].
    destruct (e <=? now)%Z; simpl; by rewrite lookup_delete_eq. }
  unfold submit_pairing_at. rewrite H. by destruct (decode_verifying_key key').
Qed.

(** however devices pair, abandon, re-pair and are revoked, at most [max_devices]
    devices are paired or about to be, each has at most one ticket, so there are at
    most as many tickets, and every ticket's device has an unsignalled notifier of its
    own through which it can be disconnected. *)
Theorem paired_devices_bounded (ops : list AuthOp) :
  let s := auth_run ops in
  size (known_devices s) ≤ max_devices ∧ size (au_tickets s) ≤ max_devices ∧
  (∀ t1 t2 ticket1 ticket2, au_tickets s !! t1 = Some ticket1 → au_tickets s !! t2 = Some ticket2 →
     ts_device_id ticket1 = ts_device_id ticket2 → t1 = t2) ∧
  (∀ t ticket, au_tickets s !! t = Some ticket →
     ∃ c, revocation_receiver (ts_device_id ticket) s = Some c ∧ c ∉ au_signalled s) ∧
  (∀ d1 d2 c, revocation_receiver d1 s = Some c → revocation_receiver d2 s = Some c → d1 = d2).
Proof.
  intros s. destruct (auth_run_device ops) as [Hpair Huniq Hch Hdist _ Hlim]. fold s in Hpair, Huniq, Hch, Hdist, Hlim.
  split_and!; [done| |done| |done].
  - set (ids := (λ e : string * TicketState, ts_device_id e.2) <$> map_to_list (au_tickets s)).
    assert (NoDup ids) as Hn.
    { apply NoDup_fmap_2_strong; [|apply NoDup_map_to_list].
      intros [t1 k1] [t2 k2] H1%elem_of_map_to_list H2%elem_of_map_to_list He. simpl in *.
      assert (t1 = t2) as -> by (by eapply Huniq). congruence. }
    etrans; [|exact Hlim]. rewrite <- (length_map_to_list (au_tickets s)).
    replace (length (map_to_list (au_tickets s))) with (size (list_to_set (C := gset string) ids))
      by (rewrite size_list_to_set by done; apply length_fmap).
    apply subseteq_size. intros d ([t k]&->&Hin%elem_of_map_to_list)%elem_of_list_to_set%list_elem_of_fmap.
    apply elem_of_known_devices. left. apply elem_of_dom. by eapply Hpair.
  - intros t ticket Ht. destruct (Hpair t ticket Ht) as [c Hc]. exists c. split; [done|]. by apply (Hch _ _ Hc).
Qed.

(** C37: revoking a device disconnects it: a connection that subscribed to the device's
    notifier keeps it until it is signalled, a revocation signals it for good, and
    right after one no ticket of the device is left, so it cannot authenticate. *)
Theorem revoked_device_is_disconnected (ops more : list AuthOp) (device : string) (c : nat)
    (Hsub : revocation_receiver device (auth_run ops) = Some c) :
  let s := auth_run (ops ++ more) in
  (c ∈ au_signalled s ∨ revocation_receiver device s = Some c) ∧
  (OpRevoke device ∈ more → c ∈ au_signalled s) ∧
  let revoked := (revoke_device device s).2 in
  c ∈ au_signalled revoked ∧ revocation_receiver device revoked = None ∧
  ∀ ticket key challenge signature d,
    authenticate ticket key challenge signature revoked = Ok d → ad_device_id d ≠ device.
Proof.
  intros s. pose proof (channel_run ops more device c Hsub) as Hc. fold s in Hc.
  split; [by destruct Hc as [?|[? _]]; auto|]. split; [by destruct Hc as [?|[_ ?]]|].
  split_and!; [|apply lookup_delete_eq|apply revoke_no_ticket].
  destruct Hc as [Hc|[Hc _]]; [by apply (signalled_step s (OpRevoke device))|].
  unfold revocation_receiver in Hc. simpl. rewrite Hc. set_solver.
Qed.

End authority.
End remote_auth.

Lemma append_inj_l p a b : p +:+ a = p +:+ b → a = b.
Proof.
  induction p as [|c p IH]; [done|].
  change (String c (p +:+ a) = String c (p +:+ b) → a = b). intros [= H]. auto.
Qed.

(** Within one domain a signed message says which challenge and which ticket: a signature
    for one connection or ticket is worthless for another, as long as challenges have
    no zero byte (they are two formatted uuids). *)
Lemma nul_split a b t u :
  contains NUL a = false → contains NUL b = false → a +:+ NUL +:+ t = b +:+ NUL +:+ u → a = b ∧ t = u.
Proof.
  revert b. induction a as [|x a IH]; intros [|y b] Ha Hb He.
  - split; [done|]. by apply (append_inj_l NUL).
  - exfalso. unfold NUL in *. simpl in *. injection He as <- _. unfold starts_with in Hb. simpl in Hb. done.
  - exfalso. unfold NUL in *. simpl in *. injection He as -> _. unfold starts_with in Ha. simpl in Ha. done.
  - change (String x (a +:+ NUL +:+ t) = String y (b +:+ NUL +:+ u)) in He. injection He as -> He.
    cbn [contains] in Ha, Hb. apply orb_false_iff in Ha as [_ Ha], Hb as [_ Hb].
    destruct (IH b Ha Hb He) as [-> ->]. done.
Qed.

Lemma auth_message_inj challenge challenge' ticket ticket' :
  contains NUL challenge = false → contains NUL challenge' = false →
  auth_message challenge ticket = auth_message challenge' ticket' → challenge = challenge' ∧ ticket = ticket'.
Proof. unfold auth_message. intros H H' He%append_inj_l. by apply nul_split. Qed.

(** ** Witnesses *)

(** A stand-in for the libraries: texts are their own encodings and a signature is the
    key followed by the message. *)
Definition plain_crypto : DeviceCrypto string string := {|
  base64_decode := Some; key_from_bytes := Some; key_bytes := λ k, k; signature_from_slice := Some;
  verify := λ k m s, bool_decide (s = k +:+ m); sha256 := str_take 4 |}.
#[local] Existing Instance plain_crypto.

Definition phone : string := "phone-key-phone-key-phone-key-32".

Definition paired_phone : list AuthOp :=
  [OpCreateClaim 0 "claim"; OpSubmit "claim" phone "Phone" [CapObserve; CapPrompt] 10 "p1";
   OpApprove "p1" [CapObserve] "ticket"; OpFinish "p1"].

Lemma authentication_sound_witness :
  let s := auth_run 300 4 paired_phone in
  let device := mkDevice (device_id phone) "Phone" [CapObserve] in
  authenticate "ticket" phone "c" (phone +:+ auth_message "c" "ticket") s = Ok device ∧
  ∃ k t sig, decode_verifying_key phone = Ok k ∧ ticketed 300 paired_phone "ticket" t ∧ ts_verifying_key t = k ∧
    device = mkDevice (device_id k) (ts_label t) (ts_capabilities t) ∧
    (base64_decode (phone +:+ auth_message "c" "ticket") ≫= signature_from_slice) = Some sig ∧
    verify k (auth_message "c" "ticket") sig = true.
Proof.
  intros s device. assert (authenticate "ticket" phone "c" (phone +:+ auth_message "c" "ticket") s = Ok device) as H
    by (vm_compute; reflexivity).
  split; [exact H|].
  exact (authentication_sound 300 4 paired_phone "ticket" phone "c" (phone +:+ auth_message "c" "ticket") device H).
Defined.

Lemma claim_is_single_use_witness :
  let s := auth_run 300 4 paired_phone in
  submit_pairing_at "claim" phone "Other" [] 20 "p2" s = (Err UnknownClaim, s).
Proof.
  intros s. refine (claim_is_single_use (Key := string) (Sig := string) 300 4 [OpCreateClaim 0 "claim"] [OpApprove "p1" [CapObserve] "ticket"; OpFinish "p1"]
    "claim" phone "Phone" [CapObserve; CapPrompt] 10 "p1" phone eq_refl _ phone "Other" [] 20 "p2").
  intros now Hin. repeat (apply elem_of_cons in Hin as [Hin|Hin]; [discriminate Hin|]). by apply not_elem_of_nil in Hin.
Defined.

Lemma revoked_device_is_disconnected_witness :
  let s := auth_run 300 4 (paired_phone ++ [OpRevoke (device_id phone)]) in
  revocation_receiver (device_id phone) (auth_run 300 4 paired_phone) = Some 0 ∧ 0 ∈ au_signalled s ∧
  authenticate "ticket" phone "c" (phone +:+ auth_message "c" "ticket") s = Err UnknownTicket.
Proof.
  intros s. assert (revocation_receiver (device_id phone) (auth_run 300 4 paired_phone) = Some 0) as H
    by (vm_compute; reflexivity).
  split; [exact H|]. split; [|vm_compute; reflexivity].
  destruct (revoked_device_is_disconnected (Key := string) (Sig := string) 300 4 paired_phone
    [OpRevoke (device_id phone)] (device_id phone) 0 H) as (_&Hr&_).
  apply Hr. by apply list_elem_of_singleton.
Defined.

(** A device revoked between its approval and the delivery of its ticket comes back: the
    revocation drops the tickets in use but not the one that waits in the approved
    pairing, which the delivery then installs. *)
Theorem revocation_misses_approved_pairing :
  let ops := [OpCreateClaim 0 "claim"; OpSubmit "claim" phone "Phone" [CapObserve] 10 "p1";
              OpApprove "p1" [CapObserve] "ticket"; OpRevoke (device_id phone); OpFinish "p1"] in
  authenticate "ticket" phone "c" (phone +:+ auth_message "c" "ticket") (auth_run 300 4 ops) =
  Ok (mkDevice (device_id phone) "Phone" [CapObserve]).
Proof. vm_compute. reflexivity. Qed.
