(* ===== verification/ToolOutput.v ===== *)
(** * Bounding tool output and pruning old tool context

    Models [src/src/tool_output.rs]: how a large tool result becomes a preview that
    names the file holding all of it ([preview], [structured_preview], [bound_text]),
    and how old results and arguments are shed from a history inside one turn
    ([microcompact_history]).

    The managed directory is a map from paths to contents; what the operating system
    decides (whether a store succeeds, the random part of a file name, which files
    have expired) is a parameter of the model, as are [serde_json]'s reader and
    printer. *)

From stdpp Require Import base numbers list strings gmap sorting.
From S2P Require Import Prelude RustStr Utf8 Safety ToolLifecycle Messages History.

(** ** String searches *)

(** [str::split_once]. *)
Fixpoint split_once (sep s : string) : option (string * string) :=
  match strip_prefix sep s with
  | Some t => Some ("", t)
  | None =>
      match s with
      | EmptyString => None
      | String c s =>
          match split_once sep s with Some (a, b) => Some (String c a, b) | None => None end
      end
  end.

(** The text before the last occurrence, [&s[..s.rfind(pat)?]]. *)
Fixpoint before_last (pat s : string) : option string :=
  match s with
  | EmptyString => if starts_with pat "" then Some "" else None
  | String c t =>
      match before_last pat t with
      | Some p => Some (String c p)
      | None => if starts_with pat s then Some "" else None
      end
  end.

Definition trim_start (s : string) : string := str_concat (drop_while char_is_whitespace (chars s)).

Definition char_count (s : string) : nat := length (chars s).

(** [Path::components] of a Unix path, as far as [starts_with] compares them. *)
Fixpoint path_parts_from (cur : string) (s : string) : list string :=
  match s with
  | EmptyString => [cur]
  | String c s =>
      if bool_decide (c = Ascii.ascii_of_nat 47) then cur :: path_parts_from "" s
      else path_parts_from (cur +:+ String c "") s
  end.

Definition path_parts (s : string) : bool * list string :=
  (starts_with "/" s,
   List.filter (λ p, negb (bool_decide (p = "" ∨ p = "."))) (path_parts_from "" s)).

Definition path_starts_with (base path : string) : bool :=
  bool_decide ((path_parts base).1 = (path_parts path).1) &&
  bool_decide (take (length (path_parts base).2) (path_parts path).2 = (path_parts base).2).

(** ** Configuration *)

Record ReformatConfig := mkReformatConfig {
  rf_enabled : bool;
  rf_tools : list string;
  rf_min_chars : nat;
  rf_model : option string;
  rf_max_input_chars : nat;
}.

Record ToolOutputConfig := mkToolOutputConfig {
  toc_directory : option string;
  toc_max_bytes : nat;
  toc_max_lines : nat;
  toc_retention_days : nat;
  toc_intra_turn_result_budget_tokens : nat;
  toc_intra_turn_keep_recent_results : nat;
  toc_old_argument_max_chars : nat;
  toc_reformat : ReformatConfig;
}.

Definition reformat_config_default : ReformatConfig := mkReformatConfig false [] 1000 None 60000.

Definition tool_output_config_default : ToolOutputConfig :=
  mkToolOutputConfig None (50 * 1024) 2000 7 40000 5 2000 reformat_config_default.

(** [ToolOutputConfig::validate]. *)
Definition validate_tool_output (cfg : ToolOutputConfig) : result unit string :=
  if toc_max_bytes cfg <? 256 then Err "tool_output.max_bytes must be at least 256"
  else if toc_max_lines cfg <? 3 then Err "tool_output.max_lines must be at least 3"
  else if toc_retention_days cfg =? 0 then Err "tool_output.retention_days must be greater than zero"
  else if toc_intra_turn_result_budget_tokens cfg =? 0 then
    Err "tool_output.intra_turn_result_budget_tokens must be greater than zero"
  else if toc_intra_turn_keep_recent_results cfg =? 0 then
    Err "tool_output.intra_turn_keep_recent_results must be greater than zero"
  else if toc_old_argument_max_chars cfg <? 20 then
    Err "tool_output.old_argument_max_chars must be at least 20"
  else Ok tt.

(** ** Previews *)

Definition TRUNCATED_MARKER : string := "truncated; full output saved to".
Definition PRUNED_MARKER : string := "old tool result pruned; full output saved to".
Definition ARGUMENT_MARKER : string := "...(argument truncated)".

Definition is_newline (c : Ascii.ascii) : bool := byte_of c =? 10.

Fixpoint newlines (s : string) : nat :=
  match s with EmptyString => 0 | String c s => (if is_newline c then 1 else 0) + newlines s end.

Definition line_count (text : string) : nat :=
  if bool_decide (text = "") then 0 else newlines text + 1.

Definition take_prefix_bytes (text : string) (max : nat) : string :=
  str_take (floor_boundary text (max `min` String.length text)) text.

Fixpoint ceil_boundary (fuel : nat) (text : string) (start : nat) : nat :=
  match fuel with
  | 0 => start
  | S fuel =>
      if (start <? String.length text) && negb (is_char_boundary text start)
      then ceil_boundary fuel text (S start) else start
  end.

Definition take_suffix_bytes (text : string) (max : nat) : string :=
  if String.length text <=? max then text
  else str_drop (ceil_boundary max text (String.length text - max)) text.

Definition div_ceil (n m : nat) : nat := (n + (m - 1)) / m.

Definition preview (text marker : string) (max_lines max_bytes : nat) : string :=
  let marker := take_prefix_bytes marker max_bytes in
  if (max_lines <=? 1) || (max_bytes <=? String.length marker + 2) then marker
  else
    let ls := lines text in
    let data_lines := max_lines - 1 in
    let head_lines := div_ceil data_lines 2 in
    let tail_lines := data_lines / 2 in
    let head := join newline (take head_lines ls) in
    let tail := join newline (drop (length ls - tail_lines) ls) in
    let separators := if bool_decide (tail = "") then 1 else 2 in
    let available := max_bytes - (String.length marker + separators) in
    let head := take_prefix_bytes head (div_ceil available 2) in
    let tail := take_suffix_bytes tail (available / 2) in
    if bool_decide (tail = "") then head +:+ newline +:+ marker
    else head +:+ newline +:+ marker +:+ newline +:+ tail.

(** ** Structured previews *)

Fixpoint longest_json_string_len (value : Json) : nat :=
  match value with
  | JString text => String.length text
  | JArray items => foldr Nat.max 0 (map longest_json_string_len items)
  | JObject fields => foldr Nat.max 0 (map (λ f, longest_json_string_len f.2) fields)
  | _ => 0
  end.

Fixpoint json_contains_path (value : Json) (output_path : string) : bool :=
  match value with
  | JString text => contains output_path text
  | JArray items => existsb (λ item, json_contains_path item output_path) items
  | JObject fields => existsb (λ f, json_contains_path f.2 output_path) fields
  | _ => false
  end.

(** [iter_mut().any(f)]: stop at the first element that [f] changes. *)
Definition any_mut {A} (f : A → option A) : list A → option (list A) :=
  fix go l :=
    match l with
    | [] => None
    | x :: l =>
        match f x with
        | Some x' => Some (x' :: l)
        | None => match go l with Some l' => Some (x :: l') | None => None end
        end
    end.

(** [None] is the answer [false], which leaves the value as it was. *)
Fixpoint truncate_first_json_string (longest target_bytes : nat) (marker : string) (max_lines : nat)
    (value : Json) : option Json :=
  match value with
  | JString text =>
      if String.length text =? longest then
        let replacement := preview text marker max_lines target_bytes in
        if String.length text <=? String.length replacement then None else Some (JString replacement)
      else None
  | JArray items =>
      match any_mut (truncate_first_json_string longest target_bytes marker max_lines) items with
      | Some items' => Some (JArray items')
      | None => None
      end
  | JObject fields =>
      match any_mut (λ f : string * Json,
               match truncate_first_json_string longest target_bytes marker max_lines f.2 with
               | Some v => Some (f.1, v)
               | None => None
               end) fields with
      | Some fields' => Some (JObject fields')
      | None => None
      end
  | _ => None
  end.

(** The bytes of all strings of a value: what every truncation reduces. *)
Fixpoint json_string_bytes (value : Json) : nat :=
  match value with
  | JString text => String.length text
  | JArray items => sum_list (map json_string_bytes items)
  | JObject fields => sum_list (map (λ f, json_string_bytes f.2) fields)
  | _ => 0
  end.

Section serde.
Context (json_text : Json → string) (json_parse : string → option Json).

(** The loop of [structured_preview]; [inl] is its early return, [inr] a [break]. *)
Fixpoint shrink_loop (fuel : nat) (output_path marker : string) (max_lines max_bytes : nat)
    (value : Json) : option (option string) :=
  match fuel with
  | 0 => None
  | S fuel =>
      let serialized := json_text value in
      if String.length serialized <=? max_bytes then
        if json_contains_path value output_path then Some (Some serialized) else Some None
      else
        let longest := longest_json_string_len value in
        if longest =? 0 then Some None
        else
          let excess := String.length serialized - max_bytes in
          if longest <? excess then Some None
          else
            match truncate_first_json_string longest (longest - excess) marker max_lines value with
            | Some value => shrink_loop fuel output_path marker max_lines max_bytes value
            | None => Some None
            end
  end.

Definition fallback_preview (output_path : string) : Json :=
  JObject [("full_output_path", JString output_path); ("truncated", JBool true)].

Definition structured_preview (value : Json) (output_path marker : string) (max_lines max_bytes : nat)
    : option string :=
  match shrink_loop (S (json_string_bytes value)) output_path marker max_lines max_bytes value with
  | Some (Some serialized) => Some serialized
  | _ =>
      let fallback := json_text (fallback_preview output_path) in
      if String.length fallback <=? max_bytes then Some fallback else None
  end.

Definition marker_output_path (text : string) : option string :=
  match split_once TRUNCATED_MARKER text with
  | None => None
  | Some (_, suffix) =>
      let path := trim_start suffix in
      let path := default path (before_last " ..." path) in
      if bool_decide (path = "") then None else Some path
  end.

Fixpoint json_output_path (value : Json) : option string :=
  match value with
  | JString text => marker_output_path text
  | JArray items => find_map json_output_path items
  | JObject fields =>
      match lfind (λ f : string * Json, bool_decide (f.1 = "full_output_path")) fields with
      | Some (_, JString path) => Some path
      | _ => find_map (λ f, json_output_path f.2) fields
      end
  | _ => None
  end.

Definition existing_output_path (content : string) : option string :=
  match json_parse content ≫= json_output_path with
  | Some path => Some path
  | None => marker_output_path content
  end.
End serde.

Definition dquote : string := String (Ascii.ascii_of_nat 34) "".

(** ** The managed directory *)

Record Storage := mkStorage { st_files : gmap string string; st_tick : nat }.

Record BoundText := mkBoundText {
  bt_content : string;
  bt_output_path : option string;
  bt_original_chars : nat;
  bt_visible_chars : nat;
}.

Definition is_ascii_alphanumeric (c : Ascii.ascii) : bool :=
  in_range 48 57 c || in_range 65 90 c || in_range 97 122 c.

Definition safe_char (g : string) : string :=
  match g with
  | String c EmptyString => if is_ascii_alphanumeric c then g else "_"
  | _ => "_"
  end.

Definition safe_tool (tool_name : string) : string :=
  str_concat (take 32 (map safe_char (chars tool_name))).

(** [should_reformat]. *)
Definition should_reformat (cfg : ReformatConfig) (tool_name : string) (is_error : bool)
    (content_chars : nat) : bool :=
  rf_enabled cfg && negb is_error && (rf_min_chars cfg <=? content_chars)
  && existsb (λ t, bool_decide (t = tool_name)) (rf_tools cfg).

Definition head_tail (content : string) (cap : nat) : string :=
  let cs := chars content in
  if length cs <=? cap then content
  else
    let half := cap / 2 in
    str_concat (take half cs) +:+ newline +:+ "...(middle elided for the reformatter)..." +:+ newline
    +:+ str_concat (drop (length cs - half) cs).

Section storage.
Context (json_text : Json → string) (json_parse : string → option Json).
Context (directory : string).
Context (dir_ok write_ok : nat → bool) (uuid : nat → string) (expired : nat → string → bool).

(** [cleanup_expired]: a file that cannot be removed counts as not expired. *)
Definition cleanup_expired (tick : nat) (files : gmap string string) : gmap string string :=
  filter (λ f, expired tick f.1 = false) files.

Definition store_full (st : Storage) (tool_name content : string) : option string * Storage :=
  let tick := st_tick st in
  if negb (dir_ok tick) then (None, mkStorage (st_files st) (S tick))
  else
    let files := cleanup_expired tick (st_files st) in
    let path := directory +:+ "/" +:+ safe_tool tool_name +:+ "-" +:+ uuid tick +:+ ".txt" in
    if is_some (files !! path) then (None, mkStorage files (S tick))
    else if negb (write_ok tick) then (None, mkStorage files (S tick))
    else (Some path, mkStorage (<[path := content]> files) (S tick)).

Definition remove_file (st : Storage) (path : string) : Storage :=
  mkStorage (delete path (st_files st)) (st_tick st).

Definition unchanged (content : string) : BoundText :=
  mkBoundText content None (char_count content) (char_count content).

Definition bound_text (cfg : ToolOutputConfig) (tool_name content : string) (st : Storage)
    : BoundText * Storage :=
  let original_chars := char_count content in
  if (String.length content <=? toc_max_bytes cfg) && (line_count content <=? toc_max_lines cfg)
  then (unchanged content, st)
  else
    match store_full st tool_name content with
    | (None, st) => (unchanged content, st)
    | (Some path, st) =>
        let marker := "... " +:+ TRUNCATED_MARKER +:+ " " +:+ path +:+ " ..." in
        let visible :=
          match json_parse content with
          | Some value =>
              structured_preview json_text value path marker (toc_max_lines cfg) (toc_max_bytes cfg)
          | None => Some (preview content marker (toc_max_lines cfg) (toc_max_bytes cfg))
          end in
        match visible with
        | None => (unchanged content, remove_file st path)
        | Some visible => (mkBoundText visible (Some path) original_chars (char_count visible), st)
        end
    end.

(** The prompt of the reformatting call; the diff and the catalogue are given. *)
Definition build_reformat_prompt (tool_name : string) (args : Json) (output : string)
    (diff : option string) (tool_catalog : list (string * string)) : string :=
  "You are reformatting the output of a developer tool for another AI agent." +:+ newline +:+
  "Reformat it — do NOT drop information. Collapse repeating patterns to ONE " +:+
  "instance plus a count (e.g. " +:+ dquote +:+ "37 more identical failures" +:+ dquote +:+ "). Keep every " +:+
  "distinct error, file path and line number." +:+ newline +:+
  "Be concise and actionable: lead with what broke and the most likely cause." +:+ newline +:+ newline +:+
  (if bool_decide (tool_catalog = []) then ""
   else "Tools the agent can call. Phrase any suggested next step using ONLY " +:+
        "these — never invent a tool:" +:+ newline +:+
        str_concat (map (λ t : string * string,
          "- " +:+ t.1 +:+ ": " +:+ trim (default "" (head (lines t.2))) +:+ newline) tool_catalog)
        +:+ newline) +:+
  match diff with
  | None => ""
  | Some diff =>
      let diff := trim diff in
      if bool_decide (diff = "") then ""
      else "Uncommitted changes in the working tree. If the failure is plausibly " +:+
           "caused by one of these edits, say so and name the file:" +:+ newline +:+ "```diff" +:+ newline +:+
           diff +:+ newline +:+ "```" +:+ newline +:+ newline
  end +:+
  "Tool: " +:+ tool_name +:+ newline +:+ "Arguments: " +:+ json_text args +:+ newline +:+ newline +:+
  "Output:" +:+ newline +:+ output.

(** [reformat_text], given what the provider's reply holds for the prompt it is
    sent: an error message and content blocks. *)
Definition reformat_text (complete : string → option string * list ContentBlock)
    (cfg : ToolOutputConfig) (tool_name content : string) (args : Json) (diff : option string)
    (tool_catalog : list (string * string)) (st : Storage) : BoundText * Storage :=
  let original_chars := char_count content in
  let capped := head_tail content (rf_max_input_chars (toc_reformat cfg)) in
  let '(error_message, blocks) := complete (build_reformat_prompt tool_name args capped diff tool_catalog) in
  let summary := join newline (omap block_text blocks) in
  if is_some error_message || bool_decide (trim summary = "") then bound_text cfg tool_name content st
  else
    match store_full st tool_name content with
    | (None, st) => bound_text cfg tool_name content st
    | (Some path, st) =>
        let visible := summary +:+ newline +:+ newline +:+ "[reformatted from "
                       +:+ u64_to_string (Z.of_nat original_chars) +:+ " chars; "
                       +:+ TRUNCATED_MARKER +:+ " " +:+ path +:+ "]" in
        (mkBoundText visible (Some path) original_chars (char_count visible), st)
    end.

(** ** Pruning inside a turn *)

Definition estimated_tokens (n : nat) : nat := div_ceil n 4.

(** The new text and the tokens it saves. *)
Definition truncate_string (value : string) (max_chars : nat) : option (string * nat) :=
  let original_chars := char_count value in
  if (original_chars <=? max_chars) || contains ARGUMENT_MARKER value then None
  else
    let value := str_concat (take 20 (chars value)) +:+ ARGUMENT_MARKER in
    Some (value, estimated_tokens (original_chars - char_count value)).

(** [input[key] = value] for a field that exists. *)
Definition json_set (v : Json) (key : string) (x : Json) : Json :=
  match v with
  | JObject fields => JObject (update_first (λ f, bool_decide (f.1 = key)) (λ f, (f.1, x)) fields)
  | _ => v
  end.

(** The loop over the edits: the new items, how many changed, the tokens saved. *)
Fixpoint truncate_edits (max : nat) (items : list Json) : list Json * nat * nat :=
  match items with
  | [] => ([], 0, 0)
  | item :: items =>
      let '(items', changed, saved) := truncate_edits max items in
      match json_as_str item ≫= λ text, truncate_string text max with
      | Some (text, tokens) => (JString text :: items', S changed, tokens + saved)
      | None => (item :: items', changed, saved)
      end
  end.

Definition truncate_old_arguments (block : ContentBlock) (protected_ids : list string) (max : nat)
    : ContentBlock * nat * nat :=
  match block with
  | CbToolCall id name input =>
      if bool_decide (id ∈ protected_ids) then (block, 0, 0)
      else if bool_decide (name = "write_file") then
        match json_get input "content" ≫= λ v, json_as_str v ≫= λ text, truncate_string text max with
        | Some (text, saved) => (CbToolCall id name (json_set input "content" (JString text)), 1, saved)
        | None => (block, 0, 0)
        end
      else if bool_decide (name = "edit_file") then
        match json_get input "edits" with
        | Some (JArray items) =>
            let '(items, changed, saved) := truncate_edits max items in
            (CbToolCall id name (json_set input "edits" (JArray items)), changed, saved)
        | _ => (block, 0, 0)
        end
      else (block, 0, 0)
  | _ => (block, 0, 0)
  end.

Record ResultRef := mkResultRef {
  rr_message : nat;
  rr_block : nat;
  rr_id : string;
  rr_is_error : bool;
  rr_chars : nat;
}.

Record MicrocompactStats := mkMicroStats {
  ms_results_pruned : nat;
  ms_arguments_pruned : nat;
  ms_estimated_tokens_saved : nat;
  ms_evicted_read_paths : list string;
  ms_clear_read_cache : bool;
}.

Definition block_ref (i j : nat) (b : ContentBlock) : option ResultRef :=
  match b with
  | CbToolResult id content is_error => Some (mkResultRef i j id is_error (char_count content))
  | _ => None
  end.

Fixpoint block_refs (i j : nat) (content : list ContentBlock) : list ResultRef :=
  match content with
  | [] => []
  | b :: content => option_list (block_ref i j b) ++ block_refs i (S j) content
  end.

Fixpoint result_refs (i : nat) (messages : list Message) : list ResultRef :=
  match messages with
  | [] => []
  | m :: messages => block_refs i 0 (msg_content m) ++ result_refs (S i) messages
  end.

(** [call_info]: the tool and the path of each call, the newest for a repeated id. *)
Definition add_call_info (info : gmap string (string * option string)) (b : ContentBlock)
    : gmap string (string * option string) :=
  match b with
  | CbToolCall id name input => <[id := (name, json_get input "path" ≫= json_as_str)]> info
  | _ => info
  end.

Definition call_info (messages : list Message) : gmap string (string * option string) :=
  foldl add_call_info ∅ (concat (map msg_content messages)).

Definition protected_recent (keep : nat) (results : list ResultRef) : list string :=
  map rr_id (take keep (reverse (List.filter (λ r, negb (rr_is_error r)) results))).

Definition protected_errors (results : list ResultRef) : list string :=
  map rr_id (List.filter rr_is_error results).

(** The newest-first walk: what the budget retains, and what is to be pruned. *)
Fixpoint choose_prune (budget : nat) (recent : list string) (retained : nat) (newest_first : list ResultRef)
    : list ResultRef :=
  match newest_first with
  | [] => []
  | r :: rest =>
      let tokens := estimated_tokens (rr_chars r) in
      if rr_is_error r || bool_decide (rr_id r ∈ recent)
      then choose_prune budget recent (retained + tokens) rest
      else if retained + tokens <=? budget then choose_prune budget recent (retained + tokens) rest
      else r :: choose_prune budget recent retained rest
  end.

Definition get_block (messages : list Message) (i j : nat) : option ContentBlock :=
  messages !! i ≫= λ m, msg_content m !! j.

Definition set_block (messages : list Message) (i j : nat) (b : ContentBlock) : list Message :=
  alter (λ m, mkMessage (msg_role m) (<[j := b]> (msg_content m))) i messages.

(** The read cache entries that a pruned [read_file] result leaves stale. *)
Definition evict (info : option (string * option string)) (stats : MicrocompactStats) : MicrocompactStats :=
  match info with
  | Some (name, path) =>
      if bool_decide (name = "read_file") then
        match path with
        | Some path =>
            if starts_with "/" path
            then mkMicroStats (ms_results_pruned stats) (ms_arguments_pruned stats)
                   (ms_estimated_tokens_saved stats) (ms_evicted_read_paths stats ++ [path])
                   (ms_clear_read_cache stats)
            else mkMicroStats (ms_results_pruned stats) (ms_arguments_pruned stats)
                   (ms_estimated_tokens_saved stats) (ms_evicted_read_paths stats) true
        | None => mkMicroStats (ms_results_pruned stats) (ms_arguments_pruned stats)
                   (ms_estimated_tokens_saved stats) (ms_evicted_read_paths stats) true
        end
      else stats
  | None => stats
  end.

Definition pruned_marker (path : string) : string := "[" +:+ PRUNED_MARKER +:+ " " +:+ path +:+ "]".

(** Where the whole of [content] is, and whether the file was created for it. *)
Definition recovery_path (tool_name content : string) (st : Storage) : option (string * bool) * Storage :=
  let existing :=
    match existing_output_path json_parse content with
    | Some path => if path_starts_with directory path && is_some (st_files st !! path) then Some path else None
    | None => None
    end in
  match existing with
  | Some path => (Some (path, false), st)
  | None =>
      match store_full st tool_name content with
      | (Some path, st) => (Some (path, true), st)
      | (None, st) => (None, st)
      end
  end.

Definition prune_one (info : gmap string (string * option string)) (item : ResultRef)
    (acc : list Message * MicrocompactStats * Storage) : list Message * MicrocompactStats * Storage :=
  let '(messages, stats, st) := acc in
  match get_block messages (rr_message item) (rr_block item) with
  | Some (CbToolResult id content is_error) =>
      if contains PRUNED_MARKER content then acc
      else
        let tool_name := match info !! rr_id item with Some (name, _) => name | None => "tool" end in
        match recovery_path tool_name content st with
        | (None, st) => (messages, stats, st)
        | (Some (path, created), st) =>
            let marker := pruned_marker path in
            if rr_chars item <=? char_count marker
            then (messages, stats, if created : bool then remove_file st path else st)
            else
              (set_block messages (rr_message item) (rr_block item) (CbToolResult id marker is_error),
               evict (info !! rr_id item)
                 (mkMicroStats (S (ms_results_pruned stats)) (ms_arguments_pruned stats)
                    (ms_estimated_tokens_saved stats + estimated_tokens (rr_chars item - char_count marker))
                    (ms_evicted_read_paths stats) (ms_clear_read_cache stats)),
               st)
        end
  | _ => acc
  end.

Fixpoint prune_all (info : gmap string (string * option string)) (items : list ResultRef)
    (acc : list Message * MicrocompactStats * Storage) : list Message * MicrocompactStats * Storage :=
  match items with [] => acc | item :: items => prune_all info items (prune_one info item acc) end.

(** The last loop, over every block of every message. *)
Definition truncate_arguments (protected_ids : list string) (max : nat) (messages : list Message)
    : list Message :=
  map (λ m, mkMessage (msg_role m) (map (λ b, (truncate_old_arguments b protected_ids max).1.1) (msg_content m)))
    messages.

Definition argument_stats (protected_ids : list string) (max : nat) (messages : list Message) : nat * nat :=
  foldl (λ acc b, let '(_, changed, saved) := truncate_old_arguments b protected_ids max in
                  (acc.1 + changed, acc.2 + saved)) (0, 0) (concat (map msg_content messages)).

(** [PathBuf]'s order and equality compare the components. *)
Fixpoint parts_leb (a b : list string) : bool :=
  match a, b with
  | [], _ => true
  | _ :: _, [] => false
  | x :: a, y :: b => if bool_decide (x = y) then parts_leb a b else str_leb x y
  end.

Definition path_leb (a b : string) : bool := parts_leb (path_parts a).2 (path_parts b).2.

Fixpoint dedup_paths (l : list string) : list string :=
  match l with
  | x :: (y :: _) as rest =>
      if bool_decide (path_parts x = path_parts y)
      then match dedup_paths rest with _ :: l => x :: l | [] => [x] end
      else x :: dedup_paths rest
  | _ => l
  end.

Definition microcompact_history (cfg : ToolOutputConfig) (messages : list Message) (st : Storage)
    : list Message * MicrocompactStats * Storage :=
  let info := call_info messages in
  let results := result_refs 0 messages in
  let recent := protected_recent (toc_intra_turn_keep_recent_results cfg) results in
  let protected_ids := recent ++ protected_errors results in
  let to_prune := choose_prune (toc_intra_turn_result_budget_tokens cfg) recent 0 (reverse results) in
  let '(messages, stats, st) := prune_all info to_prune (messages, mkMicroStats 0 0 0 [] false, st) in
  let max := toc_old_argument_max_chars cfg in
  let '(changed, saved) := argument_stats protected_ids max messages in
  (truncate_arguments protected_ids max messages,
   mkMicroStats (ms_results_pruned stats) changed (ms_estimated_tokens_saved stats + saved)
     (dedup_paths (sort_by path_leb (ms_evicted_read_paths stats))) (ms_clear_read_cache stats),
   st).

End storage.

(** ** Lemmas *)

(** *** Bytes and lines *)

Lemma newlines_app a b : newlines (a +:+ b) = newlines a + newlines b.
Proof. induction a as [|c a IH]; [done|]. rewrite append_cons. simpl. rewrite IH. lia. Qed.

Lemma newlines_take n s : newlines (str_take n s) ≤ newlines s.
Proof. pose proof (f_equal newlines (str_take_drop n s)) as H. rewrite newlines_app in H. lia. Qed.

Lemma newlines_drop n s : newlines (str_drop n s) ≤ newlines s.
Proof. pose proof (f_equal newlines (str_take_drop n s)) as H. rewrite newlines_app in H. lia. Qed.

Lemma newlines_strip_cr s : newlines (strip_cr s) ≤ newlines s.
Proof. induction s as [|c [|d s] IH]; simpl in *; [done| |lia]. by destruct (byte_of c =? 13); simpl; lia. Qed.

Lemma lines_from_newlines cur s : newlines cur = 0 → Forall (λ l, newlines l = 0) (lines_from cur s).
Proof.
  revert cur. induction s as [|c s IH]; intros cur Hcur; simpl.
  - case_decide; repeat constructor. done.
  - destruct (byte_of c =? 10) eqn:E; [constructor; [|by apply IH]|].
    + pose proof (newlines_strip_cr cur). lia.
    + apply IH. rewrite newlines_app, Hcur. simpl. unfold is_newline. by rewrite E.
Qed.

Lemma newlines_join l : Forall (λ x, newlines x = 0) l → newlines (join newline l) ≤ length l - 1.
Proof.
  induction l as [|x [|y l] IH]; intros Hl; [done| |].
  - apply Forall_cons in Hl as [Hx _]. simpl in *. lia.
  - apply Forall_cons in Hl as [Hx Hl]. specialize (IH Hl). cbn [join] in *.
    rewrite !newlines_app, Hx. change (newlines newline) with 1. simpl in *. lia.
Qed.

Lemma length_str_drop n s : String.length (str_drop n s) = String.length s - n.
Proof.
  pose proof (f_equal String.length (str_take_drop n s)) as H.
  rewrite length_append, length_str_take in H. lia.
Qed.

Lemma length_take_prefix_bytes text max : String.length (take_prefix_bytes text max) ≤ max.
Proof.
  unfold take_prefix_bytes. rewrite length_str_take.
  destruct (floor_boundary_spec text (max `min` String.length text)) as (?&_). lia.
Qed.

Lemma boundary_end s : is_char_boundary s (String.length s) = true.
Proof.
  unfold is_char_boundary. destruct (str_drop (String.length s) s) as [|c t] eqn:E.
  - by rewrite Nat.eqb_refl, orb_true_r.
  - pose proof (length_str_drop (String.length s) s) as H. rewrite E in H. simpl in H. lia.
Qed.

Lemma take_prefix_bytes_whole text max : String.length text ≤ max → take_prefix_bytes text max = text.
Proof.
  intros H. unfold take_prefix_bytes. rewrite Nat.min_r by done.
  replace (floor_boundary text (String.length text)) with (String.length text); [by apply str_take_all|].
  destruct (String.length text) eqn:E; [done|]. simpl. rewrite <- E, boundary_end. done.
Qed.

Lemma ceil_boundary_spec fuel text start :
  start ≤ String.length text ≤ start + fuel →
  let i := ceil_boundary fuel text start in
  start ≤ i ≤ String.length text ∧ is_char_boundary text i = true ∧
  ∀ j, start ≤ j < i → is_char_boundary text j = false.
Proof.
  revert start. induction fuel as [|fuel IH]; intros start H; cbn [ceil_boundary].
  - replace start with (String.length text) by lia. split_and!; [lia|lia|apply boundary_end|lia].
  - destruct (Nat.ltb_spec start (String.length text)); simpl.
    + destruct (is_char_boundary text start) eqn:E; simpl; [split_and!; [lia|lia|done|lia]|].
      destruct (IH (S start)) as (?&?&Hno); [lia|]. split_and!; [lia|lia|done|].
      intros j Hj. destruct (decide (j = start)) as [->|]; [done|]. apply Hno. lia.
    + replace start with (String.length text) by lia. split_and!; [lia|lia|apply boundary_end|lia].
Qed.

Lemma length_take_suffix_bytes text max : String.length (take_suffix_bytes text max) ≤ max.
Proof.
  unfold take_suffix_bytes. destruct (Nat.leb_spec (String.length text) max); [done|].
  destruct (ceil_boundary_spec max text (String.length text - max)) as ((?&?)&_); [lia|].
  rewrite length_str_drop. lia.
Qed.

Lemma div_ceil_2 n : div_ceil n 2 + n / 2 = n ∧ n / 2 ≤ div_ceil n 2.
Proof.
  unfold div_ceil. simpl (2 - 1). pose proof (Nat.div_mod_eq n 2). pose proof (Nat.div_mod_eq (n + 1) 2).
  pose proof (Nat.mod_upper_bound n 2). pose proof (Nat.mod_upper_bound (n + 1) 2). lia.
Qed.

(** The two parts of a preview around the marker. *)
Lemma preview_cases text marker max_lines max_bytes :
  let m := take_prefix_bytes marker max_bytes in
  let p := preview text marker max_lines max_bytes in
  p = m ∨
  2 ≤ max_lines ∧
  ∃ head tail, (p = head +:+ newline +:+ m ∨ p = head +:+ newline +:+ m +:+ newline +:+ tail ∧ tail ≠ "") ∧
    String.length p ≤ max_bytes ∧
    newlines head ≤ div_ceil (max_lines - 1) 2 - 1 ∧ newlines tail ≤ (max_lines - 1) / 2 - 1 ∧
    (tail ≠ "" → 1 ≤ (max_lines - 1) / 2).
Proof.
  set (m := take_prefix_bytes marker max_bytes). unfold preview. fold m.
  destruct (Nat.leb_spec max_lines 1) as [|Hl]; [by left|].
  destruct (Nat.leb_spec max_bytes (String.length m + 2)) as [|Hb]; [by left|]. right. split; [lia|].
  cbn [orb]. set (hl := div_ceil (max_lines - 1) 2). set (tl := (max_lines - 1) / 2).
  set (head := join newline (take hl (lines text))).
  set (tail := join newline (drop (length (lines text) - tl) (lines text))).
  set (av := max_bytes - (String.length m + if bool_decide (tail = "") then 1 else 2)).
  assert (Hlines : Forall (λ l, newlines l = 0) (lines text)) by by apply lines_from_newlines.
  pose proof (div_ceil_2 av) as [Hav _].
  pose proof (length_take_prefix_bytes head (div_ceil av 2)) as Hh.
  pose proof (length_take_suffix_bytes tail (av / 2)) as Ht.
  assert (Hnh : newlines (take_prefix_bytes head (div_ceil av 2)) ≤ hl - 1).
  { etrans; [apply newlines_take|]. etrans; [apply newlines_join; by apply Forall_take|].
    rewrite length_take. lia. }
  assert (Hnt : newlines (take_suffix_bytes tail (av / 2)) ≤ tl - 1).
  { transitivity (newlines tail); [|etrans; [apply newlines_join; by apply Forall_drop|rewrite length_drop; lia]].
    unfold take_suffix_bytes. case_match; [done|]. apply newlines_drop. }
  assert (Htl : take_suffix_bytes tail (av / 2) ≠ "" → 1 ≤ tl).
  { intros Hne. destruct tl as [|n] eqn:E; [|lia]. exfalso. apply Hne. subst tail.
    rewrite Nat.sub_0_r, drop_all. done. }
  assert (Hsep : bool_decide (tail = "") = true → take_suffix_bytes tail (av / 2) = "").
  { intros ->%bool_decide_eq_true. done. }
  exists (take_prefix_bytes head (div_ceil av 2)), (take_suffix_bytes tail (av / 2)).
  assert (Hsum : String.length (take_prefix_bytes head (div_ceil av 2)) + String.length m +
                 String.length (take_suffix_bytes tail (av / 2)) +
                 (if bool_decide (take_suffix_bytes tail (av / 2) = "") then 1 else 2) ≤ max_bytes).
  { assert (Hmax : av + String.length m + (if bool_decide (tail = "") then 1 else 2) = max_bytes)
      by (subst av; case_match; lia).
    clearbody av. destruct (bool_decide (tail = "")); [rewrite (Hsep eq_refl) in *; simpl in *; lia|].
    case_bool_decide; lia. }
  clear Hsep. split_and!; [| |done|done|done]; case_bool_decide.
  - by left.
  - by right; split.
  - rewrite !length_append. change (String.length newline) with 1. lia.
  - rewrite !length_append. change (String.length newline) with 1. lia.
Qed.

(** The marker is part of every preview that has room for it. *)
Lemma contains_app a p b : contains p (a +:+ p +:+ b) = true.
Proof.
  induction a as [|c a IH].
  - rewrite append_nil_l. assert (starts_with p (p +:+ b) = true) as H by (apply starts_with_spec; eauto).
    destruct (p +:+ b); simpl; by rewrite H.
  - rewrite append_cons. cbn [contains]. rewrite IH. apply orb_true_r.
Qed.

Lemma contains_inner a p b x y : contains p (a +:+ (x +:+ p +:+ y) +:+ b) = true.
Proof. rewrite !append_assoc, <- (append_assoc a x). rewrite <- append_assoc. rewrite append_assoc. apply contains_app. Qed.

Lemma preview_has_marker text x p y max_lines max_bytes :
  String.length (x +:+ p +:+ y) ≤ max_bytes →
  contains p (preview text (x +:+ p +:+ y) max_lines max_bytes) = true.
Proof.
  intros Hfit. set (marker := x +:+ p +:+ y) in *.
  pose proof (preview_cases text marker max_lines max_bytes) as H. cbv zeta in H.
  rewrite take_prefix_bytes_whole in H by done.
  destruct H as [->|(_&head&tail&[->|[-> _]]&_)]; [apply contains_app| |].
  - rewrite <- (append_nil_r marker), <- append_assoc. apply contains_inner.
  - rewrite <- append_assoc. apply contains_inner.
Qed.

(** *** JSON values *)

Lemma any_mut_Some {A} (f : A → option A) l l' :
  any_mut f l = Some l' → ∃ a x x' b, l = a ++ x :: b ∧ l' = a ++ x' :: b ∧ f x = Some x'.
Proof.
  revert l'. induction l as [|x l IH]; intros l'; simpl; [done|].
  destruct (f x) as [x'|] eqn:E; [intros [= <-]; by exists [], x, x', l|].
  destruct (any_mut f l) as [k|]; [|done]. intros [= <-].
  destruct (IH k eq_refl) as (a&y&y'&b&->&->&?). by exists (x :: a), y, y', b.
Qed.

(** Every truncation removes bytes, which bounds the loop. *)
Lemma truncate_decreases longest target marker max_lines v v' :
  truncate_first_json_string longest target marker max_lines v = Some v' →
  json_string_bytes v' < json_string_bytes v.
Proof.
  revert v'. induction v as [| | |text|items IH|fields IH] using json_induction; intros v'; simpl; try done.
  - repeat case_match; try done. intros [= <-]. simpl.
    destruct (Nat.leb_spec (String.length text)
      (String.length (preview text marker max_lines target))); [done|lia].
  - destruct (any_mut _ items) as [k|] eqn:E; [|done]. intros [= <-].
    apply any_mut_Some in E as (a&x&x'&b&->&->&Hx). apply Forall_app in IH as [_ [IH _]%Forall_cons].
    apply IH in Hx. simpl. rewrite !map_app, !(sum_list_with_app id). simpl. lia.
  - destruct (any_mut _ fields) as [k|] eqn:E; [|done]. intros [= <-].
    apply any_mut_Some in E as (a&x&x'&b&->&->&Hx). apply Forall_app in IH as [_ [IH _]%Forall_cons].
    destruct (truncate_first_json_string _ _ _ _ x.2) as [v|] eqn:Hv; [|done]. injection Hx as <-.
    specialize (IH v eq_refl). simpl. rewrite !map_app, !(sum_list_with_app id). simpl. lia.
Qed.

Section bounding.
Context (json_text : Json → string) (json_parse : string → option Json).
Context (directory : string).
Context (dir_ok write_ok : nat → bool) (uuid : nat → string) (expired : nat → string → bool).
Notation bound_text := (bound_text json_text json_parse directory dir_ok write_ok uuid expired).
Notation store_full := (store_full directory dir_ok write_ok uuid expired).

(** The shrinking loop ends within the bytes its value's strings have. *)
Lemma shrink_loop_total fuel path marker max_lines max_bytes v :
  json_string_bytes v < fuel → is_Some (shrink_loop json_text fuel path marker max_lines max_bytes v).
Proof.
  revert v. induction fuel as [|fuel IH]; intros v Hv; [lia|]. cbn [shrink_loop].
  repeat case_match; try by eexists. apply IH. by match goal with
  | H : truncate_first_json_string _ _ _ _ _ = Some _ |- _ => apply truncate_decreases in H; lia end.
Qed.

Lemma shrink_loop_result fuel path marker max_lines max_bytes v s :
  shrink_loop json_text fuel path marker max_lines max_bytes v = Some (Some s) →
  String.length s ≤ max_bytes ∧ ∃ v', s = json_text v' ∧ json_contains_path v' path = true.
Proof.
  revert v. induction fuel as [|fuel IH]; intros v; [done|]. cbn [shrink_loop].
  destruct (Nat.leb_spec (String.length (json_text v)) max_bytes).
  - destruct (json_contains_path v path) eqn:E; [|done]. intros [= <-]. eauto.
  - repeat case_match; try done. apply IH.
Qed.

Lemma contains_self p : contains p p = true.
Proof.
  pose proof (contains_app "" p "") as H. by rewrite append_nil_l, append_nil_r in H.
Qed.

Lemma structured_preview_spec v path marker max_lines max_bytes s :
  structured_preview json_text v path marker max_lines max_bytes = Some s →
  String.length s ≤ max_bytes ∧ ∃ v', s = json_text v' ∧ json_contains_path v' path = true.
Proof.
  unfold structured_preview. destruct (shrink_loop _ _ _ _ _ _ _) as [[k|]|] eqn:E.
  1: intros [= <-]; by eapply shrink_loop_result.
  all: destruct (Nat.leb_spec (String.length (json_text (fallback_preview path))) max_bytes); [|done].
  all: intros [= <-]; split; [done|]; eexists; split; [done|]; simpl; by rewrite contains_self.
Qed.

Lemma store_full_spec st tool content path st' :
  store_full st tool content = (Some path, st') →
  st_files st' !! path = Some content ∧
  ∀ p c, p ≠ path → st_files st' !! p = Some c → st_files st !! p = Some c.
Proof.
  unfold store_full. repeat case_match; intros [= <- <-]; simpl. split; [by rewrite lookup_insert_eq|].
  intros p c Hp. rewrite lookup_insert_ne by done. unfold cleanup_expired.
  by intros [? _]%map_lookup_filter_Some.
Qed.

(** Where a bounded result says its whole text is. *)
Definition names_path (visible path : string) : Prop :=
  contains path visible = true ∨ ∃ v, visible = json_text v ∧ json_contains_path v path = true.

Lemma bound_text_spec cfg tool content st b st' :
  bound_text cfg tool content st = (b, st') →
  match bt_output_path b with
  | None => bt_content b = content ∧
      ∀ p, is_Some (st_files st' !! p) → is_Some (st_files st !! p)
  | Some path =>
      st_files st' !! path = Some content ∧ String.length (bt_content b) ≤ toc_max_bytes cfg ∧
      (toc_max_bytes cfg < String.length content ∨ toc_max_lines cfg < line_count content) ∧
      (String.length ("... " +:+ TRUNCATED_MARKER +:+ " " +:+ path +:+ " ...") ≤ toc_max_bytes cfg →
       names_path (bt_content b) path)
  end.
Proof.
  unfold bound_text. destruct (_ && _) eqn:Hfit; [by intros [= <- <-]|].
  destruct (store_full st tool content) as [[path|] st1] eqn:Hs; cycle 1.
  { intros [= <- <-]. split; [done|]. intros p. revert Hs. unfold store_full, cleanup_expired.
    repeat case_match; intros [= <-]; simpl; try done;
      intros [c [? _]%map_lookup_filter_Some]; by eexists. }
  apply store_full_spec in Hs as [Hin Hold].
  assert (Hbig : toc_max_bytes cfg < String.length content ∨ toc_max_lines cfg < line_count content).
  { apply andb_false_iff in Hfit as [H|H]; [left|right]; by apply Nat.leb_gt in H. }
  set (marker := "... " +:+ _). destruct (json_parse content) as [v|].
  - destruct (structured_preview _ _ _ _ _ _) as [s|] eqn:E; intros [= <- <-]; simpl.
    + apply structured_preview_spec in E as [? ?]. split_and!; [done..|]. intros _. by right.
    + split; [done|]. intros p [c [Hp Hc]%lookup_delete_Some]. exists c. by apply Hold.
  - intros [= <- <-]. simpl.
    pose proof (preview_cases content marker (toc_max_lines cfg) (toc_max_bytes cfg)) as Hp. cbv zeta in Hp.
    split_and!; [done| |done|].
    + destruct Hp as [->|(_&?&?&_&?&_)]; [apply length_take_prefix_bytes|done].
    + intros Hm. left. subst marker.
      replace ("... " +:+ TRUNCATED_MARKER +:+ " " +:+ path +:+ " ...")
        with (("... " +:+ TRUNCATED_MARKER +:+ " ") +:+ path +:+ " ...") in * by done.
      by apply preview_has_marker.
Qed.
End bounding.

(** *** Recovering the path from a marker *)

(** [c] does not occur in [p]. *)
Fixpoint lacks (c : Ascii.ascii) (p : string) : bool :=
  match p with EmptyString => true | String d p => negb (bool_decide (c = d)) && lacks c p end.

Lemma starts_with_lacks c p a b :
  lacks c p = true → starts_with p (a +:+ String c b) = starts_with p a.
Proof.
  unfold starts_with. revert a. induction p as [|d p IH]; intros a Hl; [by destruct a|].
  simpl in Hl. apply andb_true_iff in Hl as [Hd%negb_true_iff%bool_decide_eq_false Hl].
  destruct a as [|x a]; rewrite ?append_nil_l, ?append_cons; simpl.
  - destruct (decide (d = c)) as [->|]; done.
  - destruct (decide (d = x)); [by apply IH|done].
Qed.

Lemma split_once_skip c p a b :
  lacks c p = true → contains p a = false → p ≠ "" →
  split_once p (a +:+ String c b) =
  match split_once p b with Some (x, y) => Some (a +:+ String c x, y) | None => None end.
Proof.
  intros Hl Ha Hp. induction a as [|x a IH].
  - rewrite append_nil_l. cbn [split_once]. pose proof (starts_with_lacks c p "" b Hl) as H.
    rewrite append_nil_l in H. unfold starts_with in H.
    replace (is_some (strip_prefix p "")) with false in H by by destruct p.
    destruct (strip_prefix p (String c b)); [done|]. by destruct (split_once p b) as [[]|].
  - cbn [contains] in Ha. apply orb_false_iff in Ha as [Hs Ha]. specialize (IH Ha).
    rewrite append_cons. cbn [split_once].
    pose proof (starts_with_lacks c p (String x a) b Hl) as H. rewrite Hs, append_cons in H.
    unfold starts_with in H. destruct (strip_prefix p (String x (a +:+ String c b))); [done|].
    rewrite IH. by destruct (split_once p b) as [[]|].
Qed.

Lemma before_last_none pat s : contains pat s = false → before_last pat s = None.
Proof.
  induction s as [|c s IH]; cbn [contains before_last].
  - rewrite orb_false_r. by intros ->.
  - intros [Hs Hc]%orb_false_iff. rewrite IH by done. by rewrite Hs.
Qed.

Lemma before_last_app pat a s p : before_last pat s = Some p → before_last pat (a +:+ s) = Some (a +:+ p).
Proof.
  intros H. induction a as [|c a IH]; [done|]. rewrite append_cons. cbn [before_last].
  rewrite IH. by rewrite append_cons.
Qed.

Lemma before_last_ellipsis a tail :
  contains " ..." tail = false → before_last " ..." (a +:+ " ..." +:+ tail) = Some a.
Proof.
  intros H. rewrite (before_last_app _ a _ ""); [by rewrite append_nil_r|].
  change (" ..." +:+ tail) with (String (Ascii.ascii_of_nat 32) ("..." +:+ tail)). cbn [before_last].
  rewrite before_last_none.
  - replace (starts_with _ _) with true; [done|]. symmetry. apply starts_with_spec. by exists tail.
  - change ("..." +:+ tail) with (String (Ascii.ascii_of_nat 46) (String (Ascii.ascii_of_nat 46)
      (String (Ascii.ascii_of_nat 46) tail))). cbn [contains]. rewrite H. done.
Qed.

Lemma trim_start_slash s :
  trim_start (" /" +:+ s) = "/" +:+ s.
Proof.
  change (" /" +:+ s) with (String (Ascii.ascii_of_nat 32) ("/" +:+ s)).
  unfold trim_start. rewrite <- (str_concat_chars ("/" +:+ s)) at 2.
  assert (Hc : ∃ g gs, chars ("/" +:+ s) = String (Ascii.ascii_of_nat 47) g :: gs).
  { change ("/" +:+ s) with (String (Ascii.ascii_of_nat 47) s). cbn [chars].
    repeat case_match; eauto. }
  destruct Hc as (g&gs&Hc). cbn [chars]. rewrite Hc. simpl.
  assert (char_is_whitespace (String (Ascii.ascii_of_nat 47) g) = false) as ->; [|done].
  by destruct g as [|? [|? [|]]].
Qed.

(** What is read back from a preview, whatever the text around the marker. *)
Lemma marker_output_path_last head path tail :
  contains TRUNCATED_MARKER head = false → contains " ..." tail = false →
  marker_output_path (head +:+ "... " +:+ TRUNCATED_MARKER +:+ " /" +:+ path +:+ " ..." +:+ tail)
  = Some ("/" +:+ path).
Proof.
  intros Hhead Htail. unfold marker_output_path.
  change ("... " +:+ TRUNCATED_MARKER +:+ " /" +:+ path +:+ " ..." +:+ tail)
    with (String (Ascii.ascii_of_nat 46) (".. " +:+ TRUNCATED_MARKER +:+ " /" +:+ path +:+ " ..." +:+ tail)).
  rewrite split_once_skip by done.
  replace (split_once TRUNCATED_MARKER (".. " +:+ TRUNCATED_MARKER +:+ " /" +:+ path +:+ " ..." +:+ tail))
    with (Some (".. ", " /" +:+ path +:+ " ..." +:+ tail)) by reflexivity.
  rewrite trim_start_slash. change ("/" +:+ path +:+ " ..." +:+ tail) with (("/" +:+ path) +:+ " ..." +:+ tail).
  rewrite before_last_ellipsis by done. done.
Qed.

(** *** Pruning *)

(** An entry of [results] points at the result it was made from. *)
Definition ref_of (messages : list Message) (r : ResultRef) : Prop :=
  ∃ content, get_block messages (rr_message r) (rr_block r) =
               Some (CbToolResult (rr_id r) content (rr_is_error r)) ∧
             rr_chars r = char_count content.

Lemma elem_of_block_refs i j content r :
  r ∈ block_refs i j content →
  rr_message r = i ∧ j ≤ rr_block r ∧
  ∃ c, content !! (rr_block r - j) = Some (CbToolResult (rr_id r) c (rr_is_error r)) ∧
       rr_chars r = char_count c.
Proof.
  revert j. induction content as [|b content IH]; intros j; cbn [block_refs]; [set_solver|].
  rewrite elem_of_app. intros [Hr|Hr].
  - destruct b; simpl in Hr; try set_solver. apply list_elem_of_singleton in Hr as ->. simpl.
    rewrite Nat.sub_diag. split_and!; [done..|]. simpl. eauto.
  - apply IH in Hr as (?&?&c&Hc&?). split_and!; [done|lia|]. exists c. split; [|done].
    replace (rr_block r - j) with (S (rr_block r - S j)) by lia. done.
Qed.

Lemma elem_of_result_refs messages k r :
  r ∈ result_refs k messages →
  k ≤ rr_message r ∧
  ∃ m c, messages !! (rr_message r - k) = Some m ∧
         msg_content m !! rr_block r = Some (CbToolResult (rr_id r) c (rr_is_error r)) ∧
         rr_chars r = char_count c.
Proof.
  revert k. induction messages as [|m messages IH]; intros k; cbn [result_refs]; [set_solver|].
  rewrite elem_of_app. intros [Hr|Hr].
  - apply elem_of_block_refs in Hr as (->&_&c&Hc&?). rewrite Nat.sub_0_r in Hc.
    split; [done|]. exists m, c. by rewrite Nat.sub_diag.
  - apply IH in Hr as (?&m'&c&Hm&?&?). split; [lia|]. exists m', c. split; [|done].
    replace (rr_message r - k) with (S (rr_message r - S k)) by lia. done.
Qed.

Lemma result_refs_ref_of messages r : r ∈ result_refs 0 messages → ref_of messages r.
Proof.
  intros (_&m&c&Hm&Hb&?)%elem_of_result_refs. exists c. rewrite Nat.sub_0_r in Hm.
  unfold get_block. by rewrite Hm.
Qed.

Lemma choose_prune_elem budget recent retained l r :
  r ∈ choose_prune budget recent retained l → r ∈ l ∧ rr_is_error r = false ∧ rr_id r ∉ recent.
Proof.
  revert retained. induction l as [|x l IH]; intros retained; cbn [choose_prune]; [set_solver|].
  destruct (rr_is_error x || _) eqn:E; [intros ?%IH; set_solver|].
  apply orb_false_iff in E as [? Hrec%bool_decide_eq_false].
  case_match; [intros ?%IH; set_solver|]. intros [->|?%IH]%elem_of_cons; [|set_solver].
  split_and!; [by left|done|done].
Qed.

Lemma contains_pruned path : contains PRUNED_MARKER (pruned_marker path) = true.
Proof. unfold pruned_marker. apply (contains_app "["). Qed.

Section pruning.
Context (json_parse : string → option Json).
Context (directory : string).
Context (dir_ok write_ok : nat → bool) (uuid : nat → string) (expired : nat → string → bool).
Notation store_full := (store_full directory dir_ok write_ok uuid expired).
Notation recovery_path := (recovery_path json_parse directory dir_ok write_ok uuid expired).
Notation prune_one := (prune_one json_parse directory dir_ok write_ok uuid expired).
Notation prune_all := (prune_all json_parse directory dir_ok write_ok uuid expired).

(** No file of the directory expires. *)
Definition no_expiry : Prop := ∀ tick path, expired tick path = false.

Lemma cleanup_nothing tick files : no_expiry → cleanup_expired expired tick files = files.
Proof. intros Hkeep. unfold cleanup_expired. apply map_filter_id. intros; by apply Hkeep. Qed.

Lemma store_full_keeps st tool content r st' :
  no_expiry → store_full st tool content = (r, st') →
  st_files st ⊆ st_files st' ∧
  match r with
  | Some path => st_files st !! path = None ∧ st_files st' = <[path := content]> (st_files st)
  | None => st_files st' = st_files st
  end.
Proof.
  intros Hkeep. unfold store_full. rewrite cleanup_nothing by done.
  destruct (dir_ok _); simpl; [|intros [= <- <-]; by split].
  destruct (st_files st !! _) eqn:E; simpl; [intros [= <- <-]; by split|].
  destruct (write_ok _); simpl; intros [= <- <-]; split; [by apply insert_subseteq|done..].
Qed.

(** The file that holds the text of a result, or the one it was read from. *)
Definition kept_in (files : gmap string string) (content path : string) : Prop :=
  files !! path = Some content ∨
  existing_output_path json_parse content = Some path ∧ is_Some (files !! path).

Lemma kept_in_mono f g content path : f ⊆ g → kept_in f content path → kept_in g content path.
Proof.
  intros Hfg [H|[H [x Hx]]]; [left|right; split; [done|exists x]]; by eapply lookup_weaken.
Qed.

Lemma recovery_path_spec tool content st r st' :
  no_expiry → recovery_path tool content st = (r, st') →
  st_files st ⊆ st_files st' ∧
  match r with
  | Some (path, created) =>
      kept_in (st_files st') content path ∧
      (created = true → st_files st ⊆ st_files (remove_file st' path))
  | None => True
  end.
Proof.
  intros Hkeep. unfold recovery_path. destruct (match existing_output_path json_parse content with
    | Some path => _ | None => None end) as [path|] eqn:E.
  - intros [= <- <-]. split; [done|]. split; [|done]. right.
    destruct (existing_output_path json_parse content) as [q|]; [|done].
    destruct (_ && _) eqn:Ha; [|done]. injection E as ->. apply andb_true_iff in Ha as [_ Ha].
    split; [done|]. by destruct (st_files st !! path).
  - destruct (store_full st tool content) as [[path|] st1] eqn:Hs; intros [= <- <-];
      (apply store_full_keeps in Hs as [Hsub Hs]; [|exact Hkeep]); (split; [done|]); [|done].
    destruct Hs as [Hfresh Hs]. split; [left; by rewrite Hs, lookup_insert_eq|].
    intros _. simpl. rewrite Hs, delete_insert_id by done. done.
Qed.

(** How a block may differ from the one it was. *)
Definition block_pruned (files : gmap string string) (recent : list string) (b b' : ContentBlock) : Prop :=
  b' = b ∨
  ∃ id content path,
    b = CbToolResult id content false ∧ b' = CbToolResult id (pruned_marker path) false ∧ (id ∉ recent) ∧
    char_count (pruned_marker path) < char_count content ∧ (no_expiry → kept_in files content path).

Definition message_related (R : ContentBlock → ContentBlock → Prop) (m m' : Message) : Prop :=
  msg_role m = msg_role m' ∧ Forall2 R (msg_content m) (msg_content m').

Lemma block_pruned_mono f g recent b b' : (no_expiry → f ⊆ g) → block_pruned f recent b b' → block_pruned g recent b b'.
Proof.
  intros Hfg [->|(id&c&p&?&?&?&?&?)]; [by left|]. right. exists id, c, p. split_and!; eauto using kept_in_mono.
Qed.

Lemma related_get_block R ms ms' i j b' :
  Forall2 (message_related R) ms ms' → get_block ms' i j = Some b' →
  ∃ b, get_block ms i j = Some b ∧ R b b'.
Proof.
  unfold get_block. intros Hall Hb. destruct (ms' !! i) as [m'|] eqn:Hm'; simpl in Hb; [|done].
  destruct (Forall2_lookup_r _ _ _ _ _ Hall Hm') as (m&->&_&Hc). simpl.
  destruct (Forall2_lookup_r _ _ _ _ _ Hc Hb) as (b&->&?). eauto.
Qed.

Lemma related_set_block R ms ms' i j b b' :
  Forall2 (message_related R) ms ms' → get_block ms i j = Some b → R b b' →
  Forall2 (message_related R) ms (set_block ms' i j b').
Proof.
  intros Hall Hb HR. unfold set_block, get_block in *.
  destruct (ms !! i) as [m|] eqn:Hm; simpl in Hb; [|done].
  rewrite <- (list_alter_id id ms i) by done. apply Forall2_alter; [done|].
  intros x x' Hx Hx' [Hr Hc]. rewrite Hm in Hx. injection Hx as <-. split; [done|]. simpl.
  rewrite <- (list_insert_id (msg_content m) j b) by done. by apply Forall2_insert.
Qed.

(** One step of the pruning loop. *)
Lemma prune_one_spec info item orig recent ms stats st ms' stats' st' :
  ref_of orig item → rr_is_error item = false → rr_id item ∉ recent →
  prune_one info item (ms, stats, st) = (ms', stats', st') →
  Forall2 (message_related (block_pruned (st_files st) recent)) orig ms →
  (no_expiry → st_files st ⊆ st_files st') ∧
  Forall2 (message_related (block_pruned (st_files st') recent)) orig ms'.
Proof.
  intros (content&Hb&Hchars) Herr Hrec Hstep Hall.
  assert (Hmono : ∀ g, (no_expiry → st_files st ⊆ g) → Forall2 (message_related (block_pruned g recent)) orig ms).
  { intros g Hg. eapply Forall2_impl; [done|]. intros m m' [? Hc]. split; [done|].
    eapply Forall2_impl; [done|]. intros. by eapply block_pruned_mono. }
  unfold prune_one in Hstep.
  destruct (get_block ms (rr_message item) (rr_block item)) as [b'|] eqn:Hget; [|by simplify_eq].
  destruct (related_get_block _ _ _ _ _ _ Hall Hget) as (b&Hb'&HR). rewrite Hb in Hb'. injection Hb' as <-.
  rewrite Herr in *.
  destruct HR as [->|(id&c&p&_&->&_)]; cycle 1.
  { rewrite contains_pruned in Hstep. by simplify_eq. }
  destruct (contains PRUNED_MARKER content); [by simplify_eq|].
  destruct (recovery_path _ content st) as [r st1] eqn:Hp.
  assert (Hspec := λ Hkeep, recovery_path_spec _ _ _ _ _ Hkeep Hp). clear Hp.
  assert (Hsub : no_expiry → st_files st ⊆ st_files st1) by (intros H; apply (Hspec H)).
  destruct r as [[path created]|]; [|simplify_eq; by split; [|apply Hmono]].
  destruct (Nat.leb_spec (rr_chars item) (char_count (pruned_marker path))); simplify_eq.
  - destruct created; [|by split; [|apply Hmono]].
    assert (no_expiry → st_files st ⊆ st_files (remove_file st1 path)) by (intros H'; by apply (Hspec H')).
    split; [done|by apply Hmono].
  - split; [done|]. eapply related_set_block; [by apply Hmono|done|].
    right. exists (rr_id item), content, path. split_and!; try done; [lia|]. intros H'. apply (Hspec H').
Qed.

Lemma prune_all_spec info items orig recent ms stats st ms' stats' st' :
  Forall (λ r, ref_of orig r ∧ rr_is_error r = false ∧ rr_id r ∉ recent) items →
  prune_all info items (ms, stats, st) = (ms', stats', st') →
  Forall2 (message_related (block_pruned (st_files st) recent)) orig ms →
  (no_expiry → st_files st ⊆ st_files st') ∧
  Forall2 (message_related (block_pruned (st_files st') recent)) orig ms'.
Proof.
  revert ms stats st. induction items as [|item items IH]; intros ms stats st Hitems; cbn [prune_all].
  { intros [= <- <- <-]. by split. }
  apply Forall_cons in Hitems as [(Hr&He&Hn) Hitems].
  destruct (prune_one info item (ms, stats, st)) as [[ms1 stats1] st1] eqn:Hone. intros Hall Hrel.
  destruct (prune_one_spec _ _ _ _ _ _ _ _ _ _ Hr He Hn Hone Hrel) as [Hsub Hrel1].
  destruct (IH _ _ _ Hitems Hall Hrel1) as [? ?]. split; [intros Hk; etrans; [by apply Hsub|auto]|done].
Qed.
End pruning.

(** What shedding may change: the text of an old successful result, kept in a file,
    and the arguments of an old write or edit. *)
Definition block_compacted (json_parse : string → option Json) (expired : nat → string → bool)
    (files : gmap string string)
    (recent protected_ids : list string) (b b' : ContentBlock) : Prop :=
  match b with
  | CbToolResult id content is_error =>
      b' = b ∨ is_error = false ∧ (id ∉ recent) ∧
        ∃ path, b' = CbToolResult id (pruned_marker path) false ∧
          char_count (pruned_marker path) < char_count content ∧
          (no_expiry expired → kept_in json_parse files content path)
  | CbToolCall id name input =>
      ∃ input', b' = CbToolCall id name input' ∧
        (input' = input ∨ (id ∉ protected_ids) ∧ name ∈ ["write_file"; "edit_file"])
  | _ => b' = b
  end.

Lemma truncate_old_arguments_spec b protected_ids max :
  let b' := (truncate_old_arguments b protected_ids max).1.1 in
  match b with
  | CbToolCall id name input =>
      ∃ input', b' = CbToolCall id name input' ∧
        (input' = input ∨ (id ∉ protected_ids) ∧ name ∈ ["write_file"; "edit_file"])
  | _ => b' = b
  end.
Proof.
  destruct b as [| | | |id name input|]; try done. simpl.
  case_bool_decide as Hid; [by eexists; split; [|left]|].
  case_bool_decide as Hw; [subst|case_bool_decide as He; [subst|by eexists; split; [|left]]].
  - destruct (json_get input "content" ≫= _) as [[text saved]|]; simpl; (eexists; split; [done|]); [|by left].
    right. split; [done|set_solver].
  - destruct (json_get input "edits") as [[]|]; simpl; try by (eexists; split; [|left]).
    destruct (truncate_edits max items) as [[items' changed] saved]. simpl. eexists; split; [done|].
    right. split; [done|set_solver].
Qed.

Lemma truncate_arguments_related json_parse expired files recent protected_ids max ms ms' :
  Forall2 (message_related (block_pruned json_parse expired files recent)) ms ms' →
  Forall2 (message_related (block_compacted json_parse expired files recent protected_ids)) ms
    (truncate_arguments protected_ids max ms').
Proof.
  intros H. unfold truncate_arguments. apply Forall2_fmap_r. eapply Forall2_impl; [done|].
  intros m m' [Hr Hc]. split; [done|]. simpl. apply Forall2_fmap_r. eapply Forall2_impl; [done|].
  intros b b' HR. pose proof (truncate_old_arguments_spec b' protected_ids max) as Ht. cbv zeta in Ht.
  destruct HR as [->|(id&content&path&->&->&Hid&Hlen&Hk)].
  - destruct b; simpl in *; try done. by left.
  - simpl. right. split_and!; [done..|]. by exists path.
Qed.

Lemma omap_related {B} (f : ContentBlock → option B) R l l' :
  (∀ b b', R b b' → f b = f b') → Forall2 R l l' → omap f l = omap f l'.
Proof. intros Hf. induction 1 as [|b b' l l' HR _ IH]; [done|]. csimpl. by rewrite (Hf _ _ HR), IH. Qed.

Lemma existsb_related (f : ContentBlock → bool) R l l' :
  (∀ b b', R b b' → f b = f b') → Forall2 R l l' → existsb f l = existsb f l'.
Proof. intros Hf. induction 1 as [|b b' l l' HR _ IH]; [done|]. simpl. by rewrite (Hf _ _ HR), IH. Qed.

(** What providers check of a message does not depend on what was shed. *)
Lemma compacted_message jp ex files recent protected_ids m m' :
  message_related (block_compacted jp ex files recent protected_ids) m m' →
  msg_role m = msg_role m' ∧ call_ids m = call_ids m' ∧ result_ids m = result_ids m' ∧
  is_result_message m = is_result_message m' ∧ is_user_turn_message m = is_user_turn_message m' ∧
  is_turn_start m = is_turn_start m'.
Proof.
  intros [Hr Hc].
  assert (Hshape : ∀ b b', block_compacted jp ex files recent protected_ids b b' →
    block_call_id b = block_call_id b' ∧ block_result_id b = block_result_id b' ∧
    (block_call_id b = None → block_result_id b = None → b' = b)).
  { intros [] b'; simpl; try (intros ->; by split_and!).
    - intros (?&->&_). by split_and!.
    - intros [->|(_&_&?&->&_)]; by split_and!. }
  assert (Hh : head (msg_content m) = head (msg_content m') ∨
    ∃ b b', head (msg_content m) = Some b ∧ head (msg_content m') = Some b' ∧
      block_compacted jp ex files recent protected_ids b b').
  { inversion Hc; [by left|]. right. simpl. eauto. }
  assert (Hres : omap block_result_id (msg_content m) = omap block_result_id (msg_content m'))
    by (eapply omap_related; [|done]; intros b b' HR; apply (Hshape _ _ HR)).
  assert (Hnot : ∀ f : ContentBlock → bool,
    (∀ b, is_some (block_call_id b) = true ∨ is_some (block_result_id b) = true → f b = false) →
    existsb f (msg_content m) = existsb f (msg_content m')).
  { intros f Hf. eapply existsb_related; [|done]. intros b b' HR. destruct (Hshape _ _ HR) as (H1&H2&H3).
    destruct (block_call_id b) eqn:E1; [by rewrite !Hf by (left; rewrite <- ?H1, ?E1; done)|].
    destruct (block_result_id b) eqn:E2; [by rewrite !Hf by (right; rewrite <- ?H2, ?E2; done)|].
    by rewrite H3. }
  split_and!; [done| |done| | |].
  - unfold call_ids. rewrite Hr. case_bool_decide; [|done].
    eapply omap_related; [|done]. intros b b' HR; apply (Hshape _ _ HR).
  - unfold is_result_message. rewrite Hr, (Forall2_length _ _ _ Hc). f_equal.
    revert Hc. clear -Hshape. induction 1 as [|b b' l l' HR _ IH]; [done|]. simpl. rewrite IH. f_equal.
    unfold is_tool_result. by destruct (Hshape _ _ HR) as (_&->&_).
  - unfold is_user_turn_message. rewrite Hr. case_match; [done|]. apply Hnot.
    intros [] [?|?]; done.
  - unfold is_turn_start. rewrite Hr. f_equal. destruct Hh as [->|(b&b'&->&->&HR)]; [done|].
    destruct b, b'; simpl in HR; naive_solver.
Qed.

Lemma compacted_paired jp ex files recent protected_ids ms ms' :
  Forall2 (message_related (block_compacted jp ex files recent protected_ids)) ms ms' →
  paired ms' = paired ms.
Proof.
  induction 1 as [|m m' ms ms' Hm Hms IH]; [done|]. cbn [paired]. rewrite IH. f_equal.
  apply compacted_message in Hm as (_&Hc&_). rewrite Hc. f_equal.
  destruct Hms as [|n n' ? ? Hn _]; [done|]. apply compacted_message in Hn as (_&_&Hr&Hres&_).
  unfold answers. by rewrite Hr, Hres, Hc.
Qed.

Lemma compacted_turns jp ex files recent protected_ids ms ms' :
  Forall2 (message_related (block_compacted jp ex files recent protected_ids)) ms ms' →
  map is_user_turn_message ms' = map is_user_turn_message ms ∧ turn_starts ms' = turn_starts ms.
Proof.
  intros H. split.
  - induction H as [|m m' ms ms' Hm _ IH]; [done|]. simpl. rewrite IH. f_equal.
    by apply compacted_message in Hm as (_&_&_&_&->&_).
  - unfold turn_starts. generalize 0 as k. induction H as [|m m' ms ms' Hm _ IH]; intros k; [done|].
    simpl. rewrite IH. by apply compacted_message in Hm as (_&_&_&_&_&->).
Qed.

Lemma compacted_calls jp ex files recent protected_ids m m' :
  message_related (block_compacted jp ex files recent protected_ids) m m' →
  omap block_call_id (msg_content m) = omap block_call_id (msg_content m').
Proof.
  intros [_ Hc]. eapply omap_related; [|exact Hc]. intros b b'. destruct b; simpl; try by intros ->.
  - by intros (?&->&_).
  - by intros [->|(_&_&?&->&_)].
Qed.

Lemma compacted_answered jp ex files recent protected_ids ms ms' :
  Forall2 (message_related (block_compacted jp ex files recent protected_ids)) ms ms' →
  answered ms' = answered ms.
Proof.
  induction 1 as [|m m' ms ms' Hm _ IH]; [done|]. unfold answered in *. simpl. rewrite IH.
  by apply compacted_message in Hm as (_&_&->&_).
Qed.

(** Shedding relates every block to the one it was. *)
Lemma microcompact_related json_parse directory dir_ok write_ok uuid expired cfg messages st out stats st' :
  microcompact_history json_parse directory dir_ok write_ok uuid expired cfg messages st = (out, stats, st') →
  let results := result_refs 0 messages in
  let recent := protected_recent (toc_intra_turn_keep_recent_results cfg) results in
  Forall2 (message_related
    (block_compacted json_parse expired (st_files st') recent (recent ++ protected_errors results))) messages out ∧
  (no_expiry expired → st_files st ⊆ st_files st').
Proof.
  intros Hrun results recent. unfold microcompact_history in Hrun. fold results in Hrun. fold recent in Hrun.
  set (to_prune := choose_prune _ recent 0 (reverse results)) in Hrun.
  destruct (prune_all _ _ _ _ _ _ _ to_prune _) as [[ms stats1] st1] eqn:Hall.
  destruct (argument_stats _ _ ms) as [changed saved]. injection Hrun as <- _ <-.
  apply (prune_all_spec json_parse directory dir_ok write_ok uuid expired _ _ messages recent) in Hall
    as [Hsub Hrel].
  - split; [|done]. by apply truncate_arguments_related.
  - apply Forall_forall. intros r (Hr&?&?)%choose_prune_elem. split; [|done].
    apply result_refs_ref_of. by rewrite elem_of_reverse in Hr.
  - apply Forall2_same_length_lookup_2; [done|]. intros i m m' Hm Hm'. simplify_eq. split; [done|].
    apply Forall2_same_length_lookup_2; [done|]. intros j b b' Hb Hb'. simplify_eq. by left.
Qed.

(** ** Theorems *)

(** shedding old tool context keeps the conversation: the same messages with the
    same roles, the same calls and results in the same places, so what was acceptable
    to the providers stays so and turns are where they were.  An error result, the
    configured number of newest successful results and every block that is not an old
    tool result or an old write or edit are untouched; a pruned result is replaced by
    a shorter line, naming a file that has its whole text (or the file its own preview
    names) as long as no file of the directory expires meanwhile. *)
Theorem microcompact_keeps_conversation
    (json_parse : string → option Json) (directory : string) (dir_ok write_ok : nat → bool)
    (uuid : nat → string) (expired : nat → string → bool) (cfg : ToolOutputConfig)
    (messages : list Message) (st : Storage) (out : list Message) (stats : MicrocompactStats) (st' : Storage)
    (Hrun : microcompact_history json_parse directory dir_ok write_ok uuid expired cfg messages st = (out, stats, st')) :
  let results := result_refs 0 messages in
  let recent := protected_recent (toc_intra_turn_keep_recent_results cfg) results in
  Forall2 (message_related
    (block_compacted json_parse expired (st_files st') recent (recent ++ protected_errors results))) messages out ∧
  paired out = paired messages ∧
  map is_user_turn_message out = map is_user_turn_message messages ∧
  turn_starts out = turn_starts messages ∧
  (no_expiry expired → st_files st ⊆ st_files st').
Proof.
  intros results recent. destruct (microcompact_related _ _ _ _ _ _ _ _ _ _ _ _ Hrun) as [Hrel Hsub].
  destruct (compacted_turns _ _ _ _ _ _ _ Hrel) as [? ?].
  split_and!; [done|by eapply compacted_paired|done|done|done].
Qed.

(** A turn with three reads and a failed command, pruned to one newest result. *)
Definition sample_turn : list Message :=
  [message_user "look at the sources";
   mkMessage RoleAssistant [CbToolCall "r1" "read_file" (JObject [("path", JString "/src/a.rs")]);
                            CbToolCall "x1" "exec" (JObject [("command", JString "make")])];
   mkMessage RoleUser [CbToolResult "r1" "fn alpha() { beta(); gamma(); delta(); epsilon(); zeta(); eta(); theta(); }" false;
                       CbToolResult "x1" "make: *** No rule to make target. This error is long enough to be pruned if it were not one." true];
   mkMessage RoleAssistant [CbToolCall "r2" "read_file" (JObject [("path", JString "/src/b.rs")])];
   mkMessage RoleUser [CbToolResult "r2" "fn beta() {}" false]].

Definition sample_config : ToolOutputConfig := mkToolOutputConfig None 256 3 7 5 1 20 (mkReformatConfig false [] 1 None 1).

Lemma microcompact_keeps_conversation_witness :
  ∃ out stats st',
    microcompact_history (λ _, None) "/d" (λ _, true) (λ _, true) (λ _, "0") (λ _ _, false)
      sample_config sample_turn (mkStorage ∅ 0) = (out, stats, st') ∧
    ms_results_pruned stats = 1 ∧ paired out = true ∧
    get_block out 2 0 = Some (CbToolResult "r1" (pruned_marker "/d/read_file-0.txt") false) ∧
    is_Some (st_files st' !! "/d/read_file-0.txt").
Proof.
  destruct (microcompact_history (λ _, None) "/d" (λ _, true) (λ _, true) (λ _, "0") (λ _ _, false)
      sample_config sample_turn (mkStorage ∅ 0)) as [[out stats] st'] eqn:E.
  exists out, stats, st'. split; [done|].
  destruct (microcompact_keeps_conversation (λ _, None) "/d" (λ _, true) (λ _, true) (λ _, "0") (λ _ _, false)
    sample_config sample_turn (mkStorage ∅ 0) out stats st' E) as (_&Hp&_).
  rewrite Hp. vm_compute in E. injection E as <- <- <-.
  split_and!; [reflexivity|vm_compute; reflexivity|vm_compute; reflexivity|by eexists].
Defined.

(** bounding a tool result loses nothing: either the result is passed on as it is,
    or the whole of it is in the file the bounded text names and the bounded text is
    within the configured bytes.  A result is only replaced when it is over the byte
    or the line limit, and a failure to store it passes it on unchanged. *)
Theorem bounded_output_is_recoverable
    (json_text : Json → string) (json_parse : string → option Json)
    (directory : string) (dir_ok write_ok : nat → bool) (uuid : nat → string) (expired : nat → string → bool)
    (cfg : ToolOutputConfig) (tool content : string) (st : Storage) :
  let r := bound_text json_text json_parse directory dir_ok write_ok uuid expired cfg tool content st in
  match bt_output_path r.1 with
  | None => bt_content r.1 = content ∧
      ∀ p, is_Some (st_files r.2 !! p) → is_Some (st_files st !! p)
  | Some path =>
      st_files r.2 !! path = Some content ∧ String.length (bt_content r.1) ≤ toc_max_bytes cfg ∧
      (toc_max_bytes cfg < String.length content ∨ toc_max_lines cfg < line_count content) ∧
      (String.length ("... " +:+ TRUNCATED_MARKER +:+ " " +:+ path +:+ " ...") ≤ toc_max_bytes cfg →
       names_path json_text (bt_content r.1) path)
  end.
Proof. intros r. eapply bound_text_spec. apply surjective_pairing. Qed.

(** a preview fits: its bytes are at most the byte limit and its lines at most the
    line limit, for any text and any one-line marker, however the two limits relate. *)
Theorem preview_fits (text marker : string) (max_lines max_bytes : nat)
    (Hmarker : newlines marker = 0) (Hlines : 1 ≤ max_lines) :
  String.length (preview text marker max_lines max_bytes) ≤ max_bytes ∧
  line_count (preview text marker max_lines max_bytes) ≤ max_lines.
Proof.
  pose proof (preview_cases text marker max_lines max_bytes) as H. cbv zeta in H.
  set (m := take_prefix_bytes marker max_bytes) in *. set (p := preview _ _ _ _) in *.
  assert (Hm : newlines m = 0) by (pose proof (newlines_take (floor_boundary marker
    (max_bytes `min` String.length marker)) marker) as Hn; unfold m, take_prefix_bytes; lia).
  assert (Hcount : line_count p ≤ newlines p + 1) by (unfold line_count; case_bool_decide; lia).
  pose proof (div_ceil_2 (max_lines - 1)) as [Hd1 Hd2].
  destruct H as [Hp|(H2&head&tail&Hp&Hlen&Hh&Ht&Ht1)].
  - split; [|rewrite Hp in *; lia]. rewrite Hp. apply length_take_prefix_bytes.
  - split; [done|]. etrans; [exact Hcount|]. change (newlines newline) with 1 in *.
    destruct Hp as [Hp|[Hp Hne]]; rewrite Hp, !newlines_app, Hm; change (newlines newline) with 1;
      [|specialize (Ht1 Hne)]; lia.
Qed.

Lemma preview_fits_witness :
  let text := "one" +:+ newline +:+ "two" +:+ newline +:+ "three" +:+ newline +:+ "four" in
  preview text "[cut]" 3 20 = "one" +:+ newline +:+ "[cut]" +:+ newline +:+ "four" ∧
  line_count (preview text "[cut]" 3 20) ≤ 3.
Proof.
  intros text. split; [vm_compute; reflexivity|]. apply (preview_fits text "[cut]" 3 20); [reflexivity|lia].
Defined.

(** shrinking a JSON result ends: the loop returns within as many rounds as its
    strings have bytes, because every round makes a string shorter; and what it
    returns fits the limit and still names the file. *)
Theorem structured_preview_terminates (json_text : Json → string) (value : Json)
    (path marker : string) (max_lines max_bytes : nat) :
  is_Some (shrink_loop json_text (S (json_string_bytes value)) path marker max_lines max_bytes value) ∧
  match structured_preview json_text value path marker max_lines max_bytes with
  | Some s => String.length s ≤ max_bytes ∧ ∃ v, s = json_text v ∧ json_contains_path v path = true
  | None => max_bytes < String.length (json_text (fallback_preview path))
  end.
Proof.
  split; [apply shrink_loop_total; lia|].
  destruct (structured_preview _ _ _ _ _ _) as [s|] eqn:E; [by apply structured_preview_spec in E|].
  unfold structured_preview in E. repeat case_match; try done; by apply Nat.leb_gt.
Qed.

(** the path read back from a plain-text preview is the one the preview was made
    with only when the tail that follows the marker has no ellipsis after a space: the
    reader looks for the last such ellipsis of the whole text, so a later one is taken
    into the path. *)
Theorem marker_path_read_back (head path tail later : string)
    (Hhead : contains TRUNCATED_MARKER head = false) (Htail : contains " ..." later = false) :
  let shown rest := head +:+ "... " +:+ TRUNCATED_MARKER +:+ " /" +:+ path +:+ " ..." +:+ rest in
  marker_output_path (shown later) = Some ("/" +:+ path) ∧
  marker_output_path (shown (tail +:+ " ..." +:+ later)) = Some ("/" +:+ path +:+ " ..." +:+ tail).
Proof.
  simpl. split; [by apply marker_output_path_last|].
  rewrite <- (marker_output_path_last head (path +:+ " ..." +:+ tail) later Hhead Htail).
  f_equal. rewrite !append_assoc. done.
Qed.

Lemma marker_path_read_back_witness :
  marker_output_path ("running" +:+ newline +:+ "... " +:+ TRUNCATED_MARKER +:+ " /d/exec-0.txt ..." +:+ newline
                      +:+ "collecting ..." +:+ " done")
  = Some ("/d/exec-0.txt ..." +:+ newline +:+ "collecting").
Proof.
  destruct (marker_path_read_back ("running" +:+ newline) "d/exec-0.txt" (newline +:+ "collecting") " done"
    ltac:(reflexivity) ltac:(reflexivity)) as [_ H]. exact H.
Defined.

(** The smallest limit the configuration accepts can make an argument longer. *)
Example truncation_can_grow :
  let text := "fn main() { start() }" in
  validate_tool_output sample_config = Ok tt ∧
  match truncate_string text (toc_old_argument_max_chars sample_config) with
  | Some (text', saved) => char_count text < char_count text' ∧ saved = 0
  | None => False
  end.
Proof. vm_compute. split; [reflexivity|]. split; [lia|reflexivity]. Qed.
