(* ===== verification/Providers.v ===== *)
(** * Provider responses, usage and the observed-evidence ledger

    Models the provider-neutral types of [src/src/providers/mod.rs] ([Usage], [StopReason],
    [LlmResponse], the response-shape check), the accounting of [src/src/agent.rs]
    ([accumulate_usage], failover, backoff), the compaction policy's arithmetic of
    [src/src/compaction.rs], the command classifier of [src/src/ops/exec_filter.rs] and
    the ledger of [src/src/evidence.rs].

    [f64] is the Standard Library's executable model of IEEE binary64 (53 bits of
    precision, exponent bound 1024); all NaNs are one. *)

From Stdlib Require Import SpecFloat.
From stdpp Require Import base numbers list strings gmap sorting.
From S2P Require Import Prelude RustStr Safety ToolLifecycle Messages History.

(** ** Floating point *)

Definition f64 : Type := spec_float.
Definition f64_zero : f64 := S754_zero false.
Definition f64_add (a b : f64) : f64 := SFadd 53 1024 a b.
Definition f64_mul (a b : f64) : f64 := SFmul 53 1024 a b.

(** [n as f64] for a [u64]. *)
Definition f64_of_u64 (n : Z) : f64 := binary_normalize 53 1024 n 0 false.

(** [a >= b]: false on a NaN. *)
Definition f64_ge (a b : f64) : bool :=
  match SFcompare a b with Some Gt | Some Eq => true | _ => false end.

(** [x as u64]: truncation towards zero that saturates. *)
Definition f64_to_u64 (x : f64) : Z :=
  match x with
  | S754_finite false m e => Z.min U64_MAX (if (0 <=? e)%Z then Zpos m * 2 ^ e else Zpos m / 2 ^ (- e))
  | S754_infinity false => U64_MAX
  | _ => 0
  end.

(** ** Usage *)

Record Cost := mkCost {
  input_usd : f64; output_usd : f64; cache_read_usd : f64; cache_write_usd : f64; total_usd : f64;
}.

Record Usage := mkUsage {
  us_input : Z;
  us_output : Z;
  us_reasoning_output : option Z;
  us_thinking_bytes : Z;
  us_cache_read : Z;
  us_cache_write : Z;
  us_cost : Cost;
}.

Definition cost_default : Cost := mkCost f64_zero f64_zero f64_zero f64_zero f64_zero.
Definition usage_default : Usage := mkUsage 0 0 None 0 0 0 cost_default.

Definition prompt_tokens (u : Usage) : Z := us_input u + us_cache_read u + us_cache_write u.

Definition add_cost (a b : Cost) : Cost :=
  mkCost (f64_add (input_usd a) (input_usd b)) (f64_add (output_usd a) (output_usd b))
    (f64_add (cache_read_usd a) (cache_read_usd b)) (f64_add (cache_write_usd a) (cache_write_usd b))
    (f64_add (total_usd a) (total_usd b)).

Definition accumulate_usage (acc turn : Usage) : Usage :=
  mkUsage (us_input acc + us_input turn) (us_output acc + us_output turn)
    (match us_reasoning_output acc, us_reasoning_output turn with
     | None, None => None
     | x, y => Some (default 0 x + default 0 y)
     end)%Z
    (u64_saturating_add (us_thinking_bytes acc) (us_thinking_bytes turn))
    (us_cache_read acc + us_cache_read turn) (us_cache_write acc + us_cache_write turn)
    (add_cost (us_cost acc) (us_cost turn)).

(** ** Responses *)

Inductive StopReason := EndTurn | ToolUse | Error_ | Refusal | Aborted | MaxTokens.

#[export] Instance StopReason_eq_dec : EqDecision StopReason.
Proof. solve_decision. Defined.

Inductive ThinkingLevel := Off | Minimal | Low | Medium | High | XHigh | Max.

#[export] Instance ThinkingLevel_eq_dec : EqDecision ThinkingLevel.
Proof. solve_decision. Defined.

Definition thinking_as_str (t : ThinkingLevel) : string :=
  match t with
  | Off => "off" | Minimal => "minimal" | Low => "low" | Medium => "medium"
  | High => "high" | XHigh => "xhigh" | Max => "max"
  end.

Definition THINKING_ALL : list ThinkingLevel := [Off; Minimal; Low; Medium; High; XHigh; Max].

(** [ThinkingLevel::from_input]. *)
Definition thinking_from_input (raw : string) : result ThinkingLevel string :=
  let trimmed := trim raw in
  let normalized := to_ascii_lowercase trimmed in
  ok_or (lfind (λ level, bool_decide (thinking_as_str level = normalized)) THINKING_ALL)
    ("'" +:+ trimmed +:+ "' invalid (valid: " +:+ join ", " (map thinking_as_str THINKING_ALL) +:+ ")").

Record LlmResponse := mkResponse {
  lr_content : list ContentBlock;
  lr_stop_reason : StopReason;
  lr_error_message : option string;
  lr_context_overflow : bool;
  lr_retryable : bool;
  lr_usage : Usage;
}.

Definition response_error (msg : string) : LlmResponse :=
  mkResponse [] Error_ (Some msg) false false usage_default.
Definition context_overflow_error (msg : string) : LlmResponse :=
  mkResponse [] Error_ (Some msg) true false usage_default.
Definition retryable_error (msg : string) : LlmResponse :=
  mkResponse [] Error_ (Some msg) false true usage_default.

Definition MISSING_STRUCTURED_TOOL_CALL : string :=
  "provider declared tool use but returned no structured tool call".

Definition tool_use_missing_structured_call (r : LlmResponse) : bool :=
  bool_decide (lr_stop_reason r = ToolUse)
  && negb (existsb (λ b, is_some (block_call_id b)) (lr_content r)).

Definition validate_response_shape (r : LlmResponse) : LlmResponse :=
  if tool_use_missing_structured_call r
  then mkResponse [] Error_ (Some (default MISSING_STRUCTURED_TOOL_CALL (lr_error_message r)))
         false false (lr_usage r)
  else r.

(** [is_retryable_status]. *)
Definition is_retryable_status (status : Z) : bool :=
  (status =? 408)%Z || (status =? 429)%Z || ((500 <=? status)%Z && (status <? 600)%Z).

(** ** Requests *)

Record CompleteOpts := mkOpts {
  co_model : string;
  co_max_tokens : Z;
  co_thinking : ThinkingLevel;
  co_temperature : option f64;
}.

Definition DEFAULT_MAX_TOKENS : Z := 8192.

(** [resolve_max_output_inner], with the value of the environment variable. *)
Definition resolve_max_output (requested : Z) (model_default hard_cap env_override : option Z) : Z :=
  let base :=
    if (requested =? DEFAULT_MAX_TOKENS)%Z
    then default (default requested model_default) env_override else requested in
  match hard_cap with Some cap => Z.min base cap | None => base end.

(** ** Failover and backoff *)

Fixpoint position {A} (p : A → bool) (l : list A) : option nat :=
  match l with
  | [] => None
  | x :: l => if p x then Some 0 else S <$> position p l
  end.

Definition next_failover_model (chain : list string) (active : string) : option string :=
  position (λ m, bool_decide (m = active)) chain ≫= λ i, chain !! (i + 1).

(** [Duration] in nanoseconds; [saturating_mul] stops at the largest one. *)
Definition DURATION_MAX : Z := U64_MAX * 1000000000 + 999999999.
Definition duration_saturating_mul (d n : Z) : Z := Z.min (d * n) DURATION_MAX.

Definition retry_backoff (base : Z) (attempt : nat) : Z :=
  duration_saturating_mul base (2 ^ Z.of_nat ((attempt - 1) `min` 6)).

(** ** The compaction policy *)

Record CompactionPolicy := mkPolicy {
  cp_high_water : f64;
  cp_low_water : f64;
  cp_context_window : Z;
  cp_output_reservation : Z;
  cp_summary_model : option string;
  cp_summary_prompt : option string;
}.

Definition budget (p : CompactionPolicy) : Z := Z.max 0 (cp_context_window p - cp_output_reservation p).

Definition should_compact (p : CompactionPolicy) (prompt : Z) : bool :=
  f64_ge (f64_of_u64 prompt) (f64_mul (cp_high_water p) (f64_of_u64 (budget p))).

Definition target_tokens (p : CompactionPolicy) : Z :=
  f64_to_u64 (f64_mul (cp_low_water p) (f64_of_u64 (budget p))).

(** ** Commands that verify *)

Inductive ExecFilter := FilterTestRunner | FilterInstall | FilterBuild | FilterLinter | FilterNone.

#[export] Instance ExecFilter_eq_dec : EqDecision ExecFilter.
Proof. solve_decision. Defined.

(** The text after the last slash, [rsplit('/').next()]. *)
Fixpoint after_last_slash (s : string) : string :=
  match s with
  | EmptyString => ""
  | String c t =>
      if bool_decide (c = Ascii.ascii_of_nat 47) then after_last_slash t
      else if contains "/" t then after_last_slash t else s
  end.

Definition one_of (s : string) (l : list string) : bool := existsb (λ x, bool_decide (s = x)) l.

Definition classify (cmd : string) : ExecFilter :=
  match split_whitespace cmd with
  | [] => FilterNone
  | first :: rest =>
      let base := after_last_slash first in
      let second := default "" (head rest) in
      if one_of base ["pytest"; "py.test"] then FilterTestRunner
      else if one_of base ["python"; "python3"] && contains "-m pytest" cmd then FilterTestRunner
      else if one_of base ["cargo"] && one_of second ["test"] then FilterTestRunner
      else if one_of base ["go"] && one_of second ["test"] then FilterTestRunner
      else if one_of base ["npm"; "yarn"; "pnpm"] && one_of second ["test"] then FilterTestRunner
      else if one_of base ["npx"] && one_of second ["jest"; "vitest"; "mocha"] then FilterTestRunner
      else if one_of base ["jest"; "vitest"; "mocha"] then FilterTestRunner
      else if one_of base ["rspec"] then FilterTestRunner
      else if one_of base ["rake"] && one_of second ["test"] then FilterTestRunner
      else if one_of base ["pip"; "pip3"; "uv"] && one_of second ["install"] then FilterInstall
      else if one_of base ["npm"; "yarn"; "pnpm"] && one_of second ["install"; "add"; "i"] then FilterInstall
      else if one_of base ["cargo"] && one_of second ["add"] then FilterInstall
      else if one_of base ["apt"; "apt-get"] && one_of second ["install"] then FilterInstall
      else if one_of base ["brew"] && one_of second ["install"] then FilterInstall
      else if one_of base ["make"; "cmake"; "ninja"] then FilterBuild
      else if one_of base ["cargo"] && one_of second ["build"] then FilterBuild
      else if one_of base ["go"] && one_of second ["build"] then FilterBuild
      else if one_of base ["ruff"] && one_of second ["check"] then FilterLinter
      else if one_of base ["eslint"; "pylint"; "mypy"; "flake8"] then FilterLinter
      else if one_of base ["cargo"] && one_of second ["clippy"] then FilterLinter
      else if one_of base ["shellcheck"] then FilterLinter
      else FilterNone
  end.

(** ** The evidence ledger *)

Inductive EvidenceStatus := EvUnknown | EvNoMutations | EvVerified | EvUnverified.

#[export] Instance EvidenceStatus_eq_dec : EqDecision EvidenceStatus.
Proof. solve_decision. Defined.

Record EvidenceLedger := mkLedger {
  ev_calls : nat;
  ev_last_mutation : option nat;
  ev_last_passing_verifier : option nat;
  ev_fingerprint_unavailable : bool;
}.

Definition ledger_default : EvidenceLedger := mkLedger 0 None None false.

Definition record_call (tree_changed : bool) (verifier_exit : option Z) (l : EvidenceLedger) : EvidenceLedger :=
  let calls := S (ev_calls l) in
  mkLedger calls
    (if tree_changed then Some calls else ev_last_mutation l)
    (if bool_decide (verifier_exit = Some 0%Z) then Some calls else ev_last_passing_verifier l)
    (ev_fingerprint_unavailable l).

Definition mark_fingerprint_unavailable (l : EvidenceLedger) : EvidenceLedger :=
  mkLedger (ev_calls l) (ev_last_mutation l) (ev_last_passing_verifier l) true.

Definition status (l : EvidenceLedger) : EvidenceStatus :=
  match ev_last_mutation l, ev_last_passing_verifier l with
  | Some mutation, Some verifier => if mutation <? verifier then EvVerified else EvUnverified
  | Some _, None => EvUnverified
  | None, _ => if ev_fingerprint_unavailable l then EvUnknown else EvNoMutations
  end.

(** [Value::as_i64]: an integer of the range; [-0] is read as a float. *)
Definition json_as_i64 (v : Json) : option Z :=
  match v with
  | JNumber text =>
      match strip_prefix "-" text with
      | Some digits =>
          parse_u64 digits ≫= λ n, if bool_decide (0 < n ≤ - I64_MIN)%Z then Some (- n)%Z else None
      | None => parse_u64 text ≫= λ n, if bool_decide (n ≤ I64_MAX)%Z then Some n else None
      end
  | _ => None
  end.

Definition shell_separator (c : Ascii.ascii) : bool :=
  existsb (λ n, byte_of c =? n) [59; 10; 13; 124; 38; 96].

Definition verifier_exit (json_parse : string → option Json) (tool_name : string) (input : Json)
    (content : string) : option Z :=
  if negb (bool_decide (tool_name = "exec")) then None
  else
    match json_get input "command" ≫= json_as_str with
    | None => None
    | Some command =>
        if existsb shell_separator (String.list_ascii_of_string command) || contains "$(" command then None
        else
          match classify command with
          | FilterTestRunner | FilterBuild | FilterLinter =>
              json_parse content ≫= λ v, json_get v "exit" ≫= json_as_i64
          | FilterInstall | FilterNone => None
          end
    end.

(** ** Lemmas *)

Lemma retry_backoff_bound base attempt :
  (0 ≤ base ≤ DURATION_MAX)%Z →
  (retry_backoff base attempt ≤ DURATION_MAX)%Z ∧ (base ≤ retry_backoff base attempt ≤ 64 * base)%Z.
Proof.
  intros Hb. unfold retry_backoff, duration_saturating_mul.
  assert (1 ≤ 2 ^ Z.of_nat ((attempt - 1) `min` 6) ≤ 64)%Z.
  { split; [|change 64%Z with (2 ^ 6)%Z; apply Z.pow_le_mono_r; lia].
    change 1%Z with (2 ^ 0)%Z. apply Z.pow_le_mono_r; lia. }
  set (k := (2 ^ _)%Z) in *. nia.
Qed.

Lemma position_spec {A} (p : A → bool) l i :
  position p l = Some i → ∃ x, l !! i = Some x ∧ p x = true ∧ ∀ j y, j < i → l !! j = Some y → p y = false.
Proof.
  revert i. induction l as [|x l IH]; intros i; simpl; [done|]. destruct (p x) eqn:E.
  - intros [= <-]. exists x. split_and!; [done..|]. intros; lia.
  - destruct (position p l) as [j|]; simpl; [|done]. intros [= <-].
    destruct (IH j eq_refl) as (y&?&?&Hno). exists y. split_and!; [done..|].
    intros [|k] z Hk; simpl; [by intros [= <-]|]. apply Hno. lia.
Qed.

(** Where a model stands in the chain; failing over moves one place on when no model
    is listed twice. *)
Definition chain_place (chain : list string) (model : string) : nat :=
  default (length chain) (position (λ m, bool_decide (m = model)) chain).

Lemma position_at (l : list string) i x :
  NoDup l → l !! i = Some x → position (λ m, bool_decide (m = x)) l = Some i.
Proof.
  revert i. induction l as [|y l IH]; intros i Hnd; [done|]. apply NoDup_cons in Hnd as [Hy Hnd].
  destruct i as [|i]; simpl.
  - intros [= ->]. by rewrite bool_decide_true.
  - intros Hx. rewrite bool_decide_false; [by rewrite (IH i)|]. intros ->. apply Hy. by eapply list_elem_of_lookup_2.
Qed.

Lemma next_failover_place chain active next :
  NoDup chain → next_failover_model chain active = Some next →
  chain_place chain next = S (chain_place chain active) ∧ chain_place chain next < length chain.
Proof.
  intros Hnd. unfold next_failover_model, chain_place.
  destruct (position _ chain) as [i|] eqn:E; simpl; [|done]. intros Hn.
  rewrite (position_at chain (i + 1) next Hnd Hn). simpl. apply lookup_lt_Some in Hn. lia.
Qed.

Lemma validated_tool_use r :
  lr_stop_reason (validate_response_shape r) = ToolUse →
  validate_response_shape r = r ∧ omap block_call_id (lr_content r) ≠ [].
Proof.
  unfold validate_response_shape. destruct (tool_use_missing_structured_call r) eqn:E; [done|].
  intros Hr. split; [done|]. unfold tool_use_missing_structured_call in E.
  rewrite Hr in E. simpl in E. apply negb_false_iff, existsb_elem in E as (b&Hb&Hs).
  destruct (block_call_id b) as [id|] eqn:Hid; [|done]. intros Hn.
  assert (id ∈ omap block_call_id (lr_content r)) as Hin by (apply list_elem_of_omap; eauto).
  rewrite Hn in Hin. set_solver.
Qed.

(** ** Theorems *)

(** One observed call: whether the tree changed, and the verifier's exit status. *)
Definition Observation : Type := bool * option Z.

Definition observe (l : EvidenceLedger) (calls : list Observation) : EvidenceLedger :=
  foldl (λ l o, record_call o.1 o.2 l) l calls.

Definition passes (o : Observation) : bool := bool_decide (o.2 = Some 0%Z).

(** The ordinal of the last call of the list that satisfies [p], counted from 1. *)
Fixpoint last_ordinal (p : Observation → bool) (n : nat) (calls : list Observation) (found : option nat) : option nat :=
  match calls with
  | [] => found
  | o :: calls => last_ordinal p (S n) calls (if p o then Some (S n) else found)
  end.

Lemma observe_spec l calls :
  observe l calls =
  mkLedger (ev_calls l + length calls) (last_ordinal fst (ev_calls l) calls (ev_last_mutation l))
    (last_ordinal passes (ev_calls l) calls (ev_last_passing_verifier l)) (ev_fingerprint_unavailable l).
Proof.
  revert l. induction calls as [|o calls IH]; intros l; simpl.
  - rewrite Nat.add_0_r. by destruct l.
  - rewrite IH. simpl. f_equal. lia.
Qed.

Lemma last_ordinal_app p n l k found :
  last_ordinal p n (l ++ k) found = last_ordinal p (n + length l) k (last_ordinal p n l found).
Proof.
  revert n found. induction l as [|o l IH]; intros n found; simpl; [by rewrite Nat.add_0_r|].
  rewrite IH. f_equal. lia.
Qed.

Lemma last_ordinal_none p n l found : existsb p l = false → last_ordinal p n l found = found.
Proof.
  revert n found. induction l as [|o l IH]; intros n found; simpl; [done|].
  intros [Ho Hl]%orb_false_iff. by rewrite Ho, IH.
Qed.

Lemma last_ordinal_bound p n l found i :
  last_ordinal p n l found = Some i → found = Some i ∨ n < i ≤ n + length l.
Proof.
  revert n found. induction l as [|o l IH]; intros n found; simpl; [by left|].
  intros [H|H]%IH; [|right; lia]. destruct (p o); [injection H as <-; right; lia|by left].
Qed.

Lemma last_ordinal_some p n l found : existsb p l = true → ∃ i, last_ordinal p n l found = Some i ∧ n < i.
Proof.
  revert n found. induction l as [|o l IH]; intros n found; simpl; [done|].
  destruct (existsb p l) eqn:E.
  - intros _. destruct (IH (S n) (if p o then Some (S n) else found) eq_refl) as (i&->&?). exists i. split; [done|lia].
  - rewrite orb_false_r. intros ->. rewrite last_ordinal_none by done. eauto.
Qed.

Lemma status_after_mutation calls change after :
  change.1 = true → existsb fst after = false →
  status (observe ledger_default (calls ++ change :: after)) =
  if existsb passes after then EvVerified else EvUnverified.
Proof.
  intros Hc Ha. rewrite observe_spec. unfold status. simpl. rewrite !last_ordinal_app. simpl.
  rewrite Hc, last_ordinal_none by done. destruct (existsb passes after) eqn:Hv.
  - match goal with |- context [last_ordinal passes ?n after ?f] =>
      destruct (last_ordinal_some passes n after f Hv) as (i&->&?) end.
    by rewrite (proj2 (Nat.ltb_lt _ _)) by lia.
  - rewrite (last_ordinal_none passes) by done. destruct (passes change).
    + by rewrite Nat.ltb_irrefl.
    + destruct (last_ordinal passes 0 calls None) as [i|] eqn:E; [|done].
      apply last_ordinal_bound in E as [|?]; [done|]. by rewrite (proj2 (Nat.ltb_ge _ _)) by lia.
Qed.

(** Calls interleaved with failures to fingerprint the tree. *)
Inductive LedgerOp :=
  | LoCall (o : Observation)
  | LoUnavailable.

Definition ledger_op (l : EvidenceLedger) (op : LedgerOp) : EvidenceLedger :=
  match op with LoCall o => record_call o.1 o.2 l | LoUnavailable => mark_fingerprint_unavailable l end.

Definition op_call (op : LedgerOp) : option Observation := match op with LoCall o => Some o | LoUnavailable => None end.
Definition is_unavailable (op : LedgerOp) : bool := match op with LoUnavailable => true | LoCall _ => false end.

Lemma observe_mark l calls :
  observe (mark_fingerprint_unavailable l) calls = mark_fingerprint_unavailable (observe l calls).
Proof. revert l. induction calls as [|o calls IH]; intros l; [done|]. exact (IH (record_call o.1 o.2 l)). Qed.

Lemma ledger_ops_spec l ops :
  foldl ledger_op l ops =
  let l' := observe l (omap op_call ops) in if existsb is_unavailable ops then mark_fingerprint_unavailable l' else l'.
Proof.
  revert l. induction ops as [|[o|] ops IH]; intros l; [done|exact (IH _)|].
  simpl. rewrite IH. simpl. rewrite observe_mark. by destruct (existsb is_unavailable ops).
Qed.

Lemma last_change calls : existsb fst calls = true →
  ∃ before change after, calls = before ++ change :: after ∧ change.1 = true ∧ existsb (A := Observation) fst after = false.
Proof.
  induction calls as [|o calls IH]; [done|]. simpl. destruct (existsb fst calls) eqn:Ec.
  - intros _. destruct (IH eq_refl) as (b&c&a&->&?&?). by exists (o :: b), c, a.
  - rewrite orb_false_r. intros E. by exists [], o, calls.
Qed.

Lemma status_mark_changed l : is_Some (ev_last_mutation l) → status (mark_fingerprint_unavailable l) = status l.
Proof. intros [m Hm]. unfold status. simpl. by rewrite Hm. Qed.

Lemma status_of_ops (ops : list LedgerOp) :
  let calls := omap op_call ops in
  status (foldl ledger_op ledger_default ops) =
  if existsb fst calls then status (observe ledger_default calls)
  else if existsb is_unavailable ops then EvUnknown else EvNoMutations.
Proof.
  intros calls. rewrite ledger_ops_spec. fold calls. destruct (existsb fst calls) eqn:E; cbv zeta.
  - destruct (existsb is_unavailable ops); [|done]. apply status_mark_changed. rewrite observe_spec. simpl.
    destruct (last_ordinal_some fst 0 calls None E) as (i&->&_). eauto.
  - destruct (existsb is_unavailable ops); unfold status; rewrite observe_spec; simpl;
      by rewrite (last_ordinal_none fst) by done.
Qed.

(** the evidence ledger says what was observed: after any sequence of tool calls
    and failures to fingerprint the tree, a turn is reported as verified exactly when
    the tree was seen to change and a verifier exited zero in a later call than the
    newest change, as unverified exactly when it changed and no verifier passed since,
    and when no change was seen as free of mutations or, if the tree could not always
    be fingerprinted, as unknown. *)
Theorem evidence_status_spec (ops : list LedgerOp) :
  let calls := omap op_call ops in
  let outcome := status (foldl ledger_op ledger_default ops) in
  let changed_then (verified : bool) :=
    ∃ before change after, calls = before ++ change :: after ∧ change.1 = true ∧
      existsb fst after = false ∧ existsb passes after = verified in
  (outcome = EvVerified ↔ changed_then true) ∧
  (outcome = EvUnverified ↔ changed_then false) ∧
  (outcome = EvUnknown ↔ existsb fst calls = false ∧ LoUnavailable ∈ ops) ∧
  (outcome = EvNoMutations ↔ existsb fst calls = false ∧ LoUnavailable ∉ ops).
Proof.
  intros calls outcome changed_then.
  assert (Hst : ∀ v, changed_then v → existsb fst calls = true ∧ outcome = if v then EvVerified else EvUnverified).
  { intros v (b&c&a&Heq&Hc&Ha&Hv). assert (existsb fst calls = true) as E.
    { rewrite Heq, existsb_app. simpl. by rewrite Hc, orb_true_r. }
    split; [done|]. unfold outcome. rewrite status_of_ops. fold calls. rewrite E, Heq.
    rewrite status_after_mutation by done. by rewrite Hv. }
  assert (Hun : existsb is_unavailable ops = true ↔ LoUnavailable ∈ ops).
  { rewrite existsb_exists. split; [intros ([o|]&?&?); [done|by apply list_elem_of_In]|].
    intros ?. exists LoUnavailable. split; [by apply list_elem_of_In|done]. }
  assert (Hno : ∀ v, existsb fst calls = false → ¬ changed_then v) by (intros v E [E' _]%Hst; congruence).
  destruct (existsb fst calls) eqn:E.
  - destruct (last_change calls E) as (b&c&a&Heq&Hc&Ha).
    destruct (Hst (existsb passes a)) as [_ Ho]; [by exists b, c, a|].
    assert (Hv : ∀ v, existsb passes a = v → changed_then v) by (intros v ?; by exists b, c, a).
    destruct (existsb passes a); rewrite Ho; split_and!; (split; [by auto|]); try done;
      try (by intros [_ H]%Hst; rewrite Ho in H); by intros [].
  - assert (Ho : outcome = if existsb is_unavailable ops then EvUnknown else EvNoMutations).
    { unfold outcome. rewrite status_of_ops. fold calls. by rewrite E. }
    destruct (existsb is_unavailable ops); rewrite Ho; rewrite <- Hun; split_and!; split;
      try done; try (by intros []); intros H; exfalso; by eapply Hno.
Qed.
