(* ===== verification/AgentLoop.v ===== *)
(** * The agent loop

    Models [run_inner] of [src/src/agent.rs]: one user turn as a loop of provider
    generations and tool rounds, with in-place retries, auto-continuation after an
    output limit, model failover, resumption after a transient error, the hooks around
    a tool call, the journal and the loop detector.

    The loop is a step function on an explicit state.  The outside world (the provider,
    the hooks, the tools, the worktree) is a record of functions of everything that
    happened before, [Env]; what happened is the state's trace of [Effect]s, in order.
    Logging, tracing spans and analytics rows are left out: they never influence the
    loop. *)

From stdpp Require Import base numbers list strings gmap sorting.
From S2P Require Import Prelude RustStr Safety ToolLifecycle LoopDetector Messages History ToolOutput Providers.

(** ** Configuration *)

Record ToolSchema := mkSchema { sc_name : string; sc_description : string; sc_input_schema : Json }.

Record ProviderRetryConfig := mkRetryConfig {
  pr_max_attempts : nat;
  pr_base_delay : Z;
  pr_failover_models : list string;
}.

(** [ProviderRetryConfig::default]. *)
Definition retry_config_default : ProviderRetryConfig := mkRetryConfig 2 500000000 [].

(** [AgentConfig] without its hooks, which are in [Env], and the parts of the
    session's configuration the loop reads. *)
Record AgentConfig := mkAgentConfig {
  ac_system : option string;
  ac_tools : list ToolSchema;
  ac_opts : CompleteOpts;
  ac_auto_continue_budget : option nat;
  ac_error_resume_budget : option nat;
  ac_provider_retry : ProviderRetryConfig;
  ac_compaction : option CompactionPolicy;
  ac_cancelled_turn_message : option string;
  ac_subcall_provider : bool;
  ac_journal : bool;
  ac_tool_output : ToolOutputConfig;
  ac_checkpoints : bool;
}.

Definition DEFAULT_AUTO_CONTINUE_BUDGET : nat := 0.
Definition DEFAULT_ERROR_RESUME_BUDGET : nat := 2.

Definition UPDATE_PLAN_TOOL : string := "update_plan".
Definition EXECUTE_SCRIPT_TOOL : string := "execute_script".
Definition LIST_ALL_TOOLS_TOOL : string := "list_all_tools".

Definition AUTO_CONTINUE_NUDGE : string :=
  "Continue exactly where the previous message was cut off. Do not repeat earlier output; if the remaining work is large, continue in smaller steps.".
Definition ERROR_RESUME_NUDGE : string :=
  "The previous response was interrupted by a transient provider error. Continue exactly where you left off; do not repeat earlier output.".

(** ** Plans *)

Inductive PlanPriority := PpHigh | PpMedium | PpLow.
Inductive PlanStatus := PsPending | PsInProgress | PsCompleted.

Record PlanEntry := mkPlanEntry { pe_content : string; pe_priority : PlanPriority; pe_status : PlanStatus }.

(** The loop of [parse_plan_entries] over the entries read from the input. *)
Fixpoint normalize_entries (index : nat) (entries : list PlanEntry) : result (list PlanEntry) string :=
  match entries with
  | [] => Ok []
  | entry :: entries =>
      let content := trim (pe_content entry) in
      if bool_decide (content = "") then
        Err ("invalid update_plan input: entries[" +:+ nat_to_string index +:+ "].content must not be empty")
      else
        match normalize_entries (S index) entries with
        | Ok entries => Ok (mkPlanEntry content (pe_priority entry) (pe_status entry) :: entries)
        | Err e => Err e
        end
  end.

(** ** What the loop sends and what happens *)

Record LlmContext := mkContext { cx_messages : list Message; cx_system : option string; cx_tools : list ToolSchema }.

Inductive Effect :=
  | EfStream (ctx : LlmContext) (opts : CompleteOpts)
  | EfSleep (duration : Z)
  | EfAcknowledge (newest_message_id : Z)
  | EfNotice (text : string)
  | EfBefore (info : ToolCallInfo) (verdict : BeforeHookResult)
  | EfDispatch (info : ToolCallInfo)
  | EfPlan (entries : list PlanEntry)
  | EfSpend (usage : Usage)
  | EfJournal (messages : list Message)
  | EfJournalUsage (usage last_call_usage : Usage)
  | EfRound (results : list ContentBlock)
  | EfCheckpoint (label : string).

Definition Trace : Type := list Effect.

(** [protocol::Response], as far as its text for the model goes. *)
Record FacadeResponse := mkFacadeResponse { fr_ok : bool; fr_d : option Json; fr_m : option string }.

Record RemoteToolResult := mkRemoteResult { rt_content : string; rt_is_error : bool; rt_transient : bool }.

(** What a script leaves: its value and logs or an error, and what its sub-calls spent. *)
Record ScriptRun := mkScriptRun { sr_result : result (Json * list Json) string; sr_usage : Usage }.

Record Env := mkEnv {
  env_auto_continue : option nat;
  env_error_resume : option nat;
  env_stream : Trace → LlmContext → CompleteOpts → LlmResponse * Z;
  env_notice : Trace → option (string * Z);
  env_before : option (Trace → ToolCallInfo → BeforeHookResult);
  env_after : option (Trace → ToolCallInfo → string → bool → bool);
  env_script : Trace → Json → ScriptRun;
  env_facade : Trace → string → Json → option FacadeResponse;
  env_local : Trace → string → Json → option (string * bool);
  env_remote : option (Trace → string → Json → option RemoteToolResult);
  env_reformat : Trace → string → option string * list ContentBlock;
  env_diff : Trace → option string;
  env_fingerprint : Trace → option string;
}.

Record LoopState := mkLoop {
  ls_messages : list Message;
  ls_usage : Usage;
  ls_auto_continues : nat;
  ls_error_resumes : nat;
  ls_detector : option LoopDetector;
  ls_pending_steer : option string;
  ls_force_thinking_off : bool;
  ls_failover_model : option string;
  ls_evidence : EvidenceLedger;
  ls_fingerprint : option string;
  ls_degraded : bool;
  ls_storage : Storage;
  ls_trace : Trace;
}.

Record AgentResult := mkAgentResult {
  ar_messages : list Message;
  ar_usage : Usage;
  ar_stop_reason : StopReason;
  ar_error_message : option string;
  ar_last_call_usage : Usage;
  ar_context_overflow : bool;
  ar_evidence : EvidenceLedger;
}.

(** ** Field updates *)

Definition set_messages (m : list Message) (s : LoopState) : LoopState :=
  mkLoop m (ls_usage s) (ls_auto_continues s) (ls_error_resumes s) (ls_detector s) (ls_pending_steer s)
    (ls_force_thinking_off s) (ls_failover_model s) (ls_evidence s) (ls_fingerprint s) (ls_degraded s)
    (ls_storage s) (ls_trace s).
Definition emit (e : list Effect) (s : LoopState) : LoopState :=
  mkLoop (ls_messages s) (ls_usage s) (ls_auto_continues s) (ls_error_resumes s) (ls_detector s) (ls_pending_steer s)
    (ls_force_thinking_off s) (ls_failover_model s) (ls_evidence s) (ls_fingerprint s) (ls_degraded s)
    (ls_storage s) (ls_trace s ++ e).
Definition spend (u : Usage) (s : LoopState) : LoopState :=
  mkLoop (ls_messages s) (accumulate_usage (ls_usage s) u) (ls_auto_continues s) (ls_error_resumes s) (ls_detector s)
    (ls_pending_steer s) (ls_force_thinking_off s) (ls_failover_model s) (ls_evidence s) (ls_fingerprint s)
    (ls_degraded s) (ls_storage s) (ls_trace s ++ [EfSpend u]).
Definition set_counters (auto resumes : nat) (force : bool) (failover : option string) (s : LoopState) : LoopState :=
  mkLoop (ls_messages s) (ls_usage s) auto resumes (ls_detector s) (ls_pending_steer s) force failover
    (ls_evidence s) (ls_fingerprint s) (ls_degraded s) (ls_storage s) (ls_trace s).
Definition set_detector (d : option LoopDetector) (steer : option string) (s : LoopState) : LoopState :=
  mkLoop (ls_messages s) (ls_usage s) (ls_auto_continues s) (ls_error_resumes s) d steer
    (ls_force_thinking_off s) (ls_failover_model s) (ls_evidence s) (ls_fingerprint s) (ls_degraded s)
    (ls_storage s) (ls_trace s).
Definition set_evidence (e : EvidenceLedger) (f : option string) (degraded : bool) (s : LoopState) : LoopState :=
  mkLoop (ls_messages s) (ls_usage s) (ls_auto_continues s) (ls_error_resumes s) (ls_detector s) (ls_pending_steer s)
    (ls_force_thinking_off s) (ls_failover_model s) e f degraded (ls_storage s) (ls_trace s).
Definition set_storage (st : Storage) (s : LoopState) : LoopState :=
  mkLoop (ls_messages s) (ls_usage s) (ls_auto_continues s) (ls_error_resumes s) (ls_detector s) (ls_pending_steer s)
    (ls_force_thinking_off s) (ls_failover_model s) (ls_evidence s) (ls_fingerprint s) (ls_degraded s)
    st (ls_trace s).

(** Label a workspace checkpoint with the tools of the response. *)
Definition tool_names_for_checkpoint (content : list ContentBlock) : string :=
  let names := dedup (omap (λ b, match b with CbToolCall _ name _ => Some name | _ => None end) content) in
  if bool_decide (names = []) then "turn" else join ", " names.

Section agent_loop.
Context (json_text : Json → string) (json_parse : string → option Json).
Context (directory : string).
Context (dir_ok write_ok : nat → bool) (uuid : nat → string) (expired : nat → string → bool).
Context (hash_set : list Z → Z) (observation_new : string → Json → bool → string → CallObservation).
Context (plan_from_value : Json → result (list PlanEntry) string).
Context (exposed_to_agent : string → option bool).
Context (cfg : AgentConfig) (env : Env).

Definition auto_continue_budget : nat :=
  default (default DEFAULT_AUTO_CONTINUE_BUDGET (env_auto_continue env)) (ac_auto_continue_budget cfg).

Definition error_resume_budget : nat :=
  default (default DEFAULT_ERROR_RESUME_BUDGET (env_error_resume env)) (ac_error_resume_budget cfg).

Definition failover_chain : list string := pr_failover_models (ac_provider_retry cfg).

Definition parse_plan_entries (input : Json) : result (list PlanEntry) string :=
  match plan_from_value input with
  | Err error => Err ("invalid update_plan input: " +:+ error)
  | Ok entries => normalize_entries 0 entries
  end.

Definition response_to_content (r : FacadeResponse) : string :=
  match fr_d r, fr_m r with
  | Some d, _ => json_text d
  | None, Some m => m
  | None, None => "{}"
  end.

(** The catalogue entries that stay, and the remote tools appended to them. *)
Definition keep_entry (entry : Json) : bool :=
  match json_get entry "name" ≫= json_as_str with
  | None => true
  | Some name => default true (exposed_to_agent name)
  end.

Fixpoint add_remote (names : list string) (tools : list ToolSchema) : list Json :=
  match tools with
  | [] => []
  | tool :: tools =>
      if starts_with REMOTE_TOOL_PREFIX (sc_name tool) && negb (bool_decide (sc_name tool ∈ names))
      then JObject [("description", JString (sc_description tool)); ("name", JString (sc_name tool))]
           :: add_remote (sc_name tool :: names) tools
      else add_remote names tools
  end.

Definition append_remote_tools_to_catalog (content : string) (tools : list ToolSchema) : string :=
  match json_parse content with
  | Some (JArray entries) =>
      let entries := List.filter keep_entry entries in
      let names := omap (λ e, json_get e "name" ≫= json_as_str) entries in
      json_text (JArray (entries ++ add_remote names tools))
  | _ => content
  end.

(** ** The journal *)

Definition checkpoint (messages : list Message) (s : LoopState) : LoopState :=
  if ac_journal cfg then emit [EfJournal messages] s else s.

Definition checkpoint_tool_results (messages : list Message) (results : list ContentBlock) (s : LoopState)
    : LoopState :=
  checkpoint (if bool_decide (results = []) then messages else messages ++ [mkMessage RoleUser results]) s.

Definition journal_usage (last : Usage) (s : LoopState) : LoopState :=
  if ac_journal cfg then emit [EfJournalUsage (ls_usage s) last] s else s.

(** ** One generation *)

(** [microcompact_agent_history] and the detector's reset. *)
Definition shed_context (s : LoopState) : LoopState :=
  let '(messages, stats, st) :=
    microcompact_history json_parse directory dir_ok write_ok uuid expired (ac_tool_output cfg)
      (ls_messages s) (ls_storage s) in
  let pruned := negb ((ms_results_pruned stats =? 0) && (ms_arguments_pruned stats =? 0)) in
  let s := set_storage st (set_messages messages s) in
  let s := if pruned then set_detector (on_context_pruned <$> ls_detector s) (ls_pending_steer s) s else s in
  checkpoint messages s.

Definition system_prompt (notice steer : option string) : option string :=
  let parts := omap id [ac_system cfg; notice; steer] in
  if bool_decide (parts = []) then None else Some (join (newline +:+ newline) parts).

Definition generation_opts (s : LoopState) : CompleteOpts :=
  let o := ac_opts cfg in
  if ls_force_thinking_off s || is_some (ls_failover_model s)
  then mkOpts (default (co_model o) (ls_failover_model s)) (co_max_tokens o)
         (if ls_force_thinking_off s then Off else co_thinking o) (co_temperature o)
  else o.

(** The in-place retries: [left] of them remain, [retries] are used. *)
Fixpoint attempt_loop (left_ retries : nat) (thinking_bytes : Z) (ctx : LlmContext) (opts : CompleteOpts)
    (trace : Trace) : LlmResponse * Z * Trace :=
  let '(attempt, bytes) := env_stream env trace ctx opts in
  let trace := trace ++ [EfStream ctx opts] in
  let thinking_bytes := u64_saturating_add thinking_bytes bytes in
  match left_ with
  | 0 => (attempt, thinking_bytes, trace)
  | S left_ =>
      if negb (lr_retryable attempt) then (attempt, thinking_bytes, trace)
      else
        let retries := S retries in
        let delay := retry_backoff (pr_base_delay (ac_provider_retry cfg)) retries in
        let trace := if (delay =? 0)%Z then trace else trace ++ [EfSleep delay] in
        attempt_loop left_ retries thinking_bytes ctx opts trace
  end.

Definition set_thinking_bytes (n : Z) (u : Usage) : Usage :=
  mkUsage (us_input u) (us_output u) (us_reasoning_output u) n (us_cache_read u) (us_cache_write u) (us_cost u).

(** The generation's prompt, its attempts and its accounting; [true] when the response
    declared a tool use without a call. *)
Definition generate (s : LoopState) : LlmResponse * bool * CompleteOpts * LoopState :=
  let notice := env_notice env (ls_trace s) in
  let system := system_prompt (fst <$> notice) (ls_pending_steer s) in
  let opts := generation_opts s in
  let ctx := mkContext (ls_messages s) system (ac_tools cfg) in
  let '(resp, bytes, trace) :=
    attempt_loop (pr_max_attempts (ac_provider_retry cfg)) 0 0 ctx opts (ls_trace s) in
  let malformed := tool_use_missing_structured_call resp in
  let resp := validate_response_shape resp in
  let resp := mkResponse (lr_content resp) (lr_stop_reason resp) (lr_error_message resp)
                (lr_context_overflow resp) (lr_retryable resp) (set_thinking_bytes bytes (lr_usage resp)) in
  let s := mkLoop (ls_messages s) (ls_usage s) (ls_auto_continues s) (ls_error_resumes s) (ls_detector s) None
             false (ls_failover_model s) (ls_evidence s) (ls_fingerprint s) (ls_degraded s) (ls_storage s) trace in
  let s :=
    if bool_decide (lr_stop_reason resp = Error_ ∨ lr_stop_reason resp = Aborted) then s
    else match notice with Some (_, newest) => emit [EfAcknowledge newest] s | None => s end in
  (resp, malformed, opts, journal_usage (lr_usage resp) (spend (lr_usage resp) s)).

Definition push_response (resp : LlmResponse) (malformed : bool) (s : LoopState) : LoopState :=
  if malformed then s
  else
    let messages := ls_messages s ++ [mkMessage RoleAssistant (lr_content resp)] in
    checkpoint messages (set_messages messages s).

(** ** The arms of the stop reason *)

Definition auto_continue (s : LoopState) : LoopState :=
  let s := set_counters (S (ls_auto_continues s)) (ls_error_resumes s) true (ls_failover_model s) s in
  let text_only := negb (has_orphan_tool_calls (ls_messages s)) in
  let messages := close_orphan_tool_calls (ls_messages s) in
  let messages := if text_only then messages ++ [message_user AUTO_CONTINUE_NUDGE] else messages in
  checkpoint messages (set_messages messages s).

Definition error_text (resp : LlmResponse) : string := default "unknown" (lr_error_message resp).

Definition fail_over (resp : LlmResponse) (to : string) (s : LoopState) : LoopState :=
  emit [EfNotice ("transient provider error — failing over to " +:+ to +:+ ": " +:+ error_text resp)]
    (set_counters (ls_auto_continues s) (ls_error_resumes s) (ls_force_thinking_off s) (Some to) s).

(** The history a resumption continues from. *)
Definition resumed_messages (messages : list Message) : list Message :=
  let messages :=
    match last messages with
    | Some m => if bool_decide (msg_role m = RoleAssistant) && bool_decide (msg_content m = [])
                then take (length messages - 1) messages else messages
    | None => messages
    end in
  let text_only := negb (has_orphan_tool_calls messages) in
  let messages := close_orphan_tool_calls messages in
  let ends_with_assistant :=
    match last messages with Some m => bool_decide (msg_role m = RoleAssistant) | None => false end in
  if text_only && ends_with_assistant then messages ++ [message_user ERROR_RESUME_NUDGE] else messages.

Definition error_resume (resp : LlmResponse) (s : LoopState) : LoopState :=
  let used := S (ls_error_resumes s) in
  let s := set_counters (ls_auto_continues s) used (ls_force_thinking_off s) (ls_failover_model s) s in
  let delay := retry_backoff (duration_saturating_mul (pr_base_delay (ac_provider_retry cfg)) 4) used in
  let s := emit [EfNotice ("transient provider error — resuming (" +:+ nat_to_string used +:+ "/"
                   +:+ nat_to_string error_resume_budget +:+ "): " +:+ error_text resp)] s in
  let s := emit (if (delay =? 0)%Z then [] else [EfSleep delay]) s in
  let messages := resumed_messages (ls_messages s) in
  checkpoint messages (set_messages messages s).

Definition terminal (resp : LlmResponse) (s : LoopState) : AgentResult :=
  mkAgentResult (close_orphan_tool_calls (ls_messages s)) (ls_usage s) (lr_stop_reason resp)
    (lr_error_message resp) (lr_usage resp) (lr_context_overflow resp) (ls_evidence s).

(** ** Tool calls *)

Definition calls_of (content : list ContentBlock) : list ToolCallInfo :=
  omap (λ b, match b with CbToolCall id name input => Some (mkToolCall id name input) | _ => None end) content.

(** The content of a script's answer, a JSON object with its keys in order. *)
Definition script_content (r : result (Json * list Json) string) : string * bool :=
  match r with
  | Ok (value, logs) =>
      (json_text (JObject ((if bool_decide (length logs = 0) then [] else [("logs", JArray logs)])
                           ++ [("result", value)])), false)
  | Err error => (error, true)
  end.

(** The tool runs: script, plan, opcode facade, local dispatcher or remote server. *)
Definition dispatch (info : ToolCallInfo) (s : LoopState) : string * bool * bool * LoopState :=
  let name := tc_name info in
  let input := tc_input info in
  let s := emit [EfDispatch info] s in
  if bool_decide (name = EXECUTE_SCRIPT_TOOL) then
    let run := env_script env (ls_trace s) input in
    let '(content, is_error) := script_content (sr_result run) in
    (content, is_error, false, spend (sr_usage run) s)
  else if bool_decide (name = UPDATE_PLAN_TOOL) then
    match parse_plan_entries input with
    | Ok entries =>
        (json_text (JObject [("updated", JNumber (nat_to_string (length entries)))]), false, false,
         emit [EfPlan entries] s)
    | Err error => (error, true, false, s)
    end
  else
    let catalog content :=
      if bool_decide (name = LIST_ALL_TOOLS_TOOL) then append_remote_tools_to_catalog content (ac_tools cfg)
      else content in
    match env_facade env (ls_trace s) name input with
    | Some r => (catalog (response_to_content r), negb (fr_ok r), false, s)
    | None =>
        match env_local env (ls_trace s) name input with
        | Some (content, is_error) => (catalog content, is_error, false, s)
        | None =>
            match env_remote env ≫= λ hook, hook (ls_trace s) name input with
            | Some r => (rt_content r, rt_is_error r, rt_transient r, s)
            | None => ("tool '" +:+ name +:+ "' not available in agent mode", true, false, s)
            end
        end
    end.

(** The baseline fingerprint, taken before the first call of the turn. *)
Definition baseline (s : LoopState) : LoopState :=
  if negb (is_some (ls_fingerprint s)) && negb (ls_degraded s) then
    match env_fingerprint env (ls_trace s) with
    | Some f => set_evidence (ls_evidence s) (Some f) (ls_degraded s) s
    | None => set_evidence (mark_fingerprint_unavailable (ls_evidence s)) (ls_fingerprint s) true s
    end
  else s.

Definition record_evidence (info : ToolCallInfo) (content : string) (s : LoopState) : LoopState :=
  let verifier := verifier_exit json_parse (tc_name info) (tc_input info) content in
  if ls_degraded s then set_evidence (record_call false verifier (ls_evidence s)) (ls_fingerprint s) true s
  else
    match env_fingerprint env (ls_trace s) with
    | Some after =>
        let changed := match ls_fingerprint s with Some b => negb (bool_decide (b = after)) | None => false end in
        set_evidence (record_call changed verifier (ls_evidence s)) (Some after) false s
    | None =>
        set_evidence (record_call false verifier (mark_fingerprint_unavailable (ls_evidence s)))
          (ls_fingerprint s) true s
    end.

(** Bounding or reformatting: the text the model sees. *)
Definition bound_output (info : ToolCallInfo) (is_error : bool) (content : string) (s : LoopState)
    : string * LoopState :=
  let oc := ac_tool_output cfg in
  let '(bounded, st) :=
    if ac_subcall_provider cfg && should_reformat (toc_reformat oc) (tc_name info) is_error (char_count content)
    then reformat_text json_text json_parse directory dir_ok write_ok uuid expired
           (env_reformat env (ls_trace s)) oc (tc_name info) content (tc_input info) (env_diff env (ls_trace s))
           (map (λ t, (sc_name t, sc_description t)) (ac_tools cfg)) (ls_storage s)
    else bound_text json_text json_parse directory dir_ok write_ok uuid expired oc (tc_name info) content
           (ls_storage s) in
  (bt_content bounded, set_storage st s).

Definition before_verdict (info : ToolCallInfo) (s : LoopState) : BeforeHookResult * LoopState :=
  match env_before env with
  | None => (HookAllow, s)
  | Some hook => let v := hook (ls_trace s) info in (v, emit [EfBefore info v] s)
  end.

(** What a round has gathered so far. *)
Record Round := mkRound {
  rd_results : list ContentBlock;
  rd_observations : list CallObservation;
  rd_terminate : bool;
}.

Definition with_transient (o : CallObservation) (t : bool) : CallObservation :=
  mkObs (ob_name o) (ob_call_fp o) (ob_result_fp o) (ob_is_error o) t.

Definition run_call (last_usage : Usage) (info : ToolCallInfo) (acc : Round * LoopState) : Round * LoopState :=
  let '(round, s) := acc in
  let '(verdict, s) := before_verdict info s in
  match verdict with
  | HookBlock reason =>
      let results := rd_results round ++ [CbToolResult (tc_id info) ("blocked: " +:+ reason) true] in
      (mkRound results (rd_observations round) (rd_terminate round),
       checkpoint_tool_results (ls_messages s) results s)
  | HookAllow =>
      let '(content, is_error, transient, s) := dispatch info s in
      let s := record_evidence info content s in
      let stop := match env_after env with Some hook => hook (ls_trace s) info content is_error | None => false end in
      let '(content, s) := bound_output info is_error content s in
      let observations :=
        if is_some (ls_detector s)
        then rd_observations round ++ [with_transient (observation_new (tc_name info) (tc_input info) is_error content) transient]
        else rd_observations round in
      let results := rd_results round ++ [CbToolResult (tc_id info) content is_error] in
      (mkRound results observations (rd_terminate round || stop),
       journal_usage last_usage (checkpoint_tool_results (ls_messages s) results s))
  end.

Fixpoint run_calls (last_usage : Usage) (calls : list ToolCallInfo) (acc : Round * LoopState) : Round * LoopState :=
  match calls with [] => acc | info :: calls => run_calls last_usage calls (run_call last_usage info acc) end.

Definition abort (resp : LlmResponse) (message : string) (s : LoopState) : AgentResult :=
  mkAgentResult (ls_messages s) (ls_usage s) Aborted (Some message) (lr_usage resp) false (ls_evidence s).

Definition tool_use (resp : LlmResponse) (s : LoopState) : LoopState * option AgentResult :=
  let '(round, s) := run_calls (lr_usage resp) (calls_of (lr_content resp)) (mkRound [] [] false, baseline s) in
  let s :=
    if bool_decide (rd_results round = []) then s
    else
      let messages := ls_messages s ++ [mkMessage RoleUser (rd_results round)] in
      checkpoint messages (set_messages messages s) in
  let s := emit [EfRound (rd_results round)] s in
  let s := if ac_checkpoints cfg then emit [EfCheckpoint (tool_names_for_checkpoint (lr_content resp))] s else s in
  if rd_terminate round then (s, Some (abort resp "terminated by after_tool_call hook" s))
  else
    match ls_detector s with
    | None => (s, None)
    | Some d =>
        let '(d, verdict) := observe_round hash_set d (rd_observations round) in
        match verdict with
        | Proceed => (set_detector (Some d) (ls_pending_steer s) s, None)
        | Steer text => (set_detector (Some d) (Some text) s, None)
        | Break message => (s, Some (abort resp message s))
        end
    end.

(** ** The loop *)

(** One generation and what follows it: the state reached, and the result when the
    turn is over. *)
Definition step (s : LoopState) : LoopState * option AgentResult :=
  let s := shed_context s in
  let '(resp, malformed, opts, s) := generate s in
  let s := push_response resp malformed s in
  match lr_stop_reason resp with
  | ToolUse => tool_use resp s
  | MaxTokens =>
      if (0 <? auto_continue_budget) && (ls_auto_continues s <? auto_continue_budget)
      then (auto_continue s, None) else (s, Some (terminal resp s))
  | Error_ =>
      match (if lr_retryable resp then next_failover_model failover_chain (co_model opts) else None) with
      | Some to => (fail_over resp to s, None)
      | None =>
          if lr_retryable resp && (ls_error_resumes s <? error_resume_budget)
          then (error_resume resp s, None) else (s, Some (terminal resp s))
      end
  | EndTurn | Refusal | Aborted => (s, Some (terminal resp s))
  end.

Fixpoint run (fuel : nat) (s : LoopState) : LoopState * option AgentResult :=
  match fuel with
  | 0 => (s, None)
  | S fuel => match step s with (s, None) => run fuel s | done_ => done_ end
  end.

(** The state [run_inner] starts with. *)
Definition start (detector : option LoopDetector) (storage : Storage) (trace : Trace)
    (initial_messages : list Message) : LoopState :=
  checkpoint initial_messages
    (mkLoop initial_messages usage_default 0 0 detector None false None ledger_default None false storage trace).


(** ** Lemmas *)

(** *** What the parts of a step leave alone *)

Definition same_counters (s s' : LoopState) : Prop :=
  ls_auto_continues s' = ls_auto_continues s ∧ ls_error_resumes s' = ls_error_resumes s ∧
  ls_failover_model s' = ls_failover_model s.

(** [s'] comes after [s], and the effects [k] happened between them. *)
Definition extends (s s' : LoopState) (k : Trace) : Prop := ls_trace s' = ls_trace s ++ k.

Lemma extends_trans s1 s2 s3 k1 k2 : extends s1 s2 k1 → extends s2 s3 k2 → extends s1 s3 (k1 ++ k2).
Proof. unfold extends. intros -> ->. by rewrite app_assoc. Qed.

Definition journal_effect (messages : list Message) : Trace :=
  if ac_journal cfg then [EfJournal messages] else [].

Lemma checkpoint_spec messages s :
  ls_messages (checkpoint messages s) = ls_messages s ∧ same_counters s (checkpoint messages s) ∧
  ls_detector (checkpoint messages s) = ls_detector s ∧
  extends s (checkpoint messages s) (journal_effect messages).
Proof.
  unfold checkpoint, extends, journal_effect. destruct (ac_journal cfg); by rewrite ?app_nil_r.
Qed.

Lemma checkpoint_tool_results_spec messages results s :
  ls_messages (checkpoint_tool_results messages results s) = ls_messages s ∧
  same_counters s (checkpoint_tool_results messages results s) ∧
  ls_detector (checkpoint_tool_results messages results s) = ls_detector s ∧
  extends s (checkpoint_tool_results messages results s)
    (journal_effect (if bool_decide (results = []) then messages else messages ++ [mkMessage RoleUser results])).
Proof. apply checkpoint_spec. Qed.

Lemma journal_usage_spec u s :
  ls_messages (journal_usage u s) = ls_messages s ∧ same_counters s (journal_usage u s) ∧
  ls_detector (journal_usage u s) = ls_detector s ∧
  ∃ k, extends s (journal_usage u s) k ∧ Forall (λ e, ∃ a b, e = EfJournalUsage a b) k.
Proof.
  unfold journal_usage, extends. destruct (ac_journal cfg); split_and!; try done.
  - eexists. split; [done|]. repeat constructor. eauto.
  - exists []. by rewrite app_nil_r.
Qed.

Definition shed_messages (s : LoopState) : list Message :=
  (microcompact_history json_parse directory dir_ok write_ok uuid expired (ac_tool_output cfg)
     (ls_messages s) (ls_storage s)).1.1.

Lemma shed_context_spec s :
  ls_messages (shed_context s) = shed_messages s ∧ same_counters s (shed_context s) ∧
  is_some (ls_detector (shed_context s)) = is_some (ls_detector s) ∧
  extends s (shed_context s) (journal_effect (shed_messages s)).
Proof.
  unfold shed_context, shed_messages.
  destruct (microcompact_history _ _ _ _ _ _ _ _ _) as [[messages stats] st]. simpl.
  match goal with |- context [checkpoint messages ?x] => destruct (checkpoint_spec messages x) as (->&Hc&->&He) end.
  destruct (negb _); simpl; split_and!; try done; by destruct (ls_detector s).
Qed.

(** The shed history has the calls, results, roles and turns of the given one. *)
Lemma shed_related s :
  ∃ files recent protected_ids,
    Forall2 (message_related (block_compacted json_parse expired files recent protected_ids))
      (ls_messages s) (shed_messages s).
Proof.
  unfold shed_messages. destruct (microcompact_history _ _ _ _ _ _ _ _ _) as [[messages stats] st] eqn:E.
  exists (st_files st). do 2 eexists. eapply microcompact_related, E.
Qed.

(** The effects of a generation whose history is [messages]. *)
Definition generation_effect (messages : list Message) (e : Effect) : Prop :=
  match e with
  | EfStream ctx _ => cx_messages ctx = messages
  | EfSleep _ | EfAcknowledge _ | EfSpend _ | EfJournalUsage _ _ => True
  | _ => False
  end.

Lemma attempt_loop_effects left_ retries bytes ctx opts trace resp bytes' trace' :
  attempt_loop left_ retries bytes ctx opts trace = (resp, bytes', trace') →
  ∃ k, trace' = trace ++ k ∧ Forall (generation_effect (cx_messages ctx)) k ∧
       ∃ t o, resp = (env_stream env t ctx o).1.
Proof.
  revert retries bytes trace. induction left_ as [|n IH]; intros retries bytes trace; cbn [attempt_loop];
    destruct (env_stream env trace ctx opts) as [attempt b] eqn:Hs.
  - intros [= <- <- <-]. exists [EfStream ctx opts]. split; [done|]. split; [by repeat constructor|].
    exists trace, opts. by rewrite Hs.
  - destruct (lr_retryable attempt); simpl.
    + intros (k&->&Hk&Ht)%IH. destruct (_ =? 0)%Z.
      * exists (EfStream ctx opts :: k). rewrite <- app_assoc. split; [done|]. split; [|done]. by constructor.
      * eexists (EfStream ctx opts :: EfSleep _ :: k). rewrite <- !app_assoc. split; [done|]. split; [|done].
        by repeat constructor.
    + intros [= <- <- <-]. exists [EfStream ctx opts]. split; [done|]. split; [by repeat constructor|].
      exists trace, opts. by rewrite Hs.
Qed.

(** A response as the loop uses it: a reply to a context with the current history. *)
Definition reply_to (messages : list Message) (resp : LlmResponse) : Prop :=
  ∃ t ctx o, cx_messages ctx = messages ∧
    let r := validate_response_shape (env_stream env t ctx o).1 in
    lr_content resp = lr_content r ∧ lr_stop_reason resp = lr_stop_reason r ∧ lr_retryable resp = lr_retryable r.

Lemma generate_spec s resp malformed opts s' :
  generate s = (resp, malformed, opts, s') →
  ls_messages s' = ls_messages s ∧ same_counters s s' ∧ ls_detector s' = ls_detector s ∧
  co_model opts = default (co_model (ac_opts cfg)) (ls_failover_model s) ∧
  reply_to (ls_messages s) resp ∧
  (malformed = true → lr_stop_reason resp = Error_ ∧ lr_retryable resp = false) ∧
  ∃ k, extends s s' k ∧ Forall (generation_effect (ls_messages s)) k.
Proof.
  unfold generate.
  destruct (attempt_loop _ _ _ _ _ _) as [[raw bytes] trace] eqn:Ha.
  apply attempt_loop_effects in Ha as (k&->&Hk&t&o&Hraw). simpl in Hk.
  intros [= <- <- <- <-].
  match goal with |- context [journal_usage ?u (spend ?v ?x)] => set (s1 := x); set (uu := u) end.
  destruct (journal_usage_spec uu (spend uu s1)) as (->&Hc&->&k2&He2&Hk2).
  assert (H1 : ls_messages s1 = ls_messages s ∧ same_counters s s1 ∧ ls_detector s1 = ls_detector s ∧
    ∃ k1, extends s s1 k1 ∧ Forall (generation_effect (ls_messages s)) k1).
  { unfold s1. case_bool_decide; [by split_and!; [..|exists k]|].
    destruct (env_notice env (ls_trace s)) as [[text n]|]; [|by split_and!; [..|exists k]].
    split_and!; try done. exists (k ++ [EfAcknowledge n]). split; [unfold extends; simpl; by rewrite app_assoc|].
    apply Forall_app. split; [done|]. by repeat constructor. }
  destruct H1 as (H1m&H1c&H1d&k1&He1&Hk1). split_and!.
  - done.
  - destruct Hc as (?&?&?), H1c as (?&?&?). repeat split; etrans; done.
  - done.
  - unfold generation_opts. destruct (ls_failover_model s); [by rewrite orb_true_r|].
    destruct (ls_force_thinking_off s); done.
  - exists t. eexists _, o. rewrite <- Hraw. by split.
  - intros Hm. unfold validate_response_shape. by rewrite Hm.
  - exists (k1 ++ [EfSpend uu] ++ k2). split.
    + eapply extends_trans; [done|]. eapply extends_trans; [|done]. done.
    + apply Forall_app. split; [done|]. constructor; [done|]. eapply Forall_impl; [done|].
      intros e (a&b&->). done.
Qed.

(** *** Tool rounds *)

(** Nothing but the evidence, the storage, the spend and the trace moves. *)
Definition frame (s s' : LoopState) : Prop :=
  ls_messages s' = ls_messages s ∧ same_counters s s' ∧ ls_detector s' = ls_detector s.

#[local] Instance frame_preorder : PreOrder frame.
Proof.
  split; [by intros s; repeat split|].
  intros s1 s2 s3 (?&(?&?&?)&?) (?&(?&?&?)&?). repeat split; congruence.
Qed.

Definition quiet_effect (e : Effect) : Prop :=
  match e with EfSpend _ | EfPlan _ | EfJournalUsage _ _ => True | _ => False end.

Lemma dispatch_spec info s content is_error transient s' :
  dispatch info s = (content, is_error, transient, s') →
  frame s s' ∧ ∃ k, extends s s' (EfDispatch info :: k) ∧ Forall quiet_effect k.
Proof.
  unfold dispatch.
  assert (Hend : ∀ s0 s1 k, s0 = emit [EfDispatch info] s → frame s0 s1 → extends s0 s1 k → Forall quiet_effect k →
    frame s s1 ∧ ∃ k, extends s s1 (EfDispatch info :: k) ∧ Forall quiet_effect k).
  { intros s0 s1 k -> Hf He Hk. split; [exact Hf|]. exists k. split; [|done].
    change (EfDispatch info :: k) with ([EfDispatch info] ++ k).
    by apply (extends_trans _ (emit [EfDispatch info] s)). }
  assert (Hstay : frame s (emit [EfDispatch info] s) ∧
    ∃ k, extends s (emit [EfDispatch info] s) (EfDispatch info :: k) ∧ Forall quiet_effect k).
  { eapply (Hend _ _ []); [done|by repeat split|unfold extends; by rewrite app_nil_r|done]. }
  case_bool_decide.
  { destruct (script_content _) as [c e]. intros [= <- <- <- <-].
    eapply (Hend _ _ [EfSpend _]); [done|by repeat split|done|by repeat constructor]. }
  case_bool_decide.
  { destruct (parse_plan_entries _) as [entries|error]; intros [= <- <- <- <-]; [|done].
    eapply (Hend _ _ [EfPlan _]); [done|by repeat split|done|by repeat constructor]. }
  destruct (env_facade env _ _ _); [by intros [= <- <- <- <-]|].
  destruct (env_local env _ _ _) as [[c e]|]; [by intros [= <- <- <- <-]|].
  destruct (env_remote env ≫= _); by intros [= <- <- <- <-].
Qed.

Lemma record_evidence_spec info content s :
  frame s (record_evidence info content s) ∧ ls_trace (record_evidence info content s) = ls_trace s.
Proof. unfold record_evidence. repeat case_match; by repeat split. Qed.

Lemma bound_output_spec info is_error content s :
  frame s (bound_output info is_error content s).2 ∧ ls_trace (bound_output info is_error content s).2 = ls_trace s.
Proof. unfold bound_output. case_match; by repeat split. Qed.

Lemma baseline_spec s : frame s (baseline s) ∧ ls_trace (baseline s) = ls_trace s.
Proof. unfold baseline. repeat case_match; by repeat split. Qed.

Definition before_effect (info : ToolCallInfo) (v : BeforeHookResult) : Trace :=
  if is_some (env_before env) then [EfBefore info v] else [].

Lemma before_verdict_spec info s v s' :
  before_verdict info s = (v, s') →
  frame s s' ∧ extends s s' (before_effect info v) ∧ (env_before env = None → v = HookAllow).
Proof.
  unfold before_verdict, before_effect. destruct (env_before env) as [hook|]; intros [= <- <-]; split_and!; try done.
  unfold extends. by rewrite app_nil_r.
Qed.

Lemma snoc_not_nil {A} (l : list A) x (D : Decision (l ++ [x] = [])) : @bool_decide _ D = false.
Proof. apply bool_decide_eq_false. by destruct l. Qed.

(** The effects of one call, and the result it adds. *)
Lemma run_call_spec u info round s round' s' :
  run_call u info (round, s) = (round', s') →
  frame s s' ∧
  ∃ v b q j,
    rd_results round' = rd_results round ++ [b] ∧ block_result_id b = Some (tc_id info) ∧
    (env_before env = None → v = HookAllow) ∧
    extends s s' (before_effect info v ++ q ++
      journal_effect (ls_messages s ++ [mkMessage RoleUser (rd_results round')]) ++ j) ∧
    Forall quiet_effect j ∧
    (v = HookAllow ∧ (∃ k, q = EfDispatch info :: k ∧ Forall quiet_effect k) ∨ v ≠ HookAllow ∧ q = []).
Proof.
  unfold run_call. destruct (before_verdict info s) as [v s1] eqn:Hv.
  apply before_verdict_spec in Hv as (Hf1&He1&Hnone).
  destruct v as [|reason].
  - destruct (dispatch info s1) as [[[content is_error] transient] s2] eqn:Hd.
    apply dispatch_spec in Hd as (Hf2&k2&He2&Hk2).
    destruct (record_evidence_spec info content s2) as [Hf3 He3]. set (s3 := record_evidence _ _ _) in *.
    destruct (bound_output_spec info is_error content s3) as [Hf4 He4].
    destruct (bound_output info is_error content s3) as [bounded s4]. simpl in Hf4, He4.
    intros [= <- <-]. set (results := rd_results round ++ _).
    destruct (checkpoint_tool_results_spec (ls_messages s4) results s4) as (Hm5&Hc5&Hd5&He5).
    destruct (journal_usage_spec u (checkpoint_tool_results (ls_messages s4) results s4)) as (Hm6&Hc6&Hd6&j&He6&Hj).
    assert (Hf : frame s s4) by (etrans; [exact Hf1|]; etrans; [exact Hf2|]; by etrans).
    assert (Hm : ls_messages s4 = ls_messages s) by apply Hf.
    unfold results in He5. rewrite snoc_not_nil, Hm in He5. fold results in He5. split.
    + etrans; [exact Hf|]. etrans; [|split; [exact Hm6|split; [exact Hc6|exact Hd6]]].
      split; [exact Hm5|]. by split.
    + exists HookAllow, (CbToolResult (tc_id info) bounded is_error), (EfDispatch info :: k2), j.
      split_and!; [done|done|done| |by eapply Forall_impl; [done|]; intros e (a&b&->)|left; split; [done|by eexists]].
      eapply extends_trans; [exact He1|]. eapply extends_trans; [exact He2|].
      eapply extends_trans; [|rewrite <- Hm in *; exact He6].
      rewrite <- Hm in *. unfold extends in *. by rewrite <- He3, <- He4.
  - intros [= <- <-]. set (results := rd_results round ++ _).
    destruct (checkpoint_tool_results_spec (ls_messages s1) results s1) as (Hm5&Hc5&Hd5&He5).
    assert (Hm : ls_messages s1 = ls_messages s) by apply Hf1. unfold results in He5. rewrite snoc_not_nil in He5. fold results in He5. split.
    + etrans; [exact Hf1|]. by repeat split; try apply Hc5.
    + exists (HookBlock reason), (CbToolResult (tc_id info) ("blocked: " +:+ reason) true), [], [].
      split_and!; [done|done|done| |done|by right]. rewrite app_nil_r, app_nil_l.
      eapply extends_trans; [exact He1|]. by rewrite <- Hm.
Qed.

Lemma run_calls_ind (I : Round → LoopState → Prop) u calls round s round' s' :
  (∀ info round s round' s', I round s → run_call u info (round, s) = (round', s') → I round' s') →
  I round s → run_calls u calls (round, s) = (round', s') → I round' s'.
Proof.
  intros Hstep. revert round s. induction calls as [|info calls IH]; intros round s HI; cbn [run_calls].
  - by intros [= <- <-].
  - destruct (run_call u info (round, s)) as [round1 s1] eqn:E. intros H. eapply IH; [|exact H]. eauto.
Qed.

Lemma run_calls_frame u calls round s round' s' :
  run_calls u calls (round, s) = (round', s') → frame s s' ∧ ∃ k, extends s s' k.
Proof.
  intros H. eapply (run_calls_ind (λ _ s', frame s s' ∧ ∃ k, extends s s' k)); [| |exact H].
  - intros info r1 s1 r2 s2 [Hf [k Hk]] (Hf2&?&?&?&?&_&_&_&Hk2&_)%run_call_spec.
    split; [by etrans|]. eexists. by eapply extends_trans.
  - split; [done|]. exists []. unfold extends. by rewrite app_nil_r.
Qed.

(** The round answers every call once, in order. *)
Lemma run_calls_results u calls round s round' s' :
  run_calls u calls (round, s) = (round', s') →
  forallb is_tool_result (rd_results round) = true →
  forallb is_tool_result (rd_results round') = true ∧
  omap block_result_id (rd_results round') = omap block_result_id (rd_results round) ++ map tc_id calls.
Proof.
  revert round s. induction calls as [|info calls IH]; intros round s; cbn [run_calls].
  - intros [= <- <-] H. by rewrite app_nil_r.
  - destruct (run_call u info (round, s)) as [round1 s1] eqn:E.
    apply run_call_spec in E as (_&v&b&q&j&Hr&Hb&_). intros H Hres.
    apply IH in H as [H1 H2]; [split; [done|]|].
    + rewrite H2, Hr, omap_app, <- app_assoc. f_equal. csimpl. by rewrite Hb.
    + rewrite Hr, forallb_app, Hres. simpl. unfold is_tool_result. by rewrite Hb.
Qed.

Lemma calls_of_ids content : map tc_id (calls_of content) = omap block_call_id content.
Proof.
  unfold calls_of. induction content as [|b content IH]; [done|]. destruct b; csimpl; try done. by rewrite IH.
Qed.

(** The history after a round: the results of the response's calls follow it. *)
Definition round_message (results : list ContentBlock) : list Message :=
  if bool_decide (results = []) then [] else [mkMessage RoleUser results].

Lemma tool_use_spec resp s :
  ∃ results k,
    forallb is_tool_result results = true ∧
    omap block_result_id results = omap block_call_id (lr_content resp) ∧
    (ac_journal cfg = true → results ≠ [] → EfJournal (ls_messages s ++ [mkMessage RoleUser results]) ∈ k) ∧
    EfRound results ∈ k ∧
    let s' := (tool_use resp s).1 in
    same_counters s s' ∧ ls_messages s' = ls_messages s ++ round_message results ∧ extends s s' k ∧
    match (tool_use resp s).2 with
    | Some r => ar_messages r = ls_messages s' ∧ ar_stop_reason r = Aborted
    | None => True
    end.
Proof.
  unfold tool_use. destruct (baseline_spec s) as [Hf0 Ht0].
  destruct (run_calls _ _ _) as [round s1] eqn:Hrun.
  destruct (run_calls_results _ _ _ _ _ _ Hrun eq_refl) as [Hres Hids]. simpl in Hids. rewrite calls_of_ids in Hids.
  destruct (run_calls_frame _ _ _ _ _ _ Hrun) as [Hf1 [k1 Hk1]].
  assert (Hf : frame s s1) by by etrans.
  set (results := rd_results round) in *.
  set (s2 := if bool_decide (results = []) then s1 else _).
  assert (H2 : same_counters s s2 ∧ ls_detector s2 = ls_detector s1 ∧ ls_messages s2 = ls_messages s ++ round_message results ∧
    ∃ k2, extends s s2 k2 ∧
      (ac_journal cfg = true → results ≠ [] → EfJournal (ls_messages s ++ [mkMessage RoleUser results]) ∈ k2)).
  { destruct Hf as (Hm&Hc&Hd). unfold extends in Hk1. rewrite Ht0 in Hk1.
    unfold s2, round_message. case_bool_decide as Hnil.
    - rewrite app_nil_r. split_and!; [done..|]. exists k1. by split.
    - destruct (checkpoint_spec (ls_messages s1 ++ [mkMessage RoleUser results])
        (set_messages (ls_messages s1 ++ [mkMessage RoleUser results]) s1)) as (Hcm&Hcc&Hcd&Hce).
      rewrite Hcm, Hcd. simpl. rewrite Hm. split_and!; try done.
      + destruct Hc as (?&?&?), Hcc as (?&?&?). simpl in *. rewrite Hm in *. repeat split; congruence.
      + eexists. split; [eapply (extends_trans s (set_messages (ls_messages s1 ++ [mkMessage RoleUser results]) s1));
          [exact Hk1|rewrite <- Hm; exact Hce]|].
        intros Hj _. apply elem_of_app. right. unfold journal_effect. rewrite Hj, Hm. by left. }
  destruct H2 as (Hc2&Hd2&Hm2&k2&He2&Hj2). clearbody s2.
  set (s3 := if ac_checkpoints cfg then _ else _).
  assert (H3 : same_counters s s3 ∧ ls_detector s3 = ls_detector s1 ∧ ls_messages s3 = ls_messages s ++ round_message results ∧
    ∃ k3, extends s s3 (k2 ++ EfRound results :: k3)).
  { unfold s3. destruct (ac_checkpoints cfg); split_and!; try done; unfold extends in *; simpl; rewrite He2.
    - eexists [_]. by rewrite <- !app_assoc.
    - exists []. by rewrite <- !app_assoc. }
  destruct H3 as (Hc3&Hd3&Hm3&k3&He3). clearbody s3.
  exists results, (k2 ++ EfRound results :: k3). do 2 (split; [done|]). split; [|split].
  - intros. apply elem_of_app. left. auto.
  - apply elem_of_app. right. by left.
  - destruct (rd_terminate round); [by split_and!|].
    destruct (ls_detector s3) as [d|]; [|by split_and!].
    destruct (observe_round hash_set d _) as [d' []]; by split_and!.
Qed.

(** *** The state in front of the stop reason *)

Definition responded (s : LoopState) (resp : LlmResponse) (malformed : bool) : list Message :=
  if malformed then shed_messages s else shed_messages s ++ [mkMessage RoleAssistant (lr_content resp)].

Lemma step_response s :
  ∃ resp malformed opts s3 k,
    step s = match lr_stop_reason resp with
      | ToolUse => tool_use resp s3
      | MaxTokens =>
          if (0 <? auto_continue_budget) && (ls_auto_continues s3 <? auto_continue_budget)
          then (auto_continue s3, None) else (s3, Some (terminal resp s3))
      | Error_ =>
          match (if lr_retryable resp then next_failover_model failover_chain (co_model opts) else None) with
          | Some to => (fail_over resp to s3, None)
          | None =>
              if lr_retryable resp && (ls_error_resumes s3 <? error_resume_budget)
              then (error_resume resp s3, None) else (s3, Some (terminal resp s3))
          end
      | EndTurn | Refusal | Aborted => (s3, Some (terminal resp s3))
      end ∧
    ls_messages s3 = responded s resp malformed ∧ same_counters s s3 ∧
    co_model opts = default (co_model (ac_opts cfg)) (ls_failover_model s) ∧
    reply_to (shed_messages s) resp ∧
    (malformed = true → lr_stop_reason resp = Error_ ∧ lr_retryable resp = false) ∧
    extends s s3 (journal_effect (shed_messages s) ++ k ++
      (if malformed then [] else journal_effect (responded s resp malformed))) ∧
    Forall (generation_effect (shed_messages s)) k.
Proof.
  unfold step. destruct (shed_context_spec s) as (Hm1&Hc1&_&He1). set (s1 := shed_context s) in *.
  destruct (generate s1) as [[[resp malformed] opts] s2] eqn:Hg.
  apply generate_spec in Hg as (Hm2&Hc2&Hd2&Ho&Hr&Hmal&k&He2&Hk). rewrite Hm1 in *.
  assert (H3 : ls_messages (push_response resp malformed s2) = responded s resp malformed ∧
    same_counters s2 (push_response resp malformed s2) ∧
    extends s2 (push_response resp malformed s2)
      (if malformed then [] else journal_effect (responded s resp malformed))).
  { unfold push_response, responded. destruct malformed.
    - split_and!; [done|done|]. unfold extends. by rewrite app_nil_r.
    - rewrite Hm2. 
      match goal with |- context [checkpoint ?l ?x] => destruct (checkpoint_spec l x) as (->&Hc&_&He) end.
      split; [done|]. split; [exact Hc|exact He]. }
  destruct H3 as (Hm3&Hc3&He3).
  exists resp, malformed, opts, (push_response resp malformed s2), k. split_and!; try done.
  - destruct Hc1 as (?&?&?), Hc2 as (?&?&?), Hc3 as (?&?&?). repeat split; congruence.
  - rewrite Ho. f_equal. apply Hc1.
  - eapply extends_trans; [exact He1|]. by eapply extends_trans.
Qed.

(** *** Budgets *)

Definition is_round (e : Effect) : bool := match e with EfRound _ => true | _ => false end.
Definition rounds (tr : Trace) : nat := length (List.filter is_round tr).

Lemma rounds_app a b : rounds (a ++ b) = rounds a + rounds b.
Proof. unfold rounds. by rewrite List.filter_app, length_app. Qed.

Lemma rounds_elem results k : EfRound results ∈ k → 1 ≤ rounds k.
Proof. intros (a&b&->)%list_elem_of_split. rewrite rounds_app. unfold rounds. simpl. lia. Qed.

(** What is left of the continuations, the resumptions and the chain. *)
Definition budget_left (s : LoopState) : nat :=
  (auto_continue_budget - ls_auto_continues s) + (error_resume_budget - ls_error_resumes s) +
  (length failover_chain - chain_place failover_chain (default (co_model (ac_opts cfg)) (ls_failover_model s))).

Lemma same_counters_budget s s' : same_counters s s' → budget_left s' = budget_left s.
Proof. unfold budget_left. by intros (->&->&->). Qed.

Lemma error_resume_spec resp s :
  ls_auto_continues (error_resume resp s) = ls_auto_continues s ∧
  ls_error_resumes (error_resume resp s) = S (ls_error_resumes s) ∧
  ls_failover_model (error_resume resp s) = ls_failover_model s ∧
  ∃ k, extends s (error_resume resp s) (k ++ journal_effect (ls_messages (error_resume resp s))) ∧
    Forall (λ e, match e with EfNotice _ | EfSleep _ => True | _ => False end) k.
Proof.
  unfold error_resume.
  match goal with |- context [checkpoint ?l ?x] => destruct (checkpoint_spec l x) as (Hm&(Ha&Hr&Hf)&_&He) end.
  rewrite Ha, Hr, Hf, Hm. split_and!; try done. clear Ha Hr Hf Hm.
  eexists (EfNotice _ :: if (_ =? 0)%Z then [] else [EfSleep _]). split.
  - eapply extends_trans; [|exact He]. unfold extends; simpl. by rewrite <- app_assoc.
  - constructor; [done|]. case_match; by repeat constructor.
Qed.

Lemma auto_continue_spec s :
  ls_auto_continues (auto_continue s) = S (ls_auto_continues s) ∧
  ls_error_resumes (auto_continue s) = ls_error_resumes s ∧
  ls_failover_model (auto_continue s) = ls_failover_model s ∧
  extends s (auto_continue s) (journal_effect (ls_messages (auto_continue s))).
Proof.
  unfold auto_continue.
  match goal with |- context [checkpoint ?l ?x] => destruct (checkpoint_spec l x) as (Hm&(Ha&Hr&Hf)&_&He) end.
  by rewrite Ha, Hr, Hf, Hm.
Qed.

(** A step either runs tools or uses up a part of a budget. *)
Lemma step_budget s s' :
  NoDup failover_chain → step s = (s', None) →
  (∃ k, extends s s' k) ∧ S (rounds (ls_trace s)) + budget_left s' ≤ rounds (ls_trace s') + budget_left s.
Proof.
  intros Hnd. destruct (step_response s) as (resp&malformed&opts&s3&k&->&_&Hc&Ho&_&_&He&_).
  assert (Hrefl : rounds (ls_trace s) ≤ rounds (ls_trace s3)) by (rewrite He, rounds_app; lia).
  pose proof (same_counters_budget _ _ Hc) as Hb. destruct (lr_stop_reason resp); try done.
  - destruct (tool_use_spec resp s3) as (results&k'&_&_&_&Hround%rounds_elem&Ht).
    intros Heq. rewrite Heq in Ht. destruct Ht as (Hc'&_&He'&_). simpl in *.
    rewrite (same_counters_budget _ _ Hc'), Hb. split; [eexists; by eapply extends_trans|].
    rewrite He', rounds_app. lia.
  - destruct (lr_retryable resp) eqn:Hretry; [|done]. simpl.
    destruct (next_failover_model failover_chain (co_model opts)) as [to|] eqn:Hf.
    + intros [= <-]. split; [eexists; eapply extends_trans; [exact He|done]|].
      destruct (next_failover_place _ _ _ Hnd Hf) as [Hp Hlt].
      unfold budget_left in *. simpl. destruct Hc as (->&->&Hfm). rewrite rounds_app. unfold rounds at 3. simpl.
      rewrite Ho in Hp. rewrite Hp in *. lia.
    + destruct (Nat.ltb_spec (ls_error_resumes s3) error_resume_budget); [|done]. intros [= <-].
      destruct (error_resume_spec resp s3) as (Ha&Hr&Hfm&k'&He'&_).
      split; [eexists; by eapply extends_trans|].
      unfold budget_left in *. rewrite Ha, Hr, Hfm, He', rounds_app. lia.
  - destruct (Nat.ltb_spec 0 auto_continue_budget); [|done]. simpl.
    destruct (Nat.ltb_spec (ls_auto_continues s3) auto_continue_budget); [|done]. intros [= <-].
    destruct (auto_continue_spec s3) as (Ha&Hr&Hfm&He').
    split; [eexists; by eapply extends_trans|].
    unfold budget_left in *. rewrite Ha, Hr, Hfm, He', rounds_app. lia.
Qed.

Lemma run_budget fuel s s' :
  NoDup failover_chain → run fuel s = (s', None) →
  fuel + rounds (ls_trace s) + budget_left s' ≤ rounds (ls_trace s') + budget_left s.
Proof.
  intros Hnd. revert s. induction fuel as [|fuel IH]; intros s; cbn [run]; [intros [= ->]; lia|].
  destruct (step s) as [s1 [r|]] eqn:Hs; [done|]. intros H%IH.
  apply step_budget in Hs as [_ Hs]; [|done]. lia.
Qed.

(** The continuations a turn can have at all. *)
Definition turn_budget : nat := auto_continue_budget + error_resume_budget + length failover_chain.

Lemma start_budget detector storage trace messages :
  budget_left (start detector storage trace messages) ≤ turn_budget.
Proof.
  unfold start. rewrite (same_counters_budget _ _ (proj1 (proj2 (checkpoint_spec _ _)))).
  unfold budget_left, turn_budget. simpl. lia.
Qed.

Lemma start_rounds detector storage messages :
  rounds (ls_trace (start detector storage [] messages)) = 0.
Proof. unfold start, checkpoint. by destruct (ac_journal cfg). Qed.

(** *** Invariants of the trace *)

(** Case analysis on an effect whose claim is decided by its constructor. *)
Ltac by_effect := let e := fresh "e" in intros e; destruct e; simpl; tauto.

(** Every effect is as [P] asks of what came before it. *)
Definition trace_ok (P : Trace → Effect → Prop) (tr : Trace) : Prop :=
  ∀ a e b, tr = a ++ e :: b → P a e.

Lemma trace_ok_app P tr k :
  trace_ok P tr → (∀ a e b, k = a ++ e :: b → P (tr ++ a) e) → trace_ok P (tr ++ k).
Proof.
  intros Htr Hk a e b Heq. apply app_eq_inv in Heq as [(l&->&Hl)|(l&->&->)]; [|by eapply Hk].
  destruct l as [|x l]; simpl in Hl.
  - subst k. specialize (Hk [] e b eq_refl). by rewrite !app_nil_r in Hk.
  - injection Hl as -> ->. by eapply Htr.
Qed.

Definition is_dispatch (e : Effect) : Prop := match e with EfDispatch _ => True | _ => False end.

(** Invariants that only a dispatched call can break. *)
Definition dispatch_only (P : Trace → Effect → Prop) : Prop := ∀ a e, ¬ is_dispatch e → P a e.

Lemma trace_ok_quiet P tr k :
  dispatch_only P → Forall (λ e, ¬ is_dispatch e) k → trace_ok P tr → trace_ok P (tr ++ k).
Proof.
  intros HP Hk Htr. apply trace_ok_app; [done|]. intros a e b ->. apply HP.
  by apply Forall_app in Hk as [_ [? _]%Forall_cons].
Qed.

Lemma generation_no_dispatch messages k :
  Forall (generation_effect messages) k → Forall (λ e, ¬ is_dispatch e) k.
Proof. intros H. eapply Forall_impl; [done|]. by_effect. Qed.

Lemma quiet_no_dispatch k : Forall quiet_effect k → Forall (λ e, ¬ is_dispatch e) k.
Proof. intros H. eapply Forall_impl; [done|]. by_effect. Qed.

Lemma journal_no_dispatch messages : Forall (λ e, ¬ is_dispatch e) (journal_effect messages).
Proof. unfold journal_effect. case_match; repeat constructor; simpl; tauto. Qed.

(** The call-level induction: an invariant of the results so far, the history and the
    trace that every call preserves, and that the message of results re-establishes. *)
Lemma tool_use_inv (I : list ContentBlock → list Message → Trace → Prop) resp s :
  (∀ u info round s round' s', I (rd_results round) (ls_messages s) (ls_trace s) →
     run_call u info (round, s) = (round', s') → I (rd_results round') (ls_messages s') (ls_trace s')) →
  (∀ results messages tr, results ≠ [] → I results messages tr →
     let messages' := messages ++ [mkMessage RoleUser results] in
     I [] messages' (tr ++ journal_effect messages')) →
  (∀ messages tr e, I [] messages tr → match e with EfRound _ | EfCheckpoint _ => True | _ => False end →
     I [] messages (tr ++ [e])) →
  I [] (ls_messages s) (ls_trace s) →
  I [] (ls_messages (tool_use resp s).1) (ls_trace (tool_use resp s).1).
Proof.
  intros Hcall Hpush Hquiet HI. destruct (baseline_spec s) as [(Hm0&_) Ht0]. unfold tool_use.
  destruct (run_calls _ _ _) as [round s1] eqn:Hrun.
  assert (H1 : I (rd_results round) (ls_messages s1) (ls_trace s1)).
  { eapply (run_calls_ind (λ r s, I (rd_results r) (ls_messages s) (ls_trace s))); [| |exact Hrun].
    - intros info r1 s2 r2 s3 Hi Hc. eapply Hcall; [exact Hi|exact Hc].
    - simpl. by rewrite Hm0, Ht0. }
  set (s2 := if bool_decide (rd_results round = []) then s1 else _).
  assert (H2 : I [] (ls_messages s2) (ls_trace s2)).
  { unfold s2. case_bool_decide as Hnil; [by rewrite Hnil in H1|].
    match goal with |- context [checkpoint ?l ?x] => destruct (checkpoint_spec l x) as (->&_&_&He) end.
    rewrite He. by apply Hpush. }
  clearbody s2. set (s3 := if ac_checkpoints cfg then _ else _).
  assert (H3 : I [] (ls_messages s3) (ls_trace s3)).
  { unfold s3. destruct (ac_checkpoints cfg); simpl; repeat (apply Hquiet; [|done]); done. }
  clearbody s3. destruct (rd_terminate round); [done|]. destruct (ls_detector s3); [|done].
  destruct (observe_round hash_set _ _) as [d' []]; done.
Qed.

(** A step preserves such an invariant when its tool round does. *)
Lemma step_trace_ok P s :
  dispatch_only P → trace_ok P (ls_trace s) →
  (∀ resp s3, same_counters s s3 → ls_messages s3 = shed_messages s ++ [mkMessage RoleAssistant (lr_content resp)] →
     (∃ k, ls_trace s3 = ls_trace s ++ k ++ journal_effect (ls_messages s3) ∧ Forall (λ e, ¬ is_dispatch e) k) →
     trace_ok P (ls_trace s3) → trace_ok P (ls_trace (tool_use resp s3).1)) →
  trace_ok P (ls_trace (step s).1).
Proof.
  intros HP Htr Htool.
  destruct (step_response s) as (resp&malformed&opts&s3&k&->&Hm&Hc&_&_&Hmal&He&Hk).
  assert (Hk' : Forall (λ e, ¬ is_dispatch e) (journal_effect (shed_messages s) ++ k)).
  { apply Forall_app. split; [apply journal_no_dispatch|by eapply generation_no_dispatch]. }
  assert (H3 : trace_ok P (ls_trace s3)).
  { rewrite He, !app_assoc, <- (app_assoc (ls_trace s)). apply trace_ok_quiet; [done| |by apply trace_ok_quiet].
    destruct malformed; [done|apply journal_no_dispatch]. }
  destruct (lr_stop_reason resp) eqn:Hstop; try done.
  - destruct malformed; [by destruct (Hmal eq_refl)|]. apply Htool; [done|done| |done].
    eexists. split; [|exact Hk']. rewrite Hm, He. unfold responded. by rewrite !app_assoc.
  - destruct (if lr_retryable resp then _ else None) as [to|].
    { simpl. apply trace_ok_quiet; [done| |done]. repeat constructor; simpl; tauto. }
    destruct (lr_retryable resp && _); [|done].
    destruct (error_resume_spec resp s3) as (_&_&_&k'&He'&Hk2). simpl. rewrite He'. apply trace_ok_quiet; [done| |done].
    apply Forall_app. split; [|apply journal_no_dispatch]. eapply Forall_impl; [done|]. by_effect.
  - destruct ((0 <? auto_continue_budget) && _); [|done].
    destruct (auto_continue_spec s3) as (_&_&_&He'). simpl. rewrite He'.
    apply trace_ok_quiet; [done|apply journal_no_dispatch|done].
Qed.

(** Whatever a step preserves holds of every state of a run. *)
Lemma run_ind (I : LoopState → Prop) fuel s :
  (∀ s, I s → I (step s).1) → I s → I (run fuel s).1.
Proof.
  intros Hstep. revert s. induction fuel as [|fuel IH]; intros s HI; cbn [run]; [done|].
  specialize (Hstep s HI) as H. destruct (step s) as [s1 [r|]]; [done|]. by apply IH.
Qed.

(** *** Hooks *)

Definition hook_first (a : Trace) (e : Effect) : Prop :=
  match e with
  | EfDispatch info => env_before env = None ∨ last a = Some (EfBefore info HookAllow)
  | _ => True
  end.

Lemma hook_first_dispatch_only : dispatch_only hook_first.
Proof. intros a. by_effect. Qed.

Lemma run_call_hook u info round s round' s' :
  trace_ok hook_first (ls_trace s) → run_call u info (round, s) = (round', s') → trace_ok hook_first (ls_trace s').
Proof.
  intros Htr (_&v&b&q&j&_&_&Hnone&He&Hj&Hq)%run_call_spec. rewrite He, !app_assoc.
  apply trace_ok_quiet; [apply hook_first_dispatch_only|by apply quiet_no_dispatch|].
  apply trace_ok_quiet; [apply hook_first_dispatch_only|apply journal_no_dispatch|].
  assert (Hb : trace_ok hook_first (ls_trace s ++ before_effect info v)).
  { apply trace_ok_quiet; [apply hook_first_dispatch_only| |done].
    unfold before_effect. case_match; repeat constructor; simpl; tauto. }
  destruct Hq as [(->&k&->&Hk)|[_ ->]]; [|by rewrite app_nil_r].
  rewrite (app_assoc _ [EfDispatch info] k : _ ++ EfDispatch info :: k = _).
  apply trace_ok_quiet; [apply hook_first_dispatch_only|by apply quiet_no_dispatch|].
  apply trace_ok_app; [done|]. intros a e c Heq. destruct a as [|x a]; [|by destruct a].
  injection Heq as <- _. rewrite app_nil_r. simpl. unfold before_effect.
  destruct (env_before env); [right|by left]. simpl. by rewrite last_snoc.
Qed.

Lemma step_hook s : trace_ok hook_first (ls_trace s) → trace_ok hook_first (ls_trace (step s).1).
Proof.
  intros Htr. apply step_trace_ok; [apply hook_first_dispatch_only|done|]. intros resp s3 _ _ _ H3.
  apply (tool_use_inv (λ _ _ tr, trace_ok hook_first tr)); [| | |done].
  - intros u info r1 s1 r2 s2 Ht Hc. by eapply run_call_hook.
  - intros results messages tr _ Ht. apply trace_ok_quiet; [apply hook_first_dispatch_only|apply journal_no_dispatch|done].
  - intros messages tr e Ht He. apply trace_ok_quiet; [apply hook_first_dispatch_only| |done].
    repeat constructor. destruct e; simpl in *; tauto.
Qed.

(** *** The journal *)

Definition journaled_messages (e : Effect) : option (list Message) :=
  match e with EfJournal m => Some m | _ => None end.

Definition last_journal (tr : Trace) : option (list Message) := last (omap journaled_messages tr).

Lemma last_journal_app tr k :
  last_journal (tr ++ k) = match last_journal k with Some m => Some m | None => last_journal tr end.
Proof. unfold last_journal. rewrite omap_app, last_app. done. Qed.

Lemma last_journal_quiet tr k :
  Forall (λ e, journaled_messages e = None) k → last_journal (tr ++ k) = last_journal tr.
Proof.
  intros H. rewrite last_journal_app. replace (last_journal k) with (@None (list Message)); [done|].
  unfold last_journal. induction H as [|e k He _ IH]; [done|]. csimpl. by rewrite He.
Qed.

Lemma last_journal_effect tr m : ac_journal cfg = true → last_journal (tr ++ journal_effect m) = Some m.
Proof. intros H. unfold journal_effect. rewrite H, last_journal_app. done. Qed.

(** Every call that ran has its result in [messages]. *)
Definition ran_answered (tr : Trace) (messages : list Message) : Prop :=
  ∀ info, EfDispatch info ∈ tr → tc_id info ∈ answered messages.

Lemma ran_answered_mono tr k m m' :
  ran_answered tr m → (∀ id, id ∈ answered m → id ∈ answered m') → Forall (λ e, ¬ is_dispatch e) k →
  ran_answered (tr ++ k) m'.
Proof.
  intros H Hm Hk info [Hin|Hin]%elem_of_app; [by apply Hm, H|].
  rewrite Forall_forall in Hk. by destruct (Hk _ Hin).
Qed.

(** When a call is dispatched, the results of all earlier ones are journaled. *)
Definition journal_first (a : Trace) (e : Effect) : Prop :=
  match e with
  | EfDispatch _ => ac_journal cfg = true → ∃ m, last_journal a = Some m ∧ ran_answered a m
  | _ => True
  end.

Lemma journal_first_dispatch_only : dispatch_only journal_first.
Proof. intros a. by_effect. Qed.

(** The invariant, with the results of the current round. *)
Definition journal_inv (results : list ContentBlock) (messages : list Message) (tr : Trace) : Prop :=
  ac_journal cfg = true →
  ran_answered tr (messages ++ round_message results) ∧
  (∃ m, last_journal tr = Some m ∧ ran_answered tr m) ∧ trace_ok journal_first tr.

Lemma round_message_answered results id :
  id ∈ answered (round_message results) ↔ id ∈ omap block_result_id results.
Proof.
  unfold round_message. case_bool_decide as H; [by rewrite H|]. unfold answered, result_ids. simpl. by rewrite app_nil_r.
Qed.

Lemma elem_answered_app id l k : id ∈ answered (l ++ k) ↔ id ∈ answered l ∨ id ∈ answered k.
Proof. by rewrite answered_app, elem_of_app. Qed.

(** The messages journaled at a boundary have every result so far. *)
Lemma journal_inv_checkpoint tr k m m' :
  ran_answered tr m → (∀ id, id ∈ answered m → id ∈ answered m') → trace_ok journal_first tr →
  Forall (λ e, ¬ is_dispatch e) k → journal_inv [] m' (tr ++ k ++ journal_effect m').
Proof.
  intros Hran Hm Htr Hk Hj.
  assert (Hall : ran_answered (tr ++ k ++ journal_effect m') m').
  { eapply ran_answered_mono; [done|done|]. apply Forall_app. split; [done|apply journal_no_dispatch]. }
  split_and!.
  - by rewrite app_nil_r.
  - exists m'. split; [by rewrite app_assoc, last_journal_effect|done].
  - apply trace_ok_quiet; [apply journal_first_dispatch_only| |done].
    apply Forall_app. split; [done|apply journal_no_dispatch].
Qed.

Lemma run_call_journal u info round s round' s' :
  journal_inv (rd_results round) (ls_messages s) (ls_trace s) → run_call u info (round, s) = (round', s') →
  journal_inv (rd_results round') (ls_messages s') (ls_trace s').
Proof.
  intros HI ((Hm&_)&v&b&q&j&Hr&Hb&_&He&Hj&Hq)%run_call_spec Hjournal.
  destruct (HI Hjournal) as (Hran&(m&Hlast&Hrm)&Htr).
  unfold extends in He. rewrite Hm, He.
  assert (Hnil : rd_results round' ≠ []) by (rewrite Hr; by destruct (rd_results round)).
  assert (Hmono : ∀ id, id ∈ answered (ls_messages s ++ round_message (rd_results round)) →
    id ∈ answered (ls_messages s ++ round_message (rd_results round'))).
  { intros id. rewrite !elem_answered_app, !round_message_answered, Hr, omap_app. set_solver. }
  assert (Hnew : tc_id info ∈ answered (ls_messages s ++ round_message (rd_results round'))).
  { rewrite elem_answered_app, round_message_answered, Hr, omap_app. right. apply elem_of_app. right.
    csimpl. rewrite Hb. by left. }
  set (pre := before_effect info v) in *.
  assert (Hpre : Forall (λ e, ¬ is_dispatch e) pre)
    by (unfold pre, before_effect; case_match; repeat constructor; simpl; tauto).
  assert (Hprej : Forall (λ e, journaled_messages e = None) pre)
    by (unfold pre, before_effect; case_match; repeat constructor).
  assert (Hround : round_message (rd_results round') = [mkMessage RoleUser (rd_results round')])
    by (unfold round_message; by rewrite bool_decide_false).
  rewrite <- Hround in *.
  assert (Hq' : ran_answered (ls_trace s ++ pre ++ q) (ls_messages s ++ round_message (rd_results round')) ∧
    trace_ok journal_first (ls_trace s ++ pre ++ q)).
  { assert (Htrp : trace_ok journal_first (ls_trace s ++ pre))
      by (apply trace_ok_quiet; [apply journal_first_dispatch_only|done..]).
    destruct Hq as [(->&k&->&Hk)|[_ ->]].
    - split.
      + intros i [Hi|[Hi|[[= ->]|Hi]%elem_of_cons]%elem_of_app]%elem_of_app; [by apply Hmono, Hran| |done|].
        * rewrite Forall_forall in Hpre. by destruct (Hpre _ Hi).
        * apply quiet_no_dispatch in Hk. rewrite Forall_forall in Hk. by destruct (Hk _ Hi).
      + rewrite app_assoc, (app_assoc _ [EfDispatch info] k : _ ++ EfDispatch info :: k = _).
        apply trace_ok_quiet; [apply journal_first_dispatch_only|by apply quiet_no_dispatch|].
        apply trace_ok_app; [done|]. intros a e c Heq. destruct a as [|x a]; [|by destruct a].
        injection Heq as <- _. rewrite app_nil_r. intros _. exists m. split; [by rewrite last_journal_quiet|].
        eapply ran_answered_mono; [exact Hrm|done|done].
    - rewrite app_nil_r. split; [eapply ran_answered_mono; [exact Hran|exact Hmono|done]|done]. }
  destruct Hq' as [Hran' Htr'].
  set (ms := ls_messages s ++ round_message (rd_results round')) in *.
  assert (Hend : Forall (λ e, ¬ is_dispatch e) (journal_effect ms ++ j))
    by (apply Forall_app; split; [apply journal_no_dispatch|by apply quiet_no_dispatch]).
  replace (ls_trace s ++ pre ++ q ++ journal_effect ms ++ j)
    with ((ls_trace s ++ pre ++ q) ++ journal_effect ms ++ j) by by rewrite !app_assoc.
  split_and!; [eapply ran_answered_mono; [exact Hran'|done|done]| |
    apply trace_ok_quiet; [apply journal_first_dispatch_only|done..]].
  exists ms. split; [|eapply ran_answered_mono; [exact Hran'|done|done]].
  rewrite app_assoc, last_journal_quiet, last_journal_effect; [done..|].
  eapply Forall_impl; [exact Hj|]. intros []; simpl; try done; tauto.
Qed.

Lemma shed_answered s : answered (shed_messages s) = answered (ls_messages s).
Proof. destruct (shed_related s) as (?&?&?&H). by eapply compacted_answered. Qed.

Lemma answered_sublist l k id : l `sublist_of` k → id ∈ answered l → id ∈ answered k.
Proof.
  intros Hs. rewrite !elem_of_answered. intros (m&Hm&Hid). exists m. split; [|done].
  by eapply elem_of_sublist.
Qed.

Lemma close_keeps_answers l id : id ∈ answered l → id ∈ answered (close_orphan_tool_calls l).
Proof. apply answered_sublist, close_sublist. Qed.

Lemma resumed_keeps_answers l id : id ∈ answered l → id ∈ answered (resumed_messages l).
Proof.
  intros Hid. unfold resumed_messages.
  match goal with |- context [close_orphan_tool_calls ?x] => set (l' := x) end.
  assert (Hid' : id ∈ answered l').
  { unfold l'. destruct (last l) as [m|] eqn:Hl; [|done].
    destruct (bool_decide (msg_role m = RoleAssistant) && bool_decide (msg_content m = [])) eqn:He; [|done].
    apply andb_true_iff in He as [_ He%bool_decide_eq_true]. apply last_Some in Hl as [k ->].
    rewrite length_app, Nat.add_sub, take_app_length. apply elem_answered_app in Hid as [?|Hid]; [done|].
    unfold answered, result_ids in Hid. simpl in Hid. rewrite He in Hid. set_solver. }
  apply close_keeps_answers in Hid'. destruct (_ && _); [|done]. apply elem_answered_app. by left.
Qed.

Lemma journal_inv_quiet m tr k :
  journal_inv [] m tr → Forall (λ e, ¬ is_dispatch e) k → Forall (λ e, journaled_messages e = None) k →
  journal_inv [] m (tr ++ k).
Proof.
  intros HI Hk Hkj Hj. destruct (HI Hj) as (Hran&(m'&Hl&Hm')&Htr). split_and!.
  - eapply ran_answered_mono; [exact Hran|done|done].
  - exists m'. split; [by rewrite last_journal_quiet|]. eapply ran_answered_mono; [exact Hm'|done|done].
  - by apply trace_ok_quiet; [apply journal_first_dispatch_only|..].
Qed.

(** The history is extended or replaced by one with the same answers, and journaled. *)
Lemma journal_inv_push m m' tr k :
  journal_inv [] m tr → (∀ id, id ∈ answered m → id ∈ answered m') → Forall (λ e, ¬ is_dispatch e) k →
  journal_inv [] m' (tr ++ k ++ journal_effect m').
Proof.
  intros HI Hm Hk Hj. destruct (HI Hj) as (Hran&_&Htr). rewrite app_nil_r in Hran.
  by eapply journal_inv_checkpoint.
Qed.

Lemma tool_use_journal resp s :
  journal_inv [] (ls_messages s) (ls_trace s) →
  journal_inv [] (ls_messages (tool_use resp s).1) (ls_trace (tool_use resp s).1).
Proof.
  apply tool_use_inv.
  - intros. by eapply run_call_journal.
  - intros results messages tr Hne HI messages' Hj. destruct (HI Hj) as (Hran&_&Htr).
    assert (Heq : messages ++ round_message results = messages')
      by (unfold round_message; by rewrite bool_decide_false).
    rewrite Heq in Hran.
    by apply (journal_inv_checkpoint tr [] messages' messages' Hran (λ _ H, H) Htr (List.Forall_nil _) Hj).
  - intros messages tr e HI He. apply journal_inv_quiet; [done|..]; repeat constructor; destruct e; simpl in *; tauto.
Qed.

Lemma step_journal s :
  journal_inv [] (ls_messages s) (ls_trace s) →
  journal_inv [] (ls_messages (step s).1) (ls_trace (step s).1).
Proof.
  intros HI. destruct (step_response s) as (resp&malformed&opts&s3&k&->&Hm&_&_&_&Hmal&He&Hk).
  pose proof (generation_no_dispatch _ _ Hk) as Hk1.
  assert (Hk2 : Forall (λ e, journaled_messages e = None) k) by (eapply Forall_impl; [exact Hk|]; by intros []).
  apply (journal_inv_push _ (shed_messages s) _ []) in HI; [|by intros id; rewrite shed_answered|done].
  cbn [app] in HI. apply (journal_inv_quiet _ _ k) in HI; [|done..].
  unfold extends in He. rewrite !app_assoc in He.
  assert (H3 : journal_inv [] (ls_messages s3) (ls_trace s3)).
  { rewrite Hm, He. unfold responded. destruct malformed; [by rewrite app_nil_r|].
    apply (journal_inv_push _ _ _ [] HI); [|done]. intros id ?. apply elem_answered_app. by left. }
  clear HI. destruct (lr_stop_reason resp); try done.
  - by apply tool_use_journal.
  - destruct (if lr_retryable resp then _ else None) as [to|].
    { apply journal_inv_quiet; [done|..]; repeat constructor; simpl; tauto. }
    destruct (lr_retryable resp && _); [|done]. simpl.
    destruct (error_resume_spec resp s3) as (_&_&_&k'&He'&Hk'). unfold extends in He'. rewrite He'.
    eapply journal_inv_push; [exact H3| |eapply Forall_impl; [exact Hk'|]; by_effect].
    intros id Hid. unfold error_resume.
    match goal with |- context [checkpoint ?l ?x] => destruct (checkpoint_spec l x) as (->&_) end.
    by apply resumed_keeps_answers.
  - destruct ((0 <? auto_continue_budget) && _); [|done]. simpl.
    destruct (auto_continue_spec s3) as (_&_&_&He'). unfold extends in He'. rewrite He'.
    apply (journal_inv_push _ _ _ [] H3); [|done]. intros id Hid%close_keeps_answers. unfold auto_continue.
    match goal with |- context [checkpoint ?l ?x] => destruct (checkpoint_spec l x) as (->&_) end. simpl.
    destruct (negb _); [apply elem_answered_app; by left|done].
Qed.

(** *** What providers accept *)

(** Every call is answered, only the assistant calls, and the user spoke last. *)
Definition history_ok (l : list Message) : Prop :=
  paired l = true ∧ calls_by_assistant l ∧ ∃ m, last l = Some m ∧ msg_role m = RoleUser.

(** What a provider's reply never does: it holds no tool results, and it names its
    calls afresh. *)
Definition env_replies : Prop :=
  ∀ t ctx o, let content := lr_content (env_stream env t ctx o).1 in
    omap block_result_id content = [] ∧
    ∀ id, id ∈ omap block_call_id content → id ∉ answered (cx_messages ctx).

Lemma reply_content messages resp :
  env_replies → reply_to messages resp →
  omap block_result_id (lr_content resp) = [] ∧
  ∀ id, id ∈ omap block_call_id (lr_content resp) → id ∉ answered messages.
Proof.
  intros Henv (t&ctx&o&Hctx&Hc&_). destruct (Henv t ctx o) as [H1 H2]. rewrite Hctx in H2.
  rewrite Hc. unfold validate_response_shape. case_match; [split; [done|set_solver]|done].
Qed.

Lemma calls_by_assistant_app l k : calls_by_assistant (l ++ k) ↔ calls_by_assistant l ∧ calls_by_assistant k.
Proof. unfold calls_by_assistant. apply Forall_app. Qed.

Section response.
Context (l : list Message) (content : list ContentBlock).
Hypothesis (Hl : history_ok l).
Hypothesis (Hres : omap block_result_id content = []).
Hypothesis (Hfresh : ∀ id, id ∈ omap block_call_id content → id ∉ answered l).
Let m := mkMessage RoleAssistant content.

Lemma response_answered : answered (l ++ [m]) = answered l.
Proof. rewrite answered_app. unfold answered at 2, result_ids. simpl. by rewrite Hres, app_nil_r. Qed.

Lemma response_calls : call_ids m = omap block_call_id content.
Proof. done. Qed.

Lemma response_by_assistant : calls_by_assistant (l ++ [m]).
Proof. apply calls_by_assistant_app. split; [apply Hl|]. by repeat constructor. Qed.

Lemma response_orphans : has_orphan_tool_calls (l ++ [m]) = negb (bool_decide (omap block_call_id content = [])).
Proof.
  case_bool_decide as Hnil; simpl.
  - apply has_orphan_false; [apply response_by_assistant|]. rewrite response_answered.
    intros x id [Hx| ->%list_elem_of_singleton]%elem_of_app Hid; [|rewrite response_calls, Hnil in Hid; set_solver].
    by eapply paired_answered; [apply Hl|..].
  - destruct (has_orphan_tool_calls (l ++ [m])) eqn:E; [done|]. exfalso.
    rewrite has_orphan_false in E by apply response_by_assistant. rewrite response_answered in E.
    destruct (omap block_call_id content) as [|id ids] eqn:Hids; [done|].
    apply (Hfresh id); [by left|]. apply (E m id); [apply elem_of_app; right; by left|].
    rewrite response_calls, Hids. by left.
Qed.

Lemma response_close :
  close_orphan_tool_calls (l ++ [m]) =
  l ++ [m] ++ (if bool_decide (omap block_call_id content = []) then []
               else [mkMessage RoleUser (map interrupted_result (omap block_call_id content))]).
Proof.
  rewrite close_repair, response_answered, repair_app. f_equal.
  { apply repair_nothing. intros x id Hx Hid. by eapply paired_answered; [apply Hl|..]. }
  assert (Ho : orphan_ids (answered l) m = omap block_call_id content).
  { unfold orphan_ids. rewrite response_calls. apply List.forallb_filter_id, forallb_forall.
    intros id Hid%list_elem_of_In. apply negb_true_iff, bool_decide_eq_false. auto. }
  simpl. rewrite Ho. repeat case_bool_decide; done.
Qed.

(** Closing the response, with the nudge when it has no calls, is valid again. *)
Lemma continued_ok nudge :
  history_ok (close_orphan_tool_calls (l ++ [m]) ++
    if bool_decide (omap block_call_id content = []) then [message_user nudge] else []).
Proof.
  split_and!.
  - rewrite paired_app; [by case_bool_decide|]. apply close_paired. rewrite response_answered.
    apply open_response; [apply Hl|]. exact Hfresh.
  - rewrite response_close, <- !app_assoc. rewrite !calls_by_assistant_app. split; [apply Hl|]. split; [by repeat constructor|].
    case_bool_decide; [by repeat constructor|]. rewrite ?app_nil_r. repeat constructor. intros _. simpl.
    generalize (omap block_call_id content) as ids. by induction ids.
  - rewrite response_close. case_bool_decide; eexists; rewrite !app_assoc, ?app_nil_r, last_snoc; done.
Qed.

(** A message of results that answers every call of the response. *)
Lemma round_ok results :
  forallb is_tool_result results = true → omap block_result_id results = omap block_call_id content →
  omap block_call_id content ≠ [] → history_ok ((l ++ [m]) ++ round_message results).
Proof.
  intros Hr Hids Hne.
  assert (Hn : results ≠ []) by (intros ->; by rewrite <- Hids in Hne).
  unfold round_message. rewrite bool_decide_false by done. rewrite <- app_assoc. simpl.
  assert (Hnc : omap block_call_id results = []).
  { clear -Hr. induction results as [|b results IH]; [done|]. simpl in Hr.
    apply andb_true_iff in Hr as [Hb Hr]. csimpl. rewrite IH by done. by destruct b. }
  split_and!.
  - rewrite paired_app by apply Hl. simpl. apply andb_true_iff. split; [|done].
    apply orb_true_iff. right. unfold answers, is_result_message. simpl. rewrite Hr.
    rewrite bool_decide_false by (by intros ?%nil_length_inv). simpl.
    apply forallb_forall. intros id Hid%list_elem_of_In. apply bool_decide_eq_true.
    unfold result_ids. simpl. by rewrite Hids.
  - apply calls_by_assistant_app. split; [apply Hl|]. by repeat constructor.
  - eexists. rewrite (app_assoc l [m] [_] : l ++ [m; _] = _), last_snoc. done.
Qed.

(** The history an interrupted response is resumed from. *)
Lemma resumed_ok : history_ok (resumed_messages (l ++ [m])).
Proof.
  unfold resumed_messages. rewrite last_snoc. simpl.
  case_bool_decide as Hnil.
  - rewrite length_app, Nat.add_sub, take_app_length. rewrite close_fix by (intros x id; apply paired_answered, Hl).
    destruct Hl as (?&?&x&Hx&Hr). rewrite Hx, Hr, andb_false_r. split_and!; eauto.
  - rewrite response_orphans, negb_involutive. pose proof (continued_ok ERROR_RESUME_NUDGE) as Hc.
    rewrite response_close in *. case_bool_decide as Hcalls; [|by rewrite app_nil_r in Hc].
    rewrite app_nil_r, last_snoc. simpl. by rewrite app_nil_r in Hc.
Qed.
End response.

Lemma shed_ok s : history_ok (ls_messages s) → history_ok (shed_messages s).
Proof.
  destruct (shed_related s) as (files&recent&prot&H). intros (Hp&Hc&m&Hm&Hr). split_and!.
  - by rewrite (compacted_paired _ _ _ _ _ _ _ H).
  - unfold calls_by_assistant in *. clear -H Hc. induction H as [|x x' xs xs' Hx _ IH]; [constructor|].
    apply Forall_cons in Hc as [Hc0 Hc]. constructor; [|by apply IH]. intros Hrole.
    rewrite <- (compacted_calls _ _ _ _ _ _ _ Hx). apply Hc0. destruct Hx as [-> _]. done.
  - apply last_Some in Hm as [k Hk]. rewrite Hk in H. apply Forall2_app_inv_l in H as (k1&k2&_&Hlast&->).
    inversion Hlast as [|? y ? ? [Hy _] Hn]; subst. inversion Hn; subst. exists y. rewrite last_snoc.
    split; [done|congruence].
Qed.

Definition stream_ok (e : Effect) : Prop :=
  match e with EfStream ctx _ => history_ok (cx_messages ctx) | _ => True end.

Lemma journal_stream_ok m : Forall stream_ok (journal_effect m).
Proof. unfold journal_effect. case_match; by repeat constructor. Qed.

Lemma quiet_stream_ok k : Forall quiet_effect k → Forall stream_ok k.
Proof. intros H. eapply Forall_impl; [exact H|]. by_effect. Qed.

Lemma tool_use_streams resp s : Forall stream_ok (ls_trace s) → Forall stream_ok (ls_trace (tool_use resp s).1).
Proof.
  apply (tool_use_inv (λ _ _ tr, Forall stream_ok tr)).
  - intros u info r1 s1 r2 s2 Ht (_&v&b&q&j&_&_&_&He&Hj&Hq)%run_call_spec. rewrite He, !Forall_app.
    split_and!; [done| | |apply journal_stream_ok|by apply quiet_stream_ok].
    + unfold before_effect. case_match; by repeat constructor.
    + destruct Hq as [(_&k&->&Hk)|[_ ->]]; [|done]. constructor; [done|by apply quiet_stream_ok].
  - intros results ms tr _ Ht. apply Forall_app. split; [done|apply journal_stream_ok].
  - intros ms tr e Ht He. apply Forall_app. split; [done|]. repeat constructor. destruct e; simpl in *; tauto.
Qed.

Lemma step_history s :
  env_replies → (∀ m, next_failover_model failover_chain m = None) →
  history_ok (ls_messages s) → Forall stream_ok (ls_trace s) →
  let '(s', r) := step s in
  Forall stream_ok (ls_trace s') ∧
  match r with Some r => paired (ar_messages r) = true | None => history_ok (ls_messages s') end.
Proof.
  intros Henv Hchain Hok Htr. apply shed_ok in Hok.
  destruct (step_response s) as (resp&malformed&opts&s3&k&->&Hm&_&_&Hreply&Hmal&He&Hk).
  destruct (reply_content _ _ Henv Hreply) as [Hres Hfresh].
  assert (H3 : Forall stream_ok (ls_trace s3)).
  { rewrite He, !Forall_app. split_and!; [done|apply journal_stream_ok| |destruct malformed; [done|apply journal_stream_ok]].
    eapply Forall_impl; [exact Hk|]. intros []; simpl; try done. by intros ->. }
  pose proof (continued_ok _ _ Hok Hres Hfresh) as Hcont.
  assert (Hterm : paired (ar_messages (terminal resp s3)) = true).
  { simpl. rewrite Hm. unfold responded. destruct malformed.
    - rewrite close_fix; [apply Hok|]. intros m id. apply paired_answered, Hok.
    - apply close_paired. rewrite response_answered by done. apply open_response; [apply Hok|exact Hfresh]. }
  assert (Hresp : malformed = false → ls_messages s3 = shed_messages s ++ [mkMessage RoleAssistant (lr_content resp)])
    by (intros ->; done).
  destruct (lr_stop_reason resp) eqn:Hstop; try by split.
  - destruct malformed; [by destruct (Hmal eq_refl)|]. specialize (Hresp eq_refl).
    pose proof (tool_use_streams resp s3 H3) as Hst.
    destruct (tool_use_spec resp s3) as (results&k'&Hr&Hids&_&_&_&Hm'&_&Hab).
    destruct (tool_use resp s3) as [s4 r]. simpl in *. split; [done|].
    assert (Hok4 : history_ok (ls_messages s4)).
    { rewrite Hm', Hresp. apply round_ok; try done.
      destruct Hreply as (t&ctx&o&_&Hcont'&Hstop'&_). rewrite Hstop in Hstop'. symmetry in Hstop'.
      apply validated_tool_use in Hstop' as [Heq ?]. by rewrite Hcont', Heq. }
    destruct r; [destruct Hab as [-> _]; apply Hok4|done].
  - rewrite Hchain. replace (if lr_retryable resp then None else None) with (@None string) by by destruct (lr_retryable resp).
    destruct (lr_retryable resp) eqn:Hretry; [|by split]. simpl. destruct (_ <? _); [|by split].
    destruct malformed; [by destruct (Hmal eq_refl)|]. specialize (Hresp eq_refl).
    destruct (error_resume_spec resp s3) as (_&_&_&k'&He'&Hk'). split.
    { rewrite He', !Forall_app. split_and!; [done| |apply journal_stream_ok].
      eapply Forall_impl; [exact Hk'|]. by_effect. }
    unfold error_resume. match goal with |- context [checkpoint ?l ?x] => destruct (checkpoint_spec l x) as (->&_) end.
    simpl. rewrite Hresp. by apply resumed_ok.
  - destruct ((0 <? auto_continue_budget) && _); [|by split].
    destruct malformed; [by destruct (Hmal eq_refl)|]. specialize (Hresp eq_refl).
    destruct (auto_continue_spec s3) as (_&_&_&He'). split.
    { rewrite He', Forall_app. split; [done|apply journal_stream_ok]. }
    unfold auto_continue. match goal with |- context [checkpoint ?l ?x] => destruct (checkpoint_spec l x) as (->&_) end.
    simpl. rewrite Hresp, response_orphans, negb_involutive by done.
    specialize (Hcont AUTO_CONTINUE_NUDGE). case_bool_decide; [done|]. by rewrite app_nil_r in Hcont.
Qed.

Lemma start_spec detector storage messages :
  ls_messages (start detector storage [] messages) = messages ∧
  ls_trace (start detector storage [] messages) = journal_effect messages.
Proof.
  unfold start. match goal with |- context [checkpoint ?l ?x] => destruct (checkpoint_spec l x) as (->&_&_&->) end. done.
Qed.

(** A generation that fails with a transient error, when there is a next model. *)
Lemma failing_step (s : LoopState) (to : string) :
  (∀ t ctx o, lr_stop_reason (env_stream env t ctx o).1 = Error_ ∧ lr_retryable (env_stream env t ctx o).1 = true) →
  next_failover_model failover_chain (default (co_model (ac_opts cfg)) (ls_failover_model s)) = Some to →
  ∃ content,
    (step s).2 = None ∧ ls_failover_model (step s).1 = Some to ∧
    ls_messages (step s).1 = shed_messages s ++ [mkMessage RoleAssistant content].
Proof.
  intros Hfail Hnext.
  destruct (step_response s) as (resp&malformed&opts&s3&k&->&Hm&_&Ho&(t&ctx&o&_&Hc&Hs&Hr)&Hmal&_).
  assert (Hv : validate_response_shape (env_stream env t ctx o).1 = (env_stream env t ctx o).1).
  { unfold validate_response_shape, tool_use_missing_structured_call. by rewrite (proj1 (Hfail t ctx o)). }
  rewrite Hv in *. destruct (Hfail t ctx o) as [Hs' Hr']. rewrite Hs' in Hs. rewrite Hr' in Hr.
  rewrite Hs, Hr, Ho, Hnext. destruct malformed; [destruct (Hmal eq_refl); congruence|].
  exists (lr_content resp). simpl. by rewrite Hm.
Qed.

(** ** Theorems *)

(** C14: a turn ends unless the model keeps calling tools, for a failover chain that lists no
    model twice (the configuration does not ensure it, see [repeated_model_never_ends]): with
    [k] tool rounds at most, the loop returns a result within [k] rounds and one generation
    for each configured continuation, resumption and failover, plus the final one. *)
Theorem turn_terminates (detector : option LoopDetector) (storage : Storage) (messages : list Message) (k : nat)
    (Hchain : NoDup failover_chain)
    (Hrounds : ∀ fuel s, run fuel (start detector storage [] messages) = (s, None) → rounds (ls_trace s) ≤ k) :
  ∃ s r, run (S (k + turn_budget)) (start detector storage [] messages) = (s, Some r).
Proof.
  set (s0 := start detector storage [] messages).
  destruct (run (S (k + turn_budget)) s0) as [s [r|]] eqn:Hrun; [by eauto|]. exfalso.
  pose proof (Hrounds _ _ Hrun) as Hk. apply run_budget in Hrun; [|done].
  pose proof (start_budget detector storage [] messages) as Hb. fold s0 in Hb.
  pose proof (start_rounds detector storage messages) as H0. fold s0 in H0. lia.
Qed.

(** C6: every request of a turn is one the providers accept: each history that is sent
    has an answer right after every message with tool calls and ends with the user,
    never with an assistant message the model would be asked to continue; and the
    history a turn leaves has no open call.  This holds through tool rounds,
    truncated answers that are continued, interrupted ones that are resumed and the
    shedding of old context, for providers that name their calls afresh and a
    configuration without failover. *)
Theorem requests_are_valid (detector : option LoopDetector) (storage : Storage) (messages : list Message) (fuel : nat)
    (Hmessages : history_ok messages) (Henv : env_replies)
    (Hchain : ∀ m, next_failover_model failover_chain m = None) :
  let '(s, r) := run fuel (start detector storage [] messages) in
  (∀ ctx opts, EfStream ctx opts ∈ ls_trace s → history_ok (cx_messages ctx)) ∧
  match r with Some r => paired (ar_messages r) = true | None => history_ok (ls_messages s) end.
Proof.
  destruct (start_spec detector storage messages) as [Hm Ht].
  assert (Hgen : ∀ s, history_ok (ls_messages s) → Forall stream_ok (ls_trace s) →
    let '(s', r) := run fuel s in
    Forall stream_ok (ls_trace s') ∧
    match r with Some r => paired (ar_messages r) = true | None => history_ok (ls_messages s') end).
  { induction fuel as [|fuel IH]; intros s Hok Hs; cbn [run]; [done|].
    pose proof (step_history s Henv Hchain Hok Hs) as H. destruct (step s) as [s1 [r|]]; [done|].
    destruct H as [H1 H2]. by apply IH. }
  specialize (Hgen (start detector storage [] messages)). rewrite Hm, Ht in Hgen.
  specialize (Hgen Hmessages (journal_stream_ok _)).
  destruct (run fuel _) as [s r]. destruct Hgen as [Hs Hr]. split; [|done].
  intros ctx opts Hin. rewrite Forall_forall in Hs. apply (Hs _ Hin).
Qed.

(** C7: with a hook configured, no tool runs that the hook did not allow: whatever the
    provider answers and however often the turn continues, each dispatched call is
    immediately preceded by the hook's answer "allow" for that very call. *)
Theorem hook_allows_every_dispatch (detector : option LoopDetector) (storage : Storage) (messages : list Message)
    (fuel : nat) (before after : Trace) (info : ToolCallInfo)
    (Htrace : ls_trace (run fuel (start detector storage [] messages)).1 = before ++ EfDispatch info :: after)
    (Hhook : env_before env ≠ None) :
  last before = Some (EfBefore info HookAllow).
Proof.
  assert (H : trace_ok hook_first (ls_trace (run fuel (start detector storage [] messages)).1)).
  { apply (run_ind (λ s, trace_ok hook_first (ls_trace s))); [apply step_hook|].
    destruct (start_spec detector storage messages) as [_ ->].
    apply (trace_ok_quiet _ []); [apply hook_first_dispatch_only|apply journal_no_dispatch|]. by intros []. }
  by destruct (H _ _ _ Htrace).
Qed.

(** C8: a cancellation loses no completed work: whenever a tool is about to run in a turn
    that keeps a journal, the newest journaled history already has the result of every
    call that ran before it, so what a cancelled turn is restored from forgets at most
    the call that was running. *)
Theorem results_journaled_before_next_call (detector : option LoopDetector) (storage : Storage)
    (messages : list Message) (fuel : nat) (before after : Trace) (next info : ToolCallInfo)
    (Hjournal : ac_journal cfg = true)
    (Htrace : ls_trace (run fuel (start detector storage [] messages)).1 = before ++ EfDispatch next :: after)
    (Hran : EfDispatch info ∈ before) :
  ∃ journaled, last_journal before = Some journaled ∧ tc_id info ∈ answered journaled.
Proof.
  assert (H : journal_inv [] (ls_messages (run fuel (start detector storage [] messages)).1)
                (ls_trace (run fuel (start detector storage [] messages)).1)).
  { apply (run_ind (λ s, journal_inv [] (ls_messages s) (ls_trace s))); [apply step_journal|].
    destruct (start_spec detector storage messages) as [-> ->].
    apply (journal_inv_checkpoint [] [] messages messages); [intros ?; set_solver|done|by intros []|done]. }
  destruct (H Hjournal) as (_&_&Htr). destruct (Htr _ _ _ Htrace Hjournal) as (m&Hm&Hall).
  exists m. split; [done|]. by apply Hall.
Qed.

(** failing over keeps the failed attempt in the history: the next model is asked to
    continue a conversation that ends with the assistant message of the attempt that
    just failed, with its open calls and even when it is empty, which is what the
    resumption of the same kind of failure takes out. *)
Theorem failover_sends_failed_attempt (s : LoopState) (to : string)
    (Hfail : ∀ t ctx o, lr_stop_reason (env_stream env t ctx o).1 = Error_ ∧ lr_retryable (env_stream env t ctx o).1 = true)
    (Hnext : next_failover_model failover_chain (default (co_model (ac_opts cfg)) (ls_failover_model s)) = Some to) :
  ∃ content,
    (step s).2 = None ∧ ls_failover_model (step s).1 = Some to ∧
    ls_messages (step s).1 = shed_messages s ++ [mkMessage RoleAssistant content] ∧
    ¬ history_ok (ls_messages (step s).1).
Proof.
  destruct (failing_step s to Hfail Hnext) as (content&H1&H2&H3). exists content. split_and!; try done.
  rewrite H3. intros (_&_&m&Hlast&Hrole). rewrite last_snoc in Hlast. by simplify_eq/=.
Qed.

(** When the chain leads from every model it reaches to a next one, which it does when it lists
    a model twice, and every generation fails with a transient error, the turn never ends:
    it goes around the chain for ever. *)
Theorem repeated_model_never_ends (detector : option LoopDetector) (storage : Storage) (messages : list Message)
    (cycle : list string)
    (Hfail : ∀ t ctx o, lr_stop_reason (env_stream env t ctx o).1 = Error_ ∧ lr_retryable (env_stream env t ctx o).1 = true)
    (Hfirst : co_model (ac_opts cfg) ∈ cycle)
    (Hcycle : ∀ m, m ∈ cycle → ∃ to, next_failover_model failover_chain m = Some to ∧ to ∈ cycle) :
  ∀ fuel, (run fuel (start detector storage [] messages)).2 = None.
Proof.
  assert (∀ fuel s, default (co_model (ac_opts cfg)) (ls_failover_model s) ∈ cycle → (run fuel s).2 = None) as Hrun.
  { induction fuel as [|fuel IH]; intros s Hs; [done|]. destruct (Hcycle _ Hs) as (to&Hnext&Hto).
    destruct (failing_step s to Hfail Hnext) as (content&H1&H2&_). cbn [run].
    destruct (step s) as [s' r]. simpl in H1, H2. subst r. apply IH. by rewrite H2. }
  intros fuel. apply Hrun. unfold start.
  match goal with |- context [checkpoint ?l ?x] => destruct (checkpoint_spec l x) as (_&(_&_&->)&_) end. done.
Qed.
End agent_loop.

(** ** A provider and its tools *)

(** One tool, a provider that calls it once and then answers, and a failing one. *)
Definition sample_opts (model : string) : CompleteOpts := mkOpts model DEFAULT_MAX_TOKENS Medium None.

Definition sample_agent (chain : list string) : AgentConfig :=
  mkAgentConfig (Some "be brief") [] (sample_opts "a") None None (mkRetryConfig 1 0 chain) None None false true
    sample_config false.

Definition calls_then_answers (t : Trace) (ctx : LlmContext) (o : CompleteOpts) : LlmResponse * Z :=
  (if bool_decide (answered (cx_messages ctx) = [])
   then mkResponse [CbToolCall "c1" "ls" JNull; CbToolCall "c2" "pwd" JNull] ToolUse None false false usage_default
   else mkResponse [CbText "done"] EndTurn None false false usage_default, 0%Z).

Definition always_overloaded (t : Trace) (ctx : LlmContext) (o : CompleteOpts) : LlmResponse * Z :=
  (retryable_error "overloaded", 0%Z).

Definition sample_environment (stream : Trace → LlmContext → CompleteOpts → LlmResponse * Z) : Env :=
  mkEnv None None stream (λ _, None) (Some (λ _ info, if bool_decide (tc_name info = "rm") then HookBlock "no" else HookAllow))
    None (λ _ _, mkScriptRun (Err "no scripts") usage_default) (λ _ _ _, None) (λ _ name _, Some ("ran " +:+ name, false))
    None (λ _ _, (None, [])) (λ _, None) (λ _, None).

(** The loop with these. *)
Notation sample_run chain stream fuel :=
  (run (λ _, "{}") (λ _, None) "/d" (λ _, true) (λ _, true) (λ _, "0") (λ _ _, false) (λ _, 0%Z)
    (λ name _ _ _, mkObs name 0 0 false false) (λ _, Err "no plans") (λ _, None)
    (sample_agent chain) (sample_environment stream) fuel
    (start (sample_agent chain) None (mkStorage ∅ 0) [] [message_user "list the files"])) (only parsing).

Lemma turn_terminates_witness :
  ∃ s r, sample_run ["a"; "b"] calls_then_answers 6 = (s, Some r).
Proof.
  apply (turn_terminates (λ _, "{}") (λ _, None) "/d" (λ _, true) (λ _, true) (λ _, "0") (λ _ _, false) (λ _, 0%Z)
    (λ name _ _ _, mkObs name 0 0 false false) (λ _, Err "no plans") (λ _, None)
    (sample_agent ["a"; "b"]) (sample_environment calls_then_answers) None (mkStorage ∅ 0)
    [message_user "list the files"] 1).
  - apply (bool_decide_unpack _). vm_compute. reflexivity.
  - intros [|[|fuel]] s; vm_compute; [by intros [= <-]; lia|by intros [= <-]; lia|done].
Defined.

Lemma repeated_model_never_ends_witness fuel : (sample_run ["a"; "b"; "a"] always_overloaded fuel).2 = None.
Proof.
  revert fuel. apply (repeated_model_never_ends (λ _, "{}") (λ _, None) "/d" (λ _, true) (λ _, true) (λ _, "0") (λ _ _, false) (λ _, 0%Z)
    (λ name _ _ _, mkObs name 0 0 false false) (λ _, Err "no plans") (λ _, None)
    (sample_agent ["a"; "b"; "a"]) (sample_environment always_overloaded) None (mkStorage ∅ 0)
    [message_user "list the files"] ["a"; "b"]).
  - done.
  - set_solver.
  - intros m Hm. apply elem_of_cons in Hm as [->|Hm]; [exists "b"; split; [reflexivity|set_solver]|].
    apply list_elem_of_singleton in Hm as ->. exists "a". split; [reflexivity|set_solver].
Qed.

Lemma requests_are_valid_witness :
  let '(s, r) := sample_run [] calls_then_answers 2 in
  (∀ ctx opts, EfStream ctx opts ∈ ls_trace s → history_ok (cx_messages ctx)) ∧
  match r with Some r => paired (ar_messages r) = true | None => history_ok (ls_messages s) end.
Proof.
  apply requests_are_valid.
  - split; [reflexivity|]. split; [repeat constructor; done|]. eexists. split; reflexivity.
  - intros t ctx o. unfold sample_environment, calls_then_answers. simpl. case_bool_decide as Hn; simpl.
    + split; [done|]. rewrite Hn. intros id _. apply not_elem_of_nil.
    + split; [done|]. intros id Hid. by apply elem_of_nil in Hid.
  - done.
Defined.

(** The second call of the round, and the first one before it. *)
Lemma sample_trace_splits :
  ∃ before after,
    ls_trace (sample_run [] calls_then_answers 2).1 = before ++ EfDispatch (mkToolCall "c2" "pwd" JNull) :: after ∧
    EfDispatch (mkToolCall "c1" "ls" JNull) ∈ before.
Proof.
  exists (take 11 (ls_trace (sample_run [] calls_then_answers 2).1)),
         (drop 12 (ls_trace (sample_run [] calls_then_answers 2).1)).
  split; [vm_compute; reflexivity|]. apply (list_elem_of_lookup_2 _ 7). vm_compute. reflexivity.
Qed.

Lemma hook_allows_every_dispatch_witness :
  ∃ before, last before = Some (EfBefore (mkToolCall "c2" "pwd" JNull) HookAllow).
Proof.
  destruct sample_trace_splits as (before&after&Htrace&_). exists before.
  refine (hook_allows_every_dispatch (λ _, "{}") (λ _, None) "/d" (λ _, true) (λ _, true) (λ _, "0") (λ _ _, false)
      (λ _, 0%Z) (λ name _ _ _, mkObs name 0 0 false false) (λ _, Err "no plans") (λ _, None)
      (sample_agent []) (sample_environment calls_then_answers) None (mkStorage ∅ 0) [message_user "list the files"]
      2 before after _ Htrace _). discriminate.
Defined.

Lemma results_journaled_before_next_call_witness :
  ∃ before journaled, last_journal before = Some journaled ∧ "c1" ∈ answered journaled.
Proof.
  destruct sample_trace_splits as (before&after&Htrace&Hran). exists before.
  exact (results_journaled_before_next_call (λ _, "{}") (λ _, None) "/d" (λ _, true) (λ _, true) (λ _, "0") (λ _ _, false)
      (λ _, 0%Z) (λ name _ _ _, mkObs name 0 0 false false) (λ _, Err "no plans") (λ _, None)
      (sample_agent []) (sample_environment calls_then_answers) None (mkStorage ∅ 0) [message_user "list the files"]
      2 before after _ (mkToolCall "c1" "ls" JNull) eq_refl Htrace Hran).
Defined.

Lemma failover_sends_failed_attempt_witness :
  let s := start (sample_agent ["a"; "b"]) None (mkStorage ∅ 0) [] [message_user "list the files"] in
  ∃ content,
    (step (λ _, "{}") (λ _, None) "/d" (λ _, true) (λ _, true) (λ _, "0") (λ _ _, false) (λ _, 0%Z)
      (λ name _ _ _, mkObs name 0 0 false false) (λ _, Err "no plans") (λ _, None)
      (sample_agent ["a"; "b"]) (sample_environment always_overloaded) s).2 = None ∧
    ls_messages (step (λ _, "{}") (λ _, None) "/d" (λ _, true) (λ _, true) (λ _, "0") (λ _ _, false) (λ _, 0%Z)
      (λ name _ _ _, mkObs name 0 0 false false) (λ _, Err "no plans") (λ _, None)
      (sample_agent ["a"; "b"]) (sample_environment always_overloaded) s).1
    = [message_user "list the files"; mkMessage RoleAssistant content].
Proof.
  intros s.
  destruct (failover_sends_failed_attempt (λ _, "{}") (λ _, None) "/d" (λ _, true) (λ _, true) (λ _, "0") (λ _ _, false)
      (λ _, 0%Z) (λ name _ _ _, mkObs name 0 0 false false) (λ _, Err "no plans") (λ _, None)
      (sample_agent ["a"; "b"]) (sample_environment always_overloaded) s "b") as (content&Hnone&_&Hm&_).
  - done.
  - reflexivity.
  - exists content. split; [exact Hnone|]. rewrite Hm. reflexivity.
Defined.
