(* ===== verification/AgentSession.v ===== *)
(** * The agent session

    Models [AgentSession] of [src/src/agent.rs]: the conversation between turns, the
    journal that survives a cancelled turn, the commit of a finished one, retrying and
    truncating turns, and compaction (with the transcript of [src/src/compaction.rs]).

    One attempt of a turn, [run_with_journal], is a parameter here, a function from the
    history it is given to its result and its effects; [AgentLoop] is the loop behind
    it.  The effects are read for what they write to the journal. *)

From stdpp Require Import base numbers list strings gmap sorting.
From S2P Require Import Prelude RustStr Safety LoopDetector Messages History ToolOutput Providers AgentLoop.

(** ** Data *)

Inductive CancelledTurnKind := CtNew | CtRetry.

Inductive TurnJournalMode := JmAppend | JmReplaceFrom (index : nat).

Record TurnJournal := mkJournal {
  tj_mode : TurnJournalMode;
  tj_suffix : list Message;
  tj_usage : Usage;
  tj_last_call_usage : Usage;
}.

Record AgentSession := mkSession {
  as_config : AgentConfig;
  as_messages : list Message;
  as_total_usage : Usage;
  as_last_prompt_tokens : Z;
  as_inflight_turn : option TurnJournal;
}.

Record TurnResult := mkTurnResult {
  tr_text : string;
  tr_usage : Usage;
  tr_last_call_usage : Usage;
  tr_stop_reason : StopReason;
  tr_error_message : option string;
  tr_context_overflow : bool;
  tr_evidence : EvidenceLedger;
}.

Record CompactionEvent := mkCompactionEvent {
  ce_evicted_turns : nat;
  ce_evicted_messages : nat;
  ce_est_tokens_before : nat;
  ce_est_tokens_after : nat;
  ce_summary_model : string;
  ce_fallback_drop : bool;
}.

Definition CANCELLED_TURN_DEFAULT : string :=
  "Turn cancelled before completion. Any unfinalized partial response was discarded. Some requested work may have run or produced external side effects without an authoritative result. Inspect current state before retrying or claiming that nothing changed.".

Definition set_session (messages : list Message) (usage : Usage) (prompt : Z) (j : option TurnJournal)
    (s : AgentSession) : AgentSession := mkSession (as_config s) messages usage prompt j.

Definition session_new (cfg : AgentConfig) : AgentSession := mkSession cfg [] usage_default 0 None.

Definition cancellation_note (s : AgentSession) : string :=
  trim (default CANCELLED_TURN_DEFAULT (ac_cancelled_turn_message (as_config s))).

(** ** The journal *)

Definition finalize_cancelled_turn (usage_already_applied : bool) (s : AgentSession)
    : option CancelledTurnKind * AgentSession :=
  match as_inflight_turn s with
  | None => (None, s)
  | Some j =>
      let suffix := materialize_cancelled_suffix (tj_suffix j) (cancellation_note s) in
      let '(messages, kind) :=
        match tj_mode j with
        | JmAppend => (as_messages s ++ suffix, CtNew)
        | JmReplaceFrom index => (take index (as_messages s) ++ suffix, CtRetry)
        end in
      let usage := if usage_already_applied then as_total_usage s
                   else accumulate_usage (as_total_usage s) (tj_usage j) in
      let prompt := prompt_tokens (tj_last_call_usage j) in
      let prompt := if negb usage_already_applied && (0 <? prompt)%Z then prompt else as_last_prompt_tokens s in
      (Some kind, set_session messages usage prompt None s)
  end.

Definition begin_turn_journal (mode : TurnJournalMode) (user_message : Message) (s : AgentSession) : AgentSession :=
  let s := if is_some (as_inflight_turn s) then (finalize_cancelled_turn false s).2 else s in
  set_session (as_messages s) (as_total_usage s) (as_last_prompt_tokens s)
    (Some (mkJournal mode [user_message] usage_default usage_default)) s.

Definition reset_turn_journal (user_message : Message) (s : AgentSession) : AgentSession :=
  set_session (as_messages s) (as_total_usage s) (as_last_prompt_tokens s)
    ((λ j, mkJournal (tj_mode j) [user_message] usage_default usage_default) <$> as_inflight_turn s) s.

Definition restore_turn_journal_from_result (result : AgentResult) (s : AgentSession) : AgentSession :=
  set_session (as_messages s) (as_total_usage s) (as_last_prompt_tokens s)
    ((λ j, let start := match tj_mode j with JmAppend => length (as_messages s) | JmReplaceFrom i => i end in
           mkJournal (tj_mode j) (drop start (ar_messages result)) (ar_usage result) (ar_last_call_usage result))
     <$> as_inflight_turn s) s.

(** [TurnJournalWriter]: what an effect of the loop writes. *)
Definition write_journal (base_len : nat) (j : TurnJournal) (e : Effect) : TurnJournal :=
  match e with
  | EfJournal messages => mkJournal (tj_mode j) (drop base_len messages) (tj_usage j) (tj_last_call_usage j)
  | EfJournalUsage usage last => mkJournal (tj_mode j) (tj_suffix j) usage last
  | _ => j
  end.

Definition journal_trace (base_len : nat) (tr : Trace) (s : AgentSession) : AgentSession :=
  set_session (as_messages s) (as_total_usage s) (as_last_prompt_tokens s)
    ((λ j, foldl (write_journal base_len) j tr) <$> as_inflight_turn s) s.

(** ** Turns *)

Definition commit (result : AgentResult) (s : AgentSession) : TurnResult * AgentSession :=
  (mkTurnResult (last_assistant_text (ar_messages result)) (ar_usage result) (ar_last_call_usage result)
     (ar_stop_reason result) (ar_error_message result) (ar_context_overflow result) (ar_evidence result),
   set_session (ar_messages result) (as_total_usage s) (as_last_prompt_tokens s) (as_inflight_turn s) s).

Definition commit_staged (result : AgentResult) (s : AgentSession) : TurnResult * AgentSession :=
  commit result (set_session (as_messages s) (as_total_usage s) (as_last_prompt_tokens s) None s).

Section session.
Context (json_text : Json → string).
Context (run_with_journal : AgentConfig → list Message → AgentResult * Trace).
Context (summarize : nat → LlmContext → CompleteOpts → LlmResponse).
Context (SUMMARY_DEFAULT : string).

Definition attempt_with_history (history : list Message) (user_message : Message) (s : AgentSession)
    : AgentResult * AgentSession :=
  let base_len := length history in
  let s := reset_turn_journal user_message s in
  let '(result, tr) := run_with_journal (as_config s) (history ++ [user_message]) in
  let s := journal_trace base_len tr s in
  (result, set_session (as_messages s) (accumulate_usage (as_total_usage s) (ar_usage result))
             (prompt_tokens (ar_last_call_usage result)) (as_inflight_turn s) s).

Definition attempt (user_message : Message) (s : AgentSession) : AgentResult * AgentSession :=
  attempt_with_history (as_messages s) user_message s.

(** ** Compaction *)

Definition SUMMARY_TOOL_RESULT_CAP : nat := 500.
Definition ELISION : string := " …[elided]… ".

Definition cap_tool_result (content : string) : string :=
  let cs := chars content in
  let total := length cs in
  if total <=? SUMMARY_TOOL_RESULT_CAP then content
  else
    let budget := SUMMARY_TOOL_RESULT_CAP - char_count ELISION in
    let out := str_concat (take (div_ceil budget 2) cs) +:+ ELISION +:+ str_concat (drop (total - budget / 2) cs) in
    match marker_output_path content with
    | Some path => if contains TRUNCATED_MARKER out then out
                   else out +:+ " [" +:+ TRUNCATED_MARKER +:+ " " +:+ path +:+ "]"
    | None => out
    end.

Definition block_transcript (role : Role) (b : ContentBlock) : string :=
  match b with
  | CbText text => match role with RoleUser => "User" | RoleAssistant => "Assistant" end +:+ ": " +:+ text +:+ newline
  | CbImage _ media_type uri =>
      "[user image: " +:+ media_type +:+ match uri with Some u => " " +:+ u | None => "" end +:+ "]" +:+ newline
  | CbToolCall _ name input => "[tool call: " +:+ name +:+ " " +:+ json_text input +:+ "]" +:+ newline
  | CbToolResult _ content is_error =>
      "[" +:+ (if is_error : bool then "tool error" else "tool result") +:+ ": " +:+ cap_tool_result content +:+ "]" +:+ newline
  | CbThinking _ | CbProviderState _ _ => ""
  end.

Definition transcript_for_summary (messages : list Message) : string :=
  str_concat (map (λ m, str_concat (map (block_transcript (msg_role m)) (msg_content m))) messages).

(** The text of a summary reply, when it is one. *)
Definition summary_of (resp : LlmResponse) : option string :=
  match lr_error_message resp with
  | Some _ => None
  | None =>
      let text := trim (join newline (omap block_text (lr_content resp))) in
      if bool_decide (text = "") then None else Some text
  end.

(** The attempts of the summarizer: the summary, if any, and the usage they add. *)
Fixpoint summary_loop (left_ index : nat) (ctx : LlmContext) (opts : CompleteOpts) (usage : Usage)
    : option string * Usage :=
  match left_ with
  | 0 => (None, usage)
  | S left_ =>
      let resp := summarize index ctx opts in
      let usage := accumulate_usage usage (lr_usage resp) in
      match summary_of resp with
      | Some text => (Some text, usage)
      | None => summary_loop left_ (S index) ctx opts usage
      end
  end.

(** The request for a summary of the first [cut] messages, and its options. *)
Definition summary_context (policy : CompactionPolicy) (cut : nat) (s : AgentSession) : LlmContext :=
  mkContext
    [message_user ("Summarize this earlier conversation:" +:+ newline +:+ newline +:+
       transcript_for_summary (take cut (as_messages s)))]
    (Some (default SUMMARY_DEFAULT (cp_summary_prompt policy))) [].

Definition summary_opts (policy : CompactionPolicy) (s : AgentSession) : CompleteOpts :=
  let o := ac_opts (as_config s) in
  mkOpts (default (co_model o) (cp_summary_model policy)) (co_max_tokens o) Off (Some f64_zero).

Definition compact (s : AgentSession) : option CompactionEvent * AgentSession :=
  match ac_compaction (as_config s) with
  | None => (None, s)
  | Some policy =>
      match choose_cut json_text (as_messages s) (Z.to_nat (target_tokens policy)) with
      | None => (None, s)
      | Some cut =>
          let opts := summary_opts policy s in
          let '(summary_text, usage) := summary_loop 2 0 (summary_context policy cut s) opts (as_total_usage s) in
          let replacement := match summary_text with Some text => summary_message text | None => drop_marker_message end in
          let messages := replacement :: drop cut (as_messages s) in
          (Some (mkCompactionEvent (length (turn_starts (take cut (as_messages s)))) cut
                   (estimate_tokens json_text (as_messages s)) (estimate_tokens json_text messages)
                   (co_model opts) (negb (is_some summary_text))),
           set_session messages usage 0 (as_inflight_turn s) s)
      end
  end.

Definition occupancy (s : AgentSession) : Z :=
  if (0 <? as_last_prompt_tokens s)%Z then as_last_prompt_tokens s
  else Z.of_nat (estimate_prompt_tokens json_text (ac_system (as_config s)) (as_messages s)).

Definition set_messages_of (messages : list Message) (s : AgentSession) : AgentSession :=
  set_session messages (as_total_usage s) (as_last_prompt_tokens s) (as_inflight_turn s) s.

(** [run_prompt_attempt]: repair, proactive compaction, the attempt, and one more after
    a classified overflow. *)
Definition run_prompt_attempt (user_message : Message) (s : AgentSession) : AgentResult * AgentSession :=
  let s := if has_orphan_tool_calls (as_messages s) then set_messages_of (close_orphan_tool_calls (as_messages s)) s else s in
  let s :=
    match ac_compaction (as_config s) with
    | Some policy => if should_compact policy (occupancy s) then (compact s).2 else s
    | None => s
    end in
  let '(result, s) := attempt user_message s in
  if ar_context_overflow result && is_some (ac_compaction (as_config s)) then
    match compact (reset_turn_journal user_message s) with
    | (Some _, s) => attempt user_message s
    | (None, s) => (result, restore_turn_journal_from_result result s)
    end
  else (result, s).

Definition prompt_message (user_message : Message) (s : AgentSession) : TurnResult * AgentSession :=
  let s := begin_turn_journal JmAppend user_message s in
  let '(result, s) := run_prompt_attempt user_message s in
  commit_staged result s.

(** [iter().rposition(is_user_turn_message)]. *)
Fixpoint rposition (p : Message → bool) (l : list Message) : option nat :=
  match l with
  | [] => None
  | x :: l => match rposition p l with Some i => Some (S i) | None => if p x then Some 0 else None end
  end.

Definition retry_last_turn (s : AgentSession) : result TurnResult string * AgentSession :=
  match rposition is_user_turn_message (as_messages s) with
  | None => (Err "cannot retry: session has no user turn", s)
  | Some user_index =>
      match as_messages s !! user_index with
      | None => (Err "cannot retry: session has no user turn", s)
      | Some user_message =>
          let base_history := take user_index (as_messages s) in
          let s := begin_turn_journal (JmReplaceFrom user_index) user_message s in
          let '(result, s) := attempt_with_history base_history user_message s in
          let '(turn, s) := commit_staged result s in
          (Ok turn, s)
      end
  end.

(** ** Editing the history *)

Definition user_turn_count (s : AgentSession) : nat :=
  length (List.filter is_user_turn_message (as_messages s)).

(** The index in the history of the [n]-th user turn. *)
Fixpoint nth_user_turn (n i : nat) (messages : list Message) : option nat :=
  match messages with
  | [] => None
  | m :: messages =>
      if is_user_turn_message m
      then match n with 0 => Some i | S n => nth_user_turn n (S i) messages end
      else nth_user_turn n (S i) messages
  end.

Definition truncate_from_user_turn (turn_index : nat) (s : AgentSession) : result unit string * AgentSession :=
  match nth_user_turn turn_index 0 (as_messages s) with
  | None => (Err ("user turn index " +:+ nat_to_string turn_index +:+ " not found"), s)
  | Some history_index =>
      (Ok tt, set_session (take history_index (as_messages s)) (as_total_usage s) 0 (as_inflight_turn s) s)
  end.

Definition insert_assistant_turn_prefix (prefix : string) (s : AgentSession) : result unit string * AgentSession :=
  match rposition is_user_turn_message (as_messages s) with
  | None => (Err "cannot prefix assistant turn: session has no user turn", s)
  | Some user_index =>
      (Ok tt, set_messages_of (take (user_index + 1) (as_messages s) ++ message_assistant prefix
                               :: drop (user_index + 1) (as_messages s)) s)
  end.

Definition set_history (messages : list Message) (s : AgentSession) : AgentSession :=
  set_session (close_orphan_tool_calls messages) (as_total_usage s) (as_last_prompt_tokens s) None s.

Definition clear (s : AgentSession) : AgentSession :=
  set_session [] (as_total_usage s) (as_last_prompt_tokens s) None s.
End session.

(** ** Lemmas *)

Lemma user_turn_not_result m : is_user_turn_message m = true → is_result_message m = false.
Proof.
  intros H. destruct (is_result_message m) eqn:E; [|done]. apply result_message_not_turn in E. congruence.
Qed.

(** The part of the history that a turn of the given mode keeps. *)
Definition kept (mode : TurnJournalMode) (messages : list Message) : list Message :=
  match mode with JmAppend => messages | JmReplaceFrom index => take index messages end.

Definition mode_ok (mode : TurnJournalMode) (messages : list Message) : Prop :=
  match mode with
  | JmAppend => True
  | JmReplaceFrom index => ∃ m, messages !! index = Some m ∧ is_user_turn_message m = true
  end.

Lemma kept_paired mode messages : mode_ok mode messages → paired messages = true → paired (kept mode messages) = true.
Proof.
  destruct mode as [|index]; [done|]. intros (m&Hm&Hu) Hp. simpl.
  rewrite <- (take_drop_middle _ _ _ Hm) in Hp. by eapply paired_before, user_turn_not_result.
Qed.

Definition usage_effect (e : Effect) : option Usage :=
  match e with EfJournalUsage u _ => Some u | _ => None end.

(** What the journal has recorded of a turn's spend. *)
Definition recorded_usage (tr : Trace) : Usage := default usage_default (last (omap usage_effect tr)).

Lemma journal_fold base_len j tr :
  tj_mode (foldl (write_journal base_len) j tr) = tj_mode j ∧
  tj_usage (foldl (write_journal base_len) j tr) = default (tj_usage j) (last (omap usage_effect tr)).
Proof.
  induction tr as [|e tr [IHm IHu]] using rev_ind; [done|]. rewrite foldl_snoc, omap_app, last_app. csimpl.
  destruct e; simpl; try (by split); by rewrite ?IHm.
Qed.

Lemma finalize_after mode user_message base_len tr applied s :
  as_inflight_turn s = None →
  let s1 := journal_trace base_len tr (begin_turn_journal mode user_message s) in
  let r := finalize_cancelled_turn applied s1 in
  r.1 = Some (match mode with JmAppend => CtNew | JmReplaceFrom _ => CtRetry end) ∧
  as_inflight_turn r.2 = None ∧
  as_total_usage r.2 = (if applied then as_total_usage s
                        else accumulate_usage (as_total_usage s) (recorded_usage tr)) ∧
  ∃ suffix, as_messages r.2 = kept mode (as_messages s) ++ materialize_cancelled_suffix suffix (cancellation_note s).
Proof.
  intros Hidle. unfold begin_turn_journal, journal_trace, finalize_cancelled_turn. rewrite Hidle. simpl.
  set (j := foldl _ _ tr). destruct (journal_fold base_len (mkJournal mode [user_message] usage_default usage_default) tr)
    as [Hm Hu]. fold j in Hm, Hu. simpl in Hm, Hu. rewrite Hm.
  destruct mode; simpl; (split; [done|]); (split; [done|]); (split; [by rewrite Hu|]);
    exists (tj_suffix j); done.
Qed.

Lemma rposition_split (p : Message → bool) pre m suf :
  p m = true → existsb p suf = false → rposition p (pre ++ m :: suf) = Some (length pre).
Proof.
  intros Hm Hs. induction pre as [|x pre IH]; simpl; [|by rewrite IH].
  assert (rposition p suf = None) as ->; [|by rewrite Hm].
  induction suf as [|y suf IHs]; [done|]. simpl in *. apply orb_false_iff in Hs as [-> Hs]. by rewrite IHs.
Qed.

Lemma nth_user_turn_spec n k messages :
  match nth_user_turn n k messages with
  | Some i => k ≤ i ∧ length (user_turns (take (i - k) messages)) = n ∧
      ∃ m, messages !! (i - k) = Some m ∧ is_user_turn_message m = true
  | None => length (user_turns messages) ≤ n
  end.
Proof.
  revert n k. induction messages as [|m messages IH]; intros n k; [simpl; lia|]. cbn [nth_user_turn].
  rewrite user_turns_cons. destruct (is_user_turn_message m) eqn:Hm.
  - destruct n as [|n].
    + rewrite Nat.sub_diag. split_and!; [done|done|]. by exists m.
    + specialize (IH n (S k)). destruct (nth_user_turn n (S k) messages) as [i|]; [|simpl; lia].
      destruct IH as (Hk&Hn&m'&Hm'&?). replace (i - k) with (S (i - S k)) by lia.
      split_and!; [lia| |by exists m']. cbn [take]. rewrite user_turns_cons, Hm. simpl. by rewrite Hn.
  - specialize (IH n (S k)). destruct (nth_user_turn n (S k) messages) as [i|]; [|done].
    destruct IH as (Hk&Hn&m'&Hm'&?). replace (i - k) with (S (i - S k)) by lia.
    split_and!; [lia| |by exists m']. cbn [take]. by rewrite user_turns_cons, Hm.
Qed.

Lemma starts_with_app p s : starts_with p (p +:+ s) = true.
Proof. apply starts_with_spec. eauto. Qed.

Lemma summary_not_turn text : is_user_turn_message (summary_message text) = false.
Proof.
  unfold summary_message. change ("[Summary of earlier conversation: " +:+ text +:+ "]")
    with (SUMMARY_PREFIX +:+ (" " +:+ text +:+ "]")).
  unfold is_user_turn_message. cbn [msg_role msg_content message_user existsb negb bool_decide].
  by rewrite starts_with_app.
Qed.

(** ** Theorems *)

(** C11: cancelling a turn leaves a session that can go on: from a session whose history
    is acceptable to the providers, whatever the journal had recorded when the turn
    was cancelled, the promoted history is acceptable again, starts with everything
    the turn did not replace, and no journal is left; what the turn spent so far is
    added to the session's total exactly once (not at all when the finished attempt
    had already added it). *)
Theorem cancelled_turn_keeps_session_valid (mode : TurnJournalMode) (user_message : Message) (base_len : nat)
    (tr : Trace) (applied : bool) (s : AgentSession)
    (Hidle : as_inflight_turn s = None) (Hpaired : paired (as_messages s) = true)
    (Hmode : mode_ok mode (as_messages s)) :
  let s1 := journal_trace base_len tr (begin_turn_journal mode user_message s) in
  let s2 := (finalize_cancelled_turn applied s1).2 in
  paired (as_messages s2) = true ∧ kept mode (as_messages s) `prefix_of` as_messages s2 ∧
  as_inflight_turn s2 = None ∧
  as_total_usage s2 = (if applied then as_total_usage s
                       else accumulate_usage (as_total_usage s) (recorded_usage tr)).
Proof.
  intros s1 s2.
  destruct (finalize_after mode user_message base_len tr applied s Hidle) as (_&Hi&Hu&suffix&Hm).
  fold s1 in Hi, Hu, Hm. fold s2 in Hi, Hu, Hm. rewrite Hm. split_and!; [|by eexists|done|done].
  rewrite paired_app by by apply kept_paired. apply materialize_spec.
Qed.

Definition sample_session : AgentSession :=
  mkSession (sample_agent []) [message_user "first"; message_assistant "answer"] usage_default 0 None.

Lemma cancelled_turn_keeps_session_valid_witness :
  let tr := [EfJournal [message_user "first"; message_assistant "answer"; message_user "second";
                        mkMessage RoleAssistant [CbToolCall "c" "exec" JNull]]] in
  let s2 := (finalize_cancelled_turn false
               (journal_trace 2 tr (begin_turn_journal JmAppend (message_user "second") sample_session))).2 in
  paired (as_messages s2) = true ∧ length (as_messages s2) = 6.
Proof.
  intros tr s2. split; [|vm_compute; reflexivity].
  apply (cancelled_turn_keeps_session_valid JmAppend (message_user "second") 2 tr false sample_session);
    [reflexivity|vm_compute; reflexivity|exact I].
Defined.

(** C12: compaction keeps the conversation usable and accounts for its calls: it either
    does nothing, or asks for a summary of a prefix that ends before a turn and replaces
    the prefix by one message, which is not counted as a user turn.  That message is the
    first summary that is one, of the first or else of the second request, and the drop
    marker when neither is, so that a failed summary never blocks it.  The usage of the
    first response is added to the session's, and that of the second exactly when there
    was a second request.  The kept part is untouched, no call is separated from its
    results, and the stale size measurement is dropped. *)
Theorem compaction_keeps_session_valid (json_text : Json → string)
    (summarize : nat → LlmContext → CompleteOpts → LlmResponse) (default_prompt : string) (s : AgentSession)
    (Hpaired : paired (as_messages s) = true) :
  let '(event, s') := compact json_text summarize default_prompt s in
  match event with
  | None => s' = s
  | Some e =>
      let cut := ce_evicted_messages e in
      0 < cut ∧ cut ∈ turn_starts (as_messages s) ∧ paired (as_messages s') = true ∧
      tail (as_messages s') = drop cut (as_messages s) ∧
      user_turns (as_messages s') = user_turns (drop cut (as_messages s)) ∧
      as_last_prompt_tokens s' = 0%Z ∧ as_inflight_turn s' = as_inflight_turn s ∧
      (ce_fallback_drop e = true ↔ head (as_messages s') = Some drop_marker_message) ∧
      ∃ policy, ac_compaction (as_config s) = Some policy ∧
        let response index :=
          summarize index (summary_context json_text default_prompt policy cut s) (summary_opts policy s) in
        let first_usage := accumulate_usage (as_total_usage s) (lr_usage (response 0)) in
        match summary_of (response 0) with
        | Some text => as_total_usage s' = first_usage ∧ head (as_messages s') = Some (summary_message text)
        | None =>
            as_total_usage s' = accumulate_usage first_usage (lr_usage (response 1)) ∧
            head (as_messages s') =
              Some (match summary_of (response 1) with Some text => summary_message text | None => drop_marker_message end)
        end
  end.
Proof.
  unfold compact. destruct (ac_compaction (as_config s)) as [policy|] eqn:Hpolicy; [|done].
  assert (Hcut := choose_cut_spec_gen json_text (as_messages s) (Z.to_nat (target_tokens policy))).
  destruct (choose_cut _ _ _) as [cut|]; [|done]. destruct Hcut as (Hpos&_&Hin&_).
  destruct (summary_loop _ _ _ _ _ _) as [text usage] eqn:Hsum. simpl.
  set (replacement := match text with Some t => summary_message t | None => drop_marker_message end).
  assert (Hr : call_ids replacement = [] ∧ is_user_turn_message replacement = false)
    by (unfold replacement; destruct text; split; [done|apply summary_not_turn|done|done]).
  destruct Hr as [Hrc Hrt].
  destruct (proj1 (elem_of_turn_starts _ _) Hin) as (m&Hm&Hstart).
  split_and!; try done.
  - rewrite bool_decide_true by done. simpl.
    rewrite <- (take_drop_middle _ _ _ Hm) in Hpaired. apply paired_suffix in Hpaired.
    by rewrite (drop_S _ _ _ Hm).
  - by rewrite Hrt.
  - unfold replacement. destruct text as [t|]; simpl; split; try done.
  - exists policy. split; [done|]. unfold replacement. cbn [summary_loop] in Hsum.
    repeat case_match; simplify_eq; done.
Qed.

(** Three short turns and a budget that keeps the last two. *)
Definition long_session : AgentSession :=
  mkSession (mkAgentConfig None [] (sample_opts "a") None None retry_config_default
               (Some (mkPolicy (f64_of_u64 1) (f64_of_u64 1) 12 2 None None)) None false true sample_config false)
    [message_user "first question"; message_assistant "first answer";
     message_user "second question"; message_assistant "second answer";
     message_user "third question"; message_assistant "third answer"] usage_default 25 None.

Lemma compaction_keeps_session_valid_witness :
  let s' := (compact (λ _, "") (λ _ _ _, retryable_error "overloaded") "summarize" long_session).2 in
  as_messages s' = drop_marker_message :: drop 2 (as_messages long_session) ∧ paired (as_messages s') = true.
Proof.
  intros s'. assert (Hm : as_messages s' = drop_marker_message :: drop 2 (as_messages long_session))
    by (vm_compute; reflexivity).
  split; [exact Hm|].
  pose proof (compaction_keeps_session_valid (λ _, "") (λ _ _ _, retryable_error "overloaded") "summarize" long_session
    ltac:(vm_compute; reflexivity)) as H.
  unfold s' in *. destruct (compact _ _ _ long_session) as [[e|] s''].
  - apply H.
  - rewrite H. vm_compute. reflexivity.
Defined.

(** what a turn spends is counted once, whichever way it ends: committed, cancelled
    after the attempt returned, or cancelled at any earlier point, when exactly what
    the journal had recorded is added. *)
Theorem turn_usage_counted_once (run_with_journal : AgentConfig → list Message → AgentResult * Trace)
    (user_message : Message) (s : AgentSession) (Hidle : as_inflight_turn s = None) :
  let s0 := begin_turn_journal JmAppend user_message s in
  let '(result, s1) := attempt run_with_journal user_message s0 in
  let spent := accumulate_usage (as_total_usage s) (ar_usage result) in
  as_total_usage (commit_staged result s1).2 = spent ∧
  as_total_usage (finalize_cancelled_turn true s1).2 = spent ∧
  (∀ done_ rest, (run_with_journal (as_config s) (as_messages s ++ [user_message])).2 = done_ ++ rest →
     as_total_usage (finalize_cancelled_turn false (journal_trace (length (as_messages s)) done_ s0)).2 =
     accumulate_usage (as_total_usage s) (recorded_usage done_)) ∧
  as_messages (commit_staged result s1).2 = ar_messages result ∧
  as_inflight_turn (commit_staged result s1).2 = None.
Proof.
  intros s0. assert (Hs0 : as_messages s0 = as_messages s ∧ as_config s0 = as_config s ∧ as_total_usage s0 = as_total_usage s ∧
    is_Some (as_inflight_turn s0)) by (unfold s0, begin_turn_journal; rewrite Hidle; simpl; eauto).
  assert (Hcancel : ∀ done_, as_total_usage (finalize_cancelled_turn false
      (journal_trace (length (as_messages s)) done_ s0)).2 = accumulate_usage (as_total_usage s) (recorded_usage done_)).
  { intros done_. unfold s0. by destruct (finalize_after JmAppend user_message (length (as_messages s)) done_ false s Hidle)
      as (_&_&->&_). }
  clearbody s0. destruct Hs0 as (Hm&Hc&Hu&j&Hj). unfold attempt, attempt_with_history. simpl. rewrite Hm, Hc.
  destruct (run_with_journal _ _) as [result tr]. simpl. rewrite Hu. split_and!; try done.
  rewrite Hj. simpl. unfold finalize_cancelled_turn. simpl. case_match; done.
Qed.

Lemma turn_usage_counted_once_witness :
  let run_turn (_ : AgentConfig) (history : list Message) :=
    (mkAgentResult (history ++ [message_assistant "hi"]) (mkUsage 7 3 None 0 0 0 cost_default) EndTurn None
       usage_default false ledger_default, [] : Trace) in
  us_input (as_total_usage (prompt_message (λ _, "") run_turn (λ _ _ _, response_error "x") "" (message_user "hello") sample_session).2)
  = 7%Z.
Proof.
  intros run_turn.
  destruct (turn_usage_counted_once run_turn (message_user "hello") sample_session eq_refl) as (H&_).
  exact (f_equal us_input H).
Defined.

(** truncating at a user turn keeps exactly the turns before it, in full and
    acceptable to the providers, and forgets the size measurement; it is refused, with
    nothing changed, exactly when there is no such turn. *)
Theorem truncate_from_user_turn_spec (turn_index : nat) (s : AgentSession)
    (Hpaired : paired (as_messages s) = true) :
  match truncate_from_user_turn turn_index s with
  | (Ok _, s') =>
      turn_index < user_turn_count s ∧ user_turn_count s' = turn_index ∧
      as_messages s' `prefix_of` as_messages s ∧ paired (as_messages s') = true ∧ as_last_prompt_tokens s' = 0%Z
  | (Err _, s') => user_turn_count s ≤ turn_index ∧ s' = s
  end.
Proof.
  unfold truncate_from_user_turn, user_turn_count. pose proof (nth_user_turn_spec turn_index 0 (as_messages s)) as H.
  destruct (nth_user_turn turn_index 0 (as_messages s)) as [i|]; [|done].
  destruct H as (_&Hn&m&Hm&Hu). rewrite Nat.sub_0_r in *. simpl.
  pose proof (take_drop_middle _ _ _ Hm) as Hsplit. split_and!; [|done|by exists (drop i (as_messages s)); rewrite take_drop| |done].
  - rewrite <- Hsplit. change (turn_index < length (user_turns (take i (as_messages s) ++ m :: drop (S i) (as_messages s)))).
    rewrite user_turns_app, user_turns_cons, Hu, length_app, Hn. simpl. lia.
  - rewrite <- Hsplit in Hpaired. by eapply paired_before, user_turn_not_result.
Qed.

Lemma truncate_from_user_turn_spec_witness :
  let s' := (truncate_from_user_turn 1 long_session).2 in
  user_turn_count s' = 1 ∧ paired (as_messages s') = true ∧ length (as_messages s') = 2.
Proof.
  intros s'. pose proof (truncate_from_user_turn_spec 1 long_session ltac:(vm_compute; reflexivity)) as H.
  unfold s'. destruct (truncate_from_user_turn 1 long_session) as [[[]|e] s1] eqn:E; [|done].
  destruct H as (_&H1&_&H2&_). split; [exact H1|]. split; [exact H2|]. by injection E as <-.
Defined.

(** retrying runs the last message of the user again, from the history before it,
    and replaces what came after; a message is taken for the user's by its text alone,
    so the line the loop adds to continue a truncated or interrupted answer is taken
    for one too, and a retry after it starts from that line instead of the request. *)
Theorem retry_restarts_last_user_text
    (run_with_journal : AgentConfig → list Message → AgentResult * Trace)
    (before after : list Message) (text : string) (s : AgentSession)
    (Hidle : as_inflight_turn s = None)
    (Hmessages : as_messages s = before ++ message_user text :: after)
    (Hafter : user_turns after = []) (Htext : is_user_turn_message (message_user text) = true) :
  let result := (run_with_journal (as_config s) (before ++ [message_user text])).1 in
  let '(turn, s') := retry_last_turn run_with_journal s in
  as_messages s' = ar_messages result ∧ as_inflight_turn s' = None ∧
  as_total_usage s' = accumulate_usage (as_total_usage s) (ar_usage result) ∧
  is_user_turn_message (message_user AUTO_CONTINUE_NUDGE) = true ∧
  is_user_turn_message (message_user ERROR_RESUME_NUDGE) = true.
Proof.
  intros result. unfold retry_last_turn. rewrite Hmessages.
  assert (existsb is_user_turn_message after = false) as Hno.
  { apply existsb_not. intros x Hx. destruct (is_user_turn_message x) eqn:E; [|done]. exfalso.
    assert (x ∈ user_turns after) as Hin by (apply list_elem_of_In, filter_In; by rewrite <- list_elem_of_In).
    rewrite Hafter in Hin. set_solver. }
  rewrite (rposition_split _ _ _ _ Htext Hno), list_lookup_middle, take_app_length by done.
  unfold attempt_with_history, begin_turn_journal. rewrite Hidle. simpl.
  unfold result. destruct (run_with_journal _ _) as [r tr]. simpl. by split_and!.
Qed.

Lemma retry_restarts_last_user_text_witness :
  let truncated := [message_user "write the report"; message_assistant "Part one"] in
  let run_turn (_ : AgentConfig) (history : list Message) :=
    (mkAgentResult (history ++ [message_assistant "again"]) usage_default EndTurn None usage_default false ledger_default,
     [] : Trace) in
  let s := mkSession (sample_agent []) (truncated ++ [message_user AUTO_CONTINUE_NUDGE; message_assistant "Part two"])
             usage_default 0 None in
  as_messages (retry_last_turn run_turn s).2 = truncated ++ [message_user AUTO_CONTINUE_NUDGE; message_assistant "again"].
Proof.
  intros truncated run_turn s.
  pose proof (retry_restarts_last_user_text run_turn truncated [message_assistant "Part two"] AUTO_CONTINUE_NUDGE s
    eq_refl eq_refl eq_refl eq_refl) as H. cbv zeta in H.
  destruct (retry_last_turn run_turn s) as [turn s']. destruct H as [H _]. exact H.
Defined.
