(* ===== verification/RemoteGateway.v ===== *)
(** * The gateway for remote devices

    Models [src/src/remote_gateway.rs]: admission of peers, the message rate limit, the
    single remote controller, and the life of a connection from the WebSocket upgrade
    to its end, as a machine whose steps are the critical sections and the awaits of
    [websocket_upgrade], [serve_socket] and [serve_pairing].  What arrives, whether a
    send succeeds, which branch of a select is ready and the clock are the inputs of a
    step.  Connections are interleaved with each other and with the operations of the
    operator ([RemoteAuth]).  The WebSocket library, JSON frames and the session served
    ([Client], [Views]) are outside. *)

From stdpp Require Import base numbers list strings gmap sorting.
From S2P Require Import Prelude RustStr Protocol Client RemoteAuth ToolOutput.

(** ** Data *)

Record RemoteGatewayConfig := mkGatewayConfig {
  rg_allowed_origins : list string;
  rg_pairing_wait : Z;
  rg_max_messages_per_second : nat;
  rg_max_connections : nat;
  rg_admission_attempts_per_minute : nat;
  rg_max_unauthenticated_per_ip : nat;
  rg_trust_proxy_headers : bool;
  rg_max_admission_peers : nat;
}.

Inductive RemoteClientFrame :=
  | RfPair (claim device_public_key label : string) (requested_capabilities : list ClientCapability)
  | RfAuthenticate (ticket device_public_key signature : string).

Inductive RemoteServerFrame :=
  | RsChallenge (challenge : string)
  | RsPairingPending (pairing : PendingPairing)
  | RsPairingApproved (grant : TicketGrant)
  | RsPairingCommitted (device_id : string)
  | RsAuthenticated (device_id : string) (capabilities : list ClientCapability)
  | RsError (code message : string).

Record PeerAdmission := mkPeer {
  pa_window_started : Z;
  pa_attempts : nat;
  pa_unauthenticated : nat;
}.

(** HTTP status codes. *)
Definition FORBIDDEN : Z := 403.
Definition BAD_REQUEST : Z := 400.
Definition TOO_MANY_REQUESTS : Z := 429.
Definition SERVICE_UNAVAILABLE : Z := 503.

(** One second and one minute of the clock, in nanoseconds. *)
Definition SECOND : Z := 1000000000.
Definition MINUTE : Z := 60 * SECOND.

(** ** Pure helpers *)

(** A header that is present has a value, which may not be text. *)
Definition origin_allowed (origin : option (option string)) (allowed_origins : list string) : bool :=
  match origin with
  | None => true
  | Some None => false
  | Some (Some origin) => bool_decide (origin ∈ allowed_origins)
  end.

Definition admission_peer {IpAddr : Type} (parse_ip : string → option IpAddr) (is_loopback : IpAddr → bool)
    (forwarded_for : option (option string)) (peer : IpAddr) (trust_proxy_headers : bool) : result IpAddr Z :=
  if negb trust_proxy_headers then Ok peer
  else if negb (is_loopback peer) then Err FORBIDDEN
  else
    match forwarded_for with
    | None => Ok peer
    | Some None => Err BAD_REQUEST
    | Some (Some forwarded) =>
        let first := trim (match split_once "," forwarded with Some (a, _) => a | None => forwarded end) in
        if bool_decide (first = "") then Err BAD_REQUEST else ok_or (parse_ip first) BAD_REQUEST
    end.

(** [char::is_control] or a character that changes the direction of text. *)
Definition hidden_char (g : string) : bool :=
  match map byte_of (String.list_ascii_of_string g) with
  | [b] => (b <? 32) || (b =? 127)
  | [a; b] => (a =? 194) && (b <? 160)
  | [a; b; c] =>
      (a =? 226) &&
      (((b =? 128) && (((170 <=? c) && (c <=? 174)) || (c =? 142) || (c =? 143)))
       || ((b =? 129) && (166 <=? c) && (c <=? 169)))
  | _ => false
  end.

Definition sanitize_remote_label (label : string) : string :=
  let sanitized := trim (str_concat (List.filter (λ g, negb (hidden_char g)) (chars label))) in
  if bool_decide (sanitized = "") then "Remote device" else sanitized.

Definition bind_remote_identity (message : ClientMessage) (device label : string) : option ClientMessage :=
  let client := Build_ClientInfo ("remote:" +:+ device) KindAndroid label in
  match message with
  | CmAttach protocol_version session_id _ _ requested =>
      Some (CmAttach protocol_version session_id None client requested)
  | CmResume protocol_version session_id last_seen_seq _ _ requested =>
      Some (CmResume protocol_version session_id last_seen_seq None client requested)
  | _ => None
  end.

Definition is_control_capability (c : ClientCapability) : bool :=
  match c with
  | CapPrompt | CapConfigure | CapInterrupt | CapApproveOnce | CapApproveAlways | CapStop => true
  | CapObserve => false
  end.

(** The capabilities an attach or resume asks for and the device has. *)
Definition requested_of (message : ClientMessage) (granted : list ClientCapability) : list ClientCapability :=
  match message with
  | CmAttach _ _ _ _ requested | CmResume _ _ _ _ _ requested =>
      List.filter (λ c, bool_decide (c ∈ granted)) requested
  | _ => []
  end.

Definition auth_error_message (e : AuthError) : string :=
  match e with
  | UnknownClaim | ExpiredClaim => "pairing claim is invalid or expired"
  | InvalidDeviceKey => "device key is invalid"
  | PairingNotFound => "pairing request was not found"
  | PairingAlreadyResolved => "pairing request was already resolved"
  | CapabilitiesNotRequested => "approval exceeds requested capabilities"
  | DeviceLimitReached => "paired device limit reached"
  | UnknownTicket | DeviceKeyMismatch | InvalidSignature => "device authentication failed"
  end.

(** ** The message rate *)

Record MessageRate := mkRate {
  mr_window_started : Z;
  mr_count : Z;
  mr_max_per_second : Z;
}.

Definition U32_MAX : Z := 4294967295.

Definition rate_check (now : Z) (r : MessageRate) : result unit TransportError * MessageRate :=
  let r := if (SECOND <=? now - mr_window_started r)%Z then mkRate now 0 (mr_max_per_second r) else r in
  let r := mkRate (mr_window_started r) (Z.min (mr_count r + 1) U32_MAX) (mr_max_per_second r) in
  ((if (mr_max_per_second r <? mr_count r)%Z then Err TeBackpressure else Ok ()), r).

(** ** Admission *)

Section admission.
Context {IpAddr : Type} `{Countable IpAddr}.

Definition keep_peer (now : Z) (p : PeerAdmission) : bool :=
  (0 <? pa_unauthenticated p) || (now - pa_window_started p <? MINUTE)%Z.

Definition admit_peer (peer : IpAddr) (attempts_per_minute max_unauthenticated max_peers : nat) (now : Z)
    (peers : gmap IpAddr PeerAdmission) : result unit Z * gmap IpAddr PeerAdmission :=
  let peers := filter (λ e : IpAddr * PeerAdmission, keep_peer now e.2 = true) peers in
  if bool_decide (peers !! peer = None) && (max_peers <=? size peers) then (Err SERVICE_UNAVAILABLE, peers)
  else
    let p := default (mkPeer now 0 0) (peers !! peer) in
    let p := if (MINUTE <=? now - pa_window_started p)%Z then mkPeer now 0 (pa_unauthenticated p) else p in
    let store (p : PeerAdmission) := <[peer := p]> peers in
    if attempts_per_minute <=? pa_attempts p then (Err TOO_MANY_REQUESTS, store p)
    else if max_unauthenticated <=? pa_unauthenticated p then (Err SERVICE_UNAVAILABLE, store p)
    else (Ok (), store (mkPeer (pa_window_started p) (S (pa_attempts p)) (S (pa_unauthenticated p)))).

Definition decrement_unauthenticated (peer : IpAddr) (peers : gmap IpAddr PeerAdmission) : gmap IpAddr PeerAdmission :=
  match peers !! peer with
  | Some p => <[peer := mkPeer (pa_window_started p) (pa_attempts p) (pa_unauthenticated p - 1)]> peers
  | None => peers
  end.
End admission.

(** ** The remote controller *)

Definition acquire_controller (current : option string) (device : string) (capabilities : list ClientCapability)
    : result (option string) unit * option string :=
  if negb (existsb is_control_capability capabilities) then (Ok None, current)
  else
    match current with
    | Some _ => (Err (), current)
    | None => (Ok (Some device), Some device)
    end.

(** Dropping a [ControllerGuard]. *)
Definition release_controller (guard : option string) (current : option string) : option string :=
  match guard with
  | Some device => if bool_decide (current = Some device) then None else current
  | None => current
  end.

(** ** Connections *)

Section gateway.
Context {Key Sig : Type} `{key_eq_dec : !EqDecision Key} `{crypto : !DeviceCrypto Key Sig}.
Context {IpAddr : Type} `{ip_eq_dec : !EqDecision IpAddr} `{ip_countable : !Countable IpAddr}.
Context (parse_ip : string → option IpAddr) (is_loopback : IpAddr → bool).
Context (claim_ttl : Z) (max_devices : nat).
Context (limits : ProtocolLimits) (cfg : RemoteGatewayConfig).

(** Where a connection is.  [device] is the authenticated device, [channel] its
    subscription to the device's notifier, [waiting] a submitted pairing. *)
Inductive ConnPc :=
  | CpStart (challenge : string)
  | CpFirst (challenge : string)
  | CpAuthenticated (device : AuthenticatedDevice)
  | CpMarked (device : AuthenticatedDevice)
  | CpSubscribed (device : AuthenticatedDevice) (channel : nat)
  | CpAttach (device : AuthenticatedDevice) (channel : nat)
  | CpBound (device : AuthenticatedDevice) (channel : nat) (message : ClientMessage)
  | CpServing (device : AuthenticatedDevice) (channel : nat) (message : ClientMessage)
  | CpPairSend (waiting : PendingPairing)
  | CpPairClock (waiting : PendingPairing)
  | CpPairPoll (waiting : PendingPairing) (deadline : Z)
  | CpPairWait (waiting : PendingPairing) (deadline : Z)
  | CpPairDeliver (waiting : PendingPairing) (grant : TicketGrant)
  | CpClosing
  | CpReleased
  | CpDone.

(** [cn_guard] is [AdmissionGuard::unauthenticated], [cn_controller] the device of the
    [ControllerGuard], [cn_permit] whether the connection holds a permit. *)
Record Conn := mkConn {
  cn_peer : IpAddr;
  cn_guard : bool;
  cn_controller : option string;
  cn_permit : bool;
  cn_pc : ConnPc;
  cn_sent : list RemoteServerFrame;
}.

(** What the connections share; [gw_ops] is the history of the authority. *)
Record Gateway := mkGateway {
  gw_authority : AuthorityState (Key := Key);
  gw_ops : list AuthOp;
  gw_controller : option string;
  gw_peers : gmap IpAddr PeerAdmission;
  gw_permits : nat;
}.

Inductive Input :=
  | InSent (ok : bool)
  | InFrame (frame : option RemoteClientFrame) (now : Z) (uuid : string)
  | InMessage (message : option ClientMessage)
  | InRevoked
  | InServed
  | InNow (now : Z)
  | InTick
  | InText
  | InStep.

Definition perform (op : AuthOp) (g : Gateway) : Gateway :=
  mkGateway (auth_op claim_ttl max_devices (gw_authority g) op) (gw_ops g ++ [op]) (gw_controller g) (gw_peers g)
    (gw_permits g).
Definition set_controller (c : option string) (g : Gateway) : Gateway :=
  mkGateway (gw_authority g) (gw_ops g) c (gw_peers g) (gw_permits g).
Definition set_peers (p : gmap IpAddr PeerAdmission) (g : Gateway) : Gateway :=
  mkGateway (gw_authority g) (gw_ops g) (gw_controller g) p (gw_permits g).
Definition set_permits (n : nat) (g : Gateway) : Gateway :=
  mkGateway (gw_authority g) (gw_ops g) (gw_controller g) (gw_peers g) n.

Definition goto (pc : ConnPc) (sent : list RemoteServerFrame) (c : Conn) : Conn :=
  mkConn (cn_peer c) (cn_guard c) (cn_controller c) (cn_permit c) pc (cn_sent c ++ sent).

(** The connection ends, after a last frame whose fate does not matter. *)
Definition close (sent : list RemoteServerFrame) (c : Conn) : Conn := goto CpClosing sent c.

Definition fail (code message : string) (c : Conn) : Conn := close [RsError code message] c.

(** [serve_pairing], up to the submitted request. *)
Definition start_pairing (claim key label : string) (requested : list ClientCapability) (now : Z) (uuid : string)
    (g : Gateway) (c : Conn) : Gateway * Conn :=
  if (max_label_bytes limits <? String.length label) || (max_capabilities limits <? length requested)
  then (g, fail "invalid_pairing" "pairing metadata exceeds configured limits" c)
  else
    let op := OpSubmit claim key (sanitize_remote_label label) requested now uuid in
    match (submit_pairing_at claim key (sanitize_remote_label label) requested now uuid (gw_authority g)).1 with
    | Ok pending => (perform op g, goto (CpPairSend pending) [] c)
    | Err e => (perform op g, fail "pairing_rejected" (auth_error_message e) c)
    end.

(** The step of a connection on an input; [None] when the connection does not wait for it. *)
Definition conn_step (i : Input) (g : Gateway) (c : Conn) : option (Gateway * Conn) :=
  match cn_pc c, i with
  | CpStart challenge, InSent ok =>
      Some (g, if ok then goto (CpFirst challenge) [RsChallenge challenge] c else close [] c)
  | CpFirst challenge, InFrame frame now uuid =>
      Some (match frame with
            | None => (g, close [] c)
            | Some (RfPair claim key label requested) => start_pairing claim key label requested now uuid g c
            | Some (RfAuthenticate ticket key signature) =>
                match authenticate ticket key challenge signature (gw_authority g) with
                | Err e => (g, fail "authentication_failed" (auth_error_message e) c)
                | Ok device => (g, goto (CpAuthenticated device) [] c)
                end
            end)
  | CpAuthenticated device, InStep =>
      Some (if cn_guard c
            then (set_peers (decrement_unauthenticated (cn_peer c) (gw_peers g)) g,
                  mkConn (cn_peer c) false (cn_controller c) (cn_permit c) (CpMarked device) (cn_sent c))
            else (g, goto (CpMarked device) [] c))
  | CpMarked device, InStep =>
      Some (g, match revocation_receiver (ad_device_id device) (gw_authority g) with
               | Some channel => goto (CpSubscribed device channel) [] c
               | None => close [] c
               end)
  | CpSubscribed device channel, InSent ok =>
      Some (g, if ok then goto (CpAttach device channel) [RsAuthenticated (ad_device_id device) (ad_capabilities device)] c
               else close [] c)
  | CpAttach device channel, InMessage message =>
      Some (g, match message with
               | None => close [] c
               | Some m =>
                   match bind_remote_identity m (ad_device_id device) (ad_label device) with
                   | Some m => goto (CpBound device channel m) [] c
                   | None => fail "invalid_attach" "first authenticated frame must attach or resume" c
                   end
               end)
  | CpAttach device channel, InRevoked =>
      if bool_decide (channel ∈ au_signalled (gw_authority g)) then Some (g, close [] c) else None
  | CpBound device channel m, InStep =>
      Some (match acquire_controller (gw_controller g) (ad_device_id device) (requested_of m (ad_capabilities device)) with
            | (Ok guard, current) =>
                (set_controller current g,
                 mkConn (cn_peer c) (cn_guard c) guard (cn_permit c) (CpServing device channel m) (cn_sent c))
            | (Err _, current) =>
                (set_controller current g, fail "controller_busy" "another remote controller is attached" c)
            end)
  | CpServing device channel m, InServed => Some (g, close [] c)
  | CpServing device channel m, InRevoked =>
      if bool_decide (channel ∈ au_signalled (gw_authority g)) then Some (g, close [] c) else None
  | CpPairSend p, InSent ok =>
      Some (if ok then (g, goto (CpPairClock p) [RsPairingPending p] c)
            else (perform (OpAbort (pp_id p)) g, close [] c))
  | CpPairClock p, InNow now => Some (g, goto (CpPairPoll p (now + rg_pairing_wait cfg)) [] c)
  | CpPairPoll p deadline, InNow now =>
      Some (match pairing_grant (pp_id p) (gw_authority g) with
            | Ok (Some grant) => (g, goto (CpPairDeliver p grant) [] c)
            | Ok None =>
                if (now <? deadline)%Z then (g, goto (CpPairWait p deadline) [] c)
                else (perform (OpAbort (pp_id p)) g, fail "pairing_timeout" "local approval timed out" c)
            | Err e => (perform (OpFinish (pp_id p)) g, fail "pairing_denied" (auth_error_message e) c)
            end)
  | CpPairWait p deadline, InTick => Some (g, goto (CpPairPoll p deadline) [] c)
  | CpPairWait p deadline, InText =>
      Some (perform (OpAbort (pp_id p)) g,
            fail "unexpected_pairing_frame" "pairing waits only for local consent" c)
  | CpPairWait p deadline, InMessage None => Some (perform (OpAbort (pp_id p)) g, close [] c)
  | CpPairDeliver p grant, InSent ok =>
      Some (if ok then (perform (OpFinish (pp_id p)) g, close [RsPairingApproved grant; RsPairingCommitted (pp_device_id p)] c)
            else (perform (OpAbort (pp_id p)) g, close [] c))
  | CpClosing, InStep =>
      Some (set_controller (release_controller (cn_controller c) (gw_controller g)) g,
            mkConn (cn_peer c) (cn_guard c) None (cn_permit c) CpReleased (cn_sent c))
  | CpReleased, InStep =>
      Some (set_peers (if cn_guard c then decrement_unauthenticated (cn_peer c) (gw_peers g) else gw_peers g) g,
            mkConn (cn_peer c) false (cn_controller c) (cn_permit c) CpDone (cn_sent c))
  | CpDone, InStep =>
      if cn_permit c
      then Some (set_permits (S (gw_permits g)) g,
                 mkConn (cn_peer c) (cn_guard c) (cn_controller c) false CpDone (cn_sent c))
      else None
  | _, _ => None
  end.

(** [websocket_upgrade]: the status of a refusal or the accepted connection.  A refusal
    for want of a permit drops the admission guard; the admission and the permit are
    taken one after the other, and neither looks at the other's state. *)
Definition websocket_upgrade (origin forwarded_for : option (option string)) (peer : IpAddr) (now : Z)
    (challenge : string) (g : Gateway) : result Conn Z * Gateway :=
  if negb (origin_allowed origin (rg_allowed_origins cfg)) then (Err FORBIDDEN, g)
  else
    match admission_peer parse_ip is_loopback forwarded_for peer (rg_trust_proxy_headers cfg) with
    | Err status => (Err status, g)
    | Ok peer =>
        match admit_peer peer (rg_admission_attempts_per_minute cfg) (rg_max_unauthenticated_per_ip cfg)
                (rg_max_admission_peers cfg) now (gw_peers g) with
        | (Err status, peers) => (Err status, set_peers peers g)
        | (Ok _, peers) =>
            match gw_permits g with
            | O => (Err SERVICE_UNAVAILABLE, set_peers (decrement_unauthenticated peer peers) g)
            | S n => (Ok (mkConn peer true None true (CpStart challenge) []), set_permits n (set_peers peers g))
            end
        end
    end.

(** ** The system *)

Record GwSystem := mkGwSystem {
  sy_gateway : Gateway;
  sy_conns : gmap nat Conn;
}.

Definition gw_start : GwSystem := mkGwSystem (mkGateway authority_new [] None ∅ (rg_max_connections cfg)) ∅.

(** The commands of the operator. *)
Definition operator_op (op : AuthOp) : bool :=
  match op with OpCreateClaim _ _ | OpApprove _ _ _ | OpDeny _ | OpRevoke _ => true | _ => false end.

Inductive gw_step : GwSystem → GwSystem → Prop :=
  | GwUpgrade g conns i origin forwarded_for peer now challenge r g' :
      conns !! i = None → websocket_upgrade origin forwarded_for peer now challenge g = (r, g') →
      gw_step (mkGwSystem g conns)
        (mkGwSystem g' (match r with Ok c => <[i := c]> conns | Err _ => conns end))
  | GwConn g conns i c input g' c' :
      conns !! i = Some c → conn_step input g c = Some (g', c') →
      gw_step (mkGwSystem g conns) (mkGwSystem g' (<[i := c']> conns))
  | GwOperator g conns op :
      operator_op op = true → gw_step (mkGwSystem g conns) (mkGwSystem (perform op g) conns).

Definition gw_reachable : GwSystem → Prop := rtc gw_step gw_start.

(** *** What a step does to each part of the state *)

Ltac conn_cases c i :=
  unfold conn_step, start_pairing, acquire_controller, fail, close, goto;
  destruct (cn_pc c) eqn:?, i; intros Hstep; try discriminate Hstep; repeat case_match; simplify_eq/=.

Lemma conn_step_peer i g c g' c' : conn_step i g c = Some (g', c') → cn_peer c' = cn_peer c.
Proof. conn_cases c i; done. Qed.

(** The authority is untouched or performs an operation of the connection. *)
Lemma conn_step_authority i g c g' c' :
  conn_step i g c = Some (g', c') →
  (gw_authority g' = gw_authority g ∧ gw_ops g' = gw_ops g) ∨
  ∃ op, gw_authority g' = auth_op claim_ttl max_devices (gw_authority g) op ∧ gw_ops g' = gw_ops g ++ [op].
Proof. conn_cases c i; try (by left); right; eexists; (split; [|reflexivity]); reflexivity. Qed.

(** A guard is given back together with its place in the count. *)
Lemma conn_step_guard i g c g' c' :
  conn_step i g c = Some (g', c') →
  (gw_peers g' = gw_peers g ∧ cn_guard c' = cn_guard c) ∨
  (gw_peers g' = decrement_unauthenticated (cn_peer c) (gw_peers g) ∧ cn_guard c = true ∧ cn_guard c' = false).
Proof. conn_cases c i; eauto. Qed.

Lemma conn_step_permit i g c g' c' :
  conn_step i g c = Some (g', c') →
  (gw_permits g' = gw_permits g ∧ cn_permit c' = cn_permit c) ∨
  (gw_permits g' = S (gw_permits g) ∧ cn_permit c = true ∧ cn_permit c' = false).
Proof. conn_cases c i; eauto. Qed.

(** Only a connection that serves or is about to close holds the controller. *)
Definition may_control (pc : ConnPc) : bool :=
  match pc with CpServing _ _ _ | CpClosing => true | _ => false end.

Definition guard_ok (c : Conn) : Prop := may_control (cn_pc c) = false → cn_controller c = None.

Lemma conn_step_controller i g c g' c' :
  guard_ok c → conn_step i g c = Some (g', c') →
  guard_ok c' ∧
  ((gw_controller g' = gw_controller g ∧ cn_controller c' = cn_controller c) ∨
   (∃ d, gw_controller g = None ∧ gw_controller g' = Some d ∧ cn_controller c = None ∧ cn_controller c' = Some d) ∨
   (gw_controller g' = release_controller (cn_controller c) (gw_controller g) ∧ cn_controller c' = None)).
Proof.
  intros Hok. unfold guard_ok in *. conn_cases c i; simpl in *; try rewrite Hok in * by done;
    (split; [done|]); try (by left); try (by right; left; eauto); by right; right.
Qed.

(** *** Pending pairings and the connections that wait on them *)

Definition waiting (c : Conn) : option string :=
  match cn_pc c with
  | CpPairSend p | CpPairClock p | CpPairPoll p _ | CpPairWait p _ | CpPairDeliver p _ => Some (pp_id p)
  | _ => None
  end.

Lemma submit_pending claim key label requested now uuid (s : AuthorityState (Key := Key)) pid :
  let '(r, s') := submit_pairing_at claim key label requested now uuid s in
  is_Some (au_pending s' !! pid) → is_Some (au_pending s !! pid) ∨ ∃ p, r = Ok p ∧ pp_id p = pid.
Proof.
  unfold submit_pairing_at. repeat case_match; simplify_eq/=; try by left.
  destruct (decide (uuid = pid)) as [<-|Hne]; [by eauto|]. rewrite lookup_insert_ne by done. by left.
Qed.

Lemma finish_pending pid (s : AuthorityState (Key := Key)) x :
  is_Some (au_pending (finish_pairing pid s) !! x) → is_Some (au_pending s !! x) ∧ x ≠ pid.
Proof.
  rewrite (proj2 (finish_rest s pid)). intros [q [Hne Hq]%lookup_delete_Some]. by split; [eexists|].
Qed.

Lemma abort_pending pid (s : AuthorityState (Key := Key)) x :
  is_Some (au_pending (abort_pairing pid s) !! x) → is_Some (au_pending s !! x) ∧ x ≠ pid.
Proof. unfold abort_pairing. simpl. intros [q [Hne Hq]%lookup_delete_Some]. by split; [eexists|]. Qed.

Lemma conn_step_waiting i g c g' c' pid :
  conn_step i g c = Some (g', c') → is_Some (au_pending (gw_authority g') !! pid) →
  waiting c' = Some pid ∨ (is_Some (au_pending (gw_authority g) !! pid) ∧ waiting c ≠ Some pid).
Proof.
  intros Hs Hp. revert Hs Hp. unfold conn_step, start_pairing, acquire_controller, fail, close, goto, waiting.
  destruct (cn_pc c) eqn:Hpc, i; intros Hs; try discriminate Hs; repeat case_match; simplify_eq/=;
    try (intros Hpd; right; by split); try (intros Hpd; left; by destruct Hpd as [? [Hne ?]%lookup_delete_Some]).
  all: try (by intros [? ?]%finish_pending; right; (split; [done|congruence])).
  all: try (by intros [? [Hne ?]%lookup_delete_Some]; right; (split; [by eexists|congruence])).
  all: try (match goal with |- _ → ?w = ?x ∨ _ => destruct (decide (w = x)); [by left|by right] end).
  all: match goal with |- context [submit_pairing_at ?a ?b ?l ?r ?n ?u ?s] =>
    pose proof (submit_pending a b l r n u s) as Hsp; destruct (submit_pairing_at a b l r n u s) as [r0 s0] end;
    simpl in *; simplify_eq; intros [Hpd|(p0&?&?)]%Hsp; simplify_eq; first [by left|by right].
Qed.

(** *** What an authenticated connection knows *)

Notation history_state ops := (auth_run claim_ttl max_devices ops).

(** The device answered the challenge this connection sent, at some earlier time. *)
Definition authed (ops : list AuthOp) (c : Conn) (device : AuthenticatedDevice) : Prop :=
  ∃ before later ticket key challenge signature, ops = before ++ later ∧ RsChallenge challenge ∈ cn_sent c ∧
    authenticate ticket key challenge signature (history_state before) = Ok device.

(** The channel was the notifier of the device at some earlier time. *)
Definition subscribed (ops : list AuthOp) (device : AuthenticatedDevice) (channel : nat) : Prop :=
  ∃ before later, ops = before ++ later ∧
    revocation_receiver (ad_device_id device) (history_state before) = Some channel.

Definition bound (m : ClientMessage) (device : AuthenticatedDevice) : Prop :=
  ∃ m0, bind_remote_identity m0 (ad_device_id device) (ad_label device) = Some m.

Definition conn_known (ops : list AuthOp) (c : Conn) : Prop :=
  match cn_pc c with
  | CpFirst challenge => RsChallenge challenge ∈ cn_sent c
  | CpAuthenticated d | CpMarked d => authed ops c d
  | CpSubscribed d channel | CpAttach d channel => authed ops c d ∧ subscribed ops d channel
  | CpBound d channel m | CpServing d channel m => authed ops c d ∧ subscribed ops d channel ∧ bound m d
  | _ => True
  end.

Lemma authed_mono ops more c c' d :
  cn_sent c ⊆ cn_sent c' → authed ops c d → authed (ops ++ more) c' d.
Proof.
  intros Hs (b&l&t&k&ch&sg&->&Hin&Ha). exists b, (l ++ more), t, k, ch, sg. split_and!; [by simplify_list_eq| |done]. by apply Hs.
Qed.

Lemma subscribed_mono ops more d n : subscribed ops d n → subscribed (ops ++ more) d n.
Proof. intros (b&l&->&H). exists b, (l ++ more). split; [by simplify_list_eq|done]. Qed.

Lemma conn_known_mono ops more c : conn_known ops c → conn_known (ops ++ more) c.
Proof.
  unfold conn_known. destruct (cn_pc c); try done; [by apply authed_mono..| | | |]; intros (?&?);
    (split; [by eapply authed_mono|]); try by apply subscribed_mono.
  all: destruct_and!; split; [by apply subscribed_mono|done].
Qed.

Lemma conn_step_known i g c g' c' :
  gw_authority g = history_state (gw_ops g) →
  conn_known (gw_ops g) c → conn_step i g c = Some (g', c') → conn_known (gw_ops g') c'.
Proof.
  intros Hauth Hk Hs. revert Hk. unfold conn_known.
  assert (Hsame : ∀ d c1, cn_sent c ⊆ cn_sent c1 → authed (gw_ops g) c d → authed (gw_ops g) c1 d).
  { intros d c1 Hsub Ha. rewrite <- (app_nil_r (gw_ops g)). by eapply authed_mono. }
  revert Hs. unfold conn_step, start_pairing, acquire_controller, fail, close, goto.
  destruct (cn_pc c) eqn:Hpc, i; intros Hs; try discriminate Hs; repeat case_match; simplify_eq/=; try done;
    intros Hk; destruct_and?; split_and?; try done; try (apply Hsame; [simpl; set_solver|done]).
  - set_solver.
  - eexists (gw_ops g'), [], _, _, challenge, _. rewrite app_nil_r, <- Hauth. simpl.
    split_and!; [done|set_solver|done].
  - exists (gw_ops g'), []. by rewrite app_nil_r, <- Hauth.
  - by eexists.
Qed.

(** *** Counting connections *)

Definition guards (peer : IpAddr) (m : gmap nat Conn) : nat :=
  tally (λ c, cn_guard c && bool_decide (cn_peer c = peer)) m.

Definition unauthenticated (peers : gmap IpAddr PeerAdmission) (peer : IpAddr) : nat :=
  match peers !! peer with Some p => pa_unauthenticated p | None => 0 end.

Lemma kept_unauthenticated now peers peer :
  unauthenticated (filter (λ e : IpAddr * PeerAdmission, keep_peer now e.2 = true) peers) peer = unauthenticated peers peer.
Proof.
  unfold unauthenticated. destruct (peers !! peer) as [p|] eqn:Hp.
  - destruct (keep_peer now p) eqn:Hk.
    + by rewrite (map_lookup_filter_Some_2 _ peers peer p).
    + rewrite map_lookup_filter_None_2; [|right; intros q Hq; simplify_eq; simpl; congruence].
      unfold keep_peer in Hk. apply orb_false_iff in Hk as [Hk _]. apply Nat.ltb_ge in Hk. lia.
  - by rewrite map_lookup_filter_None_2 by (by left).
Qed.

Lemma unauthenticated_insert peers peer p q :
  unauthenticated (<[peer := p]> peers) q = if decide (peer = q) then pa_unauthenticated p else unauthenticated peers q.
Proof.
  unfold unauthenticated. destruct (decide (peer = q)) as [<-|Hne]; [by rewrite lookup_insert_eq|by rewrite lookup_insert_ne].
Qed.

Lemma admit_peer_spec peer attempts max_unauth max_peers now peers :
  size peers ≤ max_peers →
  let '(r, peers') := admit_peer peer attempts max_unauth max_peers now peers in
  size peers' ≤ max_peers ∧
  match r with
  | Ok _ => unauthenticated peers peer < max_unauth ∧
      ∀ q, unauthenticated peers' q = (if decide (peer = q) then 1 else 0) + unauthenticated peers q
  | Err _ => ∀ q, unauthenticated peers' q = unauthenticated peers q
  end.
Proof.
  intros Hsz. unfold admit_peer. set (kept := filter _ peers).
  assert (Hks : size kept ≤ max_peers) by (etrans; [apply map_size_filter|done]).
  pose proof (λ q, kept_unauthenticated now peers q) as Hk. fold kept in Hk.
  destruct (bool_decide _ && _) eqn:Hfull; [done|].
  assert (Hins : ∀ p, size (<[peer := p]> kept) ≤ max_peers).
  { intros p. destruct (kept !! peer) as [q|] eqn:Hq.
    - by rewrite map_size_insert_Some by eauto.
    - rewrite map_size_insert_None by done. rewrite bool_decide_true in Hfull by done.
      simpl in Hfull. apply Nat.leb_gt in Hfull. lia. }
  set (p0 := default (mkPeer now 0 0) (kept !! peer)).
  assert (Hp0 : pa_unauthenticated p0 = unauthenticated peers peer).
  { rewrite <- Hk. unfold p0, unauthenticated. by destruct (kept !! peer). }
  set (p := if (MINUTE <=? now - pa_window_started p0)%Z then mkPeer now 0 (pa_unauthenticated p0) else p0).
  assert (Hp : pa_unauthenticated p = unauthenticated peers peer) by (unfold p; by case_match).
  clearbody p. destruct (attempts <=? pa_attempts p); [|destruct (Nat.leb_spec max_unauth (pa_unauthenticated p))].
  1,2: split; [apply Hins|]; intros q; rewrite unauthenticated_insert, Hk; by destruct (decide _) as [<-|].
  split; [apply Hins|]. split; [lia|]. intros q. rewrite unauthenticated_insert, Hk.
  destruct (decide (peer = q)) as [<-|]; simpl; lia.
Qed.

Lemma decrement_spec peer peers q :
  unauthenticated (decrement_unauthenticated peer peers) q =
  unauthenticated peers q - (if decide (peer = q) then 1 else 0).
Proof.
  unfold decrement_unauthenticated. destruct (peers !! peer) as [p|] eqn:Hp.
  - rewrite unauthenticated_insert. destruct (decide (peer = q)) as [<-|]; [|lia]. unfold unauthenticated. by rewrite Hp.
  - destruct (decide (peer = q)) as [<-|]; [|lia]. unfold unauthenticated. by rewrite Hp.
Qed.

Lemma decrement_size (peer : IpAddr) peers : size (decrement_unauthenticated peer peers) = size peers.
Proof.
  unfold decrement_unauthenticated. destruct (peers !! peer) as [p|] eqn:Hp; [|done]. apply map_size_insert_Some. eauto.
Qed.

(** *** The invariant of the system *)

Record authority_ok (sys : GwSystem) : Prop := {
  ao_history : gw_authority (sy_gateway sys) = history_state (gw_ops (sy_gateway sys));
  ao_known i c : sy_conns sys !! i = Some c → conn_known (gw_ops (sy_gateway sys)) c;
  ao_pending pid : is_Some (au_pending (gw_authority (sy_gateway sys)) !! pid) →
    ∃ i c, sy_conns sys !! i = Some c ∧ waiting c = Some pid;
}.

Record controller_ok (sys : GwSystem) : Prop := {
  co_guard i c : sy_conns sys !! i = Some c → guard_ok c;
  co_holder i c d : sy_conns sys !! i = Some c → cn_controller c = Some d → gw_controller (sy_gateway sys) = Some d;
  co_single i j c c' : sy_conns sys !! i = Some c → sy_conns sys !! j = Some c' →
    is_Some (cn_controller c) → is_Some (cn_controller c') → i = j;
  co_held d : gw_controller (sy_gateway sys) = Some d → ∃ i c, sy_conns sys !! i = Some c ∧ cn_controller c = Some d;
}.

Record admission_ok (sys : GwSystem) : Prop := {
  mo_count peer : guards peer (sy_conns sys) = unauthenticated (gw_peers (sy_gateway sys)) peer;
  mo_limit peer : unauthenticated (gw_peers (sy_gateway sys)) peer ≤ rg_max_unauthenticated_per_ip cfg;
  mo_peers : size (gw_peers (sy_gateway sys)) ≤ rg_max_admission_peers cfg;
  mo_permits : gw_permits (sy_gateway sys) + tally cn_permit (sy_conns sys) = rg_max_connections cfg;
  mo_live i c : sy_conns sys !! i = Some c → cn_pc c ≠ CpDone → cn_permit c = true;
}.

Lemma upgrade_fields origin forwarded peer now challenge g r g' :
  websocket_upgrade origin forwarded peer now challenge g = (r, g') →
  gw_authority g' = gw_authority g ∧ gw_ops g' = gw_ops g ∧ gw_controller g' = gw_controller g ∧
  (size (gw_peers g) ≤ rg_max_admission_peers cfg → size (gw_peers g') ≤ rg_max_admission_peers cfg ∧
   match r with
   | Ok c => ∃ p, c = mkConn p true None true (CpStart challenge) [] ∧ gw_permits g = S (gw_permits g') ∧
       unauthenticated (gw_peers g) p < rg_max_unauthenticated_per_ip cfg ∧
       ∀ q, unauthenticated (gw_peers g') q = (if decide (p = q) then 1 else 0) + unauthenticated (gw_peers g) q
   | Err _ => gw_permits g' = gw_permits g ∧ ∀ q, unauthenticated (gw_peers g') q = unauthenticated (gw_peers g) q
   end).
Proof.
  unfold websocket_upgrade. destruct (negb _); [by intros [= <- <-]|].
  destruct (admission_peer _ _ _ _ _) as [p|status]; [|by intros [= <- <-]].
  pose proof (admit_peer_spec p (rg_admission_attempts_per_minute cfg) (rg_max_unauthenticated_per_ip cfg)
    (rg_max_admission_peers cfg) now (gw_peers g)) as H.
  destruct (admit_peer _ _ _ _ _ _) as [[[]|status] peers]; [|by intros [= <- <-]; split_and!; try done; intros [? ?]%H].
  destruct (gw_permits g) as [|n] eqn:Hn; intros [= <- <-]; simpl; split_and!; try done; intros (Hsz&Hlt&Hq)%H.
  - split; [by rewrite decrement_size|]. split; [done|]. intros q. rewrite decrement_spec, Hq. destruct (decide _); lia.
  - split; [done|]. exists p. done.
Qed.

Lemma authority_step_ok sys sys' : gw_step sys sys' → authority_ok sys → authority_ok sys'.
Proof.
  intros Hstep Hok. destruct Hok as [Hh Hk Hp].
  destruct Hstep as [g conns i origin fw peer now ch r g' Hi Hu|g conns i c input g' c' Hi Hs|g conns op Hop]; simpl in *.
  - destruct (upgrade_fields _ _ _ _ _ _ _ _ Hu) as (Ha&Ho&_&_). split; simpl; rewrite ?Ha, ?Ho; [done| |].
    + intros j cj Hj. destruct r as [c|]; [|by eapply Hk].
      apply lookup_insert_Some in Hj as [[<- <-]|[_ Hj]]; [|by eapply Hk].
      unfold websocket_upgrade in Hu. by repeat case_match; simplify_eq/=.
    + intros pid (j&cj&Hj&Hw)%Hp. exists j, cj. split; [|done]. destruct r; [|done].
      rewrite lookup_insert_ne; [done|congruence].
  - split; simpl.
    + destruct (conn_step_authority _ _ _ _ _ Hs) as [[-> ->]|(op&->&->)]; [done|]. by rewrite auth_run_snoc, Hh.
    + intros j cj [[<- <-]|[_ Hj]]%lookup_insert_Some.
      * eapply conn_step_known; [done| |done]. by eapply Hk.
      * destruct (conn_step_authority _ _ _ _ _ Hs) as [[_ ->]|(op&_&->)]; [by eapply Hk|].
        apply conn_known_mono. by eapply Hk.
    + intros pid [Hw|[Hpd Hw]]%(conn_step_waiting _ _ _ _ _ _ Hs).
      * exists i, c'. by rewrite lookup_insert_eq.
      * destruct (Hp pid Hpd) as (j&cj&Hj&Hwj). exists j, cj. split; [|done].
        rewrite lookup_insert_ne; [done|]. intros ->. congruence.
  - split; simpl.
    + by rewrite auth_run_snoc, Hh.
    + intros j cj Hj. apply conn_known_mono. by eapply Hk.
    + intros pid Hpd. apply Hp. revert Hpd. destruct op; simpl in *; try done.
      * unfold approve. repeat case_match; simpl; try done. intros [q [[<- _]|[_ ?]]%lookup_insert_Some]; by eauto.
      * unfold deny. repeat case_match; simpl; try done. intros [q [[<- _]|[_ ?]]%lookup_insert_Some]; by eauto.
Qed.

Lemma controller_ok_others sys g' i c' :
  controller_ok sys → gw_controller g' = gw_controller (sy_gateway sys) → guard_ok c' →
  (∀ c, sy_conns sys !! i = Some c → cn_controller c' = cn_controller c) →
  (sy_conns sys !! i = None → cn_controller c' = None) →
  controller_ok (mkGwSystem g' (<[i := c']> (sy_conns sys))).
Proof.
  intros [Hg Hh Hs He] Hc Hok Hsame Hnew.
  assert (Hlift : ∀ j c, <[i := c']> (sy_conns sys) !! j = Some c → is_Some (cn_controller c) →
    ∃ c0, sy_conns sys !! j = Some c0 ∧ cn_controller c0 = cn_controller c).
  { intros j c [[<- <-]|[_ Hj]]%lookup_insert_Some Hsome; [|by eauto].
    destruct (sy_conns sys !! i) as [c0|] eqn:Hi; [exists c0; split; [done|symmetry; by apply Hsame]|].
    rewrite Hnew in Hsome by done. by destruct Hsome. }
  split; simpl; rewrite ?Hc.
  - intros j c [[<- <-]|[_ Hj]]%lookup_insert_Some; [done|by eapply Hg].
  - intros j c d Hj Hd. destruct (Hlift j c Hj) as (c0&H0&E); [by eauto|]. eapply Hh; [exact H0|congruence].
  - intros j k c c1 Hj Hk Hsj Hsk. destruct (Hlift j c Hj Hsj) as (c0&H0&E0), (Hlift k c1 Hk Hsk) as (c2&H2&E2).
    eapply Hs; [exact H0|exact H2|by rewrite E0|by rewrite E2].
  - intros d (j&c&Hj&Hd)%He. destruct (decide (i = j)) as [<-|Hne].
    + exists i, c'. rewrite lookup_insert_eq. split; [done|]. by rewrite (Hsame c Hj).
    + exists j, c. by rewrite lookup_insert_ne.
Qed.

Lemma controller_step_ok sys sys' : gw_step sys sys' → controller_ok sys → controller_ok sys'.
Proof.
  intros Hstep Hok. destruct Hstep as [g conns i origin fw peer now ch r g' Hi Hu|g conns i c input g' c' Hi Hs|g conns op Hop].
  - destruct (upgrade_fields _ _ _ _ _ _ _ _ Hu) as (_&_&Hc&_).
    destruct r as [c|]; [|destruct Hok; split; simpl in *; rewrite ?Hc; done].
    unfold websocket_upgrade in Hu. repeat case_match; simplify_eq/=.
    by apply (controller_ok_others (mkGwSystem g conns)); simpl; [..|intros ? ?; simplify_eq|].
  - pose proof Hok as [Hg Hh Hsi He]. simpl in *.
    destruct (conn_step_controller _ _ _ _ _ (Hg i c Hi) Hs) as [Hok' [[Hc Hcc]|[(d&Hn&Hc&Hcn&Hcs)|[Hc Hcn]]]].
    + apply (controller_ok_others (mkGwSystem g conns)); simpl; [done..| |by rewrite Hi]. intros c0 H0. congruence.
    + assert (Hnone : ∀ j cj, conns !! j = Some cj → cn_controller cj = None).
      { intros j cj Hj. destruct (cn_controller cj) as [d'|] eqn:E; [|done]. rewrite (Hh j cj d' Hj E) in Hn. done. }
      split; simpl; rewrite ?Hc.
      * intros j cj [[<- <-]|[_ Hj]]%lookup_insert_Some; [done|by eapply Hg].
      * intros j cj d' [[<- <-]|[_ Hj]]%lookup_insert_Some Hd; [congruence|]. rewrite (Hnone j cj Hj) in Hd. done.
      * intros j k cj ck [[<- <-]|[_ Hj]]%lookup_insert_Some [[<- <-]|[_ Hk]]%lookup_insert_Some [x Hx] [y Hy];
          [done|rewrite (Hnone k ck Hk) in Hy; done|rewrite (Hnone j cj Hj) in Hx; done..].
      * intros d' [= <-]. exists i, c'. by rewrite lookup_insert_eq.
    + destruct (cn_controller c) as [d|] eqn:Hd; simpl in Hc; cycle 1.
      { apply (controller_ok_others (mkGwSystem g conns)); simpl; [done..| |done]. intros c0 H0. congruence. }
      pose proof (Hh i c d Hi Hd) as Hcur. rewrite bool_decide_true in Hc by done.
      assert (Hothers : ∀ j cj, i ≠ j → conns !! j = Some cj → cn_controller cj = None).
      { intros j cj Hne Hj. destruct (cn_controller cj) as [x|] eqn:E; [|done]. exfalso. apply Hne.
        eapply Hsi; [exact Hi|exact Hj|by eauto|by eauto]. }
      split; simpl; rewrite ?Hc.
      * intros j cj [[<- <-]|[_ Hj]]%lookup_insert_Some; [done|by eapply Hg].
      * intros j cj x [[<- <-]|[Hne Hj]]%lookup_insert_Some Hx; [congruence|]. by rewrite (Hothers j cj Hne Hj) in Hx.
      * intros j k cj ck [[<- <-]|[Hne Hj]]%lookup_insert_Some Hk [x Hx] _; [congruence|].
        by rewrite (Hothers j cj Hne Hj) in Hx.
      * done.
  - destruct Hok. by split.
Qed.

Lemma conn_step_live i g c g' c' :
  conn_step i g c = Some (g', c') → (cn_pc c ≠ CpDone → cn_permit c = true) → cn_pc c' ≠ CpDone → cn_permit c' = true.
Proof. conn_cases c i; auto. Qed.

Lemma admission_step_ok sys sys' : gw_step sys sys' → admission_ok sys → admission_ok sys'.
Proof.
  intros Hstep [Hcount Hlim Hpeers Hperm Hlive].
  destruct Hstep as [g conns i origin fw peer now ch r g' Hi Hu|g conns i c input g' c' Hi Hs|g conns op Hop]; simpl in *.
  - destruct (upgrade_fields _ _ _ _ _ _ _ _ Hu) as (_&_&_&Hrest). destruct (Hrest Hpeers) as [Hsz Hr].
    destruct r as [c|].
    + destruct Hr as (p&->&Hp&Hlt&Hq). split; simpl; [| |done| |].
      * intros q. unfold guards. rewrite tally_insert_new by done. simpl. rewrite Hq. fold (guards q conns). rewrite Hcount.
        destruct (decide (p = q)) as [->|]; [by rewrite bool_decide_true|by rewrite bool_decide_false].
      * intros q. rewrite Hq. destruct (decide (p = q)) as [<-|]; [lia|]. simpl. apply Hlim.
      * rewrite tally_insert_new by done. simpl. lia.
      * intros j cj [[<- <-]|[_ Hj]]%lookup_insert_Some; [done|by apply Hlive with j].
    + destruct Hr as [Hp Hq]. split; simpl; [intros q; by rewrite Hq|intros q; rewrite Hq; apply Hlim|done|by rewrite Hp|done].
  - pose proof (conn_step_peer _ _ _ _ _ Hs) as Hpeer. split; simpl.
    + intros q. unfold guards. pose proof (tally_insert (λ c, cn_guard c && bool_decide (cn_peer c = q)) conns i c c' Hi) as Hci.
      specialize (Hcount q). unfold guards in Hcount. simpl in Hci. rewrite Hpeer in Hci.
      destruct (conn_step_guard _ _ _ _ _ Hs) as [[-> Hg]|(->&Hg&Hg')]; [rewrite Hg in Hci; lia|].
      rewrite Hg, Hg' in Hci. simpl in Hci. rewrite decrement_spec.
      destruct (decide (cn_peer c = q)) as [Heq|Hne]; [rewrite bool_decide_true in Hci by done; simpl in Hci; lia|].
      rewrite bool_decide_false in Hci by done. simpl in Hci. lia.
    + intros q. specialize (Hlim q). destruct (conn_step_guard _ _ _ _ _ Hs) as [[-> _]|(->&_)]; [done|].
      rewrite decrement_spec. lia.
    + destruct (conn_step_guard _ _ _ _ _ Hs) as [[-> _]|(->&_)]; [done|]. by rewrite decrement_size.
    + pose proof (tally_insert cn_permit conns i c c' Hi) as Hci.
      destruct (conn_step_permit _ _ _ _ _ Hs) as [[-> Hp]|(->&Hp&Hp')]; [rewrite Hp in Hci; lia|].
      rewrite Hp, Hp' in Hci. simpl in Hci. lia.
    + intros j cj [[<- <-]|[_ Hj]]%lookup_insert_Some; [|by apply Hlive with j].
      eapply conn_step_live; [done|]. by apply Hlive with i.
  - by split.
Qed.

Lemma gw_reachable_ok sys : gw_reachable sys → authority_ok sys ∧ controller_ok sys ∧ admission_ok sys.
Proof.
  apply (rtc_ind_r (λ sys, authority_ok sys ∧ controller_ok sys ∧ admission_ok sys)); [|intros y z _ Hstep (Ha&Hc&Hm)].
  - split_and!; split; simpl; try done; try lia.
    + by intros pid [? ?].
    + intros q. apply Nat.le_0_l.
    + apply Nat.le_0_l.
  - split_and!; [by eapply authority_step_ok|by eapply controller_step_ok|by eapply admission_step_ok].
Qed.

(** A connection that may control the session has the controller. *)
Definition serving_ok (c : Conn) : Prop :=
  match cn_pc c with
  | CpServing d _ m =>
      existsb is_control_capability (requested_of m (ad_capabilities d)) = true → cn_controller c = Some (ad_device_id d)
  | _ => True
  end.

Lemma conn_step_serving i g c g' c' : conn_step i g c = Some (g', c') → serving_ok c'.
Proof.
  unfold serving_ok, conn_step, start_pairing, fail, close, goto.
  destruct (cn_pc c), i; intros Hs; try discriminate Hs; repeat case_match; simplify_eq/=; try done.
  unfold acquire_controller in *. intros Hctl. repeat case_match; simplify_eq/=; [|done].
  match goal with H : negb _ = true |- _ => by rewrite Hctl in H end.
Qed.

Lemma serving_reachable sys i c : gw_reachable sys → sy_conns sys !! i = Some c → serving_ok c.
Proof.
  intros Hr. revert i c. pattern sys. revert sys Hr. apply rtc_ind_r; [done|].
  intros y z _ Hstep IH j cj. destruct Hstep as [g conns i origin fw peer now ch r g' Hi Hu|g conns i c input g' c' Hi Hs|]; simpl.
  - destruct r as [c|]; [|apply IH]. intros [[<- <-]|[_ Hj]]%lookup_insert_Some; [|by apply (IH j)].
    unfold websocket_upgrade in Hu. by repeat case_match; simplify_eq/=.
  - intros [[<- <-]|[_ Hj]]%lookup_insert_Some; [by eapply conn_step_serving|by apply (IH j)].
  - apply IH.
Qed.

(** *** Running a schedule *)

Inductive GwAction :=
  | GaUpgrade (i : nat) (origin forwarded_for : option (option string)) (peer : IpAddr) (now : Z) (challenge : string)
  | GaConn (i : nat) (input : Input)
  | GaOperator (op : AuthOp).

Definition gw_exec (sys : GwSystem) (a : GwAction) : option GwSystem :=
  let g := sy_gateway sys in let conns := sy_conns sys in
  match a with
  | GaUpgrade i origin forwarded_for peer now challenge =>
      if bool_decide (conns !! i = None) then
        let '(r, g') := websocket_upgrade origin forwarded_for peer now challenge g in
        Some (mkGwSystem g' (match r with Ok c => <[i := c]> conns | Err _ => conns end))
      else None
  | GaConn i input =>
      match conns !! i with
      | Some c => match conn_step input g c with
                  | Some (g', c') => Some (mkGwSystem g' (<[i := c']> conns))
                  | None => None
                  end
      | None => None
      end
  | GaOperator op => if operator_op op then Some (mkGwSystem (perform op g) conns) else None
  end.

Fixpoint gw_run (sys : GwSystem) (actions : list GwAction) : option GwSystem :=
  match actions with
  | [] => Some sys
  | a :: actions => match gw_exec sys a with Some sys' => gw_run sys' actions | None => None end
  end.

Lemma gw_run_reachable actions sys : gw_run gw_start actions = Some sys → gw_reachable sys.
Proof.
  unfold gw_reachable. generalize gw_start as s0. revert sys.
  induction actions as [|a actions IH]; intros sys s0; simpl; [by intros [= ->]|].
  destruct (gw_exec s0 a) as [s1|] eqn:E; [|done]. intros Hr. eapply rtc_l; [|by apply IH]. clear IH Hr.
  destruct s0 as [g conns], a as [i origin fw peer now ch|i input|op]; simpl in E.
  - case_bool_decide as Hi; [|done]. destruct (websocket_upgrade _ _ _ _ _ _) as [r g'] eqn:Hu.
    injection E as <-. by econstructor.
  - destruct (conns !! i) as [c|] eqn:Hi; [|done]. destruct (conn_step input g c) as [[g' c']|] eqn:Hs; [|done].
    injection E as <-. by econstructor.
  - destruct (operator_op op) eqn:Hop; [|done]. injection E as <-. by constructor.
Qed.

(** ** Theorems *)

(** C35: at most one remote controller: however connections come, attach, fail and end, no
    two of them serve a client that asked for and was granted a capability beyond
    observing, and the controller is taken exactly while a connection holds it, so it
    is free again as soon as the holder's connection has ended. *)
Theorem one_remote_controller (sys : GwSystem) (Hreach : gw_reachable sys) :
  (∀ i j c c' d d' n n' m m',
     sy_conns sys !! i = Some c → cn_pc c = CpServing d n m →
     sy_conns sys !! j = Some c' → cn_pc c' = CpServing d' n' m' →
     existsb is_control_capability (requested_of m (ad_capabilities d)) = true →
     existsb is_control_capability (requested_of m' (ad_capabilities d')) = true → i = j) ∧
  (∀ d, gw_controller (sy_gateway sys) = Some d ↔ ∃ i c, sy_conns sys !! i = Some c ∧ cn_controller c = Some d) ∧
  (∀ i c, sy_conns sys !! i = Some c → cn_pc c = CpReleased ∨ cn_pc c = CpDone → cn_controller c = None).
Proof.
  destruct (gw_reachable_ok sys Hreach) as (_&[Hg Hh Hs He]&_). split_and!.
  - intros i j c c' d d' n n' m m' Hi Hpc Hj Hpc' Hctl Hctl'.
    pose proof (serving_reachable _ _ _ Hreach Hi) as Si. pose proof (serving_reachable _ _ _ Hreach Hj) as Sj.
    unfold serving_ok in Si, Sj. rewrite Hpc in Si. rewrite Hpc' in Sj.
    eapply Hs; [exact Hi|exact Hj|rewrite (Si Hctl); eauto|rewrite (Sj Hctl'); eauto].
  - intros d. split; [apply He|]. intros (i&c&Hi&Hc). by eapply Hh.
  - intros i c Hi Hpc. apply (Hg i c Hi). by destruct Hpc as [-> | ->].
Qed.

(** admission is counted exactly: for every address the recorded number of
    unauthenticated connections is the number of connections that still hold their
    place, never more than the limit; at most the configured number of addresses is
    tracked, and permits and connections always add up to the configured maximum, so
    that no ended, refused or failed connection leaks its place. *)
Theorem admission_is_exact (sys : GwSystem) (Hreach : gw_reachable sys) :
  (∀ peer, guards peer (sy_conns sys) = unauthenticated (gw_peers (sy_gateway sys)) peer ∧
           guards peer (sy_conns sys) ≤ rg_max_unauthenticated_per_ip cfg) ∧
  size (gw_peers (sy_gateway sys)) ≤ rg_max_admission_peers cfg ∧
  gw_permits (sy_gateway sys) + tally cn_permit (sy_conns sys) = rg_max_connections cfg ∧
  (∀ i c, sy_conns sys !! i = Some c → cn_pc c ≠ CpDone → cn_permit c = true).
Proof.
  destruct (gw_reachable_ok sys Hreach) as (_&_&[Hc Hl Hp Hpm Hlv]). split_and!; [|done..].
  intros peer. rewrite Hc. split; [done|apply Hl].
Qed.

(** C36: a connection that serves a client does so for a device that answered, with the key
    its ticket is bound to, the challenge sent on this very connection; the client's
    identity is the device's and carries no ticket; and its subscription is the
    device's current notifier or has been signalled, in which case the connection can
    end, and every revocation signals it. *)
Theorem served_connection_is_authenticated (sys : GwSystem) (i : nat) (c : Conn)
    (d : AuthenticatedDevice) (channel : nat) (m : ClientMessage)
    (Hreach : gw_reachable sys) (Hconn : sy_conns sys !! i = Some c) (Hpc : cn_pc c = CpServing d channel m) :
  let g := sy_gateway sys in
  (∃ before later ticket key challenge signature, gw_ops g = before ++ later ∧ RsChallenge challenge ∈ cn_sent c ∧
     authenticate ticket key challenge signature (history_state before) = Ok d) ∧
  (∃ m0, bind_remote_identity m0 (ad_device_id d) (ad_label d) = Some m) ∧
  (channel ∈ au_signalled (gw_authority g) ∨ revocation_receiver (ad_device_id d) (gw_authority g) = Some channel) ∧
  (channel ∈ au_signalled (gw_authority g) → conn_step InRevoked g c = Some (g, close [] c)) ∧
  channel ∈ au_signalled (gw_authority (perform (OpRevoke (ad_device_id d)) g)).
Proof.
  intros g. destruct (gw_reachable_ok sys Hreach) as ([Hh Hk _]&_&_). specialize (Hk i c Hconn).
  unfold conn_known in Hk. rewrite Hpc in Hk. destruct Hk as (Ha&(before&later&Ho&Hsub)&Hb). fold g in Hh, Ha, Ho.
  assert (Hsig : ∀ more, channel ∈ au_signalled (history_state (before ++ more)) ∨
    revocation_receiver (ad_device_id d) (history_state (before ++ more)) = Some channel ∧ OpRevoke (ad_device_id d) ∉ more)
    by (intros more; by apply channel_run).
  split_and!; [done|done| | |].
  - rewrite Hh, Ho. destruct (Hsig later) as [?|[? _]]; auto.
  - intros Hin. unfold conn_step. by rewrite Hpc, bool_decide_true.
  - unfold perform. cbn [gw_authority]. rewrite Hh, <- auth_run_snoc, Ho, <- app_assoc.
    destruct (Hsig (later ++ [OpRevoke (ad_device_id d)])) as [?|[_ []]]; [done|]. set_solver.
Qed.

End gateway.

(** ** The message rate over time *)

(** Whether every message of a run of arrival times is accepted. *)
Fixpoint all_accepted (r : MessageRate) (times : list Z) : Prop :=
  match times with
  | [] => True
  | now :: times => (rate_check now r).1 = Ok () ∧ all_accepted (rate_check now r).2 times
  end.

(** The arrivals of the second that starts at [a]. *)
Definition within (a now : Z) : bool := (a <=? now)%Z && (now <? a + SECOND)%Z.
Definition arrivals (a : Z) (times : list Z) : nat := length (List.filter (within a) times).

Lemma rate_check_ok now r :
  (mr_max_per_second r < U32_MAX)%Z → (mr_count r < U32_MAX)%Z → (rate_check now r).1 = Ok () →
  let r' := (rate_check now r).2 in
  mr_max_per_second r' = mr_max_per_second r ∧ (mr_count r' ≤ mr_max_per_second r)%Z ∧
  ((SECOND ≤ now - mr_window_started r)%Z ∧ mr_window_started r' = now ∧ mr_count r' = 1%Z ∨
   (now - mr_window_started r < SECOND)%Z ∧ mr_window_started r' = mr_window_started r ∧ mr_count r' = (mr_count r + 1)%Z).
Proof.
  intros Hmax Hcount. unfold rate_check, U32_MAX in *.
  destruct (Z.leb_spec SECOND (now - mr_window_started r)); cbn [fst snd mr_max_per_second mr_count mr_window_started];
    (case_match eqn:Hc; [done|]; apply Z.ltb_ge in Hc; intros _; split; [done|]; split; [done|]).
  - left. split_and!; [done..|lia].
  - right. split_and!; [done..|lia].
Qed.

Lemma arrivals_cons a now times : arrivals a (now :: times) = (if within a now then 1 else 0) + arrivals a times.
Proof. unfold arrivals. simpl. by destruct (within a now). Qed.

Lemma arrivals_after a b times :
  (a + SECOND ≤ b)%Z → Forall (λ t, b ≤ t)%Z times → arrivals a times = 0.
Proof.
  intros Hb. induction 1 as [|t times Ht _ IH]; [done|]. rewrite arrivals_cons, IH. unfold within.
  rewrite (proj2 (Z.ltb_ge t _)) by lia. by rewrite andb_false_r.
Qed.

(** In a window that started within the second, what is left of the window's share. *)
Lemma arrivals_late a r times :
  (0 ≤ mr_count r ≤ mr_max_per_second r)%Z → (mr_max_per_second r < U32_MAX)%Z → (a ≤ mr_window_started r)%Z →
  Sorted Z.le (mr_window_started r :: times) → all_accepted r times →
  (Z.of_nat (arrivals a times) ≤ mr_max_per_second r - mr_count r)%Z.
Proof.
  revert r. induction times as [|now times IH]; intros r Hc Hmax Ha Hs Hacc; [simpl in *; change (arrivals a []) with 0; lia|].
  destruct Hacc as [Hok Hacc]. destruct (rate_check_ok now r Hmax ltac:(lia) Hok) as (Hm&Hcm&Hw).
  apply Sorted_StronglySorted in Hs; [|intros ???; lia].
  apply StronglySorted_inv in Hs as [Hs Hall]. apply Forall_cons in Hall as [Hnow Hall].
  pose proof Hs as Hs'. apply StronglySorted_inv in Hs' as [Hst Hge]. rewrite arrivals_cons.
  destruct Hw as [(Hsec&Hws&Hone)|(Hsec&Hws&Hone)].
  - rewrite (arrivals_after a now times) by (done || lia). unfold within. rewrite (proj2 (Z.ltb_ge now _)) by lia.
    rewrite andb_false_r. lia.
  - assert (Z.of_nat (arrivals a times) ≤ mr_max_per_second r - (mr_count r + 1))%Z.
    { rewrite <- Hm, <- Hone. apply IH; [lia|lia|lia| |done]. rewrite Hws. apply StronglySorted_Sorted. by constructor. }
    destruct (within a now); lia.
Qed.

(** From the start of the second on: the rest of the running window, and one more window. *)
Lemma arrivals_early a r times :
  (0 ≤ mr_count r ≤ mr_max_per_second r)%Z → (mr_max_per_second r < U32_MAX)%Z →
  Sorted Z.le (mr_window_started r :: times) → Forall (λ t, a ≤ t)%Z times → all_accepted r times →
  (Z.of_nat (arrivals a times) ≤ 2 * mr_max_per_second r - mr_count r)%Z.
Proof.
  revert r. induction times as [|now times IH]; intros r Hc Hmax Hs Hge Hacc; [simpl in *; change (arrivals a []) with 0; lia|].
  destruct Hacc as [Hok Hacc]. destruct (rate_check_ok now r Hmax ltac:(lia) Hok) as (Hm&Hcm&Hw).
  apply Sorted_StronglySorted in Hs; [|intros ???; lia].
  apply StronglySorted_inv in Hs as [Hs Hall]. apply Forall_cons in Hall as [Hnow Hall], Hge as [Hnowa Hge].
  rewrite arrivals_cons. pose proof (StronglySorted_Sorted Hs) as Hs1.
  destruct Hw as [(Hsec&Hws&Hone)|(Hsec&Hws&Hone)].
  - pose proof (arrivals_late a (rate_check now r).2 times) as Hl. rewrite Hm, Hone, Hws in Hl.
    specialize (Hl ltac:(lia) Hmax ltac:(lia) Hs1 Hacc). destruct (within a now); lia.
  - pose proof (IH (rate_check now r).2) as Hl. rewrite Hm, Hone, Hws in Hl.
    assert (Sorted Z.le (mr_window_started r :: times)) as Hs2.
    { apply StronglySorted_Sorted. apply StronglySorted_inv in Hs as [Hs _]. by constructor. }
    specialize (Hl ltac:(lia) Hmax Hs2 Hge Hacc). destruct (within a now); lia.
Qed.

Lemma arrivals_any a r times :
  (0 ≤ mr_count r ≤ mr_max_per_second r)%Z → (mr_max_per_second r < U32_MAX)%Z →
  Sorted Z.le (mr_window_started r :: times) → all_accepted r times →
  (Z.of_nat (arrivals a times) ≤ 2 * mr_max_per_second r)%Z.
Proof.
  revert r. induction times as [|now times IH]; intros r Hc Hmax Hs Hacc; [simpl in *; change (arrivals a []) with 0; lia|].
  pose proof Hs as Hs0. apply Sorted_StronglySorted in Hs0; [|intros ???; lia].
  apply StronglySorted_inv in Hs0 as [Hs0 Hall]. apply Forall_cons in Hall as [Hnow Hall].
  destruct (Z.leb_spec a now).
  - pose proof (arrivals_early a r (now :: times) Hc Hmax Hs) as Hl.
    apply StronglySorted_inv in Hs0 as [_ Hge]. apply Hl in Hacc; [lia|]. constructor; [done|].
    eapply Forall_impl; [exact Hge|]. simpl. lia.
  - destruct Hacc as [Hok Hacc]. destruct (rate_check_ok now r Hmax ltac:(lia) Hok) as (Hm&Hcm&Hw).
    rewrite arrivals_cons. unfold within at 1. rewrite (proj2 (Z.leb_gt a now)) by lia. simpl.
    rewrite <- Hm. apply IH; [destruct Hw as [(_&_&Ho)|(_&_&Ho)]; lia|lia| |done].
    destruct Hw as [(_&->&_)|(_&->&_)]; apply StronglySorted_Sorted; [done|].
    apply StronglySorted_inv in Hs0 as [Hs0 _]. by constructor.
Qed.

(** the rate limit bounds bursts: a connection whose messages are all accepted sends, in
    any second wherever it starts, no more than twice the configured number of messages
    (two windows can meet inside it), for any limit below the largest [u32]. *)
Theorem message_rate_bounded (max start a : Z) (times : list Z)
    (Hmax : (0 ≤ max < U32_MAX)%Z) (Hsorted : Sorted Z.le (start :: times))
    (Haccepted : all_accepted (mkRate start 0 max) times) :
  (Z.of_nat (arrivals a times) ≤ 2 * max)%Z.
Proof.
  apply (arrivals_any a (mkRate start 0 max)); simpl; [lia|lia|done|done].
Qed.

Lemma message_rate_bounded_witness :
  let times := [999999998; 999999999; 1000000000; 1000000001]%Z in
  all_accepted (mkRate 0 0 2) times ∧ (Z.of_nat (arrivals 500000000 times) ≤ 2 * 2)%Z.
Proof.
  intros times. assert (all_accepted (mkRate 0 0 2) times) as H by (vm_compute; tauto). split; [exact H|].
  apply (message_rate_bounded 2 0 500000000 times); [unfold U32_MAX; lia| |exact H].
  unfold times. repeat (constructor; try lia).
Defined.

(** ** Witnesses *)

#[local] Existing Instance plain_crypto.

Definition sample_gateway : RemoteGatewayConfig := mkGatewayConfig [] 1000 10 4 20 3 false 8.
Definition sample_limits : ProtocolLimits := Build_ProtocolLimits 4096 1024 64 64 64 64 64 8.

(** A schedule of the system with the phone of [RemoteAuth], addresses being numbers. *)
Definition demo_run (actions : list (GwAction (IpAddr := nat))) : option (GwSystem (Key := string) (IpAddr := nat)) :=
  gw_run (Sig := string) (λ _, None) (λ _, true) 300 4 sample_limits sample_gateway
    (gw_start sample_gateway) actions.

Definition pair_phone (i : nat) (claim pid ticket : string) (caps : list ClientCapability) : list (GwAction (IpAddr := nat)) :=
  [GaOperator (OpCreateClaim 0 claim);
   GaUpgrade i None None 1 0 "n"; GaConn i (InSent true);
   GaConn i (InFrame (Some (RfPair claim phone "Phone" [CapObserve; CapPrompt])) 10 pid);
   GaConn i (InSent true); GaConn i (InNow 20); GaOperator (OpApprove pid caps ticket);
   GaConn i (InNow 30); GaConn i (InSent true)].

Definition sign_in (i : nat) (ticket : string) : list (GwAction (IpAddr := nat)) :=
  [GaUpgrade i None None 1 40 "c"; GaConn i (InSent true);
   GaConn i (InFrame (Some (RfAuthenticate ticket phone (phone +:+ auth_message "c" ticket))) 50 "u")].

Definition phone_client : ClientInfo := Build_ClientInfo "x" KindTerminal "x".

Definition attach_phone (i : nat) : list (GwAction (IpAddr := nat)) :=
  [GaConn i InStep; GaConn i InStep; GaConn i (InSent true);
   GaConn i (InMessage (Some (CmAttach 3 None None phone_client [CapPrompt]))); GaConn i InStep].

Definition demo_schedule : list (GwAction (IpAddr := nat)) :=
  pair_phone 0 "claim" "p1" "t1" [CapObserve; CapPrompt] ++ sign_in 1 "t1" ++ attach_phone 1.

Definition demo_system : GwSystem (Key := string) (IpAddr := nat) := default (gw_start sample_gateway) (demo_run demo_schedule).

Lemma demo_reachable :
  gw_reachable (Sig := string) (λ _, None) (λ _, true) 300 4 sample_limits sample_gateway demo_system.
Proof. apply (gw_run_reachable (Sig := string) _ _ _ _ _ _ demo_schedule). vm_compute. reflexivity. Qed.

Definition phone_device (caps : list ClientCapability) : AuthenticatedDevice := mkDevice (device_id phone) "Phone" caps.

Definition attached_message : ClientMessage :=
  CmAttach 3 None None (Build_ClientInfo ("remote:" +:+ device_id phone) KindAndroid "Phone") [CapPrompt].

Lemma one_remote_controller_witness :
  gw_controller (sy_gateway demo_system) = Some (device_id phone) ∧
  ∃ i c, sy_conns demo_system !! i = Some c ∧ cn_controller c = Some (device_id phone).
Proof.
  assert (gw_controller (sy_gateway demo_system) = Some (device_id phone)) as H by (vm_compute; reflexivity).
  split; [exact H|].
  destruct (one_remote_controller _ _ _ _ _ _ demo_system demo_reachable) as (_&Hc&_). by apply Hc.
Defined.

Lemma admission_is_exact_witness :
  guards 1 (sy_conns demo_system) = 1 ∧ gw_permits (sy_gateway demo_system) = 2 ∧
  gw_permits (sy_gateway demo_system) + tally cn_permit (sy_conns demo_system) = 4.
Proof.
  split; [vm_compute; reflexivity|]. split; [vm_compute; reflexivity|].
  destruct (admission_is_exact _ _ _ _ _ _ demo_system demo_reachable) as (_&_&H&_). exact H.
Defined.

Lemma served_connection_is_authenticated_witness :
  ∃ c, sy_conns demo_system !! 1 = Some c ∧
    cn_pc c = CpServing (phone_device [CapObserve; CapPrompt]) 0 attached_message ∧
    0 ∈ au_signalled (gw_authority (perform (Sig := string) 300 4 (OpRevoke (device_id phone)) (sy_gateway demo_system))).
Proof.
  assert (∃ c, sy_conns demo_system !! 1 = Some c ∧ cn_pc c = CpServing (phone_device [CapObserve; CapPrompt]) 0 attached_message)
    as (c&Hc&Hpc) by (eexists; split; vm_compute; reflexivity).
  exists c. split; [exact Hc|]. split; [exact Hpc|].
  destruct (served_connection_is_authenticated (Sig := string) _ _ _ _ _ _ demo_system 1 c _ _ _ demo_reachable Hc Hpc)
    as (_&_&_&_&H). exact H.
Defined.

(** Pairing a device again replaces its ticket and signals its connections, but a connection
    that has just authenticated with the old ticket and not yet subscribed subscribes to
    the new notifier: it goes on being served with the capabilities of the replaced
    ticket, without any signal that would end it. *)
Theorem replaced_ticket_can_stay_served :
  ∃ sys c, demo_run (pair_phone 0 "claim" "p1" "t1" [CapObserve; CapPrompt] ++ sign_in 1 "t1" ++
                     pair_phone 2 "claim2" "p2" "t2" [CapObserve] ++ attach_phone 1) = Some sys ∧
    sy_conns sys !! 1 = Some c ∧
    cn_pc c = CpServing (phone_device [CapObserve; CapPrompt]) 1 attached_message ∧
    au_tickets (gw_authority (sy_gateway sys)) !! "t1" = None ∧
    ts_capabilities <$> au_tickets (gw_authority (sy_gateway sys)) !! "t2" = Some [CapObserve] ∧
    bool_decide (1 ∈ au_signalled (gw_authority (sy_gateway sys))) = false.
Proof. eexists _, _. vm_compute. split_and!; reflexivity. Qed.
