(* ===== verification/Registry.v ===== *)
(** * The session registry of the daemon

    [session_daemon.rs]: how sessions are opened, attached to, left, evicted, stopped
    and ended at shutdown.  Every method that awaits is a step machine; a step is one
    critical section or one atomic access of the source, so that tasks interleave
    between them the way the daemon's tasks do.  [open_session] and the client's
    connection, [evict_idle_sessions], [end_session] (for a stop and for a shutdown),
    [attempt_final_save], [finish_removed_entry] and the prompt tasks are machines of
    their own, composed the way the code composes them.

    An entry is shared by reference: the registry maps session ids to addresses, and
    connections, prompts and removals keep an address after it left the registry.
    Durations and instants are integers, and the time between two instants is never
    negative; which timeout fires first, what the factory,
    the file system and the transport answer, and when a connection's future is
    dropped are inputs. *)

From stdpp Require Import base numbers list strings gmap fin_maps.
From S2P Require Import Prelude Protocol Persistence.

(** ** Data *)

Inductive SessionOpenError :=
  | OeNotFound | OeUnsafeId | OeFutureVersion | OeUnsupportedVersion | OeCorrupt
  | OePermission | OeIo | OeWorkspaceUnknown | OeWorkspaceMismatch | OeInternal.

Inductive SessionDaemonError :=
  | DeDuplicateSession (session_id : string)
  | DeSessionLimitReached (max : nat)
  | DeSessionNotFound (session_id : string)
  | DeSessionStopped (session_id : string)
  | DeDuplicateClient (client_id : string)
  | DeClientLimitReached (max : nat)
  | DeEventSubscription (message : string)
  | DeFactoryUnavailable
  | DeOpenFailed (error : SessionOpenError)
  | DeShuttingDown.

Inductive FinalSaveOutcome := FsSaved | FsFailed | FsTimedOut.

#[export] Instance FinalSaveOutcome_eq_dec : EqDecision FinalSaveOutcome.
Proof. solve_decision. Defined.

Inductive ConnectionTrust := LocalOwner | RemotePaired.

#[export] Instance ConnectionTrust_eq_dec : EqDecision ConnectionTrust.
Proof. solve_decision. Defined.

Record CapabilityPolicy := mkPolicy {
  cp_allowed : list ClientCapability;
  cp_trust : ConnectionTrust;
}.

Definition local_trusted : CapabilityPolicy :=
  mkPolicy [CapObserve; CapPrompt; CapConfigure; CapInterrupt; CapStop; CapApproveOnce; CapApproveAlways] LocalOwner.

(** [CapabilityPolicy::grant]: what was asked for and is allowed, without repetitions. *)
Definition grant (policy : CapabilityPolicy) (requested : list ClientCapability) : list ClientCapability :=
  foldl (λ granted capability,
    if has_capability (cp_allowed policy) capability && negb (has_capability granted capability)
    then granted ++ [capability] else granted) [] requested.

Record ClientAttachment := mkAttachment {
  ca_info : ClientInfo;
  ca_capabilities : list ClientCapability;
  ca_attachment_id : nat;
}.

(** What the daemon asks of a session's core, in order. *)
Inductive CoreCall :=
  | CallEligible (approve_once approve_always : nat)
  | CallCancelTurn
  | CallCleanup
  | CallDelete (deleted : bool)
  | CallPersist
  | CallEnding (reason : string).

(** [SessionEntry]; [en_admission] is the task (and, for the sessions a shutdown ends
    together, which of them) that holds the admission lock; the state of the core that
    the daemon reads is kept with the entry. *)
Record SessionEntry := mkEntry {
  en_session_id : string;
  en_clients : gmap string ClientAttachment;
  en_stopped : bool;
  en_stop_notifier : bool;
  en_last_detached_at : option Z;
  en_persistence_deferral_started : option Z;
  en_active_prompt_tasks : nat;
  en_admission : option (nat * nat);
  en_turn_active : bool;
  en_health : PersistenceHealth;
  en_calls : list CoreCall;
}.

Definition set_clients (c : gmap string ClientAttachment) (e : SessionEntry) : SessionEntry :=
  mkEntry (en_session_id e) c (en_stopped e) (en_stop_notifier e) (en_last_detached_at e)
    (en_persistence_deferral_started e) (en_active_prompt_tasks e) (en_admission e) (en_turn_active e) (en_health e) (en_calls e).
Definition set_stopped (e : SessionEntry) : SessionEntry :=
  mkEntry (en_session_id e) (en_clients e) true (en_stop_notifier e) (en_last_detached_at e)
    (en_persistence_deferral_started e) (en_active_prompt_tasks e) (en_admission e) (en_turn_active e) (en_health e) (en_calls e).
Definition set_stop_notifier (e : SessionEntry) : SessionEntry :=
  mkEntry (en_session_id e) (en_clients e) (en_stopped e) true (en_last_detached_at e)
    (en_persistence_deferral_started e) (en_active_prompt_tasks e) (en_admission e) (en_turn_active e) (en_health e) (en_calls e).
Definition set_last_detached (t : option Z) (e : SessionEntry) : SessionEntry :=
  mkEntry (en_session_id e) (en_clients e) (en_stopped e) (en_stop_notifier e) t
    (en_persistence_deferral_started e) (en_active_prompt_tasks e) (en_admission e) (en_turn_active e) (en_health e) (en_calls e).
Definition set_deferral (t : option Z) (e : SessionEntry) : SessionEntry :=
  mkEntry (en_session_id e) (en_clients e) (en_stopped e) (en_stop_notifier e) (en_last_detached_at e)
    t (en_active_prompt_tasks e) (en_admission e) (en_turn_active e) (en_health e) (en_calls e).
Definition set_prompt_tasks (n : nat) (e : SessionEntry) : SessionEntry :=
  mkEntry (en_session_id e) (en_clients e) (en_stopped e) (en_stop_notifier e) (en_last_detached_at e)
    (en_persistence_deferral_started e) n (en_admission e) (en_turn_active e) (en_health e) (en_calls e).
Definition set_admission (h : option (nat * nat)) (e : SessionEntry) : SessionEntry :=
  mkEntry (en_session_id e) (en_clients e) (en_stopped e) (en_stop_notifier e) (en_last_detached_at e)
    (en_persistence_deferral_started e) (en_active_prompt_tasks e) h (en_turn_active e) (en_health e) (en_calls e).
Definition set_turn (active : bool) (e : SessionEntry) : SessionEntry :=
  mkEntry (en_session_id e) (en_clients e) (en_stopped e) (en_stop_notifier e) (en_last_detached_at e)
    (en_persistence_deferral_started e) (en_active_prompt_tasks e) (en_admission e) active (en_health e) (en_calls e).
Definition set_core_health (h : PersistenceHealth) (e : SessionEntry) : SessionEntry :=
  mkEntry (en_session_id e) (en_clients e) (en_stopped e) (en_stop_notifier e) (en_last_detached_at e)
    (en_persistence_deferral_started e) (en_active_prompt_tasks e) (en_admission e) (en_turn_active e) h (en_calls e).
Definition call (c : CoreCall) (e : SessionEntry) : SessionEntry :=
  mkEntry (en_session_id e) (en_clients e) (en_stopped e) (en_stop_notifier e) (en_last_detached_at e)
    (en_persistence_deferral_started e) (en_active_prompt_tasks e) (en_admission e) (en_turn_active e) (en_health e) (en_calls e ++ [c]).

Record DaemonConfig := mkDaemonConfig {
  dc_max_sessions : nat;
  dc_max_clients_per_session : nat;
  dc_idle_retention : option Z;
  dc_persistence_eviction_extension : option Z;
  dc_persistence_final_save_timeout : option Z;
  dc_factory : bool;
}.

(** [SessionDaemon]: [dm_entries] is the heap of entries, [dm_replaced] the attachments
    whose replacement notifier fired, [dm_in_flight] those with a prompt in flight,
    [dm_discarded] the generated sessions deleted because they were opened during a
    shutdown. *)
Record Daemon := mkDaemon {
  dm_sessions : gmap string nat;
  dm_entries : gmap nat SessionEntry;
  dm_next_entry : nat;
  dm_late_persistence_saves : gmap string nat;
  dm_creating_sessions : gset string;
  dm_creation_gate : option nat;
  dm_shutting_down : bool;
  dm_next_attachment_id : nat;
  dm_replaced : gset nat;
  dm_in_flight : gset nat;
  dm_discarded : list string;
}.

Definition daemon_new : Daemon := mkDaemon ∅ ∅ 0 ∅ ∅ None false 1 ∅ ∅ [].

Definition set_sessions (s : gmap string nat) (d : Daemon) : Daemon :=
  mkDaemon s (dm_entries d) (dm_next_entry d) (dm_late_persistence_saves d) (dm_creating_sessions d) (dm_creation_gate d)
    (dm_shutting_down d) (dm_next_attachment_id d) (dm_replaced d) (dm_in_flight d) (dm_discarded d).
Definition set_entries (s : gmap nat SessionEntry) (d : Daemon) : Daemon :=
  mkDaemon (dm_sessions d) s (dm_next_entry d) (dm_late_persistence_saves d) (dm_creating_sessions d) (dm_creation_gate d)
    (dm_shutting_down d) (dm_next_attachment_id d) (dm_replaced d) (dm_in_flight d) (dm_discarded d).
Definition set_late (s : gmap string nat) (d : Daemon) : Daemon :=
  mkDaemon (dm_sessions d) (dm_entries d) (dm_next_entry d) s (dm_creating_sessions d) (dm_creation_gate d)
    (dm_shutting_down d) (dm_next_attachment_id d) (dm_replaced d) (dm_in_flight d) (dm_discarded d).
Definition set_creating (s : gset string) (d : Daemon) : Daemon :=
  mkDaemon (dm_sessions d) (dm_entries d) (dm_next_entry d) (dm_late_persistence_saves d) s (dm_creation_gate d)
    (dm_shutting_down d) (dm_next_attachment_id d) (dm_replaced d) (dm_in_flight d) (dm_discarded d).
Definition set_gate (g : option nat) (d : Daemon) : Daemon :=
  mkDaemon (dm_sessions d) (dm_entries d) (dm_next_entry d) (dm_late_persistence_saves d) (dm_creating_sessions d) g
    (dm_shutting_down d) (dm_next_attachment_id d) (dm_replaced d) (dm_in_flight d) (dm_discarded d).
Definition set_shutting_down (d : Daemon) : Daemon :=
  mkDaemon (dm_sessions d) (dm_entries d) (dm_next_entry d) (dm_late_persistence_saves d) (dm_creating_sessions d) (dm_creation_gate d)
    true (dm_next_attachment_id d) (dm_replaced d) (dm_in_flight d) (dm_discarded d).
Definition set_in_flight (s : gset nat) (d : Daemon) : Daemon :=
  mkDaemon (dm_sessions d) (dm_entries d) (dm_next_entry d) (dm_late_persistence_saves d) (dm_creating_sessions d) (dm_creation_gate d)
    (dm_shutting_down d) (dm_next_attachment_id d) (dm_replaced d) s (dm_discarded d).
Definition discard (id : string) (d : Daemon) : Daemon :=
  mkDaemon (dm_sessions d) (dm_entries d) (dm_next_entry d) (dm_late_persistence_saves d) (dm_creating_sessions d) (dm_creation_gate d)
    (dm_shutting_down d) (dm_next_attachment_id d) (dm_replaced d) (dm_in_flight d) (dm_discarded d ++ [id]).

(** Changing one entry in place. *)
Definition upd (e : nat) (f : SessionEntry → SessionEntry) (d : Daemon) : Daemon :=
  set_entries (alter f e (dm_entries d)) d.

(** ** Critical sections *)

Section daemon.
Context (cfg : DaemonConfig).

(** [SessionDaemon::session]. *)
Definition session (id : string) (d : Daemon) : option nat := dm_sessions d !! id.

(** [has_late_persistence_save]. *)
Definition has_late_persistence_save (id : string) (d : Daemon) : bool :=
  is_some (dm_late_persistence_saves d !! id).

(** The reservation of an identity, under the creation gate and the lock of
    [creating_sessions]; [sessions_len] was read before. *)
Definition reserve_session (id : string) (sessions_len : nat) (d : Daemon) : result unit SessionDaemonError * Daemon :=
  if dc_max_sessions cfg <=? sessions_len + size (dm_creating_sessions d)
  then (Err (DeSessionLimitReached (dc_max_sessions cfg)), d)
  else if bool_decide (id ∈ dm_creating_sessions d) then (Err (DeDuplicateSession id), d)
  else (Ok tt, set_creating ({[id]} ∪ dm_creating_sessions d) d).

Definition entry_new (id : string) (health : PersistenceHealth) : SessionEntry :=
  mkEntry id ∅ false false None None 0 None false health [].

(** The registration of [create_session_with_snapshot], under the lock of [sessions];
    [subscribed] is the error of the event subscription, if any. *)
Definition register_session (id : string) (health : PersistenceHealth) (subscribed : option string)
    (d : Daemon) : result unit SessionDaemonError * Daemon :=
  if is_some (dm_sessions d !! id) then (Err (DeDuplicateSession id), d)
  else if dc_max_sessions cfg <=? size (dm_sessions d) then (Err (DeSessionLimitReached (dc_max_sessions cfg)), d)
  else match subscribed with
       | Some error => (Err (DeEventSubscription error), d)
       | None =>
           (Ok tt,
            mkDaemon (<[id := dm_next_entry d]> (dm_sessions d))
              (<[dm_next_entry d := entry_new id health]> (dm_entries d)) (S (dm_next_entry d))
              (dm_late_persistence_saves d) (dm_creating_sessions d) (dm_creation_gate d) (dm_shutting_down d)
              (dm_next_attachment_id d) (dm_replaced d) (dm_in_flight d) (dm_discarded d))
       end.

(** The number of attached clients with a capability. *)
Definition eligible (c : ClientCapability) (clients : gmap string ClientAttachment) : nat :=
  size (filter (λ a : string * ClientAttachment, has_capability (ca_capabilities a.2) c = true) clients).

Definition set_eligible (e : SessionEntry) : SessionEntry :=
  call (CallEligible (eligible CapApproveOnce (en_clients e)) (eligible CapApproveAlways (en_clients e))) e.

(** What a connection asked for in its first message, with the granted capabilities. *)
Record Request := mkRequest {
  rq_session_id : option string;
  rq_client : ClientInfo;
  rq_capabilities : list ClientCapability;
  rq_replace : bool;
}.

(** The critical section of [attach_internal], under the lock of the entry's clients:
    the attachment id or the refusal. *)
Definition attach_client (rq : Request) (id : string) (e : nat) (en : SessionEntry) (d : Daemon)
    : result nat SessionDaemonError * Daemon :=
  let client := client_id (rq_client rq) in
  if en_stopped en then (Err (DeSessionStopped id), d)
  else if is_some (en_clients en !! client) && negb (rq_replace rq) then (Err (DeDuplicateClient client), d)
  else if negb (is_some (en_clients en !! client)) && (dc_max_clients_per_session cfg <=? size (en_clients en))
  then (Err (DeClientLimitReached (dc_max_clients_per_session cfg)), d)
  else
    let replaced := match en_clients en !! client with
                    | Some previous => if rq_replace rq then {[ca_attachment_id previous]} else ∅
                    | None => ∅
                    end in
    let aid := dm_next_attachment_id d in
    let attachment := mkAttachment (rq_client rq) (rq_capabilities rq) aid in
    let en' := set_deferral None (set_last_detached None
                 (set_eligible (set_clients (<[client := attachment]> (en_clients en)) en))) in
    (Ok aid,
     mkDaemon (dm_sessions d) (<[e := en']> (dm_entries d)) (dm_next_entry d) (dm_late_persistence_saves d)
       (dm_creating_sessions d) (dm_creation_gate d) (dm_shutting_down d) (S aid) (replaced ∪ dm_replaced d)
       (dm_in_flight d) (dm_discarded d)).

(** The first critical section of [AttachedSession::drop]: whether to go on and look for
    an empty session. *)
Definition detach_client (client : string) (aid : nat) (e : nat) (en : SessionEntry) (d : Daemon) : bool * Daemon :=
  match en_clients en !! client with
  | Some a =>
      if bool_decide (ca_attachment_id a = aid) then
        let en' := set_eligible (set_clients (delete client (en_clients en)) en) in
        ((eligible CapApproveOnce (en_clients en') =? 0) && (eligible CapApproveAlways (en_clients en') =? 0),
         set_entries (<[e := en']> (dm_entries d)) d)
      else (false, d)
  | None => (false, d)
  end.

(** Removal from the registry, only of the entry it was decided for ([Arc::ptr_eq]). *)
Definition remove_entry (id : string) (e : nat) (d : Daemon) : option Daemon :=
  if bool_decide (dm_sessions d !! id = Some e) then Some (set_sessions (delete id (dm_sessions d)) d) else None.

(** The late save of a timed-out final save is counted, and uncounted when it ends
    ([LatePersistenceSaveGuard::drop]). *)
Definition late_save_begin (id : string) (d : Daemon) : Daemon :=
  set_late (<[id := S (default 0 (dm_late_persistence_saves d !! id))]> (dm_late_persistence_saves d)) d.

Definition late_save_end (id : string) (d : Daemon) : Daemon :=
  match dm_late_persistence_saves d !! id with
  | Some count =>
      if count <=? 1 then set_late (delete id (dm_late_persistence_saves d)) d
      else set_late (<[id := count - 1]> (dm_late_persistence_saves d)) d
  | None => d
  end.

(** Taking and leaving the two locks that are held across awaits. *)
Definition lock_gate (i : nat) (d : Daemon) : option Daemon :=
  match dm_creation_gate d with None => Some (set_gate (Some i) d) | Some _ => None end.

Definition lock_admission (h : nat * nat) (e : nat) (d : Daemon) : option Daemon :=
  match dm_entries d !! e with
  | Some en => match en_admission en with None => Some (upd e (set_admission (Some h)) d) | Some _ => None end
  | None => None
  end.

Definition unlock_gate (d : Daemon) : Daemon := set_gate None d.
Definition unlock_admission (e : nat) (d : Daemon) : Daemon := upd e (set_admission None) d.

(** ** The answers of the outside *)

Inductive Command := CmdPrompt | CmdStop | CmdAdmitted.

Inductive Input :=
  | InGo
  | InUuid (id : string)
  | InOpened (opened : result PersistenceHealth SessionOpenError)
  | InSubscribed (error : option string)
  | InNow (now : Z)
  | InIds (now : Z) (ids : list string)
  | InOk (ok : bool)
  | InTimeout
  | InCancel
  | InReplay (available : bool)
  | InCommand (c : Command)
  | InStopNotice
  | InReplacedNotice
  | InChild (k : nat) (input : Input).

(** ** [attempt_final_save] *)

Inductive SavePc :=
  | SvHealth (force : bool)               (** before reading the core's health *)
  | SvWait                                (** the save runs *)
  | SvDone (outcome : FinalSaveOutcome).

(** The flag says that the save goes on as a late save. *)
Definition save_step (e : nat) (inp : Input) (d : Daemon) (p : SavePc) : option (Daemon * SavePc * bool) :=
  match dm_entries d !! e with
  | None => None
  | Some en =>
      match p, inp with
      | SvHealth force, InGo =>
          if negb force && bool_decide (en_health en = HClean) then Some (d, SvDone FsSaved, false)
          else match dc_persistence_final_save_timeout cfg with
               | None => Some (d, SvDone FsFailed, false)
               | Some _ => Some (upd e (call CallPersist) d, SvWait, false)
               end
      | SvWait, InOk clean => Some (d, SvDone (if clean then FsSaved else FsFailed), false)
      | SvWait, InTimeout => Some (late_save_begin (en_session_id en) d, SvDone FsTimedOut, true)
      | _, _ => None
      end
  end.

(** ** [finish_removed_entry] *)

Inductive FinishPc := FiClear | FiCleanup | FiDelete | FiEmit | FiNotify | FiDone.

Definition finish_step (e : nat) (reason : string) (delete_persisted : bool) (inp : Input) (d : Daemon) (p : FinishPc)
    : option (Daemon * FinishPc) :=
  match p, inp with
  | FiClear, InGo => Some (upd e (set_clients ∅) d, FiCleanup)
  | FiCleanup, InGo => Some (upd e (call CallCleanup) d, if delete_persisted then FiDelete else FiEmit)
  | FiDelete, InOk deleted => Some (upd e (call (CallDelete deleted)) d, FiEmit)
  | FiEmit, InGo => Some (upd e (call (CallEnding reason)) d, FiNotify)
  | FiNotify, InGo => Some (upd e set_stop_notifier d, FiDone)
  | _, _ => None
  end.

(** ** [end_session] *)

(** [EnFail]: the deletion failed, or the registry changed behind a confirmed one. *)
Inductive EndPc :=
  | EnLookup (id : string)
  | EnAdmission (e : nat)
  | EnCurrent (e : nat)
  | EnCancel (e : nat)
  | EnWait (e : nat)
  | EnCleanup (e : nat)
  | EnDelete (e : nat)
  | EnSave (e : nat) (p : SavePc)
  | EnRemove (e : nat)
  | EnStop (e : nat)
  | EnRelease (e : nat)
  | EnFinish (e : nat) (p : FinishPc)
  | EnDone (ended : bool)
  | EnFail.

(** The last component is the late save the step left behind. *)
Definition end_step (h : nat * nat) (delete_persisted : bool) (reason : string) (inp : Input) (d : Daemon) (p : EndPc)
    : option (Daemon * EndPc * option nat) :=
  match p, inp with
  | EnLookup id, InGo =>
      Some (d, match dm_sessions d !! id with Some e => EnAdmission e | None => EnDone false end, None)
  | EnAdmission e, InGo => d' ← lock_admission h e d; Some (d', EnCurrent e, None)
  | EnAdmission e, InTimeout => if delete_persisted then None else Some (d, EnDone false, None)
  | EnCurrent e, InGo =>
      en ← dm_entries d !! e;
      if bool_decide (dm_sessions d !! en_session_id en = Some e) then Some (d, EnCancel e, None)
      else Some (unlock_admission e d, EnDone false, None)
  | EnCancel e, InGo => Some (upd e (call CallCancelTurn) d, EnWait e, None)
  | EnWait e, InGo =>
      en ← dm_entries d !! e;
      if en_active_prompt_tasks en =? 0
      then Some (d, if delete_persisted then EnCleanup e else EnSave e (SvHealth false), None) else None
  | EnWait e, InTimeout => Some (d, if delete_persisted then EnCleanup e else EnSave e (SvHealth true), None)
  | EnCleanup e, InGo => Some (upd e (call CallCleanup) d, EnDelete e, None)
  | EnDelete e, InOk deleted =>
      let d := upd e (call (CallDelete deleted)) d in
      if deleted then Some (d, EnRemove e, None) else Some (unlock_admission e d, EnFail, None)
  | EnSave e (SvDone _), InGo => Some (d, EnRemove e, None)
  | EnSave e p, _ =>
      r ← save_step e inp d p; Some (r.1.1, EnSave e r.1.2, if r.2 : bool then Some e else None)
  | EnRemove e, InGo =>
      en ← dm_entries d !! e;
      match remove_entry (en_session_id en) e d with
      | Some d => Some (d, EnStop e, None)
      | None => Some (unlock_admission e d, EnFail, None)
      end
  | EnStop e, InGo => Some (upd e set_stopped d, EnRelease e, None)
  | EnRelease e, InGo => Some (unlock_admission e d, EnFinish e FiClear, None)
  | EnFinish e FiDone, InGo => Some (d, EnDone true, None)
  | EnFinish e p, _ => r ← finish_step e reason false inp d p; Some (r.1, EnFinish e r.2, None)
  | _, _ => None
  end.

(** ** [open_session] *)

Inductive OpenPc :=
  | OpStart
  | OpLookup
  | OpGate (id : string) (generated : bool)
  | OpShutdown (id : string) (generated : bool)
  | OpSession (id : string) (generated : bool)
  | OpLate (id : string) (generated : bool)
  | OpCount (id : string) (generated : bool)
  | OpReserve (id : string) (generated : bool) (sessions_len : nat)
  | OpFactory (id : string) (generated : bool)
  | OpGateAgain (id : string) (generated : bool) (opened : result PersistenceHealth SessionOpenError)
  | OpUnreserve (id : string) (generated : bool) (opened : result PersistenceHealth SessionOpenError)
  | OpShutdownAgain (id : string) (generated : bool) (health : PersistenceHealth)
  | OpLateAgain (id : string) (generated : bool) (health : PersistenceHealth)
  | OpInsert (id : string) (generated : bool) (health : PersistenceHealth)
  | OpDone (r : result (string * bool) SessionDaemonError)
  | OpDropped.                            (** the future was dropped *)

(** Returning from [open_session] under the gate leaves it. *)
Definition open_step (i : nat) (requested : option string) (inp : Input) (d : Daemon) (p : OpenPc) : option (Daemon * OpenPc) :=
  match p, inp with
  | OpStart, InGo => Some (d, if dm_shutting_down d then OpDone (Err DeShuttingDown) else OpLookup)
  | OpLookup, InGo =>
      match requested with
      | Some id =>
          Some (d, if is_some (session id d) then OpDone (Ok (id, false))
                   else if dc_factory cfg then OpGate id false else OpDone (Err DeFactoryUnavailable))
      | None => if dc_factory cfg then None else Some (d, OpDone (Err DeFactoryUnavailable))
      end
  | OpLookup, InUuid id =>
      match requested with
      | None => if dc_factory cfg then Some (d, OpGate id true) else None
      | Some _ => None
      end
  | OpGate id generated, InGo => d' ← lock_gate i d; Some (d', OpShutdown id generated)
  | OpShutdown id generated, InGo =>
      Some (if dm_shutting_down d then (unlock_gate d, OpDone (Err DeShuttingDown)) else (d, OpSession id generated))
  | OpSession id generated, InGo =>
      Some (if is_some (session id d) then (unlock_gate d, OpDone (Ok (id, false))) else (d, OpLate id generated))
  | OpLate id generated, InGo =>
      Some (if has_late_persistence_save id d then (unlock_gate d, OpDone (Err (DeSessionStopped id)))
            else (d, OpCount id generated))
  | OpCount id generated, InGo => Some (d, OpReserve id generated (size (dm_sessions d)))
  | OpReserve id generated sessions_len, InGo =>
      Some (match reserve_session id sessions_len d with
            | (Ok _, d) => (unlock_gate d, OpFactory id generated)
            | (Err error, d) => (unlock_gate d, OpDone (Err error))
            end)
  | OpFactory id generated, InOpened opened => Some (d, OpGateAgain id generated opened)
  | OpGateAgain id generated opened, InGo => d' ← lock_gate i d; Some (d', OpUnreserve id generated opened)
  | OpUnreserve id generated opened, InGo =>
      let d := set_creating (dm_creating_sessions d ∖ {[id]}) d in
      Some (match opened with
            | Ok health => (d, OpShutdownAgain id generated health)
            | Err error => (unlock_gate d, OpDone (Err (DeOpenFailed error)))
            end)
  | OpShutdownAgain id generated health, InGo =>
      Some (if dm_shutting_down d
            then (unlock_gate (if generated then discard id d else d), OpDone (Err DeShuttingDown))
            else (d, OpLateAgain id generated health))
  | OpLateAgain id generated health, InGo =>
      Some (if has_late_persistence_save id d then (unlock_gate d, OpDone (Err (DeSessionStopped id)))
            else (d, OpInsert id generated health))
  | OpInsert id generated health, InSubscribed error =>
      Some (match register_session id health error d with
            | (Ok _, d) => (unlock_gate d, OpDone (Ok (id, generated)))
            | (Err error, d) => (unlock_gate d, OpDone (Err error))
            end)
  | OpGate _ _, InCancel | OpFactory _ _, InCancel | OpGateAgain _ _ _, InCancel => Some (d, OpDropped)
  | _, _ => None
  end.

(** ** A connection: [serve_client_with_policy] from [open_session] on *)

(** [AttachedSession] with the [HandshakeSessionGuard] of its connection. *)
Record AttachedSession := mkAttached {
  ah_entry : nat;
  ah_client_id : string;
  ah_capabilities : list ClientCapability;
  ah_attachment_id : nat;
  ah_guard : option string;
}.

Definition committed (a : AttachedSession) : AttachedSession :=
  mkAttached (ah_entry a) (ah_client_id a) (ah_capabilities a) (ah_attachment_id a) None.

(** Why a connection ended before it was served. *)
Inductive Denial := DnError (error : SessionDaemonError) | DnStopped | DnTooLarge | DnDropped.

Inductive ClientPc :=
  | ClOpen (rq : Request) (p : OpenPc)
  | ClLookup (rq : Request) (id : string) (generated : bool)
  | ClAdmission (rq : Request) (id : string) (generated : bool) (e : nat)
  | ClAttach (rq : Request) (id : string) (generated : bool) (e : nat)
  | ClHandshake (a : AttachedSession)          (** admitted *)
  | ClFitting (a : AttachedSession)            (** the snapshot is fitted without the lock *)
  | ClReadmission (a : AttachedSession) (fits : bool)
  | ClRecheck (a : AttachedSession) (fits : bool)  (** admitted *)
  | ClReply (a : AttachedSession)              (** admitted *)
  | ClServing (a : AttachedSession)
  | ClDispatch (a : AttachedSession) (c : Command)
  | ClCommandAdmission (a : AttachedSession)
  | ClCommand (a : AttachedSession)            (** admitted *)
  | ClStopGate (a : AttachedSession)
  | ClStopping (a : AttachedSession) (p : EndPc)   (** with the gate *)
  | ClDetach (a : AttachedSession) (admitted : bool) (denial : option Denial)
  | ClDetachEmpty (a : AttachedSession) (admitted : bool) (denial : option Denial)
  | ClDetachMark (a : AttachedSession) (admitted : bool) (denial : option Denial)
  | ClDetachRelease (a : AttachedSession) (admitted : bool) (denial : option Denial)
  | ClGuard (guard : option string) (denial : option Denial)
  | ClRollbackStop (e : nat) (denial : option Denial)
  | ClRollbackCancel (e : nat) (denial : option Denial)
  | ClRollback (e : nat) (p : FinishPc) (denial : option Denial)
  | ClDone (denial : option Denial).

Inductive PromptPc :=
  | PrAdmission | PrBegin | PrRunning | PrGuard | PrDone.

(** What a step starts beside itself: a prompt task or a late save. *)
Inductive Spawn := SpNone | SpPrompt (e aid : nat) | SpLate (id : string) (e : nat).

Definition late_spawn (d : Daemon) (late : option nat) : Spawn :=
  match late with
  | Some e => match dm_entries d !! e with Some en => SpLate (en_session_id en) e | None => SpNone end
  | None => SpNone
  end.

Definition quiet {A} (r : option (Daemon * A)) : option (Daemon * A * Spawn) := r ← r; Some (r, SpNone).

(** The locals of [serve_client_with_policy] are dropped in reverse order: the lock of a
    command, the attachment (its [drop], then the admission it may hold), the guard.  The
    notice of a stop is the notifier's value, which a client that has subscribed sees;
    one that subscribes after the value was sent looks at [stopped] instead, with its
    next message. *)
Definition client_step (i : nat) (inp : Input) (d : Daemon) (p : ClientPc) : option (Daemon * ClientPc * Spawn) :=
  match p, inp with
  | ClOpen rq (OpDone (Ok (id, generated))), InGo => quiet (Some (d, ClLookup rq id generated))
  | ClOpen rq (OpDone (Err error)), InGo => quiet (Some (d, ClDone (Some (DnError error))))
  | ClOpen rq OpDropped, InGo => quiet (Some (d, ClDone (Some DnDropped)))
  | ClOpen rq p, _ => quiet (r ← open_step i (rq_session_id rq) inp d p; Some (r.1, ClOpen rq r.2))
  | ClLookup rq id generated, InGo =>
      quiet (Some (d, match dm_sessions d !! id with
                      | Some e => ClAdmission rq id generated e
                      | None => ClGuard (if generated then Some id else None) (Some (DnError (DeSessionNotFound id)))
                      end))
  | ClAdmission rq id generated e, InGo =>
      quiet (d' ← lock_admission (i, 0) e d; Some (d', ClAttach rq id generated e))
  | ClAdmission rq id generated e, InCancel =>
      quiet (Some (d, ClGuard (if generated then Some id else None) (Some DnDropped)))
  | ClAttach rq id generated e, InGo =>
      quiet (en ← dm_entries d !! e;
             let guard := if generated then Some id else None in
             Some (match attach_client rq id e en d with
                   | (Ok aid, d) => (d, ClHandshake (mkAttached e (client_id (rq_client rq)) (rq_capabilities rq) aid guard))
                   | (Err error, d) => (unlock_admission e d, ClGuard guard (Some (DnError error)))
                   end))
  | ClHandshake a, InReplay true => quiet (Some (d, ClReply a))
  | ClHandshake a, InReplay false =>
      quiet (Some (if has_capability (ah_capabilities a) CapObserve
                   then (unlock_admission (ah_entry a) d, ClFitting a) else (d, ClReply a)))
  | ClHandshake a, InCancel => quiet (Some (d, ClDetach a true (Some DnDropped)))
  | ClFitting a, InOk fits => quiet (Some (d, ClReadmission a fits))
  | ClFitting a, InCancel => quiet (Some (d, ClDetach a false (Some DnDropped)))
  | ClReadmission a fits, InGo =>
      quiet (d' ← lock_admission (i, 0) (ah_entry a) d; Some (d', ClRecheck a fits))
  | ClReadmission a fits, InCancel => quiet (Some (d, ClDetach a false (Some DnDropped)))
  | ClRecheck a fits, InGo =>
      quiet (en ← dm_entries d !! ah_entry a;
             (** the stopped branch returns with the new lock in a local, dropped first *)
             Some (if en_stopped en then (unlock_admission (ah_entry a) d, ClDetach a false (Some DnStopped))
                   else if fits then (d, ClReply a) else (d, ClDetach a true (Some DnTooLarge))))
  | ClReply a, InOk true => quiet (Some (unlock_admission (ah_entry a) d, ClServing (committed a)))
  | ClReply a, InOk false | ClReply a, InCancel => quiet (Some (d, ClDetach a true (Some DnDropped)))
  | ClServing a, InCommand c =>
      quiet (en ← dm_entries d !! ah_entry a;
             Some (d, if en_stopped en then ClDetach a false None else ClDispatch a c))
  | ClServing a, InStopNotice =>
      quiet (en ← dm_entries d !! ah_entry a;
             if en_stop_notifier en then Some (d, ClDetach a false None) else None)
  | ClServing a, InReplacedNotice =>
      quiet (if bool_decide (ah_attachment_id a ∈ dm_replaced d) then Some (d, ClDetach a false None) else None)
  | ClServing a, InCancel => quiet (Some (d, ClDetach a false None))
  | ClDispatch a CmdPrompt, InGo =>
      if has_capability (ah_capabilities a) CapPrompt && bool_decide (ah_attachment_id a ∉ dm_in_flight d)
      then en ← dm_entries d !! ah_entry a;
           Some (set_in_flight ({[ah_attachment_id a]} ∪ dm_in_flight d)
                   (upd (ah_entry a) (set_prompt_tasks (S (en_active_prompt_tasks en))) d),
                 ClServing a, SpPrompt (ah_entry a) (ah_attachment_id a))
      else quiet (Some (d, ClServing a))
  | ClDispatch a CmdStop, InGo =>
      quiet (Some (d, if has_capability (ah_capabilities a) CapStop then ClStopGate a else ClServing a))
  | ClDispatch a CmdAdmitted, InGo => quiet (Some (d, ClCommandAdmission a))
  | ClCommandAdmission a, InGo =>
      quiet (d' ← lock_admission (i, 0) (ah_entry a) d; Some (d', ClCommand a))
  | ClCommandAdmission a, InCancel => quiet (Some (d, ClDetach a false None))
  | ClCommand a, InOk sent =>
      quiet (Some (unlock_admission (ah_entry a) d, if sent then ClServing a else ClDetach a false None))
  | ClCommand a, InCancel => quiet (Some (unlock_admission (ah_entry a) d, ClDetach a false None))
  | ClStopGate a, InGo =>
      quiet (en ← dm_entries d !! ah_entry a; d' ← lock_gate i d;
             Some (d', ClStopping a (EnLookup (en_session_id en))))
  | ClStopGate a, InCancel => quiet (Some (d, ClDetach a false None))
  | ClStopping a (EnDone _), InGo | ClStopping a EnFail, InGo => quiet (Some (unlock_gate d, ClServing a))
  | ClStopping a (EnAdmission e), InCancel => quiet (Some (unlock_gate d, ClDetach a false None))
  | ClStopping a (EnWait e), InCancel => quiet (Some (unlock_gate (unlock_admission e d), ClDetach a false None))
  | ClStopping a p, _ =>
      r ← end_step (i, 0) true "stopped" inp d p;
      Some (r.1.1, ClStopping a r.1.2, late_spawn r.1.1 r.2)
  | ClDetach a admitted denial, InGo =>
      quiet (en ← dm_entries d !! ah_entry a;
             Some (match detach_client (ah_client_id a) (ah_attachment_id a) (ah_entry a) en d with
                   | (true, d) => (d, ClDetachEmpty a admitted denial)
                   | (false, d) => (d, ClDetachRelease a admitted denial)
                   end))
  | ClDetachEmpty a admitted denial, InGo =>
      quiet (en ← dm_entries d !! ah_entry a;
             Some (d, if bool_decide (en_clients en = ∅) then ClDetachMark a admitted denial
                      else ClDetachRelease a admitted denial))
  | ClDetachMark a admitted denial, InNow now =>
      quiet (Some (upd (ah_entry a) (set_last_detached (Some now)) d, ClDetachRelease a admitted denial))
  | ClDetachRelease a admitted denial, InGo =>
      quiet (Some (if admitted then unlock_admission (ah_entry a) d else d, ClGuard (ah_guard a) denial))
  | ClGuard None denial, InGo => quiet (Some (d, ClDone denial))
  | ClGuard (Some id) denial, InGo =>
      quiet (Some (match dm_sessions d !! id with
                   | Some e => (set_sessions (delete id (dm_sessions d)) d, ClRollbackStop e denial)
                   | None => (d, ClDone denial)
                   end))
  | ClRollbackStop e denial, InGo => quiet (Some (upd e set_stopped d, ClRollbackCancel e denial))
  | ClRollbackCancel e denial, InGo => quiet (Some (upd e (call CallCancelTurn) d, ClRollback e FiClear denial))
  | ClRollback e FiDone denial, InGo => quiet (Some (d, ClDone denial))
  | ClRollback e p denial, _ =>
      quiet (r ← finish_step e "attach_failed" true inp d p; Some (r.1, ClRollback e r.2 denial))
  | _, _ => None
  end.

(** ** A prompt task (the spawned block of the prompt command, [PromptInFlightGuard]) *)

Definition prompt_step (i e aid : nat) (inp : Input) (d : Daemon) (p : PromptPc) : option (Daemon * PromptPc) :=
  match dm_entries d !! e with
  | None => None
  | Some en =>
      match p, inp with
      | PrAdmission, InGo => d' ← lock_admission (i, 0) e d; Some (d', PrBegin)
      | PrBegin, InGo =>
          Some (if en_stopped en || en_turn_active en then (unlock_admission e d, PrGuard)
                else (unlock_admission e (upd e (set_turn true) d), PrRunning))
      | PrRunning, InGo => Some (upd e (set_turn false) d, PrGuard)
      | PrGuard, InGo =>
          Some (set_in_flight (dm_in_flight d ∖ {[aid]}) (upd e (set_prompt_tasks (en_active_prompt_tasks en - 1)) d), PrDone)
      | _, _ => None
      end
  end.

(** ** [evict_idle_sessions] *)

(** The four conjuncts of the idleness test, read one after the other. *)
Inductive IdleCheck := CkClients | CkDetached | CkPrompts | CkTurn.

Definition detached_long_ago (now retention : Z) (en : SessionEntry) : bool :=
  match en_last_detached_at en with Some detached => (retention <=? Z.max 0 (now - detached))%Z | None => false end.

Definition idle_check (now retention : Z) (c : IdleCheck) (en : SessionEntry) : bool :=
  match c with
  | CkClients => bool_decide (en_clients en = ∅)
  | CkDetached => detached_long_ago now retention en
  | CkPrompts => en_active_prompt_tasks en =? 0
  | CkTurn => negb (en_turn_active en)
  end.

Inductive EvictPc :=
  | EvStart
  | EvGate (now : Z) (ids : list string)
  | EvNext (now : Z) (ids : list string)
  | EvAdmission (now : Z) (ids : list string) (e : nat)
  | EvCheck (now : Z) (ids : list string) (e : nat) (after_save : bool) (c : IdleCheck)
  | EvHealth (now : Z) (ids : list string) (e : nat)
  | EvReset (now : Z) (ids : list string) (e : nat)
  | EvDefer (now : Z) (ids : list string) (e : nat) (extension : Z)
  | EvSave (now : Z) (ids : list string) (e : nat) (expired : bool) (p : SavePc)
  | EvRemove (now : Z) (ids : list string) (e : nat)
  | EvStop (now : Z) (ids : list string) (e : nat)
  | EvRelease (now : Z) (ids : list string) (e : nat)
  | EvFinish (now : Z) (ids : list string) (e : nat) (p : FinishPc)
  | EvSkip (now : Z) (ids : list string) (e : nat)
  | EvDone.

Definition idle_sessions (now retention : Z) (d : Daemon) : list string :=
  (List.filter (λ s : string * nat,
     match dm_entries d !! s.2 with Some en => detached_long_ago now retention en | None => false end)
     (map_to_list (dm_sessions d))).*1.

Definition next_check (after_save : bool) (now : Z) (ids : list string) (e : nat) (c : IdleCheck) : EvictPc :=
  match c with
  | CkClients => EvCheck now ids e after_save CkDetached
  | CkDetached => EvCheck now ids e after_save CkPrompts
  | CkPrompts => EvCheck now ids e after_save CkTurn
  | CkTurn => if after_save then EvRemove now ids e else EvHealth now ids e
  end.

Definition evict_step (i : nat) (inp : Input) (d : Daemon) (p : EvictPc) : option (Daemon * EvictPc * option nat) :=
  match dc_idle_retention cfg with
  | None => match p, inp with EvStart, InGo => Some (d, EvDone, None) | _, _ => None end
  | Some retention =>
      match p, inp with
      | EvStart, InIds now ids =>
          if bool_decide (ids ≡ₚ idle_sessions now retention d)
          then Some (d, match ids with [] => EvDone | _ => EvGate now ids end, None) else None
      | EvGate now ids, InGo => d' ← lock_gate i d; Some (d', EvNext now ids, None)
      | EvNext now [], InGo => Some (unlock_gate d, EvDone, None)
      | EvNext now (id :: ids), InGo =>
          Some (d, match dm_sessions d !! id with Some e => EvAdmission now ids e | None => EvNext now ids end, None)
      | EvAdmission now ids e, InGo =>
          d' ← lock_admission (i, 0) e d; Some (d', EvCheck now ids e false CkClients, None)
      | EvCheck now ids e after_save c, InGo =>
          en ← dm_entries d !! e;
          Some (d, if idle_check now retention c en then next_check after_save now ids e c else EvSkip now ids e, None)
      | EvHealth now ids e, InGo =>
          en ← dm_entries d !! e;
          Some (d, if bool_decide (en_health en = HClean) then EvReset now ids e
                   else match dc_persistence_eviction_extension cfg with
                        | Some extension => EvDefer now ids e extension
                        | None => EvCheck now ids e true CkClients
                        end, None)
      | EvReset now ids e, InGo => Some (upd e (set_deferral None) d, EvCheck now ids e true CkClients, None)
      | EvDefer now ids e extension, InGo =>
          en ← dm_entries d !! e;
          let started := default now (en_persistence_deferral_started en) in
          Some (upd e (set_deferral (Some started)) d,
                EvSave now ids e (extension <=? Z.max 0 (now - started))%Z (SvHealth false), None)
      | EvSave now ids e expired (SvDone outcome), InGo =>
          Some (d, if negb (bool_decide (outcome = FsSaved)) && negb expired then EvSkip now ids e
                   else EvCheck now ids e true CkClients, None)
      | EvSave now ids e expired p, _ =>
          r ← save_step e inp d p;
          Some (r.1.1, EvSave now ids e expired r.1.2, if r.2 : bool then Some e else None)
      | EvRemove now ids e, InGo =>
          en ← dm_entries d !! e;
          Some (match remove_entry (en_session_id en) e d with
                | Some d => (d, EvStop now ids e, None)
                | None => (d, EvSkip now ids e, None)
                end)
      | EvStop now ids e, InGo => Some (upd e set_stopped d, EvRelease now ids e, None)
      | EvRelease now ids e, InGo => Some (unlock_admission e d, EvFinish now ids e FiClear, None)
      | EvFinish now ids e FiDone, InGo => Some (d, EvNext now ids, None)
      | EvFinish now ids e p, _ =>
          r ← finish_step e "idle_retention" false inp d p; Some (r.1, EvFinish now ids e r.2, None)
      | EvSkip now ids e, InGo => Some (unlock_admission e d, EvNext now ids, None)
      | _, _ => None
      end
  end.

(** ** [shutdown] *)

Inductive ShutPc :=
  | ShStart
  | ShGate
  | ShList
  | ShJoin (children : list EndPc)        (** the futures of [join_all] *)
  | ShWait                                (** for the connections, with the gate *)
  | ShDone.

Definition ended (p : EndPc) : bool := match p with EnDone _ | EnFail => true | _ => false end.

Definition shutdown_step (i : nat) (inp : Input) (d : Daemon) (p : ShutPc) : option (Daemon * ShutPc * option nat) :=
  match p, inp with
  | ShStart, InGo => Some (set_shutting_down d, ShGate, None)
  | ShGate, InGo => d' ← lock_gate i d; Some (d', ShList, None)
  | ShList, InGo => Some (d, ShJoin (EnLookup <$> (map_to_list (dm_sessions d)).*1), None)
  | ShJoin children, InChild k inp =>
      p ← children !! k;
      r ← end_step (i, k) false "daemon_shutdown" inp d p;
      Some (r.1.1, ShJoin (<[k := r.1.2]> children), r.2)
  | ShJoin children, InGo => if forallb ended children then Some (d, ShWait, None) else None
  | ShWait, InGo | ShWait, InTimeout => Some (unlock_gate d, ShDone, None)
  | _, _ => None
  end.

(** ** The tasks of the daemon *)

Inductive Task :=
  | TClient (p : ClientPc)
  | TPrompt (e aid : nat) (p : PromptPc)
  | TEvict (p : EvictPc)
  | TShutdown (p : ShutPc)
  | TLate (id : string) (e : nat)         (** a save that outlived its timeout *)
  | TLateDone.

Definition task_step (i : nat) (inp : Input) (d : Daemon) (t : Task) : option (Daemon * Task * Spawn) :=
  match t with
  | TClient p => r ← client_step i inp d p; Some (r.1.1, TClient r.1.2, r.2)
  | TPrompt e aid p => r ← prompt_step i e aid inp d p; Some (r.1, TPrompt e aid r.2, SpNone)
  | TEvict p => r ← evict_step i inp d p; Some (r.1.1, TEvict r.1.2, late_spawn r.1.1 r.2)
  | TShutdown p => r ← shutdown_step i inp d p; Some (r.1.1, TShutdown r.1.2, late_spawn r.1.1 r.2)
  | TLate id e => match inp with InGo => Some (late_save_end id d, TLateDone, SpNone) | _ => None end
  | TLateDone => None
  end.

Definition spawned (s : Spawn) : option Task :=
  match s with
  | SpNone => None
  | SpPrompt e aid => Some (TPrompt e aid PrAdmission)
  | SpLate id e => Some (TLate id e)
  end.

Record System := mkSystem {
  sy_daemon : Daemon;
  sy_tasks : gmap nat Task;
}.

Definition sys_start : System := mkSystem daemon_new ∅.

(** Connections, the idle tick and a shutdown arrive at any time. *)
Definition arrives (t : Task) : bool :=
  match t with
  | TClient (ClOpen _ OpStart) | TEvict EvStart | TShutdown ShStart => true
  | _ => false
  end.

Definition spawn_at (j : nat) (s : Spawn) (tasks : gmap nat Task) : gmap nat Task :=
  match spawned s with Some u => <[j := u]> tasks | None => tasks end.

Inductive sys_step : System → System → Prop :=
  | sys_task d tasks i j inp t d' t' s :
      tasks !! i = Some t → task_step i inp d t = Some (d', t', s) →
      tasks !! j = None →
      sys_step (mkSystem d tasks) (mkSystem d' (spawn_at j s (<[i := t']> tasks)))
  | sys_arrive d tasks i t :
      tasks !! i = None → arrives t = true →
      sys_step (mkSystem d tasks) (mkSystem d (<[i := t]> tasks))
  | sys_core d tasks e health :            (** the core saves or fails to, by itself *)
      sys_step (mkSystem d tasks) (mkSystem (upd e (set_core_health health) d) tasks).

Definition sys_reachable : System → Prop := rtc sys_step sys_start.

End daemon.
