(* ===== verification/RegistryLocks.v ===== *)
(** * Locks and registry of the daemon

    How every step of a task of [Registry] changes the creation gate, the registry and
    the admission locks, and the invariants that follow for all interleavings: the gate
    and the admissions exclude each other, registered sessions and reservations stay
    within the limit, a late save keeps its identity to itself. *)

From stdpp Require Import base numbers list strings gmap fin_maps.
From S2P Require Import Prelude Protocol Persistence Registry.

(** ** Case analysis on a step *)

(** Reduce the equations that say what a step returned, and then the goal, to cases. *)
Ltac step_cases :=
  repeat (simplify_eq/=; match goal with
    | H : (_ ≫= _) = Some _ |- _ => apply bind_Some in H as (?&?&?)
    | H : ?l = Some _ |- _ =>
        match l with context [match ?x with _ => _ end] =>
          lazymatch x with context [match _ with _ => _ end] => fail | _ => destruct x eqn:? end end
    | H : ?l = (_, _) |- _ =>
        match l with context [match ?x with _ => _ end] =>
          lazymatch x with context [match _ with _ => _ end] => fail | _ => destruct x eqn:? end end
    end); simplify_eq/=; try done.
Ltac goal_cases :=
  repeat match goal with |- context [match ?x with _ => _ end] =>
    lazymatch x with context [match _ with _ => _ end] => fail | _ => destruct x eqn:?; simplify_eq/= end end.

(** Find the branch of a disjunction that holds. *)
Ltac branch := solve [split_and!; (done || congruence) | left; branch | right; branch].

(** The critical sections the steps are made of. *)
Ltac unfold_sections :=
  unfold quiet, late_save_begin, lock_admission, lock_gate, remove_entry, late_spawn in *.

Section registry.
Context (cfg : DaemonConfig).
Implicit Types (d : Daemon) (t u : Task) (i j k e : nat) (id : string) (inp : Input).

Definition open_gate (p : OpenPc) : bool :=
  match p with
  | OpShutdown _ _ | OpSession _ _ | OpLate _ _ | OpCount _ _ | OpReserve _ _ _ | OpUnreserve _ _ _
  | OpShutdownAgain _ _ _ | OpLateAgain _ _ _ | OpInsert _ _ _ => true
  | _ => false
  end.

(** Whether a task holds the creation gate. *)
Definition holds_gate (t : Task) : bool :=
  match t with
  | TClient (ClOpen _ p) => open_gate p
  | TClient (ClStopping _ _) => true
  | TEvict EvStart | TEvict (EvGate _ _) | TEvict EvDone => false
  | TEvict _ => true
  | TShutdown ShList | TShutdown (ShJoin _) | TShutdown ShWait => true
  | _ => false
  end.

(** *** The composite positions *)

Lemma stopping_inv i inp d a p d' p' s :
  client_step cfg i inp d (ClStopping a p) = Some (d', p', s) →
  (ended p = true ∧ d' = unlock_gate d ∧ p' = ClServing a ∧ s = SpNone) ∨
  (∃ e, p = EnAdmission e ∧ d' = unlock_gate d ∧ p' = ClDetach a false None ∧ s = SpNone) ∨
  (∃ e, p = EnWait e ∧ d' = unlock_gate (unlock_admission e d) ∧ p' = ClDetach a false None ∧ s = SpNone) ∨
  (∃ q late, end_step cfg (i, 0) true "stopped" inp d p = Some (d', q, late) ∧ p' = ClStopping a q ∧ s = late_spawn d' late).
Proof.
  intros H.
  assert (H' : client_step cfg i inp d (ClStopping a p) = (r ← end_step cfg (i, 0) true "stopped" inp d p;
      Some (r.1.1, ClStopping a r.1.2, late_spawn r.1.1 r.2)) ∨
    match p, inp with EnDone _, InGo | EnFail, InGo | EnAdmission _, InCancel | EnWait _, InCancel => True | _, _ => False end).
  { destruct p; auto; destruct inp; auto. }
  destruct H' as [H'|H'].
  - rewrite H' in H. apply bind_Some in H as ([[? ?] ?]&?&?). simplify_eq/=. eauto 10.
  - destruct p; try done; destruct inp; try done; simpl in H; simplify_eq; eauto 10.
Qed.

Lemma opening_inv i inp d rq p d' p' s :
  client_step cfg i inp d (ClOpen rq p) = Some (d', p', s) →
  s = SpNone ∧
  ((d' = d ∧ ∃ id generated, p = OpDone (Ok (id, generated)) ∧ p' = ClLookup rq id generated) ∨
   (d' = d ∧ (p = OpDropped ∨ ∃ error, p = OpDone (Err error)) ∧ ∃ denial, p' = ClDone denial) ∨
   (∃ q, open_step cfg i (rq_session_id rq) inp d p = Some (d', q) ∧ p' = ClOpen rq q)).
Proof.
  intros H.
  assert (H' : client_step cfg i inp d (ClOpen rq p) =
      quiet (r ← open_step cfg i (rq_session_id rq) inp d p; Some (r.1, ClOpen rq r.2)) ∨
    match p, inp with OpDone _, InGo | OpDropped, InGo => True | _, _ => False end).
  { destruct p as [| | | | | | | | | | | | | |[[]|]|]; auto; destruct inp; auto. }
  unfold quiet in H'. destruct H' as [H'|H'].
  - rewrite H' in H. apply bind_Some in H as ([d1 p1]&Hb&?). apply bind_Some in Hb as ([d2 p2]&?&?). simplify_eq/=. eauto 10.
  - destruct p as [| | | | | | | | | | | | | |[[]|]|]; try done; destruct inp; try done; simpl in H; simplify_eq; eauto 10.
Qed.

Lemma rollback_inv i inp d e p denial d' p' s :
  client_step cfg i inp d (ClRollback e p denial) = Some (d', p', s) →
  s = SpNone ∧
  ((p = FiDone ∧ d' = d ∧ p' = ClDone denial) ∨
   (∃ q, finish_step e "attach_failed" true inp d p = Some (d', q) ∧ p' = ClRollback e q denial)).
Proof. intros H. destruct p, inp; try discriminate H; simpl in H; simplify_eq/=; eauto 10. Qed.

Lemma evict_save_inv i inp d now ids e expired p r :
  evict_step cfg i inp d (EvSave now ids e expired p) = Some r →
  (∃ outcome, p = SvDone outcome ∧ r = (d, if negb (bool_decide (outcome = FsSaved)) && negb expired then EvSkip now ids e
                   else EvCheck now ids e true CkClients, None)) ∨
  (∃ d' q late, save_step cfg e inp d p = Some (d', q, late) ∧
     r = (d', EvSave now ids e expired q, if late : bool then Some e else None)).
Proof.
  unfold evict_step. intros H. destruct (dc_idle_retention cfg); [|by destruct inp].
  destruct p as [f| |o]; [right| right|destruct inp; simplify_eq; eauto].
  all: try (apply bind_Some in H as ([[d' q] late]&H&?); simplify_eq/=; eauto 10).
  all: try (unfold save_step in H; destruct (_ !! _); done).
Qed.

Lemma evict_finish_inv i inp d now ids e p r :
  evict_step cfg i inp d (EvFinish now ids e p) = Some r →
  (p = FiDone ∧ r = (d, EvNext now ids, None)) ∨
  (∃ d' q, finish_step e "idle_retention" false inp d p = Some (d', q) ∧ r = (d', EvFinish now ids e q, None)).
Proof.
  unfold evict_step. intros H. destruct (dc_idle_retention cfg); [|by destruct inp].
  destruct p, inp; try discriminate H; simpl in H; simplify_eq/=; eauto 10.
Qed.

Lemma end_save_inv h del reason inp d e p r :
  end_step cfg h del reason inp d (EnSave e p) = Some r →
  (∃ outcome, p = SvDone outcome ∧ r = (d, EnRemove e, None)) ∨
  (∃ d' q late, save_step cfg e inp d p = Some (d', q, late) ∧ r = (d', EnSave e q, if late : bool then Some e else None)).
Proof.
  intros H. destruct p as [f| |o].
  - right. destruct inp; try (simpl in H; unfold save_step in H; destruct (_ !! _); done).
    all: apply bind_Some in H as ([[d' q] late]&H&?); simplify_eq/=; eauto 10.
  - right. destruct inp; try (simpl in H; unfold save_step in H; destruct (_ !! _); done).
    all: apply bind_Some in H as ([[d' q] late]&H&?); simplify_eq/=; eauto 10.
  - destruct inp; try (simpl in H; unfold save_step in H; destruct (_ !! _); done).
    simpl in H. simplify_eq. eauto.
Qed.

Lemma end_finish_inv h del reason inp d e p r :
  end_step cfg h del reason inp d (EnFinish e p) = Some r →
  (p = FiDone ∧ r = (d, EnDone true, None)) ∨
  (∃ d' q, finish_step e reason false inp d p = Some (d', q) ∧ r = (d', EnFinish e q, None)).
Proof. intros H. destruct p, inp; try discriminate H; simpl in H; simplify_eq/=; eauto 10. Qed.

(** *** The creation gate *)

(** How a step changes the gate: not at all, by taking it when it is free, or by leaving
    it when the task holds it. *)
Definition gate_change i (before after : bool) d d' : Prop :=
  (dm_creation_gate d' = dm_creation_gate d ∧ after = before) ∨
  (dm_creation_gate d = None ∧ dm_creation_gate d' = Some i ∧ before = false ∧ after = true) ∨
  (before = true ∧ dm_creation_gate d' = None ∧ after = false).

Lemma save_step_gate e inp d p d' p' late : save_step cfg e inp d p = Some (d', p', late) → dm_creation_gate d' = dm_creation_gate d.
Proof. unfold save_step, late_save_begin. intros H. step_cases. Qed.

Lemma finish_step_gate e reason del inp d p d' p' :
  finish_step e reason del inp d p = Some (d', p') → dm_creation_gate d' = dm_creation_gate d.
Proof. unfold finish_step. intros H. step_cases. Qed.

Lemma end_step_gate h del reason inp d p d' p' late :
  end_step cfg h del reason inp d p = Some (d', p', late) → dm_creation_gate d' = dm_creation_gate d.
Proof.
  intros H. destruct p; try (destruct inp; try discriminate H; simpl in H; unfold_sections; step_cases; done).
  apply end_save_inv in H as [(?&?&?)|(?&?&?&H&?)]; simplify_eq; [done|]. by eapply save_step_gate.
Qed.

Lemma open_step_gate i rq inp d p d' p' :
  open_step cfg i rq inp d p = Some (d', p') → gate_change i (open_gate p) (open_gate p') d d'.
Proof.
  unfold gate_change. intros H. destruct p, inp; try discriminate H; simpl in H; unfold reserve_session, register_session in *; unfold_sections;
    step_cases; goal_cases; branch.
Qed.

Lemma client_step_gate i inp d p d' p' s :
  client_step cfg i inp d p = Some (d', p', s) → gate_change i (holds_gate (TClient p)) (holds_gate (TClient p')) d d'.
Proof.
  intros H. destruct p as [| | | | | | | | | | | | | |a p| | | | | | | |e p denial|].
  15: { apply stopping_inv in H as [(?&?&?&?)|[(?&?&?&?&?)|[(?&?&?&?&?)|(?&?&H&?&?)]]]; simplify_eq/=; unfold gate_change.
        4: apply end_step_gate in H. all: branch. }
  1: { apply opening_inv in H as (->&[(->&?&?&->&->)|[(->&H&?&->)|(?&H&->)]]); [| |by apply open_step_gate in H].
       - unfold gate_change; branch.
       - destruct H as [->|[? ->]]; unfold gate_change; branch. }
  21: { apply rollback_inv in H as (->&[(->&->&->)|(?&H&->)]); unfold gate_change; [branch|]. apply finish_step_gate in H. branch. }
  all: destruct inp; try discriminate H; simpl in H; unfold attach_client, detach_client in *; unfold_sections;
    step_cases; unfold gate_change; goal_cases; branch.
Qed.

Lemma evict_step_gate i inp d p d' p' late :
  evict_step cfg i inp d p = Some (d', p', late) → gate_change i (holds_gate (TEvict p)) (holds_gate (TEvict p')) d d'.
Proof.
  intros H. destruct p as [| | | | | | | |now ids e x p| | | |now ids e p| |].
  9: { apply evict_save_inv in H as [(?&?&?)|(?&?&?&H&?)]; simplify_eq; unfold gate_change; goal_cases; [branch..|].
       apply save_step_gate in H. branch. }
  12: { apply evict_finish_inv in H as [(?&?)|(?&?&H&?)]; simplify_eq; unfold gate_change; [branch|].
        apply finish_step_gate in H. branch. }
  all: unfold evict_step in H; destruct (dc_idle_retention cfg), inp; try discriminate H; unfold_sections;
    step_cases; unfold gate_change, next_check; goal_cases; branch.
Qed.

Lemma shutdown_step_gate i inp d p d' p' late :
  shutdown_step cfg i inp d p = Some (d', p', late) →
  gate_change i (holds_gate (TShutdown p)) (holds_gate (TShutdown p')) d d'.
Proof.
  intros H. destruct p as [| | |l| |], inp; try discriminate H; simpl in H; unfold_sections; step_cases; unfold gate_change.
  all: try branch.
  destruct x0 as [[]]; apply end_step_gate in H0. branch.
Qed.

Lemma task_step_gate i inp d t d' t' s :
  task_step cfg i inp d t = Some (d', t', s) → gate_change i (holds_gate t) (holds_gate t') d d'.
Proof.
  intros H. destruct t; simpl in H; step_cases.
  - destruct x as [[]]. by eapply client_step_gate.
  - destruct x. unfold prompt_step in *. unfold_sections. step_cases; unfold gate_change; branch.
  - destruct x as [[]]. by eapply evict_step_gate.
  - destruct x as [[]]. by eapply shutdown_step_gate.
  - unfold late_save_end, gate_change. goal_cases; branch.
Qed.

(** *** The pool of tasks *)

Lemma pool_lookup tasks i j t t' s k u :
  tasks !! i = Some t → tasks !! j = None → spawn_at j s (<[i := t']> tasks) !! k = Some u →
  (k = i ∧ u = t') ∨ (k ≠ i ∧ k ≠ j ∧ tasks !! k = Some u) ∨ (k = j ∧ k ≠ i ∧ spawned s = Some u).
Proof.
  intros Hi Hj. unfold spawn_at. assert (i ≠ j) by congruence. destruct (spawned s) as [v|].
  - destruct (decide (k = j)) as [->|]; [rewrite lookup_insert_eq; naive_solver|rewrite lookup_insert_ne by done].
    destruct (decide (k = i)) as [->|]; [rewrite lookup_insert_eq; naive_solver|rewrite lookup_insert_ne by done; naive_solver].
  - destruct (decide (k = i)) as [->|]; [rewrite lookup_insert_eq; naive_solver|rewrite lookup_insert_ne by done].
    intros Hk. right. left. split_and!; [done| |done]. congruence.
Qed.

Definition gate_ok (sys : System) : Prop :=
  ∀ i t, sy_tasks sys !! i = Some t → holds_gate t = true → dm_creation_gate (sy_daemon sys) = Some i.

Lemma spawned_no_gate s u : spawned s = Some u → holds_gate u = false.
Proof. by destruct s; intros; simplify_eq/=. Qed.

Lemma arrives_no_gate t : arrives t = true → holds_gate t = false.
Proof. by destruct t as [[]| |[]|[]| |]; simpl; intros; repeat case_match. Qed.

Lemma gate_ok_step sys sys' : sys_step cfg sys sys' → gate_ok sys → gate_ok sys'.
Proof.
  intros Hstep Hok. destruct Hstep as [d tasks i j inp t d' t' s Hi Hs Hj|d tasks i t Hi Ht|d tasks e h]; simpl; [| |exact Hok].
  - intros k u Hk Hu. simpl in *. apply task_step_gate in Hs.
    destruct (pool_lookup _ _ _ _ _ _ _ _ Hi Hj Hk) as [[-> ->]|[(Hki&Hkj&Hk')|(->&_&Hsp)]].
    + destruct Hs as [[-> He]|[(_&->&_)|(_&_&?)]]; [|done|congruence]. apply (Hok i t Hi). congruence.
    + specialize (Hok k u Hk' Hu) as Hg. simpl in Hg. destruct Hs as [[-> _]|[(Hn&_)|(Hb&_)]]; [done|congruence|].
      specialize (Hok i t Hi Hb). simpl in Hok. congruence.
    + by rewrite (spawned_no_gate _ _ Hsp) in Hu.
  - intros k u Hk Hu. simpl in *. destruct (decide (k = i)) as [->|]; [|rewrite lookup_insert_ne in Hk by done; by apply (Hok k u)].
    rewrite lookup_insert_eq in Hk. simplify_eq. by rewrite arrives_no_gate in Hu.
Qed.

(** *** The registry *)

(** The session id of every entry ever made; only a registration changes it. *)
Definition ids d : gmap nat string := en_session_id <$> dm_entries d.

Lemma ids_upd e f d : (∀ en, en_session_id (f en) = en_session_id en) → ids (upd e f d) = ids d.
Proof.
  intros Hf. unfold ids, upd. simpl. apply map_eq. intros e'. rewrite !lookup_fmap.
  destruct (decide (e = e')) as [<-|]; [rewrite lookup_alter_eq|by rewrite lookup_alter_ne].
  destruct (dm_entries d !! e); simpl; [by rewrite Hf|done].
Qed.

Lemma ids_insert e en en' d : dm_entries d !! e = Some en → en_session_id en' = en_session_id en →
  en_session_id <$> <[e := en']> (dm_entries d) = ids d.
Proof.
  intros He Hid. unfold ids. rewrite fmap_insert. apply insert_id. by rewrite lookup_fmap, He, Hid.
Qed.

Definition with_entry d e id : Prop := ids d !! e = Some id.

(** The part of the daemon this section is about. *)
Definition same_registry d d' : Prop :=
  dm_sessions d' = dm_sessions d ∧ dm_creating_sessions d' = dm_creating_sessions d ∧
  dm_late_persistence_saves d' = dm_late_persistence_saves d ∧ ids d' = ids d ∧ dm_next_entry d' = dm_next_entry d.

Lemma same_registry_upd e f d : (∀ en, en_session_id (f en) = en_session_id en) → same_registry d (upd e f d).
Proof. intros. unfold same_registry. by rewrite ids_upd. Qed.

End registry.

Section registry.
Context (cfg : DaemonConfig).
Implicit Types (d : Daemon) (t u : Task) (i j k e : nat) (id : string) (inp : Input).

(** A task works on an entry under the gate: nobody else can have registered or be
    opening that identity. *)
Definition works_on d e : Prop :=
  ∃ id, ids d !! e = Some id ∧ (id ∉ dm_creating_sessions d) ∧ ∀ e', dm_sessions d !! id = Some e' → e' = e.

Definition end_entry (p : EndPc) : option nat :=
  match p with
  | EnAdmission e | EnCurrent e | EnCancel e | EnWait e | EnCleanup e | EnDelete e | EnSave e _
  | EnRemove e | EnStop e | EnRelease e | EnFinish e _ => Some e
  | _ => None
  end.

Definition evict_entry (p : EvictPc) : option nat :=
  match p with
  | EvAdmission _ _ e | EvCheck _ _ e _ _ | EvHealth _ _ e | EvReset _ _ e | EvDefer _ _ e _ | EvSave _ _ e _ _
  | EvRemove _ _ e | EvStop _ _ e | EvRelease _ _ e | EvFinish _ _ e _ | EvSkip _ _ e => Some e
  | _ => None
  end.

(** What an opening task has established at each position. *)
Definition open_ok d (p : OpenPc) : Prop :=
  match p with
  | OpLate id _ => dm_sessions d !! id = None
  | OpCount id _ => dm_sessions d !! id = None ∧ dm_late_persistence_saves d !! id = None
  | OpReserve id _ n =>
      dm_sessions d !! id = None ∧ dm_late_persistence_saves d !! id = None ∧ size (dm_sessions d) ≤ n
  | OpFactory id _ | OpGateAgain id _ _ | OpUnreserve id _ _ => id ∈ dm_creating_sessions d
  | OpShutdownAgain id _ _ | OpLateAgain id _ _ | OpInsert id _ _ =>
      (id ∉ dm_creating_sessions d) ∧ dm_sessions d !! id = None ∧ dm_late_persistence_saves d !! id = None ∧
      size (dm_sessions d) + size (dm_creating_sessions d) < dc_max_sessions cfg
  | _ => True
  end.

Definition reg_task d (t : Task) : Prop :=
  match t with
  | TClient (ClOpen _ p) => open_ok d p
  | TClient (ClStopping _ p) => ∀ e, end_entry p = Some e → works_on d e
  | TEvict p => ∀ e, evict_entry p = Some e → works_on d e
  | TShutdown (ShJoin l) => ∀ k p e, l !! k = Some p → end_entry p = Some e → works_on d e
  | TLate id e => ids d !! e = Some id ∧ ∀ e', dm_sessions d !! id = Some e' → e' = e
  | _ => True
  end.

(** The identity a task has reserved. *)
Definition reserved (t : Task) : option string :=
  match t with
  | TClient (ClOpen _ (OpFactory id _ | OpGateAgain id _ _ | OpUnreserve id _ _)) => Some id
  | _ => None
  end.

Record reg_daemon d : Prop := {
  rd_sessions id e : dm_sessions d !! id = Some e → ids d !! e = Some id;
  rd_creating id : id ∈ dm_creating_sessions d → dm_sessions d !! id = None ∧ dm_late_persistence_saves d !! id = None;
  rd_bound : size (dm_sessions d) + size (dm_creating_sessions d) ≤ dc_max_sessions cfg;
  rd_heap e id : ids d !! e = Some id → e < dm_next_entry d;
}.

(** How a step changes the registry. *)
Inductive reg_change (d d' : Daemon) (t t' : Task) : Spawn → Prop :=
  | rc_shrink s :
      dm_sessions d' ⊆ dm_sessions d → dm_creating_sessions d' = dm_creating_sessions d →
      (dm_late_persistence_saves d' = dm_late_persistence_saves d) →
      ids d' = ids d → dm_next_entry d' = dm_next_entry d →
      (reserved t' = reserved t ∨ reserved t' = None) → (∀ id e, s ≠ SpLate id e) →
      reg_change d d' t t' s
  | rc_late_begin id e :
      holds_gate t = true → works_on d e → ids d !! e = Some id → d' = late_save_begin id d → reserved t' = None →
      reg_change d d' t t' (SpLate id e)
  | rc_late_end id e :
      t = TLate id e → t' = TLateDone → d' = late_save_end id d →
      reg_change d d' t t' SpNone
  | rc_reserve id :
      holds_gate t = true → dm_sessions d !! id = None → dm_late_persistence_saves d !! id = None →
      id ∉ dm_creating_sessions d → size (dm_sessions d) + size (dm_creating_sessions d) < dc_max_sessions cfg →
      d' = unlock_gate (set_creating ({[id]} ∪ dm_creating_sessions d) d) → reserved t = None → reserved t' = Some id →
      reg_change d d' t t' SpNone
  | rc_unreserve id :
      holds_gate t = true → reserved t = Some id → reserved t' = None →
      dm_sessions d' = dm_sessions d → dm_creating_sessions d' = dm_creating_sessions d ∖ {[id]} →
      dm_late_persistence_saves d' = dm_late_persistence_saves d → ids d' = ids d → dm_next_entry d' = dm_next_entry d →
      reg_change d d' t t' SpNone
  | rc_register id rq generated health :
      t = TClient (ClOpen rq (OpInsert id generated health)) → dm_sessions d !! id = None →
      id ∉ dm_creating_sessions d → dm_late_persistence_saves d !! id = None →
      size (dm_sessions d) + size (dm_creating_sessions d) < dc_max_sessions cfg →
      dm_sessions d' = <[id := dm_next_entry d]> (dm_sessions d) →
      dm_creating_sessions d' = dm_creating_sessions d → dm_late_persistence_saves d' = dm_late_persistence_saves d →
      ids d' = <[dm_next_entry d := id]> (ids d) → dm_next_entry d' = S (dm_next_entry d) →
      reserved t' = None →
      reg_change d d' t t' SpNone.

Lemma open_step_reg i rq inp d p d' p' :
  reg_daemon d → open_ok d p → open_step cfg i (rq_session_id rq) inp d p = Some (d', p') →
  open_ok d' p' ∧ reg_change d d' (TClient (ClOpen rq p)) (TClient (ClOpen rq p')) SpNone.
Proof.
  intros Hd Hok H. destruct p, inp; try discriminate H; simpl in H; unfold_sections.
  all: unfold reserve_session, register_session, session, has_late_persistence_save in *.
  all: step_cases; goal_cases.
  all: try (split; [simpl in *; naive_solver|apply rc_shrink; simpl; auto; done]).
  - split; [by destruct (dm_sessions d' !! id)|]. by apply rc_shrink; simpl; auto.
  - split; [split; [done|by destruct (dm_late_persistence_saves d' !! id)]|]. by apply rc_shrink; simpl; auto.
  - bool_to_prop. destruct Hok as (?&?&?). split; [set_solver|]. apply (rc_reserve _ _ _ _ id); auto; lia.
  - destruct (rd_creating _ Hd _ Hok). pose proof (rd_bound _ Hd).
    assert (size (dm_creating_sessions d ∖ {[id]}) < size (dm_creating_sessions d)) by (apply subset_size; set_solver).
    split; [split_and!; [set_solver|done|done|lia]|]. by apply (rc_unreserve _ _ _ _ id).
  - split; [done|]. by apply (rc_unreserve _ _ _ _ id).
  - destruct Hok as (?&?&?&?). split; [done|]. eapply (rc_register _ _ _ _ id); try done. apply fmap_insert.
Qed.

(** A step that changes at most entries, and their ids not, is no change of the registry. *)
Lemma same_shrink d d' t t' s :
  same_registry d d' → (reserved t' = reserved t ∨ reserved t' = None) → (∀ id e, s ≠ SpLate id e) → reg_change d d' t t' s.
Proof. intros (Hs&?&?&?&?) ? ?. apply rc_shrink; auto. by rewrite Hs. Qed.

#[local] Instance same_registry_refl : Reflexive same_registry.
Proof. done. Qed.
#[local] Instance same_registry_trans : Transitive same_registry.
Proof. unfold same_registry. intros d1 d2 d3 (->&->&->&->&->). naive_solver. Qed.

Ltac same_registry :=
  unfold unlock_admission, unlock_gate;
  lazymatch goal with
  | |- same_registry _ (upd _ _ _) => etrans; [|by apply same_registry_upd]; same_registry
  | |- same_registry ?d (set_gate _ ?d') => change (same_registry d d'); same_registry
  | |- _ => reflexivity
  end.
#[local] Hint Extern 0 (same_registry _ _) => same_registry : core.

Lemma works_on_same d d' e : same_registry d d' → works_on d e → works_on d' e.
Proof. unfold works_on. by intros (->&->&_&->&_). Qed.

Lemma works_on_delete d e id : works_on d e → works_on (set_sessions (delete id (dm_sessions d)) d) e.
Proof.
  intros (id'&?&?&Hs). exists id'. split_and!; [done..|]. intros e'. simpl. intros [_ ?]%lookup_delete_Some. auto.
Qed.

Lemma save_step_reg e inp d p d' p' late :
  save_step cfg e inp d p = Some (d', p', late) →
  (late = false ∧ same_registry d d') ∨ (late = true ∧ ∃ id, ids d !! e = Some id ∧ d' = late_save_begin id d).
Proof.
  unfold save_step. intros H. step_cases; eauto; try (left; split; [done|by apply same_registry_upd]); try by left.
  right. split; [done|]. eexists. split; [|done]. unfold ids. rewrite lookup_fmap. by rewrite Heqo.
Qed.

Lemma finish_step_reg e reason del inp d p d' p' : finish_step e reason del inp d p = Some (d', p') → same_registry d d'.
Proof. unfold finish_step. intros H. step_cases; by apply same_registry_upd. Qed.

(** What a step of [end_session] does to the registry. *)
Definition end_change d d' (late : option nat) : Prop :=
  (late = None ∧ (same_registry d d' ∨ ∃ id, d' = set_sessions (delete id (dm_sessions d)) d)) ∨
  (∃ e id, late = Some e ∧ works_on d e ∧ ids d !! e = Some id ∧ d' = late_save_begin id d).

Lemma end_step_reg h del reason inp d p d' p' late :
  reg_daemon d → (∀ e, end_entry p = Some e → works_on d e) → end_step cfg h del reason inp d p = Some (d', p', late) →
  (∀ e, end_entry p' = Some e → works_on d' e) ∧ end_change d d' late.
Proof.
  unfold end_change.
  intros Hd Hok H. destruct p as [| | | | | | |e p| | | |e p| |].
  8: { specialize (Hok e eq_refl).
       apply end_save_inv in H as [(?&?&?)|(?&?&?&H&?)]; simplify_eq; [split; [by intros ? [= <-]|by auto]|].
       apply save_step_reg in H as [(->&Hs)|(->&id&?&->)].
       - split; [intros ? [= <-]; by eapply works_on_same|]. eauto.
       - split; [intros ? [= <-]; done|]. right. eauto 10. }
  11: { specialize (Hok e eq_refl).
        apply end_finish_inv in H as [(?&?)|(?&?&H&?)]; simplify_eq; [by split; [done|auto]|].
        apply finish_step_reg in H. split; [intros ? [= <-]; by eapply works_on_same|]. eauto. }
  all: try specialize (Hok _ eq_refl).
  all: destruct inp; try discriminate H; simpl in H; unfold_sections; step_cases.
  all: try (split; [intros ? [= <-]; eauto using works_on_same|left; auto]; done).
  - destruct (dm_sessions d' !! id) as [e|] eqn:He; (split; [intros ? [= <-]|by auto]).
    exists id. split_and!; [by apply Hd| |congruence]. intros Hc. by destruct (rd_creating _ Hd _ Hc); congruence.
  - destruct del; simpl; (split; [by intros ? [= <-]|by auto]).
  - destruct del; simpl; (split; [by intros ? [= <-]|by auto]).
  - split; [intros ? [= <-]; by apply works_on_delete|]. eauto.
Qed.

Lemma late_spawn_begin d e id : ids d !! e = Some id → late_spawn (late_save_begin id d) (Some e) = SpLate id e.
Proof.
  unfold ids, late_spawn. rewrite lookup_fmap. simpl. destruct (dm_entries d !! e); simpl; intros; by simplify_eq.
Qed.

Lemma end_change_works d d' late e : end_change d d' late → works_on d e → works_on d' e.
Proof.
  intros [(_&[Hs|[id ->]])|(e'&id&_&_&_&->)] Hw; [by eapply works_on_same|by apply works_on_delete|done].
Qed.

Lemma end_change_reg d d' late t t' :
  end_change d d' late → holds_gate t = true → reserved t' = None → reg_change d d' t t' (late_spawn d' late).
Proof.
  intros [(->&[Hs|[? ->]])|(?&?&->&?&?&->)] Hg Ht.
  - apply same_shrink; auto.
  - apply rc_shrink; simpl; auto; apply delete_subseteq.
  - rewrite late_spawn_begin by done. by apply rc_late_begin.
Qed.

Lemma entries_insert_reg d d' e en en' :
  dm_entries d !! e = Some en → dm_entries d' = <[e := en']> (dm_entries d) → en_session_id en' = en_session_id en →
  dm_sessions d' = dm_sessions d → dm_creating_sessions d' = dm_creating_sessions d →
  dm_late_persistence_saves d' = dm_late_persistence_saves d → dm_next_entry d' = dm_next_entry d → same_registry d d'.
Proof. intros ? He ? ? ? ? ?. split_and!; try done. unfold ids at 1. rewrite He. by eapply ids_insert. Qed.

Lemma attach_client_reg rq id e en d r d' :
  dm_entries d !! e = Some en → attach_client cfg rq id e en d = (r, d') → same_registry d d'.
Proof.
  intros He H. unfold attach_client in H. step_cases; first [reflexivity | by eapply (entries_insert_reg _ _ _ _ _ He)].
Qed.

Lemma detach_client_reg client aid e en d r d' :
  dm_entries d !! e = Some en → detach_client client aid e en d = (r, d') → same_registry d d'.
Proof. intros He H. unfold detach_client in H. step_cases; first [reflexivity | by eapply (entries_insert_reg _ _ _ _ _ He)]. Qed.

Lemma client_step_reg i inp d p d' p' s :
  reg_daemon d → reg_task d (TClient p) → client_step cfg i inp d p = Some (d', p', s) →
  reg_task d' (TClient p') ∧ reg_change d d' (TClient p) (TClient p') s.
Proof.
  intros Hd Hok H. destruct p as [| | | | | | | | | | | | | |a p| | | | | | | |e p denial|].
  15: { apply stopping_inv in H as [(?&->&->&->)|[(?&?&->&->&->)|[(?&?&->&->&->)|(?&?&H&->&->)]]].
        1-3: split; [done|]; apply same_shrink; auto.
        apply (end_step_reg _ _ _ _ _ _ _ _ _ Hd Hok) in H as [? ?]. split; [done|]. by apply end_change_reg. }
  1: { apply opening_inv in H as (->&[(->&?&?&->&->)|[(->&H&?&->)|(?&H&->)]]).
       - split; [done|]. apply same_shrink; auto.
       - split; [done|]. apply same_shrink; auto.
       - by apply (open_step_reg _ _ _ _ _ _ _ Hd Hok) in H. }
  21: { apply rollback_inv in H as (->&[(->&->&->)|(?&H&->)]); (split; [done|]); apply same_shrink; auto. by eapply finish_step_reg. }
  all: destruct inp; try discriminate H; simpl in H; unfold_sections; step_cases.
  all: goal_cases.
  all: try (split; [done|]; apply same_shrink; by auto).
  all: split; [done|].
  8: { apply rc_shrink; simpl; auto; apply delete_subseteq. }
  all: apply same_shrink; [|by auto|done].
  all: try first [by eapply attach_client_reg | by eapply detach_client_reg].
  - etrans; [by eapply attach_client_reg|by apply same_registry_upd].
  - etrans; [by eapply attach_client_reg|by apply same_registry_upd].
  - etrans; [|by apply same_registry_upd]. done.
Qed.

Lemma evict_step_reg i inp d p d' p' late :
  reg_daemon d → reg_task d (TEvict p) → evict_step cfg i inp d p = Some (d', p', late) →
  reg_task d' (TEvict p') ∧ reg_change d d' (TEvict p) (TEvict p') (late_spawn d' late).
Proof.
  intros Hd Hok H. destruct p as [| | | | | | | |now ids e x p| | | |now ids e p| |].
  9: { specialize (Hok e eq_refl).
       apply evict_save_inv in H as [(?&?&?)|(?&?&?&H&?)]; simplify_eq.
       { goal_cases; (split; [by intros ? [= <-]|apply same_shrink; auto]). }
       apply save_step_reg in H as [(->&Hs)|(->&id&?&->)].
       - split; [intros ? [= <-]; by eapply works_on_same|]. apply same_shrink; auto.
       - split; [by intros ? [= <-]|]. rewrite late_spawn_begin by done. by apply rc_late_begin. }
  12: { specialize (Hok e eq_refl).
        apply evict_finish_inv in H as [(?&?)|(?&?&H&?)]; simplify_eq; [by split; [done|apply same_shrink; auto]|].
        apply finish_step_reg in H. split; [intros ? [= <-]; by eapply works_on_same|]. apply same_shrink; auto. }
  all: try specialize (Hok _ eq_refl).
  all: unfold evict_step in H; destruct (dc_idle_retention cfg), inp; try discriminate H; unfold_sections; step_cases.
  all: unfold next_check; goal_cases.
  all: try (split; [intros ? [= <-]; eauto using works_on_same|apply same_shrink; by auto]; done).
  - split; [|by apply same_shrink; auto]. intros ? [= <-]. exists s. split_and!; [by apply Hd| |congruence].
    intros Hc. by destruct (rd_creating _ Hd _ Hc); congruence.
  - split; [intros ? [= <-]; by apply works_on_delete|]. apply rc_shrink; simpl; auto; apply delete_subseteq.
Qed.

Lemma shutdown_step_reg i inp d p d' p' late :
  reg_daemon d → reg_task d (TShutdown p) → shutdown_step cfg i inp d p = Some (d', p', late) →
  reg_task d' (TShutdown p') ∧ reg_change d d' (TShutdown p) (TShutdown p') (late_spawn d' late).
Proof.
  intros Hd Hok H. destruct p as [| | |l| |], inp; try discriminate H; simpl in H; unfold_sections; step_cases.
  all: try (split; [done|apply same_shrink; by auto]; done).
  - split; [|by apply same_shrink; auto]. intros k p e Hk He. rewrite list_lookup_fmap in Hk.
    destruct ((map_to_list _).*1 !! k); by simplify_eq/=.
  - destruct x0 as [[d1 p1] late]. simpl.
    apply (end_step_reg _ _ _ _ _ _ _ _ _ Hd (λ e, Hok k x e H)) in H0 as (Hw&Hc).
    split; [|by apply end_change_reg]. intros k' p e Hk He.
    apply list_lookup_insert_Some in Hk as [(<-&->&_)|(_&Hk)]; [by apply Hw|].
    eapply end_change_works; [done|]. by eapply Hok.
Qed.

Lemma task_step_reg i inp d t d' t' s :
  reg_daemon d → reg_task d t → task_step cfg i inp d t = Some (d', t', s) →
  reg_task d' t' ∧ reg_change d d' t t' s.
Proof.
  intros Hd Hok H. destruct t; simpl in H; step_cases.
  - destruct x as [[]]. by eapply client_step_reg.
  - destruct x. unfold prompt_step in *. unfold_sections. step_cases; (split; [done|]; apply same_shrink; [|by auto|done]).
    all: try by auto. etrans; [|by apply same_registry_upd]. done.
  - destruct x as [[]]. by eapply evict_step_reg.
  - destruct x as [[]]. by eapply shutdown_step_reg.
  - split; [done|]. by eapply rc_late_end.
Qed.

Lemma late_begin_None d id id' : dm_late_persistence_saves (late_save_begin id d) !! id' = None → 
  dm_late_persistence_saves d !! id' = None.
Proof. simpl. by intros [? _]%lookup_insert_None. Qed.

Lemma late_end_None d id id' : dm_late_persistence_saves d !! id' = None →
  dm_late_persistence_saves (late_save_end id d) !! id' = None.
Proof.
  intros H. unfold late_save_end. destruct (dm_late_persistence_saves d !! id) as [c|] eqn:E; [|done].
  assert (id ≠ id') by congruence. destruct (c <=? 1); simpl; [by rewrite lookup_delete_ne|by rewrite lookup_insert_ne].
Qed.

Lemma late_end_same d id :
  dm_sessions (late_save_end id d) = dm_sessions d ∧ dm_creating_sessions (late_save_end id d) = dm_creating_sessions d ∧
  ids (late_save_end id d) = ids d ∧ dm_next_entry (late_save_end id d) = dm_next_entry d.
Proof. unfold late_save_end. repeat case_match; done. Qed.

(** What other tasks have established survives a change of the registry. *)
Lemma open_ok_shrink d d' p :
  dm_sessions d' ⊆ dm_sessions d → dm_creating_sessions d' = dm_creating_sessions d →
  (∀ id, dm_late_persistence_saves d !! id = None → dm_late_persistence_saves d' !! id = None) →
  open_ok d p → open_ok d' p.
Proof.
  intros Hs Hc Hl. pose proof (map_subseteq_size _ _ Hs).
  assert (Hn : ∀ id, dm_sessions d !! id = None → dm_sessions d' !! id = None) by (intros id ?; by eapply lookup_weaken_None).
  destruct p; simpl; rewrite ?Hc; try done; intros; destruct_and?; split_and?; auto; lia.
Qed.

Lemma works_on_shrink d d' e :
  dm_sessions d' ⊆ dm_sessions d → dm_creating_sessions d' = dm_creating_sessions d → ids d' = ids d →
  works_on d e → works_on d' e.
Proof.
  intros Hs Hc Hi (id&?&?&Hu). exists id. rewrite Hi, Hc. split_and!; [done..|]. intros e' He. apply Hu. by eapply lookup_weaken.
Qed.

Lemma reg_task_shrink d d' u :
  dm_sessions d' ⊆ dm_sessions d → dm_creating_sessions d' = dm_creating_sessions d → ids d' = ids d →
  (∀ id, dm_late_persistence_saves d !! id = None → dm_late_persistence_saves d' !! id = None) →
  reg_task d u → reg_task d' u.
Proof.
  intros Hs Hc Hi Hl. destruct u as [[]| | |[]|id e|]; simpl; try done.
  - by apply open_ok_shrink.
  - intros Hw e He. eapply works_on_shrink; eauto.
  - intros Hw e He. eapply works_on_shrink; eauto.
  - intros Hw k p e Hk He. eapply works_on_shrink; eauto.
  - rewrite Hi. intros [? Hu]. split; [done|]. intros e' He. apply Hu. by eapply lookup_weaken.
Qed.

(** Without the gate a task relies on its reservation or on its late save only. *)
Lemma reg_task_no_gate d u : holds_gate u = false → reg_task d u →
  (∀ d', reg_task d' u) ∨ (∃ id, reserved u = Some id ∧ id ∈ dm_creating_sessions d ∧ ∀ d', id ∈ dm_creating_sessions d' → reg_task d' u) ∨
  (∃ id e, u = TLate id e).
Proof.
  intros Hg Hu. destruct u as [[rq p| | | | | | | | | | | | | | | | | | | | | | |]| |[]|[]|id e|]; try discriminate Hg; simpl in *; eauto.
  2-4: by left; intros d' e [=].
  destruct p; try discriminate Hg; eauto 10.
Qed.

Lemma reg_stable d d' t t' s u :
  reg_change d d' t t' s → (holds_gate t = true → holds_gate u = false) →
  (∀ id, reserved t = Some id → reserved u ≠ Some id) →
  (∀ id e, u = TLate id e → is_Some (dm_late_persistence_saves d !! id)) → reg_daemon d →
  reg_task d u → reg_task d' u.
Proof.
  intros Hc Hg Hr Hl Hd Hu. destruct Hc as [s Hs Hc Hla Hi Hn Ht _|id e Hgt Hw Hi -> Ht|id e -> -> ->
    |id Hgt Hs Hla Hnc Hb -> Ht Ht'|id Hgt Ht Ht' Hs Hc Hla Hi Hn|id rq g h -> Hs Hnc Hla Hb Hs' Hc Hla' Hi Hn Ht].
  - apply (reg_task_shrink d); [done|done|done|by rewrite Hla|done].
  - destruct (reg_task_no_gate d u (Hg Hgt) Hu) as [?|[(?&?&?&H)|(?&?&->)]]; [done|by apply H|done].
  - destruct (late_end_same d id) as (Hs&Hc&Hi&_). apply (reg_task_shrink d); [by rewrite Hs|done|done|intros ?; apply late_end_None|done].
  - destruct (reg_task_no_gate d u (Hg Hgt) Hu) as [?|[(?&?&?&H)|(?&?&->)]]; [done|apply H; simpl; set_solver|done].
  - destruct (reg_task_no_gate d u (Hg Hgt) Hu) as [?|[(id'&Hr'&?&H)|(?&?&->)]]; [done| |].
    + apply H. rewrite Hc. assert (id ≠ id') by (intros ->; by apply (Hr id')). set_solver.
    + simpl. rewrite Hi, Hs. done.
  - destruct (reg_task_no_gate d u (Hg eq_refl) Hu) as [?|[(id'&Hr'&?&H)|(id'&e&->)]]; [done| |].
    + apply H. by rewrite Hc.
    + destruct Hu as [Hie Hu]. destruct (Hl id' e eq_refl) as [c Hl']. assert (id ≠ id') by congruence.
      simpl. rewrite Hi, Hs'. split; [|by rewrite lookup_insert_ne by done].
      rewrite lookup_insert_ne; [done|]. apply (rd_heap _ Hd) in Hie. lia.
Qed.

Lemma reg_daemon_change d d' t t' s : reg_change d d' t t' s → reg_daemon d → reg_daemon d'.
Proof.
  intros Hc [Hse Hcr Hb Hh]. destruct Hc as [s Hs Hc Hla Hi Hn Ht _|id e Hgt (id'&Hi'&Hnc&_) Hi -> Ht|id e -> -> ->
    |id Hgt Hs Hla Hnc Hlt -> Ht Ht'|id Hgt Ht Ht' Hs Hc Hla Hi Hn|id rq g h -> Hs Hnc Hla Hlt Hs' Hc Hla' Hi Hn Ht].
  - pose proof (map_subseteq_size _ _ Hs). split; rewrite ?Hi, ?Hn, ?Hc, ?Hla; [| |lia|done].
    + intros id e He. apply Hse. by eapply lookup_weaken.
    + intros id Hid. destruct (Hcr id Hid) as [Hn' ?]. split; [by apply (lookup_weaken_None _ _ _ Hn')|done].
  - simplify_eq. split; simpl; [done| |done|done]. intros x Hx. destruct (Hcr x Hx). split; [done|].
    rewrite lookup_insert_ne; [done|]. by intros ->.
  - destruct (late_end_same d id) as (Hs&Hc&Hi&Hn). split; rewrite ?Hs, ?Hc, ?Hi, ?Hn; [done| |done|done].
    intros id' Hid'. destruct (Hcr id' Hid'). split; [done|by apply late_end_None].
  - split; simpl; [done| | |done].
    + intros id' [->%elem_of_singleton|]%elem_of_union; auto.
    + rewrite size_union, size_singleton by set_solver. lia.
  - split; rewrite ?Hs, ?Hc, ?Hi, ?Hn, ?Hla; [done| | |done].
    + intros id' ?. apply Hcr. set_solver.
    + assert (size (dm_creating_sessions d ∖ {[id]}) ≤ size (dm_creating_sessions d)) by (apply subseteq_size; set_solver). lia.
  - split; rewrite ?Hs', ?Hc, ?Hi, ?Hn, ?Hla'.
    + intros id' e [[<- <-]|[? He]]%lookup_insert_Some; [apply lookup_insert_eq|].
      apply Hse in He. rewrite lookup_insert_ne; [done|]. apply Hh in He. lia.
    + intros id' Hid'. destruct (Hcr id' Hid'). split; [|done]. rewrite lookup_insert_ne; [done|]. by intros ->.
    + rewrite map_size_insert_None by done. lia.
    + intros e id' [[<- _]|[_ He%Hh]]%lookup_insert_Some; lia.
Qed.

Definition is_late id (t : Task) : bool := match t with TLate id' _ => bool_decide (id' = id) | _ => false end.

Record reg_ok (sys : System) : Prop := {
  ro_daemon : reg_daemon (sy_daemon sys);
  ro_tasks i t : sy_tasks sys !! i = Some t → reg_task (sy_daemon sys) t;
  ro_reserved i j t u id :
    sy_tasks sys !! i = Some t → sy_tasks sys !! j = Some u → reserved t = Some id → reserved u = Some id → i = j;
  ro_late id : default 0 (dm_late_persistence_saves (sy_daemon sys) !! id) = tally (is_late id) (sy_tasks sys);
}.

Lemma reg_change_reserved d d' t t' s id : reg_change d d' t t' s → reserved t' = Some id →
  reserved t = Some id ∨ (id ∉ dm_creating_sessions d ∧ s = SpNone).
Proof. intros Hc Ht. destruct Hc; simplify_eq/=; try congruence; auto. destruct H4; left; congruence. Qed.

Lemma spawned_reserved s u : spawned s = Some u → reserved u = None.
Proof. by destruct s; intros; simplify_eq/=. Qed.

Lemma task_reserved d t id : reg_task d t → reserved t = Some id → id ∈ dm_creating_sessions d.
Proof. destruct t as [[rq []| | | | | | | | | | | | | | | | | | | | | | |]| | | | |]; simpl; intros; by simplify_eq. Qed.

(** The number of late saves of an identity follows the tasks. *)
Lemma tally_spawn f tasks i j t t' s :
  tasks !! i = Some t → tasks !! j = None →
  tally f (spawn_at j s (<[i := t']> tasks)) + b2n (f t) =
  tally f tasks + b2n (f t') + b2n (match spawned s with Some u => f u | None => false end).
Proof.
  intros Hi Hj. unfold spawn_at. pose proof (tally_insert f tasks i t t' Hi). assert (i ≠ j) by congruence.
  destruct (spawned s) as [u|]; simpl; [|lia]. rewrite tally_insert_new; [lia|]. by rewrite lookup_insert_ne.
Qed.

Lemma late_end_count d id id' :
  default 0 (dm_late_persistence_saves (late_save_end id d) !! id') =
  default 0 (dm_late_persistence_saves d !! id') - b2n (bool_decide (id = id')).
Proof.
  unfold late_save_end. destruct (decide (id = id')) as [<-|Hne]; [rewrite bool_decide_true by done|rewrite bool_decide_false by done].
  - destruct (dm_late_persistence_saves d !! id) as [c|] eqn:E; simpl; [|by rewrite E]. destruct (Nat.leb_spec c 1); simpl.
    + rewrite lookup_delete_eq. simpl. lia.
    + by rewrite lookup_insert_eq.
  - destruct (dm_late_persistence_saves d !! id) as [c|] eqn:E; simpl; [|lia]. destruct (c <=? 1); simpl.
    + rewrite lookup_delete_ne by done. lia.
    + rewrite lookup_insert_ne by done. lia.
Qed.

Lemma reg_change_late d d' t t' s id i inp : task_step cfg i inp d t = Some (d', t', s) → reg_change d d' t t' s →
  default 0 (dm_late_persistence_saves d' !! id) =
  default 0 (dm_late_persistence_saves d !! id) + b2n (match spawned s with Some u => is_late id u | None => false end)
  - b2n (is_late id t) ∧ is_late id t' = false.
Proof.
  intros Hstep Hc.
  assert (Ht' : is_late id t' = false) by (destruct t; simpl in Hstep; step_cases). split; [|done].
  assert (is_late id t = false ∨ ∃ id0 e0, t = TLate id0 e0) as [Ht|(id0&e0&->)] by (destruct t; eauto).
  2: { simpl in *. step_cases. rewrite late_end_count. lia. }
  rewrite Ht. destruct Hc as [s _ _ -> _ _ _ Hsp|id' e _ _ _ -> _|id' e -> _ ->|id' _ _ _ _ _ -> _ _|id' _ _ _ _ _ -> _ _
    |id' rq g h _ _ _ _ _ _ _ -> _ _ _]; simpl in *; try lia.
  - destruct s; simpl; try lia. by destruct (Hsp id0 e).
  - destruct (decide (id' = id)) as [->|]; [rewrite lookup_insert_eq, bool_decide_true by done; simpl; lia|].
    rewrite lookup_insert_ne, bool_decide_false by done. simpl. lia.
  - rewrite late_end_count, Ht. simpl. lia.
Qed.

Lemma spawned_reg_task d d' t t' s u : reg_change d d' t t' s → spawned s = Some u → reg_task d' u.
Proof.
  intros Hc Hsp. destruct s as [|e aid|id e]; simplify_eq/=; [done|].
  inversion Hc as [s ? ? ? ? ? ? Hn|id' e' ? (id0&?&?&?) ? Hd| | | |]; subst; simplify_eq; [by destruct (Hn id e)|done].
Qed.

Lemma reg_ok_step sys sys' : gate_ok sys → sys_step cfg sys sys' → reg_ok sys → reg_ok sys'.
Proof.
  intros Hgate Hstep [Hd Ht Hr Hl].
  destruct Hstep as [d tasks i j inp t d' t' s Hi Hs Hj|d tasks i t Hi Ha|d tasks e h]; simpl in *.
  - destruct (task_step_reg _ _ _ _ _ _ _ Hd (Ht i t Hi) Hs) as [Ht' Hc].
    assert (Hother : ∀ k u, k ≠ i → tasks !! k = Some u → reg_task d' u).
    { intros k u Hk Hu. eapply reg_stable; [done| | | |done|by eapply Ht].
      - intros Hg. destruct (holds_gate u) eqn:Hgu; [|done]. pose proof (Hgate i t Hi Hg). pose proof (Hgate k u Hu Hgu).
        simpl in *. congruence.
      - intros id Hid Hid'. by apply Hk, (Hr k i u t id).
      - intros id e ->. pose proof (tally_pos (is_late id) tasks k _ Hu) as Hp. specialize (Hl id).
        destruct (dm_late_persistence_saves d !! id); [done|]. simpl in *. rewrite bool_decide_true in Hp by done. lia. }
    split; simpl; [by eapply reg_daemon_change| | |].
    + intros k u Hk. destruct (pool_lookup _ _ _ _ _ _ _ _ Hi Hj Hk) as [[-> ->]|[(?&_&?)|(->&_&Hsp)]]; [done|eauto|].
      by eapply spawned_reg_task.
    + intros k l u v id Hk Hl' Hu Hv.
      destruct (pool_lookup _ _ _ _ _ _ _ _ Hi Hj Hk) as [[-> ->]|[(?&_&Hk')|(->&_&Hsp)]];
        [| |by rewrite (spawned_reserved _ _ Hsp) in Hu];
      (destruct (pool_lookup _ _ _ _ _ _ _ _ Hi Hj Hl') as [[-> ->]|[(?&_&Hl'')|(->&_&Hsp)]];
        [| |by rewrite (spawned_reserved _ _ Hsp) in Hv]); [done| | |eauto].
      * destruct (reg_change_reserved _ _ _ _ _ _ Hc Hu) as [?|[Hn _]]; [eauto|]. destruct Hn. by eapply task_reserved; eauto.
      * destruct (reg_change_reserved _ _ _ _ _ _ Hc Hv) as [?|[Hn _]]; [eauto|]. destruct Hn. by eapply task_reserved; eauto.
    + intros id. destruct (reg_change_late _ _ _ _ _ id _ _ Hs Hc) as [-> Hn]. rewrite Hl.
      pose proof (tally_spawn (is_late id) tasks i j t t' s Hi Hj) as Hsp. rewrite Hn in Hsp. simpl in Hsp. lia.
  - split; simpl; [done| | |].
    + intros k u [[<- <-]|[_ ?]]%lookup_insert_Some; [|eauto]. by destruct t as [[rq []| | | | | | | | | | | | | | | | | | | | | | |]| |[]|[]| |].
    + intros k l u v id Hk Hl' Hu Hv. assert (reserved t = None) as Hn
        by (by destruct t as [[rq []| | | | | | | | | | | | | | | | | | | | | | |]| |[]|[]| |]).
      apply lookup_insert_Some in Hk as [[<- <-]|[_ ?]], Hl' as [[<- <-]|[_ ?]]; try congruence; eauto.
    + intros id. rewrite tally_insert_new by done. rewrite Hl. by destruct t.
  - assert (Hsame : same_registry d (upd e (set_core_health h) d)) by auto. destruct Hsame as (Hs&Hc&Hla&Hi&Hn).
    destruct Hd. split; simpl; [| |done|done].
    + by split; rewrite ?Hi.
    + intros i t Hi'. eapply reg_task_shrink; [..|by eapply Ht]; try done.
Qed.

Lemma reg_reachable sys : sys_reachable cfg sys → gate_ok sys ∧ reg_ok sys.
Proof.
  intros H. unfold sys_reachable in H. remember sys_start as s0 eqn:E.
  assert (gate_ok s0 ∧ reg_ok s0) as H0.
  { subst. split; [done|]. split; simpl; try done. split; try done. cbn [sy_daemon sys_start daemon_new dm_sessions dm_creating_sessions]. rewrite map_size_empty, size_empty. lia. }
  clear E. induction H as [s|s1 s2 s3 Hst _ IH]; [done|]. apply IH. destruct H0.
  split; [by eapply gate_ok_step|by eapply reg_ok_step].
Qed.

End registry.

Section registry.
Context (cfg : DaemonConfig).
Implicit Types (d : Daemon) (t u : Task) (i j k e : nat) (id : string) (inp : Input).

(** *** The admission locks *)

(** Who holds the admission of an entry. *)
Definition adm d e : option (nat * nat) := dm_entries d !! e ≫= en_admission.

Definition end_own (p : EndPc) : option nat :=
  match p with
  | EnCurrent e | EnCancel e | EnWait e | EnCleanup e | EnDelete e | EnSave e _ | EnRemove e | EnStop e | EnRelease e => Some e
  | _ => None
  end.

Definition client_own (p : ClientPc) : option nat :=
  match p with
  | ClAttach _ _ _ e => Some e
  | ClHandshake a | ClRecheck a _ | ClReply a | ClCommand a => Some (ah_entry a)
  | ClDetach a true _ | ClDetachEmpty a true _ | ClDetachMark a true _ | ClDetachRelease a true _ => Some (ah_entry a)
  | ClStopping _ p => end_own p
  | _ => None
  end.

Definition evict_own (p : EvictPc) : option nat :=
  match p with
  | EvCheck _ _ e _ _ | EvHealth _ _ e | EvReset _ _ e | EvDefer _ _ e _ | EvSave _ _ e _ _
  | EvRemove _ _ e | EvStop _ _ e | EvRelease _ _ e | EvSkip _ _ e => Some e
  | _ => None
  end.

(** The entry whose admission the [k]-th part of a task holds; only a shutdown has
    several parts. *)
Definition owns (t : Task) (k : nat) : option nat :=
  match t with
  | TClient p => if k =? 0 then client_own p else None
  | TPrompt e _ PrBegin => if k =? 0 then Some e else None
  | TEvict p => if k =? 0 then evict_own p else None
  | TShutdown (ShJoin l) => l !! k ≫= end_own
  | _ => None
  end.

(** How one part of a task changes the admissions, from owning [o] to owning [o']. *)
Definition adm_change (h : nat * nat) (o o' : option nat) d d' : Prop :=
  ∀ e, (adm d' e = adm d e ∧ (o' = Some e ↔ o = Some e)) ∨
       (adm d e = None ∧ adm d' e = Some h ∧ o' = Some e) ∨
       (o = Some e ∧ adm d' e = None ∧ o' ≠ Some e).

Definition same_adm d d' : Prop := ∀ e, adm d' e = adm d e.

Lemma adm_upd e f d : (∀ en, en_admission (f en) = en_admission en) → same_adm d (upd e f d).
Proof.
  intros Hf e'. unfold adm, upd. simpl. destruct (decide (e = e')) as [<-|]; [rewrite lookup_alter_eq|by rewrite lookup_alter_ne].
  destruct (dm_entries d !! e); simpl; auto.
Qed.

Lemma adm_entries d d' : dm_entries d' = dm_entries d → same_adm d d'.
Proof. unfold same_adm, adm. by intros ->. Qed.

Lemma adm_insert e en en' d d' :
  dm_entries d !! e = Some en → dm_entries d' = <[e := en']> (dm_entries d) → en_admission en' = en_admission en → same_adm d d'.
Proof.
  intros He Hd Ha e'. unfold adm. rewrite Hd. destruct (decide (e = e')) as [<-|]; [rewrite lookup_insert_eq, He|by rewrite lookup_insert_ne].
  done.
Qed.

#[local] Instance same_adm_refl : Reflexive same_adm.
Proof. done. Qed.
#[local] Instance same_adm_trans : Transitive same_adm.
Proof. intros d1 d2 d3 H1 H2 e. by rewrite H2, H1. Qed.

Lemma adm_change_same h o o' d d' : same_adm d d' → o' = o → adm_change h o o' d d'.
Proof. intros H -> e. left. split; [apply H|done]. Qed.

Lemma adm_change_lock h e d d' : lock_admission h e d = Some d' → adm_change h None (Some e) d d'.
Proof.
  intros H. unfold lock_admission in H. step_cases. intros e'. unfold adm, upd. simpl.
  destruct (decide (e = e')) as [<-|]; [rewrite lookup_alter_eq, Heqo|rewrite lookup_alter_ne by done]; simpl; [auto|].
  left. split; [done|]. split; congruence.
Qed.

Lemma adm_unlock e d : adm (unlock_admission e d) e = None.
Proof. unfold adm, unlock_admission, upd. simpl. rewrite lookup_alter_eq. by destruct (dm_entries d !! e). Qed.

Lemma adm_unlock_ne e e' d : e ≠ e' → adm (unlock_admission e d) e' = adm d e'.
Proof. intros. unfold adm, unlock_admission, upd. simpl. by rewrite lookup_alter_ne. Qed.

Lemma adm_change_unlock h e d d1 d' :
  same_adm d d1 → same_adm (unlock_admission e d1) d' → adm_change h (Some e) None d d'.
Proof.
  intros Hs Hd e'. destruct (decide (e = e')) as [<-|Hne].
  - right. right. split_and!; [done| |done]. rewrite Hd. apply adm_unlock.
  - left. split; [by rewrite Hd, adm_unlock_ne, Hs|]. split; congruence.
Qed.

Ltac same_adm :=
  lazymatch goal with
  | |- same_adm _ (upd _ _ _) => etrans; [|by apply adm_upd]; same_adm
  | |- same_adm ?d (late_save_begin _ ?d') => change (same_adm d d'); same_adm
  | |- same_adm ?d (set_in_flight _ ?d') => change (same_adm d d'); same_adm
  | |- _ => by apply adm_entries
  end.

Lemma save_step_adm e inp d p d' p' late : save_step cfg e inp d p = Some (d', p', late) → same_adm d d'.
Proof. unfold save_step. intros H. step_cases; same_adm. Qed.

Lemma finish_step_adm e reason del inp d p d' p' : finish_step e reason del inp d p = Some (d', p') → same_adm d d'.
Proof. unfold finish_step. intros H. step_cases; same_adm. Qed.

Ltac adm_step :=
  match goal with
  | H : lock_admission _ _ _ = Some _ |- _ => by apply adm_change_lock in H
  | |- adm_change _ (Some _) None _ _ => eapply adm_change_unlock; [|reflexivity]; same_adm
  | |- adm_change _ _ _ _ _ => apply adm_change_same; [same_adm|done]
  end.

Lemma end_step_adm h del reason inp d p d' p' late :
  end_step cfg h del reason inp d p = Some (d', p', late) → adm_change h (end_own p) (end_own p') d d'.
Proof.
  intros H. destruct p as [| | | | | | |e p| | | |e p| |].
  8: { apply end_save_inv in H as [(?&?&?)|(?&?&?&H&?)]; simplify_eq; apply adm_change_same; try done. by eapply save_step_adm. }
  11: { apply end_finish_inv in H as [(?&?)|(?&?&H&?)]; simplify_eq; apply adm_change_same; try done. by eapply finish_step_adm. }
  all: destruct inp; try discriminate H; simpl in H; unfold remove_entry in H; step_cases; goal_cases.
  all: adm_step.
Qed.

Lemma attach_client_adm rq id e en d r d' :
  dm_entries d !! e = Some en → attach_client cfg rq id e en d = (r, d') → same_adm d d'.
Proof. intros He H. unfold attach_client in H. step_cases; first [reflexivity | by eapply (adm_insert _ _ _ _ _ He)]. Qed.

Lemma detach_client_adm client aid e en d r d' :
  dm_entries d !! e = Some en → detach_client client aid e en d = (r, d') → same_adm d d'.
Proof. intros He H. unfold detach_client in H. step_cases; first [reflexivity | by eapply (adm_insert _ _ _ _ _ He)]. Qed.

Lemma open_step_entries i rq inp d p d' p' :
  open_step cfg i rq inp d p = Some (d', p') →
  dm_entries d' = dm_entries d ∨ ∃ id health, dm_entries d' = <[dm_next_entry d := entry_new id health]> (dm_entries d).
Proof.
  intros H. destruct p, inp; try discriminate H; simpl in H; unfold reserve_session, register_session, lock_gate in *;
    step_cases; goal_cases; eauto.
Qed.

Lemma heap_fresh d : reg_daemon cfg d → dm_entries d !! dm_next_entry d = None.
Proof.
  intros Hd. destruct (dm_entries d !! dm_next_entry d) as [en|] eqn:E; [|done].
  assert (ids d !! dm_next_entry d = Some (en_session_id en)) as H by (unfold ids; by rewrite lookup_fmap, E).
  apply (rd_heap _ _ Hd) in H. lia.
Qed.

Lemma open_step_adm i rq inp d p d' p' : reg_daemon cfg d → open_step cfg i rq inp d p = Some (d', p') → same_adm d d'.
Proof.
  intros Hd H e. apply open_step_entries in H as [H|(id&h&H)]; unfold adm; rewrite H; [done|].
  destruct (decide (dm_next_entry d = e)) as [<-|]; [by rewrite lookup_insert_eq, heap_fresh|by rewrite lookup_insert_ne].
Qed.

Lemma client_step_adm i inp d p d' p' s :
  reg_daemon cfg d → client_step cfg i inp d p = Some (d', p', s) → adm_change (i, 0) (client_own p) (client_own p') d d'.
Proof.
  intros Hd H. destruct p as [| | | | | | | | | | | | | |a p| | | | | | | |e p denial|].
  15: { apply stopping_inv in H as [(Hp&->&->&->)|[(?&->&->&->&->)|[(?&->&->&->&->)|(?&?&H&->&->)]]].
        - apply adm_change_same; [same_adm|by destruct p].
        - adm_step.
        - simpl. eapply adm_change_unlock; [|same_adm]. same_adm.
        - by apply end_step_adm in H. }
  1: { apply opening_inv in H as (->&[(->&?&?&->&->)|[(->&H&?&->)|(?&H&->)]]); [adm_step|adm_step|].
       apply open_step_adm in H; [|done]. by apply adm_change_same. }
  21: { apply rollback_inv in H as (->&[(->&->&->)|(?&H&->)]); [adm_step|]. apply finish_step_adm in H. by apply adm_change_same. }
  all: destruct inp; try discriminate H; simpl in H; unfold quiet, lock_gate in H; step_cases; goal_cases.
  all: try adm_step.
  all: try (apply adm_change_same; [|done]; first [by eapply attach_client_adm | by eapply detach_client_adm]).
  eapply adm_change_unlock; [|reflexivity]. by eapply attach_client_adm.
Qed.

Lemma evict_step_adm i inp d p d' p' late :
  evict_step cfg i inp d p = Some (d', p', late) → adm_change (i, 0) (evict_own p) (evict_own p') d d'.
Proof.
  intros H. destruct p as [| | | | | | | |now ids e x p| | | |now ids e p| |].
  9: { apply evict_save_inv in H as [(?&?&?)|(?&?&?&H&?)]; simplify_eq; [goal_cases; adm_step|].
       apply save_step_adm in H. by apply adm_change_same. }
  12: { apply evict_finish_inv in H as [(?&?)|(?&?&H&?)]; simplify_eq; [adm_step|].
        apply finish_step_adm in H. by apply adm_change_same. }
  all: unfold evict_step in H; destruct (dc_idle_retention cfg), inp; try discriminate H; unfold lock_gate, remove_entry in H; step_cases.
  all: unfold next_check; goal_cases; adm_step.
Qed.

(** A part of a task changes only what it owns. *)
Lemma task_step_adm i inp d t d' t' s :
  reg_daemon cfg d → task_step cfg i inp d t = Some (d', t', s) →
  ∃ k, adm_change (i, k) (owns t k) (owns t' k) d d' ∧ ∀ l, l ≠ k → owns t' l = owns t l.
Proof.
  intros Hd H. destruct t as [p|e aid p|p|p|id e|]; simpl in H; step_cases.
  - destruct x as [[]]. exists 0. split; [by eapply client_step_adm|]. by intros [].
  - destruct x as [d' p']. exists 0. simpl. split; [|intros [] ?; by destruct p, p'].
    unfold prompt_step in *. step_cases; adm_step.
  - destruct x as [[]]. exists 0. split; [by eapply evict_step_adm|]. by intros [].
  - destruct x as [[d' p'] late]. simpl. destruct p as [| | |l| |], inp; try discriminate; simpl in *; unfold lock_gate in *; step_cases.
    all: try (exists 0; split; [adm_step|done]).
    + assert (Hn : ∀ k, (EnLookup <$> (map_to_list (dm_sessions d')).*1) !! k ≫= end_own = None)
        by (intros k; rewrite list_lookup_fmap; by destruct ((map_to_list _).*1 !! k)).
      exists 0. rewrite Hn. split; [adm_step|]. done.
    + assert (Hn : ∀ k, l !! k ≫= end_own = None).
      { intros k. destruct (l !! k) as [q|] eqn:Hq; [|done]. rewrite forallb_forall in Heqb.
        specialize (Heqb q). rewrite <- list_elem_of_In in Heqb. specialize (Heqb (list_elem_of_lookup_2 _ _ _ Hq)). by destruct q. }
      exists 0. rewrite Hn. split; [adm_step|]. intros. by rewrite Hn.
    + destruct x0 as [[d1 p1] late]. exists k. simpl.
      rewrite list_lookup_insert_eq by (by eapply lookup_lt_Some). rewrite H. split; [by apply end_step_adm in H0|].
      intros l' Hl'. by rewrite list_lookup_insert_ne.
  - exists 0. split; [|done]. apply adm_change_same; [|done]. unfold late_save_end. repeat case_match; same_adm.
Qed.

Definition adm_ok (sys : System) : Prop :=
  ∀ i k e, adm (sy_daemon sys) e = Some (i, k) ↔ ∃ t, sy_tasks sys !! i = Some t ∧ owns t k = Some e.

Lemma pool_self tasks i j t t' s : tasks !! i = Some t → tasks !! j = None → spawn_at j s (<[i := t']> tasks) !! i = Some t'.
Proof.
  intros Hi Hj. unfold spawn_at. assert (i ≠ j) by congruence.
  destruct (spawned s); [rewrite lookup_insert_ne by done|]; apply lookup_insert_eq.
Qed.

Lemma pool_other tasks i j t' s k u : tasks !! j = None → k ≠ i → tasks !! k = Some u → spawn_at j s (<[i := t']> tasks) !! k = Some u.
Proof.
  intros Hj Hk Hu. unfold spawn_at. assert (j ≠ k) by congruence.
  destruct (spawned s); [rewrite lookup_insert_ne by done|]; by rewrite lookup_insert_ne.
Qed.

Lemma spawned_owns s u k : spawned s = Some u → owns u k = None.
Proof. by destruct s; intros; simplify_eq/=. Qed.

Lemma arrives_owns t k : arrives t = true → owns t k = None.
Proof. by destruct t as [[rq []| | | | | | | | | | | | | | | | | | | | | | |]| |[]|[]| |]; destruct k. Qed.

Lemma adm_ok_step sys sys' : reg_ok cfg sys → sys_step cfg sys sys' → adm_ok sys → adm_ok sys'.
Proof.
  intros Hreg Hstep Hok. destruct Hstep as [d tasks i j inp t d' t' s Hi Hs Hj|d tasks i t Hi Ha|d tasks e h]; simpl in *.
  - pose proof (ro_daemon _ _ Hreg) as Hd. simpl in Hd.
    destruct (task_step_adm _ _ _ _ _ _ _ Hd Hs) as (k&Hch&Hother).
    assert (Hold : ∀ e, owns t k = Some e → adm d e = Some (i, k)) by (intros e He; apply Hok; eauto).
    intros i0 l e. simpl. split.
    + intros Ha. destruct (Hch e) as [[Hs' Ho]|[(Hn&Hs'&Ho)|(_&?&_)]]; [| |congruence].
      * rewrite Hs' in Ha. apply Hok in Ha as (u&Hu&Hl). simpl in Hu. destruct (decide (i0 = i)) as [->|Hne].
        { simplify_eq. exists t'. split; [by eapply pool_self|]. destruct (decide (l = k)) as [->|]; [by apply Ho|by rewrite Hother]. }
        exists u. split; [by eapply pool_other|done].
      * rewrite Hs' in Ha. simplify_eq. exists t'. split; [by eapply pool_self|done].
    + intros (u&Hu&Hl). destruct (pool_lookup _ _ _ _ _ _ _ _ Hi Hj Hu) as [[-> ->]|[(Hne&_&Hu')|(->&_&Hsp)]].
      * destruct (decide (l = k)) as [->|Hl'].
        { destruct (Hch e) as [[Hs' Ho]|[(Hn&Hs'&Ho)|(_&_&Ho)]]; [|done|done]. rewrite Hs'. by apply Hold, Ho. }
        rewrite Hother in Hl by done. assert (Ha : adm d e = Some (i, l)) by (apply Hok; eauto).
        destruct (Hch e) as [[Hs' Ho]|[(Hn&Hs'&Ho)|(Ho&_&_)]]; [by rewrite Hs'|by rewrite Hn in Ha|]. apply Hold in Ho. by simplify_eq.
      * assert (Ha : adm d e = Some (i0, l)) by (apply Hok; eauto).
        destruct (Hch e) as [[Hs' Ho]|[(Hn&Hs'&Ho)|(Ho&_&_)]]; [by rewrite Hs'|by rewrite Hn in Ha|]. apply Hold in Ho. by simplify_eq.
      * by rewrite (spawned_owns _ _ _ Hsp) in Hl.
  - intros j k e. simpl. rewrite (Hok j k e). simpl. split; intros (u&Hu&Hk).
    + exists u. split; [|done]. rewrite lookup_insert_ne; [done|]. congruence.
    + apply lookup_insert_Some in Hu as [[<- <-]|[_ Hu]]; [by rewrite arrives_owns in Hk|eauto].
  - intros i k e'. simpl. rewrite adm_upd by done. apply Hok.
Qed.

End registry.
