(* ===== verification/Daemon.v ===== *)
(** * The sessions of the daemon

    What every interleaving of the tasks of [Registry] keeps true: how an entry lives and
    ends, that its clients are the connections attached to it, that only deserted
    sessions are evicted, that a shutdown closes the registry, and that the locks are
    never lost.  A step is first described by what it does to the entries ([change]);
    the invariants follow from that description. *)

From stdpp Require Import base numbers list strings gmap fin_maps.
From S2P Require Import Prelude Protocol Persistence Registry RegistryLocks.

Section registry.
Context (cfg : DaemonConfig).
Implicit Types (d : Daemon) (t u : Task) (i j k e : nat) (id : string) (inp : Input).

(** *** What a step does to the entries *)

(** How far the removal of an entry has come. *)
Inductive Phase := PhRemoved | PhStopped | PhCleared | PhEmitted.

Definition finish_phase (p : FinishPc) : option Phase :=
  match p with
  | FiClear => Some PhStopped
  | FiCleanup | FiDelete | FiEmit => Some PhCleared
  | FiNotify => Some PhEmitted
  | FiDone => None
  end.

Definition end_ends (p : EndPc) : option (nat * Phase) :=
  match p with
  | EnStop e => Some (e, PhRemoved)
  | EnRelease e => Some (e, PhStopped)
  | EnFinish e f => (λ ph, (e, ph)) <$> finish_phase f
  | _ => None
  end.

Definition client_ends (p : ClientPc) : option (nat * Phase) :=
  match p with
  | ClStopping _ p => end_ends p
  | ClRollbackStop e _ => Some (e, PhRemoved)
  | ClRollbackCancel e _ => Some (e, PhStopped)
  | ClRollback e f _ => (λ ph, (e, ph)) <$> finish_phase f
  | _ => None
  end.

Definition evict_ends (p : EvictPc) : option (nat * Phase) :=
  match p with
  | EvStop _ _ e => Some (e, PhRemoved)
  | EvRelease _ _ e => Some (e, PhStopped)
  | EvFinish _ _ e f => (λ ph, (e, ph)) <$> finish_phase f
  | _ => None
  end.

(** The entry the [k]-th part of a task has removed and is ending. *)
Definition ends (t : Task) (k : nat) : option (nat * Phase) :=
  match t with
  | TClient p => if k =? 0 then client_ends p else None
  | TEvict p => if k =? 0 then evict_ends p else None
  | TShutdown (ShJoin l) => l !! k ≫= end_ends
  | _ => None
  end.

(** The attachment of a connection until it is dropped: entry, client, capabilities, id. *)
Definition Live : Type := nat * string * list ClientCapability * nat.

Definition live_of (a : AttachedSession) : Live := (ah_entry a, ah_client_id a, ah_capabilities a, ah_attachment_id a).

Definition client_live (p : ClientPc) : option Live :=
  match p with
  | ClHandshake a | ClFitting a | ClReadmission a _ | ClRecheck a _ | ClReply a | ClServing a | ClDispatch a _
  | ClCommandAdmission a | ClCommand a | ClStopGate a | ClStopping a _ | ClDetach a _ _ => Some (live_of a)
  | _ => None
  end.

Definition live (t : Task) : option Live := match t with TClient p => client_live p | _ => None end.

Definition is_ending (c : CoreCall) : bool := match c with CallEnding _ => true | _ => false end.
Definition eligible_call (c : CoreCall) : option (nat * nat) :=
  match c with CallEligible once always => Some (once, always) | _ => None end.

(** The entry keeps its clients, stays stopped or not, and a turn at most ends. *)
Definition mild (en en' : SessionEntry) : Prop :=
  en_session_id en' = en_session_id en ∧ en_clients en' = en_clients en ∧ en_stopped en' = en_stopped en ∧
  en_stop_notifier en' = en_stop_notifier en ∧ (en_turn_active en' = true → en_turn_active en = true) ∧
  (∃ cs, en_calls en' = en_calls en ++ cs ∧ Forall (λ c, is_ending c = false ∧ eligible_call c = None) cs).

(** Nothing but mild changes of entries. *)
Definition mildly d d' : Prop :=
  dm_sessions d' = dm_sessions d ∧ dm_next_entry d' = dm_next_entry d ∧
  dm_next_attachment_id d' = dm_next_attachment_id d ∧ dm_replaced d' = dm_replaced d ∧
  ∀ e, match dm_entries d !! e, dm_entries d' !! e with
       | Some en, Some en' => mild en en'
       | None, None => True
       | _, _ => False
       end.

Lemma mild_calls (l : list CoreCall) :
  ∃ cs, l = l ++ cs ∧ Forall (λ c, is_ending c = false ∧ eligible_call c = None) cs.
Proof. exists []. split; [by rewrite app_nil_r|constructor]. Qed.

Lemma mild_refl en : mild en en.
Proof. unfold mild. split_and!; auto using mild_calls. Qed.

Lemma mild_trans en1 en2 en3 : mild en1 en2 → mild en2 en3 → mild en1 en3.
Proof.
  unfold mild. intros (<-&<-&<-&<-&H1&cs&Hc&Hcs) (<-&<-&<-&<-&H2&cs'&->&Hcs'). rewrite Hc. split_and!; auto.
  exists (cs ++ cs'). rewrite app_assoc. split; [done|by apply Forall_app].
Qed.

Lemma mild_call c en : is_ending c = false → eligible_call c = None → mild en (call c en).
Proof. intros. unfold mild. split_and!; auto. exists [c]. simpl. auto. Qed.

Lemma mildly_entries d d' :
  dm_entries d' = dm_entries d → dm_sessions d' = dm_sessions d → dm_next_entry d' = dm_next_entry d →
  dm_next_attachment_id d' = dm_next_attachment_id d → dm_replaced d' = dm_replaced d → mildly d d'.
Proof.
  intros He Hs Hn Ha Hr. split_and!; [done..|]. intros e. rewrite He. destruct (dm_entries d !! e); [apply mild_refl|done].
Qed.

Lemma mildly_upd e f d : (∀ en, mild en (f en)) → mildly d (upd e f d).
Proof.
  intros Hf. split_and!; [done..|]. intros e'. simpl. destruct (decide (e = e')) as [<-|].
  - rewrite lookup_alter_eq. destruct (dm_entries d !! e); simpl; [apply Hf|done].
  - rewrite lookup_alter_ne by done. destruct (dm_entries d !! e'); [apply mild_refl|done].
Qed.

Lemma mildly_trans d1 d2 d3 : mildly d1 d2 → mildly d2 d3 → mildly d1 d3.
Proof.
  unfold mildly. intros (<-&<-&<-&<-&H1) (<-&<-&<-&<-&H2). split_and!; [done..|]. intros e. specialize (H1 e). specialize (H2 e).
  destruct (dm_entries d1 !! e), (dm_entries d2 !! e), (dm_entries d3 !! e); try done. by eapply mild_trans.
Qed.

(** One step of the daemon, as its entries see it: the part that moves owns the admission
    of [own], goes from ending [o] to ending [o'] and from the attachment [l] to [l']. *)
Inductive change (own : option nat) (o o' : option (nat * Phase)) (l l' : option Live) (evict : bool) (d d' : Daemon) : Prop :=
  | ch_mild :
      mildly d d' → o' = o → l' = l → change own o o' l l' evict d d'
  | ch_turn e d1 :
      own = Some e → (∀ en, dm_entries d !! e = Some en → en_stopped en = false) →
      d1 = upd e (set_turn true) d → mildly d1 d' → o' = o → l' = l → change own o o' l l' evict d d'
  | ch_attach rq id e en aid d1 :
      own = Some e → dm_entries d !! e = Some en → attach_client cfg rq id e en d = (Ok aid, d1) → d' = d1 →
      l = None → l' = Some (e, client_id (rq_client rq), rq_capabilities rq, aid) →
      o' = o → change own o o' l l' evict d d'
  | ch_detach e c caps aid en b :
      l = Some (e, c, caps, aid) → l' = None → dm_entries d !! e = Some en →
      detach_client c aid e en d = (b, d') → o' = o → change own o o' l l' evict d d'
  | ch_remove id e :
      dm_sessions d !! id = Some e → d' = set_sessions (delete id (dm_sessions d)) d →
      o = None → o' = Some (e, PhRemoved) → l' = l → change own o o' l l' evict d d'
  | ch_stop e :
      d' = upd e set_stopped d → o = Some (e, PhRemoved) → o' = Some (e, PhStopped) → l' = l →
      change own o o' l l' evict d d'
  | ch_clear e :
      d' = upd e (set_clients ∅) d → o = Some (e, PhStopped) → o' = Some (e, PhCleared) → l' = l →
      change own o o' l l' evict d d'
  | ch_emit e reason :
      d' = upd e (call (CallEnding reason)) d → o = Some (e, PhCleared) → o' = Some (e, PhEmitted) →
      l' = l → (reason = "idle_retention" → evict = true) → change own o o' l l' evict d d'
  | ch_notify e :
      d' = upd e set_stop_notifier d → o = Some (e, PhEmitted) → o' = None → l' = l →
      change own o o' l l' evict d d'
  | ch_register id health :
      dm_sessions d' = <[id := dm_next_entry d]> (dm_sessions d) → dm_sessions d !! id = None →
      dm_entries d' = <[dm_next_entry d := entry_new id health]> (dm_entries d) →
      dm_next_attachment_id d' = dm_next_attachment_id d → dm_replaced d' = dm_replaced d →
      o' = o → l' = l → change own o o' l l' evict d d'.

Ltac mildly :=
  unfold unlock_admission;
  lazymatch goal with
  | |- mildly ?d ?d => by apply mildly_entries
  | |- mildly _ (upd _ (call _) _) => eapply mildly_trans; [|by apply mildly_upd; intros; apply mild_call]; mildly
  | |- mildly _ (upd _ _ _) =>
      eapply mildly_trans; [|apply mildly_upd; intros ?; unfold mild; simpl; by (split_and!; auto using mild_calls)]; mildly
  | |- mildly ?d (unlock_gate ?d') => change (mildly d d'); mildly
  | |- mildly ?d (late_save_begin _ ?d') => change (mildly d d'); mildly
  | |- mildly ?d (set_in_flight _ ?d') => change (mildly d d'); mildly
  | |- mildly ?d (set_gate _ ?d') => change (mildly d d'); mildly
  | |- mildly ?d (set_shutting_down ?d') => change (mildly d d'); mildly
  end.

Lemma save_step_change e inp d p d' p' late own o l ev :
  save_step cfg e inp d p = Some (d', p', late) → change own o o l l ev d d'.
Proof. unfold save_step. intros H. step_cases; apply ch_mild; try done; mildly. Qed.

Lemma finish_step_change e reason del inp d p d' p' own l ev :
  finish_step e reason del inp d p = Some (d', p') → (reason = "idle_retention" → ev = true) →
  change own ((λ ph, (e, ph)) <$> finish_phase p) ((λ ph, (e, ph)) <$> finish_phase p') l l ev d d'.
Proof.
  unfold finish_step. intros H Hr. step_cases.
  - by eapply ch_clear.
  - destruct del; apply ch_mild; try done; mildly.
  - apply ch_mild; try done; mildly.
  - by eapply ch_emit.
  - by eapply ch_notify.
Qed.

Lemma end_step_change h del reason inp d p d' p' late l ev :
  end_step cfg h del reason inp d p = Some (d', p', late) → (reason = "idle_retention" → ev = true) →
  change (end_own p) (end_ends p) (end_ends p') l l ev d d'.
Proof.
  intros H Hr. destruct p as [| | | | | | |e p| | | |e p| |].
  8: { apply end_save_inv in H as [(?&?&?)|(?&?&?&H&?)]; simplify_eq; [by apply ch_mild; [mildly|..]|]. by eapply save_step_change. }
  11: { apply end_finish_inv in H as [(?&?)|(?&?&H&?)]; simplify_eq; [by apply ch_mild; [mildly|..]|]. by eapply finish_step_change. }
  all: destruct inp; try discriminate H; simpl in H; unfold lock_admission, remove_entry in H; step_cases; goal_cases.
  all: try (apply ch_mild; [mildly|done|done]).
  - bool_to_prop. by eapply ch_remove.
  - by eapply ch_stop.
Qed.

Lemma open_step_change i rq inp d p d' p' own o l ev :
  open_step cfg i rq inp d p = Some (d', p') → change own o o l l ev d d'.
Proof.
  intros H. destruct p, inp; try discriminate H; simpl in H; unfold reserve_session, register_session, lock_gate in *;
    step_cases; goal_cases.
  all: try (apply ch_mild; [by apply mildly_entries|done|done]).
  eapply ch_register; try done. by destruct (dm_sessions d !! id).
Qed.

Lemma attach_client_err rq id e en d error d' : attach_client cfg rq id e en d = (Err error, d') → d' = d.
Proof. unfold attach_client. intros H. by step_cases. Qed.

Lemma client_step_change i inp d p d' p' s :
  client_step cfg i inp d p = Some (d', p', s) →
  change (client_own p) (client_ends p) (client_ends p') (client_live p) (client_live p') false d d'.
Proof.
  intros H. destruct p as [| | | | | | | | | | | | | |a p| | | | | | | |e p denial|].
  15: { apply stopping_inv in H as [(Hp&->&->&->)|[(?&->&->&->&->)|[(?&->&->&->&->)|(?&?&H&->&->)]]].
        1-3: apply ch_mild; [mildly|by try destruct p|done].
        by eapply end_step_change in H. }
  1: { apply opening_inv in H as (->&[(->&?&?&->&->)|[(->&H&?&->)|(?&H&->)]]); [apply ch_mild; [mildly|done..]..|].
       by eapply open_step_change in H. }
  21: { apply rollback_inv in H as (->&[(->&->&->)|(?&H&->)]); [apply ch_mild; [mildly|done..]|]. by eapply finish_step_change in H. }
  all: destruct inp; try discriminate H; simpl in H; unfold quiet, lock_gate, lock_admission in H; step_cases; goal_cases.
  all: try (apply ch_mild; [mildly|done|done]).
  all: try (by eapply ch_detach).
  - by eapply ch_attach.
  - by eapply ch_attach.
  - apply attach_client_err in Heqp as ->. apply ch_mild; [mildly|done..].
  - by eapply ch_remove.
  - by eapply ch_stop.
Qed.

Lemma evict_step_change i inp d p d' p' late :
  evict_step cfg i inp d p = Some (d', p', late) →
  change (evict_own p) (evict_ends p) (evict_ends p') None None true d d'.
Proof.
  intros H. destruct p as [| | | | | | | |now ids e x p| | | |now ids e p| |].
  9: { apply evict_save_inv in H as [(?&?&?)|(?&?&?&H&?)]; simplify_eq; [|by eapply save_step_change in H].
       goal_cases; (apply ch_mild; [by apply mildly_entries|done|done]). }
  12: { apply evict_finish_inv in H as [(?&?)|(?&?&H&?)]; simplify_eq; [apply ch_mild; [mildly|done..]|].
        by eapply finish_step_change in H. }
  all: unfold evict_step in H; destruct (dc_idle_retention cfg), inp; try discriminate H;
    unfold lock_gate, lock_admission, remove_entry in H; step_cases; unfold next_check; goal_cases.
  all: try (apply ch_mild; [mildly|done|done]).
  - bool_to_prop. by eapply ch_remove.
  - by eapply ch_stop.
Qed.

Definition is_evict (t : Task) : bool := match t with TEvict _ => true | _ => false end.

Lemma task_step_change i inp d t d' t' s :
  task_step cfg i inp d t = Some (d', t', s) →
  ∃ k, change (owns t k) (ends t k) (ends t' k) (live t) (live t') (is_evict t) d d' ∧ ∀ l, l ≠ k → ends t' l = ends t l.
Proof.
  intros H. destruct t as [p|e aid p|p|p|id e|]; simpl in H; step_cases.
  - destruct x as [[]]. exists 0. split; [by eapply client_step_change|]. by intros [].
  - destruct x as [d' p']. exists 0. simpl. split; [|done].
    unfold prompt_step, lock_admission in *. step_cases; try (apply ch_mild; [mildly|done|done]).
    apply orb_false_iff in Heqb as [? ?]. eapply (ch_turn _ _ _ _ _ _ _ _ e); try done; [|mildly]. intros en He. congruence.
  - destruct x as [[]]. exists 0. split; [by eapply evict_step_change|]. by intros [].
  - destruct x as [[d' p'] late]. simpl. destruct p as [| | |l| |], inp; try discriminate; simpl in *; unfold lock_gate in *; step_cases.
    all: try (exists 0; split; [apply ch_mild; [mildly|done..]|done]).
    + assert (Hn : ∀ k, (EnLookup <$> (map_to_list (dm_sessions d')).*1) !! k ≫= end_ends = None)
        by (intros k; rewrite list_lookup_fmap; by destruct ((map_to_list _).*1 !! k)).
      exists 0. rewrite Hn. split; [apply ch_mild; [mildly|done..]|]. done.
    + assert (Hn : ∀ k, l !! k ≫= end_ends = None).
      { intros k. destruct (l !! k) as [q|] eqn:Hq; [|done]. rewrite forallb_forall in Heqb.
        specialize (Heqb q). rewrite <- list_elem_of_In in Heqb. specialize (Heqb (list_elem_of_lookup_2 _ _ _ Hq)). by destruct q. }
      exists 0. rewrite Hn. split; [apply ch_mild; [mildly|done..]|]. intros. by rewrite Hn.
    + destruct x0 as [[d1 p1] late]. exists k. simpl.
      rewrite list_lookup_insert_eq by (by eapply lookup_lt_Some). rewrite H. split; [by eapply end_step_change in H0|].
      intros l' Hl'. by rewrite list_lookup_insert_ne.
  - exists 0. split; [|done]. apply ch_mild; [|done|done]. apply mildly_entries; unfold late_save_end; repeat case_match; done.
Qed.

End registry.

Section registry.
Context (cfg : DaemonConfig).
Implicit Types (d : Daemon) (t u : Task) (i j k e : nat) (id : string) (inp : Input).

(** *** The life of an entry *)

Inductive Stage := Registered | Ending (ph : Phase) | Over.

Definition endings (en : SessionEntry) : nat := length (List.filter is_ending (en_calls en)).

Definition stage_ok (st : Stage) (en : SessionEntry) : Prop :=
  match st with
  | Registered | Ending PhRemoved => en_stopped en = false ∧ en_stop_notifier en = false ∧ endings en = 0
  | Ending PhStopped => en_stopped en = true ∧ en_stop_notifier en = false ∧ endings en = 0
  | Ending PhCleared => en_stopped en = true ∧ en_clients en = ∅ ∧ en_stop_notifier en = false ∧ endings en = 0
  | Ending PhEmitted => en_stopped en = true ∧ en_clients en = ∅ ∧ en_stop_notifier en = false ∧ endings en = 1
  | Over => en_stopped en = true ∧ en_clients en = ∅ ∧ en_stop_notifier en = true ∧ endings en = 1
  end.

#[local] Arguments stage_ok : simpl never.

(** A change that does not touch the stage of an entry. *)
Definition calm (en en' : SessionEntry) : Prop :=
  en_stopped en' = en_stopped en ∧ en_stop_notifier en' = en_stop_notifier en ∧ endings en' = endings en ∧
  (en_stopped en = true → en_clients en = ∅ → en_clients en' = ∅).

Lemma stage_calm st en en' : calm en en' → stage_ok st en → stage_ok st en'.
Proof. intros (Hs&Hn&He&Hc). destruct st as [|[]|]; unfold stage_ok; rewrite Hs, Hn, He; naive_solver. Qed.

Definition calmly d d' : Prop :=
  ∀ e, match dm_entries d !! e, dm_entries d' !! e with
       | Some en, Some en' => calm en en'
       | None, None => True
       | _, _ => False
       end.

Lemma endings_app en en' cs :
  en_calls en' = en_calls en ++ cs → Forall (λ c, is_ending c = false) cs → endings en' = endings en.
Proof.
  unfold endings. intros -> Hcs. rewrite List.filter_app, length_app.
  assert (List.filter is_ending cs = []) as ->; [|simpl; lia]. induction Hcs as [|c cs Hc _ IH]; simpl; [done|by rewrite Hc].
Qed.

Lemma mild_calm en en' : mild en en' → calm en en'.
Proof.
  intros (_&Hc&Hs&Hn&_&cs&Hcs&Hf). split_and!; try done; [|by rewrite Hc].
  eapply endings_app; [done|]. eapply Forall_impl; [done|]. by intros c [? ?].
Qed.

Lemma calm_refl en : calm en en.
Proof. by split_and!. Qed.

Lemma calm_trans en1 en2 en3 : calm en1 en2 → calm en2 en3 → calm en1 en3.
Proof. unfold calm. intros (<-&<-&<-&H1) (->&->&->&H2). split_and!; auto. Qed.

Lemma calmly_trans d1 d2 d3 : calmly d1 d2 → calmly d2 d3 → calmly d1 d3.
Proof.
  intros H1 H2 e. specialize (H1 e). specialize (H2 e).
  destruct (dm_entries d1 !! e), (dm_entries d2 !! e), (dm_entries d3 !! e); try done. by eapply calm_trans.
Qed.

Lemma calmly_upd e f d : (∀ en, dm_entries d !! e = Some en → calm en (f en)) → calmly d (upd e f d).
Proof.
  intros Hf e'. simpl. destruct (decide (e = e')) as [<-|].
  - rewrite lookup_alter_eq. destruct (dm_entries d !! e); simpl; [by apply Hf|done].
  - rewrite lookup_alter_ne by done. destruct (dm_entries d !! e'); [apply calm_refl|done].
Qed.

Lemma calmly_insert e en en' d d' :
  dm_entries d !! e = Some en → dm_entries d' = <[e := en']> (dm_entries d) → calm en en' → calmly d d'.
Proof.
  intros He Hd Hc e'. rewrite Hd. destruct (decide (e = e')) as [<-|].
  - by rewrite lookup_insert_eq, He.
  - rewrite lookup_insert_ne by done. destruct (dm_entries d !! e'); [apply calm_refl|done].
Qed.

Lemma mildly_calmly d d' : mildly d d' → calmly d d'.
Proof.
  intros (_&_&_&_&H) e. specialize (H e). destruct (dm_entries d !! e), (dm_entries d' !! e); try done. by apply mild_calm.
Qed.

Lemma calmly_refl d : calmly d d.
Proof. intros e. destruct (dm_entries d !! e); [apply calm_refl|done]. Qed.

Lemma attach_calmly rq id e en d r d' :
  dm_entries d !! e = Some en → attach_client cfg rq id e en d = (r, d') → calmly d d' ∧ dm_sessions d' = dm_sessions d.
Proof.
  intros He H. unfold attach_client in H. step_cases; (split; [|done]); try apply calmly_refl.
  all: eapply (calmly_insert _ _ _ _ _ He); [done|]; split_and!; [done|done| |by intros ?; congruence].
  all: eapply endings_app; [done|by repeat constructor].
Qed.

Lemma detach_calmly c aid e en d r d' :
  dm_entries d !! e = Some en → detach_client c aid e en d = (r, d') → calmly d d' ∧ dm_sessions d' = dm_sessions d.
Proof.
  intros He H. unfold detach_client in H. step_cases; (split; [|done]); try apply calmly_refl.
  eapply (calmly_insert _ _ _ _ _ He); [done|]; split_and!; [done|done| |].
  - eapply endings_app; [done|by repeat constructor].
  - simpl. intros _ ->. apply delete_empty.
Qed.

(** The four ways a step can touch the life of entries. *)
Lemma change_life own o o' l l' ev d d' : change cfg own o o' l l' ev d d' →
  (dm_sessions d' = dm_sessions d ∧ o' = o ∧ calmly d d') ∨
  (∃ id e, dm_sessions d !! id = Some e ∧ dm_sessions d' = delete id (dm_sessions d) ∧ o = None ∧
     o' = Some (e, PhRemoved) ∧ dm_entries d' = dm_entries d) ∨
  (∃ e ph st f, dm_sessions d' = dm_sessions d ∧ o = Some (e, ph) ∧ dm_entries d' = alter f e (dm_entries d) ∧
     (∀ en, stage_ok (Ending ph) en → stage_ok st (f en)) ∧
     ((∃ ph', st = Ending ph' ∧ o' = Some (e, ph')) ∨ (st = Over ∧ o' = None))) ∨
  (∃ id health, dm_sessions d' = <[id := dm_next_entry d]> (dm_sessions d) ∧ dm_sessions d !! id = None ∧
     dm_entries d' = <[dm_next_entry d := entry_new id health]> (dm_entries d) ∧ o' = o).
Proof.
  intros [Hm Ho _|e d1 _ Hst -> Hm Ho _|rq id e en aid d1 _ He Ha -> _ _ Ho|e c caps aid en b _ _ He Ha Ho
    |id e Hs -> Ho Ho' _|e -> Ho Ho' _|e -> Ho Ho' _|e reason -> Ho Ho' _ _|e -> Ho Ho' _|id h Hs Hn He _ _ Ho _].
  - left. split_and!; [by destruct Hm|done|by apply mildly_calmly].
  - left. split_and!; [by destruct Hm as [-> _]|done|]. eapply calmly_trans; [|by apply mildly_calmly].
    apply calmly_upd. intros en _. by split_and!.
  - left. destruct (attach_calmly _ _ _ _ _ _ _ He Ha). by split_and!.
  - left. destruct (detach_calmly _ _ _ _ _ _ _ He Ha). by split_and!.
  - right. left. exists id, e. by split_and!.
  - right. right. left. exists e, PhRemoved, (Ending PhStopped), set_stopped. split_and!; try done; [unfold stage_ok; naive_solver|eauto].
  - right. right. left. exists e, PhStopped, (Ending PhCleared), (set_clients ∅). split_and!; try done; [unfold stage_ok; naive_solver|eauto].
  - right. right. left. exists e, PhCleared, (Ending PhEmitted), (call (CallEnding reason)). split_and!; try done; [|eauto].
    unfold stage_ok, endings. simpl. intros en (?&?&?&Hz). rewrite List.filter_app, length_app, Hz. done.
  - right. right. left. exists e, PhEmitted, Over, set_stop_notifier. split_and!; try done; [unfold stage_ok; naive_solver|auto].
  - right. right. right. exists id, h. by split_and!.
Qed.

Record life_ok (sys : System) : Prop := {
  lo_sessions id e : dm_sessions (sy_daemon sys) !! id = Some e →
    ∃ en, dm_entries (sy_daemon sys) !! e = Some en ∧ stage_ok Registered en;
  lo_ends i t k e ph : sy_tasks sys !! i = Some t → ends t k = Some (e, ph) →
    (∃ en, dm_entries (sy_daemon sys) !! e = Some en ∧ stage_ok (Ending ph) en) ∧
    ∀ id, dm_sessions (sy_daemon sys) !! id ≠ Some e;
  lo_unique i j t u k l e ph ph' : sy_tasks sys !! i = Some t → sy_tasks sys !! j = Some u →
    ends t k = Some (e, ph) → ends u l = Some (e, ph') → i = j ∧ k = l;
  lo_all e en : dm_entries (sy_daemon sys) !! e = Some en →
    (∃ id, dm_sessions (sy_daemon sys) !! id = Some e) ∨
    (∃ i t k ph, sy_tasks sys !! i = Some t ∧ ends t k = Some (e, ph)) ∨ stage_ok Over en;
}.

Lemma spawned_ends s u k : spawned s = Some u → ends u k = None.
Proof. by destruct s; intros; simplify_eq/=. Qed.

Lemma arrives_ends t k : arrives t = true → ends t k = None.
Proof. by destruct t as [[rq []| | | | | | | | | | | | | | | | | | | | | | |]| |[]|[]| |]; destruct k. Qed.

Lemma calmly_entry d d' e en st : calmly d d' → dm_entries d !! e = Some en → stage_ok st en →
  ∃ en', dm_entries d' !! e = Some en' ∧ stage_ok st en'.
Proof.
  intros Hc He Hs. specialize (Hc e). rewrite He in Hc. destruct (dm_entries d' !! e) as [en'|]; [|done].
  exists en'. split; [done|by eapply stage_calm].
Qed.

(** Who ends which entry after a step: the part that moved, or whoever did before. *)
Lemma ends_pool tasks i j t t' s k : tasks !! i = Some t → tasks !! j = None → (∀ l, l ≠ k → ends t' l = ends t l) →
  ∀ i0 u l e ph, spawn_at j s (<[i := t']> tasks) !! i0 = Some u → ends u l = Some (e, ph) →
  (i0 = i ∧ l = k ∧ ends t' k = Some (e, ph)) ∨
  ((i0 ≠ i ∨ l ≠ k) ∧ ∃ v, tasks !! i0 = Some v ∧ ends v l = Some (e, ph)).
Proof.
  intros Hi Hj Ho i0 u l e ph Hu He. destruct (pool_lookup _ _ _ _ _ _ _ _ Hi Hj Hu) as [[-> ->]|[(?&_&?)|(->&_&Hsp)]].
  - destruct (decide (l = k)) as [->|]; [by left|]. right. split; [by right|]. exists t. by rewrite <- Ho.
  - right. eauto.
  - by rewrite (spawned_ends _ _ _ Hsp) in He.
Qed.

Lemma ends_pool_keep tasks i j t t' s k : tasks !! i = Some t → tasks !! j = None → (∀ l, l ≠ k → ends t' l = ends t l) →
  ∀ i0 v l e ph, tasks !! i0 = Some v → ends v l = Some (e, ph) → (i0 ≠ i ∨ l ≠ k) →
  ∃ u, spawn_at j s (<[i := t']> tasks) !! i0 = Some u ∧ ends u l = Some (e, ph).
Proof.
  intros Hi Hj Ho i0 v l e ph Hv He Hne. destruct (decide (i0 = i)) as [->|].
  - destruct Hne as [|Hl]; [done|]. simplify_eq. exists t'. split; [by eapply pool_self|by rewrite Ho].
  - exists v. split; [by eapply pool_other|done].
Qed.

(** One step of the [k]-th part of task [i]. *)
Section moved.
Context (d d' : Daemon) (tasks : gmap nat Task) (i j k : nat) (t t' : Task) (s : Spawn).
Context (Hi : tasks !! i = Some t) (Hj : tasks !! j = None) (Ho : ∀ l, l ≠ k → ends t' l = ends t l).
Context (Hd : reg_daemon cfg d) (Hok : life_ok (mkSystem d tasks)).
Let after : System := mkSystem d' (spawn_at j s (<[i := t']> tasks)).

Lemma life_quiet : dm_sessions d' = dm_sessions d → ends t' k = ends t k → calmly d d' → life_ok after.
Proof.
  intros Hse Hk Hc. destruct Hok as [Hs He Hu Ha]. simpl in *.
  assert (Hback : ∀ i0 u l e ph, spawn_at j s (<[i := t']> tasks) !! i0 = Some u → ends u l = Some (e, ph) →
    ∃ v, tasks !! i0 = Some v ∧ ends v l = Some (e, ph)).
  { intros i0 u l e ph H1 H2. destruct (ends_pool tasks i j t t' s k Hi Hj Ho _ _ _ _ _ H1 H2) as [(->&->&?)|(_&?)]; [|done].
    exists t. split; [done|congruence]. }
  split; simpl; rewrite ?Hse.
  - intros id e (en&?&?)%Hs. by eapply calmly_entry.
  - intros i0 u l e ph H1 H2. destruct (Hback _ _ _ _ _ H1 H2) as (v&H3&H4). destruct (He _ _ _ _ _ H3 H4) as [(en&?&?) ?].
    split; [by eapply calmly_entry|done].
  - intros i0 i1 u v l m e ph ph' H1 H2 H3 H4. destruct (Hback _ _ _ _ _ H1 H3) as (?&?&?). destruct (Hback _ _ _ _ _ H2 H4) as (?&?&?).
    eauto.
  - intros e en' He'. pose proof (Hc e) as Hce. rewrite He' in Hce. destruct (dm_entries d !! e) as [en|] eqn:Hen; [|done].
    destruct (Ha e en Hen) as [?|[(i0&v&l&ph&Hv&Hl)|?]]; [by left| |right; right; by eapply stage_calm].
    right. left. destruct (decide (i0 = i ∧ l = k)) as [[-> ->]|Hne].
    + simplify_eq. exists i, t', k, ph. split; [by eapply pool_self|congruence].
    + destruct (ends_pool_keep tasks i j t t' s k Hi Hj Ho _ _ _ _ _ Hv Hl) as (u&?&?); [|eauto 10].
      destruct (decide (i0 = i)); [right; naive_solver|by left].
Qed.

Lemma life_remove id e : dm_sessions d !! id = Some e → dm_sessions d' = delete id (dm_sessions d) →
  ends t k = None → ends t' k = Some (e, PhRemoved) → dm_entries d' = dm_entries d → life_ok after.
Proof.
  intros Hid Hse Hk Hk' Hen. destruct Hok as [Hs He Hu Ha]. simpl in *.
  pose proof (ends_pool tasks i j t t' s k Hi Hj Ho) as Hpool. rewrite Hk' in Hpool.
  assert (Hnone : ∀ id', delete id (dm_sessions d) !! id' ≠ Some e).
  { intros id' [Hne Hid']%lookup_delete_Some. apply (rd_sessions _ _ Hd) in Hid, Hid'. congruence. }
  assert (Hold : ∀ i0 v l ph, tasks !! i0 = Some v → ends v l = Some (e, ph) → False).
  { intros i0 v l ph H1 H2. by destruct (He _ _ _ _ _ H1 H2) as [_ []%(λ H, H id)]. }
  split; simpl; rewrite ?Hse, ?Hen.
  - intros id' e' [_ ?]%lookup_delete_Some. eauto.
  - intros i0 u l e' ph H1 H2. destruct (Hpool _ _ _ _ _ H1 H2) as [(->&->&[= <- <-])|(_&v&H3&H4)].
    + split; [|done]. destruct (Hs id e Hid) as (en&?&?). eauto.
    + destruct (He _ _ _ _ _ H3 H4) as [? Hn]. split; [done|]. intros id' [_ ?]%lookup_delete_Some. by apply (Hn id').
  - intros i0 i1 u v l m e' ph ph' H1 H2 H3 H4.
    destruct (Hpool _ _ _ _ _ H1 H3) as [(->&->&[= <- <-])|(_&?&?&?)],
      (Hpool _ _ _ _ _ H2 H4) as [(->&->&Hx)|(_&?&?&?)]; try done; [by exfalso; eauto| |by eauto].
    injection Hx as <- <-. exfalso; eauto.
  - intros e' en He'. destruct (Ha e' en He') as [[id' Hid']|[(i0&v&l&ph&Hv&Hl)|?]]; [| |by auto].
    + destruct (decide (e' = e)) as [->|].
      * right. left. exists i, t', k, PhRemoved. split; [by eapply pool_self|done].
      * left. exists id'. rewrite lookup_delete_ne; [done|congruence].
    + right. left. destruct (ends_pool_keep tasks i j t t' s k Hi Hj Ho _ _ _ _ _ Hv Hl) as (u&?&?); [|eauto 10].
      destruct (decide (i0 = i)) as [->|]; [right; congruence|by left].
Qed.

Lemma life_advance e ph st f : dm_sessions d' = dm_sessions d → ends t k = Some (e, ph) →
  dm_entries d' = alter f e (dm_entries d) → (∀ en, stage_ok (Ending ph) en → stage_ok st (f en)) →
  ((∃ ph', st = Ending ph' ∧ ends t' k = Some (e, ph')) ∨ (st = Over ∧ ends t' k = None)) → life_ok after.
Proof.
  intros Hse Hk Hen Hst Hk'. destruct Hok as [Hs He Hu Ha]. simpl in *.
  pose proof (ends_pool tasks i j t t' s k Hi Hj Ho) as Hpool.
  destruct (He i t k e ph Hi Hk) as [(en0&Hen0&Hst0) Hunreg].
  assert (Hother : ∀ i0 v l e' ph', tasks !! i0 = Some v → ends v l = Some (e', ph') → (i0 ≠ i ∨ l ≠ k) → e' ≠ e).
  { intros i0 v l e' ph' H1 H2 H3 ->. destruct (Hu _ _ _ _ _ _ _ _ _ H1 Hi H2 Hk) as [-> ->]. by destruct H3. }
  assert (Hmine : ∀ e' ph', ends t' k = Some (e', ph') → e' = e ∧ st = Ending ph').
  { intros e' ph' Hx. destruct Hk' as [(ph''&->&Hk')|[_ Hk']]; rewrite Hk' in Hx; by simplify_eq. }
  split; simpl; rewrite ?Hse, ?Hen.
  - intros id e' Hid. destruct (Hs id e' Hid) as (en&?&?). exists en. split; [|done]. rewrite lookup_alter_ne; [done|].
    intros <-. by apply (Hunreg id).
  - intros i0 u l e' ph' H1 H2. destruct (Hpool _ _ _ _ _ H1 H2) as [(->&->&Hx)|(Hne&v&H3&H4)].
    + destruct (Hmine _ _ Hx) as [-> <-]. split; [|done]. exists (f en0). rewrite lookup_alter_eq, Hen0. split; [done|by apply Hst].
    + pose proof (Hother _ _ _ _ _ H3 H4 Hne). destruct (He _ _ _ _ _ H3 H4) as [(en&?&?) ?]. split; [|done].
      exists en. by rewrite lookup_alter_ne.
  - intros i0 i1 u v l m e' ph1 ph2 H1 H2 H3 H4.
    destruct (Hpool _ _ _ _ _ H1 H3) as [(->&->&Hx)|(Hne&?&Hv1&Hv2)], (Hpool _ _ _ _ _ H2 H4) as [(->&->&Hy)|(Hne'&?&Hw1&Hw2)]; [done| | |by eauto].
    + destruct (Hmine _ _ Hx) as [-> _]. by destruct (Hother _ _ _ _ _ Hw1 Hw2 Hne').
    + destruct (Hmine _ _ Hy) as [-> _]. by destruct (Hother _ _ _ _ _ Hv1 Hv2 Hne).
  - intros e' en He'. destruct (decide (e = e')) as [<-|Hne].
    + right. rewrite lookup_alter_eq, Hen0 in He'. simplify_eq/=. destruct Hk' as [(ph'&->&Hk')|[-> Hk']].
      * left. exists i, t', k, ph'. split; [by eapply pool_self|done].
      * right. by apply Hst.
    + rewrite lookup_alter_ne in He' by done. destruct (Ha e' en He') as [?|[(i0&v&l&ph'&Hv&Hl)|?]]; [by auto| |by auto].
      right. left. destruct (ends_pool_keep tasks i j t t' s k Hi Hj Ho _ _ _ _ _ Hv Hl) as (u&?&?); [|eauto 10].
      destruct (decide (i0 = i)) as [->|]; [right; congruence|by left].
Qed.

Lemma life_register id health : dm_sessions d' = <[id := dm_next_entry d]> (dm_sessions d) → dm_sessions d !! id = None →
  dm_entries d' = <[dm_next_entry d := entry_new id health]> (dm_entries d) → ends t' k = ends t k → life_ok after.
Proof.
  intros Hse Hn Hen Hk. destruct Hok as [Hs He Hu Ha]. simpl in *.
  pose proof (heap_fresh _ _ Hd) as Hfresh.
  assert (Hback : ∀ i0 u l e ph, spawn_at j s (<[i := t']> tasks) !! i0 = Some u → ends u l = Some (e, ph) →
    ∃ v, tasks !! i0 = Some v ∧ ends v l = Some (e, ph)).
  { intros i0 u l e ph H1 H2. destruct (ends_pool tasks i j t t' s k Hi Hj Ho _ _ _ _ _ H1 H2) as [(->&->&?)|(_&?)]; [|done].
    exists t. split; [done|congruence]. }
  assert (Hne : ∀ e en, dm_entries d !! e = Some en → dm_next_entry d ≠ e) by congruence.
  split; simpl; rewrite ?Hse, ?Hen.
  - intros id' e [[<- <-]|[_ Hid]]%lookup_insert_Some.
    + exists (entry_new id health). by rewrite lookup_insert_eq.
    + destruct (Hs id' e Hid) as (en&He'&?). exists en. rewrite lookup_insert_ne by eauto. done.
  - intros i0 u l e ph H1 H2. destruct (Hback _ _ _ _ _ H1 H2) as (v&H3&H4). destruct (He _ _ _ _ _ H3 H4) as [(en&He'&?) Hnr].
    split; [exists en; by rewrite lookup_insert_ne by eauto|].
    intros id' [[_ <-]|[_ ?]]%lookup_insert_Some; [by apply (Hne _ _ He')|by apply (Hnr id')].
  - intros i0 i1 u v l m e ph ph' H1 H2 H3 H4. destruct (Hback _ _ _ _ _ H1 H3) as (?&?&?). destruct (Hback _ _ _ _ _ H2 H4) as (?&?&?).
    eauto.
  - intros e en [[<- <-]|[? He']]%lookup_insert_Some; [left; exists id; by rewrite lookup_insert_eq|].
    destruct (Ha e en He') as [[id' Hid]|[(i0&v&l&ph&Hv&Hl)|?]]; [|right; left|by auto].
    + left. exists id'. rewrite lookup_insert_ne; [done|congruence].
    + destruct (decide (i0 = i ∧ l = k)) as [[-> ->]|Hne'].
      * simplify_eq. exists i, t', k, ph. split; [by eapply pool_self|congruence].
      * destruct (ends_pool_keep tasks i j t t' s k Hi Hj Ho _ _ _ _ _ Hv Hl) as (u&?&?); [|eauto 10].
        destruct (decide (i0 = i)); [right; naive_solver|by left].
Qed.
End moved.

Lemma life_ok_step sys sys' : reg_ok cfg sys → sys_step cfg sys sys' → life_ok sys → life_ok sys'.
Proof.
  intros Hreg Hstep Hok. destruct Hstep as [d tasks i j inp t d' t' s Hi Hst Hj|d tasks i t Hi Harr|d tasks e h].
  - pose proof (ro_daemon _ _ Hreg) as Hd. simpl in Hd.
    destruct (task_step_change _ _ _ _ _ _ _ _ Hst) as (k&Hch&Ho).
    destruct (change_life _ _ _ _ _ _ _ _ Hch) as [(?&?&?)|[(id&e&?&?&?&?&?)|[(e&ph&st&f&?&?&?&?&?)|(id&h&?&?&?&?)]]].
    + by eapply life_quiet.
    + by eapply life_remove.
    + by eapply life_advance.
    + by eapply life_register.
  - destruct Hok as [Hs He Hu Ha]. simpl in *.
    assert (Hback : ∀ i0 u l e ph, <[i := t]> tasks !! i0 = Some u → ends u l = Some (e, ph) → tasks !! i0 = Some u).
    { intros i0 u l e ph [[<- <-]|[_ ?]]%lookup_insert_Some H2; [by rewrite arrives_ends in H2|done]. }
    split; simpl; [done|eauto|intros; eapply Hu; eauto|].
    intros e en Hen. destruct (Ha e en Hen) as [?|[(i0&v&l&ph&Hv&Hl)|?]]; [by auto| |by auto].
    right. left. exists i0, v, l, ph. split; [|done]. rewrite lookup_insert_ne; [done|congruence].
  - destruct Hok as [Hs He Hu Ha]. simpl in *.
    assert (Hc : calmly d (upd e (set_core_health h) d)) by (apply calmly_upd; intros en _; by split_and!).
    split; simpl; [| |done|].
    + intros id e' (en&?&?)%Hs. by eapply (calmly_entry _ _ _ _ _ Hc).
    + intros i t k e' ph H1 H2. destruct (He _ _ _ _ _ H1 H2) as [(en&?&?) ?]. split; [|done]. by eapply (calmly_entry _ _ _ _ _ Hc).
    + intros e' en' He'. pose proof (Hc e') as Hce. simpl in Hce. rewrite He' in Hce.
      destruct (dm_entries d !! e') as [en|] eqn:Hen; [|done].
      destruct (Ha e' en Hen) as [?|[?|?]]; auto. right. right. by eapply stage_calm.
Qed.

End registry.

Section registry.
Context (cfg : DaemonConfig).
Implicit Types (d : Daemon) (t u : Task) (i j k e : nat) (id : string) (inp : Input).

(** *** The clients of an entry *)

(** The counts last reported to the approval broker. *)
Definition last_eligible (en : SessionEntry) : option (nat * nat) := last (omap eligible_call (en_calls en)).

Definition eligible_ok (en : SessionEntry) : Prop :=
  match last_eligible en with
  | Some counts => counts = (eligible CapApproveOnce (en_clients en), eligible CapApproveAlways (en_clients en))
  | None => en_clients en = ∅
  end.

Definition keeps (en en' : SessionEntry) : Prop :=
  (en_clients en' = en_clients en ∨ en_stopped en = true ∧ en_clients en' = ∅) ∧
  (en_stopped en = true → en_stopped en' = true) ∧
  (en_stopped en' = false → last_eligible en' = last_eligible en).

Definition keeping d d' : Prop :=
  ∀ e, match dm_entries d !! e, dm_entries d' !! e with
       | Some en, Some en' => keeps en en'
       | None, None => True
       | _, _ => False
       end.

Lemma last_eligible_app en en' cs :
  en_calls en' = en_calls en ++ cs → Forall (λ c, eligible_call c = None) cs → last_eligible en' = last_eligible en.
Proof.
  unfold last_eligible. intros -> Hcs. rewrite omap_app. assert (omap eligible_call cs = []) as ->; [|by rewrite app_nil_r].
  induction Hcs as [|c cs Hc _ IH]; simpl; [done|by rewrite Hc].
Qed.

Lemma mild_keeps en en' : mild en en' → keeps en en'.
Proof.
  intros (_&Hc&Hs&_&_&cs&Hcs&Hf). split_and!; [by left|by rewrite Hs|].
  intros _. eapply last_eligible_app; [done|]. eapply Forall_impl; [done|]. by intros c [? ?].
Qed.

Lemma keeps_refl en : keeps en en.
Proof. split_and!; auto. Qed.

Lemma mildly_keeping d d' : mildly d d' → keeping d d'.
Proof.
  intros (_&_&_&_&H) e. specialize (H e). destruct (dm_entries d !! e), (dm_entries d' !! e); try done. by apply mild_keeps.
Qed.

Lemma keeping_upd e f d : (∀ en, dm_entries d !! e = Some en → keeps en (f en)) → keeping d (upd e f d).
Proof.
  intros Hf e'. simpl. destruct (decide (e = e')) as [<-|].
  - rewrite lookup_alter_eq. destruct (dm_entries d !! e); simpl; [by apply Hf|done].
  - rewrite lookup_alter_ne by done. destruct (dm_entries d !! e'); [apply keeps_refl|done].
Qed.

Lemma keeping_entries d d' : dm_entries d' = dm_entries d → keeping d d'.
Proof. intros H e. rewrite H. destruct (dm_entries d !! e); [apply keeps_refl|done]. Qed.

Lemma keeps_mild en1 en2 en3 : en_clients en2 = en_clients en1 → en_stopped en2 = en_stopped en1 →
  en_calls en2 = en_calls en1 → mild en2 en3 → keeps en1 en3.
Proof.
  intros Hc Hs Hcs H%mild_keeps. destruct H as (H1&H2&H3). unfold last_eligible in *.
  rewrite Hc, Hs in *. rewrite Hcs in *. by split_and!.
Qed.

(** What a step does to the clients. *)
Lemma change_clients own o o' l l' ev d d' : change cfg own o o' l l' ev d d' →
  (∀ e en, o = Some (e, PhStopped) → dm_entries d !! e = Some en → en_stopped en = true) →
  (l' = l ∧ dm_next_attachment_id d' = dm_next_attachment_id d ∧ dm_replaced d' = dm_replaced d ∧
     (keeping d d' ∨ ∃ id health, dm_entries d' = <[dm_next_entry d := entry_new id health]> (dm_entries d))) ∨
  (∃ rq id e en aid, own = Some e ∧ dm_entries d !! e = Some en ∧ attach_client cfg rq id e en d = (Ok aid, d') ∧ l = None ∧
     l' = Some (e, client_id (rq_client rq), rq_capabilities rq, aid)) ∨
  (∃ e c caps aid en b, l = Some (e, c, caps, aid) ∧ l' = None ∧ dm_entries d !! e = Some en ∧
     detach_client c aid e en d = (b, d')).
Proof.
  intros [Hm Ho ?|e d1 _ Hst -> Hm Ho ?|rq id e en aid d1 ? He Ha -> ? ? Ho|e c caps aid en b ? ? He Ha Ho
    |id e Hs -> Ho Ho' ?|e -> Ho Ho' ?|e -> Ho Ho' ?|e reason -> Ho Ho' ? _|e -> Ho Ho' ?|id h Hs Hn He ? ? Ho ?] Hstopped.
  - left. pose proof Hm as (_&_&?&?&_). split_and!; try done. left. by apply mildly_keeping.
  - left. destruct Hm as (_&_&?&?&Hm). split_and!; try done. left. intros e'. specialize (Hm e'). simpl in Hm.
    destruct (decide (e = e')) as [<-|]; [rewrite lookup_alter_eq in Hm|rewrite lookup_alter_ne in Hm by done].
    + destruct (dm_entries d !! e), (dm_entries d' !! e); try done. by eapply keeps_mild; [..|exact Hm].
    + destruct (dm_entries d !! e'), (dm_entries d' !! e'); try done. by apply mild_keeps.
  - right. left. eauto 10.
  - right. right. eauto 12.
  - left. split_and!; try done. left. by apply keeping_entries.
  - left. split_and!; try done. left. apply keeping_upd. intros en _. split_and!; auto.
  - left. split_and!; try done. left. apply keeping_upd. intros en He. split_and!; [|done|done]. right. split; [by eapply Hstopped|done].
  - left. split_and!; try done. left. apply keeping_upd. intros en He. split_and!; [by left|done|].
    intros _. by eapply last_eligible_app; [done|repeat constructor].
  - left. split_and!; try done. left. apply keeping_upd. intros en He. by split_and!; auto.
  - left. split_and!; try done. right. eauto.
Qed.

Definition live_entry d (lv : Live) : Prop :=
  let '(e, c, caps, aid) := lv in
  aid < dm_next_attachment_id d ∧
  ∃ en, dm_entries d !! e = Some en ∧
    ((∃ x, en_clients en !! c = Some x ∧ ca_attachment_id x = aid ∧ ca_capabilities x = caps) ∨
     aid ∈ dm_replaced d ∨ en_stopped en = true).

Record clients_ok (sys : System) : Prop := {
  co_live i t lv : sy_tasks sys !! i = Some t → live t = Some lv → live_entry (sy_daemon sys) lv;
  co_unique i j t u e c caps e' c' caps' aid : sy_tasks sys !! i = Some t → sy_tasks sys !! j = Some u →
    live t = Some (e, c, caps, aid) → live u = Some (e', c', caps', aid) → i = j;
  co_clients e en c x : dm_entries (sy_daemon sys) !! e = Some en → en_clients en !! c = Some x →
    ∃ i t, sy_tasks sys !! i = Some t ∧ live t = Some (e, c, ca_capabilities x, ca_attachment_id x);
  co_bound e en : dm_entries (sy_daemon sys) !! e = Some en → size (en_clients en) ≤ dc_max_clients_per_session cfg;
  co_eligible e en : dm_entries (sy_daemon sys) !! e = Some en → en_stopped en = false → eligible_ok en;
}.

Lemma spawned_live s u : spawned s = Some u → live u = None.
Proof. by destruct s; intros; simplify_eq/=. Qed.

Lemma arrives_live t : arrives t = true → live t = None.
Proof. by destruct t as [[rq []| | | | | | | | | | | | | | | | | | | | | | |]| |[]|[]| |]. Qed.

Lemma live_keep d d' lv : dm_next_attachment_id d' = dm_next_attachment_id d → dm_replaced d' = dm_replaced d →
  keeping d d' → live_entry d lv → live_entry d' lv.
Proof.
  destruct lv as [[[e c] caps] aid]. intros Hn Hr Hk (?&en&Hen&H). unfold live_entry. rewrite Hn, Hr. split; [done|].
  specialize (Hk e). rewrite Hen in Hk. destruct (dm_entries d' !! e) as [en'|]; [|done]. exists en'. split; [done|].
  destruct Hk as ([Hc|[Hs Hc]]&Hst&_); [|by auto]. rewrite Hc. naive_solver.
Qed.

Lemma attach_inv rq id e en aid d d' : attach_client cfg rq id e en d = (Ok aid, d') →
  let c := client_id (rq_client rq) in
  let clients := <[c := mkAttachment (rq_client rq) (rq_capabilities rq) aid]> (en_clients en) in
  en_stopped en = false ∧ aid = dm_next_attachment_id d ∧ dm_next_attachment_id d' = S aid ∧
  size clients ≤ dc_max_clients_per_session cfg `max` size (en_clients en) ∧
  (∀ x, en_clients en !! c = Some x → ca_attachment_id x ∈ dm_replaced d') ∧ dm_replaced d ⊆ dm_replaced d' ∧
  ∃ en', dm_entries d' = <[e := en']> (dm_entries d) ∧ en_clients en' = clients ∧ en_stopped en' = false ∧
    last_eligible en' = Some (eligible CapApproveOnce clients, eligible CapApproveAlways clients) ∧
    ∃ n m, en_calls en' = en_calls en ++ [CallEligible n m].
Proof.
  intros H c clients. unfold attach_client in H. destruct (en_stopped en) eqn:Es; [done|].
  destruct (en_clients en !! client_id (rq_client rq)) as [y|] eqn:Ey; simpl in H.
  - destruct (rq_replace rq); [|done]. simplify_eq/=. split_and!; try done.
    + unfold clients. rewrite map_size_insert_Some by eauto. lia.
    + unfold c. intros x Hx. rewrite Ey in Hx. simplify_eq. set_solver.
    + set_solver.
    + eexists. split_and!; [done..| |by eauto]. unfold last_eligible. simpl. rewrite omap_app. simpl. by rewrite last_snoc.
  - destruct (Nat.leb_spec (dc_max_clients_per_session cfg) (size (en_clients en))); [done|]. simplify_eq/=. split_and!; try done.
    + unfold clients. rewrite map_size_insert_None by done. lia.
    + unfold c. intros x Hx. congruence.
    + set_solver.
    + eexists. split_and!; [done..| |by eauto]. unfold last_eligible. simpl. rewrite omap_app. simpl. by rewrite last_snoc.
Qed.

Lemma detach_inv c aid e en b d d' : detach_client c aid e en d = (b, d') →
  dm_next_attachment_id d' = dm_next_attachment_id d ∧ dm_replaced d' = dm_replaced d ∧
  ((∃ x en', en_clients en !! c = Some x ∧ ca_attachment_id x = aid ∧ dm_entries d' = <[e := en']> (dm_entries d) ∧
      en_clients en' = delete c (en_clients en) ∧ en_stopped en' = en_stopped en ∧
      last_eligible en' = Some (eligible CapApproveOnce (en_clients en'), eligible CapApproveAlways (en_clients en')) ∧
      en_turn_active en' = en_turn_active en ∧ ∃ n m, en_calls en' = en_calls en ++ [CallEligible n m]) ∨
   (d' = d ∧ ∀ x, en_clients en !! c = Some x → ca_attachment_id x ≠ aid)).
Proof.
  unfold detach_client. intros H. destruct (en_clients en !! c) as [x|] eqn:Ex; [|by simplify_eq; auto].
  destruct (decide (ca_attachment_id x = aid)) as [Hx|Hx]; [rewrite bool_decide_true in H by done|rewrite bool_decide_false in H by done].
  - simplify_eq/=. split_and!; [done..|]. left. eexists _, _. split_and!; [done|done|done|done|done| | |].
    + unfold last_eligible. simpl. rewrite omap_app. simpl. by rewrite last_snoc.
    + done.
    + simpl. eauto.
  - simplify_eq. split_and!; [done..|]. right. split; [done|]. by intros ? [= <-].
Qed.

Lemma clients_daemon d d' tasks :
  dm_next_attachment_id d' = dm_next_attachment_id d → dm_replaced d' = dm_replaced d → keeping d d' →
  clients_ok (mkSystem d tasks) → clients_ok (mkSystem d' tasks).
Proof.
  intros Hn Hr Hk [Hlive Huniq Hcl Hb Hel]. simpl in *.
  assert (Hentry : ∀ e en', dm_entries d' !! e = Some en' → ∃ en, dm_entries d !! e = Some en ∧ keeps en en').
  { intros e en' He. specialize (Hk e). rewrite He in Hk. destruct (dm_entries d !! e) as [en|]; [eauto|done]. }
  split; simpl.
  - intros i u lv H1 H2. eapply live_keep; eauto.
  - done.
  - intros e en' c x He Hx. destruct (Hentry e en' He) as (en&Hen&[Hc|[_ Hc]]&_); rewrite Hc in Hx; [eauto|done].
  - intros e en' He. destruct (Hentry e en' He) as (en&Hen&[->|[_ ->]]&_); [eauto|]. rewrite map_size_empty. lia.
  - intros e en' He Hst. destruct (Hentry e en' He) as (en&Hen&Hc&Hs&Hle). specialize (Hle Hst).
    destruct (en_stopped en) eqn:Es; [by rewrite Hs in Hst|]. specialize (Hel e en Hen Es). unfold eligible_ok in *. rewrite Hle.
    destruct Hc as [->|[? _]]; [done|congruence].
Qed.

Section clients_moved.
Context (d d' : Daemon) (tasks : gmap nat Task) (i j : nat) (t t' : Task) (s : Spawn).
Context (Hi : tasks !! i = Some t) (Hj : tasks !! j = None).
Context (Hd : reg_daemon cfg d) (Hok : clients_ok (mkSystem d tasks)).
Let after : System := mkSystem d' (spawn_at j s (<[i := t']> tasks)).

Lemma live_pool i0 u lv : spawn_at j s (<[i := t']> tasks) !! i0 = Some u → live u = Some lv →
  (i0 = i ∧ live t' = Some lv) ∨ (i0 ≠ i ∧ tasks !! i0 = Some u).
Proof.
  intros Hu Hl. destruct (pool_lookup _ _ _ _ _ _ _ _ Hi Hj Hu) as [[-> ->]|[(?&_&?)|(->&_&Hsp)]]; [by left|by right|].
  by rewrite (spawned_live _ _ Hsp) in Hl.
Qed.

Lemma live_pool_keep i0 u lv : tasks !! i0 = Some u → live u = Some lv → (i0 = i → live t' = Some lv) →
  ∃ v, spawn_at j s (<[i := t']> tasks) !! i0 = Some v ∧ live v = Some lv.
Proof.
  intros Hu Hl Hsame. destruct (decide (i0 = i)) as [->|]; [exists t'|exists u]; (split; [|by auto]); [by eapply pool_self|by eapply pool_other].
Qed.

(** A connection keeps its attachment. *)
Lemma live_same i0 u lv : live t' = live t → spawn_at j s (<[i := t']> tasks) !! i0 = Some u → live u = Some lv →
  ∃ v, tasks !! i0 = Some v ∧ live v = Some lv.
Proof. intros Hl H1 H2. destruct (live_pool _ _ _ H1 H2) as [[-> ?]|[_ ?]]; [exists t; split; [done|congruence]|eauto]. Qed.

Lemma clients_keep : live t' = live t → dm_next_attachment_id d' = dm_next_attachment_id d → dm_replaced d' = dm_replaced d →
  keeping d d' → clients_ok after.
Proof.
  intros Hl Hn Hr Hk. destruct (clients_daemon d d' tasks Hn Hr Hk Hok) as [Hlive Huniq Hcl Hb Hel]. simpl in *.
  split; simpl; try done.
  - intros i0 u lv H1 H2. destruct (live_same _ _ _ Hl H1 H2) as (v&?&?). eauto.
  - intros i0 i1 u v e c caps e' c' caps' aid H1 H2 H3 H4.
    destruct (live_same _ _ _ Hl H1 H3) as (?&?&?). destruct (live_same _ _ _ Hl H2 H4) as (?&?&?). eauto.
  - intros e en c x He Hx. destruct (Hcl _ _ _ _ He Hx) as (i0&u&Hu&Hu'). exists i0.
    eapply live_pool_keep; [exact Hu|exact Hu'|]. intros ->. rewrite Hl. rewrite Hi in Hu. by simplify_eq.
Qed.

Lemma clients_new id health : live t' = live t → dm_next_attachment_id d' = dm_next_attachment_id d → dm_replaced d' = dm_replaced d →
  dm_entries d' = <[dm_next_entry d := entry_new id health]> (dm_entries d) → clients_ok after.
Proof.
  intros Hl Hn Hr Hen. destruct Hok as [Hlive Huniq Hcl Hb Hel]. simpl in *. pose proof (heap_fresh _ _ Hd) as Hfresh.
  split; simpl.
  - intros i0 u [[[e c] caps] aid] H1 H2. destruct (live_same _ _ _ Hl H1 H2) as (v&H3&H4).
    destruct (Hlive _ _ _ H3 H4) as (?&en&He&?). split; [by rewrite Hn|]. exists en. rewrite Hen, Hr. split; [|done].
    rewrite lookup_insert_ne; [done|congruence].
  - intros i0 i1 u v e c caps e' c' caps' aid H1 H2 H3 H4.
    destruct (live_same _ _ _ Hl H1 H3) as (?&?&?). destruct (live_same _ _ _ Hl H2 H4) as (?&?&?). eauto.
  - rewrite Hen. intros e en c x [[<- <-]|[_ He]]%lookup_insert_Some Hx; [done|].
    destruct (Hcl _ _ _ _ He Hx) as (i0&u&Hu&Hu'). exists i0. eapply live_pool_keep; [exact Hu|exact Hu'|]. intros ->. rewrite Hl. rewrite Hi in Hu. by simplify_eq.
  - rewrite Hen. intros e en [[<- <-]|[_ He]]%lookup_insert_Some; [simpl; rewrite map_size_empty; lia|eauto].
  - rewrite Hen. intros e en [[<- <-]|[_ He]]%lookup_insert_Some; [done|eauto].
Qed.

Lemma clients_attach rq id e en aid : dm_entries d !! e = Some en → attach_client cfg rq id e en d = (Ok aid, d') →
  live t = None → live t' = Some (e, client_id (rq_client rq), rq_capabilities rq, aid) → clients_ok after.
Proof.
  intros He Ha Hl Hl'. destruct Hok as [Hlive Huniq Hcl Hb Hel]. simpl in *.
  destruct (attach_inv _ _ _ _ _ _ _ Ha) as (Hst&->&Hn&Hsz&Hrep&Hsub&en'&Hen&Hc&Hst'&Hle&_).
  set (c := client_id (rq_client rq)) in *.
  split; simpl.
  - intros i0 u lv H1 H2. destruct (live_pool _ _ _ H1 H2) as [[-> Hx]|[_ Hu]].
    + rewrite Hl' in Hx. simplify_eq. split; [lia|]. exists en'. rewrite Hen, lookup_insert_eq. split; [done|]. left.
      rewrite Hc. eexists. rewrite lookup_insert_eq. done.
    + pose proof (Hlive _ _ _ Hu H2) as Hlv. destruct lv as [[[e0 c0] caps0] aid0]. destruct Hlv as (?&en0&He0&Hx).
      split; [lia|]. rewrite Hen. destruct (decide (e = e0)) as [<-|]; [|exists en0; rewrite lookup_insert_ne by done; naive_solver].
      exists en'. rewrite lookup_insert_eq. split; [done|]. simplify_eq. rewrite Hc.
      destruct Hx as [(x&Hx&Hx')|[?|?]]; [|by auto|congruence].
      destruct (decide (c = c0)) as [<-|]; [right; left; destruct Hx' as [<- _]; by apply Hrep|].
      left. exists x. by rewrite lookup_insert_ne.
  - assert (Hfresh : ∀ i0 u lv, tasks !! i0 = Some u → live u = Some lv → lv.2 ≠ dm_next_attachment_id d).
    { intros i0 u [[[e0 c0] caps0] aid0] Hu Hlu. destruct (Hlive _ _ _ Hu Hlu) as [? _]. simpl. lia. }
    intros i0 i1 u v e0 c0 caps0 e1 c1 caps1 aid H1 H2 H3 H4.
    destruct (live_pool _ _ _ H1 H3) as [[-> Hx]|[_ Hu]], (live_pool _ _ _ H2 H4) as [[-> Hy]|[_ Hv]]; [done| | |by eauto].
    + rewrite Hl' in Hx. simplify_eq. by destruct (Hfresh _ _ _ Hv H4).
    + rewrite Hl' in Hy. simplify_eq. by destruct (Hfresh _ _ _ Hu H3).
  - assert (Hkeep : ∀ e0 en0 c0 x, dm_entries d !! e0 = Some en0 → en_clients en0 !! c0 = Some x →
      ∃ i0 v, spawn_at j s (<[i := t']> tasks) !! i0 = Some v ∧ live v = Some (e0, c0, ca_capabilities x, ca_attachment_id x)).
    { intros e0 en0 c0 x H1 H2. destruct (Hcl _ _ _ _ H1 H2) as (i0&u&Hu&Hu'). exists i0.
      eapply live_pool_keep; [exact Hu|exact Hu'|]. intros ->. rewrite Hi in Hu. by simplify_eq. }
    rewrite Hen. intros e0 en0 c0 x [[<- <-]|[_ H1]]%lookup_insert_Some Hx; [|eauto].
    rewrite Hc in Hx. apply lookup_insert_Some in Hx as [[<- <-]|[_ Hx]]; [|eauto].
    exists i, t'. split; [by eapply pool_self|done].
  - rewrite Hen. intros e0 en0 [[<- <-]|[_ H1]]%lookup_insert_Some; [|eauto]. rewrite Hc. specialize (Hb _ _ He). lia.
  - rewrite Hen. intros e0 en0 [[<- <-]|[_ H1]]%lookup_insert_Some; [|eauto]. intros _. unfold eligible_ok. by rewrite Hle, Hc.
Qed.

Lemma clients_detach e c caps aid en b : live t = Some (e, c, caps, aid) → live t' = None → dm_entries d !! e = Some en →
  detach_client c aid e en d = (b, d') → clients_ok after.
Proof.
  intros Hl Hl' He Hdet. destruct Hok as [Hlive Huniq Hcl Hb Hel]. simpl in *.
  assert (Hmine : ∀ i0 u lv, spawn_at j s (<[i := t']> tasks) !! i0 = Some u → live u = Some lv →
    i0 ≠ i ∧ tasks !! i0 = Some u ∧ lv.2 ≠ aid).
  { intros i0 u lv H1 H2. destruct (live_pool _ _ _ H1 H2) as [[-> ?]|[Hne Hu]]; [congruence|]. split_and!; [done|done|].
    destruct lv as [[[e0 c0] caps0] aid0]. simpl. intros ->. by apply Hne, (Huniq i0 i u t e0 c0 caps0 e c caps aid). }
  destruct (detach_inv _ _ _ _ _ _ _ Hdet) as (Hn&Hr&[(x&en'&Hx&Hxa&Hen&Hc&Hst&Hle&_)|[-> Hno]]).
  - split; simpl.
    + intros i0 u lv H1 H2. destruct (Hmine _ _ _ H1 H2) as (_&Hu&Ha). pose proof (Hlive _ _ _ Hu H2) as Hlv.
      destruct lv as [[[e0 c0] caps0] aid0]. destruct Hlv as (?&en0&He0&Hy). unfold live_entry. rewrite Hn, Hr, Hen. split; [done|].
      destruct (decide (e = e0)) as [<-|]; [|exists en0; by rewrite lookup_insert_ne].
      exists en'. rewrite lookup_insert_eq. split; [done|]. simplify_eq. rewrite Hc, Hst.
      destruct Hy as [(y&Hy&Hy'&Hy'')|?]; [|by auto]. left. exists y. split; [|done]. rewrite lookup_delete_ne; [done|].
      intros <-. by simplify_eq.
    + intros i0 i1 u v e0 c0 caps0 e1 c1 caps1 aid0 H1 H2 H3 H4.
      destruct (Hmine _ _ _ H1 H3) as (_&?&_), (Hmine _ _ _ H2 H4) as (_&?&_). eauto.
    + assert (Hkeep : ∀ e0 en0 c0 y, dm_entries d !! e0 = Some en0 → en_clients en0 !! c0 = Some y → (e0 ≠ e ∨ c0 ≠ c) →
        ∃ i0 v, spawn_at j s (<[i := t']> tasks) !! i0 = Some v ∧ live v = Some (e0, c0, ca_capabilities y, ca_attachment_id y)).
      { intros e0 en0 c0 y H1 H2 Hne. destruct (Hcl _ _ _ _ H1 H2) as (i0&u&Hu&Hu'). exists i0.
        eapply live_pool_keep; [exact Hu|exact Hu'|]. intros ->. rewrite Hi in Hu. simplify_eq. naive_solver. }
      rewrite Hen. intros e0 en0 c0 y [[<- <-]|[? H1]]%lookup_insert_Some Hy; [|eauto].
      rewrite Hc in Hy. apply lookup_delete_Some in Hy as [? Hy]. eauto.
    + rewrite Hen. intros e0 en0 [[<- <-]|[_ H1]]%lookup_insert_Some; [|eauto]. rewrite Hc. etrans; [|by eapply (Hb e en)].
      apply map_subseteq_size, delete_subseteq.
    + rewrite Hen. intros e0 en0 [[<- <-]|[_ H1]]%lookup_insert_Some; [|eauto]. intros _. unfold eligible_ok. by rewrite Hle.
  - split; simpl; [| |  |done|done].
    + intros i0 u lv H1 H2. destruct (Hmine _ _ _ H1 H2) as (_&?&_). eauto.
    + intros i0 i1 u v e0 c0 caps0 e1 c1 caps1 aid0 H1 H2 H3 H4.
      destruct (Hmine _ _ _ H1 H3) as (_&?&_), (Hmine _ _ _ H2 H4) as (_&?&_). eauto.
    + intros e0 en0 c0 y H1 H2. destruct (Hcl _ _ _ _ H1 H2) as (i0&u&Hu&Hu'). exists i0.
      eapply live_pool_keep; [exact Hu|exact Hu'|]. intros ->. rewrite Hi in Hu. simplify_eq. by destruct (Hno y).
Qed.
End clients_moved.

Lemma clients_ok_step sys sys' : reg_ok cfg sys → life_ok sys → sys_step cfg sys sys' → clients_ok sys → clients_ok sys'.
Proof.
  intros Hreg Hlife Hstep Hok. destruct Hstep as [d tasks i j inp t d' t' s Hi Hst Hj|d tasks i t Hi Harr|d tasks e h].
  - pose proof (ro_daemon _ _ Hreg) as Hd. simpl in Hd.
    destruct (task_step_change _ _ _ _ _ _ _ _ Hst) as (k&Hch&_).
    apply change_clients in Hch as [(?&?&?&[?|(?&?&?)])|[(rq&id&e&en&aid&_&?&?&?&?)|(e&c&caps&aid&en&b&?&?&?&?)]].
    + by eapply clients_keep.
    + by eapply clients_new.
    + by eapply clients_attach.
    + by eapply clients_detach.
    + intros e en Hk He. destruct (lo_ends _ Hlife i t k e _ Hi Hk) as [(en'&He'&Hs) _]. simpl in He'. simplify_eq. by destruct Hs.
  - destruct Hok as [Hlive Huniq Hcl Hb Hel]. simpl in *. split; simpl; try done.
    + intros i0 u lv [[<- <-]|[_ ?]]%lookup_insert_Some H2; [by rewrite arrives_live in H2|eauto].
    + intros i0 i1 u v e c caps e' c' caps' aid H1 H2 H3 H4. pose proof (arrives_live _ Harr).
      apply lookup_insert_Some in H1 as [[<- <-]|[_ H1]], H2 as [[<- <-]|[_ H2]]; [done|congruence|congruence|eauto].
    + intros e en c x He Hx. destruct (Hcl _ _ _ _ He Hx) as (i0&u&Hu&Hu'). exists i0, u. split; [|done].
      rewrite lookup_insert_ne; [done|congruence].
  - eapply clients_daemon; [..|exact Hok]; [done|done|]. apply keeping_upd. intros en _. split_and!; auto.
Qed.

End registry.

Section registry.
Context (cfg : DaemonConfig).
Implicit Types (d : Daemon) (t u : Task) (i j k e : nat) (id : string) (inp : Input).

(** *** Idle sessions *)

Definition idle_end : CoreCall := CallEnding "idle_retention".

(** Nothing runs in an entry. *)
Definition deserted (en : SessionEntry) : Prop := en_clients en = ∅ ∧ en_turn_active en = false.

(** What an eviction has established about its entry under the admission. *)
Definition evict_idle d (p : EvictPc) : Prop :=
  match p with
  | EvCheck _ _ e true CkDetached | EvCheck _ _ e true CkPrompts | EvCheck _ _ e true CkTurn =>
      ∀ en, dm_entries d !! e = Some en → en_clients en = ∅
  | EvRemove _ _ e | EvStop _ _ e | EvRelease _ _ e
  | EvFinish _ _ e (FiClear | FiCleanup | FiDelete | FiEmit | FiNotify) =>
      ∀ en, dm_entries d !! e = Some en → deserted en
  | _ => True
  end.

(** Without the admission, or once it is stopped, nobody enters a deserted entry. *)
Definition stays_empty (own : option nat) e (en en' : SessionEntry) : Prop :=
  own ≠ Some e ∨ en_stopped en = true →
  (en_clients en = ∅ → en_clients en' = ∅) ∧ (en_turn_active en = false → en_turn_active en' = false).

Lemma alter_lookup {A} (f : A → A) (e e' : nat) (m : gmap nat A) x : alter f e m !! e' = Some x →
  (e = e' ∧ ∃ y, m !! e' = Some y ∧ x = f y) ∨ (e ≠ e' ∧ m !! e' = Some x).
Proof.
  destruct (decide (e = e')) as [<-|]; [rewrite lookup_alter_eq|rewrite lookup_alter_ne by done; auto].
  destruct (m !! e); simpl; intros; simplify_eq; eauto.
Qed.

Lemma mild_idle own e en en' : mild en en' →
  stays_empty own e en en' ∧ (en_stopped en = true → en_stopped en' = true) ∧
  (idle_end ∈ en_calls en' → idle_end ∈ en_calls en).
Proof.
  intros (_&Hc&Hs&_&Ht&cs&Hcs&Hf). split_and!.
  - intros _. rewrite Hc. split; [done|]. destruct (en_turn_active en'), (en_turn_active en); naive_solver.
  - by rewrite Hs.
  - rewrite Hcs. intros [?|Hin]%elem_of_app; [done|]. rewrite Forall_forall in Hf. by apply Hf in Hin as [? _].
Qed.

Lemma change_idle own o o' l l' ev d d' : change cfg own o o' l l' ev d d' →
  ∀ e en', dm_entries d' !! e = Some en' →
  (∃ id health, en' = entry_new id health) ∨
  ∃ en, dm_entries d !! e = Some en ∧ stays_empty own e en en' ∧ (en_stopped en = true → en_stopped en' = true) ∧
    (idle_end ∈ en_calls en' → idle_end ∈ en_calls en ∨ (o = Some (e, PhCleared) ∧ ev = true)).
Proof.
  assert (Hmild : ∀ d1 d2 e en', mildly d1 d2 → dm_entries d2 !! e = Some en' → ∃ en, dm_entries d1 !! e = Some en ∧ mild en en').
  { intros d1 d2 e en' (_&_&_&_&H) He. specialize (H e). rewrite He in H. destruct (dm_entries d1 !! e); [eauto|done]. }
  intros [Hm Ho _|e d1 Hown Hst -> Hm Ho _|rq id e en aid d1 Hown He Ha -> _ _ Ho|e c caps aid en b _ _ He Ha Ho
    |id e Hs -> Ho Ho' _|e -> Ho Ho' _|e -> Ho Ho' _|e reason -> Ho Ho' _ Hr|e -> Ho Ho' _|id h Hs Hn He _ _ Ho _] e0 en' He'.
  - right. destruct (Hmild _ _ _ _ Hm He') as (en&?&H). destruct (mild_idle own e0 _ _ H) as (?&?&?). eauto 10.
  - right. destruct (Hmild _ _ _ _ Hm He') as (en1&He1&H). destruct (mild_idle own e0 _ _ H) as (Hem&Hs&Hi).
    apply alter_lookup in He1 as [(<-&en&Hen&->)|[? Hen]]; [exists en|exists en1]; (split; [done|]); split_and!; auto.
    intros [?|?]; [done|]. specialize (Hst en Hen). congruence.
  - right. destruct (attach_inv _ _ _ _ _ _ _ _ Ha) as (Hs&_&_&_&_&_&en1&Hd&_&_&_&n&m&Hcalls). rewrite Hd in He'.
    apply lookup_insert_Some in He' as [[<- <-]|[? He']]; [|exists en'; split_and!; auto; by intros _].
    exists en. split; [done|]. split_and!; [intros [?|?]; congruence|congruence|]. intros Hin. left.
    rewrite Hcalls in Hin. apply elem_of_app in Hin as [?|?%list_elem_of_singleton]; done.
  - right. destruct (detach_inv _ _ _ _ _ _ _ Ha) as (_&_&[(x&en1&_&_&Hd&Hc&Hs&_&Ht&n&m&Hcalls)|[-> _]]).
    + rewrite Hd in He'. apply lookup_insert_Some in He' as [[<- <-]|[? He']]; [|exists en'; split_and!; auto; by intros _].
      exists en. split; [done|]. split_and!; [|by rewrite Hs|].
      * intros _. rewrite Hc, Ht. split; [|done]. intros ->. apply delete_empty.
      * intros Hin. left. rewrite Hcalls in Hin. by apply elem_of_app in Hin as [?|?%list_elem_of_singleton].
    + exists en'. split_and!; auto. by intros _.
  - right. exists en'. split_and!; auto. by intros _.
  - right. apply alter_lookup in He' as [(<-&en&Hen&->)|[? He']]; [exists en|exists en']; split_and!; auto; by intros _.
  - right. apply alter_lookup in He' as [(<-&en&Hen&->)|[? He']]; [exists en|exists en']; split_and!; auto; by intros _.
  - right. apply alter_lookup in He' as [(<-&en&Hen&->)|[? He']]; [exists en|exists en']; split_and!; auto; try by intros _.
    simpl. intros [?|Hr'%list_elem_of_singleton]%elem_of_app; [by left|]. right. split; [done|]. apply Hr. by injection Hr'.
  - right. apply alter_lookup in He' as [(<-&en&Hen&->)|[? He']]; [exists en|exists en']; split_and!; auto; by intros _.
  - rewrite He in He'. apply lookup_insert_Some in He' as [[<- <-]|[? He']]; [left; eauto|]. right. exists en'. split_and!; auto. by intros _.
Qed.

(** An eviction does not bring anyone into an entry. *)
Lemma evict_step_entries i inp d p d' p' late e en' :
  evict_step cfg i inp d p = Some (d', p', late) → dm_entries d' !! e = Some en' →
  ∃ en, dm_entries d !! e = Some en ∧ (en_clients en = ∅ → en_clients en' = ∅) ∧ en_turn_active en' = en_turn_active en.
Proof.
  intros H He.
  assert (∀ e' f, dm_entries d' = alter f e' (dm_entries d) → (∀ en, en_clients en = ∅ → en_clients (f en) = ∅) →
    (∀ en, en_turn_active (f en) = en_turn_active en) →
    ∃ en, dm_entries d !! e = Some en ∧ (en_clients en = ∅ → en_clients en' = ∅) ∧ en_turn_active en' = en_turn_active en) as Hupd.
  { intros e' f Hd Hc Ht. rewrite Hd in He. apply alter_lookup in He as [(<-&en&?&->)|[? ?]]; eauto. }
  assert (dm_entries d' = dm_entries d → 
    ∃ en, dm_entries d !! e = Some en ∧ (en_clients en = ∅ → en_clients en' = ∅) ∧ en_turn_active en' = en_turn_active en) as Hsame.
  { intros Hd. rewrite Hd in He. eauto. }
  destruct p as [| | | | | | | |now ids e' x p| | | |now ids e' p| |].
  9: { apply evict_save_inv in H as [(?&?&?)|(?&?&?&H&?)]; simplify_eq; [auto|]. unfold save_step in H. step_cases; auto. by eapply Hupd. }
  12: { apply evict_finish_inv in H as [(?&?)|(?&?&H&?)]; simplify_eq; [auto|]. unfold finish_step in H. step_cases; by eapply Hupd. }
  all: unfold evict_step in H; destruct (dc_idle_retention cfg), inp; try discriminate H;
    unfold lock_gate, lock_admission, remove_entry in H; step_cases; auto; by eapply Hupd.
Qed.

Lemma evict_step_idle i inp d p d' p' late :
  evict_step cfg i inp d p = Some (d', p', late) → evict_idle d p → evict_idle d' p'.
Proof.
  intros H Hp. pose proof (λ e en', evict_step_entries _ _ _ _ _ _ _ e en' H) as Hent.
  destruct p as [| | | | | | | |now ids e' x p| | | |now ids e' p| |].
  9: { apply evict_save_inv in H as [(?&?&?)|(?&?&?&H&?)]; simplify_eq; [|done]. by destruct (negb _ && _). }
  12: { apply evict_finish_inv in H as [(?&?)|(?&?&H&?)]; simplify_eq; [done|]. unfold finish_step in H. step_cases.
        all: intros en' He; destruct (Hent _ _ He) as (en&Hen&Hc&Ht); destruct (Hp _ Hen); split; [auto|congruence]. }
  all: unfold evict_step in H; destruct (dc_idle_retention cfg), inp; try discriminate H;
    unfold lock_gate, lock_admission, remove_entry in H; step_cases.
  all: goal_cases; simpl; try done.
  - destruct c, after_save; simpl in *; try done; intros en Hen; simplify_eq; auto.
    + by apply bool_decide_eq_true in Heqb.
    + split; [by auto|by apply negb_true_iff in Heqb].
  - intros en' He. destruct (Hent _ _ He) as (en&Hen&Hc&Ht). destruct (Hp _ Hen). split; [auto|congruence].
  - intros en' He. destruct (Hent _ _ He) as (en&Hen&Hc&Ht). destruct (Hp _ Hen). split; [auto|congruence].
Qed.

Record idle_ok (sys : System) : Prop := {
  io_tasks i p : sy_tasks sys !! i = Some (TEvict p) → evict_idle (sy_daemon sys) p;
  io_entries e en : dm_entries (sy_daemon sys) !! e = Some en → idle_end ∈ en_calls en → en_stopped en = true ∧ deserted en;
}.

(** The entry an eviction has found deserted, and how it keeps others out. *)
Definition same_or_emptier d d' e : Prop :=
  ∀ en', dm_entries d' !! e = Some en' → deserted en' ∨
    ∃ en, dm_entries d !! e = Some en ∧
      (en_clients en = ∅ → en_clients en' = ∅) ∧ (en_turn_active en = false → en_turn_active en' = false).

Lemma evict_idle_guard d p : evict_idle d p →
  (∀ d', evict_idle d' p) ∨
  ∃ e, (evict_own p = Some e ∨ ∃ ph, ph ≠ PhRemoved ∧ evict_ends p = Some (e, ph)) ∧
    ∀ d', same_or_emptier d d' e → evict_idle d' p.
Proof.
  intros Hp.
  assert (∀ d' e, (∀ en, dm_entries d !! e = Some en → deserted en) → same_or_emptier d d' e →
    ∀ en', dm_entries d' !! e = Some en' → deserted en') as Hdes.
  { intros d' e H1 H2 en' He. destruct (H2 en' He) as [?|(en&Hen&?&?)]; [done|]. destruct (H1 en Hen). by split; auto. }
  destruct p as [| | | |now ids e [] []| | | | |now ids e|now ids e|now ids e|now ids e []| |]; simpl in *; auto.
  all: right; exists e; split; [solve [by left|right; eexists; split; [|reflexivity]; discriminate]|].
  all: intros d' H; try by eapply Hdes.
  all: intros en' He; destruct (H en' He) as [[? ?]|(en&Hen&?&?)]; auto.
Qed.

Lemma change_same_or_emptier own o o' l l' ev d d' e en : change cfg own o o' l l' ev d d' →
  dm_entries d !! e = Some en → own ≠ Some e ∨ en_stopped en = true → same_or_emptier d d' e.
Proof.
  intros Hch He Hkeep en' He'. destruct (change_idle _ _ _ _ _ _ _ _ Hch e en' He') as [(?&?&->)|(en0&He0&Hs&_)]; [by left|].
  simplify_eq. right. exists en. split; [done|]. by apply Hs.
Qed.

Lemma idle_ok_step sys sys' : adm_ok sys → life_ok sys → sys_step cfg sys sys' → idle_ok sys → idle_ok sys'.
Proof.
  intros Hadm Hlife Hstep [Ht He]. destruct Hstep as [d tasks i j inp t d' t' s Hi Hst Hj|d tasks i t Hi Harr|d tasks e h]; simpl in *.
  - destruct (task_step_change _ _ _ _ _ _ _ _ Hst) as (k&Hch&_). pose proof (change_idle _ _ _ _ _ _ _ _ Hch) as Hent.
    split; simpl.
    + intros i0 p Hp. destruct (pool_lookup _ _ _ _ _ _ _ _ Hi Hj Hp) as [[-> <-]|[(Hne&_&Hu)|(->&_&Hsp)]].
      * destruct t as [q|e aid q|q|q|id e|]; simpl in Hst; step_cases. destruct x as [[d1 p1] late].
        eapply evict_step_idle; [done|]. by eapply Ht.
      * destruct (evict_idle_guard _ _ (Ht _ _ Hu)) as [?|(e&Hg&Hp')]; [done|]. apply Hp'.
        destruct Hg as [Ho|(ph&Hph&Hends)].
        { assert (Ha : adm d e = Some (i0, 0)) by (apply Hadm; eauto).
          unfold adm in Ha. destruct (dm_entries d !! e) as [en|] eqn:Hen; [|done].
          eapply change_same_or_emptier; [done|done|]. left. intros Ho'.
          assert (Ha' : adm d e = Some (i, k)) by (apply Hadm; eauto). unfold adm in Ha'. rewrite Hen in Ha'. simpl in *. congruence. }
        destruct (lo_ends _ Hlife i0 (TEvict p) 0 e ph Hu Hends) as [(en&Hen&Hs) _].
        eapply change_same_or_emptier; [done|done|]. right. destruct ph; [done|by destruct Hs..].
      * by destruct s; simplify_eq/=.
    + intros e en' He' Hin. destruct (Hent e en' He') as [(?&?&->)|(en&Hen&Hs&Hst'&Hcalls)]; [by apply elem_of_nil in Hin|].
      destruct (Hcalls Hin) as [Hin'|[Ho Hev]].
      * destruct (He e en Hen Hin') as [Hs' [Hd1 Hd2]]. split; [auto|]. destruct Hs; auto. by split; auto.
      * destruct t as [| |p| | |]; try done. destruct (lo_ends _ Hlife i _ k e _ Hi Ho) as [(en0&Hen0&Hs0) _]. simpl in Hen0. simplify_eq.
        destruct Hs0 as (Hs0&_). split; [auto|].
        assert (deserted en) as [? ?]; [|by destruct Hs; auto; split; auto].
        simpl in Ho. destruct k; simpl in Ho; [|done]. specialize (Ht i p Hi).
        destruct p as [| | | | | | | | | | | |now ids e' f| |]; simpl in Ho; simplify_eq. destruct f; simplify_eq/=; auto.
  - split; simpl; [|done]. intros k p [[<- ->]|[_ ?]]%lookup_insert_Some; [by destruct p|eauto].
  - assert (Hem : ∀ e', same_or_emptier d (upd e (set_core_health h) d) e').
    { intros e' en' [(<-&en&?&->)|[? ?]]%alter_lookup; right; eauto. }
    split; simpl.
    + intros i p Hp. destruct (evict_idle_guard _ _ (Ht _ _ Hp)) as [?|(e'&_&Hp')]; [done|]. by apply Hp'.
    + intros e' en' [(<-&en&Hen&->)|[? Hen]]%alter_lookup Hin; [|eauto]. by destruct (He _ _ Hen Hin) as [? [? ?]].
Qed.

End registry.

Section registry.
Context (cfg : DaemonConfig).
Implicit Types (d : Daemon) (t u : Task) (i j k e : nat) (id : string) (inp : Input).

(** *** The invariant of the daemon *)

Definition gate_live (sys : System) : Prop :=
  ∀ i, dm_creation_gate (sy_daemon sys) = Some i → ∃ t, sy_tasks sys !! i = Some t ∧ holds_gate t = true.

Lemma gate_live_step sys sys' : sys_step cfg sys sys' → gate_live sys → gate_live sys'.
Proof.
  intros Hstep Hok. destruct Hstep as [d tasks i j inp t d' t' s Hi Hs Hj|d tasks i t Hi Ht|d tasks e h]; simpl; [| |exact Hok].
  - intros k Hk. simpl in *. apply task_step_gate in Hs.
    destruct Hs as [[Hg He]|[(_&Hg&_&He)|(_&Hg&_)]]; rewrite Hg in Hk; [| |done].
    + destruct (Hok k Hk) as (u&Hu&Hgu). simpl in Hu. destruct (decide (k = i)) as [->|].
      * simplify_eq. exists t'. split; [by eapply pool_self|congruence].
      * exists u. split; [by eapply pool_other|done].
    + simplify_eq. exists t'. split; [by eapply pool_self|done].
  - intros k Hk. destruct (Hok k Hk) as (u&Hu&Hgu). exists u. simpl in *. split; [|done]. rewrite lookup_insert_ne; [done|congruence].
Qed.

Record daemon_ok (sys : System) : Prop := {
  ok_gate : gate_ok sys;
  ok_gate_live : gate_live sys;
  ok_reg : reg_ok cfg sys;
  ok_adm : adm_ok sys;
  ok_life : life_ok sys;
  ok_clients : clients_ok cfg sys;
  ok_idle : idle_ok sys;
}.

Lemma daemon_ok_start : daemon_ok sys_start.
Proof.
  split; try done.
  - by destruct (reg_reachable cfg sys_start) as [_ ?]; [apply rtc_refl|].
  - intros i k e. split; [done|]. by intros (t&?&_).
Qed.

Lemma daemon_ok_step sys sys' : sys_step cfg sys sys' → daemon_ok sys → daemon_ok sys'.
Proof.
  intros Hstep [Hg Hgl Hr Ha Hl Hc Hi]. split.
  - by eapply gate_ok_step.
  - by eapply gate_live_step.
  - by eapply reg_ok_step.
  - by eapply adm_ok_step.
  - by eapply life_ok_step.
  - by eapply clients_ok_step.
  - by eapply idle_ok_step.
Qed.

Lemma daemon_reachable sys : sys_reachable cfg sys → daemon_ok sys.
Proof.
  unfold sys_reachable. intros H. pose proof daemon_ok_start as H0. remember sys_start as s0 eqn:E. clear E.
  induction H; eauto using daemon_ok_step.
Qed.

(** *** Shutting down *)

Definition committing (t : Task) : bool :=
  match t with TClient (ClOpen _ (OpLateAgain _ _ _ | OpInsert _ _ _)) => true | _ => false end.

Definition shutting (t : Task) : bool :=
  match t with TShutdown ShStart => false | TShutdown _ => true | _ => false end.

Lemma end_step_flag h del reason inp d p d' p' late :
  end_step cfg h del reason inp d p = Some (d', p', late) → dm_shutting_down d' = dm_shutting_down d.
Proof.
  intros H. destruct p as [| | | | | | |e p| | | |e p| |].
  8: { apply end_save_inv in H as [(?&?&?)|(?&?&?&H&?)]; simplify_eq; [done|]. unfold save_step in H. step_cases. }
  11: { apply end_finish_inv in H as [(?&?)|(?&?&H&?)]; simplify_eq; [done|]. unfold finish_step in H. step_cases. }
  all: destruct inp; try discriminate H; simpl in H; unfold_sections; step_cases.
Qed.

Lemma client_step_flag i inp d p d' p' s : client_step cfg i inp d p = Some (d', p', s) →
  dm_shutting_down d' = dm_shutting_down d ∧
  (dm_shutting_down d = true → committing (TClient p) = false → committing (TClient p') = false).
Proof.
  intros H. destruct p as [| | | | | | | | | | | | | |a p| | | | | | | |e p denial|].
  15: { apply stopping_inv in H as [(?&->&->&->)|[(?&?&->&->&->)|[(?&?&->&->&->)|(?&?&H&->&->)]]]; try done. by apply end_step_flag in H. }
  1: { apply opening_inv in H as (->&[(->&?&?&->&->)|[(->&H&?&->)|(?&H&->)]]); [done|done|].
       destruct p, inp; try discriminate H; simpl in H; unfold reserve_session, register_session in *; unfold_sections;
         step_cases; goal_cases; (split; [done|]); intros; congruence || done. }
  21: { apply rollback_inv in H as (->&[(->&->&->)|(?&H&->)]); [done|]. unfold finish_step in H. step_cases. }
  all: destruct inp; try discriminate H; simpl in H; unfold attach_client, detach_client in *; unfold_sections;
    step_cases; goal_cases; done.
Qed.

Lemma evict_step_flag i inp d p d' p' late :
  evict_step cfg i inp d p = Some (d', p', late) → dm_shutting_down d' = dm_shutting_down d.
Proof.
  intros H. destruct p as [| | | | | | | |now ids e' x p| | | |now ids e' p| |].
  9: { apply evict_save_inv in H as [(?&?&?)|(?&?&?&H&?)]; simplify_eq; [done|]. unfold save_step in H. step_cases. }
  12: { apply evict_finish_inv in H as [(?&?)|(?&?&H&?)]; simplify_eq; [done|]. unfold finish_step in H. step_cases. }
  all: unfold evict_step in H; destruct (dc_idle_retention cfg), inp; try discriminate H; unfold_sections; step_cases.
Qed.

(** The flag stays set, an open that has seen it gives up, and a shutdown sets it first. *)
Lemma task_step_flag i inp d t d' t' s : task_step cfg i inp d t = Some (d', t', s) →
  (dm_shutting_down d = true → dm_shutting_down d' = true) ∧
  (dm_shutting_down d = true → committing t = false → committing t' = false) ∧
  (shutting t' = true → shutting t = true ∨ dm_shutting_down d' = true).
Proof.
  intros H. destruct t as [p|e aid p|p|p|id e|]; simpl in H; step_cases.
  - destruct x as [[]]. destruct (client_step_flag _ _ _ _ _ _ _ H) as [Hf Hc]. simpl. rewrite Hf. by split_and!.
  - unfold prompt_step in *. unfold_sections. step_cases; goal_cases; by split_and!.
  - destruct x as [[]]. apply evict_step_flag in H. simpl. rewrite H. by split_and!.
  - destruct x as [[d1 p1] late]. simpl. destruct p as [| | |l| |], inp; try discriminate; simpl in *; unfold lock_gate in *; step_cases.
    all: try by split_and!; auto.
    destruct x0 as [[d1 p1] late]. apply end_step_flag in H0. simpl. rewrite H0. by split_and!; auto.
  - unfold late_save_end. split_and!; [|done|done]. by repeat case_match.
Qed.

Definition closing (sys : System) : Prop :=
  dm_shutting_down (sy_daemon sys) = true ∧ ∀ i t, sy_tasks sys !! i = Some t → committing t = false.

Lemma closing_step sys sys' : daemon_ok sys → sys_step cfg sys sys' → closing sys →
  closing sys' ∧ dm_sessions (sy_daemon sys') ⊆ dm_sessions (sy_daemon sys).
Proof.
  intros Hok Hstep [Hf Hc]. destruct Hstep as [d tasks i j inp t d' t' s Hi Hs Hj|d tasks i t Hi Ht|d tasks e h]; simpl in *.
  - destruct (task_step_flag _ _ _ _ _ _ _ Hs) as (Hf'&Hc'&_). split.
    + split; simpl; [by auto|]. intros k u Hk. destruct (pool_lookup _ _ _ _ _ _ _ _ Hi Hj Hk) as [[-> ->]|[(_&_&?)|(->&_&Hsp)]]; eauto.
      by destruct s; simplify_eq/=.
    + destruct (ok_reg _ Hok) as [Hd Ht _ _]. simpl in *.
      destruct (task_step_reg _ _ _ _ _ _ _ _ Hd (Ht i t Hi) Hs) as [_ Hr]. specialize (Hc i t Hi).
      destruct Hr as [s Hsub _ _ _ _ _ _|id e _ _ _ -> _|id e _ _ ->|id _ _ _ _ _ -> _ _|id _ _ _ -> _ _ _ _|id rq g h -> ? ? ? ? ? ? ? ? ? ?]; try done.
      by destruct (late_end_same d id) as (->&_).
  - split; [|done]. split; simpl; [done|]. intros k u [[<- <-]|[_ ?]]%lookup_insert_Some; [|eauto].
    by destruct t as [[rq []| | | | | | | | | | | | | | | | | | | | | | |]| |[]|[]| |].
  - done.
Qed.

Definition flag_ok (sys : System) : Prop :=
  ∀ i t, sy_tasks sys !! i = Some t → shutting t = true → dm_shutting_down (sy_daemon sys) = true.

Lemma flag_reachable sys : sys_reachable cfg sys → flag_ok sys.
Proof.
  unfold sys_reachable. intros H. assert (flag_ok sys_start) as H0 by done. remember sys_start as s0 eqn:E. clear E.
  induction H as [|s1 s2 s3 Hstep _ IH]; [done|]. apply IH. clear IH.
  destruct Hstep as [d tasks i j inp t d' t' s Hi Hs Hj|d tasks i t Hi Ht|d tasks e h]; [| |exact H0].
  - destruct (task_step_flag _ _ _ _ _ _ _ Hs) as (Hf&_&Hn). intros k u Hk Hu. simpl in *.
    destruct (pool_lookup _ _ _ _ _ _ _ _ Hi Hj Hk) as [[-> ->]|[(_&_&?)|(->&_&Hsp)]].
    + destruct (Hn Hu) as [Hu'|?]; [|done]. by apply Hf, (H0 i t).
    + by apply Hf, (H0 k u).
    + by destruct s; simplify_eq/=.
  - intros k u Hk Hu. simpl in *. apply lookup_insert_Some in Hk as [[<- <-]|[_ ?]]; [by destruct t as [[rq []| | | | | | | | | | | | | | | | | | | | | | |]| |[]|[]| |]|].
    by apply (H0 k u).
Qed.

(** *** Leaked reservations *)

Definition leaked id (sys : System) : Prop :=
  id ∈ dm_creating_sessions (sy_daemon sys) ∧ ∀ i t, sy_tasks sys !! i = Some t → reserved t ≠ Some id.

Lemma leaked_step id sys sys' : daemon_ok sys → sys_step cfg sys sys' → leaked id sys → leaked id sys'.
Proof.
  intros Hok Hstep [Hin Hno]. destruct Hstep as [d tasks i j inp t d' t' s Hi Hs Hj|d tasks i t Hi Ht|d tasks e h]; simpl in *; [| |done].
  - destruct (ok_reg _ Hok) as [Hd Ht _ _]. simpl in *.
    destruct (task_step_reg _ _ _ _ _ _ _ _ Hd (Ht i t Hi) Hs) as [_ Hr]. split; simpl.
    + destruct Hr as [s _ -> _ _ _ _ _|id' e _ _ _ -> _|id' e _ _ ->|id' _ _ _ _ _ -> _ _|id' _ Hres _ _ -> _ _ _|id' rq g h _ _ _ _ _ _ -> _ _ _ _]; try done.
      * by destruct (late_end_same d id') as (_&->&_).
      * simpl. set_solver.
      * assert (id' ≠ id) by (intros ->; by apply (Hno i t)). set_solver.
    + intros k u Hk Hu. destruct (pool_lookup _ _ _ _ _ _ _ _ Hi Hj Hk) as [[-> ->]|[(_&_&?)|(->&_&Hsp)]].
      * destruct (reg_change_reserved _ _ _ _ _ _ _ Hr Hu) as [?|[? _]]; [by apply (Hno i t)|done].
      * by apply (Hno k u).
      * by rewrite (spawned_reserved _ _ Hsp) in Hu.
  - split; [done|]. simpl. intros k u [[<- <-]|[_ ?]]%lookup_insert_Some; [|eauto].
    by destruct t as [[rq []| | | | | | | | | | | | | | | | | | | | | | |]| |[]|[]| |].
Qed.

(** ** Theorems *)

(** C30: the registry is bounded: in every interleaving of opens, attaches, drops,
    evictions, stops and shutdowns, registered sessions and reservations together never
    exceed the configured number, a reserved identity is not registered, and a
    registered session is the one made for that identity, has not been stopped and has
    at most the configured number of clients. *)
Theorem registry_bounded (sys : System) (Hreach : sys_reachable cfg sys) :
  let d := sy_daemon sys in
  size (dm_sessions d) + size (dm_creating_sessions d) ≤ dc_max_sessions cfg ∧
  (∀ id, id ∈ dm_creating_sessions d → dm_sessions d !! id = None) ∧
  (∀ id e, dm_sessions d !! id = Some e →
     ∃ en, dm_entries d !! e = Some en ∧ en_session_id en = id ∧ en_stopped en = false ∧
       size (en_clients en) ≤ dc_max_clients_per_session cfg).
Proof.
  intros d. destruct (daemon_reachable sys Hreach) as [_ _ [[Hse Hcr Hb _] _ _ _] _ Hl [_ _ _ Hcb _] _]. split_and!; [done| |].
  - intros id Hid. by destruct (Hcr id Hid).
  - intros id e He. destruct Hl as [Hl _ _ _]. destruct (Hl id e He) as (en&Hen&Hs&_). exists en. split_and!; [done| |done|by apply (Hcb e)].
    specialize (Hse id e He). unfold ids in Hse. rewrite lookup_fmap in Hse. unfold d in Hen. rewrite Hen in Hse. by simplify_eq/=.
Qed.

(** An open that has its reservation does not fail for want of room, because the identity
    was taken or because of a late save: only the factory, a shutdown and the event
    subscription can refuse it. *)
Theorem reserved_open_commits (sys : System) (i : nat) (rq : Request) (id : string) (generated : bool) (health : PersistenceHealth)
    (Hreach : sys_reachable cfg sys) :
  let d := sy_daemon sys in
  (sy_tasks sys !! i = Some (TClient (ClOpen rq (OpLateAgain id generated health))) →
   open_step cfg i (rq_session_id rq) InGo d (OpLateAgain id generated health) = Some (d, OpInsert id generated health)) ∧
  (sy_tasks sys !! i = Some (TClient (ClOpen rq (OpInsert id generated health))) →
   ∃ d', open_step cfg i (rq_session_id rq) (InSubscribed None) d (OpInsert id generated health) =
       Some (d', OpDone (Ok (id, generated))) ∧
     dm_sessions d' !! id = Some (dm_next_entry d) ∧ dm_creation_gate d' = None).
Proof.
  intros d. destruct (ok_reg _ (daemon_reachable sys Hreach)) as [_ Ht _ _]. fold d in Ht. split; intros Hi; specialize (Ht i _ Hi).
  - destruct Ht as (_&_&Hla&_). simpl. unfold has_late_persistence_save. by rewrite Hla.
  - destruct Ht as (_&Hs&_&Hb). simpl. unfold register_session. rewrite Hs. simpl.
    destruct (Nat.leb_spec (dc_max_sessions cfg) (size (dm_sessions d))); [lia|]. eexists. split; [done|]. simpl.
    by rewrite lookup_insert_eq.
Qed.

(** C32: a save that outlived its timeout keeps its identity to itself: while it runs, the
    identity is not being opened, nothing but the entry it saves is registered under
    it, and the recorded number of late saves is the number of those running. *)
Theorem late_save_excludes_reopen (sys : System) (i : nat) (id : string) (e : nat)
    (Hreach : sys_reachable cfg sys) (Htask : sy_tasks sys !! i = Some (TLate id e)) :
  let d := sy_daemon sys in
  (id ∉ dm_creating_sessions d) ∧ (∀ e', dm_sessions d !! id = Some e' → e' = e) ∧
  (∃ en, dm_entries d !! e = Some en ∧ en_session_id en = id) ∧
  0 < tally (is_late id) (sy_tasks sys) ∧
  dm_late_persistence_saves d !! id = Some (tally (is_late id) (sy_tasks sys)).
Proof.
  intros d. destruct (ok_reg _ (daemon_reachable sys Hreach)) as [Hd Ht _ Hl]. fold d in Hd, Ht, Hl.
  destruct (Ht i _ Htask) as [Hi Hu]. specialize (Hl id).
  assert (0 < tally (is_late id) (sy_tasks sys)) as Hp by (eapply tally_pos; [done|]; simpl; by rewrite bool_decide_true).
  destruct (dm_late_persistence_saves d !! id) as [n|] eqn:E; simpl in Hl; [|lia]. split_and!; [|done| |done|congruence].
  - intros Hc. destruct (rd_creating _ _ Hd id Hc). congruence.
  - unfold ids in Hi. rewrite lookup_fmap in Hi. destruct (dm_entries d !! e) as [en|]; simplify_eq/=. eauto.
Qed.

(** C29: a session ends once: every entry is registered and open, or removed and being ended
    by exactly one task, or over; when it is over its clients are gone, everyone who
    is still attached has been told, and the end was announced exactly once. *)
Theorem session_ends_once (sys : System) (e : nat) (en : SessionEntry)
    (Hreach : sys_reachable cfg sys) (Hentry : dm_entries (sy_daemon sys) !! e = Some en) :
  let d := sy_daemon sys in
  ((∃ id, dm_sessions d !! id = Some e) ∧ en_stopped en = false ∧ endings en = 0) ∨
  ((∀ id, dm_sessions d !! id ≠ Some e) ∧
   ∃ i t k ph, sy_tasks sys !! i = Some t ∧ ends t k = Some (e, ph) ∧ stage_ok (Ending ph) en ∧
     ∀ j u l ph', sy_tasks sys !! j = Some u → ends u l = Some (e, ph') → j = i ∧ l = k) ∨
  ((∀ id, dm_sessions d !! id ≠ Some e) ∧
   en_stopped en = true ∧ en_clients en = ∅ ∧ en_stop_notifier en = true ∧ endings en = 1).
Proof.
  intros d. destruct (ok_life _ (daemon_reachable sys Hreach)) as [Hs He Hu Ha]. fold d in Hs, He, Ha, Hentry.
  destruct (Ha e en Hentry) as [[id Hid]|[(i&t&k&ph&Hi&Hk)|Hover]].
  - left. destruct (Hs id e Hid) as (en'&Hen'&?&_&?). simplify_eq. eauto.
  - right. left. destruct (He i t k e ph Hi Hk) as [(en'&Hen'&Hst) Hn]. simplify_eq. split; [done|]. exists i, t, k, ph.
    split_and!; [done..|]. intros j u l ph' Hj Hl. by eapply Hu.
  - right. right. split; [|done]. intros id Hid. destruct (Hs id e Hid) as (en'&Hen'&?&_). simplify_eq. destruct Hover. congruence.
Qed.

(** the clients of a session are its connections: a connection is registered under its
    client with its own attachment and capabilities, or its replacement was signalled,
    or the session was stopped; every registered client belongs to exactly one
    connection, so none is left behind by a connection that ended; and the approval
    broker was last told how many of them may approve. *)
Theorem clients_are_live_connections (sys : System) (Hreach : sys_reachable cfg sys) :
  let d := sy_daemon sys in
  (∀ i t e c caps aid, sy_tasks sys !! i = Some t → live t = Some (e, c, caps, aid) →
     ∃ en, dm_entries d !! e = Some en ∧
       ((∃ x, en_clients en !! c = Some x ∧ ca_attachment_id x = aid ∧ ca_capabilities x = caps) ∨
        aid ∈ dm_replaced d ∨ en_stopped en = true)) ∧
  (∀ e en c x, dm_entries d !! e = Some en → en_clients en !! c = Some x →
     ∃ i t, sy_tasks sys !! i = Some t ∧ live t = Some (e, c, ca_capabilities x, ca_attachment_id x) ∧
       ∀ j u e' c' caps', sy_tasks sys !! j = Some u → live u = Some (e', c', caps', ca_attachment_id x) → j = i) ∧
  (∀ e en, dm_entries d !! e = Some en → en_stopped en = false → eligible_ok en).
Proof.
  intros d. destruct (ok_clients _ (daemon_reachable sys Hreach)) as [Hl Hu Hc _ Hel]. fold d in Hl, Hc, Hel. split_and!; [| |done].
  - intros i t e c caps aid Hi Ht. by destruct (Hl i t _ Hi Ht) as [_ ?].
  - intros e en c x He Hx. destruct (Hc e en c x He Hx) as (i&t&Hi&Ht). exists i, t. split_and!; [done..|].
    intros j u e' c' caps' Hj Hlu. by eapply (Hu j i).
Qed.

(** C31: only a deserted session is evicted: when an eviction removes an entry from the
    registry, nobody is attached to it and no turn runs in it, and a session that ended
    for idleness has no client and no turn ever after. *)
Theorem evicted_session_is_deserted (sys : System) (e : nat) (en : SessionEntry)
    (Hreach : sys_reachable cfg sys) (Hentry : dm_entries (sy_daemon sys) !! e = Some en) :
  (∀ i now rest, sy_tasks sys !! i = Some (TEvict (EvRemove now rest e)) → deserted en) ∧
  (CallEnding "idle_retention" ∈ en_calls en → en_stopped en = true ∧ deserted en).
Proof.
  destruct (ok_idle _ (daemon_reachable sys Hreach)) as [Ht He]. split; [|by apply (He e)].
  intros i now rest Hi. by apply (Ht i _ Hi).
Qed.

(** a shutdown closes the door: from the moment it holds the creation gate, no session
    is ever registered again. *)
Theorem no_session_after_shutdown (sys sys' : System) (i : nat) (p : ShutPc)
    (Hreach : sys_reachable cfg sys) (Htask : sy_tasks sys !! i = Some (TShutdown p))
    (Hgate : holds_gate (TShutdown p) = true) (Hlater : rtc (sys_step cfg) sys sys') :
  dm_sessions (sy_daemon sys') ⊆ dm_sessions (sy_daemon sys).
Proof.
  pose proof (daemon_reachable sys Hreach) as Hok.
  assert (Hcl : closing sys).
  { split; [by eapply (flag_reachable sys Hreach i _ Htask); destruct p|].
    intros j t Hj. destruct (committing t) eqn:Hc; [|done]. assert (holds_gate t = true) as Hg
      by (by destruct t as [[rq []| | | | | | | | | | | | | | | | | | | | | | |]| | | | |]).
    pose proof (ok_gate _ Hok i _ Htask Hgate). pose proof (ok_gate _ Hok j t Hj Hg). by simplify_eq. }
  clear Htask Hgate Hreach i p. induction Hlater as [s|s1 s2 s3 Hstep _ IH]; [done|].
  destruct (closing_step _ _ Hok Hstep Hcl) as [Hcl' Hsub]. etrans; [|exact Hsub]. apply IH; [|done]. by eapply daemon_ok_step.
Qed.

(** no lock is lost: the creation gate and the admission of every session are held by
    a task that still is where it holds them and by one only, so that connections
    dropped at any await and failed operations leave neither locked. *)
Theorem locks_have_live_holders (sys : System) (Hreach : sys_reachable cfg sys) :
  let d := sy_daemon sys in
  (∀ i, dm_creation_gate d = Some i ↔ ∃ t, sy_tasks sys !! i = Some t ∧ holds_gate t = true) ∧
  (∀ e i k, adm d e = Some (i, k) ↔ ∃ t, sy_tasks sys !! i = Some t ∧ owns t k = Some e).
Proof.
  intros d. destruct (daemon_reachable sys Hreach) as [Hg Hgl _ Ha _ _ _]. split.
  - intros i. split; [apply Hgl|]. intros (t&Hi&Ht). by eapply Hg.
  - intros e i k. apply Ha.
Qed.

(** A reservation nobody works on any more is never given back: its identity can never be
    registered again, and every later attempt to reserve it is refused. *)
Theorem leaked_reservation_is_forever (sys sys' : System) (id : string)
    (Hreach : sys_reachable cfg sys) (Hleaked : leaked id sys) (Hlater : rtc (sys_step cfg) sys sys') :
  leaked id sys' ∧ dm_sessions (sy_daemon sys') !! id = None ∧
  ∀ n, ∃ error, reserve_session cfg id n (sy_daemon sys') = (Err error, sy_daemon sys').
Proof.
  pose proof (daemon_reachable sys Hreach) as Hok. clear Hreach.
  induction Hlater as [s|s1 s2 s3 Hstep _ IH]; [|apply IH; [by eapply leaked_step|by eapply daemon_ok_step]].
  split; [done|]. destruct Hleaked as [Hin _]. split; [by apply (rd_creating _ _ (ro_daemon _ _ (ok_reg _ Hok)))|].
  intros n. unfold reserve_session. destruct (_ <=? _); [eauto|]. rewrite bool_decide_true by done. eauto.
Qed.

End registry.

(** ** Runs *)

(** A schedule of the daemon: who moves, with which answer, and where a task it starts is
    placed. *)
Inductive Action :=
  | ActArrive (i : nat) (t : Task)
  | ActDo (i j : nat) (inp : Input)
  | ActCore (e : nat) (health : PersistenceHealth).

Definition sys_exec (cfg : DaemonConfig) (sys : System) (a : Action) : option System :=
  match a with
  | ActArrive i t =>
      if arrives t && negb (is_some (sy_tasks sys !! i))
      then Some (mkSystem (sy_daemon sys) (<[i := t]> (sy_tasks sys))) else None
  | ActDo i j inp =>
      t ← sy_tasks sys !! i;
      if is_some (sy_tasks sys !! j) then None
      else r ← task_step cfg i inp (sy_daemon sys) t;
           Some (mkSystem r.1.1 (spawn_at j r.2 (<[i := r.1.2]> (sy_tasks sys))))
  | ActCore e health => Some (mkSystem (upd e (set_core_health health) (sy_daemon sys)) (sy_tasks sys))
  end.

Fixpoint sys_run (cfg : DaemonConfig) (sys : System) (actions : list Action) : option System :=
  match actions with
  | [] => Some sys
  | a :: rest => sys' ← sys_exec cfg sys a; sys_run cfg sys' rest
  end.

Lemma sys_exec_step cfg sys a sys' : sys_exec cfg sys a = Some sys' → sys_step cfg sys sys'.
Proof.
  destruct sys as [d tasks]. destruct a as [i t|i j inp|e h]; simpl; intros H.
  - destruct (arrives t && _) eqn:E; [|done]. simplify_eq. bool_to_prop. apply sys_arrive; [by destruct (tasks !! i)|done].
  - apply bind_Some in H as (t&Ht&H). destruct (tasks !! j) eqn:Hj; [done|]. apply bind_Some in H as ([[d' t'] s]&Hs&H).
    simplify_eq/=. by eapply sys_task.
  - simplify_eq. apply sys_core.
Qed.

Lemma sys_run_steps cfg actions sys sys' : sys_run cfg sys actions = Some sys' → rtc (sys_step cfg) sys sys'.
Proof.
  revert sys. induction actions as [|a actions IH]; simpl; intros sys H; [simplify_eq; apply rtc_refl|].
  apply bind_Some in H as (s1&H1&H2). eapply rtc_l; [by eapply sys_exec_step|by apply IH].
Qed.

(** Two sessions at most, two clients each; idle after ten units; a dirty session gets one
    final save. *)
Definition demo_config : DaemonConfig := mkDaemonConfig 2 2 (Some 10%Z) (Some 0%Z) (Some 5%Z) true.

Definition demo_client : ClientInfo := Build_ClientInfo "tui" KindTerminal "terminal".
Definition demo_request (session : option string) : Request :=
  mkRequest session demo_client [CapObserve; CapPrompt; CapApproveOnce; CapStop] false.

Definition go (i : nat) (inps : list Input) : list Action := ActDo i 99 <$> inps.

(** A connection that has a new session made for it and is about to register it. *)
Definition demo_opening : list Action :=
  ActArrive 1 (TClient (ClOpen (demo_request None) OpStart)) ::
  go 1 [InGo; InUuid "s"; InGo; InGo; InGo; InGo; InGo; InGo; InOpened (Ok HClean); InGo; InGo; InGo; InGo].

Definition demo_serving : list Action :=
  demo_opening ++ go 1 [InSubscribed None; InGo; InGo; InGo; InGo; InReplay true; InOk true].

(** The client leaves at time 0; an eviction at time 100 finds the session dirty, its final
    save times out and goes on as task 3. *)
Definition demo_late : list Action :=
  demo_serving ++ go 1 [InCancel; InGo; InGo; InNow 0; InGo; InGo] ++
  ActCore 0 HDirty :: ActArrive 2 (TEvict EvStart) ::
  go 2 [InIds 100 ["s"]; InGo; InGo; InGo; InGo; InGo; InGo; InGo; InGo; InGo; InGo] ++ [ActDo 2 3 InTimeout].

Definition demo_evicting : list Action := demo_late ++ go 2 [InGo; InGo; InGo; InGo; InGo].
Definition demo_evicted : list Action := demo_evicting ++ go 2 [InGo; InGo; InGo; InGo; InGo; InGo; InGo; InGo; InGo].

Definition demo (actions : list Action) : System := default sys_start (sys_run demo_config sys_start actions).

Lemma demo_sys_reachable actions : is_some (sys_run demo_config sys_start actions) = true → sys_reachable demo_config (demo actions).
Proof.
  unfold demo, sys_reachable. destruct (sys_run demo_config sys_start actions) eqn:E; [|done]. intros _. by eapply sys_run_steps.
Qed.

(** A connection whose future is dropped while its session is being opened: the reservation
    stays although no task is left, and from then on the identity cannot be opened and
    one place of the registry is lost. *)
Definition demo_dropped : list Action :=
  ActArrive 1 (TClient (ClOpen (demo_request (Some "s")) OpStart)) ::
  go 1 [InGo; InGo; InGo; InGo; InGo; InGo; InGo; InGo; InCancel; InGo].

Theorem dropped_open_leaks_reservation :
  let sys := demo demo_dropped in
  sys_reachable demo_config sys ∧ sy_tasks sys = {[1 := TClient (ClDone (Some DnDropped))]} ∧
  dm_sessions (sy_daemon sys) = ∅ ∧ dm_creating_sessions (sy_daemon sys) = {["s"]} ∧
  ∀ sys', rtc (sys_step demo_config) sys sys' →
    "s" ∈ dm_creating_sessions (sy_daemon sys') ∧ dm_sessions (sy_daemon sys') !! "s" = None ∧
    ∀ n, ∃ error, reserve_session demo_config "s" n (sy_daemon sys') = (Err error, sy_daemon sys').
Proof.
  intros sys. assert (Hreach : sys_reachable demo_config sys) by (apply demo_sys_reachable; by vm_compute).
  assert (Ht : sy_tasks sys = {[1 := TClient (ClDone (Some DnDropped))]}) by (by vm_compute).
  assert (Hc : dm_creating_sessions (sy_daemon sys) = {["s"]}) by (by vm_compute).
  split_and!; [done|done|by vm_compute|done|]. intros sys' Hlater.
  assert (Hleak : leaked "s" sys).
  { split; [rewrite Hc; set_solver|]. rewrite Ht. intros i t [<- <-]%lookup_singleton_Some. done. }
  destruct (leaked_reservation_is_forever demo_config sys sys' "s" Hreach Hleak Hlater) as ([H1 _]&H2&H3).
  exact (conj H1 (conj H2 H3)).
Qed.

(** ** Witnesses *)

Lemma registry_bounded_witness :
  let d := sy_daemon (demo demo_serving) in
  dm_sessions d = {["s" := 0]} ∧ size (dm_sessions d) + size (dm_creating_sessions d) ≤ 2.
Proof.
  intros d. split; [by vm_compute|].
  apply (registry_bounded demo_config (demo demo_serving)). apply demo_sys_reachable. by vm_compute.
Defined.

Lemma late_save_excludes_reopen_witness :
  let sys := demo demo_late in
  sy_tasks sys !! 3 = Some (TLate "s" 0) ∧ "s" ∉ dm_creating_sessions (sy_daemon sys) ∧
  dm_late_persistence_saves (sy_daemon sys) !! "s" = Some (tally (is_late "s") (sy_tasks sys)).
Proof.
  intros sys. assert (Ht : sy_tasks sys !! 3 = Some (TLate "s" 0)) by (by vm_compute). split; [exact Ht|].
  destruct (late_save_excludes_reopen demo_config sys 3 "s" 0) as (H1&_&_&_&H2); [|exact Ht|split; [exact H1|exact H2]].
  apply demo_sys_reachable. by vm_compute.
Defined.

Lemma session_ends_once_witness :
  let d := sy_daemon (demo demo_evicted) in
  ∃ en, dm_entries d !! 0 = Some en ∧ en_stopped en = true ∧
    (((∃ id, dm_sessions d !! id = Some 0) ∧ en_stopped en = false ∧ endings en = 0) ∨
     ((∀ id, dm_sessions d !! id ≠ Some 0) ∧
      ∃ i t k ph, sy_tasks (demo demo_evicted) !! i = Some t ∧ ends t k = Some (0, ph) ∧ stage_ok (Ending ph) en ∧
        ∀ j u l ph', sy_tasks (demo demo_evicted) !! j = Some u → ends u l = Some (0, ph') → j = i ∧ l = k) ∨
     ((∀ id, dm_sessions d !! id ≠ Some 0) ∧
      en_stopped en = true ∧ en_clients en = ∅ ∧ en_stop_notifier en = true ∧ endings en = 1)).
Proof.
  intros d. eexists. split; [vm_compute; reflexivity|]. split; [reflexivity|].
  apply (session_ends_once demo_config (demo demo_evicted)); [apply demo_sys_reachable; by vm_compute|vm_compute; reflexivity].
Defined.

Lemma clients_are_live_connections_witness :
  let d := sy_daemon (demo demo_serving) in
  ∃ en, dm_entries d !! 0 = Some en ∧ eligible_ok en ∧ last_eligible en = Some (1, 0).
Proof.
  intros d. destruct (clients_are_live_connections demo_config (demo demo_serving)) as (_&_&H); [apply demo_sys_reachable; by vm_compute|].
  eexists. split; [vm_compute; reflexivity|]. split; [|vm_compute; reflexivity].
  apply (H 0); vm_compute; reflexivity.
Defined.

Lemma evicted_session_is_deserted_witness :
  let sys := demo demo_evicting in
  ∃ en, sy_tasks sys !! 2 = Some (TEvict (EvRemove 100 [] 0)) ∧ dm_entries (sy_daemon sys) !! 0 = Some en ∧ deserted en.
Proof.
  intros sys. eexists. assert (Ht : sy_tasks sys !! 2 = Some (TEvict (EvRemove 100 [] 0))) by (by vm_compute).
  split; [exact Ht|]. split; [vm_compute; reflexivity|].
  refine (proj1 (evicted_session_is_deserted demo_config sys 0 _ _ _) 2 100%Z [] Ht).
  - apply demo_sys_reachable. by vm_compute.
  - vm_compute. reflexivity.
Defined.

Definition demo_shutdown : list Action := demo_serving ++ ActArrive 4 (TShutdown ShStart) :: go 4 [InGo; InGo].

Lemma no_session_after_shutdown_witness :
  let sys := demo demo_shutdown in
  ∃ sys', sys_run demo_config sys (go 4 [InGo]) = Some sys' ∧ dm_sessions (sy_daemon sys') ⊆ dm_sessions (sy_daemon sys).
Proof.
  intros sys. destruct (sys_run demo_config sys (go 4 [InGo])) as [sys'|] eqn:E; [|by vm_compute in E].
  exists sys'. split; [reflexivity|].
  apply (no_session_after_shutdown demo_config sys sys' 4 ShList).
  - apply demo_sys_reachable. by vm_compute.
  - by vm_compute.
  - reflexivity.
  - by eapply sys_run_steps.
Defined.

Lemma locks_have_live_holders_witness :
  let sys := demo demo_shutdown in
  dm_creation_gate (sy_daemon sys) = Some 4 ∧ ∃ t, sy_tasks sys !! 4 = Some t ∧ holds_gate t = true.
Proof.
  intros sys. assert (Hg : dm_creation_gate (sy_daemon sys) = Some 4) by (by vm_compute). split; [exact Hg|].
  apply (proj1 (locks_have_live_holders demo_config sys (demo_sys_reachable demo_shutdown eq_refl)) 4). exact Hg.
Defined.
