(* ===== verification/Listing.v ===== *)
(** * Listing sessions

    The session list of the daemon ([session_daemon.rs]): the rows merged from what is
    stored and what is active ([listing_rows]), the snapshot a connection pages through
    ([list_sessions_for_connection]), the number of such snapshots
    ([register_listing_snapshot]), and the fitting of a page into a frame
    ([fit_session_list_to_frame]).

    The [Arc<AtomicBool>] of a snapshot is a handle into the table of flags that are
    alive; the registries keep handles ([Weak]), which are dead once their snapshot is
    dropped.  The clock, the fresh cursor and the JSON encoder are arguments. *)

From stdpp Require Import base numbers list strings gmap sorting.
From S2P Require Import Prelude RustStr Protocol Messages Store Registry.

(** ** Data *)

Record CatalogRow := mkCatalogRow {
  cr_session_id : string;
  cr_workspace_id : string;
  cr_model : option string;
  cr_updated_at_unix_ns : Z;
  cr_preview : option string;
  cr_message_count : option nat;
  cr_deleted : bool;
}.

Record ConnectionListingSnapshot := mkListing {
  ls_rows : list SessionListEntry;
  ls_offset : nat;
  ls_expected_cursor : option string;
  ls_expires_at : Z;
  ls_incomplete : bool;
  ls_valid : nat;
}.

Inductive SessionListPageError :=
  | InvalidCursor
  | CapacityExceeded
  | ListTooLarge (message : string).

#[export] Instance SessionListPageError_eq_dec : EqDecision SessionListPageError.
Proof. solve_decision. Defined.

(** The fields of [SessionDaemon] that listings use; [with_factory], [with_listing_limits]
    and [with_global_listing_snapshot_capacity] keep sizes and capacity positive. *)
Record ListingConfig := mkListingConfig {
  lc_page_size : nat;
  lc_preview_bytes : nat;
  lc_snapshot_entries : nat;
  lc_snapshot_ttl : Z;
  lc_workspace_identity : option SessionWorkspace;
  lc_global_capacity : nat;
}.

(** The flags of the snapshots that are alive, and the two registries. *)
Record ListingRegistry := mkListingRegistry {
  lr_flags : gmap nat bool;
  lr_local : list nat;
  lr_remote : list nat;
  lr_next : nat;
}.

Definition registry_new : ListingRegistry := mkListingRegistry ∅ [] [] 0.

(** What [listing_rows] reads of an active session: the history only when the session is
    not locked by a turn. *)
Record ActiveSession := mkActiveSession {
  as_session_id : string;
  as_attached_clients : nat;
  as_timeline : list TimelineEntry;
  as_turn_status : TurnStatus;
  as_history : option (list Message);
  as_model : string;
  as_last_activity_unix_ms : Z;
}.

(** ** Rows *)

(** A [SystemTime] is its distance to the epoch in nanoseconds. *)
Definition system_time_unix_ms (time : Z) : Z := Z.min (Z.max 0 time / 1000000) U64_MAX.

Definition summary_to_list_entry (summary : SessionSummary) (updated_at : option Z) : SessionListEntry :=
  mkListEntry (ss_id summary) false 0 (Some (ss_model summary)) (system_time_unix_ms <$> updated_at)
    (ss_first_user_line summary) (Some (ss_message_count summary)) None.

Definition catalog_row_to_list_entry (row : CatalogRow) : SessionListEntry :=
  mkListEntry (cr_session_id row) false 0 (cr_model row) (Some (cr_updated_at_unix_ns row / 1000000)%Z)
    (cr_preview row) (cr_message_count row) None.

(** The preview a snapshot gives: the first line of the first user entry. *)
Definition snapshot_preview (timeline : list TimelineEntry) (max_bytes : nat) : option string :=
  find_map (λ e, match te_entry e with EkUser text _ => Some text | _ => None end) timeline
    ≫= λ text, head (lines text) ≫= λ line, normalize_preview line max_bytes.

Definition active_entry (cfg : ListingConfig) (a : ActiveSession) : SessionListEntry :=
  let '(message_count, preview) :=
    match as_history a with
    | Some history => (Some (length history), first_user_preview history (lc_preview_bytes cfg))
    | None => (None, snapshot_preview (as_timeline a) (lc_preview_bytes cfg))
    end in
  mkListEntry (as_session_id a) true (as_attached_clients a) (Some (as_model a))
    (Some (as_last_activity_unix_ms a)) preview message_count (Some (as_turn_status a)).

(** Newest first, then by identity. *)
Definition updated (e : SessionListEntry) : Z := default 0%Z (le_updated_at_unix_ms e).

Definition row_leb (left right : SessionListEntry) : bool :=
  match Z.compare (updated right) (updated left) with
  | Lt => true
  | Eq => str_leb (le_session_id left) (le_session_id right)
  | Gt => false
  end.

Definition put_row (rows : gmap string SessionListEntry) (row : SessionListEntry) : gmap string SessionListEntry :=
  <[le_session_id row := row]> rows.

Definition listing_rows (cfg : ListingConfig) (durable : list SessionListEntry * bool)
    (active : list ActiveSession) : result (list SessionListEntry * bool) SessionListPageError :=
  let '(durable, incomplete) := durable in
  let sessions := foldl put_row (foldl put_row ∅ durable) (map (active_entry cfg) active) in
  let rows := sort_by row_leb (map snd (map_to_list sessions)) in
  if lc_snapshot_entries cfg <? length rows then Err CapacityExceeded else Ok (rows, incomplete).

(** What a connection is shown of a row. *)
Definition render_row (trust : ConnectionTrust) (row : SessionListEntry) : SessionListEntry :=
  match trust with
  | RemotePaired =>
      mkListEntry (le_session_id row) (le_active row) (le_attached_clients row) None None None None None
  | LocalOwner => row
  end.

Definition render_listing_rows (rows : list SessionListEntry) (trust : ConnectionTrust) : list SessionListEntry :=
  map (render_row trust) rows.

(** ** Fitting a page *)

Section fitting.
(** [serde_json::to_vec]: the length of the encoding or the text of the error. *)
Context (encoded_len : ServerMessage → result nat string).

Definition list_message (request_id : string) (workspace : option SessionWorkspace) (remaining : nat)
    (cursor : string) (incomplete : bool) (sessions : list SessionListEntry) : ServerMessage :=
  SmSessionList request_id workspace sessions
    (if length sessions <? remaining then Some cursor else None) incomplete.

Definition one_entry_too_large (max_frame_bytes : nat) : string :=
  "one session entry exceeds the configured " +:+ u64_to_string (Z.of_nat max_frame_bytes)
    +:+ "-byte frame limit".

(** The loop of [fit_session_list_to_frame] on the first [n] sessions; every round pops one. *)
Fixpoint fit_loop (message : list SessionListEntry → ServerMessage) (sessions : list SessionListEntry)
    (max_frame_bytes n : nat) : result (ServerMessage * nat) string :=
  let kept := take n sessions in
  match encoded_len (message kept) with
  | Err error => Err ("session list serialization failed: " +:+ error)
  | Ok len =>
      if len <=? max_frame_bytes then Ok (message kept, length kept)
      else match n with
           | O | S O => Err (one_entry_too_large max_frame_bytes)
           | S n' => fit_loop message sessions max_frame_bytes n'
           end
  end.

Definition fit_session_list_to_frame (request_id : string) (workspace : option SessionWorkspace)
    (sessions : list SessionListEntry) (remaining : nat) (cursor : string) (max_frame_bytes : nat)
    (incomplete : bool) : result (ServerMessage * nat) string :=
  fit_loop (list_message request_id workspace remaining cursor incomplete) sessions max_frame_bytes
    (length sessions).

(** ** Snapshots of a connection *)

Definition set_registry (trust : ConnectionTrust) (q : list nat) (r : ListingRegistry) : ListingRegistry :=
  match trust with
  | LocalOwner => mkListingRegistry (lr_flags r) q (lr_remote r) (lr_next r)
  | RemotePaired => mkListingRegistry (lr_flags r) (lr_local r) q (lr_next r)
  end.

Definition registry_of (trust : ConnectionTrust) (r : ListingRegistry) : list nat :=
  match trust with LocalOwner => lr_local r | RemotePaired => lr_remote r end.

Definition set_flags (f : gmap nat bool) (r : ListingRegistry) : ListingRegistry :=
  mkListingRegistry f (lr_local r) (lr_remote r) (lr_next r).

(** [upgrade] and [store(false)]. *)
Definition invalidate (h : nat) (flags : gmap nat bool) : gmap nat bool := alter (λ _, false) h flags.

(** [while registry.len() >= capacity]: the oldest go first. *)
Fixpoint evict_excess (capacity : nat) (q : list nat) (flags : gmap nat bool) : list nat * gmap nat bool :=
  match q with
  | [] => ([], flags)
  | h :: q' => if capacity <=? length q then evict_excess capacity q' (invalidate h flags) else (q, flags)
  end.

Definition register_listing_snapshot (cfg : ListingConfig) (trust : ConnectionTrust) (r : ListingRegistry)
    : ListingRegistry * nat :=
  let valid := lr_next r in
  let q := filter (λ h, is_Some (lr_flags r !! h)) (registry_of trust r) in
  let '(q, flags) := evict_excess (lc_global_capacity cfg) q (lr_flags r) in
  let r := mkListingRegistry (<[valid := true]> flags) (lr_local r) (lr_remote r) (S valid) in
  (set_registry trust (q ++ [valid]) r, valid).

(** Dropping a snapshot drops its flag. *)
Definition drop_listing (s : option ConnectionListingSnapshot) (r : ListingRegistry) : ListingRegistry :=
  match s with Some s => set_flags (delete (ls_valid s) (lr_flags r)) r | None => r end.

(** The first part: a request without cursor takes a new snapshot of the rows; the old
    one is dropped when the new one is stored. *)
Definition begin_listing (cfg : ListingConfig) (trust : ConnectionTrust) (now : Z)
    (rows : list SessionListEntry) (incomplete : bool) (snapshot : option ConnectionListingSnapshot)
    (r : ListingRegistry) : ListingRegistry * option ConnectionListingSnapshot :=
  let '(r, valid) := register_listing_snapshot cfg trust r in
  (drop_listing snapshot r,
   Some (mkListing rows 0 None (now + lc_snapshot_ttl cfg)%Z incomplete valid)).

(** [cursor.is_some_and(|cursor| listing.expected_cursor.as_deref() != Some(cursor))]. *)
Definition cursor_mismatch (cursor : option string) (s : ConnectionListingSnapshot) : bool :=
  match cursor with Some c => bool_decide (ls_expected_cursor s ≠ Some c) | None => false end.

(** The second part: the next page of the snapshot; [uuid] is the fresh identifier. *)
Definition listing_page (cfg : ListingConfig) (trust : ConnectionTrust) (now : Z) (uuid request_id : string)
    (cursor : option string) (max_frame_bytes : nat) (snapshot : option ConnectionListingSnapshot)
    (r : ListingRegistry)
    : ListingRegistry * option ConnectionListingSnapshot * result ServerMessage SessionListPageError :=
  match snapshot with
  | None => (r, None, Err InvalidCursor)
  | Some s =>
      if negb (default false (lr_flags r !! ls_valid s)) || (ls_expires_at s <=? now)%Z || cursor_mismatch cursor s
      then (drop_listing snapshot r, None, Err InvalidCursor)
      else
        let end_ := (ls_offset s + lc_page_size cfg) `min` length (ls_rows s) in
        let rows := render_listing_rows (take (end_ - ls_offset s) (drop (ls_offset s) (ls_rows s))) trust in
        let remaining := length (ls_rows s) - ls_offset s in
        let next_cursor := "v1_" +:+ uuid in
        let workspace := if decide (trust = LocalOwner) then lc_workspace_identity cfg else None in
        match fit_session_list_to_frame request_id workspace rows remaining next_cursor max_frame_bytes (ls_incomplete s) with
        | Err message => (r, snapshot, Err (ListTooLarge message))
        | Ok (message, sent) =>
            let expected := match message with SmSessionList _ _ _ next _ => next | _ => None end in
            let s' := mkListing (ls_rows s) (ls_offset s + sent) expected (ls_expires_at s) (ls_incomplete s) (ls_valid s) in
            match expected with
            | None => (drop_listing snapshot r, None, Ok message)
            | Some _ => (r, Some s', Ok message)
            end
        end
  end.

(** Both parts with nothing of other connections in between; [rows] is the outcome of
    [listing_rows], which is called only without cursor. *)
Definition list_sessions_for_connection (cfg : ListingConfig) (trust : ConnectionTrust) (started now : Z)
    (uuid request_id : string) (cursor : option string)
    (rows : result (list SessionListEntry * bool) SessionListPageError) (max_frame_bytes : nat)
    (snapshot : option ConnectionListingSnapshot) (r : ListingRegistry)
    : ListingRegistry * option ConnectionListingSnapshot * result ServerMessage SessionListPageError :=
  match cursor with
  | Some _ => listing_page cfg trust now uuid request_id cursor max_frame_bytes snapshot r
  | None =>
      match rows with
      | Err e => (r, snapshot, Err e)
      | Ok (rows, incomplete) =>
          let '(r, snapshot) := begin_listing cfg trust started rows incomplete snapshot r in
          listing_page cfg trust now uuid request_id None max_frame_bytes snapshot r
      end
  end.

(** ** Connections that list at the same time *)

Inductive LogEntry :=
  | LgBegan (rows : list SessionListEntry)
  | LgPaged (sessions : list SessionListEntry) (next_cursor : option string)
  | LgFailed (error : SessionListPageError).

Record ListConn := mkListConn {
  lk_trust : ConnectionTrust;
  lk_snapshot : option ConnectionListingSnapshot;
  lk_log : list LogEntry;
}.

Record ListSystem := mkListSystem { lsy_registry : ListingRegistry; lsy_conns : gmap nat ListConn }.

Definition list_start : ListSystem := mkListSystem registry_new ∅.

Inductive ListOp :=
  | OpConnect (c : nat) (trust : ConnectionTrust)
  | OpBegin (c : nat) (now : Z) (rows : list SessionListEntry) (incomplete : bool)
  | OpPage (c : nat) (now : Z) (uuid request_id : string) (cursor : option string)
  | OpDisconnect (c : nat).

Definition log_of (res : result ServerMessage SessionListPageError) : LogEntry :=
  match res with
  | Ok (SmSessionList _ _ sessions next _) => LgPaged sessions next
  | Ok _ => LgPaged [] None
  | Err e => LgFailed e
  end.

Definition list_op (cfg : ListingConfig) (max_frame_bytes : nat) (sys : ListSystem) (op : ListOp) : ListSystem :=
  let '(mkListSystem r conns) := sys in
  match op with
  | OpConnect c trust =>
      match conns !! c with
      | None => mkListSystem r (<[c := mkListConn trust None []]> conns)
      | Some _ => sys
      end
  | OpBegin c now rows incomplete =>
      match conns !! c with
      | None => sys
      | Some k =>
          let '(r, s) := begin_listing cfg (lk_trust k) now rows incomplete (lk_snapshot k) r in
          mkListSystem r (<[c := mkListConn (lk_trust k) s (lk_log k ++ [LgBegan rows])]> conns)
      end
  | OpPage c now uuid request_id cursor =>
      match conns !! c with
      | None => sys
      | Some k =>
          let '(r, s, res) :=
            listing_page cfg (lk_trust k) now uuid request_id cursor max_frame_bytes (lk_snapshot k) r in
          mkListSystem r (<[c := mkListConn (lk_trust k) s (lk_log k ++ [log_of res])]> conns)
      end
  | OpDisconnect c =>
      match conns !! c with
      | None => sys
      | Some k => mkListSystem (drop_listing (lk_snapshot k) r) (delete c conns)
      end
  end.

Definition list_run (cfg : ListingConfig) (max_frame_bytes : nat) (ops : list ListOp) : ListSystem :=
  foldl (list_op cfg max_frame_bytes) list_start ops.

(** The listing a connection is in: its rows, what was sent of it, and whether it was
    told that there is no more. *)
Definition traverse (st : option (list SessionListEntry * list SessionListEntry * bool)) (l : LogEntry) :=
  match l, st with
  | LgBegan rows, _ => Some (rows, [], false)
  | LgPaged sessions next, Some (rows, sent, _) => Some (rows, sent ++ sessions, bool_decide (next = None))
  | LgPaged _ _, None => None
  | LgFailed _, _ => st
  end.

Definition progress (log : list LogEntry) := foldl traverse None log.


(** ** Lemmas *)

Lemma fit_loop_spec message sessions max n m k :
  fit_loop message sessions max n = Ok (m, k) → n ≤ length sessions →
  k ≤ n ∧ m = message (take k sessions) ∧ (k = 0 → n = 0) ∧
  (∃ len, encoded_len m = Ok len ∧ len ≤ max) ∧
  (∀ j, k < j ≤ n → ∃ len, encoded_len (message (take j sessions)) = Ok len ∧ max < len).
Proof.
  induction n as [n IH] using lt_wf_ind. intros H Hn.
  assert (fit_loop message sessions max n = match encoded_len (message (take n sessions)) with
    | Err error => Err ("session list serialization failed: " +:+ error)
    | Ok len => if len <=? max then Ok (message (take n sessions), length (take n sessions))
        else match n with O | S O => Err (one_entry_too_large max) | S n' => fit_loop message sessions max n' end end) as Hu
    by (destruct n; done). rewrite Hu in H. clear Hu.
  destruct (encoded_len (message (take n sessions))) as [len|] eqn:El; [|done].
  destruct (Nat.leb_spec len max) as [Hle|Hgt].
  - rewrite length_take, Nat.min_l in H by done. injection H as <- <-. split_and!; [done..| |intros j Hj; lia]. eauto.
  - destruct n as [|[|n]]; [done..|]. destruct (IH (S n) ltac:(lia) H ltac:(lia)) as (Hk&Hm&H0&Hf&Hj).
    split_and!; [lia|done|lia|done|]. intros j Hjn. destruct (decide (j = S (S n))) as [->|]; [eauto|]. apply Hj. lia.
Qed.

Lemma fit_loop_total message sessions max n :
  (∀ j, j ≤ n → ∃ len, encoded_len (message (take j sessions)) = Ok len) →
  (∃ len, encoded_len (message (take (1 `min` n) sessions)) = Ok len ∧ len ≤ max) →
  ∃ m k, fit_loop message sessions max n = Ok (m, k).
Proof.
  intros Hok (len&Hl&Hle). induction n as [|n IH].
  - simpl in *. rewrite Hl. destruct (Nat.leb_spec len max); [eauto|lia].
  - simpl. destruct (Hok (S n) ltac:(lia)) as [len' Hl']. simpl in Hl'. rewrite Hl'.
    destruct (Nat.leb_spec len' max); [eauto|]. destruct n as [|n]; [simpl in Hl; rewrite Hl in Hl'; simplify_eq; lia|].
    apply IH; [|done]. intros j Hj. apply Hok. lia.
Qed.

(** What a page does: it fails and sends nothing, or sends the next rows. *)
Lemma listing_page_spec cfg trust now uuid rid cursor max snap r :
  1 ≤ lc_page_size cfg → (∀ s, snap = Some s → ls_offset s ≤ length (ls_rows s)) →
  let '(r', snap', res) := listing_page cfg trust now uuid rid cursor max snap r in
  (∃ e, res = Err e ∧ (snap' = None ∧ r' = drop_listing snap r ∨ snap' = snap ∧ r' = r)) ∨
  (∃ s sessions next k, snap = Some s ∧ lr_flags r !! ls_valid s = Some true ∧
     (∀ c, cursor = Some c → ls_expected_cursor s = Some c) ∧
     (∃ ws inc, res = Ok (SmSessionList rid ws sessions next inc)) ∧
     sessions = render_listing_rows (take k (drop (ls_offset s) (ls_rows s))) trust ∧
     ls_offset s + k ≤ length (ls_rows s) ∧ (ls_offset s < length (ls_rows s) → 0 < k) ∧
     match next with
     | None => ls_offset s + k = length (ls_rows s) ∧ snap' = None ∧ r' = drop_listing snap r
     | Some c => ls_offset s + k < length (ls_rows s) ∧ r' = r ∧ c = "v1_" +:+ uuid ∧
         snap' = Some (mkListing (ls_rows s) (ls_offset s + k) (Some c) (ls_expires_at s) (ls_incomplete s) (ls_valid s))
     end).
Proof.
  intros Hps Hoff. unfold listing_page. destruct snap as [s|]; [|left; exists InvalidCursor; auto].
  specialize (Hoff s eq_refl). destruct (negb _ || _ || _) eqn:Hbad; [left; exists InvalidCursor; auto|].
  apply orb_false_iff in Hbad as [[Hv Ht]%orb_false_iff Hc].
  set (end_ := _ `min` _). set (page := take _ _). unfold fit_session_list_to_frame. destruct (fit_loop _ _ _ _) as [[m k]|e] eqn:Hf;
    [|left; eexists; split; [done|by right]].
  apply fit_loop_spec in Hf as (Hk&->&H0&_&_); [|done]. unfold render_listing_rows in Hk, H0. rewrite length_map in Hk, H0.
  assert (length page = end_ - ls_offset s) as Hlp by (unfold page; rewrite length_take, length_drop; lia).
  assert (length (take k (render_listing_rows page trust)) = k) as Hlk
    by (unfold render_listing_rows; rewrite length_take, length_map; lia).
  assert (Hflag : lr_flags r !! ls_valid s = Some true) by (destruct (lr_flags r !! ls_valid s) as [[]|]; done).
  assert (Hcur : ∀ c, cursor = Some c → ls_expected_cursor s = Some c)
    by (intros c ->; simpl in Hc; by apply bool_decide_eq_false, dec_stable in Hc).
  assert (Hrows : take k (render_listing_rows page trust) = render_listing_rows (take k (drop (ls_offset s) (ls_rows s))) trust).
  { unfold render_listing_rows. rewrite firstn_map. f_equal. unfold page. rewrite take_take. f_equal. lia. }
  unfold list_message. rewrite Hlk. destruct (Nat.ltb_spec k (length (ls_rows s) - ls_offset s)); right.
  - exists s, (take k (render_listing_rows page trust)), (Some ("v1_" +:+ uuid)), k. split_and!; first [done|lia|eauto].
  - exists s, (take k (render_listing_rows page trust)), None, k. split_and!; first [done|lia|eauto].
Qed.



(** *** What a connection was sent *)

Definition conn_ok (k : ListConn) : Prop :=
  match lk_snapshot k with
  | Some s =>
      ls_offset s ≤ length (ls_rows s) ∧
      progress (lk_log k) = Some (ls_rows s, render_listing_rows (take (ls_offset s) (ls_rows s)) (lk_trust k), false)
  | None => ∀ rows sent fin, progress (lk_log k) = Some (rows, sent, fin) →
      sent `prefix_of` render_listing_rows rows (lk_trust k) ∧ (fin = true → sent = render_listing_rows rows (lk_trust k))
  end.

Lemma conn_ok_sent k rows sent fin :
  conn_ok k → progress (lk_log k) = Some (rows, sent, fin) →
  sent `prefix_of` render_listing_rows rows (lk_trust k) ∧ (fin = true → sent = render_listing_rows rows (lk_trust k)).
Proof.
  unfold conn_ok. destruct (lk_snapshot k) as [s|]; [|by auto]. intros [_ ->] [= <- <- <-]. split; [|done].
  unfold render_listing_rows. exists (map (render_row (lk_trust k)) (drop (ls_offset s) (ls_rows s))). by rewrite <- map_app, take_drop.
Qed.

Lemma progress_snoc log l : progress (log ++ [l]) = traverse (progress log) l.
Proof. unfold progress. by rewrite foldl_app. Qed.

Lemma conn_ok_page cfg now uuid rid cursor max k r :
  1 ≤ lc_page_size cfg → conn_ok k →
  let '(_, s, res) := listing_page cfg (lk_trust k) now uuid rid cursor max (lk_snapshot k) r in
  conn_ok (mkListConn (lk_trust k) s (lk_log k ++ [log_of res])).
Proof.
  intros Hps Hk. assert (∀ s, lk_snapshot k = Some s → ls_offset s ≤ length (ls_rows s)) as Hoff
    by (intros s Hs; unfold conn_ok in Hk; rewrite Hs in Hk; apply Hk).
  pose proof (listing_page_spec cfg (lk_trust k) now uuid rid cursor max (lk_snapshot k) r Hps Hoff) as Hp.
  destruct (listing_page _ _ _ _ _ _ _ _ _) as [[r' s'] res].
  destruct Hp as [(e&->&[[-> _]|[-> _]])|(s&sessions&next&n&Hs&_&_&(ws&inc&->)&->&Hn&_&Hnext)].
  - intros rows sent fin. simpl. rewrite progress_snoc. simpl. by apply conn_ok_sent.
  - unfold conn_ok in *. simpl. rewrite progress_snoc. by destruct k as [t [s|] log].
  - unfold conn_ok in Hk. rewrite Hs in Hk. destruct Hk as [_ Hk]. unfold conn_ok. simpl.
    assert (render_listing_rows (take (ls_offset s) (ls_rows s)) (lk_trust k) ++
        render_listing_rows (take n (drop (ls_offset s) (ls_rows s))) (lk_trust k) =
      render_listing_rows (take (ls_offset s + n) (ls_rows s)) (lk_trust k)) as Happ
      by (unfold render_listing_rows; by rewrite <- map_app, take_take_drop).
    destruct next as [c|].
    + destruct Hnext as (Hlt&_&_&->). simpl. split; [lia|]. rewrite progress_snoc, Hk. simpl. by rewrite Happ.
    + destruct Hnext as (Heq&->&_). rewrite progress_snoc, Hk. simpl. rewrite Happ, Heq, firstn_all. by intros rows sent fin [= <- <- <-].
Qed.

(** *** How many listings are kept *)

Lemma evict_excess_spec cap q flags :
  1 ≤ cap →
  let '(q', flags') := evict_excess cap q flags in
  (∃ gone, q = gone ++ q' ∧ ∀ h, flags' !! h = if decide (h ∈ gone) then (λ _, false) <$> flags !! h else flags !! h) ∧
  length q' < cap.
Proof.
  intros Hcap. revert flags. induction q as [|h q IH]; intros flags; simpl.
  - split; [|lia]. exists []. split; [done|]. intros h. by rewrite decide_False by set_solver.
  - destruct (Nat.leb_spec cap (S (length q))) as [Hle|Hgt].
    + specialize (IH (invalidate h flags)). destruct (evict_excess _ _ _) as [q' flags'].
      destruct IH as [(gone&->&Hf) Hl]. split; [|done]. exists (h :: gone). split; [done|]. intros j. rewrite Hf. unfold invalidate.
      destruct (decide (j = h)) as [->|Hne].
      * rewrite lookup_alter_eq, (decide_True (P := h ∈ h :: gone)) by set_solver. destruct (flags !! h); by case_decide.
      * rewrite lookup_alter_ne by done. repeat case_decide; try done; set_solver.
    + split; [|simpl; lia]. exists []. split; [done|]. intros j. by rewrite decide_False by set_solver.
Qed.

(** [hs] gives the snapshots that exist and the trust of their connections. *)
Record reg_ok (cap : nat) (r : ListingRegistry) (hs : gmap nat ConnectionTrust) : Prop := {
  ro_known h t : hs !! h = Some t → h < lr_next r ∧ (lr_flags r !! h = Some true → h ∈ registry_of t r);
  ro_queue t h : h ∈ registry_of t r → h < lr_next r ∧ ∀ t', hs !! h = Some t' → t' = t;
  ro_nodup t : NoDup (registry_of t r);
  ro_length t : length (registry_of t r) ≤ cap;
}.

Lemma registry_of_set t t' q r : registry_of t (set_registry t' q r) = if decide (t = t') then q else registry_of t r.
Proof. by destruct t, t'. Qed.

Lemma reg_ok_drop cap r hs h : reg_ok cap r hs → reg_ok cap (set_flags (delete h (lr_flags r)) r) (delete h hs).
Proof.
  intros [Hk Hq Hn Hl]. assert (∀ t, registry_of t (set_flags (delete h (lr_flags r)) r) = registry_of t r) as Hr by (by intros []).
  split; intros *; rewrite ?Hr; auto.
  - intros [Hne Ht]%lookup_delete_Some. simpl. rewrite lookup_delete_ne by done. by apply Hk.
  - intros Hin. split; [by eapply Hq|]. intros t' [_ Ht]%lookup_delete_Some. by eapply Hq.
Qed.

Lemma reg_ok_register cfg trust r hs :
  1 ≤ lc_global_capacity cfg → reg_ok (lc_global_capacity cfg) r hs →
  let '(r', h) := register_listing_snapshot cfg trust r in
  reg_ok (lc_global_capacity cfg) r' (<[h := trust]> hs) ∧ lr_next r ≤ h ∧ lr_flags r' !! h = Some true ∧
  ∀ j t, hs !! j = Some t → t ≠ trust → lr_flags r' !! j = lr_flags r !! j.
Proof.
  intros Hcap [Hk Hq Hn Hl]. unfold register_listing_snapshot. set (q0 := filter _ _).
  pose proof (evict_excess_spec (lc_global_capacity cfg) q0 (lr_flags r) Hcap) as He.
  destruct (evict_excess _ _ _) as [q flags]. destruct He as [(gone&Hq0&Hf) Hlen].
  assert (NoDup (gone ++ q)) as [_ [Hgq Hnq]]%NoDup_app by (rewrite <- Hq0; by apply NoDup_filter).
  assert (∀ h, h ∈ gone ++ q ↔ is_Some (lr_flags r !! h) ∧ h ∈ registry_of trust r) as Hin
    by (intros h; rewrite <- Hq0; unfold q0; by rewrite list_elem_of_filter).
  assert (lr_next r ∉ q) as Hfresh.
  { intros Hx. destruct (proj1 (Hin (lr_next r)) ltac:(set_solver)) as [_ Hr%Hq]. lia. }
  split_and!; [|done| |].
  - split; intros *; rewrite ?registry_of_set; simpl.
    + intros [[-> ->]|[Hne Ht]]%lookup_insert_Some.
      { split; [destruct t; simpl; lia|]. rewrite decide_True by done. set_solver. }
      destruct (Hk _ _ Ht) as [Hlt Hreg]. split; [destruct trust; simpl; lia|].
      destruct trust; simpl; rewrite lookup_insert_ne, Hf by done; (case_decide as Hg; [destruct (lr_flags r !! h); done|]);
        intros Hv; specialize (Hreg Hv); case_decide; [subst|by destruct t|subst|by destruct t];
        assert (h ∈ gone ++ q) by (apply Hin; split; [by eexists|done]); set_solver.
    + assert (lr_next r ∉ registry_of t r) as Hx by (intros [? _]%Hq; lia).
      intros Hh. assert (h ∈ q ++ [lr_next r] ∧ t = trust ∨ h ∈ registry_of t r ∧ t ≠ trust) as [[Ha ->]|[Ha Hne]]
        by (case_decide; [by left|right; by destruct t]).
      * apply elem_of_app in Ha as [Ha|Ha%list_elem_of_singleton].
        -- destruct (proj1 (Hin h) ltac:(set_solver)) as [_ [Hlt Ht]%Hq]. split; [destruct trust; simpl; lia|].
           intros t'. rewrite lookup_insert_ne by lia. apply Ht.
        -- subst. split; [destruct trust; simpl; lia|]. intros t'. rewrite lookup_insert_eq. by intros [= ->].
      * destruct (Hq _ _ Ha) as [Hlt Ht]. split; [destruct trust; simpl; lia|]. intros t'. rewrite lookup_insert_ne by lia. apply Ht.
    + case_decide; [|by destruct t; [apply (Hn LocalOwner)|apply (Hn RemotePaired)]]. apply NoDup_app. split_and!; [done|set_solver|apply NoDup_singleton].
    + case_decide; [|by destruct t; [apply (Hl LocalOwner)|apply (Hl RemotePaired)]]. rewrite length_app. simpl. lia.
  - destruct trust; simpl; by rewrite lookup_insert_eq.
  - intros j t Hj Hne. destruct (Hk _ _ Hj) as [Hlt _].
    assert (lr_flags (set_registry trust (q ++ [lr_next r])
      (mkListingRegistry (<[lr_next r := true]> flags) (lr_local r) (lr_remote r) (S (lr_next r)))) = <[lr_next r := true]> flags)
      as -> by (by destruct trust).
    rewrite lookup_insert_ne, Hf by lia. case_decide as Hg; [|done].
    destruct (proj1 (Hin j) ltac:(set_solver)) as [_ [_ Ht]%Hq]. by destruct (Hne (Ht _ Hj)).
Qed.

(** Connection [c] of trust [t] pages through the snapshot with flag [h]. *)
Definition lists (conns : gmap nat ListConn) (c : nat) (t : ConnectionTrust) (h : nat) : Prop :=
  ∃ k s, conns !! c = Some k ∧ lk_snapshot k = Some s ∧ lk_trust k = t ∧ ls_valid s = h.

Definition owned (cap : nat) (r : ListingRegistry) (P : nat → ConnectionTrust → nat → Prop) : Prop :=
  ∃ hs, reg_ok cap r hs ∧ (∀ c t h, P c t h → hs !! h = Some t) ∧ (∀ c c' t t' h, P c t h → P c' t' h → c = c').

Lemma owned_weaken cap r (P Q : nat → ConnectionTrust → nat → Prop) :
  owned cap r P → (∀ c t h, Q c t h → P c t h) → owned cap r Q.
Proof. intros (hs&Hr&Hh&Hi) HQ. exists hs. split_and!; eauto. Qed.

Lemma owned_drop cap r (P Q : nat → ConnectionTrust → nat → Prop) (s : option ConnectionListingSnapshot) :
  owned cap r P → (∀ c t h, Q c t h → P c t h ∧ ∀ x, s = Some x → h ≠ ls_valid x) → owned cap (drop_listing s r) Q.
Proof.
  intros (hs&Hr&Hh&Hi) HQ. destruct s as [s|]; simpl.
  - exists (delete (ls_valid s) hs). split_and!; [by apply reg_ok_drop| |].
    + intros c t h [HP Hne]%HQ. rewrite lookup_delete_ne; [eauto|]. specialize (Hne s eq_refl). congruence.
    + intros c c' t t' h [? _]%HQ [? _]%HQ. eauto.
  - exists hs. split_and!; [done|intros c t h [? _]%HQ; eauto|]. intros c c' t t' h [? _]%HQ [? _]%HQ. eauto.
Qed.

Lemma lists_insert conns c k c' t h :
  lists (<[c := k]> conns) c' t h ↔
  (c' = c ∧ ∃ s, lk_snapshot k = Some s ∧ lk_trust k = t ∧ ls_valid s = h) ∨ (c' ≠ c ∧ lists conns c' t h).
Proof.
  unfold lists. destruct (decide (c' = c)) as [->|Hne].
  - rewrite lookup_insert_eq. naive_solver.
  - rewrite lookup_insert_ne by done. naive_solver.
Qed.

Definition list_ok (cfg : ListingConfig) (sys : ListSystem) : Prop :=
  (∀ c k, lsy_conns sys !! c = Some k → conn_ok k) ∧
  owned (lc_global_capacity cfg) (lsy_registry sys) (lists (lsy_conns sys)).

(** The snapshot of another connection is not the one [k] has. *)
Lemma lists_ne cap r conns c c' k t h s :
  owned cap r (lists conns) → conns !! c = Some k → lk_snapshot k = Some s → c' ≠ c → lists conns c' t h → h ≠ ls_valid s.
Proof. intros (hs&_&_&Hi) Hc Hs Hne HP ->. apply Hne. eapply Hi; [exact HP|]. by exists k, s. Qed.

Lemma owned_begin cfg r conns c k now rows incomplete log :
  1 ≤ lc_global_capacity cfg → owned (lc_global_capacity cfg) r (lists conns) → conns !! c = Some k →
  let '(r', s) := begin_listing cfg (lk_trust k) now rows incomplete (lk_snapshot k) r in
  owned (lc_global_capacity cfg) r' (lists (<[c := mkListConn (lk_trust k) s log]> conns)) ∧
  ∀ c' t h, lists conns c' t h → c' ≠ c → t ≠ lk_trust k → lr_flags r' !! h = lr_flags r !! h.
Proof.
  intros Hcap Hown Hc. pose proof Hown as (hs&Hr&Hh&Hi). unfold begin_listing.
  pose proof (reg_ok_register cfg (lk_trust k) r hs Hcap Hr) as Hreg.
  destruct (register_listing_snapshot _ _ _) as [r' v]. destruct Hreg as (Hr'&Hv&_&Hflags).
  assert (∀ c' t h, lists conns c' t h → h ≠ v) as Hfresh by (intros c' t h HP ->; destruct (ro_known _ _ _ Hr v t (Hh _ _ _ HP)); lia).
  assert (∀ c' t h x, lists conns c' t h → c' ≠ c → lk_snapshot k = Some x → h ≠ ls_valid x) as Hold
    by (intros; by eapply lists_ne).
  split.
  - apply (owned_drop _ _ (λ c' t h, lists conns c' t h ∨ (c' = c ∧ t = lk_trust k ∧ h = v))).
    + exists (<[v := lk_trust k]> hs). split_and!; [done| |].
      * intros c' t h [HP|(->&->&->)]; [|by rewrite lookup_insert_eq]. rewrite lookup_insert_ne; [eauto|]. by apply not_eq_sym, (Hfresh _ _ _ HP).
      * intros c1 c2 t1 t2 h [H1|(->&->&->)] [H2|(->&->&?)]; subst; eauto; exfalso; by eapply Hfresh.
    + intros c' t h [(->&x&[= <-]&<-&<-)|[Hne HP]]%lists_insert; simpl.
      * split; [by right|]. intros x Hx Heq. apply (Hfresh c (lk_trust k) v); [|done]. by exists k, x.
      * split; [by left|]. eauto.
  - intros c' t h HP Hne Ht. destruct (lk_snapshot k) as [x|]; simpl; [rewrite lookup_delete_ne by (apply not_eq_sym; eauto)|]; eauto.
Qed.

Lemma owned_page cfg r conns c k now uuid rid cursor max log :
  1 ≤ lc_page_size cfg → owned (lc_global_capacity cfg) r (lists conns) → conns !! c = Some k → conn_ok k →
  let '(r', s, _) := listing_page cfg (lk_trust k) now uuid rid cursor max (lk_snapshot k) r in
  owned (lc_global_capacity cfg) r' (lists (<[c := mkListConn (lk_trust k) s log]> conns)) ∧
  ∀ c' t h, lists conns c' t h → c' ≠ c → lr_flags r' !! h = lr_flags r !! h.
Proof.
  intros Hps Hown Hc Hk. assert (∀ s, lk_snapshot k = Some s → ls_offset s ≤ length (ls_rows s)) as Hoff
    by (intros s Hs; unfold conn_ok in Hk; rewrite Hs in Hk; apply Hk).
  pose proof (listing_page_spec cfg (lk_trust k) now uuid rid cursor max (lk_snapshot k) r Hps Hoff) as Hp.
  destruct (listing_page _ _ _ _ _ _ _ _ _) as [[r' s'] res].
  assert ((s' = None ∧ r' = drop_listing (lk_snapshot k) r) ∨
    (r' = r ∧ ∀ x, s' = Some x → ∃ y, lk_snapshot k = Some y ∧ ls_valid y = ls_valid x)) as [[-> ->]|[-> Hs]].
  { destruct Hp as [(e&_&[?|[-> ->]])|(s&sessions&[next|]&n&Hs&_&_&_&_&_&_&Hnext)]; [by left|right; eauto| |left; naive_solver].
    right. destruct Hnext as (_&->&_&->). split; [done|]. intros x [= <-]. by exists s. }
  - split.
    + apply (owned_drop _ _ (lists conns)); [done|]. intros c' t h [(->&x&?&_)|[Hne HP]]%lists_insert; [done|].
      split; [done|]. intros x Hx. by eapply lists_ne.
    + intros c' t h HP Hne. destruct (lk_snapshot k) as [x|] eqn:Hx; simpl; [|done].
      rewrite lookup_delete_ne; [done|]. apply not_eq_sym. by eapply lists_ne.
  - split; [|done]. eapply owned_weaken; [done|]. intros c' t h [(->&x&Hx&<-&<-)|[Hne HP]]%lists_insert; [|done].
    simpl in Hx. destruct (Hs x Hx) as (y&Hy&Hv). by exists k, y.
Qed.

Lemma list_op_ok cfg max sys op :
  1 ≤ lc_page_size cfg → 1 ≤ lc_global_capacity cfg → list_ok cfg sys → list_ok cfg (list_op cfg max sys op).
Proof.
  intros Hps Hcap [Hcs Hown]. destruct sys as [r conns]. simpl in *.
  assert (∀ c k r', owned (lc_global_capacity cfg) r' (lists (<[c := k]> conns)) → conn_ok k → list_ok cfg (mkListSystem r' (<[c := k]> conns))) as Hput.
  { intros c k r' Ho Hk. split; [|done]. simpl. intros c' k' [[<- <-]|[_ ?]]%lookup_insert_Some; eauto. }
  destruct op as [c trust|c now rows incomplete|c now uuid rid cursor|c]; simpl; destruct (conns !! c) as [k|] eqn:Hc; try by split.
  - apply Hput; [|by intros rows sent fin]. eapply owned_weaken; [done|]. intros c' t h [(_&x&?&_)|[_ ?]]%lists_insert; done.
  - pose proof (owned_begin cfg r conns c k now rows incomplete (lk_log k ++ [LgBegan rows]) Hcap Hown Hc) as Hb.
    unfold begin_listing in *. destruct (register_listing_snapshot _ _ _) as [r' v]. apply Hput; [by destruct Hb|].
    split; simpl; [lia|]. by rewrite progress_snoc.
  - pose proof (owned_page cfg r conns c k now uuid rid cursor max) as Hp. pose proof (conn_ok_page cfg now uuid rid cursor max k r Hps (Hcs _ _ Hc)) as Hk.
    destruct (listing_page _ _ _ _ _ _ _ _ _) as [[r' s'] res]. apply Hput; [|done]. by destruct (Hp (lk_log k ++ [log_of res]) Hps Hown Hc (Hcs _ _ Hc)).
  - split; simpl; [intros c' k' [_ ?]%lookup_delete_Some; eauto|]. apply (owned_drop _ _ (lists conns)); [done|].
    intros c' t h (k'&s&[Hne Hk']%lookup_delete_Some&Hs). split; [by exists k', s|]. intros x Hx. eapply lists_ne; [exact Hown|exact Hc|exact Hx|by apply not_eq_sym|by exists k', s].
Qed.

Lemma list_run_ok cfg max ops :
  1 ≤ lc_page_size cfg → 1 ≤ lc_global_capacity cfg → list_ok cfg (list_run cfg max ops).
Proof.
  intros Hps Hcap. unfold list_run. assert (list_ok cfg list_start) as H.
  { split; [done|]. exists ∅. split_and!; [split; [done|..]|by intros c t h (k&s&?&_)|by intros c c' t t' h (k&s&?&_)].
    - intros [] h; simpl; set_solver.
    - intros []; apply NoDup_nil_2.
    - intros []; simpl; lia. }
  revert H. generalize list_start. induction ops as [|op ops IH]; intros sys H; [done|]. simpl. by apply IH, list_op_ok.
Qed.

Lemma valid_handles cap sys trust cs :
  owned cap (lsy_registry sys) (lists (lsy_conns sys)) → NoDup cs →
  (∀ c, c ∈ cs → ∃ h, lists (lsy_conns sys) c trust h ∧ lr_flags (lsy_registry sys) !! h = Some true) →
  ∃ l, length l = length cs ∧ NoDup l ∧ ∀ h, h ∈ l → ∃ c, lists (lsy_conns sys) c trust h ∧ lr_flags (lsy_registry sys) !! h = Some true.
Proof.
  intros (hs&_&_&Hi) Hcs Hval.
  assert (∃ l, length l = length cs ∧ NoDup l ∧ ∀ h, h ∈ l → ∃ c, c ∈ cs ∧ lists (lsy_conns sys) c trust h ∧ lr_flags (lsy_registry sys) !! h = Some true)
    as (l&?&?&Hl); [|exists l; naive_solver].
  induction Hcs as [|c cs Hc Hcs IH]; [exists []; split_and!; [done|constructor|set_solver]|].
  destruct IH as (l&Hl&Hn&Hin); [set_solver|]. destruct (Hval c ltac:(set_solver)) as (h&HP&Hf). exists (h :: l). split_and!.
  - simpl. by rewrite Hl.
  - constructor; [|done]. intros (c'&Hc'&HP'&_)%Hin. by rewrite (Hi _ _ _ _ _ HP HP') in Hc.
  - intros h' [->|(c'&?&?)%Hin]%elem_of_cons; [exists c|exists c']; set_solver.
Qed.

(** *** The rows *)

Lemma row_leb_total a b : row_leb a b = true ∨ row_leb b a = true.
Proof.
  unfold row_leb. rewrite (Z.compare_antisym (updated b) (updated a)).
  destruct (updated b ?= updated a)%Z; simpl; [apply str_leb_total|by left|by right].
Qed.

Lemma row_leb_spec a b :
  row_leb a b = true ↔
  (updated b < updated a)%Z ∨ (updated b = updated a ∧ str_leb (le_session_id a) (le_session_id b) = true).
Proof. unfold row_leb. destruct (Z.compare_spec (updated b) (updated a)); naive_solver lia. Qed.

Lemma row_leb_trans a b c : row_leb a b = true → row_leb b c = true → row_leb a c = true.
Proof.
  rewrite !row_leb_spec. intros [?|[? Ha]] [?|[? Hb]]; [left; lia..|right].
  split; [lia|]. by eapply str_leb_trans.
Qed.

Lemma put_rows_lookup rows : ∀ m id row,
  NoDup (map le_session_id rows) →
  (foldl put_row m rows) !! id = Some row ↔
  ((row ∈ rows ∧ le_session_id row = id) ∨ ((id ∉ map le_session_id rows) ∧ m !! id = Some row)).
Proof.
  induction rows as [|r rows IH]; intros m id row Hn; simpl in *.
  - split; [intros ?; right; by split; [apply not_elem_of_nil|]|intros [[Hin _]|[_ ?]]; [by apply not_elem_of_nil in Hin|done]].
  - inv Hn. rewrite IH by done. unfold put_row. rewrite !not_elem_of_cons, !elem_of_cons, lookup_insert_Some.
    assert (row ∈ rows → le_session_id row ∈ map le_session_id rows) by (intros; by apply list_elem_of_fmap_2).
    naive_solver.
Qed.

(** Rows keyed by identity. *)
Definition keyed (m : gmap string SessionListEntry) : Prop := ∀ id row, m !! id = Some row → le_session_id row = id.

Lemma put_rows_keyed rows : ∀ m, keyed m → keyed (foldl put_row m rows).
Proof.
  induction rows as [|r rows IH]; intros m Hm; [done|]. simpl. apply IH. unfold put_row. intros id row [[<- <-]|[_ ?]]%lookup_insert_Some; auto.
Qed.

Lemma keyed_nodup m : keyed m → NoDup (map le_session_id (map snd (map_to_list m))).
Proof.
  intros Hm. rewrite map_map. erewrite map_ext_in; [apply (NoDup_fst_map_to_list m)|].
  intros [id row] Hin%list_elem_of_In%elem_of_map_to_list. simpl. by apply Hm.
Qed.

(** ** Theorems *)

(** the session list has every session once: its rows are the active sessions and
    the stored ones that are not active, each identity once, newest first and then by
    identity; it fails exactly when there are more than the configured number. *)
Theorem listing_rows_spec (cfg : ListingConfig) (durable : list SessionListEntry) (incomplete : bool)
    (active : list ActiveSession)
    (Hdurable : NoDup (map le_session_id durable)) (Hactive : NoDup (map as_session_id active)) :
  let expected := λ row, row ∈ map (active_entry cfg) active ∨
                         (row ∈ durable ∧ (le_session_id row ∉ map as_session_id active)) in
  ∃ rows, NoDup (map le_session_id rows) ∧ (∀ row, row ∈ rows ↔ expected row) ∧
    StronglySorted (λ a b, row_leb a b = true) rows ∧
    listing_rows cfg (durable, incomplete) active =
      if lc_snapshot_entries cfg <? length rows then Err CapacityExceeded else Ok (rows, incomplete).
Proof.
  intros expected. unfold listing_rows. set (m := foldl put_row _ (map _ active)).
  exists (sort_by row_leb (map snd (map_to_list m))).
  assert (map le_session_id (map (active_entry cfg) active) = map as_session_id active) as Hids.
  { rewrite map_map. apply map_ext. intros a. unfold active_entry. by destruct (as_history a). }
  assert (keyed m) as Hkey by (unfold m; by apply put_rows_keyed, put_rows_keyed).
  assert (∀ row, m !! le_session_id row = Some row ↔ expected row) as Hm.
  { intros row. unfold m. rewrite put_rows_lookup, put_rows_lookup by (rewrite ?Hids; done). rewrite Hids, lookup_empty. unfold expected. naive_solver. }
  split_and!; [| | |done].
  - rewrite (sort_by_perm row_leb). by apply keyed_nodup.
  - intros row. rewrite <- Hm, sort_by_perm, list_elem_of_fmap. split.
    + intros ([id r]&->&Hr%elem_of_map_to_list). simpl. by rewrite (Hkey _ _ Hr).
    + intros Hr. exists (le_session_id row, row). split; [done|]. by apply elem_of_map_to_list.
  - apply sort_by_sorted; [apply row_leb_total|apply row_leb_trans].
Qed.

(** a page is as full as the frame allows: fitting keeps the longest prefix of the
    page whose message is within the frame, says whether there is more, and fails only
    when encoding fails or not even one session fits. *)
Theorem fit_session_list_is_longest (request_id : string) (workspace : option SessionWorkspace)
    (sessions : list SessionListEntry) (remaining : nat) (cursor : string) (max : nat) (incomplete : bool)
    (Hencodes : ∀ m, ∃ len, encoded_len m = Ok len) :
  let message k := list_message request_id workspace remaining cursor incomplete (take k sessions) in
  let fits k := ∃ len, encoded_len (message k) = Ok len ∧ len ≤ max in
  match fit_session_list_to_frame request_id workspace sessions remaining cursor max incomplete with
  | Ok (m, k) => k ≤ length sessions ∧ m = message k ∧ fits k ∧ (k = 0 → sessions = []) ∧
      ∀ j, k < j ≤ length sessions → ¬ fits j
  | Err e => e = one_entry_too_large max ∧ ¬ fits (1 `min` length sessions)
  end.
Proof.
  intros message fits. unfold fit_session_list_to_frame.
  destruct (fit_loop _ _ _ _) as [[m k]|e] eqn:Hf.
  - apply fit_loop_spec in Hf as (Hk&->&H0&Hfit&Hj); [|done]. split_and!; [done..|intros ?; by apply length_zero_iff_nil, H0|].
    intros j Hj' (len&Hl&Hle). destruct (Hj j Hj') as (len'&Hl'&Hgt). unfold message in Hl. rewrite Hl in Hl'. simplify_eq. lia.
  - split.
    + revert Hf. induction (length sessions) as [|n IH]; simpl; destruct (Hencodes (message 0)) as [l0 H0];
        (edestruct Hencodes as [l Hl]; rewrite Hl); destruct (l <=? max); try done; [by intros [= <-]|].
      destruct n; [by intros [= <-]|done].
    + intros Hfit. destruct (fit_loop_total (list_message request_id workspace remaining cursor incomplete) sessions max (length sessions))
        as (m&k&Hok); [by intros|done|congruence].
Qed.

(** C23: the pages of a listing are its rows: in every interleaving of connections that
    list, page, repeat or forge cursors and disconnect, what a connection was sent since
    its listing began is a prefix of the rows as it may see them, without gap or
    repetition, and it is all of them when it was told that there is no more. *)
Theorem pages_are_the_listing (cfg : ListingConfig) (max : nat) (ops : list ListOp) (c : nat) (k : ListConn)
    (rows sent : list SessionListEntry) (finished : bool)
    (Hsize : 1 ≤ lc_page_size cfg) (Hcap : 1 ≤ lc_global_capacity cfg)
    (Hconn : lsy_conns (list_run cfg max ops) !! c = Some k)
    (Hlog : progress (lk_log k) = Some (rows, sent, finished)) :
  sent `prefix_of` render_listing_rows rows (lk_trust k) ∧
  (finished = true → sent = render_listing_rows rows (lk_trust k)).
Proof. destruct (list_run_ok cfg max ops Hsize Hcap) as [Hc _]. by eapply conn_ok_sent; [apply (Hc c)|]. Qed.


(** listings are bounded and do not disturb each other across trust: of each kind of
    connection at most the configured number hold a valid listing, and whatever a
    connection does leaves the listings of connections of the other kind as they are. *)
Theorem listings_bounded_and_isolated (cfg : ListingConfig) (max : nat) (ops : list ListOp)
    (Hsize : 1 ≤ lc_page_size cfg) (Hcap : 1 ≤ lc_global_capacity cfg) :
  let sys := list_run cfg max ops in
  (∀ trust cs, NoDup cs →
     (∀ c, c ∈ cs → ∃ h, lists (lsy_conns sys) c trust h ∧ lr_flags (lsy_registry sys) !! h = Some true) →
     length cs ≤ lc_global_capacity cfg) ∧
  (∀ op c k c' trust h,
     (∃ now rows incomplete, op = OpBegin c now rows incomplete) ∨
     (∃ now uuid rid cursor, op = OpPage c now uuid rid cursor) ∨ op = OpDisconnect c →
     lsy_conns sys !! c = Some k → lists (lsy_conns sys) c' trust h → trust ≠ lk_trust k →
     lr_flags (lsy_registry (list_op cfg max sys op)) !! h = lr_flags (lsy_registry sys) !! h).
Proof.
  intros sys. destruct (list_run_ok cfg max ops Hsize Hcap) as [Hc Hown]. fold sys in Hc, Hown. split.
  - intros trust cs Hcs Hval. destruct (valid_handles _ _ _ cs Hown Hcs Hval) as (l&<-&Hn&Hin).
    destruct Hown as (hs&[Hk _ _ Hl]&Hh&_). etrans; [|apply (Hl trust)]. apply submseteq_length, NoDup_submseteq; [done|].
    intros h (c&HP&Hf)%Hin. by eapply Hk; [eapply Hh|].
  - intros op c k c' trust h Hop Hk HP Ht. assert (c' ≠ c) as Hne by (intros ->; destruct HP as (?&?&?&_&<-&_); by simplify_eq).
    destruct sys as [r conns]. simpl in *. destruct Hop as [(now&rows&inc&->)|[(now&uuid&rid&cursor&->)| ->]]; simpl; rewrite Hk.
    + pose proof (owned_begin cfg r conns c k now rows inc [] Hcap Hown Hk) as Hb. unfold begin_listing in *.
      destruct (register_listing_snapshot _ _ _) as [r' v]. destruct Hb as [_ Hb]. by eapply Hb.
    + pose proof (owned_page cfg r conns c k now uuid rid cursor max [] Hsize Hown Hk (Hc c k Hk)) as Hp.
      destruct (listing_page _ _ _ _ _ _ _ _ _) as [[r' s'] res]. destruct Hp as [_ Hp]. by eapply Hp.
    + destruct (lk_snapshot k) as [x|] eqn:Hx; simpl; [|done]. rewrite lookup_delete_ne; [done|]. apply not_eq_sym. by eapply lists_ne.
Qed.

End fitting.

(** ** Witnesses *)

(** Pages of two, listings of five rows, two listings of each kind; a message takes ten
    bytes and ten for each session. *)
Definition demo_config : ListingConfig := mkListingConfig 2 80 5 60 None 2.

Definition demo_len (m : ServerMessage) : result nat string :=
  match m with SmSessionList _ _ sessions _ _ => Ok (10 + 10 * length sessions) | _ => Ok 5 end.

Definition demo_row (id : string) (at_ms : Z) : SessionListEntry :=
  mkListEntry id false 0 (Some "m") (Some at_ms) None (Some 3) None.

Definition demo_active : ActiveSession := mkActiveSession "b" 1 [] TurnIdle None "m" 9.

Definition demo_rows : list SessionListEntry := [demo_row "a" 3; demo_row "b" 2; demo_row "c" 1].

Lemma listing_rows_spec_witness :
  ∃ rows, NoDup (map le_session_id rows) ∧
    listing_rows demo_config (demo_rows, false) [demo_active] = Ok (rows, false) ∧
    map le_session_id rows = ["b"; "a"; "c"].
Proof.
  destruct (listing_rows_spec demo_config demo_rows false [demo_active]) as (rows&Hn&_&_&Heq).
  - apply (bool_decide_unpack _). vm_compute. done.
  - apply (bool_decide_unpack _). vm_compute. done.
  - assert (∃ l, listing_rows demo_config (demo_rows, false) [demo_active] = Ok (l, false) ∧ map le_session_id l = ["b"; "a"; "c"])
      as (l&Hl&Hids) by (eexists; split; vm_compute; reflexivity).
    exists rows. rewrite Hl in Heq |- *. destruct (_ <? _); [done|]. injection Heq as ->. done.
Defined.

Lemma fit_session_list_is_longest_witness :
  ∃ m, fit_session_list_to_frame demo_len "r" None demo_rows 3 "v1_x" 35 false = Ok (m, 2) ∧
    ∀ j, 2 < j ≤ 3 → ¬ ∃ len, demo_len (list_message "r" None 3 "v1_x" false (take j demo_rows)) = Ok len ∧ len ≤ 35.
Proof.
  pose proof (fit_session_list_is_longest demo_len "r" None demo_rows 3 "v1_x" 35 false) as H.
  assert (∃ m, fit_session_list_to_frame demo_len "r" None demo_rows 3 "v1_x" 35 false = Ok (m, 2)) as [m Hm]
    by (eexists; vm_compute; reflexivity).
  exists m. split; [exact Hm|]. rewrite Hm in H. destruct H as (_&_&_&_&H); [|exact H].
  intros m'. unfold demo_len. destruct m'; eauto.
Defined.

(** A local and a remote connection page through their listings at the same time. *)
Definition demo_ops : list ListOp :=
  [OpConnect 1 LocalOwner; OpConnect 2 RemotePaired; OpBegin 1 0 demo_rows false; OpPage 1 1 "x" "r" None;
   OpBegin 2 1 demo_rows false; OpPage 2 2 "y" "r" None; OpPage 1 3 "z" "r" (Some "v1_x"); OpPage 2 4 "w" "r" (Some "v1_x")].

Lemma pages_are_the_listing_witness :
  ∃ k, lsy_conns (list_run demo_len demo_config 100 demo_ops) !! 1 = Some k ∧
    progress (lk_log k) = Some (demo_rows, demo_rows, true) ∧ demo_rows = render_listing_rows demo_rows (lk_trust k).
Proof.
  eexists. split; [vm_compute; reflexivity|]. split; [vm_compute; reflexivity|].
  eapply (pages_are_the_listing demo_len demo_config 100 demo_ops 1); [simpl; lia..|vm_compute; reflexivity|vm_compute; reflexivity|done].
Defined.


Lemma listings_bounded_and_isolated_witness :
  let sys := list_run demo_len demo_config 100 (take 6 demo_ops) in
  ∃ h, lists (lsy_conns sys) 1 LocalOwner h ∧
    lr_flags (lsy_registry (list_op demo_len demo_config 100 sys (OpBegin 2 5 demo_rows true))) !! h = Some true.
Proof.
  intros sys. exists 0.
  assert (lists (lsy_conns sys) 1 LocalOwner 0) as HP by (eexists _, _; split_and!; vm_compute; reflexivity).
  split; [exact HP|].
  assert (∃ k, lsy_conns sys !! 2 = Some k ∧ lk_trust k = RemotePaired) as (k&Hk&Ht)
    by (eexists; split; vm_compute; reflexivity).
  destruct (listings_bounded_and_isolated demo_len demo_config 100 (take 6 demo_ops)) as [_ Hiso]; [simpl; lia..|].
  etrans; [eapply (Hiso (OpBegin 2 5 demo_rows true) 2 k 1 LocalOwner 0); [left; eauto|exact Hk|exact HP|rewrite Ht; discriminate]|].
  vm_compute. reflexivity.
Defined.
