(* ===== verification/Serve.v ===== *)
(** * Serving a client

    What [serve_client_with_policy] ([session_daemon.rs]) does for one admitted client:
    the reply to the handshake, the answer to every message of the client, and the
    stream of events.  Each message has its handler; what a handler asks of the session
    (cancel, stop, clear, configuration, approvals, usage, listing) is an effect whose
    outcome is an argument.

    The stream is a step machine.  An event is dispatched under the router's dispatch
    lock: the daemon's snapshot and the queue of the connection get it one after the
    other, in either order ([handlers] is a hash map); a full queue drops the event and
    then raises the lag flag.  The connection takes messages of the client, queued
    messages and notices in any order and sends one message at a time.  The JSON frame
    and the transport are outside: a send succeeds or fails. *)

From stdpp Require Import base numbers list strings gmap.
From S2P Require Import Prelude RustStr Protocol Router Approvals Views Client Registry Listing.

(** ** Errors and keys *)

Inductive RuntimeConfigError :=
  | RcBusy | RcUnknownOption | RcInvalidValue | RcUnsupportedOption | RcApplyFailed (detail : string).

Inductive HistoryMutationError := HmBusy.

Inductive SessionPromptError :=
  | PeBusy | PeStopped | PeDuplicateRequest (request_id : string) | PePrompt (message : string)
  | PeModel (message : string).

Definition request_id (message : ClientMessage) : option string :=
  match message with
  | CmPrompt request_id _ => Some request_id
  | CmInterrupt request_id => request_id
  | CmStopSession request_id => Some request_id
  | CmClearHistory request_id => Some request_id
  | CmGetUsage request_id => Some request_id
  | CmListSessions request_id _ => Some request_id
  | CmSetConfig request_id _ _ => request_id
  | CmAttach _ _ _ _ _ | CmResume _ _ _ _ _ _ | CmApprovalResponse _ _ | CmSyncRequest _
  | CmPing | CmDetach => None
  end.

Definition session_daemon_error_message (error : SessionDaemonError) : string :=
  match error with
  | DeDuplicateSession _ => "session is already active"
  | DeSessionLimitReached _ => "session limit reached"
  | DeSessionNotFound _ => "session was not found"
  | DeSessionStopped _ => "session has stopped"
  | DeDuplicateClient _ => "client is already attached"
  | DeClientLimitReached _ => "client limit reached"
  | DeEventSubscription _ => "session event subscription failed"
  | DeFactoryUnavailable => "session creation is unavailable"
  | DeOpenFailed _ => "session could not be opened"
  | DeShuttingDown => "session daemon is shutting down"
  end.

Definition session_daemon_error_code (error : SessionDaemonError) : AttachDeniedCode :=
  match error with
  | DeDuplicateSession _ => DeniedSessionAlreadyActive
  | DeSessionLimitReached _ => DeniedSessionLimitReached
  | DeSessionNotFound _ => DeniedSessionNotFound
  | DeSessionStopped _ => DeniedSessionStopped
  | DeDuplicateClient _ => DeniedDuplicateClient
  | DeClientLimitReached _ => DeniedClientLimitReached
  | DeEventSubscription _ => DeniedEventSubscriptionFailed
  | DeFactoryUnavailable => DeniedFactoryUnavailable
  | DeOpenFailed _ => DeniedSessionOpenFailed
  | DeShuttingDown => DeniedDaemonShuttingDown
  end.

(** [format!("{}:{client_id}{request_id}", client_id.len())]. *)
Definition client_request_key (client_id request_id : string) : string :=
  u64_to_string (Z.of_nat (String.length client_id)) +:+ ":" +:+ client_id +:+ request_id.

Definition prompt_error (error : SessionPromptError) : string * string :=
  match error with
  | PeBusy => ("session_busy", "a prompt is already running")
  | PeStopped => ("session_stopped", "the session has stopped")
  | PeDuplicateRequest request_id =>
      ("duplicate_request", "request '" +:+ request_id +:+ "' has already completed")
  | PePrompt message => ("invalid_prompt", message)
  | PeModel message => ("model_error", message)
  end.

Definition quote_mark : string := String (Ascii.ascii_of_nat 34) "".

(** [format!("{error:?}")]. *)
Definition validation_debug (error : ProtocolValidationError) : string :=
  match error with
  | FieldTooLarge field max_bytes =>
      "FieldTooLarge { field: " +:+ quote_mark +:+ field +:+ quote_mark +:+ ", max_bytes: "
        +:+ u64_to_string (Z.of_nat max_bytes) +:+ " }"
  | TooManyCapabilities max => "TooManyCapabilities { max: " +:+ u64_to_string (Z.of_nat max) +:+ " }"
  end.

(** ** Handlers *)

Inductive Effect :=
  | Send (message : ServerMessage)
  | SpawnPrompt (request_id text key : string)
  | CancelTurn
  | StopSession
  | ClearHistory
  | ReadUsage
  | ResolveApproval (approval_id client_id : string) (capabilities : list ClientCapability) (decision : ApprovalDecision)
  | ApplyOption (config_id : string) (value : RuntimeValue)
  | ListPage (cursor : option string).

(** What the session answers to the effects of a message. *)
Record Answers := mkAnswers {
  an_completed : bool;
  an_cancelled : bool;
  an_stopped : result bool string;
  an_cleared : result bool HistoryMutationError;
  an_turn_active : bool;
  an_usage : SessionUsage;
  an_resolved : result ApprovalResolution ApprovalError;
  an_applied : result unit RuntimeConfigError;
  an_page : result ServerMessage SessionListPageError;
}.

Section handlers.
Context (limits : ProtocolLimits) (client : string) (caps : list ClientCapability).

Definition error (rid : option string) (code message : string) : Effect := Send (SmError rid code message).

(** [validate_client_message] fails: the message is answered with an error. *)
Definition validated (m : ClientMessage) (k : list Effect) : list Effect :=
  match validate_client_message limits m with
  | Err e => [error (request_id m) "invalid_message" (validation_debug e)]
  | Ok _ => k
  end.

Definition permitted (c : ClientCapability) (denial : string) (m : ClientMessage) (k : list Effect) : list Effect :=
  if has_capability caps c then k else [error (request_id m) "capability_denied" denial].

Definition handle_prompt (m : ClientMessage) (rid text : string) (completed in_flight : bool) : list Effect :=
  validated m (permitted CapPrompt "prompt capability was not granted" m
    (if completed then [error (Some rid) "duplicate_request" "request has already completed"]
     else if in_flight then [error (Some rid) "session_busy" "a prompt is already running"]
     else [SpawnPrompt rid text (client_request_key client rid)])).

Definition handle_interrupt (m : ClientMessage) (changed : bool) : list Effect :=
  validated m (permitted CapInterrupt "interrupt capability was not granted" m
    (CancelTurn :: match request_id m with
                   | Some rid => [Send (SmCommandResult rid "interrupt" changed)]
                   | None => []
                   end)).

Definition session_delete_error_message : string := "persisted session could not be deleted".

Definition handle_stop (m : ClientMessage) (rid : string) (stopped : result bool string) : list Effect :=
  validated m (permitted CapStop "stop capability was not granted" m
    [StopSession; match stopped with
                  | Ok changed => Send (SmCommandResult rid "stop_session" changed)
                  | Err _ => error (Some rid) "session_delete_failed" session_delete_error_message
                  end]).

Definition handle_clear (m : ClientMessage) (rid : string) (cleared : result bool HistoryMutationError) : list Effect :=
  validated m (permitted CapConfigure "configure capability was not granted" m
    [ClearHistory; match cleared with
                   | Ok changed => Send (SmCommandResult rid "clear_history" changed)
                   | Err HmBusy => error (Some rid) "session_busy" "history cannot be cleared while a turn is running"
                   end]).

Definition handle_usage (m : ClientMessage) (rid : string) (turn_active : bool) (usage : SessionUsage) : list Effect :=
  validated m (permitted CapObserve "observe capability was not granted" m
    (if turn_active then [error (Some rid) "session_busy" "usage is available after the active turn"]
     else [ReadUsage; Send (SmUsage rid usage)])).

Definition approval_error (e : ApprovalError) : string * string :=
  match e with
  | AlreadyResolved => ("approval_already_resolved", "approval was already resolved")
  | MissingCapability _ => ("capability_denied", "approval capability was not granted")
  | NotPending | AllowAlwaysUnavailable | IdExhausted => ("approval_rejected", "approval response was rejected")
  end.

Definition handle_approval (m : ClientMessage) (approval_id : string) (decision : ApprovalDecision)
    (resolved : result ApprovalResolution ApprovalError) : list Effect :=
  match validate_client_message limits m with
  | Err e => [error None "invalid_message" (validation_debug e)]
  | Ok _ =>
      ResolveApproval approval_id client caps decision ::
      match resolved with
      | Err e => let '(code, message) := approval_error e in [error None code message]
      | Ok _ => []
      end
  end.

Definition config_error (e : RuntimeConfigError) : string * string :=
  match e with
  | RcBusy => ("config_locked", "configuration cannot change while a turn is running")
  | RcUnknownOption => ("unknown_config", "runtime configuration option is unknown")
  | RcInvalidValue => ("invalid_config", "runtime configuration value is invalid")
  | RcUnsupportedOption => ("unsupported_config", "runtime configuration option is not implemented")
  | RcApplyFailed _ => ("config_apply_failed", "runtime configuration could not be applied")
  end.

Definition handle_set_config (m : ClientMessage) (rid : option string) (config_id : string) (value : RuntimeValue)
    (applied : result unit RuntimeConfigError) : list Effect :=
  validated m (permitted CapConfigure "configure capability was not granted" m
    (ApplyOption config_id value ::
     match applied with
     | Err e => let '(code, message) := config_error e in [error rid code message]
     | Ok _ => match rid with Some rid => [Send (SmCommandResult rid "set_config" true)] | None => [] end
     end)).

(** [SessionListPageError] as an error message. *)
Definition list_error (e : SessionListPageError) : string * string :=
  match e with
  | InvalidCursor => ("invalid_cursor", "session-list cursor is invalid or expired")
  | CapacityExceeded => ("session_list_capacity", "session listing exceeds the configured snapshot capacity")
  | ListTooLarge message => ("session_list_too_large", message)
  end.

Definition handle_list (m : ClientMessage) (rid : string) (cursor : option string)
    (page : result ServerMessage SessionListPageError) : list Effect :=
  match validate_client_message limits m with
  | Err e =>
      let invalid_cursor :=
        match e with FieldTooLarge field _ => bool_decide (field = "list_sessions.cursor") | _ => false end in
      [error (request_id m) (if invalid_cursor then "invalid_cursor" else "invalid_message") (validation_debug e)]
  | Ok _ =>
      permitted CapObserve "observe capability was not granted" m
        [ListPage cursor;
         match page with
         | Ok message => Send message
         | Err e => let '(code, message) := list_error e in error (Some rid) code message
         end]
  end.

Definition handle_other (m : ClientMessage) : list Effect :=
  validated m [error (request_id m) "unsupported_message" "message is not implemented by the session daemon"].

(** The arms of the loop for a message of the client, except [Detach] and [SyncRequest]
    ([serve_act] below). *)
Definition handle (in_flight : bool) (a : Answers) (m : ClientMessage) : list Effect :=
  match m with
  | CmPing => [Send SmPong]
  | CmPrompt rid text => handle_prompt m rid text (an_completed a) in_flight
  | CmInterrupt _ => handle_interrupt m (an_cancelled a)
  | CmStopSession rid => handle_stop m rid (an_stopped a)
  | CmClearHistory rid => handle_clear m rid (an_cleared a)
  | CmGetUsage rid => handle_usage m rid (an_turn_active a) (an_usage a)
  | CmApprovalResponse approval_id decision => handle_approval m approval_id decision (an_resolved a)
  | CmSetConfig rid config_id value => handle_set_config m rid config_id value (an_applied a)
  | CmListSessions rid cursor => handle_list m rid cursor (an_page a)
  | CmAttach _ _ _ _ _ | CmResume _ _ _ _ _ _ => handle_other m
  | CmSyncRequest _ | CmDetach => []
  end.

End handlers.

(** ** The connection *)

(** How far the handler of the connection is with the event being dispatched: it has not
    run, it found the queue full and has not raised the flag yet, or it is done. *)
Inductive QueueStage := QsWaiting | QsFull | QsDone.

Record Dispatch := mkDispatch {
  dp_seq : Z;
  dp_event : SessionEvent;
  dp_snapshot : bool;
  dp_queue : QueueStage;
}.

(** What follows when the pending messages are sent. *)
Inductive Next :=
  | NxLoop
  | NxStopCheck
  | NxWatermark (seq : Z)
  | NxDrain
  | NxEnd.

Inductive ServePc :=
  | SvHandshake (captured : SessionSnapshot) (resume : option Z)
  | SvReply (captured : SessionSnapshot) (resume : option Z) (router : SessionEventRouter)
  | SvLoop
  | SvGot (outgoing : ServerMessage)
  | SvSync (last_seen_seq : Z)
  | SvSyncSnapshot
  | SvDrain
  | SvSend (messages : list ServerMessage) (next : Next)
  | SvEnd.

(** What the client sent, what it was sent, and what was asked of the session for it. *)
Inductive Trace :=
  | TrIn (message : ClientMessage)
  | TrOut (message : ServerMessage)
  | TrCall (effect : Effect).

(** The state a connection shares with its session, and its own.  [sv_log] are the events
    emitted so far and [sv_dropped] whether the queue ever refused one; both are only
    used to speak about the connection. *)
Record Conn := mkConn {
  sv_router : SessionEventRouter;
  sv_log : list SessionEvent;
  sv_dispatch : option Dispatch;
  sv_snapshot : SnapshotState;
  sv_queue : list ServerMessage;
  sv_lagged : bool;
  sv_dropped : bool;
  sv_stopped : bool;
  sv_stop_notified : bool;
  sv_replaced : bool;
  sv_in_flight : bool;
  sv_watermark : option Z;
  sv_pc : ServePc;
  sv_trace : list Trace;
}.

Definition set_emission (r : SessionEventRouter) (log : list SessionEvent) (d : option Dispatch) (s : SnapshotState) (c : Conn) : Conn :=
  mkConn r log d s (sv_queue c) (sv_lagged c) (sv_dropped c) (sv_stopped c) (sv_stop_notified c) (sv_replaced c)
    (sv_in_flight c) (sv_watermark c) (sv_pc c) (sv_trace c).

Definition set_dispatch (d : option Dispatch) (c : Conn) : Conn :=
  set_emission (sv_router c) (sv_log c) d (sv_snapshot c) c.

Definition set_queue (q : list ServerMessage) (lagged dropped : bool) (c : Conn) : Conn :=
  mkConn (sv_router c) (sv_log c) (sv_dispatch c) (sv_snapshot c) q lagged dropped (sv_stopped c) (sv_stop_notified c)
    (sv_replaced c) (sv_in_flight c) (sv_watermark c) (sv_pc c) (sv_trace c).

Definition set_notices (stopped notified replaced : bool) (c : Conn) : Conn :=
  mkConn (sv_router c) (sv_log c) (sv_dispatch c) (sv_snapshot c) (sv_queue c) (sv_lagged c) (sv_dropped c) stopped notified
    replaced (sv_in_flight c) (sv_watermark c) (sv_pc c) (sv_trace c).

Definition set_in_flight (b : bool) (c : Conn) : Conn :=
  mkConn (sv_router c) (sv_log c) (sv_dispatch c) (sv_snapshot c) (sv_queue c) (sv_lagged c) (sv_dropped c) (sv_stopped c)
    (sv_stop_notified c) (sv_replaced c) b (sv_watermark c) (sv_pc c) (sv_trace c).

Definition set_watermark (w : option Z) (c : Conn) : Conn :=
  mkConn (sv_router c) (sv_log c) (sv_dispatch c) (sv_snapshot c) (sv_queue c) (sv_lagged c) (sv_dropped c) (sv_stopped c)
    (sv_stop_notified c) (sv_replaced c) (sv_in_flight c) w (sv_pc c) (sv_trace c).

Definition go (pc : ServePc) (c : Conn) : Conn :=
  mkConn (sv_router c) (sv_log c) (sv_dispatch c) (sv_snapshot c) (sv_queue c) (sv_lagged c) (sv_dropped c) (sv_stopped c)
    (sv_stop_notified c) (sv_replaced c) (sv_in_flight c) (sv_watermark c) pc (sv_trace c).

Definition note (ts : list Trace) (c : Conn) : Conn :=
  mkConn (sv_router c) (sv_log c) (sv_dispatch c) (sv_snapshot c) (sv_queue c) (sv_lagged c) (sv_dropped c) (sv_stopped c)
    (sv_stop_notified c) (sv_replaced c) (sv_in_flight c) (sv_watermark c) (sv_pc c) (sv_trace c ++ ts).

Definition sends (es : list Effect) : list ServerMessage :=
  omap (λ e, match e with Send m => Some m | _ => None end) es.

Definition calls (es : list Effect) : list Trace :=
  omap (λ e, match e with Send _ => None | e => Some (TrCall e) end) es.

Definition spawns (es : list Effect) : bool :=
  existsb (λ e, match e with SpawnPrompt _ _ _ => true | _ => false end) es.

Definition session_stopped : ServerMessage := SmRevoked (Some RevokedSessionStopped) "session stopped".
Definition queue_lagged : ServerMessage :=
  SmRevoked (Some RevokedEventQueueLagged) "event queue lagged; reconnect for a full snapshot".
Definition attachment_replaced : ServerMessage :=
  SmRevoked (Some RevokedAttachmentReplaced) "attachment replaced by reconnect".

(** A queued event the client has from a snapshot or a replay. *)
Definition superseded (w : option Z) (m : ServerMessage) : bool :=
  match m, w with SmEvent seq _, Some w => (seq <=? w)%Z | _, _ => false end.

(** What can happen next. *)
Inductive Act :=
  | AEmit (event : SessionEvent)
  | ASnapshotHandler
  | AQueueHandler
  | ALagStore
  | ADispatched
  | APromptError (rid : string) (error : SessionPromptError)
  | APromptEnd
  | AStop
  | ANotifyStop
  | AReplace
  | AReplay
  | AReply
  | ARecv (message : option ClientMessage) (answers : Answers)
  | AEvent
  | ACheck
  | AStopNotice
  | AReplacedNotice
  | ASyncReplay
  | AReadSnapshot
  | ADrain
  | ASent
  | ASendFailed.

Section serving.
Context (limits : ProtocolLimits) (client session_id : string) (caps : list ClientCapability) (capacity : nat)
  (fit : SessionSnapshot → result SessionSnapshot string).

Definition observes : bool := has_capability caps CapObserve.

(** *** The session around the connection *)

(** [emit_locked] up to the call of the handlers. *)
Definition emit_begin (event : SessionEvent) (c : Conn) : option Conn :=
  match sv_dispatch c, u64_checked_add (rt_sequence (sv_router c)) 1 with
  | None, Some seq =>
      Some (set_emission (emit_locked (sv_router c) event).1.1 (sv_log c ++ [event])
        (Some (mkDispatch seq event false (if observes then QsWaiting else QsDone))) (sv_snapshot c) c)
  | _, _ => None
  end.

(** The handler of the daemon's snapshot. *)
Definition snapshot_handler (c : Conn) : option Conn :=
  match sv_dispatch c with
  | Some (mkDispatch seq event false q) =>
      Some (set_emission (sv_router c) (sv_log c) (Some (mkDispatch seq event true q))
        (snapshot_apply (sv_snapshot c) seq event) c)
  | _ => None
  end.

(** The handler of the connection: [try_send]. *)
Definition queue_handler (c : Conn) : option Conn :=
  match sv_dispatch c with
  | Some (mkDispatch seq event s QsWaiting) =>
      if length (sv_queue c) <? capacity
      then Some (set_queue (sv_queue c ++ [SmEvent seq event]) (sv_lagged c) (sv_dropped c)
                   (set_dispatch (Some (mkDispatch seq event s QsDone)) c))
      else Some (set_queue (sv_queue c) (sv_lagged c) true (set_dispatch (Some (mkDispatch seq event s QsFull)) c))
  | _ => None
  end.

(** [handler_lagged.store(true)]. *)
Definition lag_store (c : Conn) : option Conn :=
  match sv_dispatch c with
  | Some (mkDispatch seq event s QsFull) =>
      Some (set_queue (sv_queue c) true (sv_dropped c) (set_dispatch (Some (mkDispatch seq event s QsDone)) c))
  | _ => None
  end.

(** The dispatch lock is released. *)
Definition dispatched (c : Conn) : option Conn :=
  match sv_dispatch c with
  | Some (mkDispatch _ _ true QsDone) => Some (set_dispatch None c)
  | _ => None
  end.

(** The prompt task reports its error when the queue has room. *)
Definition prompt_report (rid : string) (e : SessionPromptError) (c : Conn) : option Conn :=
  if length (sv_queue c) <? capacity
  then let '(code, message) := prompt_error e in
       Some (set_queue (sv_queue c ++ [SmError (Some rid) code message]) (sv_lagged c) (sv_dropped c) c)
  else None.

(** *** The connection itself *)

(** [replay_since] of a resuming client, under the dispatch lock. *)
Definition handshake_replay (c : Conn) : option Conn :=
  match sv_pc c, sv_dispatch c with
  | SvHandshake captured resume, None => Some (go (SvReply captured resume (sv_router c)) c)
  | _, _ => None
  end.

(** The reply to the handshake; the sequence of a client that does not observe is read
    now. *)
Definition handshake_reply (c : Conn) : option Conn :=
  match sv_pc c with
  | SvReply captured resume router =>
      let reply := attach_reply (if observes then router else sv_router c) captured fit (sv_stopped c) session_id caps resume in
      let next := match reply with
                  | SmAttachOk _ _ _ seq :: _ => if observes then NxWatermark seq else NxLoop
                  | _ => NxEnd
                  end in
      Some (go (SvSend reply next) c)
  | _ => None
  end.

(** The select takes a message of the client, or the end of its stream. *)
Definition receive_client (message : option ClientMessage) (a : Answers) (c : Conn) : option Conn :=
  match sv_pc c with
  | SvLoop =>
      match message with
      | None => Some (go SvEnd c)
      | Some m =>
          if sv_stopped c then Some (go SvDrain (note [TrIn m] c))
          else match m with
               | CmDetach => Some (go SvEnd (note [TrIn m] c))
               | CmSyncRequest last_seen_seq =>
                   Some (note [TrIn m]
                     (go (if observes then SvSync last_seen_seq
                          else SvSend [SmError None "capability_denied" "observe capability was not granted"] NxLoop) c))
               | _ =>
                   let es := handle limits client caps (sv_in_flight c) a m in
                   Some (go (SvSend (sends es) NxLoop)
                     (set_in_flight (sv_in_flight c || spawns es) (note (TrIn m :: calls es) c)))
               end
      end
  | _ => None
  end.

(** The select takes a queued message. *)
Definition receive_event (c : Conn) : option Conn :=
  match sv_pc c, sv_queue c with
  | SvLoop, m :: q => Some (go (SvGot m) (set_queue q (sv_lagged c) (sv_dropped c) c))
  | _, _ => None
  end.

(** [event_lagged.swap(false)], and whether the message is still of use. *)
Definition check_lag (c : Conn) : option Conn :=
  match sv_pc c with
  | SvGot m =>
      if sv_lagged c then Some (go (SvSend [queue_lagged] NxEnd) (set_queue (sv_queue c) false (sv_dropped c) c))
      else if superseded (sv_watermark c) m then Some (go SvLoop c)
      else Some (go (SvSend [m] NxStopCheck) c)
  | _ => None
  end.

Definition stop_notice (c : Conn) : option Conn :=
  match sv_pc c with
  | SvLoop => if sv_stop_notified c then Some (go SvDrain c) else None
  | _ => None
  end.

Definition replaced_notice (c : Conn) : option Conn :=
  match sv_pc c with
  | SvLoop => if sv_replaced c then Some (go (SvSend [attachment_replaced] NxEnd) c) else None
  | _ => None
  end.

(** [SyncRequest]: the replay, under the dispatch lock. *)
Definition sync_replay (c : Conn) : option Conn :=
  match sv_pc c, sv_dispatch c with
  | SvSync last_seen_seq, None =>
      match replay_since (sv_router c) last_seen_seq with
      | Available events latest_seq =>
          Some (go (SvSend (map (λ p, SmEvent p.1 p.2) events) (NxWatermark latest_seq)) c)
      | SnapshotRequired _ => Some (go SvSyncSnapshot c)
      end
  | _, _ => None
  end.

(** [SyncRequest]: the snapshot. *)
Definition sync_snapshot (c : Conn) : option Conn :=
  match sv_pc c with
  | SvSyncSnapshot =>
      match fit (sn_snapshot (sv_snapshot c)) with
      | Err message => Some (go (SvSend [SmError None "snapshot_too_large" message] NxLoop) c)
      | Ok s => Some (go (SvSend [SmSnapshot (ss_seq s) s] NxLoop) (set_watermark (Some (ss_seq s)) c))
      end
  | _ => None
  end.

(** The session stopped: what is queued is sent, then the notice. *)
Definition drain (c : Conn) : option Conn :=
  match sv_pc c with
  | SvDrain =>
      match sv_queue c with
      | [] => Some (go (SvSend [session_stopped] NxEnd) c)
      | m :: q =>
          let c := set_queue q (sv_lagged c) (sv_dropped c) c in
          if superseded (sv_watermark c) m then Some c else Some (go (SvSend [m] NxDrain) c)
      end
  | _ => None
  end.

(** A message is sent, or everything pending is. *)
Definition sent_one (c : Conn) : option Conn :=
  match sv_pc c with
  | SvSend (m :: ms) next => Some (go (SvSend ms next) (note [TrOut m] c))
  | SvSend [] next =>
      match next with
      | NxLoop => Some (go SvLoop c)
      | NxStopCheck => Some (go (if sv_stopped c then SvSend [session_stopped] NxEnd else SvLoop) c)
      | NxWatermark seq => Some (go SvLoop (set_watermark (Some seq) c))
      | NxDrain => Some (go SvDrain c)
      | NxEnd => Some (go SvEnd c)
      end
  | _ => None
  end.

Definition serve_act (a : Act) (c : Conn) : option Conn :=
  match a with
  | AEmit event => emit_begin event c
  | ASnapshotHandler => snapshot_handler c
  | AQueueHandler => queue_handler c
  | ALagStore => lag_store c
  | ADispatched => dispatched c
  | APromptError rid e => prompt_report rid e c
  | APromptEnd => Some (set_in_flight false c)
  | AStop => Some (set_notices true (sv_stop_notified c) (sv_replaced c) c)
  | ANotifyStop => Some (set_notices true true (sv_replaced c) c)
  | AReplace => Some (set_notices (sv_stopped c) (sv_stop_notified c) true c)
  | AReplay => handshake_replay c
  | AReply => handshake_reply c
  | ARecv message answers => receive_client message answers c
  | AEvent => receive_event c
  | ACheck => check_lag c
  | AStopNotice => stop_notice c
  | AReplacedNotice => replaced_notice c
  | ASyncReplay => sync_replay c
  | AReadSnapshot => sync_snapshot c
  | ADrain => drain c
  | ASent => sent_one c
  | ASendFailed => match sv_pc c with SvSend (_ :: _) _ => Some (go SvEnd c) | _ => None end
  end.

(** A client is subscribed and the snapshot is captured under one dispatch lock. *)
Definition serve_start (r : SessionEventRouter) (log : list SessionEvent) (s : SnapshotState) (resume : option Z) : Conn :=
  mkConn r log None s [] false false false false false false None (SvHandshake (sn_snapshot s) resume) [].

(** Sequence numbers are not negative, and a page of the session list is a session list
    ([listing_page_spec]) with the identity of the request. *)
Definition act_ok (a : Act) : Prop :=
  match a with
  | ARecv (Some (CmSyncRequest last_seen_seq)) _ => (0 ≤ last_seen_seq)%Z
  | ARecv (Some (CmListSessions rid _)) a =>
      match an_page a with Ok (SmSessionList rid' _ _ _ _) => rid' = rid | Ok _ => False | Err _ => True end
  | _ => True
  end.

Definition serve_step (c c' : Conn) : Prop := ∃ a, act_ok a ∧ serve_act a c = Some c'.

Fixpoint serve_run (acts : list Act) (c : Conn) : option Conn :=
  match acts with [] => Some c | a :: acts => serve_act a c ≫= serve_run acts end.

(** ** What a client knows *)

(** The number of the newest event the client has or says it has. *)
Definition pos_step (p : Z) (t : Trace) : Z :=
  match t with
  | TrIn (CmSyncRequest last_seen_seq) => Z.max p last_seen_seq
  | TrOut (SmSnapshot seq _) => seq
  | TrOut (SmEvent seq _) => Z.max p seq
  | _ => p
  end.

Definition position (p : Z) (tr : list Trace) : Z := foldl pos_step p tr.

(** No event is sent before the one it follows. *)
Fixpoint gapless (p : Z) (tr : list Trace) : Prop :=
  match tr with
  | [] => True
  | t :: tr => (match t with TrOut (SmEvent seq _) => (seq ≤ p + 1)%Z | _ => True end) ∧ gapless (pos_step p t) tr
  end.

Definition events_of (ms : list ServerMessage) : list (Z * SessionEvent) :=
  omap (λ m, match m with SmEvent seq event => Some (seq, event) | _ => None end) ms.

Definition sent (tr : list Trace) : list ServerMessage :=
  omap (λ t, match t with TrOut m => Some m | _ => None end) tr.

(** The events the handler of the connection has been called with. *)
Definition handled (c : Conn) : nat :=
  match sv_dispatch c with
  | Some (mkDispatch _ _ _ (QsWaiting | QsFull)) => length (sv_log c) - 1
  | _ => length (sv_log c)
  end.

Definition got (c : Conn) : list ServerMessage := match sv_pc c with SvGot m => [m] | _ => [] end.
Definition pending (c : Conn) : list ServerMessage := match sv_pc c with SvSend ms _ => ms | _ => [] end.

Definition ending (pc : ServePc) : Prop :=
  match pc with SvEnd => True | SvSend _ NxEnd => True | _ => False end.

Definition draining (pc : ServePc) : Prop :=
  match pc with SvDrain => True | SvSend _ NxDrain => True | _ => False end.

(** *** Lemmas *)

Lemma gapless_app p tr1 tr2 : gapless p (tr1 ++ tr2) ↔ gapless p tr1 ∧ gapless (position p tr1) tr2.
Proof. revert p. induction tr1 as [|t tr1 IH]; intros p; simpl; [naive_solver|]. rewrite IH. naive_solver. Qed.

Lemma position_app p tr1 tr2 : position p (tr1 ++ tr2) = position (position p tr1) tr2.
Proof. apply foldl_app. Qed.

Lemma replay_known l : ∀ p k, (k ≤ p)%Z →
  let ms := map TrOut (map (λ p, SmEvent p.1 p.2) (number_from k l)) in
  gapless p ms ∧ position p ms = Z.max p (k + Z.of_nat (length l)).
Proof.
  induction l as [|e l IH]; intros p k Hk; simpl; [split; [done|lia]|].
  destruct (IH (Z.max p (k + 1)) (k + 1)%Z ltac:(lia)) as [Hg Hp]. split; [split; [lia|done]|]. etrans; [exact Hp|lia].
Qed.

Lemma number_from_log h : ∀ k p, p ∈ number_from (Z.of_nat k) (drop k h) → from_log h p.
Proof.
  intros k p. remember (drop k h) as l eqn:Hl. revert k Hl. induction l as [|e l IH]; intros k Hl Hin; simpl in Hin; [set_solver|].
  assert (h !! k = Some e) as Hk by (rewrite <- (Nat.add_0_r k), <- lookup_drop, <- Hl; done).
  apply elem_of_cons in Hin as [->|Hin].
  - split; simpl; [lia|]. by replace (Z.to_nat (Z.of_nat k + 1 - 1)) with k by lia.
  - apply (IH (S k)); [|by replace (Z.of_nat (S k)) with (Z.of_nat k + 1)%Z by lia].
    apply (f_equal (drop 1)) in Hl. by rewrite drop_drop, Nat.add_1_r in Hl.
Qed.

Lemma from_log_app h h' p : from_log h p → from_log (h ++ h') p.
Proof. intros [H1 H2]. split; [done|]. by apply lookup_app_l_Some. Qed.

(** A handler sends nothing that belongs to the stream. *)
Definition quiet_message (m : ServerMessage) : Prop :=
  match m with SmEvent _ _ | SmSnapshot _ _ => False | _ => True end.

Lemma validated_sends m k : Forall quiet_message (sends k) → Forall quiet_message (sends (validated limits m k)).
Proof. unfold validated. destruct (validate_client_message _ _); [done|]. by repeat constructor. Qed.

Lemma permitted_sends c d m k : Forall quiet_message (sends k) → Forall quiet_message (sends (permitted caps c d m k)).
Proof. unfold permitted. destruct (has_capability _ _); [done|]. by repeat constructor. Qed.

Lemma handle_quiet in_flight a m :
  act_ok (ARecv (Some m) a) → Forall quiet_message (sends (handle limits client caps in_flight a m)).
Proof.
  intros Hok. destruct m; simpl; try ((simpl; by repeat constructor)); try apply validated_sends; try apply permitted_sends; simpl; try (by repeat constructor).
  - repeat case_match; (simpl; by repeat constructor).
  - unfold handle_approval. repeat case_match; (simpl; by repeat constructor).
  - destruct request_id0; (simpl; by repeat constructor).
  - destruct (an_stopped a); (simpl; by repeat constructor).
  - destruct (an_cleared a) as [|[]]; (simpl; by repeat constructor).
  - destruct (an_turn_active a); (simpl; by repeat constructor).
  - unfold handle_list. destruct (validate_client_message _ _); [|(simpl; by repeat constructor)]. apply permitted_sends. simpl in *.
    destruct (an_page a) as [[]|[]]; (simpl; by repeat constructor).
  - destruct (an_applied a) as [|e]; [|by destruct e; repeat constructor]. destruct request_id0; (simpl; by repeat constructor).
Qed.

Lemma quiet_events ms : Forall quiet_message ms → events_of ms = [].
Proof. induction 1 as [|m ms Hm _ IH]; [done|]. by destruct m; first [exact IH|destruct Hm]. Qed.

Lemma quiet_known ms p : Forall quiet_message ms → gapless p (map TrOut ms) ∧ position p (map TrOut ms) = p.
Proof.
  induction 1 as [|m ms Hm _ [IH1 IH2]]; [done|]. by destruct m; first [split; [split; [done|exact IH1]|exact IH2]|destruct Hm].
Qed.

Lemma events_of_app a b : events_of (a ++ b) = events_of a ++ events_of b.
Proof. apply omap_app. Qed.

Lemma sent_app a b : sent (a ++ b) = sent a ++ sent b.
Proof. apply omap_app. Qed.

Lemma calls_sent es : sent (calls es) = [].
Proof. induction es as [|[] es IH]; first [done|exact IH]. Qed.

Lemma events_of_replay l : events_of (map (λ p, SmEvent p.1 p.2) l) = l.
Proof. induction l as [|[n e] l IH]; [done|]. simpl. by f_equal. Qed.

(** *** The session and the messages *)

Definition applied (c : Conn) : nat :=
  match sv_dispatch c with
  | Some (mkDispatch _ _ false _) => length (sv_log c) - 1
  | _ => length (sv_log c)
  end.

Record base_ok (c : Conn) : Prop := {
  bo_router : router_log (sv_router c) (sv_log c);
  bo_max : (Z.of_nat (length (sv_log c)) ≤ U64_MAX)%Z;
  bo_dispatch : match sv_dispatch c with
                | Some d => ∃ h, sv_log c = h ++ [dp_event d] ∧ dp_seq d = Z.of_nat (length (sv_log c))
                | None => True
                end;
  bo_snapshot : ss_seq (sn_snapshot (sv_snapshot c)) = Z.of_nat (applied c);
  bo_content : ∀ p, p ∈ events_of (sent (sv_trace c)) ∨ p ∈ events_of (pending c) ∨
                    p ∈ events_of (got c ++ sv_queue c) → from_log (sv_log c) p;
  bo_saved : match sv_pc c with
             | SvReply _ _ r => ∃ h h', sv_log c = h ++ h' ∧ router_log r h
             | _ => True
             end;
  bo_resume : match sv_pc c with
              | SvHandshake _ (Some k) | SvReply _ (Some k) _ => (0 ≤ k)%Z
              | SvSync k => (0 ≤ k)%Z
              | _ => True
              end;
  bo_stop : draining (sv_pc c) ∨ sv_stop_notified c = true → sv_stopped c = true;
}.

Lemma replay_from_log r h k events latest :
  router_log r h → (Z.of_nat (length h) ≤ U64_MAX)%Z → (0 ≤ k)%Z → replay_since r k = Available events latest →
  latest = Z.of_nat (length h) ∧ (k ≤ latest)%Z ∧ events = number_from k (drop (Z.to_nat k) h) ∧ ∀ p, p ∈ events → from_log h p.
Proof.
  intros Hr Hmax Hk. rewrite (replay_since_log r h k Hr Hmax Hk). case_decide as Hd; [|done]. intros [= <- <-].
  destruct Hd as [Hd _]. rewrite drop_number_from by lia. rewrite Z.add_0_l, Z2Nat.id by done. split_and!; [done..|].
  intros p Hp. apply (number_from_log h (Z.to_nat k)). by rewrite Z2Nat.id.
Qed.

(** The reply to the handshake. *)
Lemma attach_reply_cases r h captured stopped resume :
  router_log r h → (Z.of_nat (length h) ≤ U64_MAX)%Z → (∀ k, resume = Some k → (0 ≤ k)%Z) → observes = true →
  let reply := attach_reply r captured fit stopped session_id caps resume in
  (∃ code reason, reply = [SmAttachDenied code reason]) ∨
  (∃ s, fit captured = Ok s ∧ reply = [SmAttachOk PROTOCOL_VERSION session_id caps (ss_seq s); SmSnapshot (ss_seq s) s]) ∨
  (∃ k, resume = Some k ∧ (0 ≤ k ≤ Z.of_nat (length h))%Z ∧
     reply = SmAttachOk PROTOCOL_VERSION session_id caps (Z.of_nat (length h)) ::
             map (λ p, SmEvent p.1 p.2) (number_from k (drop (Z.to_nat k) h))).
Proof.
  intros Hr Hmax Hres Hobs. unfold attach_reply. change (has_capability caps CapObserve) with observes. rewrite Hobs. simpl.
  destruct resume as [k|]; simpl.
  - specialize (Hres k eq_refl). destruct (replay_since r k) as [events latest|] eqn:Hre.
    + right. right. destruct (replay_from_log r h k events latest) as (->&Hle&->&_); [done..|]. exists k. split_and!; [done|lia..|done].
    + destruct stopped; [left; eauto|]. destruct (fit captured); [right; left|left]; eauto.
  - destruct stopped; [left; eauto|]. destruct (fit captured); [right; left|left]; eauto.
Qed.

(** A step of the connection that sends what it has or what the log has. *)
Lemma base_conn c c' :
  base_ok c → sv_router c' = sv_router c → sv_log c' = sv_log c → sv_dispatch c' = sv_dispatch c →
  sv_snapshot c' = sv_snapshot c →
  (∀ p, p ∈ events_of (sent (sv_trace c')) ∨ p ∈ events_of (pending c') ∨ p ∈ events_of (got c' ++ sv_queue c') →
     (p ∈ events_of (sent (sv_trace c)) ∨ p ∈ events_of (pending c) ∨ p ∈ events_of (got c ++ sv_queue c)) ∨ from_log (sv_log c) p) →
  sv_pc c' = sv_pc c ∨
    (match sv_pc c' with SvReply _ _ r => r = sv_router c | _ => True end ∧
     match sv_pc c' with SvHandshake _ (Some k) | SvReply _ (Some k) _ | SvSync k => (0 ≤ k)%Z | _ => True end) →
  (draining (sv_pc c') ∨ sv_stop_notified c' = true → sv_stopped c' = true) →
  base_ok c'.
Proof.
  intros [Hr Hm Hd Hs Hc Hsv0 Hre0 _] Er El Ed Es Hc' Hpc Hst. split; unfold applied in *; rewrite ?Er, ?El, ?Ed, ?Es; try done.
  - intros p Hp. destruct (Hc' p Hp) as [?|?]; eauto.
  - destruct Hpc as [->|[Hsv _]]; [done|]. destruct (sv_pc c'); try done. subst. exists (sv_log c), []. by rewrite app_nil_r.
  - by destruct Hpc as [->|[_ Hre]].
Qed.

(** The events a dispatch adds to the log. *)
Lemma base_emit event c c' : emit_begin event c = Some c' → base_ok c → base_ok c'.
Proof.
  unfold emit_begin. destruct (sv_dispatch c) eqn:Ed; [done|]. destruct (u64_checked_add _ _) as [seq|] eqn:Eq; [|done].
  intros [= <-] [Hr Hm Hd Hs Hc Hsv Hre Hst]. unfold u64_checked_add in Eq. rewrite (log_sequence _ _ Hr) in Eq.
  destruct (Z.leb_spec (Z.of_nat (length (sv_log c)) + 1) U64_MAX); [|done]. injection Eq as <-.
  split; unfold applied in *; simpl; rewrite ?Ed, ?length_app in *; simpl; try done.
  - apply emit_locked_log; [done|lia].
  - lia.
  - exists (sv_log c). split; [done|lia].
  - rewrite Hs. f_equal. lia.
  - intros p Hp. by apply from_log_app, Hc.
  - destruct (sv_pc c); try done. destruct Hsv as (h&h'&->&?). exists h, (h' ++ [event]). by rewrite app_assoc.
Qed.

Lemma base_session a c c' :
  match a with ASnapshotHandler | AQueueHandler | ALagStore | ADispatched => True | _ => False end →
  serve_act a c = Some c' → base_ok c → base_ok c'.
Proof.
  intros Ha Hact [Hr Hm Hd Hs Hc Hsv Hre Hst]. destruct c as [r log d s q lag dr st nt rp fl w pc tr].
  unfold applied, got, pending in *. simpl in *.
  destruct a; try done; unfold serve_act, snapshot_handler, queue_handler, lag_store, dispatched in Hact; simpl in Hact;
    destruct d as [[seq event [] []]|]; try discriminate Hact.
  all: try (destruct (length q <? capacity)); injection Hact as <-.
  all: try (destruct Hd as (h&Hlog&Hseq); simpl in Hlog, Hseq).
  all: split; unfold applied, got, pending; simpl; try done; try (by exists h); try (by rewrite Hs, Hlog); try (rewrite <- Hseq; apply snapshot_apply_rest).
  all: intros p; rewrite app_assoc, events_of_app, elem_of_app; intros [?|[?|[?|Hp]]]; try (apply Hc; tauto).
  all: apply list_elem_of_singleton in Hp; subst p; split; simpl; rewrite Hseq, Hlog, length_app; simpl; [lia|].
  all: replace (Z.to_nat _) with (length h) by lia; by rewrite lookup_app_r, Nat.sub_diag by lia.
Qed.

Context (Hobs : observes = true).

Lemma base_reply c c' : handshake_reply c = Some c' → base_ok c → base_ok c'.
Proof.
  unfold handshake_reply. destruct (sv_pc c) as [|captured resume r| | | | | | |] eqn:Hpc; try done. rewrite Hobs. intros [= <-] Hb.
  pose proof (bo_saved _ Hb) as Hsv. pose proof (bo_resume _ Hb) as Hre. pose proof (bo_max _ Hb) as Hmax. rewrite Hpc in Hsv, Hre.
  destruct Hsv as (h&h'&Hlog&Hr).
  pose proof (attach_reply_cases r h captured (sv_stopped c) resume Hr) as Hcases. rewrite Hlog, length_app in Hmax.
  assert (∀ p, p ∈ events_of (attach_reply r captured fit (sv_stopped c) session_id caps resume) → from_log (sv_log c) p) as Hev.
  { intros p. destruct Hcases as [(?&?&->)|[(?&?&->)|(k&->&Hk&->)]]; [lia|by intros k ->|done|set_solver|set_solver|].
    simpl. rewrite events_of_replay. intros Hp. rewrite Hlog. apply from_log_app, (number_from_log h (Z.to_nat k)). by rewrite Z2Nat.id by lia. }
  eapply base_conn; try done; unfold got, pending; simpl; [rewrite Hpc; intros p [?|[?%Hev|?]]; tauto|by right|].
  intros [Hd|Hn]; [|apply (bo_stop _ Hb); by right]. destruct (attach_reply _ _ _ _ _ _ _) as [|[] ?]; done.
Qed.

Ltac base_conn_step Hb Hpc :=
  eapply (base_conn _ _ Hb); try done; unfold got, pending; simpl; rewrite ?Hpc;
  try done; try (by right); try (by intros [[]|?]; apply (bo_stop _ Hb); right).

Lemma base_recv m ans c c' : act_ok (ARecv m ans) → receive_client m ans c = Some c' → base_ok c → base_ok c'.
Proof.
  intros Hok. unfold receive_client. destruct (sv_pc c) eqn:Hpc; try done. intros Hact Hb.
  destruct m as [m|]; [|injection Hact as <-; base_conn_step Hb Hpc; naive_solver].
  assert (∀ ts, sent ts = [] → ∀ p, p ∈ events_of (sent (sv_trace c ++ ts)) ↔ p ∈ events_of (sent (sv_trace c))) as Htr
    by (intros ts Hts p; by rewrite sent_app, Hts, app_nil_r).
  destruct (sv_stopped c) eqn:Hs.
  { injection Hact as <-. base_conn_step Hb Hpc.
    intros p. rewrite (Htr [TrIn m] eq_refl). naive_solver. }
  assert (∀ es, Forall quiet_message (sends es) → ∀ b,
    base_ok (go (SvSend (sends es) NxLoop) (set_in_flight b (note (TrIn m :: calls es) c)))) as Hes.
  { intros es Hq b. base_conn_step Hb Hpc. intros p. rewrite (Htr (TrIn m :: calls es)), (quiet_events _ Hq) by apply calls_sent. set_solver. }
  pose proof (handle_quiet (sv_in_flight c) ans m Hok) as Hq.
  destruct m; try (injection Hact as <-; exact (Hes _ Hq _)).
  - injection Hact as <-. rewrite Hobs. base_conn_step Hb Hpc. intros p. rewrite (Htr [TrIn _] eq_refl). naive_solver.
  - injection Hact as <-. base_conn_step Hb Hpc. intros p. rewrite (Htr [TrIn _] eq_refl). naive_solver.
Qed.

Lemma base_sync c c' : sync_replay c = Some c' → base_ok c → base_ok c'.
Proof.
  unfold sync_replay. destruct (sv_pc c) as [| | | |k| | | |] eqn:Hpc; try done. destruct (sv_dispatch c); [done|]. intros Hact Hb.
  pose proof (bo_resume _ Hb) as Hk. rewrite Hpc in Hk.
  destruct (replay_since (sv_router c) k) as [events latest|] eqn:Hre; injection Hact as <-; base_conn_step Hb Hpc.
  - destruct (replay_from_log _ _ _ _ _ (bo_router _ Hb) (bo_max _ Hb) Hk Hre) as (_&_&_&Hev).
    intros p. rewrite events_of_replay. naive_solver.
  - naive_solver.
Qed.

Lemma base_send c c' :
  sent_one c = Some c' → base_ok c → base_ok c'.
Proof.
  unfold sent_one. destruct (sv_pc c) as [| | | | | | |[|m ms] next|] eqn:Hpc; try done; intros Hact Hb.
  - pose proof (bo_stop _ Hb) as Hst. rewrite Hpc in Hst.
    destruct next; injection Hact as <-; [|destruct (sv_stopped c)|..]; base_conn_step Hb Hpc; try naive_solver.
  - pose proof (bo_stop _ Hb) as Hst. rewrite Hpc in Hst. injection Hact as <-. base_conn_step Hb Hpc.
    intros p. change (m :: ms) with ([m] ++ ms). rewrite sent_app. change (sent [TrOut m]) with [m]. rewrite !events_of_app, !elem_of_app. tauto.
Qed.

Lemma base_queue c c' : receive_event c = Some c' ∨ check_lag c = Some c' ∨ drain c = Some c' → base_ok c → base_ok c'.
Proof.
  intros Hact Hb. unfold receive_event, check_lag, drain in Hact.
  destruct (sv_pc c) as [| | |m| | | | |] eqn:Hpc; try naive_solver.
  - destruct (sv_queue c) as [|m q] eqn:Hq; [naive_solver|]. destruct Hact as [[= <-]|[?|?]]; [|done..].
    base_conn_step Hb Hpc. rewrite Hq. naive_solver.
  - destruct Hact as [?|[Hact|?]]; [done| |done].
    destruct (sv_lagged c); [|destruct (superseded _ _)]; injection Hact as <-; base_conn_step Hb Hpc;
      intros p; rewrite ?events_of_app, ?elem_of_app; simpl; tauto.
  - assert (sv_stopped c = true) as Hs by (apply (bo_stop _ Hb); rewrite Hpc; by left).
    destruct Hact as [?|[?|Hact]]; [done..|]. destruct (sv_queue c) as [|m q] eqn:Hq.
    + injection Hact as <-. base_conn_step Hb Hpc. rewrite Hq. naive_solver.
    + simpl in Hact. destruct (superseded _ _); injection Hact as <-; base_conn_step Hb Hpc; rewrite ?Hq;
        change (m :: q) with ([m] ++ q); intros p; rewrite ?events_of_app, ?elem_of_app; simpl; tauto.
Qed.

Lemma base_step a c c' : act_ok a → serve_act a c = Some c' → base_ok c → base_ok c'.
Proof.
  intros Hok Hact Hb. pose proof (bo_stop _ Hb) as Hst. pose proof (bo_resume _ Hb) as Hre. destruct a; cbn [serve_act] in Hact.
  - by eapply base_emit.
  - by apply (base_session ASnapshotHandler c c' I).
  - by apply (base_session AQueueHandler c c' I).
  - by apply (base_session ALagStore c c' I).
  - by apply (base_session ADispatched c c' I).
  - unfold prompt_report in Hact. destruct (_ <? _); [|done]. destruct (prompt_error error0). injection Hact as <-.
    eapply (base_conn _ _ Hb); try done; simpl; [|by left].
    intros p. rewrite app_assoc, events_of_app, elem_of_app. simpl. rewrite elem_of_nil. tauto.
  - injection Hact as <-. eapply (base_conn _ _ Hb); try done; simpl; [tauto|by left].
  - injection Hact as <-. eapply (base_conn _ _ Hb); try done; simpl; [tauto|by left].
  - injection Hact as <-. eapply (base_conn _ _ Hb); try done; simpl; [tauto|by left].
  - injection Hact as <-. eapply (base_conn _ _ Hb); try done; simpl; [tauto|by left].
  - unfold handshake_replay in Hact. destruct (sv_pc c) as [captured resume| | | | | | | |] eqn:Hpc; try done. destruct (sv_dispatch c); [done|].
    injection Hact as <-. base_conn_step Hb Hpc. tauto.
  - by eapply base_reply.
  - by eapply base_recv.
  - by eapply base_queue; [left|].
  - by eapply base_queue; [right; left|].
  - unfold stop_notice in Hact. destruct (sv_pc c) eqn:Hpc; try done. destruct (sv_stop_notified c) eqn:Hn; [|done]. injection Hact as <-.
    base_conn_step Hb Hpc; tauto.
  - unfold replaced_notice in Hact. destruct (sv_pc c) eqn:Hpc; try done. destruct (sv_replaced c); [|done]. injection Hact as <-.
    base_conn_step Hb Hpc. intros p. change (events_of [attachment_replaced]) with (@nil (Z * SessionEvent)). rewrite elem_of_nil. tauto.
  - by eapply base_sync.
  - unfold sync_snapshot in Hact. destruct (sv_pc c) eqn:Hpc; try done.
    destruct (fit _); injection Hact as <-; base_conn_step Hb Hpc; simpl; intros p; rewrite elem_of_nil; tauto.
  - by eapply base_queue; [right; right|].
  - by eapply base_send.
  - destruct (sv_pc c) as [| | | | | | |[|m ms] next|] eqn:Hpc; try done. injection Hact as <-. base_conn_step Hb Hpc. intros p. change (events_of []) with (@nil (Z * SessionEvent)). rewrite elem_of_nil. tauto.
Qed.

(** *** The queue and the position of the client *)

Definition queued (m : ServerMessage) : Prop :=
  match m with SmEvent _ _ | SmError _ _ _ => True | _ => False end.

(** The branches of [serve_act]. *)
Inductive act_spec (c : Conn) : Act → Conn → Prop :=
  | SpEmit event seq (Hd : sv_dispatch c = None) (Hseq : u64_checked_add (rt_sequence (sv_router c)) 1 = Some seq) :
      act_spec c (AEmit event) (set_emission (emit_locked (sv_router c) event).1.1 (sv_log c ++ [event])
        (Some (mkDispatch seq event false (if observes then QsWaiting else QsDone))) (sv_snapshot c) c)
  | SpSnapshotHandler seq event q (Hd : sv_dispatch c = Some (mkDispatch seq event false q)) :
      act_spec c ASnapshotHandler (set_emission (sv_router c) (sv_log c) (Some (mkDispatch seq event true q))
        (snapshot_apply (sv_snapshot c) seq event) c)
  | SpEnqueue seq event b (Hd : sv_dispatch c = Some (mkDispatch seq event b QsWaiting)) :
      act_spec c AQueueHandler (set_queue (sv_queue c ++ [SmEvent seq event]) (sv_lagged c) (sv_dropped c)
        (set_dispatch (Some (mkDispatch seq event b QsDone)) c))
  | SpFull seq event b (Hd : sv_dispatch c = Some (mkDispatch seq event b QsWaiting)) :
      act_spec c AQueueHandler
        (set_queue (sv_queue c) (sv_lagged c) true (set_dispatch (Some (mkDispatch seq event b QsFull)) c))
  | SpLagStore seq event b (Hd : sv_dispatch c = Some (mkDispatch seq event b QsFull)) :
      act_spec c ALagStore
        (set_queue (sv_queue c) true (sv_dropped c) (set_dispatch (Some (mkDispatch seq event b QsDone)) c))
  | SpDispatched seq event (Hd : sv_dispatch c = Some (mkDispatch seq event true QsDone)) :
      act_spec c ADispatched (set_dispatch None c)
  | SpPromptError rid e code message :
      act_spec c (APromptError rid e)
        (set_queue (sv_queue c ++ [SmError (Some rid) code message]) (sv_lagged c) (sv_dropped c) c)
  | SpPromptEnd : act_spec c APromptEnd (set_in_flight false c)
  | SpStop : act_spec c AStop (set_notices true (sv_stop_notified c) (sv_replaced c) c)
  | SpNotifyStop : act_spec c ANotifyStop (set_notices true true (sv_replaced c) c)
  | SpReplace : act_spec c AReplace (set_notices (sv_stopped c) (sv_stop_notified c) true c)
  | SpReplay captured resume (Hpc : sv_pc c = SvHandshake captured resume) (Hd : sv_dispatch c = None) :
      act_spec c AReplay (go (SvReply captured resume (sv_router c)) c)
  | SpReply captured resume r (Hpc : sv_pc c = SvReply captured resume r) :
      let reply := attach_reply (if observes then r else sv_router c) captured fit (sv_stopped c) session_id caps resume in
      act_spec c AReply (go (SvSend reply match reply with
        | SmAttachOk _ _ _ seq :: _ => if observes then NxWatermark seq else NxLoop | _ => NxEnd end) c)
  | SpRecvEnd a (Hpc : sv_pc c = SvLoop) : act_spec c (ARecv None a) (go SvEnd c)
  | SpRecvStopped m a (Hpc : sv_pc c = SvLoop) (Hst : sv_stopped c = true) :
      act_spec c (ARecv (Some m) a) (go SvDrain (note [TrIn m] c))
  | SpRecvDetach a (Hpc : sv_pc c = SvLoop) : act_spec c (ARecv (Some CmDetach) a) (go SvEnd (note [TrIn CmDetach] c))
  | SpRecvSync k a (Hpc : sv_pc c = SvLoop) :
      act_spec c (ARecv (Some (CmSyncRequest k)) a) (note [TrIn (CmSyncRequest k)]
        (go (if observes then SvSync k
             else SvSend [SmError None "capability_denied" "observe capability was not granted"] NxLoop) c))
  | SpRecvHandle m a (Hpc : sv_pc c = SvLoop) (Hst : sv_stopped c = false)
      (Hm : match m with CmDetach | CmSyncRequest _ => False | _ => True end) :
      let es := handle limits client caps (sv_in_flight c) a m in
      act_spec c (ARecv (Some m) a) (go (SvSend (sends es) NxLoop)
        (set_in_flight (sv_in_flight c || spawns es) (note (TrIn m :: calls es) c)))
  | SpEvent m q (Hpc : sv_pc c = SvLoop) (Hq : sv_queue c = m :: q) :
      act_spec c AEvent (go (SvGot m) (set_queue q (sv_lagged c) (sv_dropped c) c))
  | SpLagged m (Hpc : sv_pc c = SvGot m) (Hlag : sv_lagged c = true) :
      act_spec c ACheck (go (SvSend [queue_lagged] NxEnd) (set_queue (sv_queue c) false (sv_dropped c) c))
  | SpSkip m (Hpc : sv_pc c = SvGot m) (Hlag : sv_lagged c = false) (Hsup : superseded (sv_watermark c) m = true) :
      act_spec c ACheck (go SvLoop c)
  | SpForward m (Hpc : sv_pc c = SvGot m) (Hlag : sv_lagged c = false) (Hsup : superseded (sv_watermark c) m = false) :
      act_spec c ACheck (go (SvSend [m] NxStopCheck) c)
  | SpStopNotice (Hpc : sv_pc c = SvLoop) (Hn : sv_stop_notified c = true) : act_spec c AStopNotice (go SvDrain c)
  | SpReplacedNotice (Hpc : sv_pc c = SvLoop) : act_spec c AReplacedNotice (go (SvSend [attachment_replaced] NxEnd) c)
  | SpSyncReplay k events latest (Hpc : sv_pc c = SvSync k) (Hd : sv_dispatch c = None)
      (Hre : replay_since (sv_router c) k = Available events latest) :
      act_spec c ASyncReplay (go (SvSend (map (λ p, SmEvent p.1 p.2) events) (NxWatermark latest)) c)
  | SpSyncNeedsSnapshot k latest (Hpc : sv_pc c = SvSync k) (Hd : sv_dispatch c = None)
      (Hre : replay_since (sv_router c) k = SnapshotRequired latest) :
      act_spec c ASyncReplay (go SvSyncSnapshot c)
  | SpSyncTooLarge message (Hpc : sv_pc c = SvSyncSnapshot) :
      act_spec c AReadSnapshot (go (SvSend [SmError None "snapshot_too_large" message] NxLoop) c)
  | SpSyncSnapshot s (Hpc : sv_pc c = SvSyncSnapshot) (Hf : fit (sn_snapshot (sv_snapshot c)) = Ok s) :
      act_spec c AReadSnapshot (go (SvSend [SmSnapshot (ss_seq s) s] NxLoop) (set_watermark (Some (ss_seq s)) c))
  | SpDrained (Hpc : sv_pc c = SvDrain) (Hq : sv_queue c = []) : act_spec c ADrain (go (SvSend [session_stopped] NxEnd) c)
  | SpDrainSkip m q (Hpc : sv_pc c = SvDrain) (Hq : sv_queue c = m :: q) (Hsup : superseded (sv_watermark c) m = true) :
      act_spec c ADrain (set_queue q (sv_lagged c) (sv_dropped c) c)
  | SpDrainSend m q (Hpc : sv_pc c = SvDrain) (Hq : sv_queue c = m :: q) (Hsup : superseded (sv_watermark c) m = false) :
      act_spec c ADrain (go (SvSend [m] NxDrain) (set_queue q (sv_lagged c) (sv_dropped c) c))
  | SpSent m ms next (Hpc : sv_pc c = SvSend (m :: ms) next) : act_spec c ASent (go (SvSend ms next) (note [TrOut m] c))
  | SpAgain (Hpc : sv_pc c = SvSend [] NxLoop) : act_spec c ASent (go SvLoop c)
  | SpStopCheck (Hpc : sv_pc c = SvSend [] NxStopCheck) :
      act_spec c ASent (go (if sv_stopped c then SvSend [session_stopped] NxEnd else SvLoop) c)
  | SpWatermark seq (Hpc : sv_pc c = SvSend [] (NxWatermark seq)) : act_spec c ASent (go SvLoop (set_watermark (Some seq) c))
  | SpDrainOn (Hpc : sv_pc c = SvSend [] NxDrain) : act_spec c ASent (go SvDrain c)
  | SpEnd (Hpc : sv_pc c = SvSend [] NxEnd) : act_spec c ASent (go SvEnd c)
  | SpSendFailed m ms next (Hpc : sv_pc c = SvSend (m :: ms) next) : act_spec c ASendFailed (go SvEnd c).

Lemma serve_act_spec a c c' : serve_act a c = Some c' → act_spec c a c'.
Proof.
  destruct a; cbn [serve_act]; intros Hact; try (injection Hact as <-; constructor).
  - unfold emit_begin in Hact. destruct (sv_dispatch c) eqn:Hd; [done|]. destruct (u64_checked_add _ _) eqn:Hseq; [|done].
    injection Hact as <-. by constructor.
  - unfold snapshot_handler in Hact. repeat case_match; simplify_eq. by constructor.
  - unfold queue_handler in Hact. repeat case_match; simplify_eq; by constructor.
  - unfold lag_store in Hact. repeat case_match; simplify_eq. by constructor.
  - unfold dispatched in Hact. repeat case_match; simplify_eq. by econstructor.
  - unfold prompt_report in Hact. repeat case_match; simplify_eq. by constructor.
  - unfold handshake_replay in Hact. repeat case_match; simplify_eq. by constructor.
  - unfold handshake_reply in Hact. destruct (sv_pc c) eqn:Hpc; try done. injection Hact as <-. by constructor.
  - unfold receive_client in Hact. destruct (sv_pc c) eqn:Hpc; try done. destruct message as [m|]; [|injection Hact as <-; by constructor].
    destruct (sv_stopped c) eqn:Hst; [injection Hact as <-; by constructor|].
    destruct m; injection Hact as <-; first [by apply SpRecvHandle|by constructor].
  - unfold receive_event in Hact. repeat case_match; simplify_eq. by constructor.
  - unfold check_lag in Hact. repeat case_match; simplify_eq; by econstructor.
  - unfold stop_notice in Hact. repeat case_match; simplify_eq. by constructor.
  - unfold replaced_notice in Hact. repeat case_match; simplify_eq. by constructor.
  - unfold sync_replay in Hact. repeat case_match; simplify_eq; by econstructor.
  - unfold sync_snapshot in Hact. repeat case_match; simplify_eq; by constructor.
  - unfold drain in Hact. destruct (sv_pc c) eqn:Hpc; try done. destruct (sv_queue c) eqn:Hq; [injection Hact as <-; by constructor|].
    simpl in Hact. case_match; injection Hact as <-; by econstructor.
  - unfold sent_one in Hact. destruct (sv_pc c) as [| | | | | | |[|m ms] []|] eqn:Hpc; try done; injection Hact as <-; by constructor.
  - destruct (sv_pc c) as [| | | | | | |[|m ms] next|] eqn:Hpc; try done. injection Hact as <-. by econstructor.
Qed.

Lemma queued_step a c c' :
  act_spec c a c' → Forall queued (got c ++ sv_queue c) → Forall queued (got c' ++ sv_queue c').
Proof.
  intros Hact Hq. assert (Forall queued (sv_queue c)) as Hq' by (by apply Forall_app in Hq as [_ ?]).
  unfold got in *. destruct Hact; simpl; rewrite ?Hpc in *; try done.
  - rewrite app_assoc. apply Forall_app. split; [done|by repeat constructor].
  - rewrite app_assoc. apply Forall_app. split; [done|by repeat constructor].
  - by destruct observes.
  - by rewrite Hq0 in Hq'.
  - rewrite Hq0 in Hq'. by inv Hq'.
  - rewrite Hq0 in Hq'. by inv Hq'.
  - by destruct (sv_stopped c).
Qed.

Definition is_full (c : Conn) : bool :=
  match sv_dispatch c with Some (mkDispatch _ _ _ QsFull) => true | _ => false end.

(** What is queued are the events after number [j] that the handler has been called with. *)
Definition flow (c : Conn) (j : nat) : Prop :=
  j ≤ handled c ∧
  events_of (got c ++ sv_queue c) = number_from (Z.of_nat j) (drop j (take (handled c) (sv_log c))).

Definition at_most (w : option Z) (p : Z) : Prop := ∀ x, w = Some x → (x ≤ p)%Z.

Context (Hfit : ∀ s s', fit s = Ok s' → ss_seq s' = ss_seq s) (p0 : Z).

Definition known (c : Conn) : Z := position p0 (sv_trace c).

(** The client has, or is about to have, the events up to number [j], and everything a
    watermark lets the connection skip. *)
Definition settled (c : Conn) (j : nat) : Prop :=
  match sv_pc c with
  | SvHandshake captured _ => ss_seq captured = Z.of_nat j
  | SvReply captured _ r => ss_seq captured = Z.of_nat j ∧ (Z.of_nat j ≤ rt_sequence r)%Z
  | SvSend ms next =>
      let p := position (known c) (map TrOut ms) in
      (Z.of_nat j ≤ p)%Z ∧ at_most (match next with NxWatermark seq => Some seq | _ => sv_watermark c end) p
  | SvSyncSnapshot =>
      (Z.of_nat j ≤ known c)%Z ∧ at_most (sv_watermark c) (known c) ∧
      (Z.of_nat j ≤ ss_seq (sn_snapshot (sv_snapshot c)))%Z
  | SvEnd => True
  | _ => (Z.of_nat j ≤ known c)%Z ∧ at_most (sv_watermark c) (known c)
  end.

Definition flowing (c : Conn) : Prop :=
  sv_lagged c = false ∧ sv_dropped c = is_full c ∧ ∃ j, flow c j ∧ settled c j.

Record main_ok (c : Conn) : Prop := {
  mo_gapless : gapless p0 (sv_trace c);
  mo_pending : gapless (known c) (map TrOut (pending c));
  mo_claims : match sv_pc c with
              | SvHandshake _ resume | SvReply _ resume _ => at_most resume (known c)
              | SvSync k => (k ≤ known c)%Z
              | _ => True
              end;
  mo_flow : ending (sv_pc c) ∨ (sv_lagged c = true ∧ sv_dropped c = true) ∨ flowing c;
}.

Lemma flow_cons m rest j l :
  events_of (m :: rest) = number_from (Z.of_nat j) (drop j l) →
  (events_of [m] = [] ∧ events_of rest = number_from (Z.of_nat j) (drop j l)) ∨
  (∃ e, m = SmEvent (Z.of_nat (S j)) e ∧ j < length l ∧ events_of rest = number_from (Z.of_nat (S j)) (drop (S j) l)).
Proof.
  intros H. destruct m; try (left; split; [done|exact H]). right.
  destruct (drop j l) as [|e l'] eqn:Hd; [done|]. simpl in H. injection H as -> -> H. exists e.
  assert (j < length l) as Hj by (destruct (Nat.lt_ge_cases j (length l)); [done|rewrite drop_ge in Hd by done; done]).
  split_and!; [f_equal; lia|done|]. apply (f_equal (drop 1)) in Hd. rewrite drop_drop in Hd. simpl in Hd. rewrite Nat.add_1_r in Hd.
  rewrite Hd. etrans; [exact H|]. f_equal. lia.
Qed.

(** Steps of the session: the connection stays where it is. *)
Lemma main_session c c' :
  sv_pc c' = sv_pc c → sv_trace c' = sv_trace c → sv_watermark c' = sv_watermark c →
  (ss_seq (sn_snapshot (sv_snapshot c)) ≤ ss_seq (sn_snapshot (sv_snapshot c')))%Z →
  (sv_lagged c = true → sv_lagged c' = true) → (sv_dropped c = true → sv_dropped c' = true) →
  (sv_lagged c = false → sv_dropped c = is_full c →
     (sv_lagged c' = true ∧ sv_dropped c' = true) ∨
     (sv_lagged c' = false ∧ sv_dropped c' = is_full c' ∧ ∀ j, flow c j → flow c' j)) →
  main_ok c → main_ok c'.
Proof.
  intros Hpc Htr Hw Hsn Hlag Hdr Hfl [Hg Hp Hcl Hf]. split; unfold known, pending in *; rewrite ?Hpc, ?Htr; try done.
  destruct Hf as [?|[[? ?]|(Hl&Hd&j&Hj&Hs)]]; [by left|right; left; auto|]. right.
  destruct (Hfl Hl Hd) as [?|(?&?&Hfj)]; [by left|]. right. split_and!; [done..|]. exists j. split; [by apply Hfj|].
  unfold settled, known in *. rewrite Hpc, Htr, Hw. destruct (sv_pc c); try done. naive_solver lia.
Qed.

(** A step of the connection: it keeps what the session shares with it and goes on with
    the queue [q]. *)
Lemma main_conn c c' :
  sv_log c' = sv_log c → sv_dispatch c' = sv_dispatch c → sv_lagged c' = sv_lagged c → sv_dropped c' = sv_dropped c →
  gapless p0 (sv_trace c') → gapless (known c') (map TrOut (pending c')) →
  match sv_pc c' with
  | SvHandshake _ resume | SvReply _ resume _ => at_most resume (known c')
  | SvSync k => (k ≤ known c')%Z
  | _ => True
  end →
  ending (sv_pc c') ∨ (sv_lagged c = true ∧ sv_dropped c = true) ∨
    (flowing c → ∃ j, flow c' j ∧ settled c' j) →
  main_ok c → ¬ ending (sv_pc c) → main_ok c'.
Proof.
  intros El Ed Elag Edr Hg Hp Hcl Hf [_ _ _ Hflow] Hend. split; try done. rewrite Elag, Edr.
  destruct Hf as [?|[?|Hf]]; [by left|by right; left|]. destruct Hflow as [?|[?|Hfl]]; [done|by right; left|].
  right. right. destruct (Hf Hfl) as (j&?&?). destruct Hfl as (?&?&_). split_and!; [congruence|unfold is_full in *; by rewrite Ed, Edr|eauto].
Qed.

Lemma known_note c ts : known (note ts c) = position (known c) ts.
Proof. unfold known. simpl. by rewrite position_app. Qed.

Lemma calls_position es p : position p (calls es) = p ∧ gapless p (calls es).
Proof. induction es as [|[] es IH]; try done; exact (conj (proj1 IH) (conj I (proj2 IH))). Qed.

(** Whether a message of the queue is skipped or sent, the client ends up with it. *)
Lemma flow_next c m q rest j :
  got c ++ sv_queue c = m :: rest → Forall queued (m :: rest) → q = rest →
  flow c j → (Z.of_nat j ≤ known c)%Z → at_most (sv_watermark c) (known c) →
  ∃ j', j' ≤ handled c ∧ events_of q = number_from (Z.of_nat j') (drop j' (take (handled c) (sv_log c))) ∧
    (superseded (sv_watermark c) m = true → (Z.of_nat j' ≤ known c)%Z) ∧
    gapless (known c) [TrOut m] ∧ (Z.of_nat j' ≤ pos_step (known c) (TrOut m))%Z ∧ (known c ≤ pos_step (known c) (TrOut m))%Z.
Proof.
  intros Heq Hq -> [Hj Hfl] Hk Hw. rewrite Heq in Hfl. destruct (flow_cons _ _ _ _ Hfl) as [[Hm Hr]|(e&->&Hlt&Hr)].
  - exists j. inv Hq. by destruct m; try done; split_and!; simpl; try lia.
  - exists (S j). rewrite length_take in Hlt. split_and!; [lia|done| |split; [lia|done]|simpl; lia..].
    destruct (sv_watermark c) as [w|]; [|done]. simpl. intros ?%Z.leb_le. specialize (Hw w eq_refl). lia.
Qed.

Lemma main_reply c c' captured resume r :
  sv_pc c = SvReply captured resume r → base_ok c →
  c' = go (SvSend (attach_reply r captured fit (sv_stopped c) session_id caps resume)
    match attach_reply r captured fit (sv_stopped c) session_id caps resume with
    | SmAttachOk _ _ _ seq :: _ => NxWatermark seq | _ => NxEnd end) c →
  main_ok c → main_ok c'.
Proof.
  intros Hpc Hb -> Hm. pose proof (bo_saved _ Hb) as Hsv. pose proof (bo_resume _ Hb) as Hre. pose proof (mo_claims _ Hm) as Hcl.
  pose proof (bo_max _ Hb) as Hmax. rewrite Hpc in Hsv, Hre, Hcl. destruct Hsv as (h&h'&Hlog&Hr). rewrite Hlog, length_app in Hmax.
  destruct (attach_reply_cases r h captured (sv_stopped c) resume) as [(code&reason&->)|[(s&Hs&->)|(k&->&Hk&->)]];
    [done|lia|by intros k ->|done|..].
  - apply (main_conn c); try done; [apply Hm|by left|rewrite Hpc; exact id].
  - apply (main_conn c); try done; [apply Hm| |rewrite Hpc; exact id]. right. right. intros (_&_&j&Hj&Hset). exists j.
    split; [unfold flow, got in *; by rewrite Hpc in Hj|]. unfold settled in *. rewrite Hpc in Hset. simpl. unfold known. simpl.
    rewrite (Hfit _ _ Hs). destruct Hset as [-> _]. split; [lia|]. intros x [= <-]. lia.
  - specialize (Hcl k eq_refl). destruct (replay_known (drop (Z.to_nat k) h) (known c) k Hcl) as [Hg Hp].
    assert (k + Z.of_nat (length (drop (Z.to_nat k) h)) = Z.of_nat (length h))%Z as Hlen by (rewrite length_drop; lia).
    apply (main_conn c); try done; [apply Hm| |rewrite Hpc; exact id]. right. right. intros (_&_&j&Hj&Hset). exists j.
    split; [unfold flow, got in *; by rewrite Hpc in Hj|]. unfold settled in *. rewrite Hpc in Hset. simpl.
    destruct Hset as [_ Hset]. rewrite (log_sequence _ _ Hr) in Hset.
    assert (position (known c) (map TrOut (SmAttachOk PROTOCOL_VERSION session_id caps (Z.of_nat (length h)) ::
      map (λ p, SmEvent p.1 p.2) (number_from k (drop (Z.to_nat k) h)))) = Z.max (known c) (Z.of_nat (length h))) as HP
      by (rewrite <- Hlen; exact Hp).
    change (known (go _ c)) with (known c). simpl in HP. rewrite HP. split; [lia|]. intros x [= <-]. lia.
Qed.

Lemma main_session_step a c c' :
  act_spec c a c' → base_ok c → base_ok c' →
  match a with
  | AEmit _ | ASnapshotHandler | AQueueHandler | ALagStore | ADispatched | APromptError _ _ | APromptEnd | AStop
  | ANotifyStop | AReplace => main_ok c → main_ok c'
  | _ => True
  end.
Proof.
  intros Hact Hb Hb'. pose proof (bo_dispatch _ Hb) as Hdp.
  destruct Hact; try done; try rewrite Hd in Hdp; (apply main_session; try done; simpl; try lia).
  - intros Hl Hdr. right. unfold is_full in *. simpl. rewrite Hd in Hdr. rewrite Hobs. split_and!; [done..|].
    intros j [Hj Hq]. unfold flow, handled, got in *. simpl. rewrite Hd in Hj, Hq. rewrite length_app. simpl.
    replace (length (sv_log c) + 1 - 1) with (length (sv_log c)) by lia. split; [done|]. rewrite take_app_le, firstn_all in * by lia. done.
  - pose proof (bo_snapshot _ Hb) as H1. pose proof (bo_snapshot _ Hb') as H2. unfold applied in H1, H2. simpl in H2. rewrite Hd in H1.
    rewrite H1, H2. lia.
  - intros Hl Hdr. right. unfold is_full, flow, handled, got in *. simpl. rewrite Hd in Hdr |- *. done.
  - intros Hl Hdr. right. unfold is_full, flow, handled, got in *. simpl. rewrite Hd in Hdr |- *. split_and!; [done..|].
    destruct Hdp as (h&Hlog&Hseq). simpl in Hseq, Hlog. rewrite Hlog, length_app. simpl. intros j [Hj Hq].
    replace (length h + 1 - 1) with (length h) in Hj, Hq by lia. rewrite take_app_length in Hq.
    split; [lia|]. rewrite app_assoc, events_of_app, Hq, firstn_all2, drop_app_le, number_from_app by (rewrite ?length_app; simpl; lia).
    simpl. rewrite Hseq, Hlog, length_app, length_drop. simpl. do 3 f_equal. lia.
  - intros Hl Hdr. right. unfold is_full, flow, handled, got in *. simpl. rewrite Hd. done.
  - intros Hl Hdr. left. unfold is_full in Hdr. by rewrite Hd in Hdr.
  - intros Hl Hdr. right. unfold is_full, flow, handled, got in *. simpl. rewrite Hd in Hdr |- *. done.
  - intros Hl Hdr. right. split_and!; [done..|]. unfold flow, handled, got. simpl. intros j. rewrite !app_assoc, (events_of_app (_ ++ _)). simpl.
    by rewrite app_nil_r.
  - intros Hl Hdr. by right.
  - intros Hl Hdr. by right.
  - intros Hl Hdr. by right.
  - intros Hl Hdr. by right.
Qed.

Lemma flow_same c c' j :
  sv_log c' = sv_log c → sv_dispatch c' = sv_dispatch c → got c' ++ sv_queue c' = got c ++ sv_queue c → flow c j → flow c' j.
Proof. unfold flow, handled. by intros -> -> ->. Qed.

Lemma at_most_le w p q : at_most w p → (p ≤ q)%Z → at_most w q.
Proof. intros Hw Hle x Hx. specialize (Hw x Hx). lia. Qed.

Lemma known_in p m : (p ≤ pos_step p (TrIn m))%Z.
Proof. destruct m; simpl; lia. Qed.

(** The queue stays; the client knows at least what it knew. *)
Ltac keeps_flow c Hpc :=
  right; right; intros (_&_&j&Hj&Hset); exists j; unfold settled in Hset; rewrite Hpc in Hset;
  split; [apply (flow_same c); [done|done| |done]; unfold got; simpl; by rewrite Hpc|].

(** Whoever drains has been stopped. *)
Lemma stop_or_flowing c :
  main_ok c → sv_stopped c = true → ¬ ending (sv_pc c) → (sv_dropped c = true ∧ sv_stopped c = true) ∨ flowing c.
Proof. intros [_ _ _ [?|[[? ?]|?]]] ? ?; [done|by left|by right]. Qed.

(** Steps of the connection. *)
Lemma main_conn_step a c c' :
  act_spec c a c' → act_ok a → base_ok c → Forall queued (got c ++ sv_queue c) → main_ok c →
  (sv_dropped c = true ∧ sv_stopped c = true) ∨
  match a with
  | AReplay | AReply | ARecv _ _ | AEvent | ACheck | AStopNotice | AReplacedNotice | ASyncReplay | AReadSnapshot | ADrain | ASent
  | ASendFailed => main_ok c'
  | _ => True
  end.
Proof.
  intros Hact Hok Hb Hq Hm. pose proof (mo_gapless _ Hm) as Hg. pose proof (mo_claims _ Hm) as Hcl. pose proof (mo_pending _ Hm) as Hp.
  unfold pending in Hp.
  destruct Hact; try (by right); try rewrite Hpc in Hcl; try rewrite Hpc in Hp.
  - right. apply (main_conn c); try done; [|rewrite Hpc; exact id]. keeps_flow c Hpc. split; [done|]. destruct Hj as [Hj _].
    rewrite (log_sequence _ _ (bo_router _ Hb)). unfold handled in Hj. rewrite Hd in Hj. lia.
  - right. unfold reply. clear reply. rewrite Hobs. by eapply main_reply.
  - right. apply (main_conn c); try done; [by left|rewrite Hpc; exact id].
  - destruct (stop_or_flowing c Hm Hst) as [?|_]; [rewrite Hpc; exact id|by left|]. right.
    apply (main_conn c); try done; [simpl; by apply gapless_app| |rewrite Hpc; exact id]. keeps_flow c Hpc.
    unfold settled. simpl. change (known (go SvDrain (note [TrIn m] c))) with (known (note [TrIn m] c)). rewrite known_note.
    change (position (known c) [TrIn m]) with (pos_step (known c) (TrIn m)). pose proof (known_in (known c) m). destruct Hset. split; [lia|]. by eapply at_most_le.
  - right. apply (main_conn c); try done; [simpl; by apply gapless_app|by left|rewrite Hpc; exact id].
  - right. rewrite Hobs.
    assert (known (note [TrIn (CmSyncRequest k)] (go (SvSync k) c)) = Z.max (known c) k) as Hk by (by rewrite known_note).
    apply (main_conn c); try done; [simpl; by apply gapless_app|simpl; rewrite Hk; lia| |rewrite Hpc; exact id].
    keeps_flow c Hpc. unfold settled. simpl. rewrite Hk. destruct Hset. split; [lia|]. eapply at_most_le; [done|lia].
  - right. pose proof (handle_quiet (sv_in_flight c) a m Hok) as Hes. fold es in Hes.
    destruct (calls_position es (known c)) as [Hcp Hcg].
    assert (pos_step (known c) (TrIn m) = known c) as Hin by (by destruct m).
    set (c' := go _ _). assert (known c' = known c) as Hk.
    { change (known c') with (known (note (TrIn m :: calls es) c)). rewrite known_note.
      change (position (known c) (TrIn m :: calls es)) with (position (pos_step (known c) (TrIn m)) (calls es)). by rewrite Hin. }
    destruct (quiet_known (sends es) (known c) Hes) as [Hsg Hsp].
    apply (main_conn c); try done; [|rewrite Hk; exact Hsg| |rewrite Hpc; exact id].
    + apply gapless_app. split; [done|]. change (position p0 (sv_trace c)) with (known c). split; [by destruct m|].
      change (gapless (pos_step (known c) (TrIn m)) (calls es)). by rewrite Hin.
    + keeps_flow c Hpc.
      change (settled c' j) with ((Z.of_nat j ≤ position (known c') (map TrOut (sends es)))%Z ∧
        at_most (sv_watermark c) (position (known c') (map TrOut (sends es)))). by rewrite Hk, Hsp.
  - right. apply (main_conn c); try done; [|rewrite Hpc; exact id]. right. right. intros (_&_&j&Hj&Hset). exists j.
    unfold settled in Hset. rewrite Hpc in Hset. split; [|done]. apply (flow_same c); [done..| |done]. unfold got. rewrite Hpc. simpl. by rewrite Hq0.
  - right. split; try done. by left.
  - right. apply (main_conn c); try done; [|rewrite Hpc; exact id]. right. right. intros (_&_&j&Hj&Hset).
    unfold settled in Hset. rewrite Hpc in Hset. destruct Hset as [Hk Hw].
    destruct (flow_next c m (sv_queue c) (sv_queue c) j) as (j'&Hj'&Hev&Hsk&_); [unfold got; by rewrite Hpc|unfold got in Hq; by rewrite Hpc in Hq|done..|].
    exists j'. split; [done|]. split; [by apply Hsk|done].
  - right. destruct (mo_flow _ Hm) as [?|[[? ?]|Hfl]]; [by rewrite Hpc in *|congruence|].
    pose proof Hfl as (_&_&j&Hj&Hset). unfold settled in Hset. rewrite Hpc in Hset. destruct Hset as [Hk Hw].
    destruct (flow_next c m (sv_queue c) (sv_queue c) j) as (j'&Hj'&Hev&_&Hgm&Hpm&Hmono);
      [unfold got; by rewrite Hpc|unfold got in Hq; by rewrite Hpc in Hq|done..|].
    apply (main_conn c); try done; [|rewrite Hpc; exact id]. right. right. intros _. exists j'. split; [done|].
    split; [exact Hpm|]. by eapply at_most_le.
  - assert (sv_stopped c = true) as Hst by (apply (bo_stop _ Hb); by right).
    destruct (stop_or_flowing c Hm Hst) as [?|_]; [rewrite Hpc; exact id|by left|]. right.
    apply (main_conn c); try done; [|rewrite Hpc; exact id]. keeps_flow c Hpc. done.
  - right. apply (main_conn c); try done; [by left|rewrite Hpc; exact id].
  - right. pose proof (bo_resume _ Hb) as Hk. rewrite Hpc in Hk.
    destruct (replay_from_log _ _ _ _ _ (bo_router _ Hb) (bo_max _ Hb) Hk Hre) as (->&Hle&->&_).
    destruct (replay_known (drop (Z.to_nat k) (sv_log c)) (known c) k Hcl) as [Hsg Hsp].
    apply (main_conn c); try done; [|rewrite Hpc; exact id]. keeps_flow c Hpc.
    set (ms := map (λ p, SmEvent p.1 p.2) _) in *. set (c' := go _ _). change (settled c' j) with ((Z.of_nat j ≤ position (known c) (map TrOut ms))%Z ∧
        at_most (Some (Z.of_nat (length (sv_log c)))) (position (known c) (map TrOut ms))).
    rewrite Hsp, length_drop. destruct Hset. split; [lia|]. intros x [= <-]. lia.
  - right. apply (main_conn c); try done; [|rewrite Hpc; exact id]. keeps_flow c Hpc. destruct Hset. split_and!; [done..|].
    simpl. rewrite (bo_snapshot _ Hb). unfold applied. destruct Hj as [Hj _]. unfold handled in Hj. rewrite Hd in Hj |- *. lia.
  - right. apply (main_conn c); try done; [|rewrite Hpc; exact id]. keeps_flow c Hpc. destruct Hset as (?&?&_). done.
  - right. apply (main_conn c); try done; [|rewrite Hpc; exact id]. keeps_flow c Hpc. destruct Hset as (_&_&Hsn).
    rewrite <- (Hfit _ _ Hf) in Hsn. split; [exact Hsn|]. intros x [= <-]. simpl. lia.
  - right. apply (main_conn c); try done; [by left|rewrite Hpc; exact id].
  - assert (sv_stopped c = true) as Hst by (apply (bo_stop _ Hb); rewrite Hpc; by left).
    destruct (stop_or_flowing c Hm Hst) as [?|Hfl]; [rewrite Hpc; exact id|by left|]. right.
    apply (main_conn c); try done; [unfold pending; simpl; by rewrite Hpc|simpl; by rewrite Hpc| |rewrite Hpc; exact id]. right. right. intros (_&_&j&Hj&Hset).
    unfold settled in Hset. rewrite Hpc in Hset. destruct Hset as [Hk Hw].
    destruct (flow_next c m q q j) as (j'&Hj'&Hev&Hsk&_); [unfold got; by rewrite Hpc, Hq0|unfold got in Hq; by rewrite Hpc, Hq0 in Hq|done..|].
    exists j'. split; [unfold flow, got; simpl; by rewrite Hpc|]. unfold settled. simpl. rewrite Hpc. split; [by apply Hsk|done].
  - assert (sv_stopped c = true) as Hst by (apply (bo_stop _ Hb); rewrite Hpc; by left).
    destruct (stop_or_flowing c Hm Hst) as [?|Hfl]; [rewrite Hpc; exact id|by left|]. right.
    pose proof Hfl as (_&_&j&Hj&Hset). unfold settled in Hset. rewrite Hpc in Hset. destruct Hset as [Hk Hw].
    destruct (flow_next c m q q j) as (j'&Hj'&Hev&_&Hgm&Hpm&Hmono);
      [unfold got; by rewrite Hpc, Hq0|unfold got in Hq; by rewrite Hpc, Hq0 in Hq|done..|].
    apply (main_conn c); try done; [|rewrite Hpc; exact id]. right. right. intros _. exists j'. split; [done|].
    split; [exact Hpm|]. by eapply at_most_le.
  - right. destruct Hp as [Hp1 Hp2].
    assert (gapless p0 (sv_trace c ++ [TrOut m])) as Hg' by (by apply gapless_app).
    set (c' := go _ _). assert (known c' = pos_step (known c) (TrOut m)) as Hk
      by (change (known c') with (known (note [TrOut m] c)); by rewrite known_note).
    split; [done|unfold pending; simpl; by rewrite Hk|done|].
    destruct (mo_flow _ Hm) as [Hend|[?|(?&?&j&Hj&Hset)]]; [left; by rewrite Hpc in Hend|by right; left|].
    right. right. split_and!; [done..|]. exists j. split; [apply (flow_same c); [done..| |done]; unfold got; by rewrite Hpc|].
    unfold settled in Hset. rewrite Hpc in Hset.
    change (settled c' j) with ((Z.of_nat j ≤ position (known c') (map TrOut ms))%Z ∧
      at_most (match next with NxWatermark seq => Some seq | _ => sv_watermark c end) (position (known c') (map TrOut ms))).
    by rewrite Hk.
  - right. apply (main_conn c); try done; [|rewrite Hpc; exact id]. keeps_flow c Hpc. done.
  - right. destruct (sv_stopped c); (apply (main_conn c); try done; [|rewrite Hpc; exact id]); [by left|]. keeps_flow c Hpc. done.
  - right. apply (main_conn c); try done; [|rewrite Hpc; exact id]. keeps_flow c Hpc. done.
  - right. apply (main_conn c); try done; [|rewrite Hpc; exact id]. keeps_flow c Hpc. done.
  - right. split; try done. by left.
  - right. split; try done. by left.
Qed.

(** *** Everything together *)

Record serve_ok (c : Conn) : Prop := {
  so_base : base_ok c;
  so_queue : Forall queued (got c ++ sv_queue c);
  so_main : (sv_dropped c = true ∧ sv_stopped c = true) ∨ main_ok c;
}.

Lemma flags_stay a c c' :
  act_spec c a c' → (sv_dropped c = true → sv_dropped c' = true) ∧ (sv_stopped c = true → sv_stopped c' = true).
Proof. by destruct 1. Qed.

Lemma serve_ok_step c c' : serve_step c c' → serve_ok c → serve_ok c'.
Proof.
  intros (a&Hok&Hact) [Hb Hq Hm]. pose proof (base_step a c c' Hok Hact Hb) as Hb'. apply serve_act_spec in Hact.
  split; [done|by eapply queued_step|]. destruct (flags_stay _ _ _ Hact) as [Hdr Hst].
  destruct Hm as [[? ?]|Hm]; [left; auto|]. pose proof (main_session_step a c c' Hact Hb Hb') as Hs.
  destruct (main_conn_step a c c' Hact Hok Hb Hq Hm) as [[? ?]|Hc]; [left; auto|]. right. destruct a; auto.
Qed.

(** The start of a connection. *)
Lemma serve_ok_start r h s resume :
  router_log r h → (Z.of_nat (length h) ≤ U64_MAX)%Z → ss_seq (sn_snapshot s) = Z.of_nat (length h) →
  (∀ k, resume = Some k → (0 ≤ k ≤ p0)%Z) → serve_ok (serve_start r h s resume).
Proof.
  intros Hr Hm Hs Hk. split; [|constructor|right].
  - split; try done; simpl; [set_solver|destruct resume as [k|]; [apply (Hk k eq_refl)|done]|by intros [[]|?]].
  - split; simpl; [done..|by intros k Hx; apply Hk|]. right. right. split_and!; [done..|]. exists (length h). split; [|done].
    split; [done|]. unfold handled. simpl. by rewrite firstn_all, drop_all.
Qed.

Lemma serve_ok_reachable c c' : rtc serve_step c c' → serve_ok c → serve_ok c'.
Proof. induction 1; eauto using serve_ok_step. Qed.

End serving.

(** ** What a connection may do *)

Definition needs (e : Effect) : option ClientCapability :=
  match e with
  | SpawnPrompt _ _ _ => Some CapPrompt
  | CancelTurn => Some CapInterrupt
  | StopSession => Some CapStop
  | ClearHistory | ApplyOption _ _ => Some CapConfigure
  | ReadUsage | ListPage _ => Some CapObserve
  | ResolveApproval _ _ _ _ | Send _ => None
  end.

(** What only an observer may see. *)
Definition observation (m : ServerMessage) : bool :=
  match m with SmEvent _ _ | SmSnapshot _ _ | SmUsage _ _ | SmSessionList _ _ _ _ _ => true | _ => false end.

Section rights.
Context (limits : ProtocolLimits) (client session_id : string) (caps : list ClientCapability) (capacity : nat)
  (fit : SessionSnapshot → result SessionSnapshot string).

(** A granted capability, and approvals under the identity and with the capabilities of
    the connection. *)
Definition entitled (e : Effect) : Prop :=
  (∀ c, needs e = Some c → has_capability caps c = true) ∧
  match e with ResolveApproval _ by_ with_ _ => by_ = client ∧ with_ = caps | _ => True end ∧
  match e with Send m => has_capability caps CapObserve = false → observation m = false | _ => True end.

Lemma validated_entitled m k : Forall entitled k → Forall entitled (validated limits m k).
Proof. unfold validated. destruct (validate_client_message _ _); [done|]. by repeat constructor. Qed.

Lemma permitted_entitled c d m k :
  (has_capability caps c = true → Forall entitled k) → Forall entitled (permitted caps c d m k).
Proof. unfold permitted. destruct (has_capability _ _); [auto|]. by repeat constructor. Qed.

Lemma entitled_call e c : needs e = Some c → has_capability caps c = true → entitled e.
Proof. intros He Hc. split; [intros c' ?; by simplify_eq|]. by destruct e. Qed.

Lemma handle_entitled in_flight a m : Forall entitled (handle limits client caps in_flight a m).
Proof.
  destruct m; simpl; try (by repeat constructor); try apply validated_entitled; try (apply permitted_entitled; intros Hc);
    try (by repeat constructor).
  - destruct (an_completed a), in_flight; try (by repeat constructor). constructor; [by eapply entitled_call|done].
  - unfold handle_approval. repeat case_match; by repeat constructor.
  - constructor; [by eapply entitled_call|]. destruct request_id0; by repeat constructor.
  - constructor; [by eapply entitled_call|]. destruct (an_stopped a); by repeat constructor.
  - constructor; [by eapply entitled_call|]. destruct (an_cleared a) as [|[]]; by repeat constructor.
  - destruct (an_turn_active a); [by repeat constructor|]. constructor; [by eapply entitled_call|].
    constructor; [|done]. split; [done|]. split; [done|congruence].
  - unfold handle_list. destruct (validate_client_message _ _); [|by repeat constructor]. apply permitted_entitled. intros Hc.
    constructor; [by eapply entitled_call|]. destruct (an_page a) as [|[]]; repeat constructor; try done. congruence.
  - constructor; [by eapply entitled_call|]. destruct (an_applied a) as [|e]; [|by destruct e; repeat constructor].
    destruct request_id0; by repeat constructor.
Qed.

Lemma entitled_calls es e : Forall entitled es → TrCall e ∈ calls es → entitled e.
Proof.
  intros Hes. unfold calls. rewrite list_elem_of_omap. intros (e'&Hin&He'). rewrite Forall_forall in Hes.
  specialize (Hes _ Hin). destruct e'; by simplify_eq.
Qed.

Definition unseen (m : ServerMessage) : Prop := observation m = false.

Lemma entitled_sends es :
  Forall entitled es → has_capability caps CapObserve = false → Forall unseen (sends es).
Proof.
  intros Hes Hobs. unfold sends. apply Forall_forall. intros m (e&Hin&He)%list_elem_of_omap. rewrite Forall_forall in Hes.
  destruct (Hes _ Hin) as (_&_&Hs). destruct e; simplify_eq. by apply Hs.
Qed.

(** A connection that does not observe waits for no event and asks for no snapshot. *)
Record unobserving (c : Conn) : Prop := {
  un_sent : Forall unseen (sent (sv_trace c));
  un_pending : Forall unseen (pending c);
  un_queue : Forall unseen (got c ++ sv_queue c);
  un_dispatch : match sv_dispatch c with Some d => dp_queue d = QsDone | None => True end;
  un_pc : match sv_pc c with SvSync _ | SvSyncSnapshot => False | _ => True end;
}.

Lemma unobserving_step a c c' :
  has_capability caps CapObserve = false → act_spec limits client session_id caps fit c a c' → unobserving c → unobserving c'.
Proof.
  intros Hobs Hact [Hs Hp Hq Hd Hpc]. assert (observes caps = false) as Hobs' by done.
  assert (Forall unseen (sv_queue c)) as Hq' by (by apply Forall_app in Hq as [_ ?]).
  destruct Hact as [event seq Hd0 Hseq|seq event q Hd0|seq event b Hd0|seq event b Hd0|seq event b Hd0|seq event Hd0|rid e code message
    | | | | |captured resume Hpc0 Hd0|captured resume r Hpc0|a Hpc0|m a Hpc0 Hst|a Hpc0|k a Hpc0|m a Hpc0 Hst Hm|m q Hpc0 Hq0|m Hpc0 Hl
    |m Hpc0 Hl Hsup|m Hpc0 Hl Hsup|Hpc0 Hn|Hpc0|k ev l Hpc0 Hd0 Hre|k l Hpc0 Hd0 Hre|message Hpc0|s Hpc0 Hf|Hpc0 Hq0|m q Hpc0 Hq0 Hsup
    |m q Hpc0 Hq0 Hsup|m ms next Hpc0|Hpc0|Hpc0|seq Hpc0|Hpc0|Hpc0|m ms next Hpc0];
    try rewrite Hd0 in Hd; try discriminate Hd; try (rewrite Hpc0 in Hpc; done);
    unfold got, pending in *; try rewrite Hpc0 in *; split; unfold got, pending; simpl in *; rewrite ?Hpc0; simpl; try done.
  all: try (by rewrite Hobs'). all: try (by repeat constructor).
  all: rewrite ?sent_app; try (apply Forall_app; split; [done|by repeat constructor]).
  all: try (by rewrite Hd0); try (by destruct (sv_stopped c); repeat constructor); try (by rewrite Hq0 in Hq'; inv Hq').
  - rewrite app_assoc. apply Forall_app. split; [done|by repeat constructor].
  - unfold reply, attach_reply. rewrite Hobs', Hobs. by repeat constructor.
  - rewrite Hobs'. by repeat constructor.
  - apply Forall_app. split; [done|]. change (sent (TrIn m :: calls es)) with (sent (calls es)). by rewrite calls_sent.
  - apply entitled_sends; [apply handle_entitled|done].
  - by rewrite <- Hq0.
  - inv Hq. by constructor.
  - rewrite Hq0 in Hq'. inv Hq'. by constructor.
  - apply Forall_app. split; [done|]. inv Hp. by constructor.
  - by inv Hp.
Qed.

Record rights_ok (c : Conn) : Prop := {
  rk_calls : ∀ e, TrCall e ∈ sv_trace c → entitled e;
  rk_seen : has_capability caps CapObserve = false → unobserving c;
}.

Lemma rights_step c c' : serve_step limits client session_id caps capacity fit c c' → rights_ok c → rights_ok c'.
Proof.
  intros (a&_&Hact%serve_act_spec) [Hc Hs]. split; [|intros Hobs; eapply unobserving_step; eauto].
  intros e He. assert (∃ ts, sv_trace c' = sv_trace c ++ ts ∧ (TrCall e ∈ ts → entitled e)) as (ts&Htr&Hts).
  { destruct Hact; try (by exists []; rewrite app_nil_r; split; [|intros []%not_elem_of_nil]); try (by eexists [_]; split; [done|set_solver]).
    exists (TrIn m :: calls es). split; [done|]. intros [?|Hin]%elem_of_cons; [done|]. eapply entitled_calls; [apply handle_entitled|done]. }
  rewrite Htr in He. apply elem_of_app in He as [?|?]; auto.
Qed.

Lemma rights_reachable c c' :
  rtc (serve_step limits client session_id caps capacity fit) c c' → rights_ok c → rights_ok c'.
Proof. induction 1; eauto using rights_step. Qed.

End rights.

(** ** What is granted *)

Lemma has_capability_elem caps c : has_capability caps c = true ↔ c ∈ caps.
Proof.
  unfold has_capability. rewrite existsb_exists. split.
  - intros (x&Hin%list_elem_of_In&<-%bool_decide_eq_true). done.
  - intros Hin. exists c. split; [by apply list_elem_of_In|by apply bool_decide_eq_true].
Qed.

(** Nothing is granted that was not allowed and asked for. *)
Lemma grant_sound policy requested c :
  has_capability (grant policy requested) c = true → c ∈ cp_allowed policy ∧ c ∈ requested.
Proof.
  rewrite has_capability_elem. unfold grant.
  assert (∀ acc, (c ∈ acc → c ∈ cp_allowed policy ∧ c ∈ requested) → ∀ rest, rest ⊆ requested →
    c ∈ foldl (λ granted capability, if has_capability (cp_allowed policy) capability && negb (has_capability granted capability)
      then granted ++ [capability] else granted) acc rest → c ∈ cp_allowed policy ∧ c ∈ requested) as H.
  { intros acc Hacc rest. revert acc Hacc. induction rest as [|x rest IH]; intros acc Hacc Hsub; [done|]. simpl. apply IH; [|set_solver].
    destruct (has_capability (cp_allowed policy) x) eqn:Hx; [|done]. simpl. destruct (negb _); [|done].
    intros [?|Hc%list_elem_of_singleton]%elem_of_app; [auto|subst x]. split; [by apply has_capability_elem|set_solver]. }
  apply (H [] ltac:(by intros ?%not_elem_of_nil) requested). done.
Qed.

(** ** Keys of requests *)

(** No colon in the text. *)
Fixpoint colon_free (s : string) : Prop :=
  match s with EmptyString => True | String x s => x ≠ Ascii.ascii_of_nat 58 ∧ colon_free s end.

Lemma to_digits_colon_free fuel : ∀ n acc, (0 ≤ n)%Z → colon_free acc → colon_free (to_digits fuel n acc).
Proof.
  induction fuel as [|fuel IH]; intros n acc Hn Ha; [done|]. simpl. assert (0 ≤ n mod 10 < 10)%Z as Hd by (apply Z.mod_pos_bound; lia).
  assert (colon_free (String (digit_char (n mod 10)) acc)) as Hc.
  { split; [|done]. revert Hd. generalize (n mod 10)%Z as d. intros d Hd.
    assert (d = 0 ∨ d = 1 ∨ d = 2 ∨ d = 3 ∨ d = 4 ∨ d = 5 ∨ d = 6 ∨ d = 7 ∨ d = 8 ∨ d = 9)%Z as Hcases by lia.
    by repeat destruct Hcases as [->|Hcases]; [done..|subst]. }
  case_match; [done|]. apply IH; [apply Z.div_pos; lia|done].
Qed.

Lemma colon_split a : ∀ b x y, colon_free a → colon_free b → a +:+ ":" +:+ x = b +:+ ":" +:+ y → a = b ∧ x = y.
Proof.
  induction a as [|c a IH]; intros [|c' b] x y Ha Hb H; rewrite ?append_cons, ?append_nil_l in H; simpl in *.
  - by injection H as ->.
  - injection H as ? _. naive_solver.
  - injection H as ? _. naive_solver.
  - injection H as -> H. destruct Ha as [_ Ha], Hb as [_ Hb]. by destruct (IH b x y Ha Hb H) as [-> ->].
Qed.

Lemma append_inj a b x y : String.length a = String.length b → a +:+ x = b +:+ y → a = b ∧ x = y.
Proof.
  revert b. induction a as [|c a IH]; intros [|c' b] Hl H; try done. rewrite !append_cons in H. injection H as -> H. simpl in Hl.
  destruct (IH b) as [-> ->]; [lia|done|done].
Qed.

(** ** Theorems *)

(** requests of different clients do not collide: the key under which a completed
    request is remembered determines the client and its request. *)
Theorem client_request_key_injective (client client' rid rid' : string)
    (Hlen : is_u64 (Z.of_nat (String.length client))) (Hlen' : is_u64 (Z.of_nat (String.length client')))
    (Hkey : client_request_key client rid = client_request_key client' rid') :
  client = client' ∧ rid = rid'.
Proof.
  unfold client_request_key in Hkey. apply colon_split in Hkey as [Hd Hrest]; [|apply to_digits_colon_free; [lia|done]..].
  pose proof (parse_u64_to_string _ Hlen) as Hp. rewrite Hd, (parse_u64_to_string _ Hlen') in Hp. injection Hp as Hp.
  apply append_inj in Hrest as [-> ->]; [done|lia].
Qed.

(** The identity of the request a message answers. *)
Definition answers_request (m : ServerMessage) : option string :=
  match m with
  | SmError rid _ _ => rid
  | SmCommandResult rid _ _ | SmUsage rid _ | SmSessionList rid _ _ _ _ => Some rid
  | _ => None
  end.

(** What the loop does with a message that has a request identity. *)
Lemma handle_answers_once (limits : ProtocolLimits) (client : string) (caps : list ClientCapability)
    (in_flight : bool) (a : Answers) (m : ClientMessage) (rid : string)
    (Hok : act_ok (ARecv (Some m) a)) (Hrid : request_id m = Some rid) :
  let es := handle limits client caps in_flight a m in
  (∃ text, m = CmPrompt rid text ∧ in_flight = false ∧ es = [SpawnPrompt rid text (client_request_key client rid)]) ∨
  (∃ reply, sends es = [reply] ∧ answers_request reply = Some rid ∧ spawns es = false).
Proof.
  intros es. unfold es. clear es.
  assert (∀ k, (∃ reply, sends k = [reply] ∧ answers_request reply = Some rid ∧ spawns k = false) →
    ∃ reply, sends (validated limits m k) = [reply] ∧ answers_request reply = Some rid ∧ spawns (validated limits m k) = false) as Hv
    by (intros k Hk; unfold validated; destruct (validate_client_message _ _); [done|by eexists]).
  assert (∀ c d k, (∃ reply, sends k = [reply] ∧ answers_request reply = Some rid ∧ spawns k = false) →
    ∃ reply, sends (permitted caps c d m k) = [reply] ∧ answers_request reply = Some rid ∧ spawns (permitted caps c d m k) = false) as Hper
    by (intros c d k Hk; unfold permitted; destruct (has_capability _ _); [done|by eexists]).
  destruct m; simpl in Hrid; try done; simplify_eq; cbn [handle].
  - unfold handle_prompt, validated, permitted. destruct (validate_client_message _ _); [|right; by eexists].
    destruct (has_capability _ _), (an_completed a), in_flight; try (right; by eexists). left. by eexists.
  - right. apply Hv, Hper. by eexists.
  - right. apply Hv, Hper. destruct (an_stopped a); by eexists.
  - right. apply Hv, Hper. destruct (an_cleared a) as [|[]]; by eexists.
  - right. apply Hv, Hper. destruct (an_turn_active a); by eexists.
  - right. unfold handle_list. destruct (validate_client_message _ _); [|by eexists]. apply Hper. simpl in Hok.
    destruct (an_page a) as [[]|[]]; try done; subst; by eexists.
  - right. apply Hv, Hper. destruct (an_applied a) as [|[]]; by eexists.
Qed.

Section requests.
Context (limits : ProtocolLimits) (client session_id : string) (caps : list ClientCapability) (capacity : nat)
  (fit : SessionSnapshot → result SessionSnapshot string).

(** A connection that drains, left to itself, sends what is queued and not superseded, then
    the notice, and ends. *)
Lemma drain_ends q : ∀ c, sv_pc c = SvDrain → sv_queue c = q →
  ∃ acts c', serve_run limits client session_id caps capacity fit acts c = Some c' ∧
    Forall (λ act, act = ADrain ∨ act = ASent) acts ∧ sv_pc c' = SvEnd ∧
    sv_trace c' = sv_trace c ++ map TrOut (filter (λ m, superseded (sv_watermark c) m = false) q ++ [session_stopped]).
Proof.
  induction q as [|m q IH]; intros c Hpc Hq.
  - exists [ADrain; ASent; ASent]. eexists. cbn. unfold drain. rewrite Hpc, Hq. cbn. split; [reflexivity|].
    split; [repeat (apply Forall_cons; split; [by auto|]); by apply Forall_nil|]. split; reflexivity.
  - rewrite filter_cons. destruct (superseded (sv_watermark c) m) eqn:Hs.
    + rewrite decide_False by done.
      destruct (IH (set_queue q (sv_lagged c) (sv_dropped c) c)) as (acts&c'&Hr&Hf&He&Ht); [done..|].
      exists (ADrain :: acts), c'. cbn. unfold drain. rewrite Hpc, Hq. cbn. rewrite Hs. cbn. split; [exact Hr|].
      split; [by apply Forall_cons; auto|done].
    + rewrite decide_True by done.
      destruct (IH (go SvDrain (note [TrOut m] (set_queue q (sv_lagged c) (sv_dropped c) c)))) as (acts&c'&Hr&Hf&He&Ht); [done..|].
      exists (ADrain :: ASent :: ASent :: acts), c'. cbn. unfold drain. rewrite Hpc, Hq. cbn. rewrite Hs. cbn. split; [exact Hr|].
      split; [repeat (apply Forall_cons; split; [by auto|]); first [by apply Forall_nil|done]|]. split; [done|]. rewrite Ht. cbn. by rewrite <- app_assoc.
Qed.

(** C22: a request that the loop of a connection receives is answered once. While the
    session is not stopped, a message with a request identity is answered by exactly one
    message that carries it, whether it is malformed, refused, fails or succeeds, and the
    connection goes back to its loop; the exception is an accepted prompt, which starts
    exactly one prompt task under the key of this client and request and sends nothing.
    Once the session is stopped no request is looked at or answered under its identity:
    the connection sends what it has queued and the notice that the session stopped, and
    ends. (A connection whose transport fails ends without answering.) *)
Theorem every_request_answered_once (c : Conn) (a : Answers) (m : ClientMessage) (rid : string)
    (Hloop : sv_pc c = SvLoop) (Hok : act_ok (ARecv (Some m) a)) (Hrid : request_id m = Some rid) :
  let run acts := serve_run limits client session_id caps capacity fit (ARecv (Some m) a :: acts) c in
  if sv_stopped c
  then ∃ acts c', run acts = Some c' ∧ Forall (λ act, act = ADrain ∨ act = ASent) acts ∧ sv_pc c' = SvEnd ∧
    sv_trace c' = sv_trace c ++ TrIn m ::
      map TrOut (filter (λ q, superseded (sv_watermark c) q = false) (sv_queue c) ++ [session_stopped])
  else
    (∃ text c', m = CmPrompt rid text ∧ sv_in_flight c = false ∧ run [ASent] = Some c' ∧ sv_pc c' = SvLoop ∧
       sv_in_flight c' = true ∧
       sv_trace c' = sv_trace c ++ [TrIn m; TrCall (SpawnPrompt rid text (client_request_key client rid))]) ∨
    (∃ reply effects c', run [ASent; ASent] = Some c' ∧ sv_pc c' = SvLoop ∧ sv_in_flight c' = sv_in_flight c ∧
       sv_queue c' = sv_queue c ∧ answers_request reply = Some rid ∧ sent effects = [] ∧
       sv_trace c' = sv_trace c ++ TrIn m :: effects ++ [TrOut reply]).
Proof.
  intros run. destruct (sv_stopped c) eqn:Hst.
  - destruct (drain_ends (sv_queue c) (go SvDrain (note [TrIn m] c))) as (acts&c'&Hr&Hf&He&Ht); [done..|].
    exists acts, c'. unfold run. simpl. unfold receive_client. rewrite Hloop, Hst. cbn. split; [exact Hr|]. split; [done|].
    split; [done|]. rewrite Ht. cbn. by rewrite <- app_assoc.
  - assert (∀ acts, run acts = serve_run limits client session_id caps capacity fit acts
      (let es := handle limits client caps (sv_in_flight c) a m in
       go (SvSend (sends es) NxLoop) (set_in_flight (sv_in_flight c || spawns es) (note (TrIn m :: calls es) c)))) as Hrun.
    { intros acts. unfold run. cbn. unfold receive_client. rewrite Hloop, Hst. by destruct m. }
    destruct (handle_answers_once limits client caps (sv_in_flight c) a m rid Hok Hrid) as [(text&->&Hf&He)|(reply&Hs&Hr&Hp)].
    + left. exists text. eexists. rewrite Hrun, He, Hf. by split_and!.
    + right. exists reply, (calls (handle limits client caps (sv_in_flight c) a m)). eexists. rewrite Hrun. cbv zeta. rewrite Hs, Hp, orb_false_r.
      split; [reflexivity|]. cbn. rewrite <- app_assoc. split_and!; try done. apply calls_sent.
Qed.

End requests.

Section stream.
Context (limits : ProtocolLimits) (client session_id : string) (caps : list ClientCapability) (capacity : nat)
  (fit : SessionSnapshot → result SessionSnapshot string).

Lemma serve_ok_run r h s resume c :
  has_capability caps CapObserve = true → (∀ s s', fit s = Ok s' → ss_seq s' = ss_seq s) →
  router_log r h → (Z.of_nat (length h) ≤ U64_MAX)%Z → ss_seq (sn_snapshot s) = Z.of_nat (length h) →
  (0 ≤ default 0%Z resume)%Z →
  rtc (serve_step limits client session_id caps capacity fit) (serve_start r h s resume) c →
  serve_ok (default 0%Z resume) c.
Proof. intros. eapply serve_ok_reachable; [done..|]. eapply serve_ok_start; [done..|]. intros k ->. simpl in *. lia. Qed.

(** C19: an observer sees the log without gaps: in every interleaving of emissions, dropped
    and queued events, messages of the client, synchronisations, stops and replacements,
    each event the connection sends is the one the log has under its number, and none is
    sent to a client that lacks the one before it.  The exception is a session that is
    being stopped after the queue has overflowed, whose queued rest is sent. *)
Theorem stream_has_no_gap (r : SessionEventRouter) (h : list SessionEvent) (s : SnapshotState) (resume : option Z) (c : Conn)
    (Hobserves : has_capability caps CapObserve = true)
    (Hfit : ∀ s s', fit s = Ok s' → ss_seq s' = ss_seq s)
    (Hlog : router_log r h) (Hmax : (Z.of_nat (length h) ≤ U64_MAX)%Z)
    (Hsnapshot : ss_seq (sn_snapshot s) = Z.of_nat (length h)) (Hresume : (0 ≤ default 0%Z resume)%Z)
    (Hreach : rtc (serve_step limits client session_id caps capacity fit) (serve_start r h s resume) c) :
  (∀ p, p ∈ events_of (sent (sv_trace c)) → from_log (sv_log c) p) ∧
  (gapless (default 0%Z resume) (sv_trace c) ∨ (sv_dropped c = true ∧ sv_stopped c = true)).
Proof.
  destruct (serve_ok_run r h s resume c) as [Hb _ Hm]; [done..|].
  split; [intros p Hp; apply (bo_content _ Hb); by left|]. destruct Hm as [?|Hm]; [by right|left; apply Hm].
Qed.

(** C20: a quiet connection is current: when a connection waits, nothing is being dispatched
    and no event is queued, its client has everything that was emitted, or knows of it
    from its own claim; otherwise an event was dropped and the lag flag says so, or the
    session is being stopped. *)
Theorem quiet_connection_is_current (r : SessionEventRouter) (h : list SessionEvent) (s : SnapshotState) (resume : option Z) (c : Conn)
    (Hobserves : has_capability caps CapObserve = true)
    (Hfit : ∀ s s', fit s = Ok s' → ss_seq s' = ss_seq s)
    (Hlog : router_log r h) (Hmax : (Z.of_nat (length h) ≤ U64_MAX)%Z)
    (Hsnapshot : ss_seq (sn_snapshot s) = Z.of_nat (length h)) (Hresume : (0 ≤ default 0%Z resume)%Z)
    (Hreach : rtc (serve_step limits client session_id caps capacity fit) (serve_start r h s resume) c)
    (Hwaits : sv_pc c = SvLoop) (Hidle : sv_dispatch c = None) (Hempty : events_of (sv_queue c) = []) :
  (Z.of_nat (length (sv_log c)) ≤ position (default 0%Z resume) (sv_trace c))%Z ∨
  (sv_dropped c = true ∧ (sv_lagged c = true ∨ sv_stopped c = true)).
Proof.
  destruct (serve_ok_run r h s resume c) as [Hb _ Hm]; [done..|].
  destruct Hm as [[? ?]|Hm]; [by right; auto|].
  destruct (mo_flow _ _ Hm) as [Hend|[[? ?]|(_&_&j&[Hj Hq]&Hset)]]; [by rewrite Hwaits in Hend|right; auto|]. left.
  unfold settled, got, handled, known in *. rewrite Hwaits, ?Hidle in *. simpl in Hq. rewrite Hempty, firstn_all in Hq.
  assert (length (sv_log c) ≤ j) as Hle; [|destruct Hset; lia].
  apply (f_equal length) in Hq. rewrite length_number_from, length_drop in Hq. simpl in Hq. lia.
Qed.

(** C21: a connection does what it was granted: whatever clients send and whatever happens,
    every operation asked of the session needs a capability that the policy allows and
    the client requested, approvals are given under the identity and with the
    capabilities of the connection, and a client that may not observe is sent no event,
    snapshot, usage or session list. *)
Theorem connection_keeps_to_its_rights (policy : CapabilityPolicy) (requested : list ClientCapability)
    (r : SessionEventRouter) (h : list SessionEvent) (s : SnapshotState) (resume : option Z) (c : Conn)
    (Hgrant : caps = grant policy requested)
    (Hreach : rtc (serve_step limits client session_id caps capacity fit) (serve_start r h s resume) c) :
  (∀ e, TrCall e ∈ sv_trace c →
     (∀ x, needs e = Some x → x ∈ cp_allowed policy ∧ x ∈ requested) ∧
     match e with ResolveApproval _ by_ with_ _ => by_ = client ∧ with_ = caps | _ => True end) ∧
  ((CapObserve ∉ cp_allowed policy) ∨ (CapObserve ∉ requested) →
     ∀ m, m ∈ sent (sv_trace c) → observation m = false).
Proof.
  assert (rights_ok client caps c) as [Hc Hs].
  { eapply rights_reachable; [exact Hreach|]. split; [by intros e ?%not_elem_of_nil|]. intros _. split; simpl; try done; constructor. }
  split.
  - intros e He. destruct (Hc e He) as (Hn&Hr&_). split; [|done]. intros x Hx. apply grant_sound. rewrite <- Hgrant. by apply Hn.
  - intros Hno m Hm. assert (has_capability caps CapObserve = false) as Hobs.
    { apply not_true_is_false. rewrite Hgrant. intros [? ?]%grant_sound. tauto. }
    pose proof (un_sent _ (Hs Hobs)) as Hu. rewrite Forall_forall in Hu. by apply Hu.
Qed.

End stream.

(** ** Runs *)

Lemma serve_run_reachable limits client session_id caps capacity fit acts : ∀ c c',
  Forall act_ok acts → serve_run limits client session_id caps capacity fit acts c = Some c' →
  rtc (serve_step limits client session_id caps capacity fit) c c'.
Proof.
  induction acts as [|a acts IH]; intros c c' Hok H; simpl in H; [simplify_eq; apply rtc_refl|]. inv Hok.
  destruct (serve_act _ _ _ _ _ _ a c) as [c1|] eqn:Ha; [|done]. eapply rtc_l; [by exists a|]. by apply IH.
Qed.

Definition demo_limits : ProtocolLimits := {|
  max_frame_bytes := 1000; max_ticket_bytes := 64; max_identifier_bytes := 64; max_cursor_bytes := 64; max_prompt_bytes := 100;
  max_label_bytes := 64; max_capabilities := 8; max_runtime_value_bytes := 64 |}.

Definition demo_conn : Conn :=
  serve_start (new_with_replay None 4) [] (from_snapshot (empty_snapshot "s") 3) None.

(** A queue of one message. *)
Definition demo_serve (caps : list ClientCapability) (acts : list Act) : option Conn :=
  serve_run demo_limits "c" "s" caps 1 Ok acts demo_conn.

Definition demo_attach : list Act := [AReplay; AReply; ASent; ASent; ASent].

Definition demo_forward : list Act := [AEvent; ACheck; ASent; ASent].

Definition demo_answers : Answers :=
  mkAnswers false true (Ok true) (Ok true) false (mkUsage 1 1 None 0 0 0 0) (Err NotPending) (Ok tt) (Err InvalidCursor).

(** The client attaches, an event is emitted, queued and sent, the client interrupts. *)
Definition demo_acts : list Act :=
  demo_attach ++ [AEmit (UserMessage "q" None); AQueueHandler; ASnapshotHandler; ADispatched] ++ demo_forward ++
  [ARecv (Some (CmInterrupt (Some "r1"))) demo_answers; ASent; ASent].

(** The same for a client that may interrupt but not observe. *)
Definition demo_acts_blind : list Act :=
  [AReplay; AReply; ASent; ASent; AEmit (UserMessage "q" None); ASnapshotHandler; ADispatched;
   ARecv (Some (CmInterrupt (Some "r1"))) demo_answers; ASent; ASent;
   ARecv (Some (CmSyncRequest 0)) demo_answers; ASent; ASent].

(** A second event finds the queue full; the connection empties the queue before the
    handler raises the flag. *)
Definition lag_acts : list Act :=
  demo_attach ++
  [AEmit (UserMessage "q" None); AQueueHandler; ASnapshotHandler; ADispatched;
   AEmit (TurnStatusChanged TurnIdle); AQueueHandler] ++ demo_forward ++ [ALagStore; ASnapshotHandler; ADispatched].

Definition demo_end (caps : list ClientCapability) (acts : list Act) : Conn := default demo_conn (demo_serve caps acts).

Definition demo_runs (caps : list ClientCapability) (acts : list Act) : bool :=
  match demo_serve caps acts with Some _ => true | None => false end.

Lemma demo_end_reachable caps acts :
  Forall act_ok acts → demo_runs caps acts = true →
  rtc (serve_step demo_limits "c" "s" caps 1 Ok) demo_conn (demo_end caps acts).
Proof.
  intros Hok. unfold demo_runs, demo_end. destruct (demo_serve caps acts) as [c|] eqn:H; [|done]. intros _. simpl.
  by eapply serve_run_reachable.
Qed.

(** A lag can go unnoticed: the flag is looked at only when another message is received.
    When the connection takes the last queued message between the failed [try_send] and
    the store of the flag, the client misses an event, is not told, and the connection
    has nothing to do until the next event or message. *)
Theorem lag_can_go_unnoticed :
  let c := demo_end [CapObserve] lag_acts in
  rtc (serve_step demo_limits "c" "s" [CapObserve] 1 Ok) demo_conn c ∧
  length (sv_log c) = 2 ∧ position 0 (sv_trace c) = 1%Z ∧ sv_lagged c = true ∧ sv_stopped c = false ∧
  forallb (λ a, match serve_act demo_limits "c" "s" [CapObserve] 1 Ok a c with None => true | Some _ => false end)
    [ASnapshotHandler; AQueueHandler; ALagStore; ADispatched; AReplay; AReply; AEvent; ACheck; AStopNotice; AReplacedNotice;
     ASyncReplay; AReadSnapshot; ADrain; ASent; ASendFailed] = true.
Proof.
  intros c. split; [apply demo_end_reachable; [repeat constructor|vm_compute; reflexivity]|].
  split_and!; vm_compute; reflexivity.
Qed.

(** ** Witnesses *)

Lemma client_request_key_injective_witness :
  client_request_key "ab" "c" ≠ client_request_key "a" "bc".
Proof.
  intros H. destruct (client_request_key_injective "ab" "a" "c" "bc") as [H1 _]; [unfold is_u64; vm_compute; split; discriminate..|exact H|discriminate H1].
Defined.

Lemma every_request_answered_once_witness :
  let c := demo_end [CapInterrupt] demo_acts_blind in
  ∃ reply effects c',
    serve_run demo_limits "c" "s" [CapInterrupt] 1 Ok [ARecv (Some (CmInterrupt (Some "r2"))) demo_answers; ASent; ASent] c = Some c' ∧
    answers_request reply = Some "r2" ∧ sv_trace c' = sv_trace c ++ TrIn (CmInterrupt (Some "r2")) :: effects ++ [TrOut reply].
Proof.
  intros c.
  destruct (every_request_answered_once demo_limits "c" "s" [CapInterrupt] 1 Ok c demo_answers (CmInterrupt (Some "r2")) "r2")
    as [(text&c'&H&_)|(reply&effects&c'&Hr&_&_&_&Ha&_&Ht)];
    [vm_compute; reflexivity|exact I|reflexivity|discriminate H|exists reply, effects, c'; split; [exact Hr|split; [exact Ha|exact Ht]]].
Defined.

Lemma stream_has_no_gap_witness :
  let c := demo_end [CapObserve; CapInterrupt] demo_acts in
  events_of (sent (sv_trace c)) = [(1%Z, UserMessage "q" None)] ∧
  (gapless 0 (sv_trace c) ∨ (sv_dropped c = true ∧ sv_stopped c = true)).
Proof.
  intros c. split; [vm_compute; reflexivity|].
  refine (proj2 (stream_has_no_gap demo_limits "c" "s" [CapObserve; CapInterrupt] 1 Ok (new_with_replay None 4) []
    (from_snapshot (empty_snapshot "s") 3) None c _ _ _ _ _ _ _)).
  - reflexivity.
  - intros s s' H. by injection H as ->.
  - split; reflexivity.
  - vm_compute. discriminate.
  - reflexivity.
  - simpl. lia.
  - apply demo_end_reachable; [repeat constructor|vm_compute; reflexivity].
Defined.

Lemma quiet_connection_is_current_witness :
  let c := demo_end [CapObserve; CapInterrupt] demo_acts in
  length (sv_log c) = 1 ∧
  ((Z.of_nat (length (sv_log c)) ≤ position 0 (sv_trace c))%Z ∨
   (sv_dropped c = true ∧ (sv_lagged c = true ∨ sv_stopped c = true))).
Proof.
  intros c. split; [vm_compute; reflexivity|].
  refine (quiet_connection_is_current demo_limits "c" "s" [CapObserve; CapInterrupt] 1 Ok (new_with_replay None 4) []
    (from_snapshot (empty_snapshot "s") 3) None c _ _ _ _ _ _ _ _ _ _).
  - reflexivity.
  - intros s s' H. by injection H as ->.
  - split; reflexivity.
  - vm_compute. discriminate.
  - reflexivity.
  - simpl. lia.
  - apply demo_end_reachable; [repeat constructor|vm_compute; reflexivity].
  - vm_compute. reflexivity.
  - vm_compute. reflexivity.
  - vm_compute. reflexivity.
Defined.

Lemma connection_keeps_to_its_rights_witness :
  let c := demo_end (grant local_trusted [CapInterrupt]) demo_acts_blind in
  length (sent (sv_trace c)) = 3 ∧ ∀ m, m ∈ sent (sv_trace c) → observation m = false.
Proof.
  intros c. split; [vm_compute; reflexivity|].
  refine (proj2 (connection_keeps_to_its_rights demo_limits "c" "s" (grant local_trusted [CapInterrupt]) 1 Ok local_trusted [CapInterrupt]
    (new_with_replay None 4) [] (from_snapshot (empty_snapshot "s") 3) None c eq_refl _) _).
  - apply demo_end_reachable; [|vm_compute; reflexivity].
    repeat (apply Forall_cons; split; [first [exact I|simpl; lia]|]). apply Forall_nil_2.
  - right. intros H. apply list_elem_of_singleton in H. discriminate H.
Defined.
