(* ===== verification/Catalog.v ===== *)
(** * The session catalog

    The SQLite index of stored sessions ([session_catalog.rs], [SessionCatalog]), the scan
    of the store it is rebuilt from ([session_store.rs], [scan_summaries];
    [session_factory.rs], [scan_persisted_summaries]) and the reconciliation of the two
    ([session_daemon.rs], [reconcile_catalog_once], [durable_listing_rows]).

    A table is a map by its primary key and a statement one function; integers are kept
    as the [i64] the code binds.  The clock, the resolution of directories and the
    failures of statements are arguments. *)

From stdpp Require Import base numbers list strings gmap sorting.
From S2P Require Import Prelude RustStr Protocol Messages Store Registry Listing.

(** ** Data *)

Record CatalogMutation := mkMutation {
  cm_session_id : string;
  cm_workspace_id : string;
  cm_model : option string;
  cm_updated_at_unix_ns : Z;
  cm_preview : option string;
  cm_message_count : option nat;
  cm_writer_instance_id : string;
  cm_generation : Z;
  cm_deleted : bool;
  cm_observed_at_unix_ms : Z;
  cm_authoritative_observation : bool;
}.

#[export] Instance CatalogMutation_eq_dec : EqDecision CatalogMutation.
Proof. solve_decision. Defined.

(** A row of [session_catalog], without its key. *)
Record CatalogEntry := mkCatalogEntry {
  ce_workspace_id : string;
  ce_model : option string;
  ce_updated_at_unix_ns : Z;
  ce_preview : option string;
  ce_message_count : option Z;
  ce_writer_instance_id : string;
  ce_generation : Z;
  ce_deleted : bool;
  ce_observed_at_unix_ms : Z;
}.

Record Catalog := mkCatalog {
  ct_rows : gmap string CatalogEntry;
  ct_workspaces : gmap string (bool * option string);
  ct_lease : option (string * Z);
}.

Definition catalog_new : Catalog := mkCatalog ∅ ∅ None.

Definition to_sql_u64 (value : Z) : Z := Z.min value I64_MAX.
Definition to_sql_usize (value : nat) : Z := Z.min (Z.of_nat value) I64_MAX.
Definition from_sql_u64 (value : Z) : Z := if (0 <=? value)%Z then value else 0%Z.

Definition u64_saturating_mul (a b : Z) : Z := Z.min (a * b) U64_MAX.

(** ** Statements *)

(** The values a mutation binds. *)
Definition entry_of (m : CatalogMutation) : CatalogEntry :=
  mkCatalogEntry (cm_workspace_id m) (cm_model m) (to_sql_u64 (cm_updated_at_unix_ns m)) (cm_preview m)
    (to_sql_usize <$> cm_message_count m) (cm_writer_instance_id m) (to_sql_u64 (cm_generation m)) (cm_deleted m)
    (to_sql_u64 (cm_observed_at_unix_ms m)).

(** [excluded.deleted > session_catalog.deleted]. *)
Definition deleted_gt (a b : bool) : bool := a && negb b.

(** The [WHERE] of the upsert: [new] is [excluded]. *)
Definition supersedes (authoritative : bool) (new old : CatalogEntry) : bool :=
  (bool_decide (ce_writer_instance_id new = ce_writer_instance_id old) && (ce_generation old <=? ce_generation new)%Z) ||
  (negb (bool_decide (ce_writer_instance_id new = ce_writer_instance_id old)) &&
   ((ce_updated_at_unix_ns old <? ce_updated_at_unix_ns new)%Z ||
    ((ce_updated_at_unix_ns new =? ce_updated_at_unix_ns old)%Z && deleted_gt (ce_deleted new) (ce_deleted old)))) ||
  authoritative.

Definition set_rows (rows : gmap string CatalogEntry) (c : Catalog) : Catalog :=
  mkCatalog rows (ct_workspaces c) (ct_lease c).

Definition catalog_apply (m : CatalogMutation) (c : Catalog) : Catalog * bool :=
  let put := set_rows (<[cm_session_id m := entry_of m]> (ct_rows c)) c in
  match ct_rows c !! cm_session_id m with
  | None => (put, true)
  | Some old => if supersedes (cm_authoritative_observation m) (entry_of m) old then (put, true) else (c, false)
  end.

Definition live_in (workspace_id : string) (e : CatalogEntry) : bool :=
  bool_decide (ce_workspace_id e = workspace_id) && negb (ce_deleted e).

(** The live rows of a workspace. *)
Definition live_rows (workspace_id : string) (c : Catalog) : list (string * CatalogEntry) :=
  List.filter (λ p, live_in workspace_id p.2) (map_to_list (ct_rows c)).

(** [ORDER BY updated_at_unix_ns DESC, session_id ASC]. *)
Definition entry_leb (l r : string * CatalogEntry) : bool :=
  match Z.compare (ce_updated_at_unix_ns r.2) (ce_updated_at_unix_ns l.2) with
  | Lt => true
  | Eq => str_leb l.1 r.1
  | Gt => false
  end.

Definition row_of (p : string * CatalogEntry) : CatalogRow :=
  mkCatalogRow p.1 (ce_workspace_id p.2) (ce_model p.2) (from_sql_u64 (ce_updated_at_unix_ns p.2)) (ce_preview p.2)
    (ce_message_count p.2 ≫= λ n, if (0 <=? n)%Z then Some (Z.to_nat n) else None) (ce_deleted p.2).

Definition catalog_rows (workspace_id : string) (limit : nat) (c : Catalog) : list CatalogRow :=
  map row_of (take limit (sort_by entry_leb (live_rows workspace_id c))).

(** [session_id > after ORDER BY session_id ASC]. *)
Definition after_id (after : string) (ids : list string) : list string :=
  List.filter (str_ltb after) (sort_by str_leb ids).

Definition ids_after (workspace_id : string) (after : option string) (limit : nat) (c : Catalog) : list string :=
  take limit (after_id (default "" after) (map fst (live_rows workspace_id c))).

Definition set_workspace_state (workspace_id : string) (complete : bool) (cursor : option string) (c : Catalog) : Catalog :=
  mkCatalog (ct_rows c) (<[workspace_id := (complete, cursor)]> (ct_workspaces c)) (ct_lease c).

Definition mark_incomplete (workspace_id : string) (c : Catalog) : Catalog := set_workspace_state workspace_id false None c.

Definition workspace_state (workspace_id : string) (c : Catalog) : bool * option string :=
  default (false, None) (ct_workspaces c !! workspace_id).

(** [lease_ms] is the duration in milliseconds, at most [u64::MAX]. *)
Definition try_acquire_reconcile_lease (owner : string) (now_unix_ms lease_ms : Z) (c : Catalog) : Catalog * bool :=
  let held := match ct_lease c with Some (_, expiry) => (now_unix_ms <? from_sql_u64 expiry)%Z | None => false end in
  if held then (c, false)
  else (mkCatalog (ct_rows c) (ct_workspaces c)
          (Some (owner, to_sql_u64 (u64_saturating_add now_unix_ms lease_ms))), true).

Definition purge_tombstones (observed_before_unix_ms : Z) (limit : nat) (c : Catalog) : Catalog :=
  let old := List.filter (λ p : string * CatalogEntry, ce_deleted p.2 && (ce_observed_at_unix_ms p.2 <=? to_sql_u64 observed_before_unix_ms)%Z)
               (map_to_list (ct_rows c)) in
  set_rows (foldl (λ rows id, delete id rows) (ct_rows c) (take limit (sort_by str_leb (map fst old)))) c.

(** ** The scan of the store *)

(** A row of [sessions]: [sd_summary] is what its payload decodes to. *)
Record Stored := mkStored {
  sd_id : string;
  sd_updated_at_unix_ns : Z;
  sd_summary : option SessionSummary;
}.

Record SessionSummaryScan := mkScan {
  sc_summaries : list (SessionSummary * option Z);
  sc_next_cursor : option string;
  sc_complete : bool;
}.

(** [strip_suffix(".json")], or the name itself. *)
Definition strip_json (name : string) : string :=
  let n := String.length name - 5 in
  if bool_decide (str_drop n name = ".json") then str_take n name else name.

(** Newest first ([None] is oldest), then by identity. *)
Definition summary_leb (l r : SessionSummary * option Z) : bool :=
  match l.2, r.2 with
  | Some a, Some b => match Z.compare b a with Lt => true | Gt => false | Eq => str_leb (ss_id l.1) (ss_id r.1) end
  | Some _, None => true
  | None, Some _ => false
  | None, None => str_leb (ss_id l.1) (ss_id r.1)
  end.

(** The scan with a store that answers: [table] is the table in the order of the
    identities, [in_time] whether the deadline is met. *)
Definition scan_summaries (table : list Stored) (after_name : option string) (max_entries : nat) (in_time : bool)
    : SessionSummaryScan :=
  let max_entries := max_entries `max` 1 in
  let after := default "" (strip_json <$> after_name) in
  let fetched := take (S max_entries) (List.filter (λ r, str_ltb after (sd_id r)) table) in
  let rows := omap (λ r, (λ s, (s, Some (sd_updated_at_unix_ns r))) <$> sd_summary r) fetched in
  let payload_complete := forallb (λ r, match sd_summary r with Some _ => true | None => false end) fetched in
  let has_more := max_entries <? length rows in
  let rows := take max_entries rows in
  let next_cursor := if has_more then (λ p, ss_id p.1) <$> last rows else None in
  mkScan (sort_by summary_leb rows) next_cursor (negb has_more && payload_complete && in_time).

(** [cwd == workspace], of a session whose directory resolves. *)
Definition in_workspace (canonicalize : string → option string) (workspace : string) (s : SessionSummary) : bool :=
  match ss_cwd s with
  | None => false
  | Some cwd => match canonicalize cwd with Some cwd => bool_decide (cwd = workspace) | None => false end
  end.

Definition cwd_resolves (canonicalize : string → option string) (s : SessionSummary) : bool :=
  match ss_cwd s with Some cwd => is_some (canonicalize cwd) | None => true end.

(** The factory keeps the sessions of its workspace; [canonicalize] may fail. *)
Definition scan_persisted_summaries (canonicalize : string → option string) (workspace : string) (scan : SessionSummaryScan)
    : SessionSummaryScan :=
  mkScan (List.filter (λ p, in_workspace canonicalize workspace p.1) (sc_summaries scan)) (sc_next_cursor scan)
    (sc_complete scan && forallb (λ p, cwd_resolves canonicalize p.1) (sc_summaries scan)).

(** ** Reconciliation *)

(** What the cursor of the workspace says to do next. *)
Inductive Pass :=
  | GhostPass (after : option string)
  | DirPass (after_name : option string).

Definition non_empty (s : string) : option string := if bool_decide (s = "") then None else Some s.

Definition pass_of (cursor : option string) : Pass :=
  let cursor := default "" cursor in
  match strip_prefix "ghost:" cursor with
  | Some after_id => GhostPass (non_empty after_id)
  | None => DirPass (strip_prefix "dir:" cursor ≫= non_empty)
  end.

Definition tombstone (workspace_id : string) (now_ms : Z) (offset : nat) (session_id : string) : CatalogMutation :=
  mkMutation session_id workspace_id None
    (u64_saturating_add (u64_saturating_mul now_ms 1000000) (Z.of_nat offset)) None None "reconciler"
    (u64_saturating_add now_ms (Z.of_nat offset)) true now_ms true.

(** [system_time_unix_ns], with [unwrap_or_default]. *)
Definition observation_of (workspace_id : string) (now_ms : Z) (offset : nat) (s : SessionSummary * option Z) : CatalogMutation :=
  mkMutation (ss_id s.1) workspace_id (Some (ss_model s.1)) (default 0%Z s.2) (ss_first_user_line s.1)
    (Some (ss_message_count s.1)) "reconciler" (u64_saturating_add now_ms (Z.of_nat offset)) false now_ms true.

Definition apply_all (ms : list CatalogMutation) (c : Catalog) : Catalog :=
  foldl (λ c m, (catalog_apply m c).1) c ms.

(** The pass over the rows whose sessions may be gone. *)
Definition ghost_pass (workspace_id : string) (limit : nat) (now_ms retention_ms : Z) (ids missing : list string) (c : Catalog)
    : Catalog :=
  let c := apply_all (imap (tombstone workspace_id now_ms) missing) c in
  if length ids <? limit
  then purge_tombstones (Z.max 0 (now_ms - retention_ms)) limit (set_workspace_state workspace_id true None c)
  else match last ids with
       | Some last => set_workspace_state workspace_id false (Some ("ghost:" +:+ last)) c
       | None => c
       end.

(** The pass over the stored sessions. *)
Definition dir_pass (workspace_id : string) (now_ms : Z) (scan : SessionSummaryScan) (c : Catalog) : Catalog :=
  let c := apply_all (imap (observation_of workspace_id now_ms) (sc_summaries scan)) c in
  let next := if sc_complete scan then Some "ghost:" else (λ cursor, "dir:" +:+ cursor) <$> sc_next_cursor scan in
  set_workspace_state workspace_id false next c.

(** The fields of [CatalogDiscovery] that reconciliation uses, durations in milliseconds. *)
Record CatalogDiscovery := mkCatalogDiscovery {
  rc_owner : string;
  rc_interval_ms : Z;
  rc_workspace_id : string;
  rc_entries : nat;
  rc_retention_ms : Z;
}.

(** One call of [reconcile_catalog_once] whose statements succeed, with nothing in
    between: [leased_ms] and [now_ms] are its two readings of the clock, [gone] is
    [persisted_id_is_missing]. *)
Definition reconcile_catalog_once (d : CatalogDiscovery) (leased_ms now_ms : Z)
    (scan : option string → SessionSummaryScan) (gone : string → bool) (c : Catalog) : Catalog :=
  let '(c, acquired) := try_acquire_reconcile_lease (rc_owner d) leased_ms (rc_interval_ms d) c in
  if negb acquired then c
  else match pass_of (workspace_state (rc_workspace_id d) c).2 with
       | GhostPass after =>
           let ids := ids_after (rc_workspace_id d) after (rc_entries d) c in
           ghost_pass (rc_workspace_id d) (rc_entries d) now_ms (rc_retention_ms d) ids (List.filter gone ids) c
       | DirPass after_name => dir_pass (rc_workspace_id d) now_ms (scan after_name) c
       end.

(** ** Which rows a listing shows *)

(** What [durable_listing_rows] finds out about the catalog: whether its writer is
    healthy, the answer of the query, and the time of the last full rescan, which
    [dc_claimed] says this call may replace. *)
Record Discovery := mkDiscovery {
  dc_healthy : bool;
  dc_query : option (bool * list CatalogRow);
  dc_interval_ms : Z;
  dc_previous_ms : Z;
  dc_claimed : bool;
}.

Inductive DiscoveryCall := DcMarkIncomplete | DcReconcile.

(** [scan] is [None] without a factory and [Some None] when no permit was free. *)
Definition durable_listing_rows (d : option Discovery) (now_ms : Z) (scan : option (option SessionSummaryScan))
    : list DiscoveryCall * (list SessionListEntry * bool) :=
  let fallback :=
    match scan with
    | None => ([], false)
    | Some None => ([], true)
    | Some (Some scan) => (map (λ p, summary_to_list_entry p.1 p.2) (sc_summaries scan), negb (sc_complete scan))
    end in
  match d with
  | Some d =>
      if dc_healthy d then
        match dc_query d with
        | Some (true, rows) =>
            if (Z.max 0 (now_ms - dc_previous_ms d) <? dc_interval_ms d)%Z || negb (dc_claimed d)
            then ([], (map catalog_row_to_list_entry rows, false))
            else ([DcMarkIncomplete; DcReconcile], fallback)
        | _ => ([DcReconcile], fallback)
        end
      else ([], fallback)
  | None => ([], fallback)
  end.

(** ** Lemmas: the order of mutations *)

Lemma apply_all_snoc ms m c : apply_all (ms ++ [m]) c = (catalog_apply m (apply_all ms c)).1.
Proof. unfold apply_all. by rewrite foldl_app. Qed.

Lemma catalog_apply_other m c id : id ≠ cm_session_id m → ct_rows (catalog_apply m c).1 !! id = ct_rows c !! id.
Proof.
  intros Hne. unfold catalog_apply. destruct (ct_rows c !! cm_session_id m); [destruct (supersedes _ _ _)|]; simpl; [|done|];
    by rewrite lookup_insert_ne.
Qed.

(** Clocks that do not run backwards: different mutations have different times, and of
    one writer the later generation has the later time. *)
Definition clocks_ok (ms : list CatalogMutation) : Prop :=
  ∀ m m', m ∈ ms → m' ∈ ms → m ≠ m' →
    ce_updated_at_unix_ns (entry_of m) ≠ ce_updated_at_unix_ns (entry_of m') ∧
    (cm_writer_instance_id m = cm_writer_instance_id m' →
     (ce_updated_at_unix_ns (entry_of m) < ce_updated_at_unix_ns (entry_of m'))%Z →
     (ce_generation (entry_of m) < ce_generation (entry_of m'))%Z).

Lemma supersedes_newer ms m x :
  clocks_ok ms → m ∈ ms → x ∈ ms → m ≠ x →
  supersedes false (entry_of m) (entry_of x) = (ce_updated_at_unix_ns (entry_of x) <? ce_updated_at_unix_ns (entry_of m))%Z.
Proof.
  intros Hc Hm Hx Hne. destruct (Hc m x Hm Hx Hne) as [Hd Hlt]. destruct (Hc x m Hx Hm (not_eq_sym Hne)) as [_ Hgt].
  unfold supersedes. rewrite orb_false_r. change (ce_writer_instance_id (entry_of m)) with (cm_writer_instance_id m).
  change (ce_writer_instance_id (entry_of x)) with (cm_writer_instance_id x).
  destruct (Z.eqb_spec (ce_updated_at_unix_ns (entry_of m)) (ce_updated_at_unix_ns (entry_of x))); [done|].
  destruct (bool_decide (cm_writer_instance_id m = cm_writer_instance_id x)) eqn:Hw; cbn [andb orb negb];
    [apply bool_decide_eq_true in Hw|]; rewrite ?orb_false_r; [|done].
  destruct (Z.ltb_spec (ce_updated_at_unix_ns (entry_of x)) (ce_updated_at_unix_ns (entry_of m))).
  - apply Z.leb_le. specialize (Hgt (eq_sym Hw) ltac:(lia)). lia.
  - apply Z.leb_gt. apply Hlt; [done|lia].
Qed.

Lemma supersedes_self m b : supersedes b (entry_of m) (entry_of m) = true.
Proof. unfold supersedes. rewrite bool_decide_true by done. by rewrite Z.leb_refl. Qed.

(** When [supersedes] compares a rank, the entry of the highest rank remains. *)
Lemma apply_all_newest (rank : CatalogMutation → Z) id ms all c :
  ct_rows c !! id = None → ms ⊆ all → ms ≠ [] →
  (∀ m x, m ∈ all → x ∈ all → m ≠ x → supersedes false (entry_of m) (entry_of x) = (rank x <? rank m)%Z) →
  Forall (λ m, cm_session_id m = id ∧ cm_authoritative_observation m = false) ms →
  ∃ newest, newest ∈ ms ∧ ct_rows (apply_all ms c) !! id = Some (entry_of newest) ∧
    ∀ m, m ∈ ms → (rank m ≤ rank newest)%Z.
Proof.
  intros Hnone Hsub Hne Hrank. revert Hsub Hne. induction ms as [|m ms IH] using rev_ind; [done|]. intros Hsub _ Hid.
  apply Forall_app in Hid as [Hid [[Hm Ha] _]%Forall_cons]. rewrite apply_all_snoc. unfold catalog_apply. rewrite Hm, Ha.
  destruct (decide (ms = [])) as [->|Hne].
  - simpl. rewrite Hnone. exists m. simpl. rewrite lookup_insert_eq. split_and!; [set_solver|done|]. by intros m' ->%list_elem_of_singleton.
  - destruct IH as (x&Hx&Hrow&Hmax); [set_solver|done|done|]. rewrite Hrow.
    destruct (decide (m = x)) as [->|Hmx].
    { rewrite supersedes_self. exists x. cbn [ct_rows set_rows fst]. rewrite lookup_insert_eq. split_and!; [set_solver|done|].
      intros m' [?%Hmax| ->%list_elem_of_singleton]%elem_of_app; [done|lia]. }
    rewrite (Hrank m x) by set_solver. destruct (Z.ltb_spec (rank x) (rank m)) as [Hlt|Hge].
    + exists m. cbn [ct_rows set_rows fst]. rewrite lookup_insert_eq. split_and!; [set_solver|done|].
      intros m' [?%Hmax| ->%list_elem_of_singleton]%elem_of_app; lia.
    + exists x. split_and!; [set_solver|done|]. intros m' [?%Hmax| ->%list_elem_of_singleton]%elem_of_app; [done|lia].
Qed.

(** One writer's mutations are ordered by their generations, whatever the clock says. *)
Definition one_writer (ms : list CatalogMutation) : Prop :=
  ∀ m m', m ∈ ms → m' ∈ ms → cm_writer_instance_id m = cm_writer_instance_id m' ∧
    (m ≠ m' → ce_generation (entry_of m) ≠ ce_generation (entry_of m')).

Lemma supersedes_generation ms m x :
  one_writer ms → m ∈ ms → x ∈ ms → m ≠ x →
  supersedes false (entry_of m) (entry_of x) = (ce_generation (entry_of x) <? ce_generation (entry_of m))%Z.
Proof.
  intros Hw Hm Hx Hne. destruct (Hw m x Hm Hx) as [He Hd]. specialize (Hd Hne). unfold supersedes.
  change (ce_writer_instance_id (entry_of m)) with (cm_writer_instance_id m).
  change (ce_writer_instance_id (entry_of x)) with (cm_writer_instance_id x).
  rewrite bool_decide_true by done. cbn [andb orb negb]. rewrite !orb_false_r.
  destruct (Z.ltb_spec (ce_generation (entry_of x)) (ce_generation (entry_of m))); [apply Z.leb_le|apply Z.leb_gt]; lia.
Qed.

Lemma order_is_immaterial (rank : CatalogMutation → Z) id ms ms' c :
  ct_rows c !! id = None → ms ≠ [] → ms' ≡ₚ ms →
  (∀ m x, m ∈ ms → x ∈ ms → m ≠ x →
     rank m ≠ rank x ∧ supersedes false (entry_of m) (entry_of x) = (rank x <? rank m)%Z) →
  Forall (λ m, cm_session_id m = id ∧ cm_authoritative_observation m = false) ms →
  ∃ newest, newest ∈ ms ∧ ct_rows (apply_all ms c) !! id = Some (entry_of newest) ∧
    ct_rows (apply_all ms' c) !! id = Some (entry_of newest) ∧ ∀ m, m ∈ ms → (rank m ≤ rank newest)%Z.
Proof.
  intros Hnone Hne Hperm Hrank Hid.
  assert (∀ l, l ≡ₚ ms → ∃ newest, newest ∈ l ∧ ct_rows (apply_all l c) !! id = Some (entry_of newest) ∧
            ∀ m, m ∈ l → (rank m ≤ rank newest)%Z) as Hall.
  { intros l Hl. apply (apply_all_newest rank id l ms c); [done| | | |].
    - intros x. by rewrite Hl.
    - intros ->. by apply Permutation_nil in Hl.
    - intros m x Hm Hx Hmx. by apply (Hrank m x).
    - by rewrite Hl. }
  destruct (Hall ms) as (x&Hx&Hrow&Hmax); [done|]. destruct (Hall ms' Hperm) as (y&Hy&Hrow'&Hmax').
  rewrite Hperm in Hy. exists x. split_and!; [done|done| |done]. rewrite Hrow'.
  destruct (decide (x = y)) as [->|Hxy]; [done|].
  destruct (Hrank x y Hx Hy Hxy) as [Hd _]. pose proof (Hmax y Hy). pose proof (Hmax' x ltac:(by rewrite Hperm)). lia.
Qed.

(** C26: Latest wins, whatever the order of arrival.  For a session that has no row yet
    and mutations of it none of which is an authoritative observation of the reconciler
    (those replace whatever is there, so that their order does matter), every order of
    applying them leaves the row of the same mutation: the one of the highest generation
    when one writer made them, however its clock ran, and the one of the latest time when
    several writers made them and the clocks agree with the generations.  A tombstone
    among them therefore is not undone by an older save that arrives after it. *)
Theorem latest_wins_in_any_order (id : string) (ms ms' : list CatalogMutation) (c : Catalog)
    (Hnone : ct_rows c !! id = None) (Hne : ms ≠ [])
    (Hid : Forall (λ m, cm_session_id m = id ∧ cm_authoritative_observation m = false) ms)
    (Hperm : ms' ≡ₚ ms) (Hclk : one_writer ms ∨ clocks_ok ms) :
  ∃ newest, newest ∈ ms ∧
    ct_rows (apply_all ms c) !! id = Some (entry_of newest) ∧
    ct_rows (apply_all ms' c) !! id = Some (entry_of newest) ∧
    (one_writer ms → ∀ m, m ∈ ms → (ce_generation (entry_of m) ≤ ce_generation (entry_of newest))%Z) ∧
    (clocks_ok ms → ∀ m, m ∈ ms → (ce_updated_at_unix_ns (entry_of m) ≤ ce_updated_at_unix_ns (entry_of newest))%Z).
Proof.
  destruct Hclk as [Hw|Hc].
  - destruct (order_is_immaterial (λ m, ce_generation (entry_of m)) id ms ms' c) as (x&Hx&H1&H2&Hmax); [done..| |done|].
    { intros m x Hm Hx Hmx. split; [by apply Hw|by apply (supersedes_generation ms)]. }
    exists x. split_and!; [done..|]. intros Hc m Hm. destruct (decide (x = m)) as [->|Hxm]; [lia|].
    destruct (Hc x m Hx Hm Hxm) as [_ Hlt]. specialize (Hmax m Hm). specialize (Hlt (proj1 (Hw x m Hx Hm))). lia.
  - destruct (order_is_immaterial (λ m, ce_updated_at_unix_ns (entry_of m)) id ms ms' c) as (x&Hx&H1&H2&Hmax); [done..| |done|].
    { intros m x Hm Hx Hmx. split; [by apply (Hc m x)|by apply (supersedes_newer ms)]. }
    exists x. split_and!; [done..| |done]. intros Hw m Hm. destruct (decide (m = x)) as [->|Hmx]; [lia|].
    destruct (Hc m x Hm Hx Hmx) as [Hd Hlt]. specialize (Hmax m Hm). specialize (Hlt (proj1 (Hw m x Hm Hx))). lia.
Qed.

Definition demo_mutation (writer : string) (generation time : Z) (deleted : bool) : CatalogMutation :=
  mkMutation "s1" "w" (Some "m") time None None writer generation deleted time false.

(** Two saves and the deletion by one writer, whose clock reads less than the file's time. *)
Definition demo_saves : list CatalogMutation :=
  [demo_mutation "a" 1 100 false; demo_mutation "a" 3 199 true; demo_mutation "a" 2 200 false].

Lemma demo_saves_one_writer : one_writer demo_saves.
Proof.
  intros m m' Hm Hm'. unfold demo_saves in *. rewrite !elem_of_cons, elem_of_nil in Hm, Hm'.
  destruct_or!; subst; done || (split; [done|]; intros _; vm_compute; congruence).
Qed.

Lemma latest_wins_in_any_order_witness :
  ∃ newest, newest ∈ demo_saves ∧
    ct_rows (apply_all demo_saves catalog_new) !! "s1" = Some (entry_of newest) ∧
    ct_rows (apply_all (reverse demo_saves) catalog_new) !! "s1" = Some (entry_of newest).
Proof.
  destruct (latest_wins_in_any_order "s1" demo_saves (reverse demo_saves) catalog_new) as (x&Hx&H1&H2&_).
  - reflexivity.
  - discriminate.
  - repeat constructor.
  - apply reverse_Permutation.
  - left. apply demo_saves_one_writer.
  - by exists x.
Defined.

(** ** Lemmas: lists in the order of identities *)

(** In a strictly sorted list, what comes after an element is what is greater. *)
Lemma filter_after {A} (key : A → string) done x rem :
  StronglySorted (λ a b, str_ltb (key a) (key b) = true) (done ++ x :: rem) →
  List.filter (λ r, str_ltb (key x) (key r)) (done ++ x :: rem) = rem.
Proof.
  induction done as [|y done IH]; simpl; intros [Hs Hf]%StronglySorted_inv.
  - rewrite str_ltb_irrefl. clear Hs. induction rem as [|z rem IH]; simpl; [done|].
    apply Forall_cons in Hf as [-> Hf]. by rewrite IH.
  - rewrite IH by done. apply Forall_app in Hf as [_ [Hf _]%Forall_cons]. by rewrite str_ltb_asym.
Qed.

(** ** Lemmas: what a pass writes *)

Lemma apply_authoritative m c :
  cm_authoritative_observation m = true → (catalog_apply m c).1 = set_rows (<[cm_session_id m := entry_of m]> (ct_rows c)) c.
Proof.
  intros Ha. unfold catalog_apply, supersedes. rewrite Ha. destruct (ct_rows c !! _); [|done]. by rewrite orb_true_r.
Qed.

Lemma apply_all_workspaces ms c : ct_workspaces (apply_all ms c) = ct_workspaces c.
Proof.
  induction ms as [|m ms IH] using rev_ind; [done|]. rewrite apply_all_snoc. unfold catalog_apply.
  destruct (ct_rows _ !! _); [destruct (supersedes _ _ _)|]; apply IH.
Qed.

Lemma apply_all_lease ms c : ct_lease (apply_all ms c) = ct_lease c.
Proof.
  induction ms as [|m ms IH] using rev_ind; [done|]. rewrite apply_all_snoc. unfold catalog_apply.
  destruct (ct_rows _ !! _); [destruct (supersedes _ _ _)|]; apply IH.
Qed.

Lemma apply_all_other ms c id : id ∉ map cm_session_id ms → ct_rows (apply_all ms c) !! id = ct_rows c !! id.
Proof.
  induction ms as [|m ms IH] using rev_ind; [done|]. rewrite map_app, not_elem_of_app. simpl. intros [Hms Hm].
  rewrite apply_all_snoc, catalog_apply_other; [by apply IH|set_solver].
Qed.

Lemma apply_all_at ms c m :
  Forall (λ m, cm_authoritative_observation m = true) ms → NoDup (map cm_session_id ms) → m ∈ ms →
  ct_rows (apply_all ms c) !! cm_session_id m = Some (entry_of m).
Proof.
  induction ms as [|x ms IH] using rev_ind; [set_solver|]. rewrite map_app, NoDup_app. simpl.
  intros [Hms [Hx _]%Forall_cons]%Forall_app (Hnd&Hdis&_) [Hm| ->%list_elem_of_singleton]%elem_of_app; rewrite apply_all_snoc.
  - rewrite catalog_apply_other; [by apply IH|]. intros Heq. apply (Hdis (cm_session_id m)); [by apply list_elem_of_fmap_2|set_solver].
  - rewrite (apply_authoritative _ _ Hx). simpl. apply lookup_insert_eq.
Qed.

(** The identities of an indexed list of mutations are those of what it indexes. *)
Lemma map_session_id_imap {A} (f : nat → A → CatalogMutation) (key : A → string) l :
  (∀ i x, cm_session_id (f i x) = key x) → map cm_session_id (imap f l) = map key l.
Proof. intros H. change map with (@fmap list _). rewrite fmap_imap, <- (imap_const key l). apply imap_ext. intros. apply H. Qed.

Lemma purge_tombstones_lookup cutoff limit c id :
  ct_rows (purge_tombstones cutoff limit c) !! id = ct_rows c !! id ∨
  (ct_rows (purge_tombstones cutoff limit c) !! id = None ∧ ∃ e, ct_rows c !! id = Some e ∧ ce_deleted e = true).
Proof.
  unfold purge_tombstones. set (old := List.filter _ _). simpl.
  assert (∀ ids rows, (∀ i, i ∈ ids → ∃ e, ct_rows c !! i = Some e ∧ ce_deleted e = true) →
    rows !! id = ct_rows c !! id →
    (foldl (λ rows id, delete id rows) rows ids : gmap string CatalogEntry) !! id = ct_rows c !! id ∨
    ((foldl (λ rows id, delete id rows) rows ids : gmap string CatalogEntry) !! id = None ∧
     ∃ e, ct_rows c !! id = Some e ∧ ce_deleted e = true)) as Hgen.
  { intros ids. induction ids as [|i ids IH] using rev_ind; intros rows Hids Hr; [by left|]. rewrite foldl_snoc.
    destruct (decide (i = id)) as [->|Hne].
    - right. rewrite lookup_delete_eq. split; [done|]. apply Hids. set_solver.
    - rewrite lookup_delete_ne by done. apply IH; [set_solver|done]. }
  apply Hgen; [|done]. intros i (n&Hn&_)%elem_of_take. apply list_elem_of_lookup_2 in Hn.
  rewrite sort_by_perm in Hn. apply list_elem_of_fmap in Hn as ([i' e]&->&He). unfold old in He.
  apply elem_of_Lfilter in He as [He%elem_of_map_to_list [Hd _]%andb_true_iff]. by exists e.
Qed.

(** ** Reconciliation reaches the whole store *)

Lemma omap_total {A B} (f : A → option B) l :
  (∀ x, x ∈ l → is_Some (f x)) → Forall2 (λ x y, f x = Some y) l (omap f l).
Proof.
  induction l as [|x l IH]; intros H; simpl; [constructor|]. destruct (H x) as [y Hy]; [set_solver|]. rewrite Hy.
  constructor; [done|]. apply IH. set_solver.
Qed.

Lemma sorted_keys_NoDup {A} (key : A → string) l :
  StronglySorted (λ a b, str_ltb (key a) (key b) = true) l → NoDup (map key l).
Proof.
  induction 1 as [|r l Hs IH Hr]; simpl; constructor; [|done].
  intros (x&Hx&Hin)%list_elem_of_fmap. rewrite Forall_forall in Hr. specialize (Hr x Hin). by rewrite Hx, str_ltb_irrefl in Hr.
Qed.

(** An identity the store accepts has no dot. *)
Lemma chars_json p : ∃ l, chars (p +:+ ".json") = l ++ chars ".json".
Proof.
  induction p as [|c p [l IH]]; [by exists []|]. change (String c p +:+ ".json") with (String c (p +:+ ".json")). simpl. rewrite IH.
  destruct l as [|[|c' g] l]; simpl; [by exists [String c ""]|by exists (String c "" :: "" :: l)|].
  destruct (is_continuation c'); [by exists (String c (String c' g) :: l)|by exists (String c "" :: String c' g :: l)].
Qed.

Lemma strip_json_valid id : valid_id id = true → strip_json id = id.
Proof.
  unfold valid_id, strip_json. intros [_ Hk]%andb_true_iff. case_bool_decide as Hj; [|done].
  rewrite <- (str_take_drop (String.length id - 5) id), Hj in Hk. destruct (chars_json (str_take (String.length id - 5) id)) as [l Hl].
  rewrite Hl, forallb_app, andb_true_iff in Hk. by destruct Hk.
Qed.

Section reconcile.
Context (d : CatalogDiscovery) (table : list Stored) (canonicalize : string → option string) (workspace : string).

(** The scans and the probe of a store that holds [table] and answers in time. *)
Definition store_scan (after_name : option string) : SessionSummaryScan :=
  scan_persisted_summaries canonicalize workspace (scan_summaries table after_name (rc_entries d) true).

Definition store_gone (id : string) : bool := negb (existsb (λ r, bool_decide (sd_id r = id)) table).

(** The table by its primary key: every payload decodes to the session of its row, and
    the directory of every session resolves. *)
Definition table_ok : Prop :=
  StronglySorted (λ a b, str_ltb (sd_id a) (sd_id b) = true) table ∧
  ∀ r, r ∈ table → valid_id (sd_id r) = true ∧
    ∃ s, sd_summary r = Some s ∧ ss_id s = sd_id r ∧ cwd_resolves canonicalize s = true.

(** The row of a stored session of the workspace shows it. *)
Definition shows (r : Stored) (s : SessionSummary) (e : CatalogEntry) : Prop :=
  ce_workspace_id e = rc_workspace_id d ∧ ce_deleted e = false ∧ ce_model e = Some (ss_model s) ∧
  ce_updated_at_unix_ns e = to_sql_u64 (sd_updated_at_unix_ns r) ∧ ce_preview e = ss_first_user_line s ∧
  ce_message_count e = Some (to_sql_usize (ss_message_count s)).

Definition indexed (c : Catalog) (r : Stored) : Prop :=
  ∀ s, sd_summary r = Some s → in_workspace canonicalize workspace s = true →
    ∃ e, ct_rows c !! sd_id r = Some e ∧ shows r s e.

(** A row that a listing of the workspace shows belongs to a stored session. *)
Definition backed (c : Catalog) (id : string) : Prop :=
  (∃ e, ct_rows c !! id = Some e ∧ live_in (rc_workspace_id d) e = true) → store_gone id = false.

Context (Hentries : 1 ≤ rc_entries d) (Htable : table_ok).

(** A page of the scan, after the rows [seen] of the table. *)
Definition cursor_after (seen : list Stored) : option string := sd_id <$> last seen.

Lemma table_after seen rem :
  table = seen ++ rem → List.filter (λ r, str_ltb (default "" (strip_json <$> cursor_after seen)) (sd_id r)) table = rem.
Proof.
  intros Heq. destruct Htable as [Hs Hall]. unfold cursor_after. destruct (last seen) as [x|] eqn:Hl; simpl.
  - apply last_Some in Hl as [done ->]. rewrite <- app_assoc in Heq. simpl in Heq.
    rewrite strip_json_valid; [|apply Hall; rewrite Heq; set_solver]. rewrite Heq in Hs |- *. by apply filter_after.
  - apply last_None in Hl as ->. rewrite Heq in *. apply Lfilter_all. intros r Hr. rewrite str_ltb_empty.
    destruct (Hall r Hr) as [[Hv _]%andb_true_iff _]. done.
Qed.

Definition scanned (r : Stored) : option (SessionSummary * option Z) :=
  (λ s, (s, Some (sd_updated_at_unix_ns r))) <$> sd_summary r.

Lemma scanned_ids l rows :
  l ⊆ table → Forall2 (λ r y, scanned r = Some y) l rows → (λ p, ss_id p.1) <$> rows = sd_id <$> l.
Proof.
  intros Hsub. induction 1 as [|r y l rows Hy Hl IH]; [done|]. rewrite !fmap_cons, IH by set_solver. f_equal.
  destruct (proj2 Htable r) as (_&s&Hs&Hid&_); [set_solver|]. unfold scanned in Hy. rewrite Hs in Hy. by injection Hy as <-.
Qed.

Lemma scan_page seen rem :
  table = seen ++ rem →
  let page := take (rc_entries d) rem in
  let more := rc_entries d <? length rem in
  ∃ rows, Forall2 (λ r y, scanned r = Some y) page rows ∧
    sc_summaries (store_scan (cursor_after seen)) =
      List.filter (λ p, in_workspace canonicalize workspace p.1) (sort_by summary_leb rows) ∧
    sc_next_cursor (store_scan (cursor_after seen)) = (if more then sd_id <$> last page else None) ∧
    sc_complete (store_scan (cursor_after seen)) = negb more.
Proof.
  intros Heq page more. unfold store_scan, scan_persisted_summaries, scan_summaries. cbn [sc_summaries sc_next_cursor sc_complete].
  rewrite (table_after seen rem Heq), Nat.max_l by lia. change (λ r, (λ s, (s, Some (sd_updated_at_unix_ns r))) <$> sd_summary r) with scanned.
  set (fetched := take (S (rc_entries d)) rem).
  assert (∀ r, r ∈ fetched → ∃ s, sd_summary r = Some s ∧ ss_id s = sd_id r ∧ cwd_resolves canonicalize s = true) as Hok.
  { intros r (i&Hi&_)%elem_of_take. apply list_elem_of_lookup_2 in Hi. apply Htable. rewrite Heq. set_solver. }
  assert (Forall2 (λ r y, scanned r = Some y) fetched (omap scanned fetched)) as Hall.
  { apply omap_total. intros r (s&Hs&_)%Hok. unfold scanned. rewrite Hs. by eexists. }
  pose proof (Forall2_length _ _ _ Hall) as Hlen. unfold fetched in Hlen at 1. rewrite length_take in Hlen.
  assert ((rc_entries d <? length (omap scanned fetched)) = more) as Hmore.
  { unfold more. apply eq_iff_eq_true. rewrite !Nat.ltb_lt. lia. }
  apply (Forall2_take _ _ _ (rc_entries d)) in Hall. unfold fetched in Hall at 1. rewrite take_take, Nat.min_l in Hall by lia.
  fold page in Hall. exists (take (rc_entries d) (omap scanned fetched)). rewrite Hmore. split_and!; [done|done| |].
  - destruct more; [|done]. rewrite <- !fmap_last. f_equal. apply scanned_ids; [|done].
    intros r (i&Hi&_)%elem_of_take. apply list_elem_of_lookup_2 in Hi. rewrite Heq. set_solver.
  - rewrite !andb_true_r. destruct more; [done|]. simpl. apply andb_true_iff. split; apply forallb_forall.
    + intros r (s&Hs&_)%list_elem_of_In%Hok. by rewrite Hs.
    + intros y Hy. apply list_elem_of_In in Hy. rewrite sort_by_perm in Hy.
      apply list_elem_of_lookup in Hy as [i Hi]. destruct (Forall2_lookup_r _ _ _ _ _ Hall Hi) as (r&Hr&Hy).
      apply list_elem_of_lookup_2 in Hr. destruct (Hok r) as (s&Hs&_&Hc).
      { apply elem_of_take in Hr as (j&Hj&Hlt). apply elem_of_take. exists j. split; [done|lia]. }
      unfold scanned in Hy. rewrite Hs in Hy. by injection Hy as <-.
Qed.

(** The observations of a page: their identities, and that each session of the workspace is among them. *)
Lemma page_observations seen rem now :
  table = seen ++ rem →
  let ms := imap (observation_of (rc_workspace_id d) now) (sc_summaries (store_scan (cursor_after seen))) in
  Forall (λ m, cm_authoritative_observation m = true) ms ∧ NoDup (map cm_session_id ms) ∧
  map cm_session_id ms ⊆ map sd_id (take (rc_entries d) rem) ∧
  ∀ r s, r ∈ take (rc_entries d) rem → sd_summary r = Some s → in_workspace canonicalize workspace s = true →
    ∃ m, m ∈ ms ∧ cm_session_id m = sd_id r ∧ shows r s (entry_of m).
Proof.
  intros Heq ms. destruct (scan_page seen rem Heq) as (rows&Hall&Hsum&_). set (page := take (rc_entries d) rem) in *.
  assert (page ⊆ table) as Hpage.
  { intros r (i&Hi&_)%elem_of_take. apply list_elem_of_lookup_2 in Hi. rewrite Heq. set_solver. }
  assert (map cm_session_id ms = map (λ p, ss_id p.1) (sc_summaries (store_scan (cursor_after seen)))) as Hids
    by (by apply map_session_id_imap).
  pose proof (scanned_ids _ _ Hpage Hall) as Hrows. split_and!.
  - apply Forall_forall. intros m (i&Hi)%list_elem_of_lookup. unfold ms in Hi. rewrite list_lookup_imap in Hi.
    by apply fmap_Some in Hi as (y&_&->).
  - rewrite Hids, Hsum. apply NoDup_map_filter. rewrite sort_by_perm. change map with (@fmap list _). rewrite Hrows.
    pose proof (sorted_keys_NoDup sd_id table (proj1 Htable)) as Hnd. rewrite Heq, map_app in Hnd. apply NoDup_app in Hnd as (_&_&Hnd).
    rewrite <- (take_drop (rc_entries d) rem), map_app in Hnd. by apply NoDup_app in Hnd as (Hnd&_&_).
  - rewrite Hids, Hsum. change (map sd_id page) with (sd_id <$> page). rewrite <- Hrows. intros id (y&->&Hy)%list_elem_of_fmap.
    apply elem_of_Lfilter in Hy as [Hy _]. rewrite sort_by_perm in Hy. by apply (list_elem_of_fmap_2 (λ p, ss_id p.1)).
  - intros r s Hr Hs Hin. pose proof (Hpage r Hr) as Ht. apply list_elem_of_lookup in Hr as [i Hi].
    destruct (Forall2_lookup_l _ _ _ _ _ Hall Hi) as (y&Hy&Hsc). unfold scanned in Hsc. rewrite Hs in Hsc. injection Hsc as <-.
    apply list_elem_of_lookup_2 in Hy. assert ((s, Some (sd_updated_at_unix_ns r)) ∈ sc_summaries (store_scan (cursor_after seen))) as Hk.
    { rewrite Hsum. apply elem_of_Lfilter. by rewrite sort_by_perm. }
    apply list_elem_of_lookup in Hk as [j Hj]. exists (observation_of (rc_workspace_id d) now j (s, Some (sd_updated_at_unix_ns r))).
    split_and!; [|by destruct (proj2 Htable r Ht) as (_&s'&Hs'&Hid&_); simplify_eq|done].
    apply (list_elem_of_lookup_2 _ j). unfold ms. by rewrite list_lookup_imap, Hj.
Qed.

(** The state of the workspace while the passes over the store go on. *)
Lemma dir_pass_page seen rem now c :
  table = seen ++ rem → Forall (indexed c) seen →
  let page := take (rc_entries d) rem in
  let c' := dir_pass (rc_workspace_id d) now (store_scan (cursor_after seen)) c in
  Forall (indexed c') (seen ++ page) ∧
  workspace_state (rc_workspace_id d) c' =
    (false, if rc_entries d <? length rem then (λ id, "dir:" +:+ id) <$> cursor_after page else Some "ghost:") ∧
  ct_lease c' = ct_lease c ∧
  (∀ id, id ∈ dom (ct_rows c') → id ∈ dom (ct_rows c) ∨ id ∈ map sd_id table).
Proof.
  intros Heq Hseen page c'. destruct (page_observations seen rem now Heq) as (Hauth&Hnd&Hids&Hin).
  destruct (scan_page seen rem Heq) as (rows&_&_&Hcur&Hcomp). fold page in Hcur, Hids, Hin.
  pose proof (sorted_keys_NoDup sd_id table (proj1 Htable)) as Htnd. rewrite Heq, map_app in Htnd. apply NoDup_app in Htnd as (_&Hdis&_).
  assert (map sd_id page ⊆ map sd_id rem) as Hpr.
  { intros id (r&->&(i&Hi&_)%elem_of_take)%list_elem_of_fmap. apply list_elem_of_fmap_2. by eapply list_elem_of_lookup_2. }
  unfold c', dir_pass, workspace_state, set_workspace_state. cbn [ct_rows ct_workspaces ct_lease]. split_and!.
  - apply Forall_app. split; apply Forall_forall.
    + intros r Hr s Hs Hw. rewrite Forall_forall in Hseen. destruct (Hseen r Hr s Hs Hw) as (e&He&Hsh). exists e. split; [|done].
      cbn [ct_rows]. rewrite apply_all_other; [done|]. intros Hm%Hids%Hpr. apply (Hdis (sd_id r)); [by apply list_elem_of_fmap_2|done].
    + intros r Hr s Hs Hw. destruct (Hin r s Hr Hs Hw) as (m&Hm&Hid&Hsh). exists (entry_of m). split; [|done].
      cbn [ct_rows]. rewrite <- Hid. by apply apply_all_at.
  - rewrite lookup_insert_eq, Hcomp, Hcur. by destruct (rc_entries d <? length rem).
  - apply apply_all_lease.
  - intros id Hid. destruct (decide (id ∈ map sd_id rem)) as [Hr|Hr].
    { right. rewrite Heq, map_app. set_solver. }
    left. rewrite elem_of_dom in Hid |- *. rewrite apply_all_other in Hid; [done|]. by intros ?%Hids%Hpr.
Qed.

Definition is_live (c : Catalog) (id : string) : Prop :=
  ∃ e, ct_rows c !! id = Some e ∧ live_in (rc_workspace_id d) e = true.

(** The rows the passes over the catalog have not looked at. *)
Definition unchecked (after : string) (c : Catalog) : list string :=
  after_id after (map fst (live_rows (rc_workspace_id d) c)).

Lemma elem_of_unchecked after c id : id ∈ unchecked after c ↔ is_live c id ∧ str_ltb after id = true.
Proof.
  unfold unchecked, after_id, live_rows, is_live. rewrite elem_of_Lfilter, sort_by_perm. f_equiv. split.
  - intros ([i e]&->&[He%elem_of_map_to_list ?]%elem_of_Lfilter)%list_elem_of_fmap. eauto.
  - intros (e&He&Hl). apply (list_elem_of_fmap_2 fst _ (id, e)), elem_of_Lfilter. by rewrite elem_of_map_to_list.
Qed.

Lemma unchecked_sorted after c : StronglySorted (λ a b, str_ltb a b = true) (unchecked after c).
Proof.
  unfold unchecked, after_id. set (l := map fst _).
  assert (NoDup (sort_by str_leb l)) as Hnd.
  { rewrite sort_by_perm. apply NoDup_map_filter. apply NoDup_fst_map_to_list. }
  pose proof (sort_by_sorted str_leb str_leb_total str_leb_trans l) as Hs. revert Hnd Hs. generalize (sort_by str_leb l). clear l.
  intros l Hnd Hs. induction Hs as [|x l Hs IH Hx]; simpl; [constructor|]. apply NoDup_cons in Hnd as [Hxl Hnd].
  destruct (str_ltb after x); [|by apply IH]. constructor; [by apply IH|]. apply Forall_forall.
  intros y [Hy _]%elem_of_Lfilter. rewrite Forall_forall in Hx. specialize (Hx y Hy). unfold str_ltb.
  apply negb_true_iff. destruct (str_leb y x) eqn:Hyx; [|done]. by rewrite (str_leb_antisym x y Hx Hyx) in Hxl.
Qed.

(** The tombstones of a pass: a row is live after it if it was and its session is stored. *)
Lemma tombstones_rows now missing c :
  NoDup missing →
  let c' := apply_all (imap (tombstone (rc_workspace_id d) now) missing) c in
  (∀ id, id ∉ missing → ct_rows c' !! id = ct_rows c !! id) ∧ (∀ id, id ∈ missing → ¬ is_live c' id) ∧
  (∀ id, id ∈ dom (ct_rows c') → id ∈ dom (ct_rows c) ∨ id ∈ missing).
Proof.
  intros Hnd c'. set (ms := imap (tombstone (rc_workspace_id d) now) missing).
  assert (map cm_session_id ms = missing) as Hids.
  { unfold ms. rewrite (map_session_id_imap _ id) by done. apply list_fmap_id. }
  assert (∀ id, id ∉ missing → ct_rows c' !! id = ct_rows c !! id) as Hother.
  { intros id Hid. apply apply_all_other. fold ms. by rewrite Hids. }
  split_and!; [done| |].
  - intros id (i&Hi)%list_elem_of_lookup (e&He&Hl). unfold c' in He. fold ms in He.
    change id with (cm_session_id (tombstone (rc_workspace_id d) now i id)) in He. rewrite apply_all_at in He.
    + simplify_eq. unfold live_in in Hl. simpl in Hl. by rewrite andb_false_r in Hl.
    + apply Forall_forall. intros m (j&Hj)%list_elem_of_lookup. unfold ms in Hj. rewrite list_lookup_imap in Hj.
      by apply fmap_Some in Hj as (y&_&->).
    + by rewrite Hids.
    + apply (list_elem_of_lookup_2 _ i). unfold ms. by rewrite list_lookup_imap, Hi.
  - intros id. rewrite !elem_of_dom. destruct (decide (id ∈ missing)); [by right|]. rewrite Hother by done. by left.
Qed.

Lemma live_after_purge cutoff limit c id : is_live (purge_tombstones cutoff limit c) id ↔ is_live c id.
Proof.
  unfold is_live. destruct (purge_tombstones_lookup cutoff limit c id) as [->|(->&e&He&Hd)]; [done|].
  split; [by intros (?&?&_)|]. intros (e'&He'&Hl). rewrite He' in He. simplify_eq. unfold live_in in Hl.
  by rewrite Hd, andb_false_r in Hl.
Qed.

Lemma indexed_rows c c' r :
  (∀ e, ct_rows c !! sd_id r = Some e → ce_deleted e = false → ct_rows c' !! sd_id r = Some e) → indexed c r → indexed c' r.
Proof.
  intros Hc Hi s Hs Hw. destruct (Hi s Hs Hw) as (e&He&Hsh). exists e. split; [|done]. apply Hc; [done|]. apply Hsh.
Qed.

(** The tombstones of one pass, and what they leave unchecked. *)
Lemma ghost_checks after now c :
  let ids := take (rc_entries d) (unchecked after c) in
  let c' := apply_all (imap (tombstone (rc_workspace_id d) now) (List.filter store_gone ids)) c in
  (∀ id, str_ltb after id = false → backed c id) → Forall (indexed c) table →
  Forall (indexed c') table ∧ (∀ id, is_live c' id → is_live c id) ∧ (∀ id, id ∈ ids → backed c' id) ∧
  (∀ id, str_ltb after id = false → backed c' id) ∧ (∀ id, id ∈ dom (ct_rows c') → id ∈ dom (ct_rows c)).
Proof.
  intros ids c' Hb Hi. set (missing := List.filter store_gone ids).
  assert (∀ id, id ∈ ids → is_live c id) as Hids.
  { intros id (i&Hi'&_)%elem_of_take. apply list_elem_of_lookup_2 in Hi'. by apply elem_of_unchecked in Hi' as [? _]. }
  assert (NoDup missing) as Hnd.
  { pose proof (sorted_keys_NoDup id _ (unchecked_sorted after c)) as H. rewrite list_fmap_id in H.
    rewrite <- (take_drop (rc_entries d) (unchecked after c)) in H. apply NoDup_app in H as (H&_&_).
    rewrite <- (list_fmap_id missing). apply NoDup_map_filter. by rewrite list_fmap_id. }
  destruct (tombstones_rows now missing c Hnd) as (Hsame&Hdead&Hdom). fold c' in Hsame, Hdead, Hdom.
  assert (∀ id, is_live c' id → is_live c id ∧ id ∉ missing) as Hlive.
  { intros id Hl. assert (id ∉ missing) as Hm by (intros Hm; by apply (Hdead id)). split; [|done]. unfold is_live. by rewrite <- Hsame. }
  split_and!.
  - apply Forall_forall. intros r Hr. rewrite Forall_forall in Hi. apply (indexed_rows c); [|by apply Hi]. intros e He _.
    rewrite Hsame; [done|]. intros [_ Hg]%elem_of_Lfilter. unfold store_gone in Hg. apply negb_true_iff in Hg.
    rewrite existsb_not in Hg. specialize (Hg r Hr). by rewrite bool_decide_eq_false in Hg.
  - intros id Hl. by apply Hlive.
  - intros id Hid Hl. destruct (Hlive id Hl) as [_ Hm]. destruct (store_gone id) eqn:Hg; [|done]. exfalso. apply Hm. by apply elem_of_Lfilter.
  - intros id Hid Hl. apply (Hb id Hid). by apply Hlive.
  - intros id [?|[Hm _]%elem_of_Lfilter]%Hdom; [done|]. destruct (Hids id Hm) as (e&He&_). rewrite elem_of_dom. by eexists.
Qed.

(** What holds between two passes over the catalog: [after] is where they have come to. *)
Record checking (after : string) (c : Catalog) : Prop := mkChecking {
  ck_indexed : Forall (indexed c) table;
  ck_backed : ∀ id, str_ltb after id = false → backed c id;
}.

(** A full page ends at the identity that separates it from the rest. *)
Lemma page_end after c :
  let rem := unchecked after c in
  rc_entries d ≤ length rem →
  ∃ x, last (take (rc_entries d) rem) = Some x ∧ x ≠ "" ∧ str_ltb after x = true ∧
    ∀ id, id ∈ rem → str_ltb x id = true → id ∈ drop (rc_entries d) rem.
Proof.
  intros rem Hlen. destruct (last (take (rc_entries d) rem)) as [x|] eqn:Hl; cycle 1.
  { apply last_None, (f_equal length) in Hl. rewrite length_take in Hl. simpl in Hl. lia. }
  apply last_Some in Hl as [pre Hpre]. exists x. pose proof (unchecked_sorted after c) as Hs. fold rem in Hs.
  assert (str_ltb after x = true) as Hax.
  { apply (elem_of_unchecked after c). fold rem. rewrite <- (take_drop (rc_entries d) rem), Hpre. set_solver. }
  split_and!; [done| |done|].
  - intros ->. unfold str_ltb in Hax. by destruct after.
  - intros id Hid Hx. rewrite <- (take_drop (rc_entries d) rem), Hpre in Hid, Hs. apply elem_of_app in Hid as [Hid|]; [|done].
    apply elem_of_app in Hid as [Hid| ->%list_elem_of_singleton]; [|by rewrite str_ltb_irrefl in Hx].
    rewrite <- app_assoc in Hs. apply (sorted_split _ _ _ id x) in Hs; [|done|set_solver]. by rewrite (str_ltb_asym _ _ Hs) in Hx.
Qed.

Lemma ghost_pass_last after now c :
  checking after c →
  let rem := unchecked after c in
  let c' := ghost_pass (rc_workspace_id d) (rc_entries d) now (rc_retention_ms d) (take (rc_entries d) rem)
              (List.filter store_gone (take (rc_entries d) rem)) c in
  length rem < rc_entries d →
  workspace_state (rc_workspace_id d) c' = (true, None) ∧ Forall (indexed c') table ∧ ∀ id, backed c' id.
Proof.
  intros [Hi Hb] rem c' Hrem. destruct (ghost_checks after now c Hb Hi) as (Hi1&Hlive&Hids&Hb1&_). fold rem in Hi1, Hlive, Hids, Hb1.
  unfold c', ghost_pass. set (c1 := apply_all _ _) in *. rewrite (proj2 (Nat.ltb_lt _ _)) by (rewrite length_take; lia).
  unfold workspace_state. simpl. rewrite lookup_insert_eq. split_and!; [done| |].
  - eapply Forall_impl; [exact Hi1|]. intros r. apply indexed_rows. intros e He Hd.
    destruct (purge_tombstones_lookup (Z.max 0 (now - rc_retention_ms d)) (rc_entries d)
                (set_workspace_state (rc_workspace_id d) true None c1) (sd_id r)) as [->|(_&e'&He'&Hd')]; [done|].
    simpl in He'. rewrite He in He'. congruence.
  - intros id Hid. apply live_after_purge in Hid. change (is_live c1 id) in Hid. destruct (str_ltb after id) eqn:Ha; [|by apply Hb1].
    apply Hids; [|done]. rewrite take_ge by lia. apply elem_of_unchecked. split; [by apply Hlive|done].
Qed.

Lemma ghost_pass_more after now c :
  checking after c →
  let rem := unchecked after c in
  let c' := ghost_pass (rc_workspace_id d) (rc_entries d) now (rc_retention_ms d) (take (rc_entries d) rem)
              (List.filter store_gone (take (rc_entries d) rem)) c in
  rc_entries d ≤ length rem →
  ∃ last, workspace_state (rc_workspace_id d) c' = (false, Some ("ghost:" +:+ last)) ∧ last ≠ "" ∧ checking last c' ∧
    length (unchecked last c') + rc_entries d ≤ length rem.
Proof.
  intros [Hi Hb] rem c' Hrem. destruct (ghost_checks after now c Hb Hi) as (Hi1&Hlive&Hids&Hb1&_). fold rem in Hi1, Hlive, Hids, Hb1.
  unfold c', ghost_pass. set (c1 := apply_all _ _) in *. rewrite (proj2 (Nat.ltb_ge _ _)) by (rewrite length_take; lia).
  destruct (page_end after c Hrem) as (x&Hlast&Hne&Hax&Hdrop). fold rem in Hlast, Hdrop. rewrite Hlast.
  assert (∀ id, is_live c1 id → str_ltb after id = true → id ∈ rem) as Hrest.
  { intros id Hl Ha. apply elem_of_unchecked. split; [by apply Hlive|done]. }
  exists x. split_and!; [unfold workspace_state; simpl; by rewrite lookup_insert_eq|done| |].
  - split; [done|]. intros id Hid Hl. change (is_live c1 id) in Hl. destruct (str_ltb after id) eqn:Ha; [|by apply Hb1].
    specialize (Hrest id Hl Ha). rewrite <- (take_drop (rc_entries d) rem) in Hrest. apply elem_of_app in Hrest as [?|Hd]; [by apply Hids|].
    pose proof (unchecked_sorted after c) as Hs. fold rem in Hs. rewrite <- (take_drop (rc_entries d) rem) in Hs.
    apply (sorted_split _ _ _ x id) in Hs; [congruence| |done]. apply last_Some in Hlast as [pre ->]. set_solver.
  - assert (length (unchecked x (set_workspace_state (rc_workspace_id d) false (Some ("ghost:" +:+ x)) c1)) ≤ length (drop (rc_entries d) rem)) as Hle;
      [|rewrite length_drop in Hle; simpl in Hle; lia].
    apply submseteq_length, NoDup_submseteq.
    { rewrite <- (list_fmap_id (unchecked _ _)). apply (sorted_keys_NoDup id), unchecked_sorted. }
    intros id [Hl Hxi]%elem_of_unchecked. change (is_live c1 id) in Hl. apply Hdrop; [|done]. apply Hrest; [done|]. by apply (str_ltb_trans after x).
Qed.

Lemma ghost_pass_lease after now c :
  ct_lease (ghost_pass (rc_workspace_id d) (rc_entries d) now (rc_retention_ms d) (take (rc_entries d) (unchecked after c))
              (List.filter store_gone (take (rc_entries d) (unchecked after c))) c) = ct_lease c.
Proof. unfold ghost_pass. destruct (_ <? _); [|destruct (last _)]; simpl; apply apply_all_lease. Qed.

(** Listings of a workspace that is not complete, each with one call of the
    reconciler at the times given. *)
Fixpoint reconcile_until (times : list (Z * Z)) (c : Catalog) : Catalog :=
  match times with
  | [] => c
  | (leased_ms, now_ms) :: times =>
      if (workspace_state (rc_workspace_id d) c).1 then c
      else reconcile_until times (reconcile_catalog_once d leased_ms now_ms store_scan store_gone c)
  end.

Definition lease_expiry (c : Catalog) : Z :=
  match ct_lease c with Some (_, expiry) => from_sql_u64 expiry | None => 0%Z end.

(** Each call finds the lease of the one before expired. *)
Fixpoint spaced (expiry : Z) (times : list (Z * Z)) : Prop :=
  match times with
  | [] => True
  | (leased_ms, _) :: times => (0 ≤ leased_ms)%Z ∧ (expiry ≤ leased_ms)%Z ∧ spaced (leased_ms + rc_interval_ms d) times
  end.

(** Every stored session of the workspace has its row, and every row shown its session. *)
Definition reconciled (c : Catalog) : Prop :=
  (workspace_state (rc_workspace_id d) c).1 = true ∧ Forall (indexed c) table ∧ ∀ id, backed c id.

Context (Hinterval : (0 ≤ rc_interval_ms d)%Z).

Lemma spaced_le e e' times : (e' ≤ e)%Z → spaced e times → spaced e' times.
Proof. destruct times as [|[l n] times]; simpl; [done|]. intros ? (?&?&?). split_and!; [done|lia|done]. Qed.

Lemma lease_acquired l c :
  (0 ≤ l)%Z → (lease_expiry c ≤ l)%Z →
  ∃ c', try_acquire_reconcile_lease (rc_owner d) l (rc_interval_ms d) c = (c', true) ∧
    ct_rows c' = ct_rows c ∧ ct_workspaces c' = ct_workspaces c ∧ (lease_expiry c' ≤ l + rc_interval_ms d)%Z.
Proof.
  unfold lease_expiry, try_acquire_reconcile_lease. intros Hl He.
  assert (match ct_lease c with Some (_, e) => (l <? from_sql_u64 e)%Z | None => false end = false) as ->.
  { destruct (ct_lease c) as [[o e]|]; [|done]. apply Z.ltb_ge. lia. }
  eexists. split_and!; [done..|]. simpl. unfold from_sql_u64, to_sql_u64, u64_saturating_add. destruct (0 <=? _)%Z; lia.
Qed.

Lemma until_complete times c : (workspace_state (rc_workspace_id d) c).1 = true → reconcile_until times c = c.
Proof. destruct times as [|[l n] times]; simpl; [done|]. by intros ->. Qed.

Lemma pass_of_ghost after : pass_of (Some ("ghost:" +:+ after)) = GhostPass (non_empty after).
Proof. unfold pass_of. simpl. done. Qed.

Lemma default_non_empty s : default "" (non_empty s) = s.
Proof. unfold non_empty. by case_bool_decide. Qed.

Lemma ghost_completes q times c after :
  workspace_state (rc_workspace_id d) c = (false, Some ("ghost:" +:+ after)) → checking after c →
  length (unchecked after c) < q * rc_entries d → q ≤ length times → spaced (lease_expiry c) times →
  reconciled (reconcile_until times c).
Proof.
  revert times c after. induction q as [|q IH]; intros times c after Hw Hc Hlen Hq Hsp; [lia|].
  destruct times as [|[l n] times]; [simpl in Hq; lia|]. simpl in Hsp, Hq. destruct Hsp as (Hl&He&Hsp). simpl. rewrite Hw. simpl.
  destruct (lease_acquired l c Hl He) as (c1&Hacq&Hr1&Hw1&He1).
  assert (checking after c1) as Hc1.
  { destruct Hc as [H1 H2]. split; unfold indexed, backed in *; by rewrite Hr1. }
  assert (unchecked after c1 = unchecked after c) as Hu by (unfold unchecked, live_rows; by rewrite Hr1).
  unfold reconcile_catalog_once. rewrite Hacq. simpl negb. cbv iota. unfold workspace_state in Hw |- *. rewrite Hw1, Hw.
  cbn [snd]. rewrite pass_of_ghost. unfold ids_after. rewrite default_non_empty. fold (unchecked after c1).
  destruct (Nat.lt_ge_cases (length (unchecked after c1)) (rc_entries d)) as [Hlt|Hge].
  - destruct (ghost_pass_last after n c1 Hc1 Hlt) as (Hst&Hi&Hb). rewrite until_complete; [|by rewrite Hst]. split_and!; [by rewrite Hst|done..].
  - destruct (ghost_pass_more after n c1 Hc1 Hge) as (x&Hst&_&Hck&Hle). rewrite <- Hu in Hlen. eapply IH; [exact Hst|exact Hck|lia|lia|].
    eapply spaced_le; [|exact Hsp]. unfold lease_expiry at 1. rewrite ghost_pass_lease. exact He1.
Qed.

Lemma unchecked_bound (D : gset string) c after : dom (ct_rows c) ⊆ D → length (unchecked after c) ≤ size D.
Proof.
  intros Hd. unfold size, set_size. apply submseteq_length, NoDup_submseteq.
  - rewrite <- (list_fmap_id (unchecked _ _)). apply (sorted_keys_NoDup id), unchecked_sorted.
  - intros id [(e&He&_) _]%elem_of_unchecked. apply elem_of_elements, Hd, elem_of_dom. by eexists.
Qed.

Lemma pass_of_dir seen cursor :
  seen ⊆ table → cursor = ((λ id, "dir:" +:+ id) <$> cursor_after seen) → pass_of cursor = DirPass (cursor_after seen).
Proof.
  intros Hsub ->. unfold cursor_after. destruct (last seen) as [x|] eqn:Hl; [|done]. simpl. unfold pass_of. simpl.
  apply last_Some in Hl as [pre ->]. destruct (proj2 Htable x) as [[Hv _]%andb_true_iff _]; [set_solver|].
  apply negb_true_iff, bool_decide_eq_false in Hv. unfold non_empty. by rewrite bool_decide_false.
Qed.

Lemma dir_completes (D : gset string) p q times c seen rem :
  table = seen ++ rem → Forall (indexed c) seen →
  workspace_state (rc_workspace_id d) c = (false, (λ id, "dir:" +:+ id) <$> cursor_after seen) →
  dom (ct_rows c) ⊆ D → list_to_set (map sd_id table) ⊆ D → "" ∉ D → size D < q * rc_entries d →
  length rem < p * rc_entries d → p + q ≤ length times → spaced (lease_expiry c) times →
  reconciled (reconcile_until times c).
Proof.
  intros Heq Hi Hw Hdom HD Hempty Hq. revert times c seen rem Heq Hi Hw Hdom.
  induction p as [|p IH]; intros times c seen rem Heq Hi Hw Hdom Hlen Hp Hsp; [lia|].
  destruct times as [|[l n] times]; [simpl in Hp; lia|]. simpl in Hsp, Hp. destruct Hsp as (Hl&He&Hsp). simpl. rewrite Hw. simpl.
  destruct (lease_acquired l c Hl He) as (c1&Hacq&Hr1&Hw1&He1).
  assert (Forall (indexed c1) seen) as Hi1.
  { eapply Forall_impl; [exact Hi|]. intros r. unfold indexed. by rewrite Hr1. }
  unfold reconcile_catalog_once. rewrite Hacq. simpl negb. cbv iota.
  assert (workspace_state (rc_workspace_id d) c1 = workspace_state (rc_workspace_id d) c) as -> by (unfold workspace_state; by rewrite Hw1).
  rewrite Hw. cbn [snd]. rewrite (pass_of_dir seen); [|rewrite Heq; set_solver|done].
  destruct (dir_pass_page seen rem n c1 Heq Hi1) as (Hi2&Hst&Hls&Hdom2). set (c2 := dir_pass _ _ _ _) in *.
  assert (dom (ct_rows c2) ⊆ D) as Hd2.
  { intros id [Hid|Hid]%Hdom2; [apply Hdom; by rewrite <- Hr1|apply HD; by apply elem_of_list_to_set]. }
  assert (spaced (lease_expiry c2) times) as Hsp2.
  { eapply spaced_le; [|exact Hsp]. unfold lease_expiry at 1. rewrite Hls. exact He1. }
  destruct (Nat.ltb_spec (rc_entries d) (length rem)) as [Hmore|Hlast].
  - apply (IH times c2 (seen ++ take (rc_entries d) rem) (drop (rc_entries d) rem)); [|done| |done| |lia|done].
    + by rewrite <- app_assoc, take_drop.
    + rewrite Hst. f_equal. unfold cursor_after. rewrite last_app.
      destruct (last (take (rc_entries d) rem)) eqn:El; [done|]. apply last_None, (f_equal length) in El.
      rewrite length_take in El. simpl in El. lia.
    + rewrite length_drop. lia.
  - rewrite take_ge in Hi2 by done. rewrite <- Heq in Hi2. apply (ghost_completes q times c2 ""); [done| | |lia|done].
    + split; [done|]. intros id Hid. rewrite str_ltb_empty in Hid. apply negb_false_iff, bool_decide_eq_true in Hid as ->.
      intros (e&He'&_). exfalso. apply Hempty, Hd2, elem_of_dom. by eexists.
    + pose proof (unchecked_bound D c2 "" Hd2). lia.
Qed.
End reconcile.

(** C25: Reconciliation finishes and is right, when nothing interferes.  Start from a
    catalog whose workspace is marked incomplete with no cursor pending, over a store that
    does not change, all of whose payloads decode and whose directories resolve
    ([corrupt_record_stops_reconciliation] is what happens otherwise), and in which no
    other writer changes the catalog.  If each listing makes its call after the lease of
    the one before has expired, then after at most [p + q] calls, where [p] pages hold
    the store and [q] pages the store and the catalog, the workspace is complete: every
    stored session of the workspace has a live row with its model, time, preview and
    message count, and every live row of the workspace is a stored session. *)
Theorem reconciliation_completes (d : CatalogDiscovery) (table : list Stored) (canonicalize : string → option string)
    (workspace : string) (p q : nat) (times : list (Z * Z)) (c : Catalog)
    (Hentries : 1 ≤ rc_entries d) (Hinterval : (0 ≤ rc_interval_ms d)%Z) (Htable : table_ok table canonicalize)
    (Hempty : ct_rows c !! "" = None) (Hstate : workspace_state (rc_workspace_id d) c = (false, None))
    (Hp : length table < p * rc_entries d) (Hq : size (ct_rows c) + length table < q * rc_entries d)
    (Htimes : p + q ≤ length times) (Hspaced : spaced d (lease_expiry c) times) :
  reconciled d table canonicalize workspace (reconcile_until d table canonicalize workspace times c).
Proof.
  apply (dir_completes d table canonicalize workspace Hentries Htable Hinterval
           (dom (ct_rows c) ∪ list_to_set (map sd_id table)) p q times c [] table); try done; try set_solver.
  - rewrite not_elem_of_union, not_elem_of_dom, elem_of_list_to_set. split; [done|]. intros (r&Hr&Hin)%list_elem_of_fmap.
    destruct (proj2 Htable r Hin) as [Hv _]. by rewrite <- Hr in Hv.
  - eapply Nat.le_lt_trans; [|exact Hq]. rewrite size_union_alt, size_dom.
    assert (size (list_to_set (map sd_id table) ∖ dom (ct_rows c) : gset string) ≤ length table); [|lia].
    rewrite <- (length_map sd_id table), <- (size_list_to_set (C := gset string) (map sd_id table)) by (by apply sorted_keys_NoDup, Htable).
    apply subseteq_size. set_solver.
Qed.

Definition demo_discovery : CatalogDiscovery := mkCatalogDiscovery "daemon" 1000 "w" 2 60000.

Definition demo_stored (id cwd : string) (time : Z) : Stored :=
  mkStored id time (Some (mkSummary id "m" 4 (Some cwd) (Some "hello"))).

Definition demo_table : list Stored := [demo_stored "a" "/w" 300; demo_stored "b" "/other" 200; demo_stored "c" "/w" 100].

(** A catalog that shows a session which is not stored any more. *)
Definition demo_catalog : Catalog :=
  mkCatalog {[ "z" := mkCatalogEntry "w" (Some "m") 50 None (Some 1%Z) "old" 1 false 0 ]} ∅ (Some ("other", 900%Z)).

Definition demo_times : list (Z * Z) := [(1000, 1001); (2000, 2001); (3000, 3001); (4000, 4001); (5000, 5001)]%Z.

Lemma demo_table_ok : table_ok demo_table Some.
Proof.
  split; [repeat constructor|]. intros r Hr. unfold demo_table in Hr. rewrite !elem_of_cons, elem_of_nil in Hr.
  destruct_or!; subst; done || (split; [reflexivity|]; eexists; split_and!; reflexivity).
Qed.

Lemma reconciliation_completes_witness :
  reconciled demo_discovery demo_table Some "/w" (reconcile_until demo_discovery demo_table Some "/w" demo_times demo_catalog) ∧
  map cr_session_id (catalog_rows "w" 10 (reconcile_until demo_discovery demo_table Some "/w" demo_times demo_catalog)) = ["a"; "c"].
Proof.
  split; [|vm_compute; reflexivity].
  apply (reconciliation_completes demo_discovery demo_table Some "/w" 2 3 demo_times demo_catalog).
  - simpl. lia.
  - simpl. lia.
  - apply demo_table_ok.
  - reflexivity.
  - reflexivity.
  - simpl. lia.
  - vm_compute. lia.
  - simpl. lia.
  - vm_compute. repeat split; congruence.
Defined.

(** ** A payload that does not decode *)

Lemma length_omap_le {A B} (f : A → option B) l : length (omap f l) ≤ length l.
Proof. induction l as [|x l IH]; csimpl; [lia|]. destruct (f x); csimpl; lia. Qed.

Lemma omap_lost {A B} (f : A → option B) l x : x ∈ l → f x = None → length (omap f l) < length l.
Proof.
  intros Hx Hf. induction l as [|y l IH]; [set_solver|]. csimpl. apply elem_of_cons in Hx as [<-|Hx].
  - rewrite Hf. pose proof (length_omap_le f l). lia.
  - specialize (IH Hx). destruct (f y); csimpl; lia.
Qed.

Section corrupt.
Context (d : CatalogDiscovery) (table : list Stored) (canonicalize : string → option string) (workspace : string).
Context (Hentries : 1 ≤ rc_entries d)
  (Hsorted : StronglySorted (λ a b, str_ltb (sd_id a) (sd_id b) = true) table)
  (Hids : ∀ r, r ∈ table → sd_id r ≠ "" ∧ ∀ s, sd_summary r = Some s → ss_id s = sd_id r).

Lemma first_scan bad :
  bad ∈ take (S (rc_entries d)) table → sd_summary bad = None →
  let scan := store_scan d table canonicalize workspace None in
  sc_next_cursor scan = None ∧ sc_complete scan = false ∧
  ∀ y, y ∈ sc_summaries scan → ss_id y.1 ∈ map sd_id (take (S (rc_entries d)) table).
Proof.
  intros Hbad Hnone. unfold store_scan, scan_persisted_summaries, scan_summaries. cbn [sc_summaries sc_next_cursor sc_complete].
  rewrite Nat.max_l by lia. simpl default. rewrite Lfilter_all; cycle 1.
  { intros r Hr. rewrite str_ltb_empty. apply negb_true_iff, bool_decide_eq_false, Hids, Hr. }
  set (fetched := take (S (rc_entries d)) table) in *. set (f := λ r, (λ s, (s, Some (sd_updated_at_unix_ns r))) <$> sd_summary r).
  assert (length (omap f fetched) ≤ rc_entries d) as Hlen.
  { pose proof (omap_lost f fetched bad Hbad ltac:(unfold f; by rewrite Hnone)). unfold fetched in H at 2. rewrite length_take in H. lia. }
  rewrite (proj2 (Nat.ltb_ge _ _) Hlen). split_and!; [done| |].
  - match goal with |- context [forallb ?g fetched] => assert (forallb g fetched = false) as ->; [|done] end. apply not_true_iff_false. rewrite forallb_forall. intros Hall.
    specialize (Hall bad (proj1 (list_elem_of_In _ _) Hbad)). by rewrite Hnone in Hall.
  - intros y [Hy _]%elem_of_Lfilter. rewrite sort_by_perm in Hy. apply elem_of_take in Hy as (i&Hi&_).
    apply list_elem_of_lookup_2, list_elem_of_omap in Hi as (r&Hr&Hf). unfold f in Hf. apply fmap_Some in Hf as (s&Hs&->).
    simpl. destruct (Hids r) as [_ Heq]; [|rewrite (Heq s Hs); by apply list_elem_of_fmap_2].
    apply elem_of_take in Hr as (j&Hj&_). by eapply list_elem_of_lookup_2.
Qed.

Lemma once_stuck bad r l n c :
  bad ∈ take (S (rc_entries d)) table → sd_summary bad = None → r ∈ drop (S (rc_entries d)) table →
  workspace_state (rc_workspace_id d) c = (false, None) → ct_rows c !! sd_id r = None →
  let c' := reconcile_catalog_once d l n (store_scan d table canonicalize workspace) (store_gone table) c in
  workspace_state (rc_workspace_id d) c' = (false, None) ∧ ct_rows c' !! sd_id r = None.
Proof.
  intros Hbad Hnone Hr Hstate Hrow c'. destruct (first_scan bad Hbad Hnone) as (Hcur&Hcomp&Hsum).
  unfold c', reconcile_catalog_once, try_acquire_reconcile_lease. destruct (match ct_lease c with Some _ => _ | None => _ end); [done|].
  cbn [negb]. set (c1 := mkCatalog _ _ _). assert (workspace_state (rc_workspace_id d) c1 = (false, None)) as -> by exact Hstate.
  change (pass_of (false, None).2) with (DirPass None). unfold dir_pass. rewrite Hcomp, Hcur. simpl. split.
  - unfold workspace_state. simpl. by rewrite lookup_insert_eq.
  - rewrite apply_all_other; [done|]. rewrite (map_session_id_imap _ (λ p, ss_id p.1)) by done.
    intros (y&Hy&Hin)%list_elem_of_fmap. apply Hsum in Hin. rewrite <- Hy in Hin.
    pose proof (sorted_keys_NoDup sd_id table Hsorted) as Hnd. rewrite <- (take_drop (S (rc_entries d)) table), map_app in Hnd.
    apply NoDup_app in Hnd as (_&Hdis&_). apply (Hdis (sd_id r) Hin). by apply list_elem_of_fmap_2.
Qed.
End corrupt.

(** One payload the build cannot decode, among the first [rc_entries + 1] rows of the store,
    keeps reconciliation from ever getting further: the scan forgets its cursor and is not
    complete, so that every call scans the same page again, no session stored after that
    page is ever entered in the catalog, and the workspace never becomes complete. *)
Theorem corrupt_record_stops_reconciliation (d : CatalogDiscovery) (table : list Stored)
    (canonicalize : string → option string) (workspace : string) (bad r : Stored) (times : list (Z * Z)) (c : Catalog)
    (Hentries : 1 ≤ rc_entries d)
    (Hsorted : StronglySorted (λ a b, str_ltb (sd_id a) (sd_id b) = true) table)
    (Hids : ∀ r, r ∈ table → sd_id r ≠ "" ∧ ∀ s, sd_summary r = Some s → ss_id s = sd_id r)
    (Hbad : bad ∈ take (S (rc_entries d)) table) (Hnone : sd_summary bad = None)
    (Hr : r ∈ drop (S (rc_entries d)) table)
    (Hstate : workspace_state (rc_workspace_id d) c = (false, None)) (Hrow : ct_rows c !! sd_id r = None) :
  let c' := reconcile_until d table canonicalize workspace times c in
  workspace_state (rc_workspace_id d) c' = (false, None) ∧ ct_rows c' !! sd_id r = None.
Proof.
  revert c Hstate Hrow. induction times as [|[l n] times IH]; intros c Hstate Hrow; simpl; [done|]. rewrite Hstate. simpl.
  destruct (once_stuck d table canonicalize workspace Hentries Hsorted Hids bad r l n c Hbad Hnone Hr Hstate Hrow) as [Hs' Hr'].
  by apply IH.
Qed.

(** Pages of two: the second of four payloads is of a later version. *)
Definition demo_corrupt_table : list Stored :=
  [demo_stored "a" "/w" 400; mkStored "b" 300 None; demo_stored "c" "/w" 200; demo_stored "d" "/w" 100].

Lemma corrupt_record_stops_reconciliation_witness :
  let c' := reconcile_until demo_discovery demo_corrupt_table Some "/w" demo_times catalog_new in
  workspace_state "w" c' = (false, None) ∧ ct_rows c' !! "d" = None.
Proof.
  apply (corrupt_record_stops_reconciliation demo_discovery demo_corrupt_table Some "/w" (mkStored "b" 300 None)
           (demo_stored "d" "/w" 100) demo_times catalog_new).
  - simpl. lia.
  - repeat constructor.
  - intros r Hr. unfold demo_corrupt_table in Hr. rewrite !elem_of_cons, elem_of_nil in Hr.
    destruct_or!; subst; done || (split; [discriminate|]; intros s Hs; by simplify_eq/=).
  - simpl. set_solver.
  - reflexivity.
  - simpl. set_solver.
  - reflexivity.
  - reflexivity.
Defined.
