(* ===== verification/CatalogWriter.v ===== *)
(** * The writer of the session catalog

    [session_catalog.rs], [SessionCatalogWriter] and [run_writer]: sessions that save or
    delete themselves put mutations into a bounded table of pending ones, and one task
    takes batches from it and applies them.  Mutations can be lost: dropped when the table
    is full, refused by the catalog, or not written because of an error.

    The machine has one step per action that other threads can observe: under the lock
    ([enqueue], [take_batch]), on the wake-up channel, one statement, one update of an
    atomic.  [wt_log] records what became of each mutation. *)

From stdpp Require Import base numbers list strings gmap sorting.
From S2P Require Import Prelude RustStr Protocol Messages Store Registry Listing Catalog.

(** ** Data *)

Record PersistedWrite := mkPersistedWrite {
  pw_summary : SessionSummary;
  pw_updated_at_unix_ns : Z;
}.

(** The fields a writer is started with. *)
Record WriterConfig := mkWriterConfig {
  wc_workspace_id : string;
  wc_writer_instance_id : string;
  wc_max_pending : nat;
  wc_batch_size : nat;
  wc_max_preview_bytes : nat;
}.

Definition writer_start (workspace_id writer_instance_id : string) (max_pending batch_size max_preview_bytes : nat) : WriterConfig :=
  mkWriterConfig workspace_id writer_instance_id (max_pending `max` 1) (batch_size `max` 1) (max_preview_bytes `max` 1).

(** Where [run_writer] is: waiting for a wake-up, at the head of its inner loop, in the
    blocking task with the rest of a batch, before [fetch_sub], before the store to
    [healthy]. *)
Inductive WriterPc :=
  | WpIdle
  | WpLoop
  | WpApply (batch : list CatalogMutation) (needs_reconciliation failed : bool) (weight : nat)
  | WpCount (failed : bool) (weight : nat)
  | WpHealth (failed : bool).

(** What became of a mutation. *)
Inductive Outcome :=
  | OQueued (m : CatalogMutation)
  | ODropped (m : CatalogMutation)
  | OReplaced (m : CatalogMutation)
  | OApplied (m : CatalogMutation)
  | ORefused (m : CatalogMutation)
  | OFailed (m : CatalogMutation)
  | OMarked
  | OMarkFailed.

(** [wt_waking] counts the callers of [enqueue] that have released the lock and not yet
    sent the wake-up; [wt_wake] is whether the channel holds one. *)
Record Writer := mkCatalogWriter {
  wt_catalog : Catalog;
  wt_generation : Z;
  wt_mutations : gmap string CatalogMutation;
  wt_mark_incomplete : bool;
  wt_waking : nat;
  wt_wake : bool;
  wt_in_flight : nat;
  wt_healthy : bool;
  wt_pc : WriterPc;
  wt_log : list Outcome;
}.

Definition writer_new (c : Catalog) : Writer := mkCatalogWriter c 0 ∅ false 0 false 0 true WpIdle [].

(** ** Enqueueing *)

Definition saved_mutation (cfg : WriterConfig) (generation now_ms : Z) (write : PersistedWrite) : CatalogMutation :=
  mkMutation (ss_id (pw_summary write)) (wc_workspace_id cfg) (Some (ss_model (pw_summary write))) (pw_updated_at_unix_ns write)
    (ss_first_user_line (pw_summary write) ≫= λ line, normalize_preview line (wc_max_preview_bytes cfg))
    (Some (ss_message_count (pw_summary write))) (wc_writer_instance_id cfg) generation false now_ms false.

Definition deleted_mutation (cfg : WriterConfig) (generation now_ms : Z) (session_id : string) : CatalogMutation :=
  mkMutation session_id (wc_workspace_id cfg) None (u64_saturating_mul now_ms 1000000) None None
    (wc_writer_instance_id cfg) generation true now_ms false.

(** [pending.mutations.insert], and the release of the lock. *)
Definition put_mutation (m : CatalogMutation) (events : list Outcome) (s : Writer) : Writer :=
  mkCatalogWriter (wt_catalog s) (wt_generation s) (<[cm_session_id m := m]> (wt_mutations s)) (wt_mark_incomplete s)
    (S (wt_waking s)) (wt_wake s) (wt_in_flight s) (wt_healthy s) (wt_pc s) (wt_log s ++ events).

(** [enqueue], up to the release of the lock.  The number of the mutation is taken in the
    same step: callers hold their session's persistence lock, so the mutations of one
    session are enqueued in the order of their numbers. *)
Definition enqueue (cfg : WriterConfig) (m : CatalogMutation) (s : Writer) : Writer :=
  if negb (wt_healthy s) then s
  else match wt_mutations s !! cm_session_id m with
       | None =>
           if wc_max_pending cfg <=? size (wt_mutations s)
           then mkCatalogWriter (wt_catalog s) (wt_generation s) (wt_mutations s) true (S (wt_waking s)) (wt_wake s)
                  (wt_in_flight s) (wt_healthy s) (wt_pc s) (wt_log s ++ [ODropped m])
           else put_mutation m [OQueued m] s
       | Some old => put_mutation m [OReplaced old; OQueued m] s
       end.

(** [generation.fetch_add(1) + 1]. *)
Definition next_generation (s : Writer) : Writer :=
  mkCatalogWriter (wt_catalog s) (wt_generation s + 1) (wt_mutations s) (wt_mark_incomplete s) (wt_waking s) (wt_wake s)
    (wt_in_flight s) (wt_healthy s) (wt_pc s) (wt_log s).

Definition enqueue_saved (cfg : WriterConfig) (now_ms : Z) (write : PersistedWrite) (s : Writer) : Writer :=
  let s := next_generation s in enqueue cfg (saved_mutation cfg (wt_generation s) now_ms write) s.

Definition enqueue_deleted (cfg : WriterConfig) (now_ms : Z) (session_id : string) (s : Writer) : Writer :=
  let s := next_generation s in enqueue cfg (deleted_mutation cfg (wt_generation s) now_ms session_id) s.

(** [wake.try_send(())] on a channel of one: a full one stays full. *)
Definition send_wake (s : Writer) : option Writer :=
  match wt_waking s with
  | S n => Some (mkCatalogWriter (wt_catalog s) (wt_generation s) (wt_mutations s) (wt_mark_incomplete s) n true
                   (wt_in_flight s) (wt_healthy s) (wt_pc s) (wt_log s))
  | 0 => None
  end.

Definition pending_count (s : Writer) : nat := size (wt_mutations s) + b2n (wt_mark_incomplete s) + wt_in_flight s.

(** ** The task *)

Definition set_pc (pc : WriterPc) (s : Writer) : Writer :=
  mkCatalogWriter (wt_catalog s) (wt_generation s) (wt_mutations s) (wt_mark_incomplete s) (wt_waking s) (wt_wake s)
    (wt_in_flight s) (wt_healthy s) pc (wt_log s).

Definition receive_wake (s : Writer) : Writer :=
  mkCatalogWriter (wt_catalog s) (wt_generation s) (wt_mutations s) (wt_mark_incomplete s) (wt_waking s) false
    (wt_in_flight s) (wt_healthy s) WpLoop (wt_log s).

(** The first [batch_size] keys of the map, in their order. *)
Definition batch_keys (cfg : WriterConfig) (pending : gmap string CatalogMutation) : list string :=
  take (wc_batch_size cfg) (sort_by str_leb (map fst (map_to_list pending))).

Definition take_batch (cfg : WriterConfig) (s : Writer) : Writer :=
  let keys := batch_keys cfg (wt_mutations s) in
  let batch := omap (λ k, wt_mutations s !! k) keys in
  let rest := foldl (λ pending k, delete k pending) (wt_mutations s) keys in
  let weight := length batch `max` 1 in
  if bool_decide (batch = []) && negb (wt_mark_incomplete s) then set_pc WpIdle s
  else mkCatalogWriter (wt_catalog s) (wt_generation s) rest false (wt_waking s) (wt_wake s) (wt_in_flight s + weight)
         (wt_healthy s) (WpApply batch (wt_mark_incomplete s) false weight) (wt_log s).

Definition set_catalog (c : Catalog) (pc : WriterPc) (o : Outcome) (s : Writer) : Writer :=
  mkCatalogWriter c (wt_generation s) (wt_mutations s) (wt_mark_incomplete s) (wt_waking s) (wt_wake s) (wt_in_flight s)
    (wt_healthy s) pc (wt_log s ++ [o]).

(** A statement of the batch, or the mark after it; [fault] is its error. *)
Definition apply_next (cfg : WriterConfig) (fault : bool) (s : Writer) : Writer :=
  match wt_pc s with
  | WpApply (m :: batch) needs failed weight =>
      if fault then set_catalog (wt_catalog s) (WpApply batch needs true weight) (OFailed m) s
      else match catalog_apply m (wt_catalog s) with
           | (c, true) => set_catalog c (WpApply batch needs failed weight) (OApplied m) s
           | (c, false) => set_catalog c (WpApply batch true failed weight) (ORefused m) s
           end
  | WpApply [] true failed weight =>
      if fault then set_catalog (wt_catalog s) (WpCount true weight) OMarkFailed s
      else set_catalog (mark_incomplete (wc_workspace_id cfg) (wt_catalog s)) (WpCount failed weight) OMarked s
  | WpApply [] false failed weight => set_pc (WpCount failed weight) s
  | _ => s
  end.

(** [in_flight.fetch_sub(weight)]. *)
Definition count_down (weight : nat) (failed : bool) (s : Writer) : Writer :=
  mkCatalogWriter (wt_catalog s) (wt_generation s) (wt_mutations s) (wt_mark_incomplete s) (wt_waking s) (wt_wake s)
    (wt_in_flight s - weight) (wt_healthy s) (WpHealth failed) (wt_log s).

Definition set_health (failed : bool) (s : Writer) : Writer :=
  mkCatalogWriter (wt_catalog s) (wt_generation s) (wt_mutations s) (wt_mark_incomplete s) (wt_waking s) (wt_wake s)
    (wt_in_flight s) (if failed then false else wt_healthy s) WpLoop (wt_log s).

(** The next step of [run_writer], none when it waits; [fault] as in [apply_next]. *)
Definition run_writer (cfg : WriterConfig) (fault : bool) (s : Writer) : option Writer :=
  match wt_pc s with
  | WpIdle => if wt_wake s then Some (receive_wake s) else None
  | WpLoop => Some (take_batch cfg s)
  | WpApply _ _ _ _ => Some (apply_next cfg fault s)
  | WpCount failed weight => Some (count_down weight failed s)
  | WpHealth failed => Some (set_health failed s)
  end.

(** ** The machine *)

Inductive WriterAct :=
  | WaSaved (now_ms : Z) (write : PersistedWrite)
  | WaDeleted (now_ms : Z) (session_id : string)
  | WaWake
  | WaRun (fault : bool)
  | WaElsewhere (c : Catalog).

(** [WaElsewhere] is what other processes and the reconciler do to the catalog. *)
Definition writer_act (cfg : WriterConfig) (a : WriterAct) (s : Writer) : option Writer :=
  match a with
  | WaSaved now_ms write => Some (enqueue_saved cfg now_ms write s)
  | WaDeleted now_ms session_id => Some (enqueue_deleted cfg now_ms session_id s)
  | WaWake => send_wake s
  | WaRun fault => run_writer cfg fault s
  | WaElsewhere c =>
      Some (mkCatalogWriter c (wt_generation s) (wt_mutations s) (wt_mark_incomplete s) (wt_waking s) (wt_wake s)
              (wt_in_flight s) (wt_healthy s) (wt_pc s) (wt_log s))
  end.

Inductive writer_reachable (cfg : WriterConfig) (c : Catalog) : Writer → Prop :=
  | wr_start : writer_reachable cfg c (writer_new c)
  | wr_step s a s' : writer_reachable cfg c s → writer_act cfg a s = Some s' → writer_reachable cfg c s'.

(** ** What the log promises *)

Definition settled (m : CatalogMutation) (log : list Outcome) : Prop :=
  OReplaced m ∈ log ∨ OApplied m ∈ log ∨ ORefused m ∈ log ∨ OFailed m ∈ log.

(** A mutation the catalog does not have, without an error. *)
Definition is_loss (o : Outcome) : bool :=
  match o with ODropped _ | ORefused _ => true | _ => false end.

Definition is_failure (o : Outcome) : bool :=
  match o with OFailed _ | OMarkFailed => true | _ => false end.

Definition queued (log : list Outcome) : list CatalogMutation :=
  omap (λ o, match o with OQueued m => Some m | _ => None end) log.

Definition batch_of (pc : WriterPc) : list CatalogMutation := match pc with WpApply batch _ _ _ => batch | _ => [] end.
Definition needs_of (pc : WriterPc) : bool := match pc with WpApply _ needs _ _ => needs | _ => false end.
Definition failed_of (pc : WriterPc) : bool := match pc with WpApply _ _ f _ | WpCount f _ | WpHealth f => f | _ => false end.
Definition weight_of (pc : WriterPc) : nat := match pc with WpApply _ _ _ w | WpCount _ w => w | _ => 0 end.

Record writer_inv (s : Writer) : Prop := mkWriterInv {
  wi_keys : ∀ k m, wt_mutations s !! k = Some m → cm_session_id m = k;
  wi_queued : ∀ m, OQueued m ∈ wt_log s →
    settled m (wt_log s) ∨ wt_mutations s !! cm_session_id m = Some m ∨ m ∈ batch_of (wt_pc s);
  wi_loss : ∀ pre o post, wt_log s = pre ++ o :: post → is_loss o = true →
    OMarked ∈ post ∨ OMarkFailed ∈ post ∨ wt_mark_incomplete s = true ∨ needs_of (wt_pc s) = true;
  wi_failed : ∀ o, o ∈ wt_log s → is_failure o = true → wt_healthy s = false ∨ failed_of (wt_pc s) = true;
  wi_flight : wt_in_flight s = weight_of (wt_pc s);
  wi_weight : match wt_pc s with WpApply _ _ _ w | WpCount _ w => 1 ≤ w | _ => True end;
  wi_wake : wt_mutations s ≠ ∅ ∨ wt_mark_incomplete s = true → wt_pc s ≠ WpIdle ∨ wt_wake s = true ∨ 0 < wt_waking s;
  wi_generations : StronglySorted Z.lt (map cm_generation (queued (wt_log s)));
  wi_generation : ∀ m, m ∈ queued (wt_log s) → (cm_generation m ≤ wt_generation s)%Z;
}.

Lemma settled_app m l k : settled m l → settled m (l ++ k).
Proof. unfold settled. set_solver. Qed.

Lemma snoc_cases {A} (l : list A) o pre x post :
  l ++ [o] = pre ++ x :: post → (post = [] ∧ x = o) ∨ ∃ post', post = post' ++ [o] ∧ l = pre ++ x :: post'.
Proof.
  intros Heq. destruct post as [|y post _] using rev_ind.
  - apply app_inj_tail in Heq as [_ ->]. by left.
  - rewrite app_comm_cons, app_assoc in Heq. apply app_inj_tail in Heq as [-> ->]. right. by exists post.
Qed.

(** Only the last event can be a loss that nothing has reported. *)
Lemma loss_snoc (P : list Outcome → Prop) l o :
  (∀ post, P post → P (post ++ [o])) →
  (∀ pre x post, l = pre ++ x :: post → is_loss x = true → P post) → (is_loss o = true → P []) →
  ∀ pre x post, l ++ [o] = pre ++ x :: post → is_loss x = true → P post.
Proof. intros Hmono Hl Ho pre x post [[-> ->]|(post'&->&Heq)]%snoc_cases Hx; [by apply Ho|eauto]. Qed.

Lemma queued_snoc l o : queued (l ++ [o]) = queued l ++ match o with OQueued m => [m] | _ => [] end.
Proof. unfold queued. rewrite omap_app. by destruct o. Qed.

Lemma elem_of_queued m l : m ∈ queued l ↔ OQueued m ∈ l.
Proof.
  unfold queued. rewrite list_elem_of_omap. split; [intros (o&Ho&Hm)|by exists (OQueued m)]. by destruct o; simplify_eq.
Qed.

(** *** Enqueueing keeps the invariant *)

Lemma inv_next_generation s : writer_inv s → writer_inv (next_generation s).
Proof. intros [H1 H2 H3 H4 H5 H6 H7 H8 H9]. split; simpl; auto. intros m Hm%H9. lia. Qed.

Lemma inv_put m events s :
  writer_inv s → cm_generation m = wt_generation s → (∀ x, x ∈ queued (wt_log s) → (cm_generation x < cm_generation m)%Z) →
  events = option_list (OReplaced <$> wt_mutations s !! cm_session_id m) ++ [OQueued m] →
  writer_inv (put_mutation m events s).
Proof.
  intros [H1 H2 H3 H4 H5 H6 H7 H8 H9] Hg Hlt ->. set (rep := option_list _).
  assert (Forall (λ o, is_loss o = false ∧ is_failure o = false ∧ ∀ x, o ≠ OQueued x) rep) as Hrep.
  { unfold rep. destruct (_ !! _); repeat constructor; done. }
  assert (queued (wt_log s ++ rep ++ [OQueued m]) = queued (wt_log s) ++ [m]) as Hq.
  { rewrite app_assoc, queued_snoc. f_equal. unfold rep. destruct (_ !! _); simpl; [by rewrite queued_snoc, app_nil_r|by rewrite app_nil_r]. }
  split; cbn [wt_mutations wt_log wt_pc wt_mark_incomplete wt_healthy wt_in_flight wt_waking wt_wake wt_generation put_mutation];
    [..|done|done| | |].
  - intros k x [[<- <-]|[_ Hx]]%lookup_insert_Some; [done|by apply H1].
  - intros x. rewrite <- elem_of_queued, Hq, elem_of_app, list_elem_of_singleton, elem_of_queued. intros [Hx| ->].
    + destruct (H2 x Hx) as [Hs|[Hm|Hb]]; [left; by apply settled_app| |by right; right].
      destruct (decide (cm_session_id x = cm_session_id m)) as [He|Hne]; [|right; left; by rewrite lookup_insert_ne].
      left. left. unfold rep. rewrite <- He, Hm. set_solver.
    + right. left. apply lookup_insert_eq.
  - rewrite app_assoc. apply loss_snoc; [set_solver| |done]. unfold rep. destruct (_ !! _); simpl; [|by rewrite app_nil_r].
    apply loss_snoc; [set_solver|done|done].
  - intros o [Ho|[Ho| ->%list_elem_of_singleton]%elem_of_app]%elem_of_app Hf; [by apply (H4 o)| |done].
    rewrite Forall_forall in Hrep. destruct (Hrep o Ho) as (_&?&_). congruence.
  - intros _. right. right. lia.
  - rewrite Hq, map_app. apply StronglySorted_snoc; [done|]. apply Forall_forall. intros g (x&->&Hx)%list_elem_of_fmap. by apply Hlt.
  - rewrite Hq. intros x [Hx| ->%list_elem_of_singleton]%elem_of_app; [by apply H9|lia].
Qed.

Lemma inv_enqueue cfg m s :
  writer_inv s → cm_generation m = wt_generation s → (∀ x, x ∈ queued (wt_log s) → (cm_generation x < cm_generation m)%Z) →
  writer_inv (enqueue cfg m s).
Proof.
  intros Hinv Hg Hlt. unfold enqueue. destruct (negb (wt_healthy s)); [done|].
  destruct (wt_mutations s !! cm_session_id m) as [old|] eqn:Hold; [|destruct (_ <=? _)];
    [apply inv_put; by rewrite ?Hold| |apply inv_put; by rewrite ?Hold].
  destruct Hinv as [H1 H2 H3 H4 H5 H6 H7 H8 H9]. split; simpl; [done| | | |done|done| | |].
  - intros x [Hx|?%list_elem_of_singleton]%elem_of_app; [|done]. destruct (H2 x Hx) as [?|?]; [left; by apply settled_app|by right].
  - intros. by right; right; left.
  - intros o [Ho| ->%list_elem_of_singleton]%elem_of_app Hf; [by apply (H4 o)|done].
  - intros _. right. right. lia.
  - by rewrite queued_snoc, app_nil_r.
  - by rewrite queued_snoc, app_nil_r.
Qed.

(** *** The task keeps the invariant *)

Lemma elem_of_batch_keys_all cfg pending k :
  k ∈ batch_keys cfg pending → is_Some (pending !! k).
Proof.
  unfold batch_keys. intros (i&Hi&_)%elem_of_take. apply list_elem_of_lookup_2 in Hi. rewrite sort_by_perm in Hi.
  apply list_elem_of_fmap in Hi as ([k' m]&->&Hm%elem_of_map_to_list). by eexists.
Qed.

Lemma batch_keys_nil cfg pending : 1 ≤ wc_batch_size cfg → batch_keys cfg pending = [] → pending = ∅.
Proof.
  unfold batch_keys. intros Hb Hn. apply (f_equal length) in Hn. rewrite length_take in Hn. simpl in Hn.
  rewrite sort_by_perm, length_map, length_map_to_list in Hn. apply map_size_empty_iff. lia.
Qed.

Lemma delete_all_lookup {A} (keys : list string) (m : gmap string A) k :
  foldl (λ m k, delete k m) m keys !! k = if decide (k ∈ keys) then None else m !! k.
Proof.
  induction keys as [|x keys IH] using rev_ind; [done|]. rewrite foldl_snoc. destruct (decide (x = k)) as [->|Hne].
  - rewrite lookup_delete_eq, decide_True by set_solver. done.
  - rewrite lookup_delete_ne by done. rewrite IH. repeat case_decide; set_solver.
Qed.

Lemma elem_of_batch cfg s m :
  m ∈ omap (λ k, wt_mutations s !! k) (batch_keys cfg (wt_mutations s)) ↔
  ∃ k, k ∈ batch_keys cfg (wt_mutations s) ∧ wt_mutations s !! k = Some m.
Proof. by rewrite list_elem_of_omap. Qed.

Lemma batch_nil cfg s :
  1 ≤ wc_batch_size cfg → omap (λ k, wt_mutations s !! k) (batch_keys cfg (wt_mutations s)) = [] → wt_mutations s = ∅.
Proof.
  intros Hb Hn. apply (batch_keys_nil cfg); [done|]. destruct (batch_keys cfg (wt_mutations s)) as [|k keys] eqn:Hk; [done|].
  destruct (elem_of_batch_keys_all cfg (wt_mutations s) k) as [m Hm]; [rewrite Hk; set_solver|].
  simpl in Hn. by rewrite Hm in Hn.
Qed.

Section task.
Context (cfg : WriterConfig) (Hbatch : 1 ≤ wc_batch_size cfg).

Lemma inv_take_batch s : wt_pc s = WpLoop → writer_inv s → writer_inv (take_batch cfg s).
Proof.
  intros Hpc [H1 H2 H3 H4 H5 H6 H7 H8 H9]. unfold take_batch. set (batch := omap _ _). rewrite Hpc in *.
  destruct (bool_decide (batch = []) && negb (wt_mark_incomplete s)) eqn:Hemp.
  - apply andb_true_iff in Hemp as [Hn%bool_decide_eq_true Hm%negb_true_iff]. apply (batch_nil cfg s Hbatch) in Hn.
    split; simpl; [done..| |done|done]. rewrite Hn, Hm. intros [?|?]; done.
  - split; simpl; [| | |done|simpl in H5; lia|lia| |done|done].
    + intros k m. rewrite delete_all_lookup. case_decide; [done|apply H1].
    + intros m [Hs|[Hm|Hb]]%H2; [by left| |set_solver]. rewrite delete_all_lookup. case_decide as Hk; [|by right; left].
      right. right. apply elem_of_batch. eauto.
    + intros pre o post Heq Hl. destruct (H3 pre o post Heq Hl) as [?|[?|[?|?]]]; auto.
    + intros _. by left.
Qed.

(** A statement adds one event; the cases differ in the event and the place. *)
Lemma inv_statement c pc o s :
  writer_inv s → (∀ x, o ≠ OQueued x) → weight_of pc = weight_of (wt_pc s) → 1 ≤ weight_of pc →
  (match pc with WpApply _ _ _ _ | WpCount _ _ => True | _ => False end) →
  (∀ x, x ∈ batch_of (wt_pc s) → settled x [o] ∨ x ∈ batch_of pc) →
  (is_loss o = true → needs_of pc = true) → (needs_of (wt_pc s) = true → needs_of pc = true ∨ o = OMarked ∨ o = OMarkFailed) →
  (failed_of (wt_pc s) = true ∨ is_failure o = true → failed_of pc = true) →
  writer_inv (set_catalog c pc o s).
Proof.
  intros [H1 H2 H3 H4 H5 H6 H7 H8 H9] Hnq Hw Hw1 Hpc Hb Hl Hn Hf. split; simpl; [done| | | |lia| | | |].
  - intros x [Hx|Hx%list_elem_of_singleton]%elem_of_app; [|by destruct (Hnq x)].
    destruct (H2 x Hx) as [?|[?|[Hs|?]%Hb]]; [left; by apply settled_app|auto| |auto]. left.
    unfold settled in *. rewrite !elem_of_app. tauto.
  - intros pre x post [[-> ->]|(post'&->&Heq)]%snoc_cases Hx; [right; right; right; by apply Hl|].
    destruct (H3 pre x post' Heq Hx) as [?|[?|[?|[?|[->| ->]]%Hn]]]; rewrite !elem_of_app, !list_elem_of_singleton; clear H1 H2 H3 H4; intuition.
  - intros x [Hx| ->%list_elem_of_singleton]%elem_of_app Hfx; [|right; by apply Hf; right].
    destruct (H4 x Hx Hfx) as [?|?]; [by left|right; by apply Hf; left].
  - by destruct pc.
  - intros _. left. by destruct pc.
  - rewrite queued_snoc. destruct o; try (by rewrite app_nil_r). by destruct (Hnq m).
  - rewrite queued_snoc. destruct o; try (by rewrite app_nil_r). by destruct (Hnq m).
Qed.

Lemma inv_apply_next fault s batch needs failed weight :
  wt_pc s = WpApply batch needs failed weight → writer_inv s → writer_inv (apply_next cfg fault s).
Proof.
  intros Hpc Hinv. pose proof (wi_weight s Hinv) as Hw. unfold apply_next. rewrite Hpc in *. destruct batch as [|m batch].
  - destruct needs; [destruct fault; apply inv_statement; rewrite ?Hpc; simpl; auto; clear; set_solver|].
    destruct Hinv as [H1 H2 H3 H4 H5 H6 H7 H8 H9]. rewrite Hpc in *. split; simpl; auto.
  - destruct fault; [|destruct (catalog_apply m (wt_catalog s)) as [c []]]; apply inv_statement; rewrite ?Hpc; simpl; auto;
      clear; unfold settled; set_solver.
Qed.

Lemma inv_run_writer fault s s' : writer_inv s → run_writer cfg fault s = Some s' → writer_inv s'.
Proof.
  intros Hinv. unfold run_writer. destruct (wt_pc s) as [| |batch needs failed weight|failed weight|failed] eqn:Hpc.
  - destruct (wt_wake s); intros [= <-]. destruct Hinv as [H1 H2 H3 H4 H5 H6 H7 H8 H9]. rewrite Hpc in *.
    split; simpl; auto.
  - intros [= <-]. by apply inv_take_batch.
  - intros [= <-]. by eapply inv_apply_next.
  - intros [= <-]. destruct Hinv as [H1 H2 H3 H4 H5 H6 H7 H8 H9]. rewrite Hpc in *. split; simpl; auto.
    simpl in H5. lia.
  - intros [= <-]. destruct Hinv as [H1 H2 H3 H4 H5 H6 H7 H8 H9]. rewrite Hpc in *. split; simpl; auto.
    intros o Ho Hf. destruct failed; [by left|]. destruct (H4 o Ho Hf) as [?|?]; [by left|done].
Qed.

Lemma inv_act a s s' : writer_inv s → writer_act cfg a s = Some s' → writer_inv s'.
Proof.
  intros Hinv. destruct a as [now w|now id| |fault|c]; simpl.
  - intros [= <-]. unfold enqueue_saved. apply inv_enqueue; [by apply inv_next_generation|done|].
    simpl. intros x Hx%(wi_generation s Hinv). lia.
  - intros [= <-]. unfold enqueue_deleted. apply inv_enqueue; [by apply inv_next_generation|done|].
    simpl. intros x Hx%(wi_generation s Hinv). lia.
  - unfold send_wake. destruct (wt_waking s) as [|n] eqn:Hn; intros [= <-].
    destruct Hinv as [H1 H2 H3 H4 H5 H6 H7 H8 H9]. split; simpl; auto.
  - by apply inv_run_writer.
  - intros [= <-]. destruct Hinv as [H1 H2 H3 H4 H5 H6 H7 H8 H9]. by split.
Qed.

Lemma writer_reachable_inv c s : writer_reachable cfg c s → writer_inv s.
Proof.
  induction 1 as [|s a s' Hr IH Ha]; [|by eapply inv_act]. split; simpl; try done; try set_solver; [by intros []|constructor].
Qed.
End task.

(** ** The task becomes quiet *)

(** With no further enqueueing: the senders of wake-ups finish, then the task runs;
    [faults] are the errors of its statements. *)
Fixpoint writer_drain (cfg : WriterConfig) (faults : nat → bool) (fuel : nat) (s : Writer) : Writer :=
  match fuel with
  | 0 => s
  | S fuel =>
      match (if 0 <? wt_waking s then send_wake s else run_writer cfg (faults fuel) s) with
      | Some s' => writer_drain cfg faults fuel s'
      | None => s
      end
  end.

Definition pc_cost (pc : WriterPc) : nat :=
  match pc with
  | WpIdle => 0
  | WpLoop => 1
  | WpHealth _ => 2
  | WpCount _ _ => 3
  | WpApply batch _ _ _ => 4 + length batch
  end.

Definition writer_cost (s : Writer) : nat :=
  3 * wt_waking s + 2 * b2n (wt_wake s) + 6 * size (wt_mutations s) + 6 * b2n (wt_mark_incomplete s) + pc_cost (wt_pc s).

Lemma take_batch_size cfg (m : gmap string CatalogMutation) :
  size (foldl (λ m k, delete k m) m (batch_keys cfg m)) + length (omap (λ k, m !! k) (batch_keys cfg m)) = size m.
Proof.
  assert (NoDup (batch_keys cfg m)) as Hnd.
  { unfold batch_keys. eapply sublist_NoDup; [|apply sublist_take]. rewrite sort_by_perm. apply NoDup_fst_map_to_list. }
  assert (∀ k, k ∈ batch_keys cfg m → is_Some (m !! k)) as Hk by apply elem_of_batch_keys_all.
  revert Hnd Hk. generalize (batch_keys cfg m). intros keys. revert m. induction keys as [|k keys IH]; intros m Hnd Hk; simpl; [lia|].
  apply NoDup_cons in Hnd as [Hnk Hnd]. destruct (Hk k) as [x Hx]; [set_solver|]. rewrite Hx.
  rewrite <- (list_omap_ext (λ i, delete k m !! i) (λ k, m !! k) keys keys).
  - simpl. rewrite Nat.add_succ_r, IH; [|done|].
    + rewrite map_size_delete, Hx. simpl. assert (size m ≠ 0); [|lia]. intros ?%map_size_empty_iff. by simplify_map_eq.
    + intros i Hi. rewrite lookup_delete_ne; [apply Hk; set_solver|]. by intros ->.
  - apply Forall_Forall2_diag, Forall_forall. intros i Hi. rewrite lookup_delete_ne; [done|]. by intros ->.
Qed.

Lemma cost_decreases cfg fault s s' :
  1 ≤ wc_batch_size cfg → wt_waking s = 0 → run_writer cfg fault s = Some s' → writer_cost s' < writer_cost s.
Proof.
  intros Hb Hwk. unfold run_writer, writer_cost. destruct (wt_pc s) as [| |batch needs failed weight|failed weight|failed] eqn:Hpc.
  - destruct (wt_wake s) eqn:Hw; intros [= <-]. simpl. lia.
  - intros [= <-]. unfold take_batch. set (batch := omap _ _).
    pose proof (take_batch_size cfg (wt_mutations s)) as Hs. fold batch in Hs.
    destruct (bool_decide_reflect (batch = [])) as [Hn|Hn]; [destruct (wt_mark_incomplete s) eqn:Hm|]; simpl; [|rewrite Hm; simpl; lia|].
    + rewrite Hn in *. simpl in *. lia.
    + destruct batch; [done|]. simpl in *. lia.
  - intros [= <-]. unfold apply_next. rewrite Hpc.
    destruct batch as [|m batch]; [destruct needs, fault|destruct fault; [|destruct (catalog_apply _ _) as [? []]]]; simpl; lia.
  - intros [= <-]. simpl. lia.
  - intros [= <-]. simpl. lia.
Qed.

Lemma drain_quiet cfg c faults fuel s :
  1 ≤ wc_batch_size cfg → writer_reachable cfg c s → writer_cost s < fuel →
  let s' := writer_drain cfg faults fuel s in
  writer_reachable cfg c s' ∧ wt_pc s' = WpIdle ∧ pending_count s' = 0.
Proof.
  intros Hb. revert s. induction fuel as [|fuel IH]; intros s Hr Hc; [lia|]. simpl.
  destruct (Nat.ltb_spec 0 (wt_waking s)) as [Hw|Hw].
  - unfold send_wake. destruct (wt_waking s) as [|n] eqn:Hn; [lia|]. apply IH.
    + apply (wr_step _ _ s WaWake); [done|]. simpl. unfold send_wake. by rewrite Hn.
    + unfold writer_cost in *. rewrite Hn in Hc. simpl in *. lia.
  - destruct (run_writer cfg (faults fuel) s) as [s'|] eqn:Hrun.
    + apply IH; [by apply (wr_step _ _ s (WaRun (faults fuel)))|]. apply cost_decreases in Hrun; [lia|done|lia].
    + pose proof (writer_reachable_inv cfg Hb c s Hr) as Hinv. unfold run_writer in Hrun. destruct (wt_pc s) eqn:Hpc; try done.
      destruct (wt_wake s) eqn:Hwk; [done|]. split_and!; [done..|]. unfold pending_count. rewrite (wi_flight s Hinv), Hpc. simpl.
      assert (¬ (wt_mutations s ≠ ∅ ∨ wt_mark_incomplete s = true)) as Hno.
      { intros [?|[?|?]]%(wi_wake s Hinv); [done|congruence|lia]. }
      assert (wt_mutations s = ∅) as -> by (destruct (decide (wt_mutations s = ∅)); tauto).
      rewrite map_size_empty. destruct (wt_mark_incomplete s); [tauto|done].
Qed.

(** ** Theorems *)

(** C28: The writer becomes quiet.  Whatever has happened, and whichever of its statements
    fail from now on, once nothing more is enqueued the task takes everything that is
    pending and goes to sleep after a bounded number of steps: no wake-up is lost, so that
    [wait_until_quiet] ends. *)
Theorem writer_becomes_quiet (workspace_id instance : string) (max_pending batch_size max_preview_bytes : nat) (c : Catalog)
    (faults : nat → bool) (s : Writer)
    (Hr : writer_reachable (writer_start workspace_id instance max_pending batch_size max_preview_bytes) c s) :
  let cfg := writer_start workspace_id instance max_pending batch_size max_preview_bytes in
  let s' := writer_drain cfg faults (S (writer_cost s)) s in
  wt_pc s' = WpIdle ∧ pending_count s' = 0.
Proof. eapply drain_quiet in Hr; [|simpl; lia|apply Nat.lt_succ_diag_r]. apply Hr. Qed.

(** C27: No mutation is lost without a trace.  When the writer reports nothing pending, every
    mutation that was accepted has been replaced by a newer one of its session, applied,
    refused or has failed; after a mutation that was dropped or refused the workspace has
    been marked incomplete, or the writer is unhealthy, and after one that failed it is
    unhealthy (or is about to say so), so that listings do not rely on the catalog. *)
Theorem writer_loses_nothing_silently (workspace_id instance : string) (max_pending batch_size max_preview_bytes : nat)
    (c : Catalog) (s : Writer)
    (Hr : writer_reachable (writer_start workspace_id instance max_pending batch_size max_preview_bytes) c s)
    (Hquiet : pending_count s = 0) :
  let unhealthy := wt_healthy s = false ∨ wt_pc s = WpHealth true in
  NoDup (queued (wt_log s)) ∧
  (∀ m, OQueued m ∈ wt_log s → settled m (wt_log s)) ∧
  (∀ pre o post, wt_log s = pre ++ o :: post → is_loss o = true → OMarked ∈ post ∨ unhealthy) ∧
  (∀ o, o ∈ wt_log s → is_failure o = true → unhealthy).
Proof.
  intros unhealthy. apply writer_reachable_inv in Hr as [H1 H2 H3 H4 H5 H6 _ H8 _]; [|simpl; lia].
  unfold pending_count in Hquiet. assert (size (wt_mutations s) = 0) as Hm%map_size_empty_iff by lia.
  assert (wt_mark_incomplete s = false) as Hmark by (destruct (wt_mark_incomplete s); simpl in Hquiet; [lia|done]).
  assert (∀ o, o ∈ wt_log s → is_failure o = true → unhealthy) as Hf.
  { intros o Ho Hfo. destruct (H4 o Ho Hfo) as [?|Hpc]; [by left|]. right. destruct (wt_pc s); simpl in *; try done; [lia..|by subst]. }
  split_and!; [|intros m Hin|intros pre o post Heq Hl|done].
  - apply (NoDup_fmap_1 cm_generation). by apply sorted_NoDup.
  - destruct (H2 m Hin) as [?|[Hx|Hx]]; [done|by rewrite Hm in Hx|]. destruct (wt_pc s); simpl in *; try (by apply elem_of_nil in Hx). lia.
  - destruct (H3 pre o post Heq Hl) as [?|[Hx|[?|Hx]]]; [by left| |congruence|destruct (wt_pc s); simpl in *; try done; lia].
    right. apply (Hf OMarkFailed); [|done]. rewrite Heq, elem_of_app, elem_of_cons. auto.
Qed.

(** Two pending mutations at most: the third session is dropped, and a newer save of the first replaces it. *)
Definition demo_cfg : WriterConfig := writer_start "w" "i1" 2 8 64.

Definition demo_write (id : string) (time : Z) : PersistedWrite :=
  mkPersistedWrite (mkSummary id "m" 2 (Some "/w") (Some "hi")) time.

Definition demo_acts : list WriterAct :=
  [WaSaved 1 (demo_write "a" 10); WaWake; WaSaved 2 (demo_write "b" 20); WaWake; WaSaved 3 (demo_write "c" 30); WaWake;
   WaSaved 4 (demo_write "a" 40); WaWake].

Fixpoint writer_acts (cfg : WriterConfig) (acts : list WriterAct) (s : Writer) : option Writer :=
  match acts with
  | [] => Some s
  | a :: acts => writer_act cfg a s ≫= writer_acts cfg acts
  end.

Lemma writer_acts_reachable cfg c acts s s' :
  writer_reachable cfg c s → writer_acts cfg acts s = Some s' → writer_reachable cfg c s'.
Proof.
  revert s. induction acts as [|a acts IH]; intros s Hr; simpl; [by intros [= <-]|].
  intros (s1&Ha&Hs)%bind_Some. eapply IH; [|exact Hs]. by eapply wr_step.
Qed.

Definition demo_busy : Writer := default (writer_new catalog_new) (writer_acts demo_cfg demo_acts (writer_new catalog_new)).

Lemma demo_busy_reachable : writer_reachable demo_cfg catalog_new demo_busy.
Proof. apply (writer_acts_reachable _ _ demo_acts (writer_new catalog_new)); [constructor|]. vm_compute. reflexivity. Qed.

Lemma writer_becomes_quiet_witness :
  pending_count demo_busy = 3 ∧
  wt_pc (writer_drain demo_cfg (λ _, false) (S (writer_cost demo_busy)) demo_busy) = WpIdle ∧
  pending_count (writer_drain demo_cfg (λ _, false) (S (writer_cost demo_busy)) demo_busy) = 0.
Proof.
  split; [vm_compute; reflexivity|]. apply (writer_becomes_quiet "w" "i1" 2 8 64 catalog_new (λ _, false) demo_busy).
  apply demo_busy_reachable.
Defined.

Definition demo_done : Writer := writer_drain demo_cfg (λ _, false) (S (writer_cost demo_busy)) demo_busy.

Lemma demo_done_reachable : writer_reachable demo_cfg catalog_new demo_done.
Proof.
  apply (drain_quiet demo_cfg catalog_new (λ _, false)); [simpl; lia|apply demo_busy_reachable|apply Nat.lt_succ_diag_r].
Qed.

Lemma writer_loses_nothing_silently_witness :
  (wt_healthy demo_done = true ∧ workspace_state "w" (wt_catalog demo_done) = (false, None)) ∧
  (∀ m, OQueued m ∈ wt_log demo_done → settled m (wt_log demo_done)).
Proof.
  split; [vm_compute; done|]. apply (writer_loses_nothing_silently "w" "i1" 2 8 64 catalog_new demo_done demo_done_reachable).
  vm_compute. reflexivity.
Defined.

(** ** A mark that the reconciler overwrites *)

(** The last pass over the catalog: the sessions [a] and [b] are in it and stored. *)
Definition demo_last_pass : Catalog :=
  set_workspace_state "w" false (Some "ghost:")
    (apply_all (imap (observation_of "w" 1) [(mkSummary "a" "m" 2 (Some "/w") None, Some 10%Z); (mkSummary "b" "m" 2 (Some "/w") None, Some 15%Z)])
       catalog_new).

(** Meanwhile the three sessions are saved, [c] for the first time, and its mutation is dropped. *)
Definition demo_meanwhile : Writer :=
  let s := default (writer_new demo_last_pass) (writer_acts demo_cfg demo_acts (writer_new demo_last_pass)) in
  writer_drain demo_cfg (λ _, false) (S (writer_cost s)) s.

(** The writer drops the mutation of the new session [c] and marks the workspace
    incomplete.  The reconciler, which has read its cursor and its page before, then stores
    its own result over the mark: the workspace is complete, [c] is stored and has no row,
    and a listing shows the catalog, says that nothing is missing, and leaves [c] out until
    the next full rescan. *)
Theorem reconciler_overwrites_a_mark :
  let ids := ids_after "w" None 4 demo_last_pass in
  let c := ghost_pass "w" 4 100 60000 ids [] (wt_catalog demo_meanwhile) in
  (OMarked ∈ wt_log demo_meanwhile ∧ wt_healthy demo_meanwhile = true ∧
   workspace_state "w" (wt_catalog demo_meanwhile) = (false, None)) ∧
  workspace_state "w" c = (true, None) ∧
  ct_rows c !! "c" = None ∧
  (durable_listing_rows (Some (mkDiscovery true (Some (true, catalog_rows "w" 10 c)) 1000 100 false)) 101 None).2 =
    (map catalog_row_to_list_entry (catalog_rows "w" 10 c), false) ∧
  map cr_session_id (catalog_rows "w" 10 c) = ["a"; "b"].
Proof.
  intros ids c. split_and!; try (vm_compute; reflexivity). apply list_elem_of_In. vm_compute. auto 20.
Qed.
