(* ===== verification/Coordination.v ===== *)
(** * Coordination of agents

    The store through which the agents of a workspace register, write to each other and
    announce which files they work on ([coordination/store.rs], [CoordinationStore];
    [coordination/names.rs]).

    A table is a map by its primary key; [INTEGER PRIMARY KEY] gives a new row the number
    after the largest.  A transaction is one function.  Times are the strings the host
    supplies and compares as bytes.  Glob patterns are matched by a library: [glob] is
    whether a pattern matches a text, if it compiles. *)

From stdpp Require Import base numbers list strings gmap sorting.
From S2P Require Import Prelude RustStr.

(** ** Data *)

Inductive Importance := Low | Normal | High | Urgent.

#[export] Instance Importance_eq_dec : EqDecision Importance.
Proof. solve_decision. Defined.

Definition importance_parse (s : string) : Importance :=
  let s := to_ascii_lowercase (trim s) in
  if bool_decide (s = "low") then Low
  else if bool_decide (s = "high") then High
  else if bool_decide (s = "urgent") then Urgent
  else Normal.

Definition importance_as_str (i : Importance) : string :=
  match i with Low => "low" | Normal => "normal" | High => "high" | Urgent => "urgent" end.

Definition importance_rank (i : Importance) : Z :=
  match i with Low => 0 | Normal => 1 | High => 2 | Urgent => 3 end.

(** The [CASE] of [importance_rank_sql]. *)
Definition importance_rank_sql (col : string) : Z :=
  if bool_decide (col = "low") then 0
  else if bool_decide (col = "normal") then 1
  else if bool_decide (col = "high") then 2
  else if bool_decide (col = "urgent") then 3
  else 1.

Record SendReceipt := mkReceipt {
  sr_message_id : Z;
  sr_thread_id : Z;
  sr_recipients : list string;
}.

Record MessageRecord := mkMessage {
  mg_id : Z;
  mg_thread_id : Z;
  mg_reply_to : option Z;
  mg_sender : string;
  mg_subject : string;
  mg_body : string;
  mg_importance : string;
  mg_ack_required : bool;
  mg_created_ts : string;
}.

(** A row of [recipient], without its key. *)
Record Recipient := mkRecipient {
  rp_kind : string;
  rp_read_ts : option string;
  rp_ack_ts : option string;
}.

Record InboxEntry := mkInboxEntry {
  ib_message : MessageRecord;
  ib_kind : string;
  ib_read_ts : option string;
  ib_ack_ts : option string;
}.

Record InboxFilter := mkInboxFilter {
  if_unread_only : bool;
  if_min_importance : option Importance;
  if_since : option string;
}.

Record UnreadSummary := mkUnread {
  us_count : nat;
  us_highest_importance : string;
  us_newest_message_id : Z;
}.

Record ReservationRecord := mkReservation {
  rv_id : Z;
  rv_agent_name : string;
  rv_pattern : string;
  rv_exclusive : bool;
  rv_reason : option string;
  rv_created_ts : string;
  rv_expires_ts : string;
  rv_released_ts : option string;
}.

Record ReservationConflict := mkConflict {
  cf_pattern : string;
  cf_held_by : string;
  cf_conflicting_pattern : string;
  cf_reservation_id : Z;
}.

Record AgentRecord := mkAgent {
  ag_name : string;
  ag_session_id : option string;
  ag_program : option string;
  ag_model : option string;
  ag_task : option string;
  ag_inception_ts : string;
  ag_last_seen_ts : string;
}.

Record CoordinationStore := mkCoord {
  co_agents : gmap string AgentRecord;
  co_messages : gmap Z MessageRecord;
  co_recipients : gmap (Z * string) Recipient;
  co_reservations : gmap Z ReservationRecord;
}.

Definition coord_new : CoordinationStore := mkCoord ∅ ∅ ∅ ∅.

(** ** Statements *)

(** [last_insert_rowid]: one more than the largest, from one on. *)
Definition next_rowid {A} (table : gmap Z A) : Z := 1 + foldr Z.max 0%Z (map fst (map_to_list table)).

(** [LIMIT], which the callers keep at least one. *)
Definition limit_of (limit : Z) : nat := Z.to_nat (Z.max limit 1).

Definition or_else {A} (a b : option A) : option A := match a with Some _ => a | None => b end.

Definition set_agents (a : gmap string AgentRecord) (s : CoordinationStore) : CoordinationStore :=
  mkCoord a (co_messages s) (co_recipients s) (co_reservations s).
Definition set_recipients (r : gmap (Z * string) Recipient) (s : CoordinationStore) : CoordinationStore :=
  mkCoord (co_agents s) (co_messages s) r (co_reservations s).
Definition set_reservations (r : gmap Z ReservationRecord) (s : CoordinationStore) : CoordinationStore :=
  mkCoord (co_agents s) (co_messages s) (co_recipients s) r.

(** *** Agents *)

(** [UPDATE agent SET session_id = NULL WHERE session_id = ?1 AND name <> ?2]. *)
Definition unbind_session (session_id : option string) (name : string) (s : CoordinationStore) : CoordinationStore :=
  match session_id with
  | None => s
  | Some session_id =>
      set_agents (map_imap (λ n a,
        Some (if bool_decide (ag_session_id a = Some session_id ∧ n ≠ name)
              then mkAgent (ag_name a) None (ag_program a) (ag_model a) (ag_task a) (ag_inception_ts a) (ag_last_seen_ts a)
              else a)) (co_agents s)) s
  end.

(** The upsert, with [COALESCE]. *)
Definition upsert_agent (name : string) (session_id program model task : option string) (now : string) (s : CoordinationStore)
    : CoordinationStore :=
  let a := match co_agents s !! name with
           | None => mkAgent name session_id program model task now now
           | Some a => mkAgent (ag_name a) (or_else session_id (ag_session_id a)) (or_else program (ag_program a))
                         (or_else model (ag_model a)) (or_else task (ag_task a)) (ag_inception_ts a) now
           end in
  set_agents (<[name := a]> (co_agents s)) s.

Definition agent (s : CoordinationStore) (name : string) : option AgentRecord := co_agents s !! name.

(** Two statements, run one after the other. *)
Definition register_agent (name : string) (session_id program model task : option string) (now : string) (s : CoordinationStore)
    : CoordinationStore * option AgentRecord :=
  let s := upsert_agent name session_id program model task now (unbind_session session_id name s) in
  (s, agent s name).

(** Most recently seen first, then by name. *)
Definition agent_leb (a b : AgentRecord) : bool :=
  if str_ltb (ag_last_seen_ts b) (ag_last_seen_ts a) then true
  else bool_decide (ag_last_seen_ts a = ag_last_seen_ts b) && str_leb (ag_name a) (ag_name b).

(** Between agents seen at the same time, for which the query leaves the order open, by name. *)
Definition agent_name_for_session (s : CoordinationStore) (session_id : string) : option string :=
  ag_name <$> head (sort_by agent_leb
    (List.filter (λ a, bool_decide (ag_session_id a = Some session_id)) (map snd (map_to_list (co_agents s))))).

Definition list_agents (s : CoordinationStore) (limit : Z) : list AgentRecord :=
  take (limit_of limit) (sort_by agent_leb (map snd (map_to_list (co_agents s)))).

(** *** Mail *)

(** The names of one list that are not the sender and not there yet. *)
Definition add_recipients (sender kind : string) (names : list string) (acc : list (string * string)) : list (string * string) :=
  foldl (λ acc name,
    if bool_decide (name ≠ sender ∧ name ∉ map fst acc) then acc ++ [(name, kind)] else acc) acc names.

Definition recipients_of (sender : string) (to cc : list string) : list (string * string) :=
  add_recipients sender "cc" cc (add_recipients sender "to" to []).

Definition message (s : CoordinationStore) (message_id : Z) : option MessageRecord := co_messages s !! message_id.

Definition thread_id_of (s : CoordinationStore) (message_id : Z) : option Z := mg_thread_id <$> co_messages s !! message_id.

Definition send_message (sender : string) (to cc : list string) (subject body : string) (importance : Importance)
    (ack_required : bool) (reply_to : option Z) (now : string) (s : CoordinationStore)
    : CoordinationStore * result SendReceipt string :=
  let recipients := recipients_of sender to cc in
  if bool_decide (recipients = [])
  then (s, Err "send_message requires at least one recipient (no broadcast)")
  else
    let inherited := (λ pid, default pid (thread_id_of s pid)) <$> reply_to in
    let message_id := next_rowid (co_messages s) in
    let thread_id := default message_id inherited in
    let m := mkMessage message_id thread_id reply_to sender subject body (importance_as_str importance) ack_required now in
    let rows := foldl (λ rows (p : string * string), <[(message_id, p.1) := mkRecipient p.2 None None]> rows)
                  (co_recipients s) recipients in
    (mkCoord (co_agents s) (<[message_id := m]> (co_messages s)) rows (co_reservations s),
     Ok (mkReceipt message_id thread_id (map fst recipients))).

(** [recipient JOIN message] of one agent. *)
Definition inbox_rows (s : CoordinationStore) (agent : string) : list InboxEntry :=
  omap (λ p : Z * string * Recipient,
    if bool_decide (p.1.2 = agent)
    then (λ m, mkInboxEntry m (rp_kind p.2) (rp_read_ts p.2) (rp_ack_ts p.2)) <$> co_messages s !! p.1.1
    else None) (map_to_list (co_recipients s)).

Definition inbox_matches (f : InboxFilter) (e : InboxEntry) : bool :=
  (if if_unread_only f then match ib_read_ts e with None => true | Some _ => false end else true) &&
  (match if_since f with Some since => str_ltb since (mg_created_ts (ib_message e)) | None => true end) &&
  (match if_min_importance f with
   | Some min => (importance_rank min <=? importance_rank_sql (mg_importance (ib_message e)))%Z
   | None => true
   end).

(** [ORDER BY created_ts DESC, id DESC]. *)
Definition newer_leb (a b : MessageRecord) : bool :=
  if str_ltb (mg_created_ts b) (mg_created_ts a) then true
  else bool_decide (mg_created_ts a = mg_created_ts b) && (mg_id b <=? mg_id a)%Z.

Definition fetch_inbox (s : CoordinationStore) (agent : string) (f : InboxFilter) (limit : Z) : list InboxEntry :=
  take (limit_of limit)
    (sort_by (λ a b, newer_leb (ib_message a) (ib_message b)) (List.filter (inbox_matches f) (inbox_rows s agent))).

Definition max_of (l : list Z) : Z := foldr Z.max 0%Z l.

Definition unread_after (s : CoordinationStore) (agent : string) (after_message_id : Z) : list InboxEntry :=
  List.filter (λ e, match ib_read_ts e with None => true | Some _ => false end && (after_message_id <? mg_id (ib_message e))%Z)
    (inbox_rows s agent).

Definition rank_name (rank : Z) : string :=
  if (rank =? 3)%Z then "urgent" else if (rank =? 2)%Z then "high" else if (rank =? 1)%Z then "normal"
  else if (rank =? 0)%Z then "low" else "normal".

Definition unread_summary (s : CoordinationStore) (agent : string) (after_message_id : Z) : option UnreadSummary :=
  let rows := unread_after s agent after_message_id in
  if 0 <? length rows
  then Some (mkUnread (length rows) (rank_name (max_of (map (λ e, importance_rank_sql (mg_importance (ib_message e))) rows)))
               (max_of (map (λ e, mg_id (ib_message e)) rows)))
  else None.

Definition mark_read (agent : string) (message_id : Z) (now : string) (s : CoordinationStore)
    : CoordinationStore * option string :=
  let s := set_recipients (alter (λ r, mkRecipient (rp_kind r) (or_else (rp_read_ts r) (Some now)) (rp_ack_ts r))
             (message_id, agent) (co_recipients s)) s in
  (s, co_recipients s !! (message_id, agent) ≫= rp_read_ts).

Definition acknowledge (agent : string) (message_id : Z) (now : string) (s : CoordinationStore)
    : CoordinationStore * option (option string * option string) :=
  let s := set_recipients (alter (λ r, mkRecipient (rp_kind r) (or_else (rp_read_ts r) (Some now)) (or_else (rp_ack_ts r) (Some now)))
             (message_id, agent) (co_recipients s)) s in
  (s, (λ r, (rp_read_ts r, rp_ack_ts r)) <$> co_recipients s !! (message_id, agent)).

(** [ORDER BY created_ts ASC, id ASC]. *)
Definition older_leb (a b : MessageRecord) : bool :=
  if str_ltb (mg_created_ts a) (mg_created_ts b) then true
  else bool_decide (mg_created_ts a = mg_created_ts b) && (mg_id a <=? mg_id b)%Z.

Definition thread (s : CoordinationStore) (thread_id cap : Z) : list MessageRecord :=
  take (limit_of cap) (sort_by older_leb
    (List.filter (λ m, (mg_thread_id m =? thread_id)%Z) (map snd (map_to_list (co_messages s))))).

(** *** Reservations *)

Definition is_active (now : string) (r : ReservationRecord) : bool :=
  match rv_released_ts r with None => str_ltb now (rv_expires_ts r) | Some _ => false end.

(** [ORDER BY id DESC]. *)
Definition reservation_leb (a b : ReservationRecord) : bool := (rv_id b <=? rv_id a)%Z.

Definition foreign_active (s : CoordinationStore) (agent now : string) : list ReservationRecord :=
  sort_by reservation_leb
    (List.filter (λ r, negb (bool_decide (rv_agent_name r = agent)) && is_active now r) (map snd (map_to_list (co_reservations s)))).

Definition active_reservations_excluding (s : CoordinationStore) (agent now : string) (scan_cap : Z)
    : list ReservationRecord * bool :=
  let scan_cap := limit_of scan_cap in
  let out := take (S scan_cap) (foreign_active s agent now) in
  if scan_cap <? length out then (take scan_cap out, true) else (out, false).

Section overlap.
Context (glob : string → string → option bool).

Definition patterns_overlap (a b : string) : bool :=
  if bool_decide (a = b) then true else default false (glob a b) || default false (glob b a).

Definition conflicts_with (patterns : list string) (existing : list ReservationRecord) : list ReservationConflict :=
  flat_map (λ pat, omap (λ other,
    if rv_exclusive other && patterns_overlap pat (rv_pattern other)
    then Some (mkConflict pat (rv_agent_name other) (rv_pattern other) (rv_id other)) else None) existing) patterns.

Definition check_conflicts (s : CoordinationStore) (agent : string) (patterns : list string) (now : string) (scan_cap : Z)
    : list ReservationConflict * bool :=
  let '(existing, truncated) := active_reservations_excluding s agent now scan_cap in
  (conflicts_with patterns existing, truncated).

(** The transaction that inserts the reservations. *)
Definition insert_reservations (agent : string) (patterns : list string) (exclusive : bool) (reason : option string)
    (created_ts expires_ts : string) (s : CoordinationStore) : CoordinationStore * list ReservationRecord :=
  foldl (λ '(s, granted) pat,
    let r := mkReservation (next_rowid (co_reservations s)) agent pat exclusive reason created_ts expires_ts None in
    (set_reservations (<[rv_id r := r]> (co_reservations s)) s, granted ++ [r])) (s, []) patterns.

(** The read of the active reservations is not part of the transaction. *)
Definition reserve_paths (agent : string) (patterns : list string) (exclusive : bool) (reason : option string)
    (created_ts expires_ts : string) (scan_cap : Z) (s : CoordinationStore)
    : CoordinationStore * (list ReservationRecord * list ReservationConflict * bool) :=
  let '(conflicts, truncated) := check_conflicts s agent patterns created_ts scan_cap in
  let '(s, granted) := insert_reservations agent patterns exclusive reason created_ts expires_ts s in
  (s, (granted, conflicts, truncated)).

End overlap.

(** [ORDER BY created_ts DESC, id DESC]. *)
Definition recent_leb (a b : ReservationRecord) : bool :=
  if str_ltb (rv_created_ts b) (rv_created_ts a) then true
  else bool_decide (rv_created_ts a = rv_created_ts b) && (rv_id b <=? rv_id a)%Z.

Definition own_active (agent now : string) (r : ReservationRecord) : bool :=
  bool_decide (rv_agent_name r = agent) && is_active now r.

Definition list_reservations (s : CoordinationStore) (agent now : string) (limit : Z) : list ReservationRecord :=
  take (limit_of limit) (sort_by recent_leb (List.filter (own_active agent now) (map snd (map_to_list (co_reservations s))))).

(** [UPDATE reservation SET ... WHERE], with the number of rows. *)
Definition update_reservations (p : ReservationRecord → bool) (f : ReservationRecord → ReservationRecord) (s : CoordinationStore)
    : CoordinationStore * nat :=
  (set_reservations ((λ r, if p r then f r else r) <$> co_reservations s) s,
   length (List.filter p (map snd (map_to_list (co_reservations s))))).

Definition renew_reservations (agent now new_expires_ts : string) (s : CoordinationStore) : CoordinationStore * nat :=
  update_reservations (own_active agent now)
    (λ r, mkReservation (rv_id r) (rv_agent_name r) (rv_pattern r) (rv_exclusive r) (rv_reason r) (rv_created_ts r)
            new_expires_ts (rv_released_ts r)) s.

Definition set_released (now : string) (r : ReservationRecord) : ReservationRecord :=
  mkReservation (rv_id r) (rv_agent_name r) (rv_pattern r) (rv_exclusive r) (rv_reason r) (rv_created_ts r) (rv_expires_ts r) (Some now).

Definition own_unreleased (agent : string) (r : ReservationRecord) : bool :=
  bool_decide (rv_agent_name r = agent) && bool_decide (rv_released_ts r = None).

Definition release_reservations (agent : string) (patterns : list string) (now : string) (s : CoordinationStore)
    : CoordinationStore * nat :=
  match patterns with
  | [] => update_reservations (own_unreleased agent) (set_released now) s
  | _ =>
      foldl (λ '(s, released) pat,
        let '(s, n) := update_reservations (λ r, own_unreleased agent r && bool_decide (rv_pattern r = pat)) (set_released now) s in
        (s, released + n)) (s, 0) patterns
  end.

Definition prune_expired_reservations (cutoff : string) (s : CoordinationStore) : CoordinationStore * nat :=
  let gone := List.filter (λ r, str_leb (rv_expires_ts r) cutoff) (map snd (map_to_list (co_reservations s))) in
  (set_reservations (filter (λ p, str_leb (rv_expires_ts p.2) cutoff = false) (co_reservations s)) s, length gone).

(** ** Operations in any order *)

Inductive CoordOp :=
  | OpRegister (name : string) (session_id program model task : option string) (now : string)
  | OpSend (sender : string) (to cc : list string) (subject body : string) (importance : Importance) (ack_required : bool)
      (reply_to : option Z) (now : string)
  | OpMarkRead (agent : string) (message_id : Z) (now : string)
  | OpAcknowledge (agent : string) (message_id : Z) (now : string)
  | OpReserve (agent : string) (patterns : list string) (exclusive : bool) (reason : option string) (created_ts expires_ts : string)
  | OpRenew (agent now new_expires_ts : string)
  | OpRelease (agent : string) (patterns : list string) (now : string)
  | OpPrune (cutoff : string).

Definition coord_op (op : CoordOp) (s : CoordinationStore) : CoordinationStore :=
  match op with
  | OpRegister name session_id program model task now => (register_agent name session_id program model task now s).1
  | OpSend sender to cc subject body importance ack reply_to now => (send_message sender to cc subject body importance ack reply_to now s).1
  | OpMarkRead agent id now => (mark_read agent id now s).1
  | OpAcknowledge agent id now => (acknowledge agent id now s).1
  | OpReserve agent patterns exclusive reason created expires => (insert_reservations agent patterns exclusive reason created expires s).1
  | OpRenew agent now expires => (renew_reservations agent now expires s).1
  | OpRelease agent patterns now => (release_reservations agent patterns now s).1
  | OpPrune cutoff => (prune_expired_reservations cutoff s).1
  end.

Definition coord_ops (ops : list CoordOp) (s : CoordinationStore) : CoordinationStore := foldl (λ s op, coord_op op s) s ops.

(** ** Lemmas *)

Lemma max_of_ge l x : x ∈ l → (x ≤ max_of l)%Z.
Proof. induction l as [|y l IH]; simpl; [set_solver|]. intros [->|Hx%IH]%elem_of_cons; lia. Qed.

Lemma max_of_elem l : l ≠ [] → Forall (λ x, 0 ≤ x)%Z l → max_of l ∈ l.
Proof.
  induction l as [|x l IH]; [done|]. intros _ [Hx Hl]%Forall_cons. simpl. destruct l as [|y l].
  - simpl. rewrite Z.max_l by lia. set_solver.
  - specialize (IH ltac:(done) Hl). destruct (Z.max_spec x (max_of (y :: l))) as [[_ ->]|[_ ->]]; set_solver.
Qed.

Lemma next_rowid_above {A} (table : gmap Z A) k : is_Some (table !! k) → (k < next_rowid table)%Z.
Proof.
  intros [x Hx]. unfold next_rowid. enough (k ≤ max_of (map fst (map_to_list table)))%Z by (unfold max_of in *; lia).
  apply max_of_ge. apply (list_elem_of_fmap_2 fst _ (k, x)). by apply elem_of_map_to_list.
Qed.

Lemma next_rowid_fresh {A} (table : gmap Z A) : table !! next_rowid table = None.
Proof.
  destruct (table !! next_rowid table) as [x|] eqn:Hx; [|done]. pose proof (next_rowid_above table (next_rowid table) ltac:(by eexists)). lia.
Qed.

Lemma next_rowid_pos {A} (table : gmap Z A) : (1 ≤ next_rowid table)%Z.
Proof.
  unfold next_rowid. assert (0 ≤ foldr Z.max 0 (map fst (map_to_list table)))%Z; [|lia].
  generalize (map fst (map_to_list table)). induction l; simpl; lia.
Qed.

Lemma next_rowid_least {A} (table : gmap Z A) n : (1 ≤ n)%Z → (∀ k, is_Some (table !! k) → (k < n)%Z) → (next_rowid table ≤ n)%Z.
Proof.
  intros Hn Hk. unfold next_rowid. enough (∀ l, (∀ k, k ∈ l → (k < n)%Z) → (max_of l < n)%Z) as H.
  { assert (max_of (map fst (map_to_list table)) < n)%Z; [|unfold max_of in *; lia]. apply H.
    intros k ([k' x]&->&Hx%elem_of_map_to_list)%list_elem_of_fmap. apply Hk. by eexists. }
  induction l as [|x l IH]; intros Hl; simpl; [lia|]. specialize (IH ltac:(set_solver)). specialize (Hl x ltac:(set_solver)). lia.
Qed.

(** *** Recipients *)

Lemma add_recipients_spec sender kind names acc :
  NoDup (map fst acc) → sender ∉ map fst acc →
  NoDup (map fst (add_recipients sender kind names acc)) ∧ (sender ∉ map fst (add_recipients sender kind names acc)) ∧
  ∀ n, n ∈ map fst (add_recipients sender kind names acc) ↔ n ∈ map fst acc ∨ (n ∈ names ∧ n ≠ sender).
Proof.
  revert acc. induction names as [|x names IH]; intros acc Hnd Hs; simpl; [set_solver|]. case_bool_decide as Hx.
  - destruct (IH (acc ++ [(x, kind)])) as (H1&H2&H3).
    + rewrite map_app. apply NoDup_app. simpl. split_and!; [done|set_solver|apply NoDup_singleton].
    + rewrite map_app. simpl. set_solver.
    + split_and!; [done..|]. intros n. rewrite H3, map_app. simpl. set_solver.
  - destruct (IH acc Hnd Hs) as (H1&H2&H3). split_and!; [done..|]. intros n. rewrite H3.
    destruct (decide (x = sender)), (decide (x ∈ map fst acc)); set_solver.
Qed.

Lemma recipients_of_spec sender to cc :
  NoDup (map fst (recipients_of sender to cc)) ∧
  ∀ n, n ∈ map fst (recipients_of sender to cc) ↔ (n ∈ to ∨ n ∈ cc) ∧ n ≠ sender.
Proof.
  unfold recipients_of. destruct (add_recipients_spec sender "to" to []) as (H1&H2&H3); [constructor|set_solver|].
  destruct (add_recipients_spec sender "cc" cc (add_recipients sender "to" to [])) as (H4&_&H6); [done..|].
  split; [done|]. intros n. rewrite H6, H3. set_solver.
Qed.

Lemma lfind_Some {A} (p : A → bool) l x : lfind p l = Some x → x ∈ l ∧ p x = true.
Proof.
  induction l as [|y l IH]; simpl; [done|]. destruct (p y) eqn:Hy; [intros [= <-]; set_solver|]. intros [? ?]%IH. set_solver.
Qed.

Lemma lfind_None {A} (p : A → bool) l : lfind p l = None → ∀ x, x ∈ l → p x = false.
Proof.
  induction l as [|y l IH]; simpl; [set_solver|]. destruct (p y) eqn:Hy; [done|]. intros H x [->|Hx]%elem_of_cons; auto.
Qed.

Lemma add_recipients_kind sender kind names acc p :
  p ∈ add_recipients sender kind names acc → p ∈ acc ∨ (p.2 = kind ∧ p.1 ∉ map fst acc).
Proof.
  revert acc. induction names as [|x names IH]; intros acc; simpl; [by left|]. case_bool_decide as Hx; intros Hp%IH; [|done].
  rewrite map_app in Hp. simpl in Hp. destruct Hp as [[?| ->%list_elem_of_singleton]%elem_of_app|[? Hn]]; [by left| |].
  - right. split; [done|]. simpl. tauto.
  - right. split; [done|]. set_solver.
Qed.

Lemma recipients_lookup sender to cc a :
  lfind (λ p, bool_decide (p.1 = a)) (recipients_of sender to cc) =
    if decide ((a ∈ to ∨ a ∈ cc) ∧ a ≠ sender) then Some (a, if decide (a ∈ to) then "to" else "cc") else None.
Proof.
  pose proof (recipients_of_spec sender to cc) as [_ Hrs]. destruct (lfind _ _) as [[n k]|] eqn:Hf.
  - apply lfind_Some in Hf as [Hin Hn%bool_decide_eq_true]. simpl in Hn. subst n.
    assert ((a ∈ to ∨ a ∈ cc) ∧ a ≠ sender) as Ha by (apply Hrs; by apply (list_elem_of_fmap_2 fst _ (a, k))).
    rewrite decide_True by done. do 2 f_equal.
    destruct (add_recipients_spec sender "to" to []) as (_&_&Hto); [constructor|set_solver|].
    unfold recipients_of in Hin. apply add_recipients_kind in Hin as [Hin|[Hk Hn]]; simpl in *.
    + apply add_recipients_kind in Hin as Hk. destruct Hk as [?|[? _]]; [set_solver|]. simpl in *.
      rewrite decide_True; [done|]. apply (list_elem_of_fmap_2 fst) in Hin. apply Hto in Hin. set_solver.
    + rewrite decide_False; [done|]. intros Hat. apply Hn, Hto. right. split; [done|apply Ha].
  - rewrite decide_False; [done|]. intros (p&->&Hp)%Hrs%list_elem_of_fmap. apply (lfind_None _ _ Hf) in Hp.
    by rewrite bool_decide_eq_false in Hp.
Qed.

(** The rows of one message. *)
Lemma insert_recipients_lookup (id i : Z) (a : string) (l : list (string * string)) (rows : gmap (Z * string) Recipient) :
  NoDup (map fst l) →
  foldl (λ rows (p : string * string), <[(id, p.1) := mkRecipient p.2 None None]> rows) rows l !! (i, a) =
    match (if bool_decide (i = id) then lfind (λ p, bool_decide (p.1 = a)) l else None) with
    | Some p => Some (mkRecipient p.2 None None)
    | None => rows !! (i, a)
    end.
Proof.
  revert rows. induction l as [|[n k] l IH]; intros rows; simpl; [intros _; by case_bool_decide|]. intros [Hn Hnd]%NoDup_cons.
  rewrite IH by done. case_bool_decide as Hi; [subst i|rewrite lookup_insert_ne; [done|congruence]].
  destruct (bool_decide_reflect (n = a)) as [->|Hna].
  - destruct (lfind _ l) as [p|] eqn:Hf; [|by rewrite lookup_insert_eq].
    apply lfind_Some in Hf as [Hp Ha%bool_decide_eq_true]. destruct Hn. rewrite <- Ha. by apply list_elem_of_fmap_2.
  - destruct (lfind _ l) as [p|]; [done|]. rewrite lookup_insert_ne; [done|congruence].
Qed.

(** ** The invariant of the store *)

Record coord_ok (s : CoordinationStore) : Prop := mkCoordOk {
  ok_agent_name : ∀ n a, co_agents s !! n = Some a → ag_name a = n;
  ok_session : ∀ n n' a a' sid, co_agents s !! n = Some a → co_agents s !! n' = Some a' →
    ag_session_id a = Some sid → ag_session_id a' = Some sid → n = n';
  ok_id : ∀ id m, co_messages s !! id = Some m → mg_id m = id ∧ (1 ≤ id)%Z;
  ok_recipient : ∀ id m, co_messages s !! id = Some m → ∃ a, is_Some (co_recipients s !! (id, a));
  ok_message : ∀ id a r, co_recipients s !! (id, a) = Some r → ∃ m, co_messages s !! id = Some m ∧ mg_sender m ≠ a;
  ok_ack : ∀ k r, co_recipients s !! k = Some r → is_Some (rp_ack_ts r) → is_Some (rp_read_ts r);
  ok_thread : ∀ id m, co_messages s !! id = Some m →
    match mg_reply_to m with
    | None => mg_thread_id m = id
    | Some p => ∀ pm, co_messages s !! p = Some pm → (p < id)%Z → mg_thread_id m = mg_thread_id pm
    end;
  ok_importance : ∀ id m, co_messages s !! id = Some m → ∃ i, mg_importance m = importance_as_str i;
  ok_reservation : ∀ id r, co_reservations s !! id = Some r → rv_id r = id;
}.

Lemma coord_ok_new : coord_ok coord_new.
Proof. by split. Qed.

(** An operation that leaves agents and mail alone. *)
Lemma coord_ok_reservations s r :
  coord_ok s → (∀ id x, r !! id = Some x → rv_id x = id) → coord_ok (set_reservations r s).
Proof. intros [H1 H2 H3 H4 H5 H6 H7 H8 H9] Hr. by split. Qed.

Lemma unbind_session_lookup sid name s n :
  co_agents (unbind_session sid name s) !! n =
    (λ a, match sid with
          | Some sid => if bool_decide (ag_session_id a = Some sid ∧ n ≠ name)
                        then mkAgent (ag_name a) None (ag_program a) (ag_model a) (ag_task a) (ag_inception_ts a) (ag_last_seen_ts a)
                        else a
          | None => a
          end) <$> co_agents s !! n.
Proof.
  unfold unbind_session. destruct sid as [sid|]; [|by destruct (co_agents s !! n)]. simpl. rewrite map_lookup_imap.
  by destruct (co_agents s !! n).
Qed.

(** The binding of an agent after a registration. *)
Lemma register_lookup name sid program model task now s n a :
  co_agents (register_agent name sid program model task now s).1 !! n = Some a →
  (n = name ∧ ag_last_seen_ts a = now ∧ (co_agents s !! n = None ∨ is_Some (co_agents s !! n)) ∧
   ag_session_id a = or_else sid (co_agents s !! n ≫= ag_session_id) ∧
   ag_name a = default name (ag_name <$> co_agents s !! n)) ∨
  (n ≠ name ∧ ∃ a0, co_agents s !! n = Some a0 ∧ ag_name a = ag_name a0 ∧
     (ag_session_id a = None ∨ (ag_session_id a = ag_session_id a0 ∧ (is_Some sid → ag_session_id a ≠ sid)))).
Proof.
  unfold register_agent, upsert_agent. simpl. rewrite unbind_session_lookup.
  intros [[<- <-]|[Hne Ha]]%lookup_insert_Some.
  - left. destruct (co_agents s !! name) as [a0|] eqn:H0; simpl.
    + destruct sid as [sid|]; [rewrite bool_decide_false by tauto|]; simpl; split_and!; eauto.
    + split_and!; eauto. by destruct sid.
  - right. split; [done|]. rewrite unbind_session_lookup in Ha. apply fmap_Some in Ha as (a0&H0&->). exists a0. split; [done|].
    destruct sid as [sid|]; [|split; [done|right; split; [done|by intros []]]].
    case_bool_decide as Hb; simpl; [auto|]. split; [done|]. right. split; [done|]. intros _ Heq. apply Hb. split; [done|done].
Qed.

Lemma register_binding name sid program model task now s n' a a' x :
  coord_ok s → co_agents (register_agent name sid program model task now s).1 !! name = Some a →
  co_agents (register_agent name sid program model task now s).1 !! n' = Some a' →
  ag_session_id a = Some x → ag_session_id a' = Some x → n' = name.
Proof.
  intros Hok Ha Ha' Hx Hx'. destruct (decide (n' = name)) as [|Hne]; [done|]. apply register_lookup in Ha, Ha'.
  destruct Ha as [(_&_&_&Hs&_)|[? _]]; [|done]. destruct Ha' as [[? _]|(_&a0&H0&_&[?|[Hs' Hd]])]; [done|congruence|].
  destruct sid as [sid|]; simpl in Hs; [rewrite Hx in Hs; injection Hs as <-; by destruct Hd|].
  destruct (co_agents s !! name) as [b|] eqn:Hb; simpl in Hs; [|congruence].
  apply (ok_session s Hok n' name a0 b x); congruence.
Qed.

Lemma coord_ok_register name sid program model task now s :
  coord_ok s → coord_ok (register_agent name sid program model task now s).1.
Proof.
  intros Hok. pose proof Hok as [H1 H2 H3 H4 H5 H6 H7 H8 H9]. split; [| |by destruct sid..].
  - intros n a [(->&_&_&_&->)|(_&a0&H0&->&_)]%register_lookup; [|by apply H1]. destruct (co_agents s !! name) eqn:E; simpl; [by apply H1|done].
  - intros n n' a a' x Ha Ha' Hx Hx'. destruct (decide (n = name)) as [->|Hn].
    { symmetry. by eapply register_binding. }
    destruct (decide (n' = name)) as [->|Hn']; [by eapply register_binding|]. apply register_lookup in Ha, Ha'.
    destruct Ha as [[? _]|(_&b&Hb&_&[?|[Hs _]])]; [done|congruence|].
    destruct Ha' as [[? _]|(_&b'&Hb'&_&[?|[Hs' _]])]; [done|congruence|]. apply (H2 n n' b b' x); congruence.
Qed.

(** *** Sending *)

Lemma send_message_ok sender to cc subject body importance ack reply_to now s s' receipt :
  send_message sender to cc subject body importance ack reply_to now s = (s', Ok receipt) →
  let id := next_rowid (co_messages s) in
  ∃ m, mg_id m = id ∧ mg_sender m = sender ∧ mg_reply_to m = reply_to ∧ mg_subject m = subject ∧ mg_body m = body ∧
    mg_importance m = importance_as_str importance ∧ mg_created_ts m = now ∧ mg_ack_required m = ack ∧
    mg_thread_id m = match reply_to with Some p => default p (thread_id_of s p) | None => id end ∧
    receipt = mkReceipt id (mg_thread_id m) (map fst (recipients_of sender to cc)) ∧ recipients_of sender to cc ≠ [] ∧
    co_agents s' = co_agents s ∧ co_reservations s' = co_reservations s ∧ co_messages s' = <[id := m]> (co_messages s) ∧
    ∀ i a, co_recipients s' !! (i, a) =
      match (if bool_decide (i = id) then lfind (λ p, bool_decide (p.1 = a)) (recipients_of sender to cc) else None) with
      | Some p => Some (mkRecipient p.2 None None)
      | None => co_recipients s !! (i, a)
      end.
Proof.
  unfold send_message. case_bool_decide as Hr; [done|]. intros [= <- <-]. cbv zeta. eexists. split_and!; [..|done| |];
    cbn [mg_id mg_sender mg_reply_to mg_subject mg_body mg_importance mg_created_ts mg_ack_required mg_thread_id]; try done;
    try (by destruct reply_to).
  intros i a. simpl. apply insert_recipients_lookup. apply recipients_of_spec.
Qed.

Lemma send_message_err sender to cc subject body importance ack reply_to now s s' e :
  send_message sender to cc subject body importance ack reply_to now s = (s', Err e) → s' = s ∧ recipients_of sender to cc = [].
Proof. unfold send_message. case_bool_decide; [by intros [= <- _]|done]. Qed.

Lemma coord_ok_send sender to cc subject body importance ack reply_to now s :
  coord_ok s → coord_ok (send_message sender to cc subject body importance ack reply_to now s).1.
Proof.
  intros Hok. destruct (send_message sender to cc subject body importance ack reply_to now s) as [s' [receipt|e]] eqn:Hs;
    [|by apply send_message_err in Hs as [-> _]].
  pose proof Hok as [H1 H2 H3 H4 H5 H6 H7 H8 H9].
  apply send_message_ok in Hs as (m&Hid&Hsender&Hreply&_&_&Himp&_&_&Hthread&_&Hne&Ha&Hv&Hm&Hr). set (id := next_rowid (co_messages s)) in *.
  pose proof (recipients_of_spec sender to cc) as [_ Hrs]. simpl.
  assert (∀ i, is_Some (co_messages s !! i) → (i < id)%Z) as Habove by (intros i; apply next_rowid_above).
  split; rewrite ?Ha, ?Hv, ?Hm; [done|done| | | | | | |done].
  - intros i x [[<- <-]|[_ Hx]]%lookup_insert_Some; [split; [done|apply next_rowid_pos]|by apply H3].
  - intros i x [[<- <-]|[Hi Hx]]%lookup_insert_Some.
    + destruct (recipients_of sender to cc) as [|[n k] l] eqn:Hl; [done|]. exists n. rewrite Hr, bool_decide_true by done. simpl.
      rewrite bool_decide_true by done. by eexists.
    + destruct (H4 i x Hx) as [a Hxa]. exists a. by rewrite Hr, bool_decide_false by done.
  - intros i a r. rewrite Hr. case_bool_decide as Hi; [subst i; destruct (lfind _ _) as [[n k]|] eqn:Hf|].
    + intros _. exists m. rewrite lookup_insert_eq. split; [done|]. apply lfind_Some in Hf as [Hf Hn%bool_decide_eq_true]. simpl in Hn.
      subst n. apply (list_elem_of_fmap_2 fst) in Hf. rewrite Hrs in Hf. simpl in Hf. destruct Hf as [_ ?]. congruence.
    + intros (x&Hx&_)%H5. specialize (Habove id ltac:(by eexists)). lia.
    + intros (x&Hx&?)%H5. exists x. by rewrite lookup_insert_ne.
  - intros [i a] r. rewrite Hr. destruct (if bool_decide (i = id) then _ else _) as [p|]; [intros [= <-]; by intros []|apply H6].
  - intros i x [[<- <-]|[Hi Hx]]%lookup_insert_Some.
    + rewrite Hreply, Hthread. destruct reply_to as [p|]; [|done]. intros pm Hpm Hlt. rewrite lookup_insert_ne in Hpm by lia.
      unfold thread_id_of. by rewrite Hpm.
    + specialize (H7 i x Hx). destruct (mg_reply_to x) as [p|]; [|done]. intros pm Hpm Hlt. rewrite lookup_insert_ne in Hpm; [by apply H7|].
      specialize (Habove i ltac:(by eexists)). lia.
  - intros i x [[<- <-]|[_ Hx]]%lookup_insert_Some; [by exists importance|by apply (H8 i)].
Qed.

(** *** The other operations *)

Lemma coord_ok_alter (f : Recipient → Recipient) k s :
  coord_ok s → (∀ r, is_Some (rp_read_ts (f r))) → coord_ok (set_recipients (alter f k (co_recipients s)) s).
Proof.
  intros [H1 H2 H3 H4 H5 H6 H7 H8 H9] Hf. split; simpl; [done..| | | |done|done|done].
  - intros id m Hm. destruct (H4 id m Hm) as [a Ha]. exists a. destruct (decide (k = (id, a))) as [->|Hne].
    + rewrite lookup_alter_eq. destruct Ha as [r ->]. by eexists.
    + by rewrite lookup_alter_ne.
  - intros id a r Hr. destruct (decide (k = (id, a))) as [->|Hne].
    + rewrite lookup_alter_eq in Hr. apply fmap_Some in Hr as (r0&Hr0&_). by apply (H5 id a r0).
    + rewrite lookup_alter_ne in Hr by done. by apply (H5 id a r).
  - intros k' r Hr Hack. destruct (decide (k = k')) as [->|Hne].
    + rewrite lookup_alter_eq in Hr. apply fmap_Some in Hr as (r0&_&->). apply Hf.
    + rewrite lookup_alter_ne in Hr by done. by apply (H6 k').
Qed.

Lemma or_else_some {A} (a : option A) x : is_Some (or_else a (Some x)).
Proof. destruct a; by eexists. Qed.

Lemma insert_reservations_snoc agent l pat exclusive reason created expires s :
  let p := insert_reservations agent l exclusive reason created expires s in
  let r := mkReservation (next_rowid (co_reservations p.1)) agent pat exclusive reason created expires None in
  insert_reservations agent (l ++ [pat]) exclusive reason created expires s =
    (set_reservations (<[rv_id r := r]> (co_reservations p.1)) p.1, p.2 ++ [r]).
Proof. unfold insert_reservations. rewrite foldl_snoc. by destruct (foldl _ _ l). Qed.

Lemma coord_ok_insert_reservations agent l exclusive reason created expires s :
  coord_ok s → coord_ok (insert_reservations agent l exclusive reason created expires s).1.
Proof.
  intros Hok. induction l as [|pat l IH] using rev_ind; [done|]. rewrite insert_reservations_snoc. simpl.
  apply coord_ok_reservations; [done|]. intros id r [[<- <-]|[_ Hr]]%lookup_insert_Some; [done|]. by apply (ok_reservation _ IH).
Qed.

Lemma coord_ok_update p f s :
  coord_ok s → (∀ r, rv_id (f r) = rv_id r) → coord_ok (update_reservations p f s).1.
Proof.
  intros Hok Hf. apply coord_ok_reservations; [done|]. intros id r Hr. rewrite lookup_fmap in Hr.
  apply fmap_Some in Hr as (r0&Hr0&->). apply (ok_reservation _ Hok) in Hr0. destruct (p r0); [by rewrite Hf|done].
Qed.

Lemma release_ind (P : CoordinationStore → Prop) agent patterns now s :
  P s → (∀ s p, P s → P (update_reservations (λ r, own_unreleased agent r && p r) (set_released now) s).1) →
  P (release_reservations agent patterns now s).1.
Proof.
  intros Hs Hstep. unfold release_reservations. destruct patterns as [|pat l].
  - specialize (Hstep s (λ _, true) Hs). unfold update_reservations in *. simpl in *.
    eassert ((λ r, if own_unreleased agent r then set_released now r else r) <$> co_reservations s = _) as ->; [|exact Hstep].
    apply map_fmap_ext. intros i r _. by rewrite andb_true_r.
  - assert (∀ l n s, P s → P (foldl (λ '(s, released) pat,
        let '(s, n) := update_reservations (λ r, own_unreleased agent r && bool_decide (rv_pattern r = pat)) (set_released now) s in
        (s, released + n)) (s, n) l).1) as Hall; [|by apply Hall].
    intros l'. induction l' as [|x l' IH]; intros n s' Hs'; [done|]. simpl.
    apply IH. by apply (Hstep s' (λ r, bool_decide (rv_pattern r = x))).
Qed.

Lemma coord_ok_op op s : coord_ok s → coord_ok (coord_op op s).
Proof.
  intros Hok. destruct op; simpl.
  - by apply coord_ok_register.
  - by apply coord_ok_send.
  - apply coord_ok_alter; [done|]. intros r. apply or_else_some.
  - apply coord_ok_alter; [done|]. intros r. apply or_else_some.
  - by apply coord_ok_insert_reservations.
  - by apply coord_ok_update.
  - apply release_ind; [done|]. intros. by apply coord_ok_update.
  - apply coord_ok_reservations; [done|]. intros id r [Hr _]%map_lookup_filter_Some. by apply (ok_reservation _ Hok).
Qed.

Lemma coord_ok_ops ops s : coord_ok s → coord_ok (coord_ops ops s).
Proof. revert s. induction ops as [|op ops IH]; intros s Hok; [done|]. apply IH. by apply coord_ok_op. Qed.

(** *** Mail only grows *)

(** A delivery keeps its kind, and its times once they are set. *)
Definition row_grows (r r' : Recipient) : Prop :=
  rp_kind r' = rp_kind r ∧ (∀ t, rp_read_ts r = Some t → rp_read_ts r' = Some t) ∧ (∀ t, rp_ack_ts r = Some t → rp_ack_ts r' = Some t).

Definition mail_grows (s s' : CoordinationStore) : Prop :=
  (∀ id m, co_messages s !! id = Some m → co_messages s' !! id = Some m) ∧
  (∀ k r, co_recipients s !! k = Some r → ∃ r', co_recipients s' !! k = Some r' ∧ row_grows r r').

Lemma mail_grows_same s s' : co_messages s' = co_messages s → co_recipients s' = co_recipients s → mail_grows s s'.
Proof. intros Hm Hr. split; rewrite ?Hm, ?Hr; [done|]. intros k r Hk. by exists r. Qed.

Lemma mail_grows_trans s1 s2 s3 : mail_grows s1 s2 → mail_grows s2 s3 → mail_grows s1 s3.
Proof.
  intros [Hm1 Hr1] [Hm2 Hr2]. split; [auto|]. intros k r Hk. destruct (Hr1 k r Hk) as (r'&Hk'&K1&T1&A1).
  destruct (Hr2 k r' Hk') as (r''&Hk''&K2&T2&A2). exists r''. split; [done|]. split_and!; [congruence|auto..].
Qed.

Lemma mail_grows_alter f k s : (∀ r, row_grows r (f r)) → mail_grows s (set_recipients (alter f k (co_recipients s)) s).
Proof.
  intros Hf. split; [done|]. intros k' r Hk. simpl. destruct (decide (k = k')) as [->|Hne].
  - exists (f r). rewrite lookup_alter_eq, Hk. split; [done|apply Hf].
  - exists r. by rewrite lookup_alter_ne.
Qed.

Lemma mail_grows_op op s : coord_ok s → mail_grows s (coord_op op s).
Proof.
  intros Hok. destruct op; simpl.
  - by apply mail_grows_same; destruct session_id.
  - destruct (send_message sender to cc subject body importance ack_required reply_to now s) as [s' [receipt|e]] eqn:Hs;
      [|apply send_message_err in Hs as [-> _]; by apply mail_grows_same].
    apply send_message_ok in Hs as (m&_&_&_&_&_&_&_&_&_&_&_&_&_&Hm&Hr). simpl. split.
    + intros id x Hx. rewrite Hm, lookup_insert_ne; [done|]. pose proof (next_rowid_above (co_messages s) id ltac:(by eexists)). lia.
    + intros [id a] r Hk. exists r. rewrite Hr, bool_decide_false; [done|]. intros ->.
      destruct (ok_message s Hok _ a r Hk) as (x&Hx&_). by rewrite next_rowid_fresh in Hx.
  - apply mail_grows_alter. intros r. split_and!; simpl; [done| |done]. by intros t ->.
  - apply mail_grows_alter. intros r. split_and!; simpl; [done|by intros t ->..].
  - induction patterns as [|pat l IH] using rev_ind; [by apply mail_grows_same|]. rewrite insert_reservations_snoc. simpl.
    eapply mail_grows_trans; [exact IH|by apply mail_grows_same].
  - by apply mail_grows_same.
  - apply release_ind; [by apply mail_grows_same|]. intros s' p H. eapply mail_grows_trans; [exact H|by apply mail_grows_same].
  - by apply mail_grows_same.
Qed.

Lemma mail_grows_ops ops s : coord_ok s → mail_grows s (coord_ops ops s).
Proof.
  revert s. induction ops as [|op ops IH]; intros s Hok; [by apply mail_grows_same|].
  eapply mail_grows_trans; [by apply mail_grows_op|]. apply IH. by apply coord_ok_op.
Qed.

(** *** Inboxes *)

Lemma elem_of_inbox s a e :
  e ∈ inbox_rows s a ↔ ∃ id r m, co_recipients s !! (id, a) = Some r ∧ co_messages s !! id = Some m ∧
    e = mkInboxEntry m (rp_kind r) (rp_read_ts r) (rp_ack_ts r).
Proof.
  unfold inbox_rows. rewrite list_elem_of_omap. split.
  - intros ([[id a'] r]&Hin%elem_of_map_to_list&He). simpl in He. case_bool_decide; [subst a'|done].
    apply fmap_Some in He as (m&Hm&->). by exists id, r, m.
  - intros (id&r&m&Hr&Hm&->). exists ((id, a), r). rewrite elem_of_map_to_list. split; [done|]. simpl.
    by rewrite bool_decide_true, Hm.
Qed.

(** *** Reservations *)

Lemma patterns_overlap_sym glob a b : patterns_overlap glob a b = patterns_overlap glob b a.
Proof.
  unfold patterns_overlap. destruct (decide (a = b)) as [->|Hne]; [done|]. rewrite !bool_decide_false by congruence. apply orb_comm.
Qed.

Lemma elem_of_foreign s agent now r :
  r ∈ foreign_active s agent now ↔ (∃ id, co_reservations s !! id = Some r) ∧ rv_agent_name r ≠ agent ∧ is_active now r = true.
Proof.
  unfold foreign_active. rewrite sort_by_perm, elem_of_Lfilter, andb_true_iff, negb_true_iff, bool_decide_eq_false. f_equiv.
  rewrite list_elem_of_fmap. split; [intros ([id x]&->&Hx%elem_of_map_to_list); eauto|].
  intros [id Hr]. exists (id, r). by rewrite elem_of_map_to_list.
Qed.

Lemma excluding_spec s agent now cap :
  active_reservations_excluding s agent now cap =
    (take (limit_of cap) (foreign_active s agent now), limit_of cap <? length (foreign_active s agent now)).
Proof.
  unfold active_reservations_excluding. rewrite length_take. destruct (Nat.ltb_spec (limit_of cap) (length (foreign_active s agent now))) as [H|H].
  - rewrite (proj2 (Nat.ltb_lt _ _)) by lia. by rewrite take_take, Nat.min_l by lia.
  - rewrite (proj2 (Nat.ltb_ge _ _)) by lia. by rewrite !take_ge by lia.
Qed.

Lemma elem_of_conflicts glob patterns existing c :
  c ∈ conflicts_with glob patterns existing ↔ ∃ pat r, pat ∈ patterns ∧ r ∈ existing ∧ rv_exclusive r = true ∧
    patterns_overlap glob pat (rv_pattern r) = true ∧ c = mkConflict pat (rv_agent_name r) (rv_pattern r) (rv_id r).
Proof.
  unfold conflicts_with. rewrite list_elem_of_In, in_flat_map. setoid_rewrite <- list_elem_of_In. setoid_rewrite list_elem_of_omap. split.
  - intros (pat&Hp&r&Hr&Hc). destruct (rv_exclusive r && _) eqn:E; [|done]. apply andb_true_iff in E as [? ?]. injection Hc as <-. by exists pat, r.
  - intros (pat&r&Hp&Hr&He&Ho&->). exists pat. split; [done|]. exists r. split; [done|]. by rewrite He, Ho.
Qed.

(** ** Theorems *)

(** the store stays well formed: whatever operations agents run one after another, a session is
    bound to at most one agent, every message has a recipient and none that is its
    sender, deliveries are of existing messages, an acknowledged delivery is read, and a
    reply is in the thread of the message it answers. *)
Theorem coordination_stays_well_formed (ops : list CoordOp) : coord_ok (coord_ops ops coord_new).
Proof. apply coord_ok_ops, coord_ok_new. Qed.

(** mail is kept: once sent, a message is never changed or removed, and the times at
    which a recipient read and acknowledged it are the first ones, whatever happens
    later. *)
Theorem mail_is_kept (before after : list CoordOp) :
  mail_grows (coord_ops before coord_new) (coord_ops (before ++ after) coord_new).
Proof.
  unfold coord_ops at 2. rewrite foldl_app. apply mail_grows_ops, coord_ok_ops, coord_ok_new.
Qed.

(** C33: sending delivers exactly: an accepted message goes, unread, into the inbox of
    everyone addressed except the sender, once, and into no other inbox; nothing else in
    any inbox changes.  It is refused, with no effect, exactly when that is nobody. *)
Theorem send_delivers_exactly (ops : list CoordOp) (sender : string) (to cc : list string) (subject body : string)
    (importance : Importance) (ack : bool) (reply_to : option Z) (now : string) :
  let s := coord_ops ops coord_new in
  let addressed a := (a ∈ to ∨ a ∈ cc) ∧ a ≠ sender in
  match send_message sender to cc subject body importance ack reply_to now s with
  | (s', Ok receipt) =>
      (∃ a, addressed a) ∧
      NoDup (sr_recipients receipt) ∧ (∀ a, a ∈ sr_recipients receipt ↔ addressed a) ∧
      ∃ m, mg_id m = sr_message_id receipt ∧ mg_thread_id m = sr_thread_id receipt ∧ mg_sender m = sender ∧ mg_subject m = subject ∧
        mg_body m = body ∧ co_messages s !! mg_id m = None ∧
        ∀ a e, e ∈ inbox_rows s' a ↔ e ∈ inbox_rows s a ∨
          (addressed a ∧ e = mkInboxEntry m (if decide (a ∈ to) then "to" else "cc") None None)
  | (s', Err _) => s' = s ∧ ∀ a, ¬ addressed a
  end.
Proof.
  intros s addressed. pose proof (recipients_of_spec sender to cc) as [Hnd Hrs].
  destruct (send_message sender to cc subject body importance ack reply_to now s) as [s' [receipt|err]] eqn:Hs; cycle 1.
  { apply send_message_err in Hs as [-> Hnil]. split; [done|]. intros a Ha. apply Hrs in Ha. rewrite Hnil in Ha. set_solver. }
  assert (coord_ok s) as Hok by apply coord_ok_ops, coord_ok_new.
  assert (∃ a, addressed a) as Hsome.
  { unfold send_message in Hs. case_bool_decide as Hne; [done|]. destruct (recipients_of sender to cc) as [|[a k] l]; [done|].
    exists a. apply Hrs. set_solver. }
  apply send_message_ok in Hs as (m&Hid&Hsender&_&Hsub&Hbody&_&_&_&Hthread&->&_&_&_&Hm&Hr). set (id := next_rowid (co_messages s)) in *.
  cbn [sr_recipients sr_message_id sr_thread_id]. split_and!; [done|done|done|].
  assert (co_messages s !! id = None) as Hfresh by apply next_rowid_fresh.
  exists m. rewrite Hid. split_and!; [done..|]. intros a e. rewrite !elem_of_inbox. split.
  - intros (i&r&x&Hi&Hx&->). rewrite Hr in Hi. rewrite Hm in Hx. case_bool_decide as Hii; [subst i|].
    + rewrite lookup_insert_eq in Hx. injection Hx as <-. rewrite recipients_lookup in Hi. case_decide as Ha.
      { injection Hi as <-. by right. }
      destruct (ok_message s Hok id a r Hi) as (x&Hx&_). congruence.
    + rewrite lookup_insert_ne in Hx by done. left. by exists i, r, x.
  - intros [(i&r&x&Hi&Hx&->)|[Ha ->]].
    + assert (i ≠ id) as Hne by congruence. exists i, r, x. by rewrite Hr, bool_decide_false, Hm, lookup_insert_ne.
    + exists id, (mkRecipient (if decide (a ∈ to) then "to" else "cc") None None), m.
      by rewrite Hr, bool_decide_true, recipients_lookup, decide_True, Hm, lookup_insert_eq.
Qed.

(** a conflict check is exact: it reports only active exclusive reservations of other
    agents whose pattern overlaps one of the given ones, and all of them unless it says
    that it was cut short, which it says exactly when other agents hold more active
    reservations than it may look at. *)
Theorem conflict_check_is_exact (glob : string → string → option bool) (s : CoordinationStore) (agent : string)
    (patterns : list string) (now : string) (scan_cap : Z) :
  let '(conflicts, truncated) := check_conflicts glob s agent patterns now scan_cap in
  let conflict c := ∃ pat id r, pat ∈ patterns ∧ co_reservations s !! id = Some r ∧ rv_agent_name r ≠ agent ∧
    is_active now r = true ∧ rv_exclusive r = true ∧ patterns_overlap glob pat (rv_pattern r) = true ∧
    c = mkConflict pat (rv_agent_name r) (rv_pattern r) (rv_id r) in
  (truncated = true ↔ limit_of scan_cap < length (foreign_active s agent now)) ∧
  (∀ c, c ∈ conflicts → conflict c) ∧ (truncated = false → ∀ c, conflict c → c ∈ conflicts).
Proof.
  unfold check_conflicts. rewrite excluding_spec. split_and!; [apply Nat.ltb_lt| |].
  - intros c (pat&r&Hp&(i&Hi&_)%elem_of_take&He&Ho&->)%elem_of_conflicts. apply list_elem_of_lookup_2, elem_of_foreign in Hi as ([id Hr]&Hn&Ha).
    by exists pat, id, r.
  - intros Hall%Nat.ltb_ge c (pat&id&r&Hp&Hr&Hn&Ha&He&Ho&->). apply elem_of_conflicts. exists pat, r. rewrite take_ge by done.
    split_and!; [done| |done..]. apply elem_of_foreign. eauto.
Qed.

(** The agent whose reservations an operation concerns. *)
Definition reserving_agent (op : CoordOp) : option string :=
  match op with OpReserve agent _ _ _ _ _ | OpRenew agent _ _ | OpRelease agent _ _ => Some agent | _ => None end.

Lemma update_foreign p f s id r :
  p r = false → co_reservations s !! id = Some r → co_reservations (update_reservations p f s).1 !! id = Some r.
Proof. intros Hp Hr. simpl. rewrite lookup_fmap, Hr. simpl. by rewrite Hp. Qed.

(** reservations belong to their agent: what an agent reserves, renews or releases
    leaves the reservations of every other agent as they are. *)
Theorem reservations_are_owned (op : CoordOp) (s : CoordinationStore) (id : Z) (r : ReservationRecord)
    (Hr : co_reservations s !! id = Some r) (Hop : is_Some (reserving_agent op)) (Hother : reserving_agent op ≠ Some (rv_agent_name r)) :
  co_reservations (coord_op op s) !! id = Some r.
Proof.
  destruct op; try (by destruct Hop); simpl in Hother |- *.
  - clear Hop Hother. induction patterns as [|pat l IH] using rev_ind; [done|]. rewrite insert_reservations_snoc. simpl.
    rewrite lookup_insert_ne; [done|]. pose proof (next_rowid_above _ id (mk_is_Some _ _ IH)). lia.
  - apply update_foreign; [|done]. unfold own_active. by rewrite bool_decide_false by congruence.
  - apply (release_ind (λ s, co_reservations s !! id = Some r)); [done|]. intros s' p Hs'. apply update_foreign; [|done].
    unfold own_unreleased. by rewrite bool_decide_false by congruence.
Qed.

(** ** Behaviour under interleaving *)

(** Two agents that reserve the same file at the same time: each looks for conflicts before
    either has inserted its reservation.  Both hold an active exclusive reservation of the
    file, neither was told of a conflict, and either would be now. *)
Theorem concurrent_reservations_miss_each_other (glob : string → string → option bool) :
  let found a := check_conflicts glob coord_new a ["src/main.rs"] "t1" 1000 in
  let reserve a s := (insert_reservations a ["src/main.rs"] true None "t1" "t9" s).1 in
  let s := reserve "BlueLake" (reserve "RedFox" coord_new) in
  found "RedFox" = ([], false) ∧ found "BlueLake" = ([], false) ∧
  length (list_reservations s "RedFox" "t2" 10) = 1 ∧ length (list_reservations s "BlueLake" "t2" 10) = 1 ∧
  check_conflicts glob s "RedFox" ["src/main.rs"] "t2" 1000 = ([mkConflict "src/main.rs" "BlueLake" "src/main.rs" 2], false) ∧
  check_conflicts glob s "BlueLake" ["src/main.rs"] "t2" 1000 = ([mkConflict "src/main.rs" "RedFox" "src/main.rs" 1], false).
Proof. vm_compute. by split_and!. Qed.

(** Two registrations for one session: the statements of the second come between the two of
    the first, and both names are bound to the session. *)
Theorem concurrent_registrations_share_a_session :
  let s := unbind_session (Some "s1") "RedFox" coord_new in
  let s := (register_agent "BlueLake" (Some "s1") None None None "t1" s).1 in
  let s := upsert_agent "RedFox" (Some "s1") None None None "t2" s in
  (ag_session_id <$> agent s "RedFox") = Some (Some "s1") ∧ (ag_session_id <$> agent s "BlueLake") = Some (Some "s1").
Proof. vm_compute. by split. Qed.
