(* ===== verification/Notices.v ===== *)
(** * Notices of unread mail

    How the agent and its user learn of mail ([agent.rs], [coordination_model_notice],
    [acknowledge_coordination_model_notice], [poll_coordination_ui_notice],
    [acknowledge_coordination_ui_notice]): each of the two channels has a watermark of its
    own in the tool session, and one reader.  A reader takes the name and the watermark
    from the session, asks the store for a summary of the unread mail above the watermark
    without holding the session, and (the channel of the model only) looks again whether
    name and watermark are still the same; the watermark moves up when the notice was
    consumed.  The steps of both readers are interleaved with everything that happens to the
    store and with the registrations that give the session a name.

    That notices are switched off, or that the store does not answer, ends a reader's
    round without a notice ([NsLost]). *)

From stdpp Require Import base numbers list strings gmap sorting.
From S2P Require Import Prelude RustStr Coordination.

(** ** Data *)

Inductive Channel := ChModel | ChUi.

#[export] Instance Channel_eq_dec : EqDecision Channel.
Proof. solve_decision. Defined.

(** The part of the tool session that notices use. *)
Record MailSession := mkMailSession {
  ms_agent : option string;
  ms_model_watermark : Z;
  ms_ui_watermark : Z;
}.

Definition watermark (ch : Channel) (s : MailSession) : Z :=
  match ch with ChModel => ms_model_watermark s | ChUi => ms_ui_watermark s end.

(** Where a reader is; the list is of the messages its summary counts. *)
Inductive NoticePc :=
  | NIdle
  | NSnapshot (agent : string) (w : Z)
  | NQueried (agent : string) (w : Z) (u : UnreadSummary) (ids : list Z)
  | NReady (agent : string) (ids : list Z) (newest : Z).

(** A channel: its reader, the messages of the notices that were consumed, and how far
    the watermark had been moved for other names than the present one. *)
Record ChannelState := mkChannel {
  cn_pc : NoticePc;
  cn_announced : list Z;
  cn_other : Z;
}.

Record NoticeBoard := mkBoard {
  nb_store : CoordinationStore;
  nb_session : MailSession;
  nb_model : ChannelState;
  nb_ui : ChannelState;
}.

Definition chan (ch : Channel) (b : NoticeBoard) : ChannelState :=
  match ch with ChModel => nb_model b | ChUi => nb_ui b end.

Definition set_chan (ch : Channel) (c : ChannelState) (b : NoticeBoard) : NoticeBoard :=
  match ch with
  | ChModel => mkBoard (nb_store b) (nb_session b) c (nb_ui b)
  | ChUi => mkBoard (nb_store b) (nb_session b) (nb_model b) c
  end.

Definition set_pc (ch : Channel) (pc : NoticePc) (b : NoticeBoard) : NoticeBoard :=
  set_chan ch (mkChannel pc (cn_announced (chan ch b)) (cn_other (chan ch b))) b.

(** ** Steps of a reader *)

Definition notice_snapshot (s : MailSession) (ch : Channel) : NoticePc :=
  match ms_agent s with Some a => NSnapshot a (watermark ch s) | None => NIdle end.

Definition notice_query (store : CoordinationStore) (agent : string) (w : Z) : NoticePc :=
  match unread_summary store agent w with
  | Some u => NQueried agent w u (map (λ e, mg_id (ib_message e)) (unread_after store agent w))
  | None => NIdle
  end.

(** The model's notice is given up when name or watermark changed; the user's is not. *)
Definition notice_candidate (s : MailSession) (ch : Channel) (agent : string) (w : Z) (u : UnreadSummary) (ids : list Z)
    : NoticePc :=
  match ch with
  | ChModel =>
      if bool_decide (ms_agent s = Some agent) && bool_decide (watermark ChModel s = w)
      then NReady agent ids (us_newest_message_id u) else NIdle
  | ChUi => NReady agent ids (us_newest_message_id u)
  end.

Definition double_quote : string := String (Ascii.ascii_of_nat 34) EmptyString.

(** The texts of the two notices. *)
Definition model_notice (u : UnreadSummary) (agent : string) : string :=
  "[DAIMONOS COORDINATION NOTICE]" +:+ newline +:+ "You have " +:+ u64_to_string (Z.of_nat (us_count u)) +:+
  " new unread agent-mail message(s) for " +:+ agent +:+ ". Highest importance: " +:+ us_highest_importance u +:+
  ". Call fetch_inbox(agent=" +:+ double_quote +:+ agent +:+ double_quote +:+
  ", unread_only=true) before continuing if the messages may affect your current work.".

Definition ui_notice (u : UnreadSummary) (agent : string) : string :=
  "Daimonos agent mail: " +:+ u64_to_string (Z.of_nat (us_count u)) +:+ " new unread message(s) for " +:+ agent +:+
  " (highest importance: " +:+ us_highest_importance u +:+
  "). The agent will be notified at its next safe action boundary.".

Definition acknowledge_notice (ch : Channel) (newest_message_id : Z) (s : MailSession) : MailSession :=
  match ch with
  | ChModel => mkMailSession (ms_agent s) (Z.max (ms_model_watermark s) newest_message_id) (ms_ui_watermark s)
  | ChUi => mkMailSession (ms_agent s) (ms_model_watermark s) (Z.max (ms_ui_watermark s) newest_message_id)
  end.

(** A registration names the session; the watermarks stay. *)
Definition bind_name (name : string) (s : MailSession) : MailSession :=
  mkMailSession (Some name) (ms_model_watermark s) (ms_ui_watermark s).

(** ** Runs *)

Inductive NoticeStep :=
  | NsOp (op : CoordOp)
  | NsBind (name : string)
  | NsSnapshot (ch : Channel)
  | NsQuery (ch : Channel)
  | NsCheck (ch : Channel)
  | NsConsumed (ch : Channel)
  | NsLost (ch : Channel).

Definition notice_step (b : NoticeBoard) (st : NoticeStep) : NoticeBoard :=
  match st with
  | NsOp op => mkBoard (coord_op op (nb_store b)) (nb_session b) (nb_model b) (nb_ui b)
  | NsBind name =>
      let renamed ch :=
        let c := chan ch b in
        if bool_decide (ms_agent (nb_session b) = Some name) then c
        else mkChannel (cn_pc c) (cn_announced c) (watermark ch (nb_session b)) in
      mkBoard (nb_store b) (bind_name name (nb_session b)) (renamed ChModel) (renamed ChUi)
  | NsSnapshot ch =>
      match cn_pc (chan ch b) with NIdle => set_pc ch (notice_snapshot (nb_session b) ch) b | _ => b end
  | NsQuery ch =>
      match cn_pc (chan ch b) with NSnapshot a w => set_pc ch (notice_query (nb_store b) a w) b | _ => b end
  | NsCheck ch =>
      match cn_pc (chan ch b) with
      | NQueried a w u ids => set_pc ch (notice_candidate (nb_session b) ch a w u ids) b
      | _ => b
      end
  | NsConsumed ch =>
      match cn_pc (chan ch b) with
      | NReady a ids newest =>
          let c := chan ch b in
          let other := if bool_decide (ms_agent (nb_session b) = Some a) then cn_other c else Z.max (cn_other c) newest in
          set_chan ch (mkChannel NIdle (cn_announced c ++ ids) other)
            (mkBoard (nb_store b) (acknowledge_notice ch newest (nb_session b)) (nb_model b) (nb_ui b))
      | _ => b
      end
  | NsLost ch => set_pc ch NIdle b
  end.

Definition notice_steps (b : NoticeBoard) (steps : list NoticeStep) : NoticeBoard := foldl notice_step b steps.

Definition channel_new : ChannelState := mkChannel NIdle [] 0.

(** A new tool session, with the name it is restored with, if any. *)
Definition board_new (agent : option string) : NoticeBoard :=
  mkBoard coord_new (mkMailSession agent 0 0) channel_new channel_new.

(** One undisturbed round of a reader. *)
Definition read_round (ch : Channel) : list NoticeStep := [NsLost ch; NsSnapshot ch; NsQuery ch; NsCheck ch].

(** ** Lemmas *)

(** A message the agent has not read. *)
Definition unread (s : CoordinationStore) (a : string) (id : Z) : Prop :=
  ∃ r, co_recipients s !! (id, a) = Some r ∧ rp_read_ts r = None ∧ is_Some (co_messages s !! id).

Lemma unread_alter f k s a id :
  (∀ r, is_Some (rp_read_ts (f r))) → unread (set_recipients (alter f k (co_recipients s)) s) a id → unread s a id.
Proof.
  intros Hf (r&Hr&Hn&Hm). simpl in *. destruct (decide (k = (id, a))) as [->|Hne].
  - rewrite lookup_alter_eq in Hr. apply fmap_Some in Hr as (r0&_&->). destruct (Hf r0) as [t Ht]. congruence.
  - rewrite lookup_alter_ne in Hr by done. by exists r.
Qed.

Lemma unread_op op s a id : unread (coord_op op s) a id → unread s a id ∨ id = next_rowid (co_messages s).
Proof.
  destruct op; simpl.
  - by destruct session_id; left.
  - destruct (send_message sender to cc subject body importance ack_required reply_to now s) as [s' [receipt|e]] eqn:Hs;
      [|apply send_message_err in Hs as [-> _]; by left].
    apply send_message_ok in Hs as (m&_&_&_&_&_&_&_&_&_&_&_&_&_&Hm&Hr). simpl. intros (r&Hk&Hn&Hmm).
    destruct (decide (id = next_rowid (co_messages s))) as [->|Hne]; [by right|]. left. rewrite Hr, bool_decide_false in Hk by done.
    rewrite Hm, lookup_insert_ne in Hmm by done. by exists r.
  - intros H%unread_alter; [by left|]. intros r. apply or_else_some.
  - intros H%unread_alter; [by left|]. intros r. apply or_else_some.
  - intros H. left. revert H. induction patterns as [|pat l IH] using rev_ind; [done|]. rewrite insert_reservations_snoc. exact IH.
  - by left.
  - intros H. left. revert H. apply (release_ind (λ s', unread s' a id → unread s a id)); [done|]. intros s' p. done.
  - by left.
Qed.

Lemma inbox_NoDup s a : coord_ok s → NoDup (map (λ e, mg_id (ib_message e)) (inbox_rows s a)).
Proof.
  intros Hok. unfold inbox_rows.
  assert (∀ l : list (Z * string * Recipient), NoDup (map fst l) →
    NoDup (map (λ e, mg_id (ib_message e)) (omap (λ p : Z * string * Recipient,
      if bool_decide (p.1.2 = a) then (λ m, mkInboxEntry m (rp_kind p.2) (rp_read_ts p.2) (rp_ack_ts p.2)) <$> co_messages s !! p.1.1
      else None) l))) as Hall; [|apply Hall, NoDup_fst_map_to_list].
  induction l as [|[[id b] r] l IH]; [constructor|]. intros [Hn Hnd]%NoDup_cons. csimpl. specialize (IH Hnd).
  case_bool_decide as Hb; [subst b|done]. destruct (co_messages s !! id) as [m|] eqn:Hm; csimpl; [|done]. constructor; [|done].
  intros (e&He&Hin)%list_elem_of_fmap. apply list_elem_of_omap in Hin as ([[id' b] r']&Hin&He'). simpl in He'.
  case_bool_decide as Hb; [subst b|done]. apply fmap_Some in He' as (m'&Hm'&->). simpl in He.
  destruct (ok_id s Hok id m Hm) as [Hid _], (ok_id s Hok id' m' Hm') as [Hid' _].
  apply Hn. assert (id' = id) as -> by congruence. by apply (list_elem_of_fmap_2 fst _ (id, a, r')).
Qed.

Lemma elem_of_unread_after s a w id :
  coord_ok s → id ∈ map (λ e, mg_id (ib_message e)) (unread_after s a w) ↔ unread s a id ∧ (w < id)%Z.
Proof.
  intros Hok. rewrite list_elem_of_fmap. split.
  - intros (e&->&[He Hp]%elem_of_Lfilter). apply elem_of_inbox in He as (id&r&m&Hr&Hm&->). simpl in *.
    destruct (ok_id s Hok id m Hm) as [Hid _]. rewrite Hid in *. apply andb_true_iff in Hp as [Hn Hw%Z.ltb_lt]. split; [|done]. exists r.
    split_and!; [done|by destruct (rp_read_ts r)|by eexists].
  - intros [(r&Hr&Hn&[m Hm]) Hw]. destruct (ok_id s Hok id m Hm) as [Hid _].
    exists (mkInboxEntry m (rp_kind r) (rp_read_ts r) (rp_ack_ts r)). split; [done|]. apply elem_of_Lfilter. split.
    + apply elem_of_inbox. by exists id, r, m.
    + simpl. rewrite Hn, Hid. by apply Z.ltb_lt.
Qed.

Lemma next_rowid_mono op s : coord_ok s → (next_rowid (co_messages s) ≤ next_rowid (co_messages (coord_op op s)))%Z.
Proof.
  intros Hok. apply next_rowid_least; [apply next_rowid_pos|]. intros k [m Hm]. apply next_rowid_above.
  apply (proj1 (mail_grows_op op s Hok)) in Hm. by eexists.
Qed.


(** What a summary that counts [ids] knows of the mail of [a] above [w]. *)
Definition counts (s : CoordinationStore) (a : string) (w : Z) (ids : list Z) (newest : Z) : Prop :=
  NoDup ids ∧ (∀ id, id ∈ ids → w < id ≤ newest)%Z ∧ (newest < next_rowid (co_messages s))%Z ∧
  ∀ id, unread s a id → (w < id ≤ newest)%Z → id ∈ ids.

Definition pc_ok (s : CoordinationStore) (w : Z) (pc : NoticePc) : Prop :=
  match pc with
  | NIdle => True
  | NSnapshot _ w' => w' = w
  | NQueried a w' u ids => w' = w ∧ counts s a w ids (us_newest_message_id u)
  | NReady a ids newest => counts s a w ids newest
  end.

(** The invariant of a channel with watermark [w], for a session named [agent]. *)
Record channel_ok (s : CoordinationStore) (agent : option string) (w : Z) (c : ChannelState) : Prop := mkChannelOk {
  co_bounds : (0 ≤ cn_other c ≤ w)%Z ∧ (w < next_rowid (co_messages s))%Z;
  co_below : ∀ id, id ∈ cn_announced c → (id ≤ w)%Z;
  co_once : NoDup (cn_announced c);
  co_all : ∀ a id, agent = Some a → unread s a id → (cn_other c < id ≤ w)%Z → id ∈ cn_announced c;
  co_pc : pc_ok s w (cn_pc c);
}.

Record board_ok (b : NoticeBoard) : Prop := mkBoardOk {
  bo_store : coord_ok (nb_store b);
  bo_channel : ∀ ch, channel_ok (nb_store b) (ms_agent (nb_session b)) (watermark ch (nb_session b)) (chan ch b);
}.

Lemma chan_set_pc ch ch' pc b :
  chan ch' (set_pc ch pc b) =
    if decide (ch' = ch) then mkChannel pc (cn_announced (chan ch b)) (cn_other (chan ch b)) else chan ch' b.
Proof. by destruct ch, ch'. Qed.

Lemma set_pc_same ch pc b : nb_store (set_pc ch pc b) = nb_store b ∧ nb_session (set_pc ch pc b) = nb_session b.
Proof. by destruct ch. Qed.

Lemma counts_op op s a w ids newest : coord_ok s → counts s a w ids newest → counts (coord_op op s) a w ids newest.
Proof.
  intros Hok (Hn&Hr&Hlt&Hall). pose proof (next_rowid_mono op s Hok). split_and!; [done|done|lia|].
  intros id [Hu| ->]%unread_op Hw; [by apply Hall|lia].
Qed.

Lemma channel_ok_op op s agent w c : coord_ok s → channel_ok s agent w c → channel_ok (coord_op op s) agent w c.
Proof.
  intros Hok [H1 H2 H3 H4 H5]. pose proof (next_rowid_mono op s Hok). split; [lia|done|done| |].
  - intros a id Ha [Hu| ->]%unread_op Hw; [by eapply H4|lia].
  - destruct (cn_pc c); simpl in *; [done|done| |by apply counts_op]. destruct H5 as [-> H5]. split; [done|by apply counts_op].
Qed.

Lemma channel_ok_pc s agent w c pc : channel_ok s agent w c → pc_ok s w pc → channel_ok s agent w (mkChannel pc (cn_announced c) (cn_other c)).
Proof. by intros [H1 H2 H3 H4 H5] Hpc; split. Qed.

Lemma board_ok_pc b ch pc : board_ok b → pc_ok (nb_store b) (watermark ch (nb_session b)) pc → board_ok (set_pc ch pc b).
Proof.
  intros [Hs Hc] Hpc. destruct (set_pc_same ch pc b) as [E1 E2]. split; rewrite E1, ?E2; [done|]. intros ch'.
  rewrite chan_set_pc. case_decide as Hch; [subst ch'|done]. by apply channel_ok_pc.
Qed.

Lemma unread_summary_counts s a w u :
  coord_ok s → (0 ≤ w)%Z → unread_summary s a w = Some u →
  counts s a w (map (λ e, mg_id (ib_message e)) (unread_after s a w)) (us_newest_message_id u).
Proof.
  intros Hok Hw. unfold unread_summary. destruct (Nat.ltb_spec 0 (length (unread_after s a w))) as [Hl|]; [|done].
  intros [= <-]. simpl. set (ids := map _ (unread_after s a w)).
  assert (∀ id, id ∈ ids ↔ unread s a id ∧ (w < id)%Z) as Hids by (intros id; by apply elem_of_unread_after).
  assert (max_of ids ∈ ids) as Hmax.
  { apply max_of_elem; [unfold ids; by destruct (unread_after s a w); simpl in Hl; [lia|]|].
    apply Forall_forall. intros id Hid%Hids. lia. }
  split_and!.
  - apply NoDup_map_filter. by apply inbox_NoDup.
  - intros id Hid. pose proof (max_of_ge _ id Hid). apply Hids in Hid. lia.
  - apply Hids in Hmax as [(r&_&_&Hm) _]. by apply next_rowid_above.
  - intros id Hu Hid. apply Hids. split; [done|lia].
Qed.

Lemma board_ok_bind b name : board_ok b → board_ok (notice_step b (NsBind name)).
Proof.
  intros [Hs Hc]. split; [done|]. intros ch. specialize (Hc ch). simpl.
  assert (channel_ok (nb_store b) (Some name) (watermark ch (nb_session b))
    (if bool_decide (ms_agent (nb_session b) = Some name) then chan ch b
     else mkChannel (cn_pc (chan ch b)) (cn_announced (chan ch b)) (watermark ch (nb_session b)))) as H.
  { case_bool_decide as Hn; [by rewrite <- Hn|]. destruct Hc as [H1 H2 H3 H4 H5]. split; simpl; [lia|done|done|lia|done]. }
  by destruct ch.
Qed.

Lemma channel_ok_consumed s agent w c a ids newest :
  channel_ok s agent w c → counts s a w ids newest →
  channel_ok s agent (Z.max w newest)
    (mkChannel NIdle (cn_announced c ++ ids) (if bool_decide (agent = Some a) then cn_other c else Z.max (cn_other c) newest)).
Proof.
  intros [H1 H2 H3 H4 H5] (Hn&Hr&Hlt&Hall). split; simpl; [case_bool_decide; lia| | | |done].
  - intros id [Hid%H2|Hid%Hr]%elem_of_app; lia.
  - apply NoDup_app. split_and!; [done| |done]. intros id Hid%H2 Hin%Hr. lia.
  - intros a' id Ha Hu Hid. apply elem_of_app. case_bool_decide as Hc.
    + assert (a' = a) as -> by congruence. destruct (Z.le_gt_cases id w); [left; by eapply H4; eauto; lia|right; apply Hall; [done|lia]].
    + left. eapply H4; [done|done|lia].
Qed.

Lemma board_ok_consumed b ch : board_ok b → board_ok (notice_step b (NsConsumed ch)).
Proof.
  intros [Hs Hc]. simpl. destruct (cn_pc (chan ch b)) as [| | |a ids newest] eqn:Hpc; try by split.
  pose proof (co_pc _ _ _ _ (Hc ch)) as Hcand. rewrite Hpc in Hcand. simpl in Hcand.
  pose proof (channel_ok_consumed _ _ _ _ _ _ _ (Hc ch) Hcand) as Hnew. pose proof (Hc ChModel) as Hm. pose proof (Hc ChUi) as Hu.
  split; [by destruct ch|]. intros ch'. by destruct ch, ch'.
Qed.

Lemma board_ok_step b st : board_ok b → board_ok (notice_step b st).
Proof.
  intros Hb. pose proof Hb as [Hs Hc]. destruct st as [op|name|ch|ch|ch|ch|ch].
  - split; simpl; [by apply coord_ok_op|]. intros ch. specialize (Hc ch). destruct ch; by apply channel_ok_op.
  - by apply board_ok_bind.
  - simpl. destruct (cn_pc (chan ch b)); [|done..]. apply board_ok_pc; [done|]. unfold notice_snapshot. by destruct (ms_agent (nb_session b)).
  - simpl. pose proof (co_pc _ _ _ _ (Hc ch)) as Hpc. pose proof (co_bounds _ _ _ _ (Hc ch)) as Hw.
    destruct (cn_pc (chan ch b)) as [|a w| |]; [done| |done..]. simpl in Hpc. subst w. apply board_ok_pc; [done|]. unfold notice_query.
    destruct (unread_summary _ _ _) as [u|] eqn:Hu; [|done]. split; [done|]. apply unread_summary_counts; [done|lia|done].
  - simpl. pose proof (co_pc _ _ _ _ (Hc ch)) as Hpc. destruct (cn_pc (chan ch b)) as [| |a w u ids|]; [done|done| |done].
    destruct Hpc as [-> Hpc]. apply board_ok_pc; [done|]. destruct ch; simpl; [by case_match|done].
  - by apply board_ok_consumed.
  - by apply board_ok_pc.
Qed.

Lemma board_ok_new agent : board_ok (board_new agent).
Proof.
  split; [apply coord_ok_new|]. intros ch.
  assert (channel_ok coord_new agent 0 channel_new) as H; [|by destruct ch].
  split; simpl; [by vm_compute|set_solver|constructor|lia|done].
Qed.

Lemma board_ok_steps b steps : board_ok b → board_ok (notice_steps b steps).
Proof. revert b. induction steps as [|st steps IH]; intros b Hb; [done|]. simpl. apply IH. by apply board_ok_step. Qed.

(** A session that keeps its name. *)
Definition keeps_name (name : string) (st : NoticeStep) : Prop :=
  match st with NsBind n => n = name | _ => True end.

Definition pc_name (pc : NoticePc) : option string :=
  match pc with NIdle => None | NSnapshot a _ | NQueried a _ _ _ | NReady a _ _ => Some a end.

Definition named (name : string) (b : NoticeBoard) : Prop :=
  ms_agent (nb_session b) = Some name ∧
  ∀ ch, cn_other (chan ch b) = 0%Z ∧ (pc_name (cn_pc (chan ch b)) = None ∨ pc_name (cn_pc (chan ch b)) = Some name).

Lemma named_pc name ch pc b : named name b → pc_name pc = None ∨ pc_name pc = Some name → named name (set_pc ch pc b).
Proof.
  intros [Ha Hc] Hpc. destruct (set_pc_same ch pc b) as [_ E]. split; [by rewrite E|]. intros ch'.
  rewrite chan_set_pc. case_decide as Hch; [subst ch'|apply Hc]. simpl. split; [apply Hc|done].
Qed.

Lemma named_step name b st : keeps_name name st → named name b → named name (notice_step b st).
Proof.
  intros Hk Hn. pose proof Hn as [Ha Hc]. destruct st as [op|n|ch|ch|ch|ch|ch]; simpl in *.
  - split; [done|]. intros ch. specialize (Hc ch). by destruct ch.
  - subst n. rewrite !bool_decide_true by done. split; [done|]. intros ch. specialize (Hc ch). by destruct ch.
  - destruct (cn_pc (chan ch b)); [|done..]. apply named_pc; [done|]. unfold notice_snapshot. rewrite Ha. by right.
  - destruct (Hc ch) as [_ Hpc]. destruct (cn_pc (chan ch b)) as [|a w| |]; [done| |done..]. apply named_pc; [done|].
    unfold notice_query. destruct (unread_summary _ _ _); [done|by left].
  - destruct (Hc ch) as [_ Hpc]. destruct (cn_pc (chan ch b)) as [| |a w u ids|]; [done|done| |done]. apply named_pc; [done|].
    destruct ch; simpl; [case_match|]; auto.
  - destruct (Hc ch) as [Ho Hpc]. destruct (cn_pc (chan ch b)) as [| | |a ids newest]; [done..|]. simpl in Hpc.
    destruct Hpc as [|[= ->]]; [done|]. rewrite bool_decide_true by done. split; [by destruct ch|]. intros ch'. specialize (Hc ch').
    destruct ch, ch'; simpl in *; auto.
  - apply named_pc; [done|by left].
Qed.

Lemma named_steps name b steps : Forall (keeps_name name) steps → named name b → named name (notice_steps b steps).
Proof. intros Hf. revert b. induction Hf as [|st steps Hst _ IH]; intros b Hb; [done|]. simpl. apply IH. by apply named_step. Qed.

(** A round of the reader that nothing disturbs. *)
Lemma read_round_spec ch b a :
  ms_agent (nb_session b) = Some a →
  cn_pc (chan ch (notice_steps b (read_round ch))) =
    match unread_summary (nb_store b) a (watermark ch (nb_session b)) with
    | Some u => NReady a (map (λ e, mg_id (ib_message e)) (unread_after (nb_store b) a (watermark ch (nb_session b))))
                  (us_newest_message_id u)
    | None => NIdle
    end.
Proof.
  intros Ha. destruct b as [s [ag wm wu] [pm am om] [pu au ou]]. simpl in Ha. subst ag.
  unfold read_round, notice_steps. destruct ch; simpl; unfold notice_snapshot; simpl; unfold notice_query;
    (destruct (unread_summary _ _ _) as [u|]; [|done]); simpl; [|done]. by rewrite !bool_decide_true.
Qed.

(** ** Theorems *)

(** C38: on each of the two channels, the model's and the user's, mail is announced once.
    However notices are prepared, consumed and lost on both channels while mail arrives and
    is read and the session is given other names, no message is in two notices that the
    channel consumed; and every message the agent has not read has been announced on the
    channel or is in the next notice prepared on it, except messages up to the watermark
    that notices for other names of the session had reached.  A session that keeps its name
    has no such exception. *)
Theorem mail_is_announced_once (agent : option string) (steps : list NoticeStep) (ch : Channel) :
  let b := notice_steps (board_new agent) steps in
  let c := chan ch b in
  NoDup (cn_announced c) ∧
  (∀ a id, ms_agent (nb_session b) = Some a → unread (nb_store b) a id →
     (id ≤ cn_other c)%Z ∨ id ∈ cn_announced c ∨
     ∃ ids newest, cn_pc (chan ch (notice_steps b (read_round ch))) = NReady a ids newest ∧ id ∈ ids ∧ (id ∉ cn_announced c)) ∧
  (∀ name, agent = Some name → Forall (keeps_name name) steps → ∀ id, unread (nb_store b) name id → ¬ (id ≤ cn_other c)%Z).
Proof.
  intros b c. pose proof (board_ok_steps _ steps (board_ok_new agent)) as [Hs Hc]. fold b in Hs, Hc. specialize (Hc ch). fold c in Hc.
  destruct Hc as [H1 H2 H3 H4 H5]. split_and!; [done| |].
  - intros a id Ha Hu. destruct (Z.le_gt_cases id (cn_other c)) as [Hle|Hgt]; [by left|]. right.
    destruct (Z.le_gt_cases id (watermark ch (nb_session b))) as [Hw|Hw]; [left; eapply H4; eauto; lia|]. right.
    rewrite read_round_spec with (a := a) by done.
    assert (id ∈ map (λ e, mg_id (ib_message e)) (unread_after (nb_store b) a (watermark ch (nb_session b)))) as Hin
      by (apply elem_of_unread_after; [done|split; [done|lia]]).
    unfold unread_summary. destruct (unread_after _ _ _) as [|e l] eqn:He; [by apply elem_of_nil in Hin|]. simpl.
    eexists _, _. split_and!; [done|exact Hin|]. intros Hann%H2. lia.
  - intros name -> Hk. assert (named name (board_new (Some name))) as Hn by (split; [done|]; intros []; simpl; auto).
    pose proof (named_steps name _ steps Hk Hn) as [_ Ho]. fold b in Ho.
    intros id (r&_&_&[m Hm]). destruct (ok_id _ Hs id m Hm). destruct (Ho ch) as [Hz _]. fold c in Hz. lia.
Qed.

(** A session that registers under another name keeps its watermarks: mail the other name
    received before is never announced. *)
Theorem renamed_session_misses_mail :
  let steps := [NsOp (OpSend "RedFox" ["BlueLake"] [] "hi" "text" Urgent false None "t1");
                NsOp (OpSend "RedFox" ["GoldHawk"] [] "hi" "text" Normal false None "t2")]
               ++ read_round ChModel ++ [NsConsumed ChModel; NsBind "BlueLake"] in
  let b := notice_steps (board_new (Some "GoldHawk")) steps in
  unread (nb_store b) "BlueLake" 1 ∧ cn_announced (nb_model b) = [2%Z] ∧
  cn_pc (nb_model (notice_steps b (read_round ChModel))) = NIdle.
Proof. vm_compute. split_and!; [|done|done]. eexists. split_and!; [done..|]. by eexists. Qed.

(** The notice for the user is not checked again after the query: one that was prepared for
    the old name and shown after the session was renamed moves the watermark past mail of the
    new name. *)
Theorem ui_notice_for_old_name_hides_mail :
  let steps := [NsOp (OpSend "RedFox" ["BlueLake"] [] "hi" "text" Urgent false None "t1");
                NsOp (OpSend "RedFox" ["GoldHawk"] [] "hi" "text" Normal false None "t2")]
               ++ [NsSnapshot ChUi; NsQuery ChUi; NsCheck ChUi; NsBind "BlueLake"] in
  let b := notice_steps (board_new (Some "GoldHawk")) steps in
  cn_other (nb_ui b) = 0%Z ∧ unread (nb_store b) "BlueLake" 1 ∧
  cn_pc (nb_ui (notice_steps b (NsConsumed ChUi :: read_round ChUi))) = NIdle.
Proof. vm_compute. split_and!; [done| |done]. eexists. split_and!; [done..|]. by eexists. Qed.
