(* ===== verification/CoordOps.v ===== *)
(** * Requests of agents to the coordination store

    The [COORD] operation ([ops/coord.rs], [coord]): a JSON body with a verb is checked,
    carried out on the store of [Coordination] and answered with JSON or a soft error, and
    the minting of names ([coordination/names.rs]).

    The clock, the process, the JSON parser, the arithmetic on dates and the faults of
    the database are arguments: [fault] is the text of the error of each statement that
    fails. *)

From stdpp Require Import base numbers list strings gmap sorting.
From S2P Require Import Prelude RustStr Safety ToolLifecycle LoopDetector ProviderErrors Providers Coordination.

(** ** Names *)

Definition ADJECTIVES : list string := [
  "Amber"; "Azure"; "Blue"; "Bold"; "Brave"; "Bright"; "Calm"; "Clever"; "Coral"; "Crimson";
  "Dawn"; "Deep"; "Eager"; "Ember"; "Fair"; "Fleet"; "Gold"; "Green"; "Grey"; "Hardy"; "Ivory";
  "Jade"; "Keen"; "Lark"; "Lucky"; "Mellow"; "Merry"; "Noble"; "Onyx"; "Pale"; "Quiet"; "Rapid";
  "Royal"; "Ruby"; "Sage"; "Scarlet"; "Silent"; "Silver"; "Slate"; "Snowy"; "Solar"; "Steady";
  "Storm"; "Swift"; "Teal"; "Umber"; "Vivid"; "Warm"; "Wild"; "Zesty"].

Definition NOUNS : list string := [
  "Alder"; "Anchor"; "Arbor"; "Badger"; "Basin"; "Beacon"; "Bear"; "Birch"; "Bison"; "Bluff";
  "Brook"; "Canyon"; "Castle"; "Cedar"; "Cliff"; "Comet"; "Crane"; "Delta"; "Dune"; "Eagle";
  "Falcon"; "Fern"; "Forge"; "Fox"; "Grove"; "Harbor"; "Hawk"; "Heron"; "Lake"; "Lynx"; "Maple";
  "Meadow"; "Mesa"; "Otter"; "Peak"; "Pine"; "Quarry"; "Raven"; "Reef"; "Ridge"; "River";
  "Stone"; "Summit"; "Thicket"; "Vale"; "Willow"; "Wolf"; "Aspen"; "Cove"; "Harrier"].

Definition name_space : nat := length ADJECTIVES * length NOUNS.

(** Arithmetic of [u64] that wraps around. *)
Definition u64_wrapping (z : Z) : Z := (z mod 18446744073709551616)%Z.

Definition mint (seed : Z) : string :=
  let mixed := u64_wrapping (u64_wrapping (seed * 6364136223846793005) + 1442695040888963407) in
  let adj := Z.to_nat (mixed mod Z.of_nat (length ADJECTIVES)) in
  let noun := Z.to_nat ((mixed / Z.of_nat (length ADJECTIVES)) mod Z.of_nat (length NOUNS)) in
  default "" (ADJECTIVES !! adj) +:+ default "" (NOUNS !! noun).

Definition is_valid (name : string) : bool :=
  negb (bool_decide (name = "")) && (String.length name <=? 64) && forallb char_is_alphanumeric (chars name).

(** ** Requests and answers *)

Definition ERR_DISABLED : Z := 40.
Definition ERR_BAD_REQUEST : Z := 41.
Definition ERR_STORE_UNAVAILABLE : Z := 42.

(** [Response::ok] and [Response::err]. *)
Definition Response : Type := result Json (Z * string).

Definition bad_request (message : string) : Response := Err (ERR_BAD_REQUEST, message).
Definition unavailable (message : string) : Response := Err (ERR_STORE_UNAVAILABLE, message).

Record CoordinationConfig := mkCoordConfig {
  cc_enabled : bool;
  cc_default_reservation_ttl_secs : Z;
  cc_max_reservation_ttl_secs : Z;
  cc_inbox_default_limit : Z;
  cc_inbox_max_limit : Z;
  cc_thread_max_messages : Z;
}.

Definition effective_inbox_default_limit (cfg : CoordinationConfig) : Z := Z.max (cc_inbox_default_limit cfg) 1.
Definition effective_inbox_max_limit (cfg : CoordinationConfig) : Z := Z.max (cc_inbox_max_limit cfg) 1.

(** The fields of the tool session that the operation uses. *)
Record CoordSession := mkCoordSession {
  cs_external_session_id : option string;
  cs_coordination_agent_name : option string;
}.

(** *** Reading the body *)

Definition body_str (body : Json) (key : string) : option string := json_get body key ≫= json_as_str.
Definition body_i64 (body : Json) (key : string) : option Z := json_get body key ≫= json_as_i64.
Definition body_bool (body : Json) (key : string) : option bool :=
  json_get body key ≫= λ v, match v with JBool b => Some b | _ => None end.

Definition str_array (body : Json) (key : string) : list string :=
  match json_get body key with Some (JArray items) => omap json_as_str items | _ => [] end.

Definition agent_arg (body : Json) : result string string :=
  match body_str body "agent" with
  | Some a => if is_valid a then Ok a else Err "coord: 'agent' is not a valid name"
  | None => Err "coord: 'agent' is required"
  end.

Definition read_agent_and_id (body : Json) : result (string * Z) string :=
  match agent_arg body with
  | Err e => Err e
  | Ok agent => match body_i64 body "message_id" with
                | Some id => Ok (agent, id)
                | None => Err "coord: 'message_id' is required"
                end
  end.

(** *** Writing the answer; the keys of a map are in order *)

Definition i64_to_string (z : Z) : string := if (z <? 0)%Z then "-" +:+ u64_to_string (- z) else u64_to_string z.
Definition jint (z : Z) : Json := JNumber (i64_to_string z).
Definition jopt (v : option string) : Json := match v with Some s => JString s | None => JNull end.
Definition jcount {A} (l : list A) : Json := jint (Z.of_nat (length l)).

Definition agent_json (a : AgentRecord) : Json :=
  JObject [("inception_ts", JString (ag_inception_ts a)); ("last_seen_ts", JString (ag_last_seen_ts a)); ("model", jopt (ag_model a));
           ("name", JString (ag_name a)); ("program", jopt (ag_program a)); ("session_id", jopt (ag_session_id a)); ("task", jopt (ag_task a))].

Definition reply_json (m : MessageRecord) : Json := match mg_reply_to m with Some id => jint id | None => JNull end.

Definition message_json (m : MessageRecord) : Json :=
  JObject [("ack_required", JBool (mg_ack_required m)); ("body", JString (mg_body m)); ("created_ts", JString (mg_created_ts m));
           ("id", jint (mg_id m)); ("importance", JString (mg_importance m)); ("reply_to", reply_json m); ("sender", JString (mg_sender m));
           ("subject", JString (mg_subject m)); ("thread_id", jint (mg_thread_id m))].

Definition inbox_entry_json (e : InboxEntry) : Json :=
  let m := ib_message e in
  JObject [("ack_required", JBool (mg_ack_required m)); ("ack_ts", jopt (ib_ack_ts e)); ("body", JString (mg_body m));
           ("created_ts", JString (mg_created_ts m)); ("id", jint (mg_id m)); ("importance", JString (mg_importance m));
           ("kind", JString (ib_kind e)); ("read_ts", jopt (ib_read_ts e)); ("reply_to", reply_json m); ("sender", JString (mg_sender m));
           ("subject", JString (mg_subject m)); ("thread_id", jint (mg_thread_id m))].

Definition reservation_json (r : ReservationRecord) : Json :=
  JObject [("agent_name", JString (rv_agent_name r)); ("created_ts", JString (rv_created_ts r)); ("exclusive", JBool (rv_exclusive r));
           ("expires_ts", JString (rv_expires_ts r)); ("id", jint (rv_id r)); ("pattern", JString (rv_pattern r));
           ("reason", jopt (rv_reason r)); ("released_ts", jopt (rv_released_ts r))].

Definition conflict_json (c : ReservationConflict) : Json :=
  JObject [("conflicting_pattern", JString (cf_conflicting_pattern c)); ("held_by", JString (cf_held_by c));
           ("pattern", JString (cf_pattern c)); ("reservation_id", jint (cf_reservation_id c))].

(** ** Verbs *)

(** The statements that can fail: what a verb does to the store first (or all it does, in a
    transaction), the look-ups of a parent message and of a candidate name, and, after a
    first statement that stands, the upsert of a registration and the reading back of the row. *)
Inductive StoreCall :=
  | Statement
  | LookUpParent
  | LookUpName (candidate : string)
  | Upsert
  | ReadBack.

Definition no_fault : StoreCall → option string := λ _, None.

Section verbs.
Context (glob : string → string → option bool) (plus_seconds : string → Z → option string) (cfg : CoordinationConfig) (fault : StoreCall → option string).

(** A statement that may fail, with the message of its error, and what follows it. *)
Definition with_call {A} (call : StoreCall) (text : string) (s : A) (k : A * Response) : A * Response :=
  match fault call with Some e => (s, unavailable (text +:+ e)) | None => k end.

Definition with_store {A} (text : string) (s : A) (k : A * Response) : A * Response := with_call Statement text s k.

(** A query whose error is dropped with [ok()]. *)
Definition or_none {A} (call : StoreCall) (row : option A) : option A :=
  match fault call with Some _ => None | None => row end.

(** [mint_available_name], from the seed [base_seed] on. *)
Fixpoint mint_from (s : CoordinationStore) (base_seed : Z) (i attempts : nat) : option string :=
  match attempts with
  | 0 => None
  | S attempts =>
      let candidate := mint (u64_wrapping (base_seed + Z.of_nat i)) in
      match or_none (LookUpName candidate) (agent s candidate) with
      | None => Some candidate
      | Some _ => mint_from s base_seed (S i) attempts
      end
  end.

Definition mint_available_name (s : CoordinationStore) (base_seed : Z) : option string :=
  mint_from s base_seed 0 (name_space `min` 256).

(** [CoordinationStore::register_agent], three statements of which each may fail. *)
Definition register_agent_or_fail (name : string) (session_id program model task : option string) (now : string) (s : CoordinationStore)
    : CoordinationStore * result AgentRecord string :=
  match (match session_id with Some _ => fault Statement | None => None end) with
  | Some e => (s, Err e)
  | None =>
      let s := unbind_session session_id name s in
      match fault Upsert with
      | Some e => (s, Err e)
      | None =>
          let s := upsert_agent name session_id program model task now s in
          (s, match or_none ReadBack (agent s name) with
              | Some a => Ok a
              | None => Err "agent row missing immediately after register"
              end)
      end
  end.

Definition op_register_agent (body : Json) (base_seed : Z) (now : string) (session : CoordSession) (s : CoordinationStore)
    : CoordSession * CoordinationStore * Response :=
  let name := match body_str body "name" with
              | Some n => if is_valid n then Ok n else Err (ERR_BAD_REQUEST, "coord: 'name' must be ASCII alphanumeric, 1..=64 chars")
              | None => match mint_available_name s base_seed with
                        | Some n => Ok n
                        | None => Err (ERR_STORE_UNAVAILABLE, "coord: could not mint a free agent name")
                        end
              end in
  match name with
  | Err e => (session, s, Err e)
  | Ok name =>
      let session_id := or_else (body_str body "session_id") (cs_external_session_id session) in
      match register_agent_or_fail name session_id (body_str body "program") (body_str body "model") (body_str body "task") now s with
      | (s', Ok a) =>
          (mkCoordSession (cs_external_session_id session) (Some (ag_name a)), s', Ok (JObject [("agent", agent_json a)]))
      | (s', Err e) => (session, s', unavailable ("coord: register failed: " +:+ e))
      end
  end.

Definition op_list_agents (body : Json) (s : CoordinationStore) : CoordinationStore * Response :=
  let limit := default (effective_inbox_default_limit cfg) (body_i64 body "limit") in
  with_store "coord: list failed: " s
    (let agents := list_agents s limit in
     (s, Ok (JObject [("agents", JArray (map agent_json agents)); ("count", jcount agents)]))).

(** The last part of [send_message]: someone must be addressed. *)
Definition send_checked (body : Json) (sender : string) (to cc : list string) (reply_to : option Z) (now : string) (s : CoordinationStore)
    : CoordinationStore * Response :=
  let importance := importance_parse (default "normal" (body_str body "importance")) in
  if bool_decide (to = [] ∧ cc = []) then (s, bad_request "coord: at least one recipient required (no broadcast)")
  else with_store "coord: send failed: " s
    match send_message sender to cc (default "" (body_str body "subject")) (default "" (body_str body "body")) importance
            (default false (body_bool body "ack_required")) reply_to now s with
    | (s', Ok r) =>
        (s', Ok (JObject [("message_id", jint (sr_message_id r)); ("recipients", JArray (map JString (sr_recipients r)));
                          ("thread_id", jint (sr_thread_id r))]))
    | (s', Err e) => (s', unavailable ("coord: send failed: " +:+ e))
    end.

Definition op_send_message (body : Json) (now : string) (is_reply : bool) (s : CoordinationStore) : CoordinationStore * Response :=
  match body_str body "sender" with
  | None => (s, bad_request "coord: 'sender' is required")
  | Some sender =>
      if negb (is_valid sender) then (s, bad_request "coord: 'sender' is not a valid name")
      else
        let to := str_array body "to" in
        let cc := str_array body "cc" in
        match body_i64 body "reply_to" with
        | Some parent_id =>
            if is_reply then
              with_call LookUpParent "coord: reply lookup failed: " s
                match message s parent_id with
                | Some parent =>
                    send_checked body sender (if bool_decide (to = [] ∧ cc = []) then [mg_sender parent] else to) cc (Some parent_id) now s
                | None => (s, bad_request ("coord: reply_to message " +:+ i64_to_string parent_id +:+ " not found"))
                end
            else (s, bad_request "coord: use reply_message (not send_message) to reply within a thread")
        | None =>
            if is_reply then (s, bad_request "coord: reply_message requires 'reply_to'")
            else send_checked body sender to cc None now s
        end
  end.

Definition op_fetch_inbox (body : Json) (s : CoordinationStore) : CoordinationStore * Response :=
  match agent_arg body with
  | Err e => (s, bad_request e)
  | Ok agent =>
      let f := mkInboxFilter (default false (body_bool body "unread_only")) (importance_parse <$> body_str body "min_importance")
                 (body_str body "since") in
      let limit := Z.min (default (effective_inbox_default_limit cfg) (body_i64 body "limit")) (effective_inbox_max_limit cfg) in
      with_store "coord: fetch_inbox failed: " s
        (let entries := fetch_inbox s agent f limit in
         (s, Ok (JObject [("count", jcount entries); ("messages", JArray (map inbox_entry_json entries))])))
  end.

Definition op_fetch_thread (body : Json) (s : CoordinationStore) : CoordinationStore * Response :=
  match body_i64 body "thread_id" with
  | None => (s, bad_request "coord: 'thread_id' is required")
  | Some thread_id =>
      with_store "coord: fetch_thread failed: " s
        (let messages := thread s thread_id (Z.max (cc_thread_max_messages cfg) 1) in
         (s, Ok (JObject [("count", jcount messages); ("messages", JArray (map message_json messages)); ("thread_id", jint thread_id)])))
  end.

Definition not_a_recipient (agent : string) (message_id : Z) : Response :=
  bad_request ("coord: " +:+ agent +:+ " is not a recipient of message " +:+ i64_to_string message_id).

Definition op_mark_read (body : Json) (now : string) (s : CoordinationStore) : CoordinationStore * Response :=
  match read_agent_and_id body with
  | Err e => (s, bad_request e)
  | Ok (agent, id) =>
      with_store "coord: mark_read failed: " s
        (let '(s', row) := mark_read agent id now s in
         match or_none ReadBack row with
         | Some ts => (s', Ok (JObject [("message_id", jint id); ("read_ts", JString ts)]))
         | None => (s', not_a_recipient agent id)
         end)
  end.

Definition op_acknowledge (body : Json) (now : string) (s : CoordinationStore) : CoordinationStore * Response :=
  match read_agent_and_id body with
  | Err e => (s, bad_request e)
  | Ok (agent, id) =>
      with_store "coord: acknowledge failed: " s
        (let '(s', row) := acknowledge agent id now s in
         match or_none ReadBack row with
         | Some (read_ts, ack_ts) =>
             (s', Ok (JObject [("ack_ts", jopt ack_ts); ("message_id", jint id); ("read_ts", jopt read_ts)]))
         | None => (s', not_a_recipient agent id)
         end)
  end.

Definition RESERVATION_SCAN_CAP : Z := 1000.

(** A [u64] cast to [i64]. *)
Definition u64_as_i64 (z : Z) : Z := if (z <=? I64_MAX)%Z then z else (z - 18446744073709551616)%Z.

(** [requested.clamp(60, max)] panics when [max] is less. *)
Definition compute_expiry (body : Json) (now : string) : option string :=
  let requested := default (u64_as_i64 (cc_default_reservation_ttl_secs cfg)) (body_i64 body "ttl_secs") in
  let max := u64_as_i64 (Z.max (cc_max_reservation_ttl_secs cfg) 60) in
  if (max <? 60)%Z then None else plus_seconds now (Z.min (Z.max requested 60) max).

Definition op_reserve_paths (body : Json) (now : string) (s : CoordinationStore) : option (CoordinationStore * Response) :=
  match agent_arg body with
  | Err e => Some (s, bad_request e)
  | Ok agent =>
      let patterns := str_array body "paths" in
      if bool_decide (patterns = []) then Some (s, bad_request "coord: 'paths' must be a non-empty array")
      else compute_expiry body now ≫= λ expires_ts,
        Some (with_store "coord: reserve failed: " s
          (let '(s', (granted, conflicts, truncated)) :=
             reserve_paths glob agent patterns (default true (body_bool body "exclusive")) (body_str body "reason") now expires_ts
               RESERVATION_SCAN_CAP s in
           (s', Ok (JObject [("conflicts", JArray (map conflict_json conflicts)); ("expires_ts", JString expires_ts);
                             ("granted", JArray (map reservation_json granted)); ("scan_truncated", JBool truncated)]))))
  end.

Definition op_renew_reservations (body : Json) (now : string) (s : CoordinationStore) : option (CoordinationStore * Response) :=
  match agent_arg body with
  | Err e => Some (s, bad_request e)
  | Ok agent =>
      compute_expiry body now ≫= λ expires_ts,
        Some (with_store "coord: renew failed: " s
          (let '(s', n) := renew_reservations agent now expires_ts s in
           (s', Ok (JObject [("expires_ts", JString expires_ts); ("renewed", jint (Z.of_nat n))]))))
  end.

Definition op_release_reservations (body : Json) (now : string) (s : CoordinationStore) : CoordinationStore * Response :=
  match agent_arg body with
  | Err e => (s, bad_request e)
  | Ok agent =>
      with_store "coord: release failed: " s
        (let '(s', n) := release_reservations agent (str_array body "paths") now s in
         (s', Ok (JObject [("released", jint (Z.of_nat n))])))
  end.

Definition op_check_conflicts (body : Json) (now : string) (s : CoordinationStore) : CoordinationStore * Response :=
  match agent_arg body with
  | Err e => (s, bad_request e)
  | Ok agent =>
      let patterns := str_array body "paths" in
      if bool_decide (patterns = []) then (s, bad_request "coord: 'paths' must be a non-empty array")
      else with_store "coord: check_conflicts failed: " s
        (let '(conflicts, truncated) := check_conflicts glob s agent patterns now RESERVATION_SCAN_CAP in
         (s, Ok (JObject [("conflict_free", JBool (bool_decide (conflicts = []) && negb truncated));
                          ("conflicts", JArray (map conflict_json conflicts)); ("scan_truncated", JBool truncated)])))
  end.

Definition op_list_reservations (body : Json) (now : string) (s : CoordinationStore) : CoordinationStore * Response :=
  match agent_arg body with
  | Err e => (s, bad_request e)
  | Ok agent =>
      with_store "coord: list_reservations failed: " s
        (let rs := list_reservations s agent now (default 100%Z (body_i64 body "limit")) in
         (s, Ok (JObject [("count", jcount rs); ("reservations", JArray (map reservation_json rs))])))
  end.

(** The verbs that do not touch the session. *)
Definition dispatch (verb : string) (body : Json) (now : string) (s : CoordinationStore) : option (CoordinationStore * Response) :=
  if bool_decide (verb = "list_agents") then Some (op_list_agents body s)
  else if bool_decide (verb = "send_message") then Some (op_send_message body now false s)
  else if bool_decide (verb = "reply_message") then Some (op_send_message body now true s)
  else if bool_decide (verb = "fetch_inbox") then Some (op_fetch_inbox body s)
  else if bool_decide (verb = "fetch_thread") then Some (op_fetch_thread body s)
  else if bool_decide (verb = "mark_read") then Some (op_mark_read body now s)
  else if bool_decide (verb = "acknowledge") then Some (op_acknowledge body now s)
  else if bool_decide (verb = "reserve_paths") then op_reserve_paths body now s
  else if bool_decide (verb = "renew_reservations") then op_renew_reservations body now s
  else if bool_decide (verb = "release_reservations") then Some (op_release_reservations body now s)
  else if bool_decide (verb = "check_conflicts") then Some (op_check_conflicts body now s)
  else if bool_decide (verb = "list_reservations") then Some (op_list_reservations body now s)
  else Some (s, bad_request ("coord: unknown verb '" +:+ verb +:+ "'")).

(** [coord]; [None] is a panic.  [parsed] is the body as JSON or the error of the parser,
    [opened] whether the store could be opened. *)
Definition coord (parsed : option (result Json string)) (opened : result () string) (base_seed : Z) (now : string)
    (session : CoordSession) (s : CoordinationStore) : option (CoordSession * CoordinationStore * Response) :=
  match parsed with
  | None => Some (session, s, bad_request "coord: missing JSON body in 's'")
  | Some (Err e) => Some (session, s, bad_request ("coord: invalid JSON body: " +:+ e))
  | Some (Ok body) =>
      match body_str body "verb" with
      | None => Some (session, s, bad_request "coord: missing 'verb'")
      | Some verb =>
          if negb (cc_enabled cfg)
          then Some (session, s, Err (ERR_DISABLED, "coordination is disabled ([coordination] enabled=false)"))
          else match opened with
               | Err e => Some (session, s, unavailable ("coordination store unavailable: " +:+ e))
               | Ok _ =>
                   if bool_decide (verb = "register_agent") then Some (op_register_agent body base_seed now session s)
                   else (λ p, (session, p.1, p.2)) <$> dispatch verb body now s
               end
      end
  end.

End verbs.

(** ** Lemmas *)

Lemma mint_parts seed : ∃ a n, a ∈ ADJECTIVES ∧ n ∈ NOUNS ∧ mint seed = a +:+ n.
Proof.
  unfold mint. set (mixed := u64_wrapping _).
  assert (∀ (l : list string) z, l ≠ [] → ∃ x, l !! Z.to_nat (z mod Z.of_nat (length l)) = Some x) as Hpick.
  { intros l z Hl. apply lookup_lt_is_Some_2. assert (0 < length l) by (destruct l; [done|simpl; lia]).
    pose proof (Z.mod_pos_bound z (Z.of_nat (length l)) ltac:(lia)). lia. }
  destruct (Hpick ADJECTIVES mixed) as [a Ha]; [done|]. destruct (Hpick NOUNS (mixed / Z.of_nat (length ADJECTIVES))%Z) as [n Hn]; [done|].
  exists a, n. rewrite Ha, Hn. split_and!; [by eapply list_elem_of_lookup_2..|done].
Qed.

Lemma words_are_valid : forallb (λ a, forallb (λ n, is_valid (a +:+ n)) NOUNS) ADJECTIVES = true.
Proof. vm_compute. reflexivity. Qed.

Lemma mint_valid seed : is_valid (mint seed) = true.
Proof.
  destruct (mint_parts seed) as (a&n&Ha&Hn&->). pose proof words_are_valid as H. rewrite forallb_forall in H.
  specialize (H a (proj1 (list_elem_of_In _ _) Ha)). rewrite forallb_forall in H. apply H. by apply list_elem_of_In.
Qed.

Lemma mint_from_free fault s seed i attempts name :
  mint_from fault s seed i attempts = Some name → is_valid name = true ∧ (fault (LookUpName name) = None → agent s name = None).
Proof.
  revert i. induction attempts as [|n IH]; intros i; simpl; [done|]. unfold or_none at 1.
  set (c := mint (u64_wrapping (seed + Z.of_nat i))). assert (is_valid c = true) by apply mint_valid.
  destruct (fault (LookUpName c)) eqn:Hf; [intros [= <-]; split; [done|congruence]|].
  destruct (agent s c) eqn:Ha; [by apply IH|]. by intros [= <-].
Qed.

Lemma register_without_fault name sid program model task now s :
  register_agent_or_fail no_fault name sid program model task now s =
    (prod_map id (λ a, match a with Some a => Ok a | None => Err "agent row missing immediately after register" end)
      (register_agent name sid program model task now s)).
Proof. unfold register_agent_or_fail, register_agent, no_fault, or_none. by destruct sid. Qed.

Lemma alter_missing {A} (f : A → A) (k : Z * string) (m : gmap (Z * string) A) : m !! k = None → alter f k m = m.
Proof.
  intros Hk. apply map_eq. intros i. destruct (decide (k = i)) as [->|Hne]; [by rewrite lookup_alter_eq, Hk|by rewrite lookup_alter_ne].
Qed.

Lemma set_recipients_same s : set_recipients (co_recipients s) s = s.
Proof. by destruct s. Qed.

Lemma mark_read_none agent id now s s' : mark_read agent id now s = (s', None) → s' = s.
Proof.
  unfold mark_read. intros [= <- Hn]. simpl in Hn. rewrite lookup_alter_eq in Hn.
  destruct (co_recipients s !! (id, agent)) as [r|] eqn:Hr; simpl in Hn; [by destruct (rp_read_ts r)|].
  rewrite alter_missing by done. apply set_recipients_same.
Qed.

Lemma acknowledge_none agent id now s s' : acknowledge agent id now s = (s', None) → s' = s.
Proof.
  unfold acknowledge. intros [= <- Hn]. simpl in Hn. rewrite lookup_alter_eq in Hn.
  destruct (co_recipients s !! (id, agent)) as [r|] eqn:Hr; simpl in Hn; [done|]. rewrite alter_missing by done. apply set_recipients_same.
Qed.

(** An answer that is an error has one of the codes and left the store alone, unless a
    statement failed after another. *)
Definition soft (fault : StoreCall → option string) (s : CoordinationStore) (p : CoordinationStore * Response) : Prop :=
  ∀ code message, p.2 = Err (code, message) →
    code ∈ [ERR_DISABLED; ERR_BAD_REQUEST; ERR_STORE_UNAVAILABLE] ∧
    co_messages p.1 = co_messages s ∧ co_reservations p.1 = co_reservations s ∧
    (fault Upsert = None → fault ReadBack = None → p.1 = s).

Section soft_cases.
Context (fault : StoreCall → option string) (s : CoordinationStore).

Lemma soft_code s' code m :
  code ∈ [ERR_DISABLED; ERR_BAD_REQUEST; ERR_STORE_UNAVAILABLE] →
  co_messages s' = co_messages s → co_reservations s' = co_reservations s →
  (fault Upsert = None → fault ReadBack = None → s' = s) → soft fault s (s', Err (code, m)).
Proof. intros Hc Hm Hr Hs code' m' [= <- <-]. done. Qed.

Lemma soft_bad m : soft fault s (s, bad_request m).
Proof. apply soft_code; [set_solver|done..]. Qed.

Lemma soft_unavailable m : soft fault s (s, unavailable m).
Proof. apply soft_code; [set_solver|done..]. Qed.

Lemma soft_ok s' v : soft fault s (s', Ok v).
Proof. by intros code msg. Qed.

Lemma soft_call call text k : soft fault s k → soft fault s (with_call fault call text s k).
Proof. intros Hk. unfold with_call. destruct (fault call); [apply soft_unavailable|done]. Qed.

Lemma soft_with text k : soft fault s k → soft fault s (with_store fault text s k).
Proof. apply soft_call. Qed.

End soft_cases.

Create HintDb soft.
#[local] Hint Resolve soft_bad soft_unavailable soft_ok soft_call soft_with : soft.

Section soft.
Context (glob : string → string → option bool) (plus_seconds : string → Z → option string) (cfg : CoordinationConfig) (fault : StoreCall → option string).

Lemma soft_send_checked body sender to cc reply_to now s : soft fault s (send_checked fault body sender to cc reply_to now s).
Proof.
  unfold send_checked. case_bool_decide; [auto with soft|]. apply soft_with.
  destruct (send_message _ _ _ _ _ _ _ _ _ _) as [s' [r|e]] eqn:Hs; [auto with soft|]. apply send_message_err in Hs as [-> _]. auto with soft.
Qed.

Lemma soft_send body now is_reply s : soft fault s (op_send_message fault body now is_reply s).
Proof.
  unfold op_send_message. destruct (body_str body "sender") as [sender|]; [|auto with soft]. destruct (is_valid sender); simpl; [|auto with soft].
  destruct (body_i64 body "reply_to") as [p|], is_reply; auto using soft_send_checked with soft. apply soft_call.
  destruct (message s p); auto using soft_send_checked with soft.
Qed.

Lemma soft_read body now s : soft fault s (op_mark_read fault body now s) ∧ soft fault s (op_acknowledge fault body now s).
Proof.
  unfold op_mark_read, op_acknowledge. destruct (read_agent_and_id body) as [[a id]|e]; [|auto with soft]. split; apply soft_with.
  - destruct (mark_read a id now s) as [s' row] eqn:Hr. unfold or_none. destruct (fault ReadBack) eqn:Hf.
    + apply soft_code; [set_solver|by injection Hr as <- _..|congruence].
    + destruct row as [ts|]; [auto with soft|]. apply mark_read_none in Hr as ->. apply soft_bad.
  - destruct (acknowledge a id now s) as [s' row] eqn:Hr. unfold or_none. destruct (fault ReadBack) eqn:Hf.
    + apply soft_code; [set_solver|by injection Hr as <- _..|congruence].
    + destruct row as [[r k]|]; [auto with soft|]. apply acknowledge_none in Hr as ->. apply soft_bad.
Qed.

Lemma soft_register body seed now session s :
  let '(session', s', r) := op_register_agent fault body seed now session s in
  soft fault s (s', r) ∧ ∀ e, r = Err e → session' = session.
Proof using fault.
  clear glob plus_seconds cfg.
  unfold op_register_agent. destruct (match body_str body "name" with Some _ => _ | None => _ end) as [name|[code m]] eqn:Hname.
  - unfold register_agent_or_fail. set (sid := or_else (body_str body "session_id") (cs_external_session_id session)).
    destruct (match sid with Some _ => _ | None => _ end) as [e|]; [split; [apply soft_unavailable|done]|].
    destruct (fault Upsert) as [e|] eqn:Hu.
    { split; [|done]. apply soft_code; [set_solver|by destruct sid..|congruence]. }
    unfold or_none. destruct (fault ReadBack) as [e|] eqn:Hb.
    { split; [|done]. apply soft_code; [set_solver|by destruct sid..|congruence]. }
    unfold agent, upsert_agent at 1. cbn [co_agents set_agents]. rewrite lookup_insert_eq. by split.
  - split; [|done]. apply soft_code; [|done..]. destruct (body_str body "name") as [n|]; [|destruct (mint_available_name fault s seed)];
      [destruct (is_valid n)| |]; simplify_eq; set_solver.
Qed.

Lemma soft_reservations body now s :
  soft fault s (op_release_reservations fault body now s) ∧ soft fault s (op_check_conflicts glob fault body now s) ∧
  soft fault s (op_list_reservations fault body now s) ∧
  (∀ p, op_reserve_paths glob plus_seconds cfg fault body now s = Some p → soft fault s p) ∧
  (∀ p, op_renew_reservations plus_seconds cfg fault body now s = Some p → soft fault s p).
Proof.
  unfold op_release_reservations, op_check_conflicts, op_list_reservations, op_reserve_paths, op_renew_reservations.
  destruct (agent_arg body) as [a|e]; [|split_and!; try (intros p [= <-]); auto with soft]. split_and!.
  - apply soft_with. destruct (release_reservations _ _ _ _). auto with soft.
  - case_bool_decide; [auto with soft|]. apply soft_with. destruct (check_conflicts _ _ _ _ _ _). auto with soft.
  - auto with soft.
  - intros p. case_bool_decide; [intros [= <-]; auto with soft|]. intros (t&_&[= <-])%bind_Some. apply soft_with.
    destruct (reserve_paths _ _ _ _ _ _ _ _ _) as [? [[? ?] ?]]. auto with soft.
  - intros p (t&_&[= <-])%bind_Some. apply soft_with, soft_ok.
Qed.

Lemma soft_dispatch verb body now s p : dispatch glob plus_seconds cfg fault verb body now s = Some p → soft fault s p.
Proof.
  destruct (soft_read body now s) as [H1 H2], (soft_reservations body now s) as (H3&H4&H5&H6&H7).
  unfold dispatch. repeat (case_bool_decide; [|]); try (intros [= <-]); auto using soft_send with soft.
  - unfold op_list_agents. auto with soft.
  - unfold op_fetch_inbox. destruct (agent_arg body); auto with soft.
  - unfold op_fetch_thread. destruct (body_i64 body "thread_id"); auto with soft.
Qed.

(** The time of expiry cannot be computed: the limit is negative as [i64], or the date is
    out of range. *)
Definition expiry_overflows (now : string) : Prop :=
  (I64_MAX < cc_max_reservation_ttl_secs cfg)%Z ∨
  ∃ n, (60 ≤ n ≤ Z.max 60 (cc_max_reservation_ttl_secs cfg))%Z ∧ plus_seconds now n = None.

Lemma compute_expiry_none body now : compute_expiry plus_seconds cfg body now = None → expiry_overflows now.
Proof.
  unfold compute_expiry, u64_as_i64, expiry_overflows.
  destruct (Z.leb_spec (Z.max (cc_max_reservation_ttl_secs cfg) 60) I64_MAX) as [Hle|Hgt]; [|left; unfold I64_MAX in *; lia].
  rewrite (proj2 (Z.ltb_ge _ _)) by lia. intros Hn. right. eexists. split; [|exact Hn]. lia.
Qed.

Lemma dispatch_none verb body now s :
  dispatch glob plus_seconds cfg fault verb body now s = None →
  (verb = "reserve_paths" ∨ verb = "renew_reservations") ∧ expiry_overflows now.
Proof.
  unfold dispatch. repeat (case_bool_decide; [try done|]); try done.
  - unfold op_reserve_paths. destruct (agent_arg body); [|done]. case_bool_decide; [done|].
    destruct (compute_expiry _ _ _ _) eqn:He; [done|]. intros _. split; [by left|by eapply compute_expiry_none].
  - unfold op_renew_reservations. destruct (agent_arg body); [|done].
    destruct (compute_expiry _ _ _ _) eqn:He; [done|]. intros _. split; [by right|by eapply compute_expiry_none].
Qed.

End soft.

(** ** Theorems *)

(** C40: coordination fails softly: whatever the request and whichever statements fail, a
    call that returns an error returns one of the three codes of coordination and leaves the
    session, the mail and the reservations as they were, and the agents and the marks on mail
    too unless a statement failed that follows another one.  A call fails to return (it
    panics) only when it reserves files or renews reservations and the time of expiry cannot
    be computed, because the configured limit is not an [i64] or the date is out of range. *)
Theorem coord_fails_softly (glob : string → string → option bool) (plus_seconds : string → Z → option string)
    (cfg : CoordinationConfig) (fault : StoreCall → option string) (parsed : option (result Json string)) (opened : result () string)
    (base_seed : Z) (now : string) (session : CoordSession) (s : CoordinationStore) :
  match coord glob plus_seconds cfg fault parsed opened base_seed now session s with
  | Some (session', s', r) =>
      ∀ code message, r = Err (code, message) →
        code ∈ [ERR_DISABLED; ERR_BAD_REQUEST; ERR_STORE_UNAVAILABLE] ∧ session' = session ∧
        co_messages s' = co_messages s ∧ co_reservations s' = co_reservations s ∧
        (fault Upsert = None → fault ReadBack = None → s' = s)
  | None =>
      ∃ body verb, parsed = Some (Ok body) ∧ body_str body "verb" = Some verb ∧
        (verb = "reserve_paths" ∨ verb = "renew_reservations") ∧ expiry_overflows plus_seconds cfg now
  end.
Proof.
  unfold coord. destruct parsed as [[body|e]|]; [|intros code m Hm; by destruct (soft_bad fault s _ code m Hm)..].
  destruct (body_str body "verb") as [verb|] eqn:Hverb; [|intros code m Hm; by destruct (soft_bad fault s _ code m Hm)].
  destruct (cc_enabled cfg); simpl; [|intros code m [= <- <-]; split_and!; [set_solver|done..]].
  destruct opened; [|intros code m Hm; by destruct (soft_unavailable fault s _ code m Hm)]. case_bool_decide.
  - pose proof (soft_register fault body base_seed now session s) as Hr.
    destruct (op_register_agent fault body base_seed now session s) as [[session' s'] r]. destruct Hr as [Hr He].
    intros code m Hm. destruct (Hr code m Hm). split; [done|]. by rewrite (He _ Hm).
  - destruct (dispatch glob plus_seconds cfg fault verb body now s) as [[s' r]|] eqn:Hd; simpl.
    + intros code m Hm. by destruct (soft_dispatch _ _ _ _ _ _ _ _ _ Hd code m Hm).
    + apply dispatch_none in Hd as [Hv Ho]. by exists body, verb.
Qed.

Definition demo_reserve : Json :=
  JObject [("verb", JString "reserve_paths"); ("agent", JString "BlueLake"); ("paths", JArray [JString "src/main.rs"])].

(** names are well formed and free: every name that is minted is a valid one, and a
    registration without a name takes one that no agent has, unless looking it up failed. *)
Theorem minted_names_are_valid_and_free (fault : StoreCall → option string) (s : CoordinationStore) (base_seed seed : Z) :
  is_valid (mint seed) = true ∧
  ∀ name, mint_available_name fault s base_seed = Some name →
    is_valid name = true ∧ (fault (LookUpName name) = None → agent s name = None).
Proof. split; [apply mint_valid|]. intros name Hn. by apply mint_from_free in Hn. Qed.

(** A message addressed only to its sender has nobody to go to: the request passes the
    check for recipients, the store refuses it, and the answer says that the store is
    unavailable although nothing is wrong with it. *)
Theorem self_addressed_mail_blames_the_store :
  let body := JObject [("verb", JString "send_message"); ("sender", JString "BlueLake"); ("to", JArray [JString "BlueLake"])] in
  (op_send_message no_fault body "t1" false coord_new).2 =
    Err (ERR_STORE_UNAVAILABLE, "coord: send failed: send_message requires at least one recipient (no broadcast)").
Proof. vm_compute. reflexivity. Qed.

(** A limit on reservations of 2^63 seconds or more is negative as [i64]: the clamp, and with it
    every reservation, panics. *)
Theorem huge_reservation_limit_panics (glob : string → string → option bool) (plus_seconds : string → Z → option string) :
  let cfg := mkCoordConfig true 3600 9223372036854775808 20 500 500 in
  coord glob plus_seconds cfg no_fault (Some (Ok demo_reserve)) (Ok ()) 7 "t1" (mkCoordSession None None) coord_new = None.
Proof. vm_compute. reflexivity. Qed.

(** A registration that fails halfway has already taken the session from the agent that had
    it: the error leaves the session bound to nobody. *)
Theorem failed_registration_drops_the_binding :
  let s := (register_agent "BlueLake" (Some "acp-1") None None None "t1" coord_new).1 in
  let body := JObject [("verb", JString "register_agent"); ("name", JString "RedFox"); ("session_id", JString "acp-1")] in
  let fault call := match call with Upsert => Some "register agent" | _ => None end in
  let '(_, s', r) := op_register_agent fault body 7 "t2" (mkCoordSession None None) s in
  agent_name_for_session s "acp-1" = Some "BlueLake" ∧
  r = unavailable "coord: register failed: register agent" ∧ agent_name_for_session s' "acp-1" = None.
Proof. vm_compute. done. Qed.

(** A name that cannot be looked up counts as free: the new agent takes the row, and with it
    the mail, of the agent that has the name. *)
Theorem failed_lookup_takes_a_name :
  let s := (register_agent (mint 7) None (Some "first") None None "t1" coord_new).1 in
  let fault call := match call with LookUpName _ => Some "database is locked" | _ => None end in
  let '(_, s', r) := op_register_agent fault (JObject [("verb", JString "register_agent")]) 7 "t2" (mkCoordSession None None) s in
  mint_available_name no_fault s 7 ≠ Some (mint 7) ∧
  r = Ok (JObject [("agent", agent_json (mkAgent (mint 7) None (Some "first") None None "t1" "t2"))]).
Proof. vm_compute. done. Qed.

(** A mark that stands but cannot be read back is answered as if the agent had not been a
    recipient: the request is blamed for a fault of the store. *)
Theorem failed_read_back_blames_the_request :
  let s := (send_message "RedFox" ["BlueLake"] [] "" "" Normal false None "t1" coord_new).1 in
  let body := JObject [("verb", JString "mark_read"); ("agent", JString "BlueLake"); ("message_id", JNumber "1")] in
  let fault call := match call with ReadBack => Some "disk I/O error" | _ => None end in
  let '(s', r) := op_mark_read fault body "t2" s in
  r = bad_request "coord: BlueLake is not a recipient of message 1" ∧
  (co_recipients s' !! (1%Z, "BlueLake") ≫= rp_read_ts) = Some "t2".
Proof. vm_compute. done. Qed.
